(* ===== verification/_CoqProject ===== *)
-Q . S2P
Prelude.v
PyStd.v
Md5.v
BPlusTree.v
BPlusTreeFacts.v
Transactions.v
Raft.v
Sharding.v
Storage.v
Mvcc.v
TxStore.v
Json.v
Wal.v
SSTable.v
MemTable.v
SecondaryIndex.v
BTreeEngine.v
LSM.v
AuthPool.v
RateLimiter.v
ShardStore.v
Gossip.v
Placement.v
TwoPhase.v
RaftNode.v
SqlParser.v
Relational.v
RelationalFacts.v
Sessions.v
