(* ===== verification/Prelude.v ===== *)
(** * LiteDB: a verified model of [litedb-python]

    LiteDB is a database in Python (sources under [src/litedb-python/]): storage engines,
    transactions, a relational layer and a distributed key-value cluster.  This library
    models its data structures and protocols as Rocq functions and step relations and
    proves what makes them correct.  Definitions keep the names of the source where they
    can and are executable.

    ** The program and the files that model it

    Storage, bottom up:
    - [btree.py], the B+ tree: [BPlusTree] (nodes, search, insertion with splits, deletion
      with rebalancing, leaf chain) and [BPlusTreeFacts] (its theory).
    - [wal.py], the write-ahead log: [Wal], on the bytes of the file.
    - [sstable.py], sorted tables with Bloom filter and sparse index: [SSTable], on bytes.
    - [memtable.py] and [secondary_index.py]: [MemTable], [SecondaryIndex].
    - [storage_engine.py]: [Storage], the type class [StorageEngine] and the laws
      [EngineLaws] and [EngineDeletes] that its clients are proved against.
    - [btree_engine.py] and [lsm_engine.py]: [BTreeEngine] and [LSM], which compose the
      parts above; the former discharges the laws of the interface.

    Transactions on one node:
    - [transactions.py]: [Transactions], lock manager, version store and transactions as
      steps of a world of clients.
    - [mvcc.py]: [Mvcc], versions as keys of any engine that satisfies the laws; [TxStore],
      its transactions as maps, the interface that the relational layer is proved against.
    - [auth_pool.py]: [AuthPool], accounts and connection pool; [RateLimiter].

    SQL:
    - [sql_parser.py]: [SqlParser], tokens, syntax trees and the recursive-descent parser.
    - [relational_engine.py], [catalog.py] and the codecs [row_codec.py], [type_codec.py],
      [column.py], [table_schema.py], [index_def.py]: [Relational] (statements on a
      transaction seen through the type class [TxStore], sessions over [Mvcc]),
      [RelationalFacts] (the specification of statements and its proof) and [Sessions]
      (the specification of sessions and its proof, over [Mvcc]).

    The cluster:
    - [raft.py] (the in-process Raft): [Raft]; [raft_node.py] (the networked Raft groups of
      the cluster): [RaftNode].
    - [sharding.py] and [partition.py]: [Sharding], the hash ring over [Md5].
    - [hlc.py], [shard_store.py], [shard_replica.py], [txn_log.py]: [ShardStore], the state
      machine that a Raft group drives, its leader, and the coordinator's log.
    - [gossip.py]: [Gossip]; [pd.py] and the placement function of [cluster_config.py]:
      [Placement]; the two-phase commit of [node.py]: [TwoPhase], over the abstract shard
      that [ShardStore] refines.

    [Prelude] (this file) holds strings, errors, dictionaries and the shared lemmas and
    tactics; [PyStd], [Json] and [Md5] model the parts of the Python library the sources
    use.

    ** Conventions

    A Python [str] is a list of code points and [bytes] a list of bytes, both [list N];
    strings compare lexicographically. Code that can raise returns [res]. A [dict] is a
    [gmap], or an association list where its order shows. Methods that hold a lock are
    atomic steps; concurrency is the order of the steps. A method that works before it takes
    the lock is two steps ([AuthPool]), a lock that the same thread takes twice is part of
    the state ([LSM]), and a protocol between nodes is one step per call, with a network
    that loses, delays and repeats requests ([TwoPhase], [RaftNode]). Clock readings, random
    choices, shuffles, answers of other nodes and crashes are inputs, so the theorems hold
    for all of them. Files are their bytes or texts; a crash keeps a prefix of the bytes
    being written. Integers are unbounded, as in Python; fixed widths appear where [struct]
    and the hash functions impose them. Floats that matter have 53-bit mantissas and round
    to nearest even ([RateLimiter]); elsewhere a float is its numeral or a parameter, and a
    time is an integer.

    ** What the theorems show

    - B+ tree: lookup, insertion, deletion and scan implement a finite map on well-formed
      trees; occupancy and height bounds after insertions; two situations in which deletion
      loses keys ([BPlusTreeFacts]).
    - Files: a log or table is read back exactly; a crash at any byte of the next record
      loses only that record ([Wal], [SSTable], [BTreeEngine], [LSM]).
    - Engines: reads return the newest live entries, a write changes its key only, whatever
      its outcome, and is in effect when it returns; compaction and recovery change nothing;
      the fourth flush of an LSM engine blocks for ever ([LSM]).
    - Transactions: repeatable reads and all-or-nothing commits ([Transactions]); first
      committer wins, isolated commits and safe vacuum ([Mvcc]); locking out accounts and
      exclusive connections ([AuthPool]), bounded rates ([RateLimiter]).
    - SQL: the parser implements the documented grammar, with any texts as column types and
      ignoring what follows a statement, and reads back what is printed ([SqlParser]);
      encoded integers keep their order ([Relational]); sessions implement an abstract
      database with transactions, through indexes and full scans alike, and a new session
      finds the committed catalog ([Sessions]).
    - Consensus: at most one leader per term ([Raft], [RaftNode]); for the networked groups
      also log matching and that the stored state is the one in use, across restarts; runs
      that show a split vote that is never resolved, and commits that are lost after two
      configuration changes or a late answer ([RaftNode]).
    - Placement of data: minimal disruption, total routing, rebalancing refines a map, for
      keys that can be hashed ([Sharding]); reconciliation terminates one voter at a time
      and a node is removed only on a majority's word over a grace period ([Placement]);
      views converge ([Gossip]).
    - Distributed transactions: the shard store refines versions and intents and recovers
      its intents; locks are exclusive ([ShardStore]); the outcome of a transaction is the
      same on all shards and is reached by re-driving it, unless the sweep aborts a
      transaction whose coordinator still runs ([TwoPhase]).

    Where a theorem's name says [unsafe], [stuck], [lost], [blocks] and the like, it shows a
    run in which the code does not do what its documentation promises.

    ** Fuel

    Recursion that is not structural takes fuel computed from the data, and the theorems
    show that it is enough: the height of a tree for a descent, the number of leaves for a
    scan, the length of the input for the readers of [Wal], [SSTable], [Json], [Md5],
    [SqlParser] and for the rows of [Relational], the length of the list for a bisection,
    the bit size of a number for its digits.

    ** Not modelled

    - [SQLDatabase] of [sql_parser.py], a demonstration executor on Python objects that the
      relational engine does not use, and [query_parser.py], the query shell.
    - In [relational_engine.py], the regular expressions that recognise transaction control
      and the index statements (a request says which statement it is), and the layout of
      results.  Sessions are proved one at a time: with several of them on one store, the
      cached catalog of one does not follow the others.
    - [replication.py] and [metrics.py]: log shipping over sockets, and counters.
    - [rpc.py], [server.py], [client.py], [cluster_client.py], [controller.py],
      [dashboard.py], [events.py], the request routing of [node.py], the environment of
      [cluster_config.py] and [_loader.py]: sockets, threads, files and HTML around the
      modelled parts.
    - Demos, smoke tests and [test_distributed.py]; the Java port under [src/litedb-java].
    - Timers and threads, file handles and fsync, printed messages, and statistics that
      only format; crashes inside a handler of [raft_node.py]. *)

From Stdlib Require Export NArith ZArith Lia.
From Stdlib Require Import OrdersTac.
From Stdlib Require Ascii String.
From stdpp Require Export base list gmap sorting numbers.

Export String.StringSyntax.

(** ** Python exceptions and fallible results *)

Inductive exn :=
| ValueError
| KeyError
| IndexError
| TypeError
| AttributeError
| UnicodeError
| StructError
| AssertionError
| RuntimeError
| OSError
| ConflictError
| TimeoutError
| ZeroDivisionError
| SyntaxErr
| AuthErr.

Inductive res (A : Type) :=
| Ok (a : A)
| Raise (e : exn).
Arguments Ok {A} a.
Arguments Raise {A} e.

#[export] Instance exn_eq_dec : EqDecision exn.
Proof. solve_decision. Defined.

#[export] Instance res_ret : MRet res := fun A a => Ok a.
#[export] Instance res_bind : MBind res := fun A B f m =>
  match m with Ok a => f a | Raise e => Raise e end.
#[export] Instance res_fmap : FMap res := fun A B f m =>
  match m with Ok a => Ok (f a) | Raise e => Raise e end.

Lemma bind_ok {A B} (x : res A) (f : A -> res B) y : (a ← x; f a) = Ok y -> exists a, x = Ok a /\ f a = Ok y.
Proof. destruct x as [a|]; [|done]. intros H. by exists a. Qed.

Lemma Ok_inj {A} (x y : A) : Ok x = Ok y -> x = y.
Proof. by intros [= ->]. Qed.

(** [l[i]] with the [IndexError] of Python made explicit. *)
Definition nth_res {A} (l : list A) (i : nat) : res A :=
  match l !! i with Some x => Ok x | None => Raise IndexError end.

Definition of_option {A} (e : exn) (o : option A) : res A :=
  match o with Some x => Ok x | None => Raise e end.

(** ** Python strings: finite sequences of code points *)

Abbreviation str := (list N).
Abbreviation bytes := (list N) (only parsing).

(** An ASCII literal as a Python string. *)
Definition py (s : String.string) : str := Ascii.N_of_ascii <$> String.list_ascii_of_string s.

Arguments py s%_string_scope.

(** Largest code point, [chr(0x10FFFF)]. *)
Definition max_code_point : N := 1114111.
Definition hi_char : str := [max_code_point].

(** Python compares strings lexicographically by code point. *)
Fixpoint str_cmp (a b : str) : comparison :=
  match a, b with
  | [], [] => Eq
  | [], _ :: _ => Lt
  | _ :: _, [] => Gt
  | x :: a', y :: b' =>
      match N.compare x y with Eq => str_cmp a' b' | c => c end
  end.

Definition str_lt (a b : str) : Prop := str_cmp a b = Lt.
Definition str_le (a b : str) : Prop := str_cmp a b <> Gt.

#[export] Instance str_lt_dec : RelDecision str_lt.
Proof. intros a b; unfold str_lt; solve_decision. Defined.
#[export] Instance str_le_dec : RelDecision str_le.
Proof. intros a b; unfold str_le; solve_decision. Defined.

Declare Scope str_scope.
Delimit Scope str_scope with str.
Infix "<s" := str_lt (at level 70) : str_scope.
Infix "<=s" := str_le (at level 70) : str_scope.
Notation "a <s? b" := (bool_decide (str_lt a b)) (at level 70) : str_scope.
Notation "a <=s? b" := (bool_decide (str_le a b)) (at level 70) : str_scope.
Notation "a =s? b" := (bool_decide (@eq (list N) a b)) (at level 70) : str_scope.
Open Scope str_scope.

(** *** The order laws *)

Lemma str_cmp_refl a : str_cmp a a = Eq.
Proof. induction a; simpl; [done|]. by rewrite N.compare_refl. Qed.

Lemma str_cmp_eq a b : str_cmp a b = Eq -> a = b.
Proof.
  revert b; induction a as [|x a IH]; intros [|y b]; simpl; try done.
  destruct (N.compare_spec x y); intros ?; try done. subst. f_equal. auto.
Qed.

Lemma str_cmp_antisym a b : str_cmp b a = CompOpp (str_cmp a b).
Proof.
  revert b; induction a as [|x a IH]; intros [|y b]; simpl; try done.
  rewrite (N.compare_antisym x y). destruct (N.compare x y); simpl; auto.
Qed.

Lemma str_cmp_lt_trans a b c : str_cmp a b = Lt -> str_cmp b c = Lt -> str_cmp a c = Lt.
Proof.
  revert b c; induction a as [|x a IH]; intros [|y b] [|z c]; simpl; try done.
  destruct (N.compare_spec x y), (N.compare_spec y z), (N.compare_spec x z);
    try done; try lia; intros; eauto.
Qed.

Module StrTO.
Definition t := list N.
Definition eq := @eq (list N).
Definition lt := str_lt.
Definition le := str_le.
Definition eq_equiv : Equivalence eq := _.
#[export] Instance lt_strorder : StrictOrder lt.
Proof.
  split.
  - intros a; unfold lt, str_lt, complement. by rewrite str_cmp_refl.
  - intros a b c; apply str_cmp_lt_trans.
Qed.
Lemma lt_compat : Proper (eq ==> eq ==> iff) lt.
Proof. intros ? ? -> ? ? ->; done. Qed.
Lemma le_lteq x y : le x y <-> lt x y \/ eq x y.
Proof.
  unfold le, lt, eq, str_le, str_lt. split.
  - destruct (str_cmp x y) eqn:E; try done; auto using str_cmp_eq.
  - intros [H| ->]; [by rewrite H|by rewrite str_cmp_refl].
Qed.
Lemma lt_total x y : lt x y \/ eq x y \/ lt y x.
Proof.
  unfold lt, eq, str_lt. rewrite (str_cmp_antisym x y).
  destruct (str_cmp x y) eqn:E; simpl; auto using str_cmp_eq.
Qed.
End StrTO.

Module StrOrder := MakeOrderTac StrTO StrTO.

(** [str_order] closes goals that follow from the total order laws on
    strings; bare decisions are first turned into propositions. *)
Ltac str_bool :=
  repeat match goal with
  | H : bool_decide _ = true |- _ => apply bool_decide_eq_true_1 in H
  | H : bool_decide _ = false |- _ => apply bool_decide_eq_false_1 in H
  | |- bool_decide _ = true => apply bool_decide_eq_true_2
  | |- bool_decide _ = false => apply bool_decide_eq_false_2
  end.

Ltac str_order :=
  intros; cbv beta in *; str_bool;
  change str_lt with StrTO.lt in *; change str_le with StrTO.le in *;
  change (@eq (list N)) with StrTO.eq in *;
  StrOrder.order.

#[export] Instance str_le_total : Total str_le.
Proof. intros a b. destruct (decide (a <=s b)); [by left|right]. str_order. Qed.
#[export] Instance str_le_preorder : PreOrder str_le.
Proof. split; [intros ?|intros ? ? ?]; str_order. Qed.
#[export] Instance str_le_antisymm : AntiSymm eq str_le.
Proof. intros ? ? ? ?; str_order. Qed.
#[export] Instance str_lt_strict : StrictOrder str_lt.
Proof. apply StrTO.lt_strorder. Qed.

Lemma str_not_lt a b : ~ a <s b <-> b <=s a.
Proof. split; str_order. Qed.
Lemma str_not_le a b : ~ a <=s b <-> b <s a.
Proof. split; str_order. Qed.
Lemma str_nil_le a : [] <=s a.
Proof. by destruct a. Qed.
Lemma str_cmp_app p a b : str_cmp (p ++ a) (p ++ b) = str_cmp a b.
Proof. induction p; simpl; [done|]. by rewrite N.compare_refl. Qed.

Lemma str_lt_app p a b : p ++ a <s p ++ b <-> a <s b.
Proof. unfold str_lt. by rewrite str_cmp_app. Qed.

Lemma str_le_app p a b : p ++ a <=s p ++ b <-> a <=s b.
Proof. unfold str_le. by rewrite str_cmp_app. Qed.

Lemma str_cmp_same_length a b x y :
  length a = length b ->
  str_cmp (a ++ x) (b ++ y) = match str_cmp a b with Eq => str_cmp x y | c => c end.
Proof.
  revert b; induction a as [|c a IH]; intros [|d b]; simpl; try done.
  intros [= Hl]. rewrite (IH b Hl). by destruct (N.compare c d).
Qed.

Lemma str_le_prefix a x : a <=s a ++ x.
Proof. rewrite <- (app_nil_r a) at 1. apply str_le_app, str_nil_le. Qed.

Lemma str_lt_prefix a c x : a <s a ++ c :: x.
Proof. rewrite <- (app_nil_r a) at 1. by apply str_lt_app. Qed.

(** [Forall] with the stronger predicate first. *)
Lemma Forall_weaken {A} (P Q : A -> Prop) l :
  Forall P l -> (forall x, P x -> Q x) -> Forall Q l.
Proof. intros H HPQ. by eapply Forall_impl. Qed.

Lemma filter_none {A} (P : A -> Prop) `{!forall x, Decision (P x)} l :
  Forall (fun x => ~ P x) l -> filter P l = [].
Proof. induction 1; [done|]. rewrite filter_cons. by rewrite decide_False. Qed.

(** ** Binary search, as in the [bisect] module

    [bisect] runs the search loop of CPython on any list: [right a] tells
    whether the search continues to the right of [a].  On a list split by
    [right] it returns the split point ([bisect_app]). *)

Fixpoint bisect_loop {A} (fuel : nat) (right : A -> bool) (l : list A) (lo hi : nat) : nat :=
  match fuel with
  | O => lo
  | S fuel =>
      if Nat.ltb lo hi then
        let mid := Nat.div2 (lo + hi) in
        match l !! mid with
        | Some a => if right a then bisect_loop fuel right l (S mid) hi
                    else bisect_loop fuel right l lo mid
        | None => lo
        end
      else lo
  end.

Definition bisect {A} (right : A -> bool) (l : list A) : nat :=
  bisect_loop (S (length l)) right l 0 (length l).

(** [bisect.bisect_left] and [bisect.bisect_right] on lists of strings. *)
Definition bisect_left (l : list str) (x : str) : nat := bisect (fun a => a <s? x) l.
Definition bisect_right (l : list str) (x : str) : nat := bisect (fun a => negb (x <s? a)) l.

(** [l.insert(i, x)]. *)
Definition list_insert_at {A} (i : nat) (x : A) (l : list A) : list A :=
  take i l ++ x :: drop i l.

(** [f] applied to the [i]-th element; the shape lets a recursive function
    over trees descend into the child at a computed index. *)
Definition nth_with {A B} (f : A -> B) (d : B) : list A -> nat -> B :=
  fix go l i :=
    match l, i with
    | [], _ => d
    | x :: _, O => f x
    | _ :: l, S i => go l i
    end.

Section bisect_facts.
Context {A : Type} (right : A -> bool).

Lemma bisect_loop_spec fuel (l1 l2 : list A) lo hi :
  Forall (fun a => right a = true) l1 -> Forall (fun a => right a = false) l2 ->
  lo <= length l1 <= hi -> hi <= length (l1 ++ l2) -> hi - lo < fuel ->
  bisect_loop fuel right (l1 ++ l2) lo hi = length l1.
Proof.
  intros H1 H2. revert lo hi. induction fuel as [|fuel IH]; intros lo hi Hb Hh Hf; [lia|].
  simpl. destruct (Nat.ltb_spec lo hi) as [Hlt|Hge]; [|lia].
  set (mid := Nat.div2 (lo + hi)).
  assert (Hm : lo <= mid < hi).
  { unfold mid. rewrite Nat.div2_div. pose proof (Nat.div_mod_eq (lo + hi) 2).
    pose proof (Nat.mod_upper_bound (lo + hi) 2). lia. }
  destruct (decide (mid < length l1)) as [Hml|Hml].
  - rewrite lookup_app_l by done.
    destruct (lookup_lt_is_Some_2 l1 mid Hml) as [a Ha]. rewrite Ha.
    rewrite (Forall_lookup_1 _ _ _ _ H1 Ha). apply IH; lia.
  - rewrite lookup_app_r by lia.
    destruct (lookup_lt_is_Some_2 l2 (mid - length l1)) as [a Ha].
    { rewrite length_app in Hh. lia. }
    rewrite Ha, (Forall_lookup_1 _ _ _ _ H2 Ha). apply IH; lia.
Qed.

Lemma bisect_app (l1 l2 : list A) :
  Forall (fun a => right a = true) l1 -> Forall (fun a => right a = false) l2 ->
  bisect right (l1 ++ l2) = length l1.
Proof.
  intros. apply bisect_loop_spec; auto; rewrite ?length_app; lia.
Qed.
End bisect_facts.

Lemma nth_with_app {A B} (f : A -> B) d l1 x l2 :
  nth_with f d (l1 ++ x :: l2) (length l1) = f x.
Proof. induction l1; simpl; auto. Qed.

Lemma nth_with_lookup {A B} (f : A -> B) d l i :
  nth_with f d l i = match l !! i with Some x => f x | None => d end.
Proof. revert i; induction l; intros [|i]; simpl; auto. Qed.

Lemma list_insert_at_app {A} (l1 l2 : list A) x :
  list_insert_at (length l1) x (l1 ++ l2) = l1 ++ x :: l2.
Proof. unfold list_insert_at. by rewrite take_app_length, drop_app_length. Qed.

Lemma list_insert_middle {A} (l1 l2 : list A) x y :
  <[length l1 := y]> (l1 ++ x :: l2) = l1 ++ y :: l2.
Proof. rewrite insert_app_r_alt by lia. by rewrite Nat.sub_diag. Qed.

Lemma list_delete_middle {A} (l1 l2 : list A) x :
  delete (length l1) (l1 ++ x :: l2) = l1 ++ l2.
Proof. induction l1; simpl; f_equal; auto. Qed.

Lemma lookup_middle {A} (l1 l2 : list A) x : (l1 ++ x :: l2) !! length l1 = Some x.
Proof. by apply list_lookup_middle. Qed.

(** A strictly sorted list splits at any string. *)
Lemma sorted_split (l : list str) x :
  StronglySorted str_lt l ->
  exists l1 l2, l = l1 ++ l2 /\ Forall (fun a => a <s x) l1 /\ Forall (fun a => x <=s a) l2.
Proof.
  induction 1 as [|a l Hs IH Ha].
  - by exists [], [].
  - destruct (decide (a <s x)) as [Hlt|Hge].
    + destruct IH as (l1 & l2 & -> & H1 & H2). exists (a :: l1), l2. auto.
    + exists [], (a :: l). repeat split; auto. constructor; [str_order|].
      eapply Forall_weaken; [exact Ha|]. intros b Hb; simpl in *. str_order.
Qed.

Lemma bisect_left_app l1 l2 x :
  Forall (fun a => a <s x) l1 -> Forall (fun a => x <=s a) l2 ->
  bisect_left (l1 ++ l2) x = length l1.
Proof.
  intros H1 H2. apply bisect_app;
    (eapply Forall_weaken; [first [exact H1 | exact H2]|]); intros a Ha; simpl in *; str_order.
Qed.

Lemma bisect_right_app l1 l2 x :
  Forall (fun a => a <=s x) l1 -> Forall (fun a => x <s a) l2 ->
  bisect_right (l1 ++ l2) x = length l1.
Proof.
  intros H1 H2. apply bisect_app;
    (eapply Forall_weaken; [first [exact H1 | exact H2]|]); intros a Ha; simpl in *;
    rewrite ?negb_true_iff, ?negb_false_iff; str_order.
Qed.

(** The neighbours of an element of a strictly sorted list. *)
Lemma sorted_middle (l1 l2 : list str) x :
  StronglySorted str_lt (l1 ++ x :: l2) ->
  Forall (fun a => a <s x) l1 /\ Forall (fun a => x <s a) l2 /\ StronglySorted str_lt (l1 ++ l2).
Proof.
  rewrite !StronglySorted_app, StronglySorted_cons. intros (H1 & H2 & H3 & H4). split_and!; auto.
  - apply list.Forall_forall. intros a Ha. apply H1; [done|left].
  - intros a b Ha Hb. apply H1; [done|by right].
Qed.

Lemma sorted_NoDup (l : list str) : StronglySorted str_lt l -> NoDup l.
Proof.
  induction 1 as [|a l Hs IH Ha]; constructor; auto.
  intros Hin. rewrite list.Forall_forall in Ha. specialize (Ha _ Hin). str_order.
Qed.

(** A strictly sorted association list, looked up around a key. *)
Lemma list_to_map_middle {V} (l1 l2 : list (str * V)) k v :
  Forall (fun a => a <s k) l1.*1 -> (list_to_map (l1 ++ (k, v) :: l2) : gmap str V) !! k = Some v.
Proof.
  intros H. rewrite list_to_map_app, lookup_union_r.
  { rewrite list_to_map_cons. apply lookup_insert_eq. }
  apply not_elem_of_list_to_map_1. intros Hin. rewrite list.Forall_forall in H.
  specialize (H _ Hin). str_order.
Qed.

Lemma list_to_map_absent {V} (l1 l2 : list (str * V)) k :
  Forall (fun a => a <s k) l1.*1 -> Forall (fun a => k <s a) l2.*1 ->
  (list_to_map (l1 ++ l2) : gmap str V) !! k = None.
Proof.
  intros H1 H2. apply not_elem_of_list_to_map_1. rewrite fmap_app, elem_of_app.
  rewrite list.Forall_forall in H1, H2. intros [Hin|Hin]; [apply H1 in Hin|apply H2 in Hin]; str_order.
Qed.

(** Parallel lists, cut at the same place. *)
Lemma parallel_middle {A B} (ks1 ks2 : list A) k (vs : list B) :
  length vs = length (ks1 ++ k :: ks2) ->
  exists vs1 v vs2, vs = vs1 ++ v :: vs2 /\ length vs1 = length ks1 /\ length vs2 = length ks2.
Proof.
  rewrite length_app. simpl. intros Hl.
  destruct (lookup_lt_is_Some_2 vs (length ks1)) as [v Hv]; [lia|].
  exists (take (length ks1) vs), v, (drop (S (length ks1)) vs).
  rewrite take_drop_middle by done. rewrite length_take, length_drop. repeat split; lia.
Qed.

Lemma parallel_app {A B} (ks1 ks2 : list A) (vs : list B) :
  length vs = length (ks1 ++ ks2) ->
  exists vs1 vs2, vs = vs1 ++ vs2 /\ length vs1 = length ks1 /\ length vs2 = length ks2.
Proof.
  rewrite length_app. intros Hl.
  exists (take (length ks1) vs), (drop (length ks1) vs).
  rewrite take_drop, length_take, length_drop. repeat split; lia.
Qed.

Lemma zip_middle {A B} (ks1 ks2 : list A) k (vs1 vs2 : list B) v :
  length vs1 = length ks1 ->
  zip (ks1 ++ k :: ks2) (vs1 ++ v :: vs2) = zip ks1 vs1 ++ (k, v) :: zip ks2 vs2.
Proof. intros Hl. by rewrite zip_with_app. Qed.

Lemma fst_zip_eq {A B} (ks : list A) (vs : list B) : length vs = length ks -> (zip ks vs).*1 = ks.
Proof. intros Hl. apply fst_zip. lia. Qed.

(** Inserting into, and overwriting in, a list read as a map. *)
Lemma list_to_map_insert {V} (l1 l2 : list (str * V)) k v :
  k ∉ l1.*1 ->
  (list_to_map (l1 ++ (k, v) :: l2) : gmap str V) = <[k := v]> (list_to_map (l1 ++ l2)).
Proof.
  intros Hk. rewrite !list_to_map_app, list_to_map_cons. symmetry. apply insert_union_r.
  by apply not_elem_of_list_to_map_1.
Qed.

Lemma list_to_map_overwrite {V} (l1 l2 : list (str * V)) k v v' :
  k ∉ l1.*1 ->
  (list_to_map (l1 ++ (k, v') :: l2) : gmap str V) = <[k := v']> (list_to_map (l1 ++ (k, v) :: l2)).
Proof. intros Hk. rewrite !list_to_map_insert by done. by rewrite insert_insert_eq. Qed.

Lemma list_to_map_remove {V} (l1 l2 : list (str * V)) k v :
  k ∉ l1.*1 -> k ∉ l2.*1 ->
  (list_to_map (l1 ++ l2) : gmap str V) = delete k (list_to_map (l1 ++ (k, v) :: l2)).
Proof.
  intros H1 H2. rewrite list_to_map_insert by done. rewrite delete_insert_id; [done|].
  apply not_elem_of_list_to_map_1. rewrite fmap_app. set_solver.
Qed.

Lemma sorted_not_before (l1 l2 : list str) x :
  StronglySorted str_lt (l1 ++ x :: l2) -> x ∉ l1 /\ x ∉ l2.
Proof.
  intros (H1 & H2 & _)%sorted_middle. rewrite !list.Forall_forall in H1, H2.
  split; intros Hin; [apply H1 in Hin|apply H2 in Hin]; str_order.
Qed.

(** ** Range queries on ordered maps

    [map_range m lo hi] is the reference range query: the bindings of [m] with
    [lo <= key <= hi], in ascending key order. *)

Section map_range.
Context {V : Type}.
Implicit Types (m : gmap str V) (l : list (str * V)).

Definition within (lo hi : str) (kv : str * V) : Prop := lo <=s kv.1 /\ kv.1 <=s hi.

#[global] Instance within_dec lo hi kv : Decision (within lo hi kv).
Proof. apply _. Defined.

Definition key_le (a b : str * V) : Prop := a.1 <=s b.1.

#[global] Instance key_le_dec : RelDecision key_le.
Proof. intros a b. unfold key_le. apply _. Defined.

Definition sorted_items m : list (str * V) := merge_sort key_le (map_to_list m).

Definition map_range m (lo hi : str) : list (str * V) := filter (within lo hi) (sorted_items m).

(** A strictly sorted list of bindings with the given members is unique. *)
Lemma sorted_unique l1 l2 :
  StronglySorted str_lt l1.*1 -> StronglySorted str_lt l2.*1 ->
  (forall kv, kv ∈ l1 <-> kv ∈ l2) -> l1 = l2.
Proof.
  revert l2. induction l1 as [|[k v] l1 IH]; intros [|[k' v'] l2] H1 H2 Heq.
  - done.
  - exfalso. specialize (Heq (k', v')). set_solver.
  - exfalso. specialize (Heq (k, v)). set_solver.
  - simpl in *. apply StronglySorted_cons in H1 as [Hk H1]. apply StronglySorted_cons in H2 as [Hk' H2].
    assert (Hfst : forall x y (l : list (str * V)), (x, y) ∈ l -> x ∈ l.*1)
      by (intros x y l Hin; apply list_elem_of_fmap; by exists (x, y)).
    rewrite list.Forall_forall in Hk, Hk'.
    assert (E : (k, v) = (k', v')).
    { assert (Hin : (k, v) ∈ (k', v') :: l2) by (apply Heq; left).
      assert (Hin' : (k', v') ∈ (k, v) :: l1) by (apply Heq; left).
      apply elem_of_cons in Hin as [Hin|Hin]; [done|].
      apply elem_of_cons in Hin' as [Hin'|Hin']; [done|].
      apply Hfst, Hk' in Hin. apply Hfst, Hk in Hin'. str_order. }
    injection E as <- <-. f_equal. apply IH; auto. intros [x y]. split; intros Hin.
    + assert (Hx : (x, y) ∈ (k, v) :: l2) by (apply Heq; by right).
      apply elem_of_cons in Hx as [[= -> ->]|Hx]; [|done]. apply Hfst, Hk in Hin. str_order.
    + assert (Hx : (x, y) ∈ (k, v) :: l1) by (apply Heq; by right).
      apply elem_of_cons in Hx as [[= -> ->]|Hx]; [|done]. apply Hfst, Hk' in Hin. str_order.
Qed.

#[global] Instance key_le_total : Total key_le.
Proof. intros a b. apply str_le_total. Qed.
#[global] Instance key_le_trans : Transitive key_le.
Proof. intros a b c. unfold key_le. str_order. Qed.

Lemma sorted_keys_strict l :
  StronglySorted key_le l -> NoDup l.*1 -> StronglySorted str_lt l.*1.
Proof.
  induction 1 as [|a l Hs IH Ha]; simpl; intros Hd; [constructor|].
  apply list.NoDup_cons in Hd as [Hni Hd]. constructor; [auto|].
  rewrite list.Forall_forall in Ha. apply list.Forall_forall. intros k Hk.
  pose proof Hk as Hk'. apply list_elem_of_fmap in Hk as ([k' v'] & -> & Hin). apply Ha in Hin.
  unfold key_le in Hin. simpl in *. assert (a.1 <> k') by congruence. str_order.
Qed.

Lemma sorted_items_sorted m : StronglySorted str_lt (sorted_items m).*1.
Proof.
  apply sorted_keys_strict; [apply StronglySorted_merge_sort; apply _|].
  unfold sorted_items. rewrite merge_sort_Permutation. apply NoDup_fst_map_to_list.
Qed.

Lemma elem_of_sorted_items m k v : (k, v) ∈ sorted_items m <-> m !! k = Some v.
Proof. unfold sorted_items. rewrite merge_sort_Permutation. apply elem_of_map_to_list. Qed.

Lemma sorted_filter (P : str * V -> Prop) `{!forall x, Decision (P x)} l :
  StronglySorted str_lt l.*1 -> StronglySorted str_lt (filter P l).*1.
Proof.
  induction l as [|a l IH]; simpl; [done|]. intros [Ha Hs]%StronglySorted_cons.
  rewrite filter_cons. case_decide; [|auto]. simpl. constructor; [auto|].
  rewrite list.Forall_forall in Ha |- *. intros k Hk. apply Ha.
  apply list_elem_of_fmap in Hk as (kv & -> & Hin). apply list_elem_of_filter in Hin as [_ Hin].
  apply list_elem_of_fmap. by exists kv.
Qed.

Lemma map_range_sorted m lo hi : StronglySorted str_lt (map_range m lo hi).*1.
Proof. apply sorted_filter, sorted_items_sorted. Qed.

Lemma elem_of_map_range m lo hi k v :
  (k, v) ∈ map_range m lo hi <-> m !! k = Some v /\ lo <=s k /\ k <=s hi.
Proof. unfold map_range. rewrite list_elem_of_filter, elem_of_sorted_items. unfold within. simpl. tauto. Qed.

(** The range query of a map given by its sorted bindings. *)
Lemma map_range_list l lo hi :
  StronglySorted str_lt l.*1 -> map_range (list_to_map l) lo hi = filter (within lo hi) l.
Proof.
  intros Hs. apply sorted_unique; [apply map_range_sorted|by apply sorted_filter|].
  intros [k v]. rewrite elem_of_map_range, list_elem_of_filter.
  rewrite <- elem_of_list_to_map by (by apply sorted_NoDup). unfold within. simpl. tauto.
Qed.

End map_range.

(** Two majorities share a member. *)
Lemma majorities_meet (ids a b : gset str) :
  a ⊆ ids -> b ⊆ ids -> size ids < 2 * size a -> size ids < 2 * size b -> exists x, x ∈ a /\ x ∈ b.
Proof.
  intros Ha Hb Hsa Hsb. destruct (decide (a ∩ b = ∅)) as [E|E].
  - assert (Hu : size (a ∪ b) = size a + size b) by (apply size_union; set_solver).
    assert (size (a ∪ b) <= size ids) by (apply subseteq_size; set_solver). lia.
  - apply set_choose_L in E as [x Hx]. exists x. set_solver.
Qed.
