(* ===== verification/PyStd.v ===== *)
(** * The parts of the Python standard library the program uses

    Positional notation ([struct.pack], [format(n, "016x")], [str(n)],
    [int(s, 16)]), UTF-8, and [zlib.crc32]. *)

From S2P Require Import Prelude.

Local Open Scope N_scope.

(** ** Positional notation, most significant digit first *)

Definition of_digits (b : N) (ds : list N) : N := foldl (fun a d => a * b + d) 0 ds.

(** Exactly [w] digits. *)
Fixpoint fixed_digits (b : N) (w : nat) (n : N) : list N :=
  match w with
  | O => []
  | S w => fixed_digits b w (n / b) ++ [n mod b]
  end.

(** No leading zero, except for 0 itself; the bit size of [n] is enough fuel. *)
Fixpoint digits_loop (fuel : nat) (b n : N) (acc : list N) : list N :=
  match fuel with
  | O => acc
  | S fuel => if n <? b then n :: acc else digits_loop fuel b (n / b) (n mod b :: acc)
  end.
Definition digits (b n : N) : list N := digits_loop (S (N.size_nat n)) b n [].

(** ** Characters of digits *)

Definition digit_char (d : N) : N := if d <? 10 then 48 + d else 87 + d.
Definition char_digit (c : N) : option N :=
  if (48 <=? c) && (c <=? 57) then Some (c - 48)
  else if (97 <=? c) && (c <=? 102) then Some (c - 87)
  else if (65 <=? c) && (c <=? 70) then Some (c - 55)
  else None.

(** [str(n)] for a non-negative and for any integer. *)
Definition str_of_N (n : N) : str := digit_char <$> digits 10 n.
Definition str_of_Z (z : Z) : str :=
  match z with Zneg p => 45 :: str_of_N (Npos p) | _ => str_of_N (Z.to_N z) end.

(** [format(z, "0<w>x")]: the sign counts towards the width. *)
Definition format_hex (w : nat) (z : Z) : str :=
  let ds := digit_char <$> digits 16 (Z.abs_N z) in
  match z with
  | Zneg _ => 45 :: replicate (w - S (length ds)) 48 ++ ds
  | _ => replicate (w - length ds) 48 ++ ds
  end.

(** [int(s, 16)] on the strings that [format_hex] writes for non-negative
    integers; the signs, blanks and underscores [int] also accepts are refused. *)
Definition int_hex (s : str) : res N :=
  match s with
  | [] => Raise ValueError
  | _ => of_option ValueError (of_digits 16 <$> mapM char_digit s)
  end.

(** ** [struct]: big-endian unsigned integers of [w] bytes *)

Definition pack (w : nat) (n : N) : res bytes :=
  if n <? 256 ^ N.of_nat w then Ok (fixed_digits 256 w n) else Raise StructError.
Definition unpack (w : nat) (bs : bytes) : res N :=
  if Nat.eqb (length bs) w then Ok (of_digits 256 bs) else Raise StructError.

(** ** UTF-8 *)

Definition is_surrogate (c : N) : bool := (55296 <=? c) && (c <=? 57343).
Definition scalar (c : N) : bool := (c <=? max_code_point) && negb (is_surrogate c).

Definition utf8_char (c : N) : res bytes :=
  if negb (scalar c) then Raise UnicodeError
  else if c <? 128 then Ok [c]
  else if c <? 2048 then Ok [192 + c / 64; 128 + c mod 64]
  else if c <? 65536 then Ok [224 + c / 4096; 128 + c / 64 mod 64; 128 + c mod 64]
  else Ok [240 + c / 262144; 128 + c / 4096 mod 64; 128 + c / 64 mod 64; 128 + c mod 64].

Fixpoint utf8_encode (s : str) : res bytes :=
  match s with
  | [] => Ok []
  | c :: s => b ← utf8_char c; bs ← utf8_encode s; Ok (b ++ bs)
  end.

Definition cont (b : N) : bool := (128 <=? b) && (b <=? 191).

(** The first character of a byte string and what follows it. *)
Definition utf8_next (bs : bytes) : option (N * bytes) :=
  match bs with
  | [] => None
  | b0 :: r =>
      if b0 <? 128 then Some (b0, r)
      else if b0 <? 194 then None
      else if b0 <? 224 then
        match r with
        | b1 :: r => if cont b1 then Some ((b0 - 192) * 64 + (b1 - 128), r) else None
        | _ => None
        end
      else if b0 <? 240 then
        match r with
        | b1 :: b2 :: r =>
            let c := (b0 - 224) * 4096 + (b1 - 128) * 64 + (b2 - 128) in
            if cont b1 && cont b2 && (2048 <=? c) && negb (is_surrogate c) then Some (c, r) else None
        | _ => None
        end
      else if b0 <? 245 then
        match r with
        | b1 :: b2 :: b3 :: r =>
            let c := (b0 - 240) * 262144 + (b1 - 128) * 4096 + (b2 - 128) * 64 + (b3 - 128) in
            if cont b1 && cont b2 && cont b3 && (65536 <=? c) && (c <=? max_code_point)
            then Some (c, r) else None
        | _ => None
        end
      else None
  end.

(** [bs.decode("utf-8")]; every character takes at least one byte. *)
Fixpoint utf8_loop (fuel : nat) (bs : bytes) : res str :=
  match bs, fuel with
  | [], _ => Ok []
  | _, O => Raise RuntimeError
  | _, S fuel =>
      match utf8_next bs with
      | Some (c, r) => s ← utf8_loop fuel r; Ok (c :: s)
      | None => Raise UnicodeError
      end
  end.
Definition utf8_decode (bs : bytes) : res str := utf8_loop (length bs) bs.

(** ** [zlib.crc32] *)

(** One bit, then one byte, of the reflected CRC with polynomial 0xEDB88320. *)
Definition crc_bit (c : N) : N :=
  if N.testbit c 0 then N.lxor (N.shiftr c 1) 3988292384 else N.shiftr c 1.
Definition crc_byte (c b : N) : N := Nat.iter 8 crc_bit (N.lxor c b).
Definition crc32 (start : N) (bs : bytes) : N :=
  N.lxor (foldl crc_byte (N.lxor start 4294967295) bs) 4294967295.

(** ** Laws of positional notation *)

Ltac Zify.zify_post_hook ::= Z.div_mod_to_equations.

Lemma of_digits_snoc b l d : of_digits b (l ++ [d]) = of_digits b l * b + d.
Proof. unfold of_digits. by rewrite foldl_app. Qed.

Lemma length_fixed_digits b w n : length (fixed_digits b w n) = w.
Proof. revert n; induction w as [|w IH]; intros n; [done|]. simpl. rewrite length_app, IH. simpl. lia. Qed.

Lemma fixed_digits_bound b w n : b <> 0 -> Forall (fun d => d < b) (fixed_digits b w n).
Proof.
  intros Hb. revert n; induction w as [|w IH]; intros n; [constructor|]. simpl.
  apply Forall_app. split; [done|]. repeat constructor. by apply N.mod_upper_bound.
Qed.

Lemma pow_succ_div b w n : b <> 0 -> n < b ^ N.of_nat (S w) -> n / b < b ^ N.of_nat w.
Proof. intros Hb Hn. apply N.Div0.div_lt_upper_bound. by rewrite <- N.pow_succ_r', <- Nat2N.inj_succ. Qed.

Lemma of_fixed_digits b w n : b <> 0 -> n < b ^ N.of_nat w -> of_digits b (fixed_digits b w n) = n.
Proof.
  intros Hb. revert n; induction w as [|w IH]; intros n Hn; [simpl in *; unfold of_digits; simpl; lia|].
  simpl fixed_digits. rewrite of_digits_snoc, IH by (by apply pow_succ_div).
  rewrite (N.div_mod n b Hb) at 3. lia.
Qed.

Lemma fixed_digits_cmp b w n m :
  b <> 0 -> n < b ^ N.of_nat w -> m < b ^ N.of_nat w ->
  str_cmp (fixed_digits b w n) (fixed_digits b w m) = N.compare n m.
Proof.
  intros Hb. revert n m; induction w as [|w IH]; intros n m Hn Hm; simpl in *.
  { assert (n = 0) as -> by lia. assert (m = 0) as -> by lia. done. }
  rewrite str_cmp_same_length, IH by (rewrite ?length_fixed_digits; auto using pow_succ_div).
  pose proof (N.div_mod n b Hb) as En. pose proof (N.div_mod m b Hb) as Em.
  pose proof (N.mod_upper_bound n b Hb). pose proof (N.mod_upper_bound m b Hb).
  destruct (N.compare_spec (n / b) (m / b)) as [E|E|E].
  - simpl. destruct (N.compare_spec (n mod b) (m mod b)); symmetry.
    + apply N.compare_eq_iff. congruence.
    + apply N.compare_lt_iff. rewrite E in En. lia.
    + apply N.compare_gt_iff. rewrite E in En. lia.
  - symmetry. apply N.compare_lt_iff. nia.
  - symmetry. apply N.compare_gt_iff. nia.
Qed.

(** Enough fuel gives one result. *)
Lemma digits_loop_fuel b f1 f2 n acc :
  2 <= b -> n < 2 ^ N.of_nat f1 -> n < 2 ^ N.of_nat f2 ->
  digits_loop (S f1) b n acc = digits_loop (S f2) b n acc.
Proof.
  intros Hb. revert f2 n acc; induction f1 as [|f1 IH]; intros f2 n acc H1 H2.
  - simpl in H1. assert (n = 0) as -> by lia. simpl. by destruct (N.ltb_spec 0 b); [|lia].
  - assert (Hdiv : n / b <= n / 2) by (apply N.div_le_compat_l; lia).
    rewrite Nat2N.inj_succ, N.pow_succ_r' in H1.
    destruct f2 as [|f2].
    + simpl in H2. assert (n = 0) as -> by lia. simpl. by destruct (N.ltb_spec 0 b); [|lia].
    + rewrite Nat2N.inj_succ, N.pow_succ_r' in H2. remember (S f1) as g1. remember (S f2) as g2.
      simpl. destruct (n <? b); [done|]. subst. apply IH; lia.
Qed.

Lemma digits_loop_acc f b n acc : digits_loop f b n acc = digits_loop f b n [] ++ acc.
Proof.
  revert n acc; induction f as [|f IH]; intros n acc; [done|]. simpl.
  destruct (n <? b); [done|]. rewrite IH, (IH _ [_]), <- app_assoc. done.
Qed.

Lemma size_nat_bound n : n < 2 ^ N.of_nat (N.size_nat n).
Proof.
  destruct n as [|p]; [simpl; lia|]. simpl.
  pose proof (Pos.size_nat_monotone p p). induction p; simpl Pos.size_nat;
    rewrite ?Nat2N.inj_succ, ?N.pow_succ_r'; simpl in *; try lia.
Qed.

(** The recursion equation of [digits]. *)
Lemma digits_eq b n : 2 <= b ->
  digits b n = if n <? b then [n] else digits b (n / b) ++ [n mod b].
Proof.
  intros Hb. unfold digits at 1. cbn [digits_loop]. destruct (N.ltb_spec n b) as [H|H]; [done|].
  rewrite digits_loop_acc. f_equal. unfold digits.
  assert (Hdiv : n / b <= n / 2) by (apply N.div_le_compat_l; lia).
  pose proof (size_nat_bound n) as Hn. pose proof (size_nat_bound (n / b)) as Hnb.
  destruct (N.size_nat n) as [|g] eqn:Eg; [simpl in Hn; lia|].
  apply digits_loop_fuel; auto. rewrite Nat2N.inj_succ, N.pow_succ_r' in Hn. lia.
Qed.

Lemma digits_ind b (P : N -> Prop) :
  2 <= b -> (forall n, n < b -> P n) -> (forall n, b <= n -> P (n / b) -> P n) -> forall n, P n.
Proof.
  intros Hb H1 H2 n. induction n as [n IH] using (well_founded_induction N.lt_wf_0).
  destruct (N.lt_ge_cases n b); [auto|]. apply H2; [done|]. apply IH.
  apply N.div_lt; lia.
Qed.

Lemma of_digits_digits b n : 2 <= b -> of_digits b (digits b n) = n.
Proof.
  intros Hb. revert n. apply (digits_ind b); [done|intros n Hn|intros n Hn IH]; rewrite digits_eq by done.
  - destruct (N.ltb_spec n b); [|lia]. unfold of_digits. simpl. lia.
  - destruct (N.ltb_spec n b); [lia|]. rewrite of_digits_snoc, IH.
    rewrite (N.div_mod n b) at 3 by lia. lia.
Qed.

Lemma digits_bound b n : 2 <= b -> Forall (fun d => d < b) (digits b n).
Proof.
  intros Hb. revert n. apply (digits_ind b); [done|intros n Hn|intros n Hn IH]; rewrite digits_eq by done.
  - destruct (N.ltb_spec n b); [|lia]. by repeat constructor.
  - destruct (N.ltb_spec n b); [lia|]. apply Forall_app. split; [done|]. repeat constructor.
    apply N.mod_upper_bound. lia.
Qed.

Lemma digits_nonnil b n : 2 <= b -> digits b n <> [].
Proof.
  intros Hb. rewrite digits_eq by done. destruct (n <? b); [done|]. by destruct (digits b (n / b)).
Qed.

(** A leading zero only for zero itself. *)
Lemma digits_head b n ds : 2 <= b -> digits b n = 0 :: ds -> n = 0 /\ ds = [].
Proof.
  intros Hb. revert n ds.
  apply (digits_ind b (fun n => forall ds, digits b n = 0 :: ds -> n = 0 /\ ds = [])); [done|intros n Hn ds|intros n Hn IH ds];
    rewrite digits_eq by done.
  - destruct (N.ltb_spec n b); [|lia]. by intros [= -> <-].
  - destruct (N.ltb_spec n b); [lia|]. pose proof (digits_nonnil b (n / b) Hb).
    destruct (digits b (n / b)) as [|d ds'] eqn:E; [done|]. intros [= -> Hds].
    destruct (IH ds' eq_refl) as [Hz _]. exfalso. assert (1 <= n / b) by (apply N.div_le_lower_bound; lia). lia.
Qed.

(** Zero padding gives the fixed-width notation. *)
Lemma padded_digits b w n :
  2 <= b -> (0 < w)%nat -> n < b ^ N.of_nat w ->
  (length (digits b n) <= w)%nat /\
  replicate (w - length (digits b n)) 0 ++ digits b n = fixed_digits b w n.
Proof.
  intros Hb. revert n; induction w as [|w IH]; intros n Hw Hn; [lia|]. simpl fixed_digits.
  rewrite digits_eq by done. destruct (N.ltb_spec n b) as [H|H].
  - rewrite (N.div_small n b), (N.mod_small n b) by done. simpl. split; [lia|]. rewrite Nat.sub_0_r.
    f_equal. clear. induction w as [|w IH]; [done|]. simpl. rewrite N.Div0.div_0_l, N.Div0.mod_0_l, <- IH.
    by rewrite <- replicate_S_end.
  - assert (0 < w)%nat. { destruct w; [|lia]. simpl in Hn. rewrite N.pow_1_r in Hn. lia. }
    destruct (IH (n / b)) as [Hl Heq]; [done|apply pow_succ_div; lia|].
    rewrite length_app. simpl. split; [lia|]. rewrite <- Heq, app_assoc. do 3 f_equal. lia.
Qed.

(** ** Digit characters *)

Lemma char_digit_char d : d < 16 -> char_digit (digit_char d) = Some d.
Proof.
  intros Hd. unfold char_digit, digit_char.
  destruct (N.ltb_spec d 10);
    repeat match goal with |- context [?a <=? ?b] => destruct (N.leb_spec a b) end; simpl; try f_equal; lia.
Qed.

Lemma digit_char_cmp d e : d < 16 -> e < 16 -> N.compare (digit_char d) (digit_char e) = N.compare d e.
Proof.
  intros Hd He. unfold digit_char. destruct (N.ltb_spec d 10), (N.ltb_spec e 10);
    destruct (N.compare_spec d e) as [->|?|?]; rewrite ?N.compare_refl; auto;
    rewrite ?N.compare_eq_iff, ?N.compare_lt_iff, ?N.compare_gt_iff; lia.
Qed.

Lemma digit_chars_cmp l m :
  Forall (fun d => d < 16) l -> Forall (fun d => d < 16) m ->
  str_cmp (digit_char <$> l) (digit_char <$> m) = str_cmp l m.
Proof.
  revert m; induction l as [|d l IH]; intros [|e m] Hl Hm; simpl; auto.
  apply Forall_cons_1 in Hl as [Hd Hl]. apply Forall_cons_1 in Hm as [He Hm].
  rewrite digit_char_cmp by done. destruct (N.compare d e); auto.
Qed.

Lemma mapM_char_digit l : Forall (fun d => d < 16) l -> mapM char_digit (digit_char <$> l) = Some l.
Proof.
  intros Hl. apply mapM_Some_2. induction Hl as [|d l Hd Hl IH]; [constructor|].
  constructor; [by apply char_digit_char|done].
Qed.

(** [format(n, "0<w>x")] for numbers that fit the width. *)
Lemma format_hex_fixed w n :
  (0 < w)%nat -> n < 16 ^ N.of_nat w -> format_hex w (Z.of_N n) = digit_char <$> fixed_digits 16 w n.
Proof.
  intros Hw Hn. destruct (padded_digits 16 w n) as [_ <-]; [lia|done|done|].
  unfold format_hex. rewrite N2Z.id || rewrite Zabs2N.id. rewrite fmap_app, fmap_replicate, length_fmap.
  by destruct n.
Qed.

Lemma length_format_hex w n :
  (0 < w)%nat -> n < 16 ^ N.of_nat w -> length (format_hex w (Z.of_N n)) = w.
Proof. intros Hw Hn. by rewrite format_hex_fixed, length_fmap, length_fixed_digits. Qed.

Lemma int_hex_format w n :
  (0 < w)%nat -> n < 16 ^ N.of_nat w -> int_hex (format_hex w (Z.of_N n)) = Ok n.
Proof.
  intros Hw Hn. pose proof (length_format_hex w n Hw Hn) as Hl. unfold int_hex.
  destruct (format_hex w (Z.of_N n)) eqn:E; [simpl in Hl; lia|]. rewrite <- E, format_hex_fixed by done.
  rewrite mapM_char_digit by (apply fixed_digits_bound; lia). simpl. by rewrite of_fixed_digits.
Qed.

Lemma format_hex_cmp w n m :
  (0 < w)%nat -> n < 16 ^ N.of_nat w -> m < 16 ^ N.of_nat w ->
  str_cmp (format_hex w (Z.of_N n)) (format_hex w (Z.of_N m)) = N.compare n m.
Proof.
  intros Hw Hn Hm. rewrite !format_hex_fixed by done.
  rewrite digit_chars_cmp by (apply fixed_digits_bound; lia). by apply fixed_digits_cmp.
Qed.

(** ** [struct] *)

Lemma pack_unpack w n bs : pack w n = Ok bs -> length bs = w /\ unpack w bs = Ok n.
Proof.
  unfold pack, unpack. destruct (N.ltb_spec n (256 ^ N.of_nat w)) as [H|H]; [|done]. intros [= <-].
  by rewrite length_fixed_digits, Nat.eqb_refl, of_fixed_digits.
Qed.

(** ** UTF-8 *)

Ltac Zify.zify_post_hook ::= idtac.

(** Decides the outermost numeric test of the left-hand side. *)
Ltac nif :=
  match goal with
  | |- (if ?t then _ else _) = _ =>
      match t with context [N.ltb ?a ?b] => destruct (N.ltb_spec a b) end
  | |- (if ?t then _ else _) = _ =>
      match t with context [N.leb ?a ?b] => destruct (N.leb_spec a b) end
  end; try lia; cbn [andb negb].

Lemma scalar_spec c : scalar c = true <-> c <= 1114111 /\ (c < 55296 \/ 57343 < c).
Proof.
  unfold scalar, is_surrogate, max_code_point.
  rewrite andb_true_iff, negb_true_iff, andb_false_iff, N.leb_le, !N.leb_gt. lia.
Qed.

Lemma add_sub_l a b : a + b - a = b.
Proof. rewrite N.add_comm. apply N.add_sub. Qed.

(** The base-64 digits of a character. *)
Lemma split64 c : c / 64 * 64 + c mod 64 = c.
Proof. rewrite N.mul_comm. symmetry. apply N.div_mod. lia. Qed.

Lemma split4096 c : c / 4096 * 4096 + c / 64 mod 64 * 64 + c mod 64 = c.
Proof.
  pose proof (split64 c) as H1. pose proof (split64 (c / 64)) as H2.
  rewrite N.Div0.div_div in H2. change (64 * 64) with 4096 in H2. lia.
Qed.

Lemma split262144 c :
  c / 262144 * 262144 + c / 4096 mod 64 * 4096 + c / 64 mod 64 * 64 + c mod 64 = c.
Proof.
  pose proof (split4096 c) as H1. pose proof (split64 (c / 4096)) as H2.
  rewrite N.Div0.div_div in H2. change (4096 * 64) with 262144 in H2. lia.
Qed.

(** Decoding two, three and four bytes. *)
Lemma utf8_next2 q d r : 2 <= q < 32 -> d < 64 ->
  utf8_next ([192 + q; 128 + d] ++ r) = Some (q * 64 + d, r).
Proof.
  intros Hq Hd. unfold utf8_next, cont. cbn [app]. cbv beta iota zeta. rewrite !add_sub_l. by repeat nif.
Qed.

Lemma utf8_next3 p q d r : p < 16 -> q < 64 -> d < 64 ->
  2048 <= p * 4096 + q * 64 + d -> is_surrogate (p * 4096 + q * 64 + d) = false ->
  utf8_next ([224 + p; 128 + q; 128 + d] ++ r) = Some (p * 4096 + q * 64 + d, r).
Proof.
  intros Hp Hq Hd Hc Hs. unfold utf8_next, cont. cbn [app]. cbv beta iota zeta.
  rewrite !add_sub_l, Hs. by repeat nif.
Qed.

Lemma utf8_next4 o p q d r : o < 5 -> p < 64 -> q < 64 -> d < 64 ->
  65536 <= o * 262144 + p * 4096 + q * 64 + d <= max_code_point ->
  utf8_next ([240 + o; 128 + p; 128 + q; 128 + d] ++ r) =
    Some (o * 262144 + p * 4096 + q * 64 + d, r).
Proof.
  intros Ho Hp Hq Hd Hc. unfold utf8_next, cont. cbn [app]. cbv beta iota zeta.
  rewrite !add_sub_l. by repeat nif.
Qed.

Lemma utf8_char_next c b r : utf8_char c = Ok b -> utf8_next (b ++ r) = Some (c, r).
Proof.
  pose proof (N.mod_upper_bound c 64 ltac:(done)) as H0.
  pose proof (N.mod_upper_bound (c / 64) 64 ltac:(done)) as H1.
  pose proof (N.mod_upper_bound (c / 4096) 64 ltac:(done)) as H2.
  unfold utf8_char. destruct (scalar c) eqn:Hs; [|done]. cbn [negb].
  pose proof (proj1 (scalar_spec c) Hs) as Hc.
  destruct (N.ltb_spec c 128); [intros [= <-]; simpl; by destruct (N.ltb_spec c 128); [|lia]|].
  destruct (N.ltb_spec c 2048).
  { intros [= <-]. rewrite utf8_next2, split64; auto.
    split; [apply N.div_le_lower_bound; lia|apply N.Div0.div_lt_upper_bound; lia]. }
  destruct (N.ltb_spec c 65536).
  { intros [= <-]. rewrite utf8_next3, split4096; rewrite ?split4096; auto.
    - apply N.Div0.div_lt_upper_bound; lia.
    - unfold scalar in Hs. rewrite andb_true_iff, negb_true_iff in Hs. tauto. }
  intros [= <-]. rewrite utf8_next4, split262144; rewrite ?split262144; auto.
  - apply N.Div0.div_lt_upper_bound; lia.
  - unfold max_code_point. lia.
Qed.

Lemma utf8_char_nonnil c b : utf8_char c = Ok b -> b <> [].
Proof.
  unfold utf8_char. destruct (negb _); [done|]. repeat case_match; by intros [= <-].
Qed.

Lemma utf8_loop_encode s bs fuel :
  utf8_encode s = Ok bs -> (length bs <= fuel)%nat -> utf8_loop fuel bs = Ok s.
Proof.
  revert bs fuel. induction s as [|c s IH]; intros bs fuel; simpl; [intros [= <-] _; by destruct fuel|].
  destruct (utf8_char c) as [b|] eqn:Hc; [|done]. destruct (utf8_encode s) as [bs'|]; [|done].
  simpl. intros [= <-] Hf. pose proof (utf8_char_nonnil _ _ Hc). pose proof (utf8_char_next _ _ bs' Hc) as Hn.
  rewrite length_app in Hf. destruct b as [|b0 b]; [done|]. destruct fuel as [|fuel]; [simpl in Hf; lia|].
  simpl app in *. cbn [utf8_loop]. rewrite Hn. rewrite (IH bs'); [done|done|]. simpl in Hf. lia.
Qed.

Lemma utf8_roundtrip s bs : utf8_encode s = Ok bs -> utf8_decode bs = Ok s.
Proof. intros H. by apply utf8_loop_encode. Qed.

Lemma utf8_encode_scalar s bs : utf8_encode s = Ok bs -> Forall (fun c => scalar c = true) s.
Proof.
  revert bs. induction s as [|c s IH]; intros bs; simpl; [constructor|].
  destruct (utf8_char c) as [b|] eqn:Hc; [|done]. destruct (utf8_encode s) as [bs'|]; [|done].
  intros _. constructor; [|by eapply IH]. unfold utf8_char in Hc. by destruct (scalar c).
Qed.

(** ASCII text is its own encoding. *)
Lemma utf8_encode_ascii s : Forall (fun c => c < 128) s -> utf8_encode s = Ok s.
Proof.
  induction 1 as [|c s Hc Hs IH]; [done|]. simpl. rewrite IH. unfold utf8_char.
  rewrite (proj2 (scalar_spec c)) by lia. simpl. by destruct (N.ltb_spec c 128); [|lia].
Qed.
