(* ===== verification/Md5.v ===== *)
(** * [hashlib.md5]

    The digest of RFC 1321 on byte strings; [litedb-python/sharding.py] uses it to
    place keys and virtual nodes on the ring. *)

From S2P Require Import Prelude PyStd.

Local Open Scope N_scope.

Definition w32 (n : N) : N := n mod 4294967296.
Definition rotl (x : N) (s : N) : N := w32 (N.lor (N.shiftl x s) (N.shiftr x (32 - s))).
Definition not32 (x : N) : N := N.lxor x 4294967295.

Definition md5_shifts : list N :=
  concat (map (fun l => l ++ l ++ l ++ l) [[7; 12; 17; 22]; [5; 9; 14; 20]; [4; 11; 16; 23]; [6; 10; 15; 21]]).

Definition md5_table : list N :=
  [
   3614090360; 3905402710; 606105819; 3250441966; 4118548399; 1200080426;
   2821735955; 4249261313; 1770035416; 2336552879; 4294925233; 2304563134;
   1804603682; 4254626195; 2792965006; 1236535329; 4129170786; 3225465664;
   643717713; 3921069994; 3593408605; 38016083; 3634488961; 3889429448;
   568446438; 3275163606; 4107603335; 1163531501; 2850285829; 4243563512;
   1735328473; 2368359562; 4294588738; 2272392833; 1839030562; 4259657740;
   2763975236; 1272893353; 4139469664; 3200236656; 681279174; 3936430074;
   3572445317; 76029189; 3654602809; 3873151461; 530742520; 3299628645;
   4096336452; 1126891415; 2878612391; 4237533241; 1700485571; 2399980690;
   4293915773; 2240044497; 1873313359; 4264355552; 2734768916; 1309151649;
   4149444226; 3174756917; 718787259; 3951481745].

(** Little-endian bytes of a [w]-byte integer, and back. *)
Definition le_bytes (w : nat) (n : N) : bytes := rev (fixed_digits 256 w n).
Definition le_value (bs : bytes) : N := of_digits 256 (rev bs).

(** One of the 64 operations on the four state words. *)
Definition md5_op (m : list N) (st : N * N * N * N) (i : nat) : N * N * N * N :=
  let '(a, b, c, d) := st in
  let '(f, g) :=
    if Nat.ltb i 16 then (N.lor (N.land b c) (N.land (not32 b) d), i)
    else if Nat.ltb i 32 then (N.lor (N.land d b) (N.land (not32 d) c), ((5 * i + 1) mod 16)%nat)
    else if Nat.ltb i 48 then (N.lxor b (N.lxor c d), ((3 * i + 5) mod 16)%nat)
    else (N.lxor c (N.lor b (not32 d)), ((7 * i) mod 16)%nat) in
  let sum := w32 (f + a + nth i md5_table 0 + nth g m 0) in
  (d, w32 (b + rotl sum (nth i md5_shifts 0)), b, c).

Definition md5_block (st : N * N * N * N) (block : bytes) : N * N * N * N :=
  let m := map (fun i => le_value (take 4 (drop (4 * i) block))) (seq 0 16) in
  let '(a, b, c, d) := st in
  let '(a', b', c', d') := foldl (md5_op m) st (seq 0 64) in
  (w32 (a + a'), w32 (b + b'), w32 (c + c'), w32 (d + d')).

Fixpoint md5_blocks (fuel : nat) (st : N * N * N * N) (bs : bytes) : N * N * N * N :=
  match fuel with
  | O => st
  | S fuel => match bs with [] => st | _ => md5_blocks fuel (md5_block st (take 64 bs)) (drop 64 bs) end
  end.

Definition md5_pad (bs : bytes) : bytes :=
  bs ++ 128 :: replicate ((119 - length bs mod 64) mod 64)%nat 0 ++ le_bytes 8 (8 * N.of_nat (length bs)).

(** The 16 bytes of the digest. *)
Definition md5 (bs : bytes) : bytes :=
  let p := md5_pad bs in
  let '(a, b, c, d) := md5_blocks (S (length p)) (1732584193, 4023233417, 2562383102, 271733878) p in
  le_bytes 4 a ++ le_bytes 4 b ++ le_bytes 4 c ++ le_bytes 4 d.
