(* ===== verification/BPlusTree.v ===== *)
(** * The B+ tree of [litedb-python/btree.py]

    Nodes are the [BPlusNode] objects.  A leaf carries an identity [lid], which
    stands for the object's address, and its [next] pointer names the identity
    of the next leaf; an internal node is reached from its parent only, so it
    needs no identity.  The operations return [res], whose [IndexError] is the
    exception a Python list access out of range would raise. *)

From S2P Require Import Prelude.

(** ** Data *)

#[warnings="-register-all"]
Inductive node :=
| Leaf (lid : nat) (keys vals : list str) (next : option nat)
| Internal (keys : list str) (children : list node).

(** [BPlusTree]: [fresh] is the allocator of leaf identities. *)
Record tree := mkTree {
  order : nat;
  root : node;
  tsize : Z;
  fresh : nat
}.

Definition node_keys (n : node) : list str :=
  match n with Leaf _ ks _ _ => ks | Internal ks _ => ks end.

Definition empty_tree (ord : nat) : tree := mkTree ord (Leaf 0 [] [] None) 0 1.

(** [len(keys) >= 2 * order - 1]. *)
Definition is_full (ord : nat) (n : node) : bool := Nat.leb (2 * ord) (S (length (node_keys n))).

(** ** Search *)

Fixpoint find_leaf (key : str) (n : node) : res node :=
  match n with
  | Leaf _ _ _ _ => Ok n
  | Internal ks cs => nth_with (find_leaf key) (Raise IndexError) cs (bisect_right ks key)
  end.

(** The slot of [key] in a leaf, when [leaf.keys[idx] == key]. *)
Definition leaf_slot (ks : list str) (key : str) : option nat :=
  let idx := bisect_left ks key in
  match ks !! idx with
  | Some k => if k =s? key then Some idx else None
  | None => None
  end.

Definition get (t : tree) (key : str) : res (option str) :=
  n ← find_leaf key (root t);
  match n with
  | Leaf _ ks vs _ =>
      match leaf_slot ks key with
      | Some idx => Some <$> nth_res vs idx
      | None => Ok None
      end
  | Internal _ _ => Raise TypeError
  end.

(** ** Insert *)

(** [_split_child(parent, child_idx)] on the two lists of the parent; [nid] is
    the identity of the leaf object it may create. *)
Definition split_child (ord nid : nat) (pks : list str) (pcs : list node) (idx : nat)
  : res (list str * list node * nat) :=
  child ← nth_res pcs idx;
  match child with
  | Leaf i ks vs nx =>
      let mid := ord in
      let new_leaf := Leaf nid (drop mid ks) (drop mid vs) nx in
      let child' := Leaf i (take mid ks) (take mid vs) (Some nid) in
      median ← nth_res (drop mid ks) 0;
      Ok (list_insert_at idx median pks,
          list_insert_at (S idx) new_leaf (<[idx := child']> pcs), S nid)
  | Internal ks cs =>
      let mid := ord - 1 in
      median ← nth_res ks mid;
      let new_internal := Internal (drop (S mid) ks) (drop (S mid) cs) in
      let child' := Internal (take mid ks) (take (S mid) cs) in
      Ok (list_insert_at idx median pks,
          list_insert_at (S idx) new_internal (<[idx := child']> pcs), nid)
  end.

(** [_insert_non_full]; [fuel] bounds the descent and the height suffices. *)
Fixpoint insert_non_full (fuel ord nid : nat) (n : node) (key value : str)
  : res (node * nat) :=
  match n with
  | Leaf i ks vs nx =>
      let idx := bisect_left ks key in
      Ok (Leaf i (list_insert_at idx key ks) (list_insert_at idx value vs) nx, nid)
  | Internal ks cs =>
      match fuel with
      | O => Raise RuntimeError
      | S fuel =>
          let idx := bisect_right ks key in
          child ← nth_res cs idx;
          '(ks, cs, nid, idx) ←
            (if is_full ord child then
               '(ks, cs, nid) ← split_child ord nid ks cs idx;
               sep ← nth_res ks idx;
               Ok (ks, cs, nid, if sep <s? key then S idx else idx)
             else Ok (ks, cs, nid, idx));
          child ← nth_res cs idx;
          '(child, nid) ← insert_non_full fuel ord nid child key value;
          Ok (Internal ks (<[idx := child]> cs), nid)
      end
  end.

(** The in-place update [leaf.values[idx] = value] of the leaf on [key]'s path. *)
Fixpoint update_leaf (key : str) (idx : nat) (value : str) (n : node) : node :=
  match n with
  | Leaf i ks vs nx => Leaf i ks (<[idx := value]> vs) nx
  | Internal ks cs =>
      let i := bisect_right ks key in
      let c := nth_with (update_leaf key idx value) (Leaf 0 [] [] None) cs i in
      Internal ks (<[i := c]> cs)
  end.

(** The depth of the deepest leaf, the fuel of the descents. *)
Fixpoint depth (n : node) : nat :=
  match n with
  | Leaf _ _ _ _ => 0
  | Internal _ cs => S (foldr Nat.max 0 (map depth cs))
  end.

Definition set (t : tree) (key value : str) : res tree :=
  n ← find_leaf key (root t);
  match leaf_slot (node_keys n) key with
  | Some idx => Ok (mkTree (order t) (update_leaf key idx value (root t)) (tsize t) (fresh t))
  | None =>
      '(r, nid) ←
        (if is_full (order t) (root t) then
           '(ks, cs, nid) ← split_child (order t) (fresh t) [] [root t] 0;
           Ok (Internal ks cs, nid)
         else Ok (root t, fresh t));
      '(r, nid) ← insert_non_full (depth r) (order t) nid r key value;
      Ok (mkTree (order t) r (tsize t + 1) nid)
  end.

(** ** Delete *)

Fixpoint find_min_key (n : node) : str :=
  match n with
  | Leaf _ ks _ _ => match ks with k :: _ => k | [] => [] end
  | Internal _ cs => match cs with c :: _ => find_min_key c | [] => [] end
  end.

(** A child seen as a leaf: identity, keys, values, next. *)
Definition as_leaf (n : node) : option (nat * list str * list str * option nat) :=
  match n with Leaf i ks vs nx => Some (i, ks, vs, nx) | Internal _ _ => None end.

(** [l[i] = x] and [l.pop(i)], with their [IndexError]. *)
Definition assign {A} (l : list A) (i : nat) (x : A) : res (list A) :=
  if Nat.ltb i (length l) then Ok (<[i := x]> l) else Raise IndexError.
Definition pop_at {A} (l : list A) (i : nat) : res (list A) :=
  if Nat.ltb i (length l) then Ok (delete i l) else Raise IndexError.

(** Borrow the last key of the left sibling. *)
Definition borrow_left (pks : list str) (pcs : list node) (idx : nat)
  (leaf lsib : nat * list str * list str * option nat) : res (list str * list node) :=
  let '(i, ks, vs, nx) := leaf in
  let '(li, lks, lvs, lnx) := lsib in
  k ← nth_res lks (length lks - 1); v ← nth_res lvs (length lvs - 1);
  pks ← assign pks (idx - 1) k;
  Ok (pks,
      <[idx - 1 := Leaf li (take (length lks - 1) lks) (take (length lvs - 1) lvs) lnx]>
        (<[idx := Leaf i (k :: ks) (v :: vs) nx]> pcs)).

(** Merge the right sibling into the leaf. *)
Definition merge_right (pks : list str) (pcs : list node) (idx : nat)
  (leaf rsib : nat * list str * list str * option nat) : res (list str * list node) :=
  let '(i, ks, vs, nx) := leaf in
  let '(ri, rks, rvs, rnx) := rsib in
  pks ← pop_at pks idx;
  pcs ← pop_at (<[idx := Leaf i (ks ++ rks) (vs ++ rvs) rnx]> pcs) (S idx);
  Ok (pks, pcs).

(** [_rebalance_leaf(leaf, parent, leaf_idx)] on the two lists of the parent.
    Siblings of a leaf are leaves, since all leaves have the same depth. *)
Definition rebalance_leaf (ord : nat) (pks : list str) (pcs : list node) (idx : nat)
  : res (list str * list node) :=
  leaf ← nth_res pcs idx;
  '(i, ks, vs, nx) ← of_option TypeError (as_leaf leaf);
  let rsib := pcs !! S idx ≫= as_leaf in
  let lsib := (match idx with O => None | S p => pcs !! p end) ≫= as_leaf in
  match rsib, lsib with
  | Some (ri, rks, rvs, rnx), _ =>
      if Nat.leb ord (length rks) then
        (* borrow the first key of the right sibling *)
        k ← nth_res rks 0; v ← nth_res rvs 0; sep ← nth_res (drop 1 rks) 0;
        pks ← assign pks idx sep;
        Ok (pks,
            <[S idx := Leaf ri (drop 1 rks) (drop 1 rvs) rnx]>
              (<[idx := Leaf i (ks ++ [k]) (vs ++ [v]) nx]> pcs))
      else
        match lsib with
        | Some (li, lks, lvs, lnx) =>
            if Nat.leb ord (length lks) then
              borrow_left pks pcs idx (i, ks, vs, nx) (li, lks, lvs, lnx)
            else merge_right pks pcs idx (i, ks, vs, nx) (ri, rks, rvs, rnx)
        | None => merge_right pks pcs idx (i, ks, vs, nx) (ri, rks, rvs, rnx)
        end
  | None, Some (li, lks, lvs, lnx) =>
      if Nat.leb ord (length lks) then
        borrow_left pks pcs idx (i, ks, vs, nx) (li, lks, lvs, lnx)
      else
        (* merge into the left sibling *)
        pks ← pop_at pks (idx - 1);
        pcs ← pop_at (<[idx - 1 := Leaf li (lks ++ ks) (lvs ++ vs) nx]> pcs) idx;
        Ok (pks, pcs)
  | None, None => Ok (pks, pcs)
  end.

(** [_delete_recursive]: whether the key was found, the node after the deletion,
    and whether the node is an underflowing leaf, which its parent rebalances. *)
Fixpoint delete_recursive (ord : nat) (key : str) (n : node) : res (bool * node * bool) :=
  match n with
  | Leaf i ks vs nx =>
      match leaf_slot ks key with
      | Some idx =>
          let ks' := delete idx ks in
          Ok (true, Leaf i ks' (delete idx vs) nx, Nat.ltb (S (length ks')) ord)
      | None => Ok (false, n, false)
      end
  | Internal ks cs =>
      let idx := bisect_right ks key in
      '(found, c, underflow) ←
        nth_with (delete_recursive ord key) (Raise IndexError) cs idx;
      let cs := <[idx := c]> cs in
      '(ks, cs) ← (if (underflow : bool) then rebalance_leaf ord ks cs idx else Ok (ks, cs));
      let ks :=
        if (found : bool) && Nat.ltb idx (length ks) then
          match cs !! S idx with
          | Some rc => <[idx := find_min_key rc]> ks
          | None => ks
          end
        else ks in
      Ok (found, Internal ks cs, false)
  end.

Definition delete_key (t : tree) (key : str) : res (bool * tree) :=
  '(found, r, _) ← delete_recursive (order t) key (root t);
  if (found : bool) then
    r ← (match r with
         | Internal [] cs => nth_res cs 0
         | _ => Ok r
         end);
    Ok (true, mkTree (order t) r (tsize t - 1) (fresh t))
  else Ok (false, mkTree (order t) r (tsize t) (fresh t)).

(** ** Range scan *)

Fixpoint leaves (n : node) : list node :=
  match n with
  | Leaf _ _ _ _ => [n]
  | Internal _ cs => concat (map leaves cs)
  end.

Definition leaf_id (n : node) : option nat :=
  match n with Leaf i _ _ _ => Some i | Internal _ _ => None end.

(** The leaf object a [next] pointer denotes. *)
Definition deref (ls : list node) (p : nat) : option node :=
  snd <$> list_find (fun l => leaf_id l = Some p) ls.

(** The body of the loop over one leaf; the flag tells that [return] was reached. *)
Fixpoint scan_leaf (start_key end_key : str) (ks vs : list str) : list (str * str) * bool :=
  match ks, vs with
  | k :: ks, v :: vs =>
      if end_key <s? k then ([], true)
      else
        let '(out, stop) := scan_leaf start_key end_key ks vs in
        (if start_key <=s? k then (k, v) :: out else out, stop)
  | _, _ => ([], false)
  end.

(** [while leaf is not None]; the number of leaves bounds the walk. *)
Fixpoint scan_chain (fuel : nat) (ls : list node) (start_key end_key : str) (leaf : node)
  : list (str * str) :=
  match fuel, leaf with
  | S fuel, Leaf _ ks vs nx =>
      let '(out, stop) := scan_leaf start_key end_key ks vs in
      if (stop : bool) then out
      else
        match nx ≫= deref ls with
        | Some l => out ++ scan_chain fuel ls start_key end_key l
        | None => out
        end
  | _, _ => []
  end.

Definition scan (t : tree) (start_key end_key : str) : res (list (str * str)) :=
  leaf ← find_leaf start_key (root t);
  Ok (scan_chain (length (leaves (root t))) (leaves (root t)) start_key end_key leaf).

(** [items]: the scan with its default bounds, the empty string and three U+00FF. *)
Definition items (t : tree) : res (list (str * str)) := scan t [] [255; 255; 255]%N.

(** ** Utilities *)

(** [height()]: one plus the length of the leftmost path. *)
Fixpoint height (n : node) : nat :=
  match n with
  | Leaf _ _ _ _ => 1
  | Internal _ cs => S (match cs with c :: _ => height c | [] => 0 end)
  end.

(** [_count_nodes]: total, leaf and internal nodes. *)
Fixpoint count_nodes (n : node) : nat * nat * nat :=
  match n with
  | Leaf _ _ _ _ => (1, 1, 0)
  | Internal _ cs =>
      foldl (fun '(t, l, i) '(t', l', i') => (t + t', l + l', i + i')) (1, 0, 1)
        (map count_nodes cs)
  end.

(** ** Invariants

    [ordered lo hi h n]: [n] has uniform height [h], its keys lie in [lo, hi),
    leaves are strictly sorted and separators bound the subtrees. *)

Definition above (lo : option str) (k : str) : Prop :=
  match lo with None => True | Some l => l <=s k end.
Definition below (k : str) (hi : option str) : Prop :=
  match hi with None => True | Some u => k <s u end.

Definition under (k : str) (hi : option str) : Prop :=
  match hi with None => True | Some u => k <=s u end.

Inductive ordered : option str -> option str -> nat -> node -> Prop :=
| ordered_leaf lo hi i ks vs nx :
    length vs = length ks -> StronglySorted str_lt ks ->
    Forall (above lo) ks -> Forall (fun k => below k hi) ks ->
    ordered lo hi 0 (Leaf i ks vs nx)
| ordered_internal lo hi h ks cs :
    ordered_list lo hi h ks cs -> ordered lo hi (S h) (Internal ks cs)
with ordered_list : option str -> option str -> nat -> list str -> list node -> Prop :=
| ordered_one lo hi h c : ordered lo hi h c -> ordered_list lo hi h [] [c]
| ordered_more lo hi h k ks c cs :
    above lo k -> under k hi -> ordered lo (Some k) h c -> ordered_list (Some k) hi h ks cs ->
    ordered_list lo hi h (k :: ks) (c :: cs).

Scheme ordered_mind := Minimality for ordered Sort Prop
with ordered_list_mind := Minimality for ordered_list Sort Prop.
Combined Scheme ordered_mutind from ordered_mind, ordered_list_mind.

(** The key-value pairs of a subtree, in leaf order. *)
Definition leaf_entries (l : node) : list (str * str) :=
  match l with Leaf _ ks vs _ => zip ks vs | Internal _ _ => [] end.
Definition entries_of (ls : list node) : list (str * str) := concat (map leaf_entries ls).
Definition entries (n : node) : list (str * str) := entries_of (leaves n).

(** The separators of a subtree. *)
Fixpoint seps (n : node) : list str :=
  match n with
  | Leaf _ _ _ _ => []
  | Internal ks cs => ks ++ concat (map seps cs)
  end.

(** [next] pointers follow the leaf order and end in [p]. *)
Definition next_of (l : node) : option nat :=
  match l with Leaf _ _ _ nx => nx | Internal _ _ => None end.
Definition hd_id (ls : list node) (p : option nat) : option nat :=
  match ls with [] => p | l :: _ => leaf_id l end.
Fixpoint linked (ls : list node) (p : option nat) : Prop :=
  match ls with
  | [] => True
  | l :: ls => next_of l = hd_id ls p /\ linked ls p
  end.
Definition ids (ls : list node) : list nat := omap leaf_id ls.

(** The tree as a finite map. *)
Definition tree_map (t : tree) : gmap str str := list_to_map (entries (root t)).

(** The invariant of a tree. *)
Record wf (t : tree) : Prop := {
  wf_order : 2 <= order t;
  wf_ordered : exists h, ordered None None h (root t);
  wf_linked : linked (leaves (root t)) None;
  wf_nodup : NoDup (ids (leaves (root t)));
  wf_fresh : Forall (fun i => i < fresh t) (ids (leaves (root t)));
  wf_size : tsize t = Z.of_nat (length (entries (root t)))
}.

(** [key] is no stale separator: it is stored, or it separates nothing. *)
Definition set_safe (t : tree) (key : str) : Prop :=
  key ∈ (entries (root t)).*1 \/ key ∉ seps (root t).

(** No leaf of the tree is empty. *)
Definition no_empty_leaf (t : tree) : Prop :=
  Forall (fun l => node_keys l <> []) (leaves (root t)).

(** Occupancy: every node below [n] has between [t - 1] and [2t - 1] keys. *)
Definition in_range (ord : nat) (n : node) : bool :=
  Nat.leb ord (S (length (node_keys n))) && Nat.ltb (length (node_keys n)) (2 * ord).
Fixpoint filled (ord : nat) (n : node) : bool :=
  match n with
  | Leaf _ _ _ _ => true
  | Internal _ cs => forallb (fun c => in_range ord c && filled ord c) cs
  end.

(** Every internal node has at least two children. *)
Fixpoint paired (n : node) : bool :=
  match n with
  | Leaf _ _ _ _ => true
  | Internal ks cs => negb (bool_decide (ks = [])) && forallb paired cs
  end.

(** An internal root has at least one key. *)
Definition is_leaf (n : node) : bool := match n with Leaf _ _ _ _ => true | Internal _ _ => false end.
Definition root_ok (n : node) : bool := is_leaf n || negb (bool_decide (node_keys n = [])).
