(* ===== verification/BPlusTreeFacts.v ===== *)
(** * Correctness of the B+ tree

    Lemmas on [ordered], on the chain of leaves and on every operation of
    [BPlusTree], and the theorems: the tree refines a finite map, keeps its
    invariant, and the two situations in which the code loses keys. *)

From S2P Require Import Prelude BPlusTree.

Create HintDb btree.

(** [elems x] settles [x]'s membership in concatenations, given inclusions. *)
Ltac elems x :=
  repeat match goal with
  | H : _ ⊆ _ |- _ => specialize (H x)
  end;
  rewrite ?elem_of_app, ?elem_of_cons, ?elem_of_nil in *; tauto.

(** ** Bounds *)

Lemma above_trans lo k k' : above lo k -> k <=s k' -> above lo k'.
Proof. destruct lo; simpl; [str_order|done]. Qed.

Lemma below_trans k k' hi : k <=s k' -> below k' hi -> below k hi.
Proof. destruct hi; simpl; [str_order|done]. Qed.

Lemma under_trans k k' hi : k <=s k' -> under k' hi -> under k hi.
Proof. destruct hi; simpl; [str_order|done]. Qed.

Lemma below_under k k' hi : k <s k' -> under k' hi -> below k hi.
Proof. destruct hi; simpl; [str_order|done]. Qed.

Lemma below_under_self k hi : below k hi -> under k hi.
Proof. destruct hi; simpl; [str_order|done]. Qed.

#[export] Hint Resolve above_trans below_trans under_trans below_under below_under_self : btree.

Lemma ordered_list_length lo hi h ks cs :
  ordered_list lo hi h ks cs -> length cs = S (length ks).
Proof. induction 1; simpl; congruence. Qed.

Lemma ordered_list_keys lo hi h ks cs : ordered_list lo hi h ks cs -> Forall (above lo) ks.
Proof.
  induction 1 as [|lo hi h k ks c cs Hk Hu Hc Hl IH]; [done|].
  constructor; [done|]. eapply Forall_weaken; [exact IH|].
  intros k' Hk'. eapply above_trans; [exact Hk|exact Hk'].
Qed.

(** Widening the bounds. *)
Definition wider (lo hi lo' hi' : option str) : Prop :=
  (forall k, above lo k -> above lo' k) /\ (forall k, below k hi -> below k hi') /\
  (forall k, under k hi -> under k hi').

Lemma wider_hi_keys ks lo hi lo' hi' :
  wider lo hi lo' hi' -> Forall (fun k => below k hi) ks -> Forall (fun k => below k hi') ks.
Proof. intros (_ & H & _) Hk. eapply Forall_weaken; [exact Hk|auto]. Qed.

Lemma wider_lo_keys ks lo hi lo' hi' :
  wider lo hi lo' hi' -> Forall (above lo) ks -> Forall (above lo') ks.
Proof. intros (H & _ & _) Hk. eapply Forall_weaken; [exact Hk|auto]. Qed.

Lemma ordered_weaken :
  (forall lo hi h n, ordered lo hi h n ->
     forall lo' hi', wider lo hi lo' hi' -> ordered lo' hi' h n) /\
  (forall lo hi h ks cs, ordered_list lo hi h ks cs ->
     forall lo' hi', wider lo hi lo' hi' -> ordered_list lo' hi' h ks cs).
Proof.
  apply ordered_mutind.
  - intros * Hl Hs Ha Hb lo' hi' Hw. constructor; eauto using wider_lo_keys, wider_hi_keys.
  - intros * Hl IH lo' hi' Hw. constructor; auto.
  - intros * Hc IH lo' hi' Hw. constructor; auto.
  - intros * Ha Hu Hc IHc Hl IHl lo' hi' Hw. destruct (Hw) as (Hw1 & Hw2 & Hw3).
    constructor; auto.
    + apply IHc. repeat split; auto.
    + apply IHl. repeat split; auto.
Qed.

Lemma wider_hi lo k hi : under k hi -> wider lo (Some k) lo hi.
Proof.
  intros Hu. repeat split; auto; intros k'; destruct hi; simpl in *; try done; str_order.
Qed.

Lemma ordered_raise_hi lo h n k hi : ordered lo (Some k) h n -> under k hi -> ordered lo hi h n.
Proof. intros H Hu. eapply ordered_weaken; eauto using wider_hi. Qed.

(** ** Leaves and entries *)

Definition leaves_list (cs : list node) : list node := concat (map leaves cs).

Lemma leaves_internal ks cs : leaves (Internal ks cs) = leaves_list cs.
Proof. done. Qed.

Lemma leaves_list_app c1 c2 : leaves_list (c1 ++ c2) = leaves_list c1 ++ leaves_list c2.
Proof. unfold leaves_list. by rewrite map_app, concat_app. Qed.

Lemma leaves_list_cons c cs : leaves_list (c :: cs) = leaves c ++ leaves_list cs.
Proof. done. Qed.

Lemma entries_of_app l1 l2 : entries_of (l1 ++ l2) = entries_of l1 ++ entries_of l2.
Proof. unfold entries_of. by rewrite map_app, concat_app. Qed.

Definition entries_list (cs : list node) : list (str * str) := entries_of (leaves_list cs).

Lemma entries_list_app c1 c2 : entries_list (c1 ++ c2) = entries_list c1 ++ entries_list c2.
Proof. unfold entries_list. by rewrite leaves_list_app, entries_of_app. Qed.

Lemma entries_list_cons c cs : entries_list (c :: cs) = entries c ++ entries_list cs.
Proof. unfold entries_list. by rewrite leaves_list_cons, entries_of_app. Qed.

Lemma entries_internal ks cs : entries (Internal ks cs) = entries_list cs.
Proof. done. Qed.

Lemma entries_leaf i ks vs nx : entries (Leaf i ks vs nx) = zip ks vs.
Proof. unfold entries, entries_of; simpl. apply app_nil_r. Qed.

#[export] Hint Rewrite leaves_internal leaves_list_app leaves_list_cons entries_of_app
  entries_list_app entries_list_cons entries_internal entries_leaf : btree.

(** Every stored key lies in the bounds, and the keys are strictly sorted. *)
Lemma ordered_entries :
  (forall lo hi h n, ordered lo hi h n ->
     Forall (fun k => above lo k /\ below k hi) (entries n).*1 /\
     StronglySorted str_lt (entries n).*1) /\
  (forall lo hi h ks cs, ordered_list lo hi h ks cs ->
     Forall (fun k => above lo k /\ below k hi) (entries_list cs).*1 /\
     StronglySorted str_lt (entries_list cs).*1).
Proof.
  apply ordered_mutind.
  - intros * Hl Hs Ha Hb. rewrite entries_leaf, fst_zip by lia. split; [|done].
    apply Forall_and; auto.
  - intros * Hl IH. by rewrite entries_internal.
  - intros * Hc IH. rewrite entries_list_cons. unfold entries_list; simpl. by rewrite app_nil_r.
  - intros lo hi h k ks c cs Ha Hu Hc [IHb IHs] Hl [IHlb IHls].
    rewrite entries_list_cons, fmap_app. split.
    + apply Forall_app; split.
      * eapply Forall_weaken; [exact IHb|]. intros x [? ?]; split; [done|].
        eauto with btree.
      * eapply Forall_weaken; [exact IHlb|]. intros x [? ?]; split; [|done]. eauto with btree.
    + apply StronglySorted_app_2; auto. intros x y Hx Hy.
      rewrite list.Forall_forall in IHb, IHlb. apply IHb in Hx as [_ Hx]. apply IHlb in Hy as [Hy _].
      simpl in *. str_order.
Qed.

Lemma ordered_sorted lo hi h n : ordered lo hi h n -> StronglySorted str_lt (entries n).*1.
Proof. intros H. apply ordered_entries in H. tauto. Qed.

(** Concatenating two ordered lists of children around a separator. *)
Lemma ordered_list_join lo hi h k1 c1 k k2 c2 :
  ordered_list lo (Some k) h k1 c1 -> ordered_list (Some k) hi h k2 c2 ->
  above lo k -> under k hi -> ordered_list lo hi h (k1 ++ k :: k2) (c1 ++ c2).
Proof.
  intros H1. remember (Some k) as hk eqn:E. revert E.
  induction H1 as [lo hk h c Hc|lo hk h k' ks c cs Ha' Hu' Hc Hl IH]; intros -> H2 Ha Hu; simpl in *;
    constructor; eauto using under_trans.
Qed.

(** ** Descending one level

    [focus]: the child a search for [key] enters, and what may replace it. *)

Lemma ordered_focus lo hi h ks cs key :
  ordered_list lo hi h ks cs -> above lo key -> below key hi ->
  exists ks1 ks2 cs1 c cs2 lo' hi',
    ks = ks1 ++ ks2 /\ cs = cs1 ++ c :: cs2 /\ length ks1 = length cs1 /\
    Forall (fun k => k <=s key) ks1 /\ Forall (fun k => key <s k) ks2 /\
    above lo' key /\ below key hi' /\ ordered lo' hi' h c /\
    Forall (fun k => k <s key) (entries_list cs1).*1 /\
    Forall (fun k => key <s k) (entries_list cs2).*1 /\
    (forall ksm csm, ordered_list lo' hi' h ksm csm ->
       ordered_list lo hi h (ks1 ++ ksm ++ ks2) (cs1 ++ csm ++ cs2)).
Proof.
  induction 1 as [lo hi h c Hc|lo hi h k ks c cs Ha Hu Hc Hl IH]; intros Hlo Hhi.
  - exists [], [], [], c, [], lo, hi. repeat split; auto using Forall_nil_2.
    intros ksm csm. by rewrite !app_nil_r.
  - destruct (decide (k <=s key)) as [Hk|Hk].
    + destruct IH as (ks1 & ks2 & cs1 & c' & cs2 & lo' & hi' & -> & -> & Hlen & Hk1 & Hk2
        & Hlo' & Hhi' & Hc' & He1 & He2 & Hctx); [done|done|].
      exists (k :: ks1), ks2, (c :: cs1), c', cs2, lo', hi'.
      repeat split; auto; [simpl; lia| |].
      * rewrite entries_list_cons, fmap_app. apply Forall_app; split; [|done].
        apply ordered_entries in Hc as [Hb _]. eapply Forall_weaken; [exact Hb|].
        intros x [_ Hx]; simpl in Hx. str_order.
      * intros ksm csm Hm. simpl. constructor; auto.
    + exists [], (k :: ks), [], c, cs, lo, (Some k).
      assert (Hgt : Forall (fun x => k <=s x) ks) by apply (ordered_list_keys _ _ _ _ _ Hl).
      repeat split; auto using Forall_nil_2; try (simpl; str_order).
      * constructor; [str_order|]. eapply Forall_weaken; [exact Hgt|]. intros x Hx; simpl in *. str_order.
      * apply ordered_entries in Hl as [Hb _]. eapply Forall_weaken; [exact Hb|].
        intros x [Hx _]; simpl in Hx. str_order.
      * intros ksm csm Hm. simpl. apply ordered_list_join; auto.
Qed.

Lemma focus_index ks1 ks2 key :
  Forall (fun k => k <=s key) ks1 -> Forall (fun k => key <s k) ks2 ->
  bisect_right (ks1 ++ ks2) key = length ks1.
Proof. apply bisect_right_app. Qed.

(** [focus H key Ha Hb] opens the child of an ordered list that [key] selects. *)
Ltac focus H key Ha Hb :=
  let ks1 := fresh "ks1" in let ks2 := fresh "ks2" in let cs1 := fresh "cs1" in
  let c := fresh "c" in let cs2 := fresh "cs2" in let lo' := fresh "lo'" in
  let hi' := fresh "hi'" in
  destruct (ordered_focus _ _ _ _ _ key H Ha Hb)
    as (ks1 & ks2 & cs1 & c & cs2 & lo' & hi' & -> & -> & Hlen & Hk1 & Hk2 & Hlo' & Hhi' & Hc
        & He1 & He2 & Hctx);
  pose proof (focus_index ks1 ks2 key Hk1 Hk2) as Hidx; rewrite Hlen in Hidx.

(** ** Finding and updating the leaf of a key *)

Lemma find_leaf_spec h : forall lo hi n key,
  ordered lo hi h n -> above lo key -> below key hi ->
  exists i ks vs nx L1 L2,
    find_leaf key n = Ok (Leaf i ks vs nx) /\
    leaves n = L1 ++ Leaf i ks vs nx :: L2 /\
    length vs = length ks /\ StronglySorted str_lt ks /\
    Forall (fun k => k <s key) (entries_of L1).*1 /\
    Forall (fun k => key <s k) (entries_of L2).*1 /\
    (forall idx v, leaves (update_leaf key idx v n) = L1 ++ Leaf i ks (<[idx := v]> vs) nx :: L2 /\
       ordered lo hi h (update_leaf key idx v n) /\
       seps (update_leaf key idx v n) = seps n /\
       node_keys (update_leaf key idx v n) = node_keys n /\
       (forall ord, filled ord (update_leaf key idx v n) = filled ord n)).
Proof.
  induction h as [|h IH]; intros lo hi n key Ho Ha Hb; inversion Ho; subst.
  - exists i, ks, vs, nx, [], []. repeat split; auto using Forall_nil_2.
    constructor; auto. by rewrite length_insert.
  - rename H2 into Hl. focus Hl key Ha Hb.
    destruct (IH _ _ _ key Hc Hlo' Hhi')
      as (i & ks & vs & nx & L1 & L2 & Hf & HL & Hlv & Hs & HL1 & HL2 & Hup).
    exists i, ks, vs, nx, (leaves_list cs1 ++ L1), (L2 ++ leaves_list cs2).
    simpl find_leaf. rewrite Hidx, nth_with_app.
    rewrite leaves_internal, leaves_list_app, leaves_list_cons, HL, !entries_of_app, !fmap_app, !Forall_app.
    repeat match goal with |- _ /\ _ => split end; auto; try by rewrite <- !app_assoc.
    intros idx v. destruct (Hup idx v) as (Hup1 & Hup2 & Hup3 & Hup4 & Hup5).
    simpl update_leaf. rewrite Hidx, nth_with_app, list_insert_middle. split_and!; [| | |done|].
    + rewrite leaves_internal, leaves_list_app, leaves_list_cons, Hup1. by rewrite <- !app_assoc.
    + constructor. apply (Hctx [] [update_leaf key idx v c]). by constructor.
    + simpl. rewrite !map_app, !concat_app. simpl. by rewrite Hup3.
    + intros ord. simpl. rewrite !forallb_app. simpl. unfold in_range. by rewrite Hup4, Hup5.
Qed.

(** The slot of a key in a sorted leaf. *)
Lemma leaf_slot_some ks1 key ks2 :
  StronglySorted str_lt (ks1 ++ key :: ks2) -> leaf_slot (ks1 ++ key :: ks2) key = Some (length ks1).
Proof.
  intros (H1 & H2 & _)%sorted_middle. unfold leaf_slot. rewrite bisect_left_app; [|done|].
  - by rewrite lookup_middle, bool_decide_eq_true_2.
  - constructor; [str_order|]. eapply Forall_weaken; [exact H2|]. intros x Hx; simpl in *. str_order.
Qed.

Lemma leaf_slot_cases ks key :
  StronglySorted str_lt ks ->
  (exists ks1 ks2, ks = ks1 ++ key :: ks2 /\ leaf_slot ks key = Some (length ks1)) \/
  (exists ks1 ks2, ks = ks1 ++ ks2 /\ leaf_slot ks key = None /\ key ∉ ks /\
     bisect_left ks key = length ks1 /\
     Forall (fun a => a <s key) ks1 /\ Forall (fun a => key <s a) ks2).
Proof.
  intros Hs. destruct (sorted_split ks key Hs) as (ks1 & ks2 & -> & H1 & H2).
  destruct ks2 as [|k ks2].
  - right. exists ks1, []. repeat split; auto.
    + unfold leaf_slot. rewrite bisect_left_app by done.
      by rewrite lookup_ge_None_2 by (rewrite app_nil_r; lia).
    + rewrite app_nil_r. intros Hin. rewrite list.Forall_forall in H1. specialize (H1 _ Hin). str_order.
    + by apply bisect_left_app.
  - pose proof (Forall_inv H2) as Hk. pose proof (Forall_inv_tail H2) as Hks2.
    destruct (decide (k = key)) as [->|Hne].
    + left. exists ks1, ks2. split; [done|]. by apply leaf_slot_some.
    + destruct (sorted_middle _ _ _ Hs) as (_ & Hs2 & _).
      assert (Hgt : Forall (fun a => key <s a) (k :: ks2)).
      { constructor; [str_order|]. eapply Forall_weaken; [exact Hs2|]. intros x Hx; simpl in *. str_order. }
      right. exists ks1, (k :: ks2). repeat split; auto.
      * unfold leaf_slot. rewrite bisect_left_app, lookup_middle by done.
        by rewrite bool_decide_eq_false_2.
      * rewrite elem_of_app. rewrite list.Forall_forall in H1, Hgt.
        intros [Hin|Hin]; [apply H1 in Hin|apply Hgt in Hin]; str_order.
      * by apply bisect_left_app.
Qed.

(** ** Lookup *)

Lemma entries_at n L1 i ks vs nx L2 :
  leaves n = L1 ++ Leaf i ks vs nx :: L2 ->
  entries n = entries_of L1 ++ zip ks vs ++ entries_of L2.
Proof. intros HL. unfold entries. by rewrite HL, entries_of_app. Qed.

Lemma get_spec h t key :
  ordered None None h (root t) -> get t key = Ok (tree_map t !! key).
Proof.
  intros Ho. destruct (find_leaf_spec h None None (root t) key Ho I I)
    as (i & ks & vs & nx & L1 & L2 & Hf & HL & Hlen & Hs & H1 & H2 & _).
  unfold get, tree_map. rewrite Hf, (entries_at _ _ _ _ _ _ _ HL). simpl.
  destruct (leaf_slot_cases ks key Hs) as [(k1 & k2 & -> & ->)|(k1 & k2 & -> & -> & Hni & _ & Hk1 & Hk2)].
  - destruct (parallel_middle _ _ _ _ Hlen) as (v1 & v & v2 & -> & Hl1 & Hl2).
    rewrite zip_middle by done. rewrite <- app_assoc, <- app_comm_cons, app_assoc, list_to_map_middle.
    + unfold nth_res. by rewrite <- Hl1, lookup_middle.
    + rewrite fmap_app, fst_zip_eq by done. apply Forall_app. apply sorted_middle in Hs. tauto.
  - destruct (parallel_app _ _ _ Hlen) as (v1 & v2 & -> & Hl1 & Hl2).
    rewrite zip_with_app by done. rewrite <- app_assoc, app_assoc, list_to_map_absent; [done| |];
      rewrite fmap_app, fst_zip_eq by done; by apply Forall_app.
Qed.

(** ** The chain of leaves under local changes

    [seg nid nid' ls ls']: replacing the leaves [ls] by [ls'] keeps the entry
    point and the exit of the chain, and uses identities of [ls] or identities
    allocated from [nid] up to [nid']. *)

Definition seg (nid nid' : nat) (ls ls' : list node) : Prop :=
  nid <= nid' /\ (forall p, hd_id ls' p = hd_id ls p) /\ (forall p, linked ls p -> linked ls' p) /\
  ids ls' ⊆+ ids ls ++ seq nid (nid' - nid).

Lemma hd_id_app A B p : hd_id (A ++ B) p = hd_id A (hd_id B p).
Proof. by destruct A. Qed.

Lemma linked_app A B p : linked (A ++ B) p <-> linked A (hd_id B p) /\ linked B p.
Proof.
  induction A as [|l A IH]; simpl; [tauto|]. rewrite hd_id_app, IH. tauto.
Qed.

Lemma ids_app A B : ids (A ++ B) = ids A ++ ids B.
Proof. apply omap_app. Qed.

Lemma seg_refl nid ls : seg nid nid ls ls.
Proof. repeat split; auto. apply submseteq_inserts_r. done. Qed.

Lemma seg_trans n1 n2 n3 l1 l2 l3 : seg n1 n2 l1 l2 -> seg n2 n3 l2 l3 -> seg n1 n3 l1 l3.
Proof.
  intros (Hn & Hh & Hl & Hi) (Hn' & Hh' & Hl' & Hi'). repeat split; [lia| |auto|].
  - intros p. by rewrite Hh', Hh.
  - replace (n3 - n1) with ((n2 - n1) + (n3 - n2)) by lia. rewrite seq_app.
    replace (n1 + (n2 - n1)) with n2 by lia. rewrite app_assoc.
    etransitivity; [exact Hi'|]. by apply submseteq_skips_r.
Qed.

Lemma seg_ctx n n' A B ls ls' : seg n n' ls ls' -> seg n n' (A ++ ls ++ B) (A ++ ls' ++ B).
Proof.
  intros (Hn & Hh & Hl & Hi). repeat split; [lia| | |].
  - intros p. by rewrite !hd_id_app, Hh.
  - intros p. rewrite !linked_app, !hd_id_app, Hh. intros (HA & Hls & HB). auto.
  - rewrite !ids_app, <- !app_assoc. apply submseteq_skips_l.
    rewrite (Permutation_app_comm (ids B)), app_assoc. by apply submseteq_skips_r.
Qed.

Lemma seg_fresh n n' ls ls' :
  seg n n' ls ls' -> NoDup (ids ls) -> Forall (fun i => i < n) (ids ls) ->
  NoDup (ids ls') /\ Forall (fun i => i < n') (ids ls').
Proof.
  intros (Hn & _ & _ & Hi) Hd Hf. rewrite list.Forall_forall in Hf. split.
  - destruct (submseteq_Permutation _ _ Hi) as [r Hr]. cut (NoDup (ids ls' ++ r)).
    { rewrite list.NoDup_app. tauto. }
    rewrite <- Hr. apply list.NoDup_app. split_and!; [done| |apply NoDup_seq].
    intros x Hx Hs. apply Hf in Hx. apply elem_of_seq in Hs. lia.
  - apply list.Forall_forall. intros x Hx. eapply elem_of_submseteq in Hx; [|exact Hi].
    apply elem_of_app in Hx as [Hx|Hx]; [apply Hf in Hx; lia|apply elem_of_seq in Hx; lia].
Qed.

(** ** Splitting a full child *)

Lemma ordered_list_split lo hi h k1 k k2 cs :
  ordered_list lo hi h (k1 ++ k :: k2) cs ->
  exists c1 c2, cs = c1 ++ c2 /\ length c1 = S (length k1) /\
    ordered_list lo (Some k) h k1 c1 /\ ordered_list (Some k) hi h k2 c2 /\ above lo k /\ under k hi.
Proof.
  revert lo cs. induction k1 as [|k' k1 IH]; intros lo cs Hl; inversion Hl; subst.
  - exists [c], cs0. repeat split; auto. by constructor.
  - match goal with H : ordered_list (Some k') _ _ _ _ |- _ =>
      destruct (IH _ _ H) as (c1 & c2 & -> & Hlen & Hl1 & Hl2 & Ha & Hu) end.
    exists (c :: c1), c2. split_and!; eauto using above_trans; [simpl; lia|by constructor].
Qed.

Lemma take_drop_at {A} (l : list A) m :
  m < length l -> exists l1 x l2, l = l1 ++ x :: l2 /\ length l1 = m.
Proof.
  intros Hm. destruct (lookup_lt_is_Some_2 l m Hm) as [x Hx].
  exists (take m l), x, (drop (S m) l). split; [by rewrite take_drop_middle|].
  rewrite length_take. lia.
Qed.

Lemma insert_after {A} (l1 l2 : list A) c c1 c2 :
  list_insert_at (S (length l1)) c2 (<[length l1 := c1]> (l1 ++ c :: l2)) = l1 ++ c1 :: c2 :: l2.
Proof.
  rewrite list_insert_middle.
  replace (S (length l1)) with (length (l1 ++ [c1])) by (rewrite length_app; simpl; lia).
  replace (l1 ++ c1 :: l2) with ((l1 ++ [c1]) ++ l2) by (by rewrite <- app_assoc).
  rewrite list_insert_at_app. by rewrite <- app_assoc.
Qed.

Lemma nth_res_middle {A} (l1 l2 : list A) x : nth_res (l1 ++ x :: l2) (length l1) = Ok x.
Proof. unfold nth_res. by rewrite lookup_middle. Qed.

Lemma nth_res_middle' {A} (l1 l2 : list A) x n : n = length l1 -> nth_res (l1 ++ x :: l2) n = Ok x.
Proof. intros ->. apply nth_res_middle. Qed.

Lemma list_insert_at_app' {A} (l1 l2 : list A) x n :
  n = length l1 -> list_insert_at n x (l1 ++ l2) = l1 ++ x :: l2.
Proof. intros ->. apply list_insert_at_app. Qed.

Lemma nth_res_0 {A} (l : list A) x : nth_res (x :: l) 0 = Ok x.
Proof. done. Qed.

Lemma drop_middle {A} (l1 l2 : list A) x n : n = length l1 -> drop (S n) (l1 ++ x :: l2) = l2.
Proof. intros ->. induction l1; simpl; auto. Qed.

(** The two halves of a split: their order, their entries, their leaves, and
    the origin of the new separator. *)
Record halves (lo hi : option str) (h nid nid' : nat) (c : node) (k : str) (c1 c2 : node) : Prop := {
  hv_left : ordered lo (Some k) h c1;
  hv_right : ordered (Some k) hi h c2;
  hv_above : above lo k;
  hv_under : under k hi;
  hv_entries : entries c1 ++ entries c2 = entries c;
  hv_seg : seg nid nid' (leaves c) (leaves c1 ++ leaves c2);
  hv_sep : k ∈ seps c ++ (entries c).*1;
  hv_seps : seps c1 ++ seps c2 ⊆ seps c;
  hv_filled ord : filled ord c = true -> filled ord c1 = true /\ filled ord c2 = true
}.

Lemma split_leaf_seg nid i ks1 ks2 vs1 vs2 nx :
  seg nid (S nid) [Leaf i (ks1 ++ ks2) (vs1 ++ vs2) nx]
    [Leaf i ks1 vs1 (Some nid); Leaf nid ks2 vs2 nx].
Proof.
  split_and!; [lia|done| |].
  - simpl. tauto.
  - replace (S nid - nid) with 1 by lia. done.
Qed.

Lemma split_child_spec ord nid lo hi h ks1 ks2 cs1 c cs2 :
  2 <= ord -> length ks1 = length cs1 -> ordered lo hi h c -> is_full ord c = true ->
  exists k c1 c2 nid',
    split_child ord nid (ks1 ++ ks2) (cs1 ++ c :: cs2) (length cs1) =
      Ok (ks1 ++ k :: ks2, cs1 ++ c1 :: c2 :: cs2, nid') /\
    halves lo hi h nid nid' c k c1 c2 /\
    length (node_keys c1) < 2 * ord - 1 /\ length (node_keys c2) + ord < length (node_keys c) + 1 /\
    ord - 1 <= length (node_keys c1) /\ ord - 1 <= length (node_keys c2).
Proof.
  intros Hord Hlen Ho Hfull. apply Nat.leb_le in Hfull. unfold split_child.
  rewrite nth_res_middle. cbn [mbind res_bind]. inversion Ho; subst; simpl in Hfull.
  - destruct (take_drop_at ks ord) as (k1 & k & k2 & -> & Hk1); [lia|].
    destruct (parallel_middle _ _ _ _ H) as (v1 & v & v2 & -> & Hv1 & Hv2).
    rewrite !(take_app_length' k1), !(drop_app_length' k1), !(take_app_length' v1),
      !(drop_app_length' v1), nth_res_0 by congruence. cbn [mbind res_bind].
    rewrite (list_insert_at_app' ks1), insert_after by done.
    eexists k, _, _, _. split; [reflexivity|]. rewrite length_app in *. simpl in *.
    split; [|split_and!; simpl; lia].
    apply Forall_app in H1 as [Ha1 Ha2]. apply Forall_app in H2 as [Hb1 Hb2].
    destruct (sorted_middle _ _ _ H0) as (Hlt & Hgt & _).
    split; simpl.
    + constructor; auto. by apply StronglySorted_app_1_l in H0.
    + constructor; [simpl; lia|by apply StronglySorted_app_1_r in H0| |done].
      constructor; [simpl; str_order|]. eapply Forall_weaken; [exact Hgt|].
      intros x Hx; simpl in *. str_order.
    + by apply Forall_inv in Ha2.
    + apply Forall_inv in Hb2. auto with btree.
    + rewrite !entries_leaf. by rewrite zip_with_app.
    + apply split_leaf_seg.
    + rewrite entries_leaf, fst_zip_eq by (rewrite !length_app; simpl; lia).
      apply elem_of_app. right. left.
    + done.
    + auto.
  - destruct (take_drop_at ks (ord - 1)) as (k1 & k & k2 & -> & Hk1); [lia|].
    destruct (ordered_list_split _ _ _ _ _ _ _ H) as (c1 & c2 & -> & Hc1 & Hl1 & Hl2 & Ha & Hu).
    rewrite (nth_res_middle' k1), (take_app_length' c1), (drop_app_length' c1),
      (take_app_length' k1), (drop_middle k1) by congruence. cbn [mbind res_bind].
    rewrite (list_insert_at_app' ks1), insert_after by done.
    rewrite length_app in Hfull. simpl in Hfull.
    eexists k, _, _, _. split; [reflexivity|]. simpl. rewrite length_app. simpl.
    split; [|split_and!; simpl; lia].
    split; simpl; auto; try (by constructor).
    + by rewrite !entries_internal, entries_list_app.
    + fold (leaves_list c1) (leaves_list c2) (leaves_list (c1 ++ c2)).
      rewrite leaves_list_app. apply seg_refl.
    + set_solver.
    + rewrite map_app, concat_app. set_solver.
    + intros o. by rewrite forallb_app, andb_true_iff.
Qed.

(** ** Insertion of a new key *)

(** What an insertion below [n] yields. *)
Record inserted (lo hi : option str) (h ord nid nid' : nat) (key value : str) (n n' : node) : Prop := {
  in_ordered : ordered lo hi h n';
  in_entries : exists e1 e2, entries n = e1 ++ e2 /\ entries n' = e1 ++ (key, value) :: e2;
  in_seg : seg nid nid' (leaves n) (leaves n');
  in_seps : seps n' ⊆ seps n ++ (entries n).*1;
  in_filled : filled ord n = true -> length (node_keys n) < 2 * ord - 1 ->
    filled ord n' = true /\ length (node_keys n) <= length (node_keys n') <= 2 * ord - 1
}.

Lemma inserted_leaf lo hi ord nid key value i ks vs nx :
  ordered lo hi 0 (Leaf i ks vs nx) -> above lo key -> below key hi -> key ∉ ks ->
  inserted lo hi 0 ord nid nid key value (Leaf i ks vs nx)
    (Leaf i (list_insert_at (bisect_left ks key) key ks)
       (list_insert_at (bisect_left ks key) value vs) nx).
Proof.
  intros Ho Ha Hb Hni. inversion Ho as [? ? ? ? ? ? Hlen Hs Hlo Hhi|]; subst.
  destruct (leaf_slot_cases ks key Hs) as [(k1 & k2 & -> & _)|(k1 & k2 & -> & _ & _ & Hi & Hk1 & Hk2)];
    [set_solver|].
  destruct (parallel_app _ _ _ Hlen) as (v1 & v2 & -> & Hv1 & Hv2).
  rewrite Hi, list_insert_at_app, (list_insert_at_app' v1) by done.
  apply Forall_app in Hlo as [Hlo1 Hlo2]. apply Forall_app in Hhi as [Hhi1 Hhi2].
  apply StronglySorted_app in Hs as (Hs0 & Hs1 & Hs2). split.
  - constructor.
    + rewrite !length_app in *. simpl. lia.
    + apply StronglySorted_app. split_and!; [|done|by constructor].
      rewrite list.Forall_forall in Hk1. set_solver.
    + by apply Forall_app; split; [|constructor].
    + by apply Forall_app; split; [|constructor].
  - exists (zip k1 v1), (zip k2 v2). rewrite !entries_leaf, zip_middle by done.
    by rewrite zip_with_app.
  - split_and!; [lia|done|done|]. simpl. rewrite Nat.sub_diag. done.
  - set_solver.
  - simpl. rewrite !length_app. simpl. split; [done|]. lia.
Qed.

Lemma seps_internal ks cs : seps (Internal ks cs) = ks ++ concat (map seps cs).
Proof. done. Qed.

(** Replacing the child [c] by [csm], separated by [ksm], in its parent. *)
Lemma inserted_up lo hi lo' hi' h ord nid nid' key value ks1 ks2 cs1 c cs2 ksm csm :
  (forall ksm csm, ordered_list lo' hi' h ksm csm ->
       ordered_list lo hi h (ks1 ++ ksm ++ ks2) (cs1 ++ csm ++ cs2)) ->
  ordered_list lo' hi' h ksm csm ->
  (exists e1 e2, entries c = e1 ++ e2 /\ entries_list csm = e1 ++ (key, value) :: e2) ->
  seg nid nid' (leaves c) (leaves_list csm) ->
  ksm ++ concat (map seps csm) ⊆ seps c ++ (entries c).*1 ->
  length ksm <= 1 ->
  (filled ord c = true -> in_range ord c = true ->
     forallb (fun c => in_range ord c && filled ord c) csm = true) ->
  inserted lo hi (S h) ord nid nid' key value (Internal (ks1 ++ ks2) (cs1 ++ c :: cs2))
    (Internal (ks1 ++ ksm ++ ks2) (cs1 ++ csm ++ cs2)).
Proof.
  intros Hctx Hm (e1 & e2 & He & He') Hseg Hseps Hk Hfill. split.
  - constructor. auto.
  - exists (entries_list cs1 ++ e1), (e2 ++ entries_list cs2).
    rewrite !entries_internal, !entries_list_app, entries_list_cons, He, He'.
    by rewrite <- !app_assoc.
  - rewrite !leaves_internal, !leaves_list_app, leaves_list_cons. by apply seg_ctx.
  - rewrite !seps_internal, !map_app, !concat_app, entries_internal, entries_list_app,
      entries_list_cons, !fmap_app. cbn [map concat].
    intros x Hx. elems x.
  - simpl. rewrite !forallb_app. simpl. rewrite !andb_true_iff, !length_app.
    intros (? & (? & ?) & ?) Hl. split_and!; auto; lia.
Qed.

Lemma not_full_length ord n : is_full ord n = false -> length (node_keys n) < 2 * ord - 1.
Proof. unfold is_full. intros H%Nat.leb_gt. lia. Qed.

Lemma in_range_iff ord n :
  in_range ord n = true <-> ord - 1 <= length (node_keys n) /\ length (node_keys n) < 2 * ord.
Proof. unfold in_range. rewrite andb_true_iff, Nat.leb_le, Nat.ltb_lt. lia. Qed.

Lemma leaves_list_one c : leaves_list [c] = leaves c.
Proof. apply app_nil_r. Qed.
Lemma entries_list_one c : entries_list [c] = entries c.
Proof. unfold entries_list. by rewrite leaves_list_one. Qed.

(** The entries of the halves lie on the two sides of the separator, so the
    key meets only the entries of the half it goes to. *)
Lemma halves_fresh lo hi h nid nid' c k c1 c2 key :
  halves lo hi h nid nid' c k c1 c2 -> key ∉ (entries c).*1 -> key ∉ seps c ->
  key <> k /\ key ∉ (entries c1).*1 /\ key ∉ (entries c2).*1 /\ key ∉ seps c1 /\ key ∉ seps c2.
Proof.
  intros [] Hke Hks. rewrite <- hv_entries0, fmap_app in Hke.
  assert (key <> k) by (intros ->; rewrite <- hv_entries0, fmap_app in hv_sep0; set_solver).
  clear hv_entries0 hv_seg0 hv_sep0. elems key.
Qed.

Lemma inserted_left lo hi h ord nid nid1 nid2 key value c k c1 c2 c1' :
  halves lo hi h nid nid1 c k c1 c2 ->
  inserted lo (Some k) h ord nid1 nid2 key value c1 c1' ->
  seg nid nid2 (leaves c) (leaves_list [c1'; c2]) /\
  (exists e1 e2, entries c = e1 ++ e2 /\ entries_list [c1'; c2] = e1 ++ (key, value) :: e2) /\
  [k] ++ concat (map seps [c1'; c2]) ⊆ seps c ++ (entries c).*1.
Proof.
  intros [] [_ (e1 & e2 & He & He') Hseg Hseps _]. split_and!.
  - eapply seg_trans; [exact hv_seg0|]. rewrite leaves_list_cons, leaves_list_one.
    apply (seg_ctx _ _ [] (leaves c2) _ _ Hseg).
  - exists e1, (e2 ++ entries c2). rewrite <- hv_entries0, He, entries_list_cons, entries_list_one, He'.
    by rewrite <- !app_assoc.
  - rewrite <- hv_entries0, fmap_app in *. simpl. rewrite app_nil_r. intros x Hx.
    apply elem_of_cons in Hx as [->|Hx]; [done|]. clear hv_sep0. elems x.
Qed.

Lemma inserted_right lo hi h ord nid nid1 nid2 key value c k c1 c2 c2' :
  halves lo hi h nid nid1 c k c1 c2 ->
  inserted (Some k) hi h ord nid1 nid2 key value c2 c2' ->
  seg nid nid2 (leaves c) (leaves_list [c1; c2']) /\
  (exists e1 e2, entries c = e1 ++ e2 /\ entries_list [c1; c2'] = e1 ++ (key, value) :: e2) /\
  [k] ++ concat (map seps [c1; c2']) ⊆ seps c ++ (entries c).*1.
Proof.
  intros [] [_ (e1 & e2 & He & He') Hseg Hseps _]. split_and!.
  - eapply seg_trans; [exact hv_seg0|]. rewrite leaves_list_cons, leaves_list_one.
    pose proof (seg_ctx _ _ (leaves c1) [] _ _ Hseg) as H. by rewrite !app_nil_r in H.
  - exists (entries c1 ++ e1), e2. rewrite <- hv_entries0, He, entries_list_cons, entries_list_one, He'.
    by rewrite <- !app_assoc.
  - rewrite <- hv_entries0, fmap_app in *. simpl. rewrite app_nil_r. intros x Hx.
    apply elem_of_cons in Hx as [->|Hx]; [done|]. clear hv_sep0. elems x.
Qed.

Lemma insert_non_full_spec ord key value :
  2 <= ord -> forall h fuel lo hi n nid,
  ordered lo hi h n -> above lo key -> below key hi -> h <= fuel ->
  key ∉ (entries n).*1 -> key ∉ seps n ->
  exists n' nid', insert_non_full fuel ord nid n key value = Ok (n', nid') /\
    inserted lo hi h ord nid nid' key value n n'.
Proof.
  intros Hord. induction h as [|h IH]; intros fuel lo hi n nid Ho Ha Hb Hf Hke Hks; inversion Ho; subst.
  - eexists _, _. split; [by destruct fuel|]. apply inserted_leaf; auto.
    rewrite entries_leaf, fst_zip_eq in Hke by done. done.
  - destruct fuel as [|fuel]; [lia|]. rename H2 into Hl. focus Hl key Ha Hb.
    rewrite entries_internal, entries_list_app, entries_list_cons, !fmap_app in Hke.
    rewrite seps_internal, map_app, concat_app in Hks. cbn [map concat] in Hks.
    assert (key ∉ (entries c).*1 /\ key ∉ seps c) as [Hkc Hsc] by set_solver.
    cbn [insert_non_full]. rewrite Hidx, nth_res_middle. cbn [mbind res_bind].
    destruct (is_full ord c) eqn:Hfull; cbn [mbind res_bind].
    + destruct (split_child_spec ord nid lo' hi' h ks1 ks2 cs1 c cs2) as
        (k & c1 & c2 & nid1 & -> & Hhv & Hc1 & Hc2 & Hm1 & Hm2); auto.
      cbn [mbind res_bind]. rewrite (nth_res_middle' ks1) by done. cbn [mbind res_bind].
      destruct (halves_fresh _ _ _ _ _ _ _ _ _ _ Hhv Hkc Hsc) as (Hne & Hk1e & Hk2e & Hs1 & Hs2).
      destruct (Hhv) as [Ho1 Ho2 Hka Hku _ _ _ _ Hfl].
      case_bool_decide as Hlt.
      * destruct (IH fuel (Some k) hi' c2 nid1) as (c2' & nid2 & Hi & Hin); auto; [simpl; str_order|lia|].
        replace (S (length cs1)) with (length (cs1 ++ [c1])) by (rewrite length_app; simpl; lia).
        replace (cs1 ++ c1 :: c2 :: cs2) with ((cs1 ++ [c1]) ++ c2 :: cs2) by (by rewrite <- app_assoc).
        rewrite nth_res_middle. cbn [mbind res_bind]. rewrite Hi. cbn [mbind res_bind].
        rewrite list_insert_middle, <- app_assoc. eexists _, _. split; [reflexivity|].
        destruct (inserted_right _ _ _ _ _ _ _ _ _ _ _ _ _ _ Hhv Hin) as (Hsg & He & Hsp).
        destruct Hin as [Hin1 _ _ _ Hin2].
        eapply (inserted_up lo hi lo' hi' h ord nid nid2 key value ks1 ks2 cs1 c cs2 [k] [c1; c2']);
          auto; [by repeat constructor|].
        intros Hfc%Hfl [Hr1 Hr2]%in_range_iff. simpl. rewrite !andb_true_iff, !in_range_iff.
        destruct Hin2 as [? ?]; [tauto|lia|]. split_and!; try tauto; lia.
      * destruct (IH fuel lo' (Some k) c1 nid1) as (c1' & nid2 & Hi & Hin); auto; [simpl; str_order|lia|].
        rewrite nth_res_middle. cbn [mbind res_bind]. rewrite Hi. cbn [mbind res_bind].
        rewrite list_insert_middle. eexists _, _. split; [reflexivity|].
        destruct (inserted_left _ _ _ _ _ _ _ _ _ _ _ _ _ _ Hhv Hin) as (Hsg & He & Hsp).
        destruct Hin as [Hin1 _ _ _ Hin2].
        eapply (inserted_up lo hi lo' hi' h ord nid nid2 key value ks1 ks2 cs1 c cs2 [k] [c1'; c2]);
          auto; [by repeat constructor|].
        intros Hfc%Hfl [Hr1 Hr2]%in_range_iff. simpl. rewrite !andb_true_iff, !in_range_iff.
        destruct Hin2 as [? ?]; [tauto|lia|]. split_and!; try tauto; lia.
    + destruct (IH fuel lo' hi' c nid) as (c' & nid2 & Hi & Hin); auto; [lia|].
      rewrite nth_res_middle. cbn [mbind res_bind]. rewrite Hi. cbn [mbind res_bind].
      rewrite list_insert_middle. eexists _, _. split; [reflexivity|].
      destruct Hin as [Hin1 Hin2 Hin3 Hin4 Hin5].
      eapply (inserted_up lo hi lo' hi' h ord nid nid2 key value ks1 ks2 cs1 c cs2 [] [c']); auto.
      * by constructor.
      * by rewrite entries_list_one.
      * by rewrite leaves_list_one.
      * simpl. by rewrite app_nil_r.
      * intros Hfc [Hr1 Hr2]%in_range_iff. simpl. rewrite !andb_true_iff, in_range_iff.
        apply not_full_length in Hfull. destruct Hin5 as [? ?]; auto. split_and!; auto; lia.
Qed.

(** ** [set] *)

Lemma ordered_depth :
  (forall lo hi h n, ordered lo hi h n -> depth n = h) /\
  (forall lo hi h ks cs, ordered_list lo hi h ks cs -> foldr Nat.max 0 (map depth cs) = h).
Proof. apply ordered_mutind; intros; simpl; auto; lia. Qed.

Lemma ordered_is_leaf lo hi h n : ordered lo hi h n -> is_leaf n = bool_decide (h = 0).
Proof. by inversion 1. Qed.

(** The root of [set], split when it is full. *)
Lemma set_root ord r fr h :
  2 <= ord -> ordered None None h r ->
  exists r' nid' h',
    (if is_full ord r then
       '(ks, cs, nid) ← split_child ord fr [] [r] 0; Ok (Internal ks cs, nid)
     else Ok (r, fr)) = Ok (r', nid') /\
    ordered None None h' r' /\ entries r' = entries r /\ seg fr nid' (leaves r) (leaves r') /\
    seps r' ⊆ seps r ++ (entries r).*1 /\
    (forall key, key ∉ (entries r).*1 -> key ∉ seps r -> key ∉ seps r') /\
    (filled ord r = true -> length (node_keys r) <= 2 * ord - 1 ->
       filled ord r' = true /\ length (node_keys r') < 2 * ord - 1) /\
    (root_ok r = true -> root_ok r' = true).
Proof.
  intros Hord Ho. destruct (is_full ord r) eqn:Hfull.
  - destruct (split_child_spec ord fr None None h [] [] [] r []) as
      (k & c1 & c2 & nid1 & Hsp & Hhv & Hc1 & Hc2 & Hm1 & Hm2); auto.
    simpl app in Hsp. simpl length in Hsp. rewrite Hsp. cbn [mbind res_bind].
    exists (Internal [k] [c1; c2]), nid1, (S h). destruct Hhv.
    assert (Hsub : seps (Internal [k] [c1; c2]) ⊆ seps r ++ (entries r).*1).
    { rewrite seps_internal. simpl. rewrite app_nil_r. intros x [->|Hx]%elem_of_cons; [done|]. elems x. }
    split_and!; auto.
    + by repeat constructor.
    + by rewrite entries_internal, entries_list_cons, entries_list_one.
    + by rewrite leaves_internal, leaves_list_cons, leaves_list_one.
    + intros key Hke Hks Hin. apply Hsub, elem_of_app in Hin. tauto.
    + intros Hfl%hv_filled0 Hl. simpl. rewrite !andb_true_iff, !in_range_iff. split_and!; try tauto; lia.
  - exists r, fr, h. split_and!; auto using seg_refl; [set_solver|].
    intros. split; [done|]. by apply not_full_length.
Qed.

Lemma root_ok_grows h n n' :
  ordered None None h n -> ordered None None h n' -> length (node_keys n) <= length (node_keys n') ->
  root_ok n = true -> root_ok n' = true.
Proof.
  intros Ho Ho' Hl. unfold root_ok. rewrite (ordered_is_leaf _ _ _ _ Ho), (ordered_is_leaf _ _ _ _ Ho').
  rewrite !orb_true_iff, !negb_true_iff, !bool_decide_eq_false. intros [?|Hk]; [by left|right].
  intros E. rewrite E in Hl. simpl in Hl. apply Hk, nil_length_inv. lia.
Qed.

(** The effect of [set] on a tree. *)
Record set_effect (t t' : tree) (key value : str) : Prop := {
  se_order : order t' = order t;
  se_ordered : exists h, ordered None None h (root t');
  se_map : tree_map t' = <[key := value]> (tree_map t);
  se_size : tsize t' = (tsize t + if decide (key ∈ (entries (root t)).*1) then 0 else 1)%Z;
  se_len : length (entries (root t')) =
    length (entries (root t)) + if decide (key ∈ (entries (root t)).*1) then 0 else 1;
  se_seg : seg (fresh t) (fresh t') (leaves (root t)) (leaves (root t'));
  se_keys : (entries (root t')).*1 ≡ₚ
    if decide (key ∈ (entries (root t)).*1) then (entries (root t)).*1
    else key :: (entries (root t)).*1;
  se_seps : seps (root t') ⊆ seps (root t) ++ (entries (root t)).*1;
  se_filled : filled (order t) (root t) = true ->
    length (node_keys (root t)) <= 2 * order t - 1 ->
    filled (order t) (root t') = true /\ length (node_keys (root t')) <= 2 * order t - 1 /\
    (root_ok (root t) = true -> root_ok (root t') = true)
}.

Lemma seg_same_ids nid A B l l' :
  leaf_id l' = leaf_id l -> next_of l' = next_of l -> seg nid nid (A ++ l :: B) (A ++ l' :: B).
Proof.
  intros Hi Hn. apply (seg_ctx _ _ A B [l] [l']). split_and!; [lia|done| |].
  - simpl. by rewrite Hn.
  - simpl. rewrite Hi, Nat.sub_diag. simpl. by rewrite app_nil_r.
Qed.

Lemma set_effect_ex t key value :
  2 <= order t -> (exists h, ordered None None h (root t)) -> set_safe t key ->
  exists t', set t key value = Ok t' /\ set_effect t t' key value.
Proof.
  intros Hord [h Ho] Hsafe. destruct (find_leaf_spec h None None (root t) key Ho I I)
    as (i & ks & vs & nx & L1 & L2 & Hf & HL & Hlen & Hs & H1 & H2 & Hup).
  pose proof (entries_at _ _ _ _ _ _ _ HL) as He. unfold set. rewrite Hf. simpl.
  destruct (leaf_slot_cases ks key Hs) as [(k1 & k2 & -> & ->)|(k1 & k2 & -> & -> & Hni & _ & Hk1 & Hk2)].
  - destruct (parallel_middle _ _ _ _ Hlen) as (v1 & v & v2 & -> & Hl1 & Hl2).
    rewrite zip_middle in He by done.
    destruct (Hup (length k1) value) as (Hu1 & Hu2 & Hu3 & Hu4 & Hu5).
    pose proof (entries_at _ _ _ _ _ _ _ Hu1) as He'.
    rewrite <- Hl1, list_insert_middle, zip_middle in He' by done. rewrite Hl1 in He'.
    rewrite <- app_assoc, <- app_comm_cons, app_assoc in He, He'.
    assert (key ∈ (entries (root t)).*1) as Hin by (rewrite He, fmap_app; set_solver).
    assert (key ∉ (entries_of L1 ++ zip k1 v1).*1) as Hb.
    { apply ordered_sorted in Ho. rewrite He, fmap_app in Ho.
      by apply (sorted_not_before _ _ _ Ho). }
    eexists. split; [reflexivity|]. split; simpl; rewrite ?decide_True by done; [done|by eexists| | | | | | |].
    + unfold tree_map. simpl. rewrite He, He'. by apply list_to_map_overwrite.
    + lia.
    + rewrite He, He', !length_app. simpl. lia.
    + rewrite HL, Hu1. by apply seg_same_ids.
    + by rewrite He, He', !fmap_app.
    + rewrite Hu3. set_solver.
    + rewrite Hu4, Hu5. intros. split_and!; auto. unfold root_ok.
      by rewrite Hu4, (ordered_is_leaf _ _ _ _ Ho), (ordered_is_leaf _ _ _ _ Hu2).
  - assert (key ∉ (entries (root t)).*1) as Hke.
    { rewrite He, !fmap_app, fst_zip_eq, !elem_of_app by done. rewrite !list.Forall_forall in H1, H2.
      intros [Hin|[Hin|Hin]]; [apply H1 in Hin|set_solver|apply H2 in Hin]; str_order. }
    destruct Hsafe as [?|Hks]; [done|].
    destruct (set_root (order t) (root t) (fresh t) h Hord Ho)
      as (r & nid & h' & -> & Hor & Her & Hsg & Hsp & Hfr & Hfl & Hrk).
    cbn [mbind res_bind].
    destruct (insert_non_full_spec (order t) key value Hord h' (depth r) None None r nid)
      as (r' & nid' & -> & Hin); [done|done|done| |by rewrite Her|by auto|].
    { apply ordered_depth in Hor. lia. }
    cbn [mbind res_bind]. eexists. split; [reflexivity|].
    destruct Hin as [Hin1 (e1 & e2 & Hin2 & Hin2') Hin3 Hin4 Hin5]. rewrite Her in *.
    split; simpl; rewrite ?decide_False by done; [done|by eexists| |done| | | | |].
    + unfold tree_map. simpl. rewrite Hin2, Hin2'. apply list_to_map_insert.
      rewrite Hin2, fmap_app in Hke. set_solver.
    + rewrite Hin2, Hin2', !length_app. simpl. lia.
    + by eapply seg_trans.
    + rewrite Hin2, Hin2', !fmap_app. simpl. by rewrite Permutation_middle.
    + intros x Hx. apply Hin4 in Hx. elems x.
    + intros Hf1 Hf2. destruct Hfl as [Hf3 Hf4]; auto. destruct Hin5 as (? & ? & ?); auto.
      split_and!; [done|lia|]. intros Hk%Hrk. eapply (root_ok_grows h' r); eauto.
Qed.

Lemma set_effect_wf t t' key value : wf t -> set_effect t t' key value -> wf t'.
Proof.
  intros [] []. destruct (seg_fresh _ _ _ _ se_seg0 wf_nodup wf_fresh) as [Hd Hf]. split; auto.
  - by rewrite se_order0.
  - by apply se_seg0.
  - rewrite se_size0, wf_size, se_len0. case_decide; lia.
Qed.

(** ** Range scan *)

Definition sound_leaf (l : node) : Prop :=
  match l with Leaf _ ks vs _ => length vs = length ks | Internal _ _ => False end.

Lemma ordered_leaves :
  (forall lo hi h n, ordered lo hi h n -> Forall sound_leaf (leaves n)) /\
  (forall lo hi h ks cs, ordered_list lo hi h ks cs -> Forall sound_leaf (leaves_list cs)).
Proof.
  apply ordered_mutind; intros; rewrite ?leaves_list_one, ?leaves_list_cons; auto.
  - by repeat constructor.
  - by apply Forall_app.
Qed.

Lemma scan_leaf_spec s e ks vs :
  length vs = length ks -> StronglySorted str_lt ks ->
  scan_leaf s e ks vs = (filter (within s e) (zip ks vs), bool_decide (Exists (str_lt e) ks)).
Proof.
  revert vs. induction ks as [|k ks IH]; intros [|v vs] Hl Hs; try done.
  apply StronglySorted_cons in Hs as [Hk Hs]. simpl in Hl |- *. rewrite IH by (auto; lia).
  assert (Hskip : e <s k -> filter (within s e) (zip ks vs) = []).
  { intros Hlt. apply filter_none, list.Forall_forall. intros [k' v'] Hin [_ Hr]. simpl in Hr.
    apply elem_of_zip_l in Hin. rewrite list.Forall_forall in Hk. apply Hk in Hin. str_order. }
  rewrite filter_cons. destruct (decide (e <s k)) as [Hlt|Hge].
  - rewrite !bool_decide_eq_true_2 by auto. rewrite decide_False by (intros [_ Hr]; simpl in Hr; str_order).
    by rewrite Hskip.
  - rewrite bool_decide_eq_false_2 by done. f_equal.
    + destruct (decide (s <=s k)) as [Hsk|Hsk].
      * rewrite bool_decide_eq_true_2, decide_True; [done|split; simpl; [done|str_order]|done].
      * rewrite bool_decide_eq_false_2, decide_False; [done|by intros [? _]|done].
    + apply bool_decide_ext. rewrite Exists_cons. tauto.
Qed.

Lemma deref_head L1 i ks vs nx L2 :
  NoDup (ids (L1 ++ Leaf i ks vs nx :: L2)) ->
  deref (L1 ++ Leaf i ks vs nx :: L2) i = Some (Leaf i ks vs nx).
Proof.
  intros Hd. unfold deref. rewrite (list_find_app_r _ L1).
  - simpl. by rewrite decide_True by done.
  - apply list_find_None, list.Forall_forall. intros l Hl Hi.
    rewrite ids_app in Hd. apply list.NoDup_app in Hd as (_ & Hd & _).
    apply (Hd i); [|left]. apply list_elem_of_omap. by exists l.
Qed.

Lemma scan_chain_spec s e fuel : forall L1 l L2,
  let ls := L1 ++ l :: L2 in
  Forall sound_leaf ls -> linked ls None -> NoDup (ids ls) ->
  StronglySorted str_lt (entries_of ls).*1 -> length L2 < fuel ->
  scan_chain fuel ls s e l = filter (within s e) (entries_of (l :: L2)).
Proof.
  induction fuel as [|fuel IH]; intros L1 l L2 ls Hg Hl Hd Hs Hf; [lia|].
  pose proof Hg as Hg'. apply Forall_app in Hg' as [_ Hg']. pose proof (Forall_inv Hg') as Hgl.
  destruct l as [i ks vs nx|]; [|done]. simpl in Hgl.
  change (entries_of (Leaf i ks vs nx :: L2)) with (zip ks vs ++ entries_of L2).
  pose proof Hs as Hs'. unfold ls in Hs'. rewrite entries_of_app, fmap_app in Hs'.
  change (entries_of (Leaf i ks vs nx :: L2)) with (zip ks vs ++ entries_of L2) in Hs'.
  apply StronglySorted_app in Hs' as (_ & _ & Hs'). rewrite fmap_app, fst_zip_eq in Hs' by done.
  apply StronglySorted_app in Hs' as (Hlt & Hks & _).
  cbn [scan_chain]. rewrite scan_leaf_spec by done. rewrite list.filter_app.
  pose proof Hl as Hl'. apply linked_app in Hl' as [_ [Hnx _]]. simpl in Hnx. rewrite Hnx.
  case_bool_decide as Hex.
  - rewrite (filter_none _ (entries_of L2)); [by rewrite app_nil_r|].
    apply list.Forall_forall. intros [k v] Hin [_ Hr]. simpl in Hr.
    apply list.Exists_exists in Hex as (k' & Hk' & Hek').
    assert (k' <s k) by (apply Hlt; [done|apply list_elem_of_fmap; by exists (k, v)]). str_order.
  - destruct L2 as [|[i2 ks2 vs2 nx2|] L2]; simpl.
    + by rewrite app_nil_r.
    + replace ls with ((L1 ++ [Leaf i ks vs nx]) ++ Leaf i2 ks2 vs2 nx2 :: L2) in *
        by (unfold ls; by rewrite <- app_assoc).
      rewrite deref_head by done. rewrite IH by (auto; simpl in Hf; lia). done.
    + apply Forall_inv_tail, Forall_inv in Hg'. done.
Qed.

Lemma scan_spec t s e : wf t -> scan t s e = Ok (map_range (tree_map t) s e).
Proof.
  intros []. destruct wf_ordered as [h Ho].
  destruct (find_leaf_spec h None None (root t) s Ho I I)
    as (i & ks & vs & nx & L1 & L2 & Hf & HL & _ & _ & H1 & _).
  pose proof (ordered_sorted _ _ _ _ Ho) as Hs. apply ordered_leaves in Ho.
  unfold scan, tree_map. rewrite Hf, map_range_list by done. cbn [mbind res_bind]. f_equal.
  unfold entries in *. rewrite HL in *. rewrite scan_chain_spec; auto.
  - rewrite (entries_of_app L1), list.filter_app, (filter_none _ (entries_of L1)); [done|].
    apply list.Forall_forall. intros [k v] Hin [Hr _]. simpl in Hr. rewrite list.Forall_forall in H1.
    assert (k <s s) by (apply H1, list_elem_of_fmap; by exists (k, v)). str_order.
  - rewrite length_app. simpl. lia.
Qed.

(** ** Windows of an ordered list of children *)

Lemma ordered_window lo hi h ks1 ksm ks2 cs1 csm cs2 :
  ordered_list lo hi h (ks1 ++ ksm ++ ks2) (cs1 ++ csm ++ cs2) ->
  length ks1 = length cs1 -> length csm = S (length ksm) ->
  exists lo' hi', ordered_list lo' hi' h ksm csm /\
    (forall ksm' csm', ordered_list lo' hi' h ksm' csm' ->
       ordered_list lo hi h (ks1 ++ ksm' ++ ks2) (cs1 ++ csm' ++ cs2)).
Proof.
  revert lo cs1. induction ks1 as [|k ks1 IH]; intros lo [|c cs1] Hl Hlen Hm; simpl in *; try lia.
  - destruct ks2 as [|k ks2].
    + rewrite app_nil_r in Hl. pose proof (ordered_list_length _ _ _ _ _ Hl) as Hll.
      rewrite length_app in Hll. assert (cs2 = []) as -> by (apply nil_length_inv; lia).
      rewrite app_nil_r in Hl. exists lo, hi. split; [done|]. intros. by rewrite !app_nil_r.
    + destruct (ordered_list_split _ _ _ _ _ _ _ Hl) as (c1 & c2 & E & Hc1 & H1 & H2 & Ha & Hu).
      apply app_inj_1 in E as [-> ->]; [|lia]. exists lo, (Some k). split; [done|].
      intros ksm' csm' H'. by apply ordered_list_join.
  - inversion Hl as [|? ? ? ? ? ? ? Ha Hu Hc Hl']; subst.
    destruct (IH _ _ Hl') as (lo' & hi' & H1 & H2); auto. exists lo', hi'. split; [done|].
    intros. by constructor; auto.
Qed.

(** ** Separators after a deletion *)

Definition nonempty (n : node) : Prop := Forall (fun l => node_keys l <> []) (leaves n).

(** The leftmost key bounds a subtree from below, when its leaves are non-empty. *)
Lemma ordered_tighten :
  (forall lo hi h n, ordered lo hi h n -> nonempty n ->
     find_min_key n ∈ (entries n).*1 /\ ordered (Some (find_min_key n)) hi h n) /\
  (forall lo hi h ks cs, ordered_list lo hi h ks cs -> Forall nonempty cs ->
     exists c cs', cs = c :: cs' /\ find_min_key c ∈ (entries c).*1 /\
       ordered_list (Some (find_min_key c)) hi h ks cs).
Proof.
  apply ordered_mutind.
  - intros * Hl Hs Ha Hb Hne. apply Forall_inv in Hne. destruct ks as [|k ks]; [done|].
    rewrite entries_leaf, fst_zip_eq by done. split; [left|]. constructor; auto.
    apply StronglySorted_cons in Hs as [Hk _]. constructor; [simpl; str_order|].
    eapply Forall_weaken; [exact Hk|]. intros x Hx; simpl in *. str_order.
  - intros * Hl IH Hne. destruct IH as (c & cs' & -> & Hin & Ho).
    { unfold nonempty in *. rewrite leaves_internal in Hne. unfold leaves_list in Hne.
      by rewrite Forall_concat, Forall_map in Hne. }
    simpl. split; [|by constructor]. rewrite entries_internal, entries_list_cons, fmap_app. set_solver.
  - intros * Hc IH Hne. apply Forall_inv in Hne. destruct (IH Hne) as [Hin Ho].
    exists c, []. split_and!; auto. by constructor.
  - intros * Ha Hu Hc IHc Hl IHl Hne. destruct IHc as [Hin Ho]; [by apply Forall_inv in Hne|].
    exists c, cs. split_and!; auto. constructor; auto. simpl.
    apply ordered_entries in Hc as [Hb _]. rewrite list.Forall_forall in Hb.
    apply Hb in Hin as [_ Hin]. simpl in Hin. str_order.
Qed.

Lemma find_min_key_bounds lo hi h n :
  ordered lo hi h n -> nonempty n ->
  above lo (find_min_key n) /\ below (find_min_key n) hi.
Proof.
  intros Ho Hne. destruct (proj1 ordered_tighten _ _ _ _ Ho Hne) as [Hin _].
  apply ordered_entries in Ho as [Hb _]. rewrite list.Forall_forall in Hb. by apply Hb.
Qed.

(** [node.keys[idx] = _find_min_key(right_child)] keeps the children ordered. *)
Lemma separator_update lo hi h ks1 k ks2 cs1 c r cs2 :
  ordered_list lo hi h (ks1 ++ k :: ks2) (cs1 ++ c :: r :: cs2) -> length ks1 = length cs1 ->
  nonempty r -> ordered_list lo hi h (ks1 ++ find_min_key r :: ks2) (cs1 ++ c :: r :: cs2).
Proof.
  intros Hl Hlen Hne.
  destruct (ordered_window lo hi h ks1 [k] ks2 cs1 [c; r] cs2) as (lo' & hi' & Hm & Hctx); auto.
  apply (Hctx [find_min_key r] [c; r]).
  inversion Hm as [|? ? ? ? ? ? ? Ha Hu Hc Hr]; subst. inversion Hr as [? ? ? ? Hor|]; subst.
  destruct (find_min_key_bounds _ _ _ _ Hor Hne) as [Hb1 Hb2].
  destruct (proj1 ordered_tighten _ _ _ _ Hor Hne) as [_ Hor']. simpl in Hb1.
  repeat constructor; eauto using above_trans, below_under_self, ordered_raise_hi.
Qed.

Lemma separator_update_at lo hi h ks cs idx r :
  ordered_list lo hi h ks cs -> idx < length ks -> cs !! S idx = Some r -> nonempty r ->
  ordered_list lo hi h (<[idx := find_min_key r]> ks) cs.
Proof.
  intros Hl Hidx Hr Hne. pose proof (ordered_list_length _ _ _ _ _ Hl) as Hlen.
  destruct (take_drop_at ks idx Hidx) as (k1 & k & k2 & -> & <-).
  destruct (take_drop_at cs (length k1)) as (c1 & c & c2 & -> & Hc1); [rewrite length_app in *; lia|].
  rewrite <- Hc1, lookup_app_r in Hr by lia. replace (S (length c1) - length c1) with 1 in Hr by lia.
  destruct c2 as [|r' c2]; [done|]. injection Hr as ->.
  rewrite list_insert_middle. by eapply separator_update.
Qed.

(** ** Rebalancing two neighbouring leaves *)

Lemma two_leaves_inv lo hi k i ks vs nx j ks' vs' nx' :
  ordered_list lo hi 0 [k] [Leaf i ks vs nx; Leaf j ks' vs' nx'] ->
  length vs = length ks /\ length vs' = length ks' /\ StronglySorted str_lt (ks ++ ks') /\
  Forall (above lo) (ks ++ ks') /\ Forall (fun x => below x hi) (ks ++ ks').
Proof.
  intros Hl. pose proof (proj2 ordered_entries _ _ _ _ _ Hl) as [Hb Hs].
  inversion Hl as [|? ? ? ? ? ? ? Ha Hu Hc Hr]; subst. inversion Hr as [? ? ? ? Hor|]; subst.
  inversion Hc as [? ? ? ? ? ? Hl1|]; subst. inversion Hor as [? ? ? ? ? ? Hl2|]; subst.
  rewrite entries_list_cons, entries_list_one, !entries_leaf, fmap_app, !fst_zip_eq in Hb, Hs by done.
  split_and!; auto; (eapply Forall_weaken; [exact Hb|]); by intros x [??].
Qed.

Lemma two_leaves_intro lo hi i A vs nx j b B vs' nx' :
  length vs = length A -> length vs' = S (length B) -> StronglySorted str_lt (A ++ b :: B) ->
  Forall (above lo) (A ++ b :: B) -> Forall (fun x => below x hi) (A ++ b :: B) ->
  ordered_list lo hi 0 [b] [Leaf i A vs nx; Leaf j (b :: B) vs' nx'].
Proof.
  intros Hl1 Hl2 Hs Ha Hb. apply Forall_app in Ha as [Ha1 Ha2]. apply Forall_app in Hb as [Hb1 Hb2].
  destruct (sorted_middle _ _ _ Hs) as (Hlt & Hgt & _).
  apply StronglySorted_app in Hs as (_ & Hs1 & Hs2).
  constructor; [by apply Forall_inv in Ha2| | |].
  - apply Forall_inv in Hb2. by apply below_under_self.
  - by constructor.
  - constructor. constructor; auto. constructor; [simpl; str_order|].
    eapply Forall_weaken; [exact Hgt|]. intros x Hx; simpl in *. str_order.
Qed.

(** A rearrangement of leaves that keeps their entries. *)
Definition shuffled (lo hi : option str) (csm : list node) (ksm' : list str) (csm' : list node) : Prop :=
  ordered_list lo hi 0 ksm' csm' /\ entries_list csm' = entries_list csm /\
  forall nid, seg nid nid (leaves_list csm) (leaves_list csm').

Lemma shuffled_borrow lo hi k i A vs nx j B vs' nx' A' vA b B' vB :
  ordered_list lo hi 0 [k] [Leaf i A vs nx; Leaf j B vs' nx'] ->
  A ++ B = A' ++ b :: B' -> vs ++ vs' = vA ++ vB -> length vA = length A' ->
  shuffled lo hi [Leaf i A vs nx; Leaf j B vs' nx']
    [b] [Leaf i A' vA nx; Leaf j (b :: B') vB nx'].
Proof.
  intros Hl E Ev HlA. destruct (two_leaves_inv _ _ _ _ _ _ _ _ _ _ _ Hl) as (H1 & H2 & Hs & Ha & Hb).
  assert (HlB : length vB = S (length B')).
  { apply (f_equal length) in E, Ev. rewrite !length_app in E, Ev. simpl in E. lia. }
  rewrite E in *. split_and!.
  - by apply two_leaves_intro.
  - rewrite !entries_list_cons, !entries_leaf. change (entries_list []) with (@nil (str * str)).
    rewrite !app_nil_r, <- !zip_with_app by done. by rewrite E, Ev.
  - intros nid. split_and!; [lia|done|done|]. simpl. by rewrite Nat.sub_diag.
Qed.

Lemma shuffled_merge lo hi k i A vs nx j B vs' nx' :
  ordered_list lo hi 0 [k] [Leaf i A vs nx; Leaf j B vs' nx'] ->
  shuffled lo hi [Leaf i A vs nx; Leaf j B vs' nx'] [] [Leaf i (A ++ B) (vs ++ vs') nx'].
Proof.
  intros Hl. destruct (two_leaves_inv _ _ _ _ _ _ _ _ _ _ _ Hl) as (H1 & H2 & Hs & Ha & Hb). split_and!.
  - repeat constructor; auto. rewrite !length_app. lia.
  - rewrite !entries_list_cons, !entries_leaf. change (entries_list []) with (@nil (str * str)).
    by rewrite !app_nil_r, zip_with_app.
  - intros nid. split_and!; [lia|done|simpl; tauto|]. simpl. rewrite Nat.sub_diag. simpl.
    apply submseteq_skip, submseteq_nil_l.
Qed.

(** The window lifted to the parent. *)
Lemma shuffled_up lo hi ks1 ksm ks2 cs1 csm cs2 ksm' csm' :
  ordered_list lo hi 0 (ks1 ++ ksm ++ ks2) (cs1 ++ csm ++ cs2) ->
  length ks1 = length cs1 -> length csm = S (length ksm) ->
  (forall lo' hi', ordered_list lo' hi' 0 ksm csm -> shuffled lo' hi' csm ksm' csm') ->
  shuffled lo hi (cs1 ++ csm ++ cs2) (ks1 ++ ksm' ++ ks2) (cs1 ++ csm' ++ cs2).
Proof.
  intros Hl Hlen Hm Hsh. destruct (ordered_window _ _ _ _ _ _ _ _ _ Hl Hlen Hm) as (lo' & hi' & Hw & Hctx).
  destruct (Hsh _ _ Hw) as (H1 & H2 & H3). split_and!; auto.
  - by rewrite !entries_list_app, H2.
  - intros nid. rewrite !leaves_list_app. by apply seg_ctx.
Qed.

(** The list surgery of the three rebalancing moves. *)

Lemma insert_next {A} (l1 l2 : list A) x y z :
  <[S (length l1) := z]> (l1 ++ x :: y :: l2) = l1 ++ x :: z :: l2.
Proof. induction l1; simpl; f_equal; auto. Qed.

Lemma lookup_next {A} (l1 l2 : list A) x : (l1 ++ x :: l2) !! S (length l1) = l2 !! 0.
Proof. induction l1; simpl; auto. Qed.

Lemma nth_res_last {A} (l : list A) x : nth_res (l ++ [x]) (length (l ++ [x]) - 1) = Ok x.
Proof. apply nth_res_middle'. rewrite length_app. simpl. lia. Qed.

Lemma take_init {A} (l : list A) x : take (length (l ++ [x]) - 1) (l ++ [x]) = l.
Proof. apply take_app_length'. rewrite length_app. simpl. lia. Qed.

Lemma assign_middle {A} (l1 l2 : list A) x y n : n = length l1 -> assign (l1 ++ x :: l2) n y = Ok (l1 ++ y :: l2).
Proof.
  intros ->. unfold assign. destruct (Nat.ltb_spec (length l1) (length (l1 ++ x :: l2))) as [|H].
  - by rewrite list_insert_middle.
  - rewrite length_app in H. simpl in H. lia.
Qed.

Lemma pop_at_middle {A} (l1 l2 : list A) x n : n = length l1 -> pop_at (l1 ++ x :: l2) n = Ok (l1 ++ l2).
Proof.
  intros ->. unfold pop_at. destruct (Nat.ltb_spec (length l1) (length (l1 ++ x :: l2))) as [|H].
  - by rewrite list_delete_middle.
  - rewrite length_app in H. simpl in H. lia.
Qed.

Lemma pop_at_next {A} (l1 l2 : list A) x y : pop_at (l1 ++ x :: y :: l2) (S (length l1)) = Ok (l1 ++ x :: l2).
Proof.
  replace (l1 ++ x :: y :: l2) with ((l1 ++ [x]) ++ y :: l2) by (by rewrite <- app_assoc).
  rewrite pop_at_middle by (rewrite length_app; simpl; lia). by rewrite <- app_assoc.
Qed.

Lemma borrow_left_eq ks1 k ks2 cs1 l c cs2 i ks vs nx li lks x lvs y lnx :
  length ks1 = length cs1 ->
  borrow_left (ks1 ++ k :: ks2) (cs1 ++ l :: c :: cs2) (S (length cs1)) (i, ks, vs, nx)
    (li, lks ++ [x], lvs ++ [y], lnx) =
  Ok (ks1 ++ x :: ks2, cs1 ++ Leaf li lks lvs lnx :: Leaf i (x :: ks) (y :: vs) nx :: cs2).
Proof.
  intros Hl. unfold borrow_left. rewrite !nth_res_last. cbn [mbind res_bind].
  rewrite !take_init, insert_next. replace (S (length cs1) - 1) with (length cs1) by lia.
  rewrite assign_middle by done. cbn [mbind res_bind]. by rewrite list_insert_middle.
Qed.

Lemma merge_right_eq ks1 k ks2 cs1 c r cs2 i ks vs nx ri rks rvs rnx :
  length ks1 = length cs1 ->
  merge_right (ks1 ++ k :: ks2) (cs1 ++ c :: r :: cs2) (length cs1) (i, ks, vs, nx) (ri, rks, rvs, rnx) =
  Ok (ks1 ++ ks2, cs1 ++ Leaf i (ks ++ rks) (vs ++ rvs) rnx :: cs2).
Proof.
  intros Hl. unfold merge_right. rewrite pop_at_middle by done. cbn [mbind res_bind].
  by rewrite list_insert_middle, pop_at_next.
Qed.

Lemma nonempty_leaf i ks vs nx : nonempty (Leaf i ks vs nx) <-> ks <> [].
Proof. unfold nonempty; simpl. rewrite Forall_singleton. done. Qed.

(** What rebalancing yields at the parent: a rearrangement whose right
    neighbour is non-empty, and which leaves no empty leaf behind. *)
Definition rebalanced (lo hi : option str) (idx : nat) (ks : list str) (cs1 : list node)
  (c : node) (cs2 : list node) (r : res (list str * list node)) : Prop :=
  exists ks' cs', r = Ok (ks', cs') /\ shuffled lo hi (cs1 ++ c :: cs2) ks' cs' /\
    (Forall nonempty (cs1 ++ cs2) ->
       (forall rc, cs' !! S idx = Some rc -> nonempty rc) /\ (ks <> [] -> Forall nonempty cs')).

Lemma rebalanced_borrow_left lo hi ks1 k ks2 cs1 cs2 i ks vs nx li lks lvs lnx :
  ordered_list lo hi 0 (ks1 ++ [k] ++ ks2) (cs1 ++ [Leaf li lks lvs lnx; Leaf i ks vs nx] ++ cs2) ->
  length ks1 = length cs1 -> 2 <= length lks ->
  rebalanced lo hi (S (length cs1)) (ks1 ++ k :: ks2) (cs1 ++ [Leaf li lks lvs lnx]) (Leaf i ks vs nx) cs2
    (borrow_left (ks1 ++ k :: ks2) (cs1 ++ Leaf li lks lvs lnx :: Leaf i ks vs nx :: cs2) (S (length cs1))
       (i, ks, vs, nx) (li, lks, lvs, lnx)).
Proof.
  intros Hl Hlen Hlk.
  destruct (ordered_window _ _ _ _ _ _ _ _ _ Hl Hlen) as (lo' & hi' & Hw & _); [done|].
  destruct (two_leaves_inv _ _ _ _ _ _ _ _ _ _ _ Hw) as (Hlv & _).
  destruct lks as [|x lks _] using rev_ind; [simpl in Hlk; lia|].
  destruct (parallel_middle _ _ _ _ Hlv) as (v1 & y & v2 & -> & Hv1 & Hv2).
  apply nil_length_inv in Hv2 as ->. rewrite borrow_left_eq by done.
  eexists _, _. split; [reflexivity|]. rewrite <- app_assoc. split.
  - apply (shuffled_up _ _ ks1 [k] ks2 cs1 [_; _] cs2 [x] [_; _]); auto. intros.
    eapply shuffled_borrow; [eassumption| | |done]; by rewrite <- !app_assoc.
  - rewrite !Forall_app, !list.Forall_cons. rewrite !nonempty_leaf. intros [[? ?] ?]. split.
    + intros rc. replace (cs1 ++ Leaf li lks v1 lnx :: Leaf i (x :: ks) (y :: vs) nx :: cs2)
        with ((cs1 ++ [Leaf li lks v1 lnx]) ++ Leaf i (x :: ks) (y :: vs) nx :: cs2)
        by (by rewrite <- app_assoc).
      replace (S (S (length cs1))) with (S (length (cs1 ++ [Leaf li lks v1 lnx])))
        by (rewrite length_app; simpl; lia).
      rewrite lookup_next. intros Hrc. by eapply Forall_lookup_1.
    + intros _. split_and!; auto. rewrite length_app in Hlk. simpl in Hlk. by destruct lks; simpl in *; [lia|].
Qed.

Lemma rebalanced_merge lo hi idx ks1 k ks2 cs1 cs2 a b i A vs nx j B vs' nx' c0 :
  ordered_list lo hi 0 (ks1 ++ [k] ++ ks2) (cs1 ++ [Leaf i A vs nx; Leaf j B vs' nx'] ++ cs2) ->
  length ks1 = length cs1 -> length cs1 <= idx ->
  a ++ c0 :: b = cs1 ++ Leaf i A vs nx :: Leaf j B vs' nx' :: cs2 ->
  (Forall nonempty (a ++ b) -> Forall nonempty (cs1 ++ cs2) /\ (A <> [] \/ B <> [])) ->
  rebalanced lo hi idx (ks1 ++ k :: ks2) a c0 b
    (Ok (ks1 ++ ks2, cs1 ++ Leaf i (A ++ B) (vs ++ vs') nx' :: cs2)).
Proof.
  intros Hl Hlen Hidx E Hsub. eexists _, _. split; [reflexivity|]. rewrite E. split.
  - apply (shuffled_up _ _ ks1 [k] ks2 cs1 [_; _] cs2 [] [_]); auto. intros. by eapply shuffled_merge.
  - intros [[H1 H2]%Forall_app Hne]%Hsub. split.
    + intros rc. replace (S idx) with (length cs1 + S (idx - length cs1)) by lia.
      rewrite lookup_app_r by lia. replace (length cs1 + S (idx - length cs1) - length cs1)
        with (S (idx - length cs1)) by lia. simpl. intros Hrc. by eapply Forall_lookup_1.
    + intros _. apply Forall_app. split; [done|]. constructor; [|done]. apply nonempty_leaf.
      destruct A; [|done]. by destruct Hne.
Qed.

Lemma ordered_list_leaf lo hi ks cs c : ordered_list lo hi 0 ks cs -> c ∈ cs ->
  exists i ks' vs nx, c = Leaf i ks' vs nx /\ length vs = length ks'.
Proof.
  intros Hl Hin. remember 0 as h eqn:E. revert Hin E.
  induction Hl as [? ? ? c' Hc|? ? ? ? ? c' ? _ _ Hc Hl IH]; intros Hin ->.
  - apply list_elem_of_singleton in Hin as ->. inversion Hc; subst. by eexists _, _, _, _.
  - apply elem_of_cons in Hin as [->|Hin]; [|by auto]. inversion Hc; subst. by eexists _, _, _, _.
Qed.

(** The right sibling lends its first key. *)
Lemma rebalanced_borrow_right lo hi ks1 k ks2 cs1 cs2 i ks vs nx ri a b rks va vb rvs rnx :
  ordered_list lo hi 0 (ks1 ++ [k] ++ ks2)
    (cs1 ++ [Leaf i ks vs nx; Leaf ri (a :: b :: rks) (va :: vb :: rvs) rnx] ++ cs2) ->
  length ks1 = length cs1 ->
  rebalanced lo hi (length cs1) (ks1 ++ k :: ks2) cs1 (Leaf i ks vs nx)
    (Leaf ri (a :: b :: rks) (va :: vb :: rvs) rnx :: cs2)
    (Ok (ks1 ++ b :: ks2, cs1 ++ Leaf i (ks ++ [a]) (vs ++ [va]) nx ::
                            Leaf ri (b :: rks) (vb :: rvs) rnx :: cs2)).
Proof.
  intros Hl Hlen. eexists _, _. split; [reflexivity|]. split.
  - apply (shuffled_up _ _ ks1 [k] ks2 cs1 [_; _] cs2 [b] [_; _]); auto. intros ? ? Hw.
    destruct (two_leaves_inv _ _ _ _ _ _ _ _ _ _ _ Hw) as (Hlv & _).
    eapply shuffled_borrow; [eassumption| | |]; rewrite <- ?app_assoc; auto.
    rewrite !length_app. simpl. lia.
  - rewrite !Forall_app, !list.Forall_cons, !nonempty_leaf. intros (? & ? & ?). split.
    + intros rc. rewrite lookup_next. simpl. intros [= <-]. by apply nonempty_leaf.
    + intros _. split_and!; auto. by destruct ks.
Qed.

(** [_rebalance_leaf] on a leaf whose siblings, if any, it may use. *)
Lemma rebalance_leaf_spec ord lo hi ks1 ks2 cs1 i ks vs nx cs2 :
  2 <= ord -> length ks1 = length cs1 ->
  ordered_list lo hi 0 (ks1 ++ ks2) (cs1 ++ Leaf i ks vs nx :: cs2) ->
  rebalanced lo hi (length cs1) (ks1 ++ ks2) cs1 (Leaf i ks vs nx) cs2
    (rebalance_leaf ord (ks1 ++ ks2) (cs1 ++ Leaf i ks vs nx :: cs2) (length cs1)).
Proof.
  intros Hord Hlen Hl. pose proof (ordered_list_length _ _ _ _ _ Hl) as Hll.
  rewrite !length_app in Hll. simpl in Hll.
  unfold rebalance_leaf. rewrite nth_res_middle, lookup_next. cbn [mbind res_bind as_leaf of_option].
  assert (Hleft : forall cs1' l, cs1 = cs1' ++ [l] -> exists ks1' k li lks lvs lnx,
    ks1 = ks1' ++ [k] /\ length ks1' = length cs1' /\ l = Leaf li lks lvs lnx).
  { intros cs1' l ->. rewrite length_app in Hlen. simpl in Hlen.
    destruct ks1 as [|k ks1' _] using rev_ind; [simpl in Hlen; lia|]. rewrite length_app in Hlen.
    simpl in Hlen. destruct (ordered_list_leaf _ _ _ _ l Hl) as (li & lks & lvs & lnx & -> & _); [set_solver|].
    eexists ks1', k, li, lks, lvs, lnx. repeat split; auto. lia. }
  destruct cs2 as [|r cs2].
  - assert (ks2 = []) as -> by (apply nil_length_inv; simpl in Hll; lia).
    destruct cs1 as [|l cs1 _] using rev_ind.
    + simpl. assert (ks1 = []) as -> by (by apply nil_length_inv). eexists _, _. split; [reflexivity|].
      split; [split_and!; auto using seg_refl|]. intros _. split; [done|]. by intros [].
    + destruct (Hleft cs1 l eq_refl) as (ks1' & k & li & lks & lvs & lnx & -> & Hlen' & ->).
      rewrite length_app. replace (length cs1 + length [Leaf li lks lvs lnx]) with (S (length cs1))
        by (simpl; lia).
      cbn [lookup list_lookup mbind option_bind]. rewrite <- !app_assoc in Hl |- *. simpl app in Hl |- *.
      rewrite lookup_middle. cbn [mbind option_bind as_leaf].
      destruct (Nat.leb_spec ord (length lks)).
      * apply rebalanced_borrow_left; auto. lia.
      * replace (S (length cs1) - 1) with (length cs1) by lia.
        rewrite pop_at_middle by done. cbn [mbind res_bind]. rewrite list_insert_middle, pop_at_next. cbn [mbind res_bind].
        eapply (rebalanced_merge _ _ _ ks1' k [] cs1 []); [exact Hl|done|lia|by rewrite <- app_assoc|].
        rewrite !app_nil_r, !Forall_app, list.Forall_singleton, nonempty_leaf. tauto.
  - destruct ks2 as [|k ks2]; [simpl in Hll; lia|].
    destruct (ordered_list_leaf _ _ _ _ r Hl) as (ri & rks & rvs & rnx & -> & Hrl); [set_solver|].
    assert (Hmerge : rebalanced lo hi (length cs1) (ks1 ++ k :: ks2) cs1 (Leaf i ks vs nx)
      (Leaf ri rks rvs rnx :: cs2) (merge_right (ks1 ++ k :: ks2)
         (cs1 ++ Leaf i ks vs nx :: Leaf ri rks rvs rnx :: cs2) (length cs1) (i, ks, vs, nx) (ri, rks, rvs, rnx))).
    { rewrite merge_right_eq by done. eapply (rebalanced_merge _ _ _ ks1 k ks2 cs1 cs2); [exact Hl|done|lia|reflexivity|].
      rewrite !Forall_app, list.Forall_cons, nonempty_leaf. tauto. }
    cbn [lookup list_lookup mbind option_bind as_leaf].
    destruct (Nat.leb_spec ord (length rks)) as [Hb|Hb].
    + destruct rks as [|a [|b rks]]; [simpl in Hb; lia|simpl in Hb; lia|].
      destruct rvs as [|va [|vb rvs]]; [simpl in Hrl; lia|simpl in Hrl; lia|].
      simpl drop. rewrite !nth_res_0. cbn [mbind res_bind].
      rewrite assign_middle by done. cbn [mbind res_bind]. rewrite list_insert_middle, insert_next.
      by apply rebalanced_borrow_right.
    + destruct cs1 as [|l cs1 _] using rev_ind; [done|].
      destruct (Hleft cs1 l eq_refl) as (ks1' & k' & li & lks & lvs & lnx & -> & Hlen' & ->).
      rewrite length_app in Hmerge |- *.
      replace (length cs1 + length [Leaf li lks lvs lnx]) with (S (length cs1)) in Hmerge |- * by (simpl; lia).
      cbn [lookup list_lookup mbind option_bind].
      rewrite <- !app_assoc in Hl, Hmerge |- *. simpl app in Hl, Hmerge |- *.
      rewrite lookup_middle. cbn [mbind option_bind as_leaf].
      destruct (Nat.leb_spec ord (length lks)); [|done].
      apply rebalanced_borrow_left; auto. lia.
Qed.

(** ** Deletion *)

(** What a deletion below [n] yields. *)
Record removed (lo hi : option str) (h : nat) (key : str) (n n' : node) (found : bool) : Prop := {
  rm_ordered : ordered lo hi h n';
  rm_entries : found = true ->
    exists e1 v e2, entries n = e1 ++ (key, v) :: e2 /\ entries n' = e1 ++ e2;
  rm_absent : found = false -> n' = n /\ key ∉ (entries n).*1;
  rm_seg nid : seg nid nid (leaves n) (leaves n')
}.

Lemma removed_leaf ord lo hi key i ks vs nx :
  2 <= ord -> ordered lo hi 0 (Leaf i ks vs nx) ->
  exists found n' uf, delete_recursive ord key (Leaf i ks vs nx) = Ok (found, n', uf) /\
    removed lo hi 0 key (Leaf i ks vs nx) n' found /\ (uf = true -> found = true) /\
    (nonempty (Leaf i ks vs nx) -> uf = false -> nonempty n').
Proof.
  intros Hord Ho. pose proof Ho as Ho'. inversion Ho' as [? ? ? ? ? ? Hlen Hs Ha Hb|]; subst. simpl.
  destruct (leaf_slot_cases ks key Hs) as [(k1 & k2 & -> & ->)|(k1 & k2 & -> & -> & Hni & _)].
  - destruct (parallel_middle _ _ _ _ Hlen) as (v1 & v & v2 & -> & Hv1 & Hv2).
    rewrite list_delete_middle, <- Hv1, list_delete_middle.
    apply Forall_app in Ha as [Ha1 Ha2%Forall_inv_tail]. apply Forall_app in Hb as [Hb1 Hb2%Forall_inv_tail].
    eexists _, _, _. split; [reflexivity|]. split_and!; [|done|].
    + split; [|intros _|done|].
      * apply sorted_middle in Hs as (_ & _ & Hs). constructor; auto; [rewrite !length_app; lia| |]; by apply Forall_app.
      * exists (zip k1 v1), v, (zip k2 v2). rewrite !entries_leaf, zip_middle, zip_with_app by done. done.
      * intros nid. by apply (seg_same_ids nid [] []).
    + intros _ Huf%Nat.ltb_ge. apply nonempty_leaf. intros E. rewrite E in Huf. simpl in Huf. lia.
  - eexists _, _, _. split; [reflexivity|]. split_and!; [|done|done].
    split; [done|done| |intros; apply seg_refl]. intros _. rewrite entries_leaf, fst_zip_eq by done. done.
Qed.

(** The refreshed separator of [_delete_recursive]. *)
Definition refresh (idx : nat) (ks : list str) (cs : list node) : list str :=
  if Nat.ltb idx (length ks) then
    match cs !! S idx with Some rc => <[idx := find_min_key rc]> ks | None => ks end
  else ks.

Lemma refresh_ordered lo hi h idx ks cs :
  ordered_list lo hi h ks cs -> (forall rc, cs !! S idx = Some rc -> nonempty rc) ->
  ordered_list lo hi h (refresh idx ks cs) cs.
Proof.
  intros Hl Hne. unfold refresh. destruct (Nat.ltb_spec idx (length ks)); [|done].
  destruct (cs !! S idx) eqn:E; [|done]. eapply separator_update_at; eauto.
Qed.

Lemma nonempty_internal ks cs : nonempty (Internal ks cs) <-> Forall nonempty cs.
Proof. unfold nonempty. rewrite leaves_internal. unfold leaves_list. by rewrite Forall_concat, Forall_map. Qed.

(** One level of [_delete_recursive], given what the recursive call did. *)
Lemma removed_up lo hi h ord key ks1 ks2 cs1 c cs2 c' uf :
  2 <= ord -> length ks1 = length cs1 ->
  ordered_list lo hi h (ks1 ++ ks2) (cs1 ++ c' :: cs2) ->
  (exists e1 v e2, entries c = e1 ++ (key, v) :: e2 /\ entries c' = e1 ++ e2) ->
  (forall nid, seg nid nid (leaves c) (leaves c')) ->
  (uf = true -> h = 0) -> Forall nonempty (cs1 ++ cs2) ->
  exists ks' cs',
    (if (uf : bool) then rebalance_leaf ord (ks1 ++ ks2) (cs1 ++ c' :: cs2) (length cs1)
     else Ok (ks1 ++ ks2, cs1 ++ c' :: cs2)) = Ok (ks', cs') /\
    removed lo hi (S h) key (Internal (ks1 ++ ks2) (cs1 ++ c :: cs2))
      (Internal (refresh (length cs1) ks' cs') cs') true /\
    (ks1 ++ ks2 <> [] -> (uf = false -> nonempty c') -> Forall nonempty cs').
Proof.
  intros Hord Hlen Hl (e1 & v & e2 & He & He') Hseg Huf Hne.
  assert (Hent : exists e1 v e2, entries_list (cs1 ++ c :: cs2) = e1 ++ (key, v) :: e2 /\
      entries_list (cs1 ++ c' :: cs2) = e1 ++ e2).
  { exists (entries_list cs1 ++ e1), v, (e2 ++ entries_list cs2).
    rewrite !entries_list_app, !entries_list_cons, He, He'. by rewrite <- !app_assoc. }
  assert (Hsg : forall nid, seg nid nid (leaves_list (cs1 ++ c :: cs2)) (leaves_list (cs1 ++ c' :: cs2))).
  { intros nid. rewrite !leaves_list_app, !leaves_list_cons. by apply seg_ctx. }
  destruct uf.
  - rewrite Huf in * by done.
    destruct (ordered_list_leaf _ _ _ _ c' Hl) as (i & ks & vs & nx & -> & _); [set_solver|].
    destruct (rebalance_leaf_spec ord lo hi ks1 ks2 cs1 i ks vs nx cs2 Hord Hlen Hl)
      as (ks' & cs' & -> & (Ho & Hes & Hss) & Hrb). destruct (Hrb Hne) as [Hr Hall].
    exists ks', cs'. split; [done|]. split; [|intros Hk _; auto]. split; [| |done|].
    + constructor. by apply refresh_ordered.
    + intros _. by rewrite !entries_internal, Hes.
    + intros nid. rewrite !leaves_internal. eapply seg_trans; [apply Hsg|apply Hss].
  - exists (ks1 ++ ks2), (cs1 ++ c' :: cs2). split; [done|]. apply Forall_app in Hne as [Hn1 Hn2].
    split; [split; [| |done|]|].
    + constructor. apply refresh_ordered; [done|]. intros rc. rewrite lookup_next. intros Hrc.
      by eapply Forall_lookup_1.
    + intros _. by rewrite !entries_internal.
    + intros nid. by rewrite !leaves_internal.
    + intros _ Hc. apply Forall_app. auto.
Qed.

Lemma delete_recursive_spec ord key :
  2 <= ord -> forall h lo hi n,
  ordered lo hi h n -> above lo key -> below key hi -> h = 0 \/ nonempty n ->
  exists found n' uf, delete_recursive ord key n = Ok (found, n', uf) /\
    removed lo hi h key n n' found /\ (uf = true -> found = true /\ h = 0) /\
    (paired n = true -> nonempty n -> uf = false -> nonempty n').
Proof.
  intros Hord. induction h as [|h IH]; intros lo hi n Ho Ha Hb Hne; inversion Ho; subst.
  - destruct (removed_leaf ord lo hi key i ks vs nx Hord Ho) as (found & n' & uf & ? & ? & ? & ?).
    exists found, n', uf. split_and!; auto.
  - destruct Hne as [?|Hne]; [done|]. rename H2 into Hl. focus Hl key Ha Hb.
    pose proof Hne as Hne'. apply nonempty_internal in Hne'.
    apply Forall_app in Hne' as [Hn1 [Hnc Hn2]%list.Forall_cons].
    destruct (IH lo' hi' c Hc Hlo' Hhi') as (found & c' & uf & Hd & Hrm & Huf & Hp); [auto|].
    cbn [delete_recursive]. rewrite Hidx, nth_with_app, Hd. cbn [mbind res_bind].
    rewrite list_insert_middle. destruct found; cbn [andb].
    + destruct Hrm as [Hr1 Hr2 _ Hr4].
      destruct (removed_up lo hi h ord key ks1 ks2 cs1 c cs2 c' uf) as (ks' & cs' & -> & Hrm & Hall); auto.
      { apply (Hctx [] [c']). by constructor. }
      { intros Hu. apply Huf in Hu. tauto. }
      { by apply Forall_app. }
      cbn [mbind res_bind]. eexists _, _, _. split; [reflexivity|]. split_and!; [exact Hrm|done|].
      simpl. rewrite andb_true_iff, negb_true_iff, bool_decide_eq_false, forallb_app.
      intros [Hk Hpc] _ _. apply nonempty_internal. apply Hall; [done|]. apply Hp; [|done].
      simpl in Hpc. rewrite !andb_true_iff in Hpc. tauto.
    + destruct Hrm as [_ _ Hr3 _]. destruct Hr3 as [-> Hke]; [done|].
      assert (uf = false) as -> by (destruct uf; [by destruct Huf|done]).
      cbn [mbind res_bind]. eexists _, _, _. split; [reflexivity|]. split_and!; [|done|done].
      split; [done|done| |intros; apply seg_refl]. intros _. split; [done|].
      rewrite entries_internal, entries_list_app, entries_list_cons, !fmap_app, !elem_of_app.
      rewrite !list.Forall_forall in He1, He2.
      intros [Hin|[Hin|Hin]]; [apply He1 in Hin|done|apply He2 in Hin]; str_order.
Qed.

(** ** Operations on whole trees *)

(** No leaf is empty, except that of the empty tree. *)
Definition deletable (t : tree) : Prop := is_leaf (root t) = true \/ no_empty_leaf t.

Lemma wf_seg t t' ord :
  wf t -> order t' = ord -> 2 <= ord -> (exists h, ordered None None h (root t')) ->
  seg (fresh t) (fresh t') (leaves (root t)) (leaves (root t')) ->
  tsize t' = Z.of_nat (length (entries (root t'))) -> wf t'.
Proof.
  intros [] Ho Hord Hor Hseg Hsz. destruct (seg_fresh _ _ _ _ Hseg wf_nodup wf_fresh) as [Hd Hf].
  split; auto; [by rewrite Ho|]. by apply Hseg.
Qed.

(** [delete_key] on the root, after the shrink of an empty internal root. *)
Lemma shrink_root h r :
  ordered None None h r ->
  exists r' h', (match r with Internal [] cs => nth_res cs 0 | _ => Ok r end) = Ok r' /\
    ordered None None h' r' /\ leaves r' = leaves r.
Proof.
  intros Ho. inversion Ho as [|? ? h' ks cs Hl]; subst; [by exists (Leaf i ks vs nx), 0|].
  destruct ks as [|k ks].
  - inversion Hl as [? ? ? c Hc|]; subst. exists c, h'. split_and!; auto.
    by rewrite leaves_internal, leaves_list_one.
  - by exists (Internal (k :: ks) cs), (S h').
Qed.

Lemma delete_effect t key :
  wf t -> deletable t ->
  exists found t', delete_key t key = Ok (found, t') /\ wf t' /\
    found = bool_decide (is_Some (tree_map t !! key)) /\
    tree_map t' = delete key (tree_map t) /\ order t' = order t /\
    (paired (root t) = true -> no_empty_leaf t -> is_leaf (root t) = false -> no_empty_leaf t').
Proof.
  intros Hwf Hdel. destruct (wf_ordered _ Hwf) as [h Ho]. pose proof (wf_order _ Hwf) as Hord.
  destruct (delete_recursive_spec (order t) key Hord h None None (root t) Ho I I)
    as (found & r & uf & Hd & [Hr1 Hr2 Hr3 Hr4] & Huf & Hp).
  { destruct Hdel as [Hl|Hn]; [|by right]. left.
    rewrite (ordered_is_leaf _ _ _ _ Ho) in Hl. by apply bool_decide_eq_true_1 in Hl. }
  pose proof (ordered_sorted _ _ _ _ Ho) as Hs.
  unfold delete_key. rewrite Hd. cbn [mbind res_bind]. destruct found.
  - destruct Hr2 as (e1 & v & e2 & He & He'); [done|].
    destruct (shrink_root h r Hr1) as (r' & h' & -> & Ho' & HL). cbn [mbind res_bind].
    rewrite He, fmap_app in Hs. pose proof (sorted_not_before _ _ _ Hs) as [Hn1 Hn2].
    assert (Hent : entries r' = e1 ++ e2) by (unfold entries; by rewrite HL).
    eexists true, _. split; [reflexivity|]. split_and!; simpl; auto.
    + eapply (wf_seg t); simpl; eauto; [by rewrite HL|].
      rewrite (wf_size _ Hwf), Hent, He, !length_app. simpl. lia.
    + symmetry. apply bool_decide_eq_true_2. exists v. unfold tree_map. rewrite He.
      apply list_to_map_middle. by apply (sorted_middle _ _ _ Hs).
    + unfold tree_map. simpl. rewrite Hent, He. by apply list_to_map_remove.
    + intros Hpr Hne Hlf. unfold no_empty_leaf. simpl. rewrite HL. apply Hp; auto.
      destruct uf; [|done]. destruct Huf as [_ ->]; [done|]. by rewrite (ordered_is_leaf _ _ _ _ Ho) in Hlf.
  - destruct Hr3 as [-> Hke]; [done|]. assert (Hnone : tree_map t !! key = None)
      by (by apply not_elem_of_list_to_map_1).
    eexists false, _. split; [reflexivity|]. split_and!; simpl; auto.
    + by destruct Hwf.
    + rewrite Hnone. symmetry. by apply bool_decide_eq_false_2.
    + unfold tree_map at 1. simpl. fold (tree_map t). symmetry. by apply delete_id.
Qed.

(** ** Runs of operations *)

Definition set_all (kvs : list (str * str)) (t : tree) : res tree :=
  foldl (fun t '(k, v) => t ← t; set t k v) (Ok t) kvs.
Definition delete_all (ks : list str) (t : tree) : res tree :=
  foldl (fun t k => t ← t; '(_, t) ← delete_key t k; Ok t) (Ok t) ks.

(** The invariant of trees built by insertions: separators are stored keys
    and every node below the root is between half full and full. *)
Record grown (t : tree) : Prop := {
  gr_wf : wf t;
  gr_seps : seps (root t) ⊆ (entries (root t)).*1;
  gr_filled : filled (order t) (root t) = true;
  gr_root : length (node_keys (root t)) <= 2 * order t - 1;
  gr_root_ok : root_ok (root t) = true
}.

Lemma grown_empty ord : 2 <= ord -> grown (empty_tree ord).
Proof.
  intros Hord. split; simpl; auto; [|lia]. split; simpl; auto.
  - exists 0. constructor; auto. constructor.
  - apply NoDup_singleton.
Qed.

Lemma grown_set t key value :
  grown t -> exists t', set t key value = Ok t' /\ grown t' /\ order t' = order t /\
    tree_map t' = <[key := value]> (tree_map t).
Proof.
  intros [Hwf Hsp Hf Hr Hk]. pose proof Hwf as [Hord Ho _ _ _ _].
  destruct (set_effect_ex t key value Hord Ho) as (t' & Hset & Heff).
  { unfold set_safe. destruct (decide (key ∈ (entries (root t)).*1)); [by left|right]. set_solver. }
  exists t'. split; [done|]. pose proof (set_effect_wf _ _ _ _ Hwf Heff) as Hwf'. destruct Heff.
  split; [|done]. destruct se_filled0 as (Hf1 & Hf2 & Hf3); auto. split; rewrite ?se_order0; auto.
  intros x Hx%se_seps0. rewrite se_keys0. case_decide; set_solver.
Qed.

Lemma set_all_cons kv kvs t : set_all (kv :: kvs) t = (t ← set t kv.1 kv.2; set_all kvs t).
Proof.
  destruct kv as [k v]. unfold set_all. simpl. destruct (set t k v) as [t'|e]; [done|]. simpl.
  induction kvs as [|[k' v'] kvs IH]; [done|]. simpl. apply IH.
Qed.

Lemma grown_set_all kvs t :
  grown t -> exists t', set_all kvs t = Ok t' /\ grown t' /\ order t' = order t /\
    tree_map t' = foldl (fun m kv => <[kv.1 := kv.2]> m) (tree_map t) kvs.
Proof.
  revert t. induction kvs as [|[k v] kvs IH]; intros t Hg; [by exists t|].
  destruct (grown_set t k v Hg) as (t1 & Hs & Hg1 & Ho1 & Hm1).
  destruct (IH t1 Hg1) as (t2 & Hs2 & Hg2 & Ho2 & Hm2). exists t2.
  rewrite set_all_cons. cbn [fst snd]. rewrite Hs. cbn [mbind res_bind]. rewrite Hs2.
  simpl. rewrite <- Hm1. split_and!; auto; congruence.
Qed.

(** *** Height *)

(** A subtree whose nodes are at least half full stores at least
    [(t-1) * t^h] keys, and its root may be the exception. *)
Lemma filled_count ord :
  2 <= ord ->
  (forall lo hi h n, ordered lo hi h n -> filled ord n = true -> in_range ord n = true ->
     (ord - 1) * ord ^ h <= length (entries n)) /\
  (forall lo hi h ks cs, ordered_list lo hi h ks cs ->
     forallb (fun c => in_range ord c && filled ord c) cs = true ->
     length cs * ((ord - 1) * ord ^ h) <= length (entries_list cs)).
Proof.
  intros Hord. apply ordered_mutind.
  - intros * Hl Hs Ha Hb _ [Hr _]%in_range_iff. rewrite entries_leaf, length_zip_with.
    simpl in *. lia.
  - intros * Hl IH Hf [Hr _]%in_range_iff. rewrite entries_internal. simpl in *.
    specialize (IH Hf). rewrite (ordered_list_length _ _ _ _ _ Hl) in IH.
    etransitivity; [|exact IH]. rewrite Nat.mul_assoc, (Nat.mul_comm _ ord), <- Nat.mul_assoc.
    apply Nat.mul_le_mono_r. lia.
  - intros * Hc IH Hf. rewrite entries_list_one. simpl in Hf. rewrite !andb_true_iff in Hf.
    simpl. rewrite Nat.add_0_r. apply IH; tauto.
  - intros * Ha Hu Hc IHc Hl IHl Hf. simpl in Hf. rewrite !andb_true_iff in Hf.
    rewrite entries_list_cons, length_app. simpl.
    specialize (IHc ltac:(tauto) ltac:(tauto)). specialize (IHl ltac:(tauto)). lia.
Qed.

Lemma height_ordered :
  (forall lo hi h n, ordered lo hi h n -> height n = S h) /\
  (forall lo hi h ks cs, ordered_list lo hi h ks cs ->
     (match cs with c :: _ => height c | [] => 0 end) = S h).
Proof. apply ordered_mutind; intros; simpl; auto. Qed.

Lemma height_bound t :
  grown t -> is_leaf (root t) = false ->
  2 * ((order t - 1) * order t ^ (height (root t) - 2)) <= length (entries (root t)).
Proof.
  intros [Hwf _ Hf _ Hk] Hl. pose proof (wf_order _ Hwf) as Hord. destruct (wf_ordered _ Hwf) as [h Ho].
  rewrite (proj1 height_ordered _ _ _ _ Ho). inversion Ho as [? ? ? ? ? ? ? ? ? ? Hlo Hhi Hh Hroot|
    ? ? h' ks cs Hlist Hlo Hhi Hh Hroot]; subst; [by rewrite <- Hroot in Hl|].
  rewrite <- Hroot in Hf. simpl in Hf. rewrite entries_internal.
  etransitivity; [|apply (proj2 (filled_count _ Hord) _ _ _ _ _ Hlist Hf)].
  replace (S (S h') - 2) with h' by lia. apply Nat.mul_le_mono_r.
  rewrite (ordered_list_length _ _ _ _ _ Hlist). unfold root_ok in Hk. rewrite Hl, <- Hroot in Hk.
  simpl in Hk. rewrite negb_true_iff, bool_decide_eq_false in Hk. destruct ks; [done|]. simpl. lia.
Qed.

(** ** A concrete tree *)

Definition nums (a n : nat) : list str := map (fun i => [N.of_nat i]) (seq a n).
Definition numbered (a n : nat) : list (str * str) := map (fun k => (k, k)) (nums a n).
Definition built (ord : nat) (kvs : list (str * str)) : tree :=
  match set_all kvs (empty_tree ord) with Ok t => t | Raise _ => empty_tree ord end.

Lemma built_grown ord kvs : 2 <= ord -> grown (built ord kvs).
Proof.
  intros Hord. destruct (grown_set_all kvs (empty_tree ord) (grown_empty ord Hord)) as (t & Hs & Hg & _).
  unfold built. by rewrite Hs.
Qed.

Lemma built_wf ord kvs : 2 <= ord -> wf (built ord kvs).
Proof. intros Hord. apply (gr_wf _ (built_grown ord kvs Hord)). Qed.

(** ** Theorems *)

(** C1: on every well-formed tree, [get] returns what the finite map of the
    tree's entries holds at the key, and raises nothing. *)
Theorem bptree_get t key : wf t -> get t key = Ok (tree_map t !! key).
Proof. intros Hwf. destruct (wf_ordered _ Hwf) as [h Ho]. by apply (get_spec h). Qed.

Lemma bptree_get_witness :
  wf (built 3 (numbered 10 20)) /\
  get (built 3 (numbered 10 20)) [15%N] = Ok (tree_map (built 3 (numbered 10 20)) !! [15%N]).
Proof.
  assert (Hwf : wf (built 3 (numbered 10 20))) by (apply built_wf; lia).
  split; [exact Hwf|]. apply (bptree_get _ _ Hwf).
Defined.

(** C2: [set] of a key that is stored, or that equals no separator, succeeds,
    keeps the tree well-formed and is the insertion into the finite map. *)
Theorem bptree_set t key value :
  wf t -> set_safe t key ->
  exists t', set t key value = Ok t' /\ wf t' /\ tree_map t' = <[key := value]> (tree_map t).
Proof.
  intros Hwf Hsafe. destruct (set_effect_ex t key value (wf_order _ Hwf) (wf_ordered _ Hwf) Hsafe)
    as (t' & Hset & Heff). exists t'. split_and!; [done|by eapply set_effect_wf|apply Heff].
Qed.

Lemma bptree_set_witness :
  let t := built 3 (numbered 10 20) in
  exists t', set t [5%N] [7%N] = Ok t' /\ wf t' /\ tree_map t' = <[[5%N] := [7%N]]> (tree_map t).
Proof.
  apply bptree_set; [apply built_wf; lia|]. right. apply (bool_decide_eq_true_1 _). vm_compute. reflexivity.
Defined.

(** C3: [scan] returns exactly the bindings with [start <= key <= end], in
    ascending key order, by following the chain of leaves. *)
Theorem bptree_scan t start_key end_key :
  wf t -> scan t start_key end_key = Ok (map_range (tree_map t) start_key end_key).
Proof. apply scan_spec. Qed.

Lemma bptree_scan_witness :
  let t := built 3 (numbered 10 20) in
  scan t [12%N] [18%N] = Ok (map_range (tree_map t) [12%N] [18%N]).
Proof. apply (bptree_scan (built 3 (numbered 10 20)) [12%N] [18%N]). apply built_wf; lia. Defined.

(** C4: on a well-formed tree without empty leaves, [delete] tells whether the
    key was stored, removes exactly it, and keeps the tree well-formed; if
    every internal node has two children, no leaf becomes empty. *)
Theorem bptree_delete t key :
  wf t -> deletable t ->
  exists found t', delete_key t key = Ok (found, t') /\ wf t' /\
    found = bool_decide (is_Some (tree_map t !! key)) /\
    tree_map t' = delete key (tree_map t) /\ order t' = order t /\
    (paired (root t) = true -> no_empty_leaf t -> is_leaf (root t) = false -> no_empty_leaf t').
Proof. apply delete_effect. Qed.

Lemma bptree_delete_witness :
  let t := built 3 (numbered 10 20) in
  exists found t', delete_key t [13%N] = Ok (found, t') /\ wf t' /\
    found = bool_decide (is_Some (tree_map t !! [13%N])) /\
    tree_map t' = delete [13%N] (tree_map t) /\ order t' = order t /\
    (paired (root t) = true -> no_empty_leaf t -> is_leaf (root t) = false -> no_empty_leaf t').
Proof.
  apply bptree_delete; [apply built_wf; lia|]. right.
  apply (bool_decide_eq_true_1 _). vm_compute. reflexivity.
Defined.

(** C5: any sequence of [set]s on an empty tree of order [t >= 2] succeeds and
    yields a well-formed tree that holds the last value of each key; every node
    below the root has between [t-1] and [2t-1] keys, the root at most [2t-1],
    and a tree of height [h >= 2] stores at least [2 (t-1) t^(h-2)] keys. *)
Theorem bptree_insertions ord kvs :
  2 <= ord ->
  exists t, set_all kvs (empty_tree ord) = Ok t /\ wf t /\
    tree_map t = foldl (fun m kv => <[kv.1 := kv.2]> m) ∅ kvs /\
    filled ord (root t) = true /\ length (node_keys (root t)) <= 2 * ord - 1 /\
    (2 <= height (root t) -> 2 * ((ord - 1) * ord ^ (height (root t) - 2)) <= length (entries (root t))).
Proof.
  intros Hord. destruct (grown_set_all kvs (empty_tree ord) (grown_empty ord Hord)) as (t & Hs & Hg & Ho & Hm).
  exists t. pose proof Hg as [Hwf _ Hf Hr _]. rewrite Ho in Hf, Hr. split_and!; auto.
  intros Hh. pose proof (height_bound t Hg) as Hb. rewrite Ho in Hb. apply Hb.
  destruct (root t); [simpl in Hh; lia|done].
Qed.

Lemma bptree_insertions_witness :
  exists t, set_all (numbered 10 20) (empty_tree 3) = Ok t /\ wf t /\
    tree_map t = foldl (fun m kv => <[kv.1 := kv.2]> m) ∅ (numbered 10 20) /\
    filled 3 (root t) = true /\ length (node_keys (root t)) <= 2 * 3 - 1 /\
    (2 <= height (root t) -> 2 * ((3 - 1) * 3 ^ (height (root t) - 2)) <= length (entries (root t))).
Proof. apply (bptree_insertions 3 (numbered 10 20)). lia. Defined.

(** Deletions can make stored keys unreachable.  After inserting 10..29
    into a tree of order 3, deleting 19..29 and then 12, eight keys are stored
    but a lookup of 10 finds nothing and a full scan returns nothing. *)
Theorem bptree_delete_hides_keys :
  exists t, delete_all (nums 19 11 ++ nums 12 1) (built 3 (numbered 10 20)) = Ok t /\
    tsize t = 8%Z /\ ([10%N], [10%N]) ∈ entries (root t) /\ get t [10%N] = Ok None /\ items t = Ok [].
Proof. eexists. split; [vm_compute; reflexivity|]. vm_compute. repeat split; try reflexivity. left. Qed.

(** a key equal to a separator left by a deletion is lost when it is set
    again and the child it belongs to is split: after inserting 10..45 into a
    tree of order 3 and deleting 37, [set] of 37 succeeds, [get] of 37 is None. *)
Theorem bptree_stale_separator :
  exists t t', delete_all [[37%N]] (built 3 (numbered 10 36)) = Ok t /\
    set t [37%N] [1%N] = Ok t' /\ get t' [37%N] = Ok None /\ tsize t' = 36%Z.
Proof. eexists _, _. split; [vm_compute; reflexivity|]. split; [vm_compute; reflexivity|]. by vm_compute. Qed.
