(* ===== verification/Transactions.v ===== *)
(** * In-memory transactions: [litedb-python/transactions.py]

    [LockManager], [MVCCStore] and [Transaction].  A [world] is the shared store
    together with the transaction objects that clients hold; every method is one
    atomic step, since each runs under the store's lock.  [acquire] models one
    attempt: the code repeats it until its deadline, so a refused attempt is a
    [TimeoutError]. *)

From S2P Require Import Prelude.

Definition TOMBSTONE : str := py "__DELETED__".

(** ** Lock manager *)

Inductive mode := OPTIMISTIC | PESSIMISTIC.
Inductive lock_type := SHARED | EXCLUSIVE.

#[export] Instance mode_eq_dec : EqDecision mode.
Proof. solve_decision. Defined.

Record lock_entry := mkEntry { shared : gset nat; exclusive : option nat }.

(** [_entry]: the entry of a key, created when absent. *)
Definition entry (table : gmap str lock_entry) (key : str) : lock_entry :=
  default (mkEntry ∅ None) (table !! key).

Definition free_for (e : lock_entry) (txid : nat) : bool :=
  match exclusive e with None => true | Some t => Nat.eqb t txid end.

(** One attempt of [acquire]: whether it is granted, and the table. *)
Definition acquire (table : gmap str lock_entry) (key : str) (lt : lock_type) (txid : nat)
  : bool * gmap str lock_entry :=
  let e := entry table key in
  match lt with
  | SHARED =>
      if free_for e txid then (true, <[key := mkEntry ({[txid]} ∪ shared e) (exclusive e)]> table)
      else (false, <[key := e]> table)
  | EXCLUSIVE =>
      if free_for e txid && bool_decide (shared e ∖ {[txid]} = ∅)
      then (true, <[key := mkEntry (shared e ∖ {[txid]}) (Some txid)]> table)
      else (false, <[key := e]> table)
  end.

Definition release_entry (txid : nat) (e : lock_entry) : lock_entry :=
  mkEntry (shared e ∖ {[txid]})
    (match exclusive e with Some t => if Nat.eqb t txid then None else Some t | None => None end).

Definition release_all (table : gmap str lock_entry) (txid : nat) : gmap str lock_entry :=
  release_entry txid <$> table.

(** [held_by]: the locks a transaction holds. *)
Definition held_by (table : gmap str lock_entry) (txid : nat) : list (str * lock_type) :=
  map_to_list table ≫= fun '(key, e) =>
    (if decide (txid ∈ shared e) then [(key, SHARED)] else []) ++
    (if decide (exclusive e = Some txid) then [(key, EXCLUSIVE)] else []).

(** ** Versions and the store *)

Record version := mkVersion { vtxid : nat; vvalue : str; vcommitted : bool }.

#[export] Instance version_eq_dec : EqDecision version.
Proof. solve_decision. Defined.

Record store := mkStore {
  versions : gmap str (list version);
  next_txid : nat;
  committed_txids : gset nat;
  active_txids : gset nat;
  locks : gmap str lock_entry
}.

Definition new_store : store := mkStore ∅ 1 {[0]} ∅ ∅.

Record transaction := mkTx {
  txid : nat;
  snapshot_txid : nat;
  tmode : mode;
  write_set : gset str;
  tcommitted : bool;
  taborted : bool;
  reads : nat;
  writes : nat
}.

Definition set_max (s : gset nat) : nat := set_fold Nat.max 0 s.
Definition set_min (s : gset nat) : nat := foldr Nat.min (set_max s) (elements s).

Definition begin_transaction (s : store) (m : mode) : transaction * store :=
  let id := next_txid s in
  (mkTx id (set_max (committed_txids s)) m ∅ false false 0 0,
   mkStore (versions s) (S id) (committed_txids s) ({[id]} ∪ active_txids s) (locks s)).

(** Another transaction's committed write after our snapshot. *)
Definition conflicting (tx : transaction) (v : version) : bool :=
  negb (Nat.eqb (vtxid v) (txid tx)) && vcommitted v && Nat.ltb (snapshot_txid tx) (vtxid v).

Definition has_conflict (s : store) (tx : transaction) : bool :=
  existsb (fun key => existsb (conflicting tx) (default [] (versions s !! key))) (elements (write_set tx)).

Definition drop_own (id : nat) (vs : list version) : list version :=
  filter (fun v => vtxid v <> id) vs.

(** [_abort]: the versions of [tx] are removed, and a key without versions. *)
Definition store_abort (s : store) (tx : transaction) : store :=
  mkStore
    (map_imap (fun key vs =>
       if decide (key ∈ write_set tx) then
         match drop_own (txid tx) vs with [] => None | vs' => Some vs' end
       else Some vs) (versions s))
    (next_txid s) (committed_txids s) (active_txids s ∖ {[txid tx]}) (locks s).

Definition mark (id : nat) (v : version) : version :=
  if Nat.eqb (vtxid v) id then mkVersion (vtxid v) (vvalue v) true else v.

(** [_commit]: false after an abort on conflict. *)
Definition store_commit (s : store) (tx : transaction) : bool * store :=
  if has_conflict s tx then (false, store_abort s tx)
  else (true,
    mkStore
      (map_imap (fun key vs => Some (if decide (key ∈ write_set tx) then map (mark (txid tx)) vs else vs))
         (versions s))
      (next_txid s) ({[txid tx]} ∪ committed_txids s) (active_txids s ∖ {[txid tx]}) (locks s)).

Definition visible (snap own : nat) (v : version) : bool :=
  (vcommitted v && Nat.leb (vtxid v) snap) || Nat.eqb (vtxid v) own.

(** The loop of [_read]: the visible version with the largest txid, the first of equals. *)
Definition best_version (snap own : nat) (vs : list version) : option version :=
  foldl (fun best v =>
    if visible snap own v then
      match best with
      | Some b => if Nat.ltb (vtxid b) (vtxid v) then Some v else best
      | None => Some v
      end
    else best) None vs.

Definition store_read (s : store) (key : str) (snap own : nat) : option str :=
  match versions s !! key with
  | None => None
  | Some vs =>
      match best_version snap own vs with
      | None => None
      | Some v => if vvalue v =s? TOMBSTONE then None else Some (vvalue v)
      end
  end.

(** [list.sort(key=txid)], a stable sort. *)
Fixpoint insert_version (v : version) (vs : list version) : list version :=
  match vs with
  | [] => [v]
  | w :: vs => if Nat.leb (vtxid v) (vtxid w) then v :: w :: vs else w :: insert_version v vs
  end.
Definition sort_versions (vs : list version) : list version := foldr insert_version [] vs.

Definition store_write (s : store) (key value : str) (id : nat) : store :=
  let vs := drop_own id (default [] (versions s !! key)) in
  mkStore (<[key := sort_versions (vs ++ [mkVersion id value false])]> (versions s))
    (next_txid s) (committed_txids s) (active_txids s) (locks s).

(** [vacuum] on the versions of one key. *)
Definition max_committed (vs : list version) : nat :=
  foldr (fun v m => if vcommitted v then Nat.max (vtxid v) m else m) 0 vs.
Definition vacuum_versions (min_active : nat) (vs : list version) : option (list version) :=
  if Nat.leb (length (filter (fun v => vcommitted v = true) vs)) 1 then Some vs
  else
    match filter (fun v => ~ (vcommitted v = true /\ vtxid v < max_committed vs /\ vtxid v < min_active)) vs with
    | [] => None
    | vs' => Some vs'
    end.

Definition min_active (s : store) : nat :=
  if decide (active_txids s = ∅) then S (set_max (committed_txids s)) else set_min (active_txids s).

(** [version_count]. *)
Definition version_count (s : store) : gmap str nat := length <$> versions s.

(** All versions together. *)
Definition count_versions (m : gmap str (list version)) : nat :=
  map_fold (fun _ vs n => length vs + n) 0 m.

(** [vacuum]: the number of deleted versions and the store. *)
Definition vacuum (s : store) : nat * store :=
  let m := map_imap (fun _ vs => vacuum_versions (min_active s) vs) (versions s) in
  (count_versions (versions s) - count_versions m,
   mkStore m (next_txid s) (committed_txids s) (active_txids s) (locks s)).

(** ** Transaction objects *)

Definition check_active (tx : transaction) : res unit :=
  if tcommitted tx then Raise RuntimeError else if taborted tx then Raise RuntimeError else Ok tt.

Definition with_locks (s : store) (l : gmap str lock_entry) : store :=
  mkStore (versions s) (next_txid s) (committed_txids s) (active_txids s) l.

(** A lock attempt by a transaction; the table keeps the created entry. *)
Definition take_lock (s : store) (tx : transaction) (key : str) (lt : lock_type) : res unit * store :=
  let '(granted, l) := acquire (locks s) key lt (txid tx) in
  (if (granted : bool) then Ok tt else Raise TimeoutError, with_locks s l).

Definition lock_if (b : bool) (s : store) (tx : transaction) (key : str) (lt : lock_type)
  : res unit * store :=
  if b then take_lock s tx key lt else (Ok tt, s).

Definition pessimistic (tx : transaction) : bool := bool_decide (tmode tx = PESSIMISTIC).

Definition count_read (tx : transaction) : transaction :=
  mkTx (txid tx) (snapshot_txid tx) (tmode tx) (write_set tx) (tcommitted tx) (taborted tx)
    (S (reads tx)) (writes tx).
Definition count_write (tx : transaction) : transaction :=
  mkTx (txid tx) (snapshot_txid tx) (tmode tx) (write_set tx) (tcommitted tx) (taborted tx)
    (reads tx) (S (writes tx)).
Definition add_write (tx : transaction) (key : str) : transaction :=
  mkTx (txid tx) (snapshot_txid tx) (tmode tx) ({[key]} ∪ write_set tx) (tcommitted tx) (taborted tx)
    (reads tx) (writes tx).
Definition finish (tx : transaction) (c a : bool) : transaction :=
  mkTx (txid tx) (snapshot_txid tx) (tmode tx) (write_set tx) c a (reads tx) (writes tx).

(** The outcome of a method: its result or exception, the transaction, the store. *)
Definition outcome (A : Type) : Type := res A * transaction * store.

Definition locked_read (lock : bool) (lt : lock_type) (s : store) (tx : transaction) (key : str)
  : outcome (option str) :=
  match check_active tx with
  | Raise e => (Raise e, tx, s)
  | Ok _ =>
      let tx := count_read tx in
      let '(r, s) := lock_if lock s tx key lt in
      match r with
      | Raise e => (Raise e, tx, s)
      | Ok _ => (Ok (store_read s key (snapshot_txid tx) (txid tx)), tx, s)
      end
  end.

Definition tx_get (s : store) (tx : transaction) (key : str) : outcome (option str) :=
  locked_read (pessimistic tx) SHARED s tx key.

Definition tx_get_for_update (s : store) (tx : transaction) (key : str) : outcome (option str) :=
  locked_read true EXCLUSIVE s tx key.

Definition tx_set (s : store) (tx : transaction) (key value : str) : outcome unit :=
  match check_active tx with
  | Raise e => (Raise e, tx, s)
  | Ok _ =>
      let tx := count_write tx in
      let '(r, s) := lock_if (pessimistic tx) s tx key EXCLUSIVE in
      match r with
      | Raise e => (Raise e, tx, s)
      | Ok _ => (Ok tt, add_write tx key, store_write s key value (txid tx))
      end
  end.

(** [delete]: the same with the tombstone as the value. *)
Definition tx_delete (s : store) (tx : transaction) (key : str) : outcome unit :=
  match check_active tx with
  | Raise e => (Raise e, tx, s)
  | Ok _ =>
      let tx := count_write tx in
      let '(r, s) := lock_if (pessimistic tx) s tx key EXCLUSIVE in
      match r with
      | Raise e => (Raise e, tx, s)
      | Ok _ => (Ok tt, add_write tx key, store_write s key TOMBSTONE (txid tx))
      end
  end.

Definition unlock_if (b : bool) (s : store) (tx : transaction) : store :=
  if b then with_locks s (release_all (locks s) (txid tx)) else s.

Definition tx_commit (s : store) (tx : transaction) : outcome bool :=
  match check_active tx with
  | Raise e => (Raise e, tx, s)
  | Ok _ =>
      let '(ok, s) := store_commit s tx in
      (Ok ok, finish tx ok (negb ok), unlock_if (pessimistic tx) s tx)
  end.

Definition tx_abort (s : store) (tx : transaction) : transaction * store :=
  if tcommitted tx || taborted tx then (tx, s)
  else (finish tx (tcommitted tx) true, unlock_if (pessimistic tx) (store_abort s tx) tx).

(** [with tx:] at the end of the block; [failed] tells that it raised. *)
Definition tx_exit (failed : bool) (s : store) (tx : transaction) : transaction * store :=
  if failed then tx_abort s tx
  else if tcommitted tx || taborted tx then (tx, s)
  else let '(_, tx, s) := tx_commit s tx in (tx, s).

(** ** The world: the store and the clients' transaction objects *)

Record world := mkWorld { wstore : store; wtxs : gmap nat transaction }.

Definition new_world : world := mkWorld new_store ∅.

Inductive op :=
| OBegin (m : mode)
| OGet (id : nat) (key : str)
| OGetForUpdate (id : nat) (key : str)
| OSet (id : nat) (key value : str)
| ODelete (id : nat) (key : str)
| OCommit (id : nat)
| OAbort (id : nat)
| OVacuum.

Inductive reply :=
| RTx (id : nat) | RVal (r : res (option str)) | RUnit (r : res unit) | RBool (r : res bool)
| RDone | RCount (n : nat) | RNone.

Definition with_tx (w : world) (id : nat) (f : transaction -> reply * transaction * store) : reply * world :=
  match wtxs w !! id with
  | None => (RNone, w)
  | Some tx => let '(r, tx', s') := f tx in (r, mkWorld s' (<[id := tx']> (wtxs w)))
  end.

Definition step (w : world) (o : op) : reply * world :=
  let s := wstore w in
  match o with
  | OBegin m =>
      let '(tx, s') := begin_transaction s m in
      (RTx (txid tx), mkWorld s' (<[txid tx := tx]> (wtxs w)))
  | OGet id key => with_tx w id (fun tx => let '(r, tx, s) := tx_get s tx key in (RVal r, tx, s))
  | OGetForUpdate id key =>
      with_tx w id (fun tx => let '(r, tx, s) := tx_get_for_update s tx key in (RVal r, tx, s))
  | OSet id key v => with_tx w id (fun tx => let '(r, tx, s) := tx_set s tx key v in (RUnit r, tx, s))
  | ODelete id key => with_tx w id (fun tx => let '(r, tx, s) := tx_delete s tx key in (RUnit r, tx, s))
  | OCommit id => with_tx w id (fun tx => let '(r, tx, s) := tx_commit s tx in (RBool r, tx, s))
  | OAbort id => with_tx w id (fun tx => let '(tx, s) := tx_abort s tx in (RDone, tx, s))
  | OVacuum => let '(n, s') := vacuum s in (RCount n, mkWorld s' (wtxs w))
  end.

Fixpoint run (w : world) (os : list op) : list reply * world :=
  match os with
  | [] => ([], w)
  | o :: os => let '(r, w) := step w o in let '(rs, w) := run w os in (r :: rs, w)
  end.

(** ** Locks exclude each other *)

Definition lock_ok (table : gmap str lock_entry) : Prop :=
  forall key e, table !! key = Some e -> forall t, exclusive e = Some t -> shared e ⊆ {[t]}.

Lemma entry_ok table key : lock_ok table -> forall t, exclusive (entry table key) = Some t ->
  shared (entry table key) ⊆ {[t]}.
Proof. intros Hok. unfold entry. destruct (table !! key) eqn:E; simpl; [eauto|done]. Qed.

Lemma insert_lock_ok table key e :
  lock_ok table -> (forall t, exclusive e = Some t -> shared e ⊆ {[t]}) -> lock_ok (<[key := e]> table).
Proof. intros Hok He k e'. rewrite lookup_insert_Some. naive_solver. Qed.

Lemma acquire_lock_ok table key lt id : lock_ok table -> lock_ok (acquire table key lt id).2.
Proof.
  intros Hok. pose proof (entry_ok table key Hok) as He. unfold acquire, free_for in *.
  destruct lt; [destruct (exclusive (entry table key)) as [t|] eqn:E|
    destruct (_ && bool_decide _) eqn:E]; simpl.
  - destruct (Nat.eqb_spec t id) as [->|]; simpl; apply insert_lock_ok; simpl; auto; rewrite ?E; [|eauto].
    intros t [= <-]. specialize (He id eq_refl). set_solver.
  - apply insert_lock_ok; simpl; auto. done.
  - apply insert_lock_ok; simpl; auto. intros t [= <-].
    apply andb_true_iff in E as [_ E%bool_decide_eq_true_1]. rewrite E. set_solver.
  - apply insert_lock_ok; auto.
Qed.

Lemma release_all_lock_ok table id : lock_ok table -> lock_ok (release_all table id).
Proof.
  intros Hok key e. unfold release_all. rewrite lookup_fmap_Some. intros (e' & <- & He') t. simpl.
  destruct (exclusive e') as [t'|] eqn:E; [|done]. destruct (Nat.eqb t' id); [done|]. intros [= ->].
  specialize (Hok _ _ He' t E). set_solver.
Qed.

Lemma lock_if_lock_ok b s tx key lt : lock_ok (locks s) -> lock_ok (locks (lock_if b s tx key lt).2).
Proof.
  intros Hok. unfold lock_if, take_lock. destruct b; [|done].
  pose proof (acquire_lock_ok (locks s) key lt (txid tx) Hok) as H. by destruct (acquire _ _ _ _).
Qed.

Lemma unlock_if_lock_ok b s tx : lock_ok (locks s) -> lock_ok (locks (unlock_if b s tx)).
Proof. intros Hok. unfold unlock_if. destruct b; [by apply release_all_lock_ok|done]. Qed.

Lemma store_commit_locks s tx : locks (store_commit s tx).2 = locks s.
Proof. unfold store_commit. by destruct (has_conflict s tx). Qed.

(** ** The versions of the other transactions

    An operation of transaction [u] keeps, for every key, the list of the
    versions that other transactions wrote. *)

Definition vs_of (s : store) (key : str) : list version := default [] (versions s !! key).

Abbreviation by_txid := (StronglySorted (fun a b => vtxid a < vtxid b)).

Lemma insert_version_elem v w vs : w ∈ insert_version v vs <-> w = v \/ w ∈ vs.
Proof.
  induction vs as [|x vs IH]; simpl; [set_solver|]. destruct (Nat.leb _ _); set_solver.
Qed.

Lemma insert_version_sorted v vs :
  by_txid vs -> Forall (fun w => vtxid w <> vtxid v) vs ->
  by_txid (insert_version v vs).
Proof.
  induction 1 as [|w vs Hs IH Hw]; simpl; intros Hne; [repeat constructor|].
  apply Forall_cons_1 in Hne as [Hwv Hne]. destruct (Nat.leb_spec (vtxid v) (vtxid w)).
  - constructor; [by constructor|]. constructor; [lia|]. eapply Forall_weaken; [exact Hw|]. simpl. lia.
  - constructor; [auto|]. apply list.Forall_forall. intros x [->|Hx]%insert_version_elem; [lia|].
    rewrite list.Forall_forall in Hw. by apply Hw.
Qed.

Lemma insert_version_drop u v vs :
  vtxid v = u -> Forall (fun w => vtxid w <> u) vs -> drop_own u (insert_version v vs) = vs.
Proof.
  intros <-. unfold drop_own.
  assert (Hid : forall l, Forall (fun w => vtxid w <> vtxid v) l -> filter (fun w => vtxid w <> vtxid v) l = l).
  { induction 1; [done|]. rewrite filter_cons_True by done. by f_equal. }
  induction vs as [|w vs IH]; simpl; intros Hne; [by rewrite filter_cons_False by auto|].
  pose proof Hne as [Hw Hvs]%Forall_cons_1. destruct (Nat.leb _ _).
  - rewrite filter_cons_False by auto. by apply Hid.
  - rewrite filter_cons_True by done. f_equal. auto.
Qed.

Lemma sort_versions_sorted vs :
  by_txid vs -> sort_versions vs = vs.
Proof.
  induction 1 as [|v vs Hs IH Hv]; [done|]. simpl. rewrite IH. destruct vs as [|w vs]; [done|].
  apply Forall_inv in Hv. simpl. destruct (Nat.leb_spec (vtxid v) (vtxid w)); [done|lia].
Qed.

(** Appending one version to a sorted list and sorting inserts it. *)
Lemma sort_versions_snoc vs v :
  by_txid vs -> Forall (fun w => vtxid w <> vtxid v) vs ->
  sort_versions (vs ++ [v]) = insert_version v vs.
Proof.
  induction 1 as [|w vs Hs IH Hw]; intros Hne; [done|]. apply Forall_cons_1 in Hne as [Hwv Hne].
  simpl. rewrite IH by done. destruct (Nat.leb_spec (vtxid v) (vtxid w)) as [Hl|Hl].
  - destruct vs as [|x vs]; simpl.
    + destruct (Nat.leb_spec (vtxid w) (vtxid v)); [lia|done].
    + apply Forall_inv in Hw as Hx. destruct (Nat.leb_spec (vtxid v) (vtxid x)); [|lia]. simpl.
      destruct (Nat.leb_spec (vtxid w) (vtxid v)); [lia|]. by destruct (Nat.leb_spec (vtxid w) (vtxid x)); [|lia].
  - destruct vs as [|x vs]; simpl; [by destruct (Nat.leb_spec (vtxid w) (vtxid v)); [|lia]|].
    apply Forall_inv in Hw as Hx. destruct (Nat.leb_spec (vtxid v) (vtxid x)); simpl.
    + by destruct (Nat.leb_spec (vtxid w) (vtxid v)); [|lia].
    + by destruct (Nat.leb_spec (vtxid w) (vtxid x)); [|lia].
Qed.

Lemma drop_own_sorted u vs :
  by_txid vs ->
  by_txid (drop_own u vs) /\
  Forall (fun w => vtxid w <> u) (drop_own u vs).
Proof.
  intros Hs. unfold drop_own. split.
  - induction Hs as [|v vs Hs IH Hv]; [constructor|]. rewrite filter_cons. case_decide; [|done].
    constructor; [done|]. apply list.Forall_forall. intros w [_ Hw]%list_elem_of_filter.
    rewrite list.Forall_forall in Hv. by apply Hv.
  - apply list.Forall_forall. by intros w [Hw _]%list_elem_of_filter.
Qed.

Lemma vs_of_write s key value u key' :
  by_txid (vs_of s key) ->
  vs_of (store_write s key value u) key' =
    if decide (key' = key) then insert_version (mkVersion u value false) (drop_own u (vs_of s key))
    else vs_of s key'.
Proof.
  intros Hs. unfold vs_of at 1, store_write. simpl. destruct (drop_own_sorted u _ Hs) as [H1 H2].
  case_decide as E; [subst; rewrite lookup_insert_eq|by rewrite lookup_insert_ne].
  simpl. by apply sort_versions_snoc.
Qed.

Lemma vs_of_abort s tx key :
  vs_of (store_abort s tx) key =
    if decide (key ∈ write_set tx) then drop_own (txid tx) (vs_of s key) else vs_of s key.
Proof.
  unfold vs_of, store_abort. simpl. rewrite map_lookup_imap.
  destruct (versions s !! key) as [vs|]; simpl; case_decide; auto. by destruct (drop_own _ _).
Qed.

Lemma vs_of_commit s tx key :
  has_conflict s tx = false ->
  vs_of (store_commit s tx).2 key =
    if decide (key ∈ write_set tx) then map (mark (txid tx)) (vs_of s key) else vs_of s key.
Proof.
  intros Hc. unfold store_commit. rewrite Hc. unfold vs_of. simpl. rewrite map_lookup_imap.
  destruct (versions s !! key) as [vs|]; simpl; by case_decide.
Qed.

Lemma vs_of_vacuum s key : sublist (vs_of (vacuum s).2 key) (vs_of s key).
Proof.
  unfold vs_of, vacuum. simpl. rewrite map_lookup_imap. destruct (versions s !! key) as [vs|]; [|done].
  simpl. unfold vacuum_versions. destruct (Nat.leb _ _); [done|].
  destruct (filter _ vs) eqn:E; simpl; [apply sublist_nil_l|]. rewrite <- E. apply sublist_filter.
Qed.

Lemma vs_of_locks s l key : vs_of (with_locks s l) key = vs_of s key.
Proof. done. Qed.

Lemma lock_if_store b s tx key lt : exists l, (lock_if b s tx key lt).2 = with_locks s l.
Proof.
  unfold lock_if, take_lock. destruct b; [|exists (locks s); by destruct s].
  destruct (acquire _ _ _ _) as [g l]. by exists l.
Qed.

Lemma unlock_if_store b s tx : exists l, unlock_if b s tx = with_locks s l.
Proof. unfold unlock_if. destruct b; [by eexists|exists (locks s); by destruct s]. Qed.

(** ** What a snapshot sees *)

Definition reading (v : option version) : option str :=
  match v with
  | None => None
  | Some v => if vvalue v =s? TOMBSTONE then None else Some (vvalue v)
  end.

Lemma store_read_eq s key snap own : store_read s key snap own = reading (best_version snap own (vs_of s key)).
Proof. unfold store_read, vs_of. by destruct (versions s !! key). Qed.

Definition pick (snap own : nat) (best : option version) (v : version) : option version :=
  if visible snap own v then
    match best with
    | Some b => if Nat.ltb (vtxid b) (vtxid v) then Some v else best
    | None => Some v
    end
  else best.

Lemma best_version_foldl snap own vs : best_version snap own vs = foldl (pick snap own) None vs.
Proof. done. Qed.

(** Versions a snapshot cannot see do not matter. *)
Lemma best_version_drop snap own u vs :
  u <> own -> snap < u -> best_version snap own (drop_own u vs) = best_version snap own vs.
Proof.
  intros Hne Hlt. rewrite !best_version_foldl. generalize (@None version).
  induction vs as [|v vs IH]; intros b; [done|]. unfold drop_own in *. rewrite filter_cons.
  case_decide as Hv; simpl; [apply IH|]. rewrite IH. f_equal. unfold pick, visible.
  rewrite Hv. destruct (Nat.leb_spec u snap); [lia|].
  destruct (Nat.eqb_spec u own); [done|]. by rewrite andb_false_r.
Qed.

Lemma best_version_ext snap own u vs vs' :
  u <> own -> snap < u -> drop_own u vs' = drop_own u vs ->
  best_version snap own vs' = best_version snap own vs.
Proof. intros Hne Hlt E. by rewrite <- (best_version_drop _ _ u vs'), E, best_version_drop. Qed.

Lemma drop_own_idem u vs : drop_own u (drop_own u vs) = drop_own u vs.
Proof.
  unfold drop_own. induction vs as [|v vs IH]; [done|]. rewrite !filter_cons.
  case_decide; [|done]. rewrite filter_cons_True by done. by f_equal.
Qed.

Lemma drop_own_mark u vs : drop_own u (map (mark u) vs) = drop_own u vs.
Proof.
  unfold drop_own. induction vs as [|v vs IH]; [done|]. simpl. rewrite !filter_cons, IH.
  unfold mark. destruct (Nat.eqb_spec (vtxid v) u) as [E|E]; [|done]. simpl.
  by rewrite !decide_False by auto.
Qed.

(** The transaction an operation belongs to. *)
Definition actor (o : op) : option nat :=
  match o with
  | OGet id _ | OGetForUpdate id _ | OSet id _ _ | ODelete id _ | OCommit id | OAbort id => Some id
  | OBegin _ | OVacuum => None
  end.

(** The invariant of worlds. *)
Record winv (w : world) : Prop := {
  wi_sorted key : by_txid (vs_of (wstore w) key);
  wi_version key v : v ∈ vs_of (wstore w) key ->
    if vcommitted v then vtxid v ∈ committed_txids (wstore w)
    else exists tx, wtxs w !! vtxid v = Some tx /\ tcommitted tx = false /\ taborted tx = false /\
           key ∈ write_set tx;
  wi_tx id tx : wtxs w !! id = Some tx ->
    txid tx = id /\ snapshot_txid tx < id /\ id < next_txid (wstore w) /\
    (tcommitted tx = true <-> id ∈ committed_txids (wstore w));
  wi_committed id : id ∈ committed_txids (wstore w) -> id < next_txid (wstore w);
  wi_next : 0 < next_txid (wstore w);
  wi_locks : lock_ok (locks (wstore w))
}.

Lemma set_max_bound s n : n ∈ s -> n <= set_max s.
Proof.
  unfold set_max. revert n. apply (set_fold_ind_L (fun r s => forall n, n ∈ s -> n <= r)); [set_solver|].
  intros x X r Hx IH n Hn. apply elem_of_union in Hn as [->%elem_of_singleton|Hn]; [lia|].
  specialize (IH n Hn). lia.
Qed.

Lemma set_max_lt s b : 0 < b -> (forall n, n ∈ s -> n < b) -> set_max s < b.
Proof.
  intros Hb. unfold set_max.
  apply (set_fold_ind_L (fun r s => (forall n, n ∈ s -> n < b) -> r < b)); [done|].
  intros x X r Hx IH Hn. assert (x < b) by (apply Hn; set_solver).
  assert (r < b) by (apply IH; intros n Hin; apply Hn; set_solver). lia.
Qed.

Lemma winv_new : winv new_world.
Proof.
  split; simpl; try done.
  - intros key. constructor.
  - intros key v Hv. by apply not_elem_of_nil in Hv.
  - intros id Hid. apply elem_of_singleton in Hid. lia.
  - lia.
Qed.

(** A step of transaction [id] that changes only its own versions. *)
Lemma winv_update w id tx tx' s' :
  winv w -> wtxs w !! id = Some tx -> txid tx' = id -> snapshot_txid tx' = snapshot_txid tx ->
  next_txid s' = next_txid (wstore w) -> (forall k, by_txid (vs_of s' k)) ->
  (forall k v, v ∈ vs_of s' k -> vtxid v <> id -> v ∈ vs_of (wstore w) k) ->
  (forall k v, v ∈ vs_of s' k -> vtxid v = id -> if vcommitted v then id ∈ committed_txids s'
     else tcommitted tx' = false /\ taborted tx' = false /\ k ∈ write_set tx') ->
  (committed_txids s' = committed_txids (wstore w) /\ tcommitted tx' = tcommitted tx \/
   committed_txids s' = {[id]} ∪ committed_txids (wstore w) /\ tcommitted tx' = true) ->
  lock_ok (locks s') -> winv (mkWorld s' (<[id := tx']> (wtxs w))).
Proof.
  intros [Hs Hv Ht Hc Hp Hl] Hid Htx Hsn Hnx Hs' Hother Hown Hcom Hl'. split; simpl; auto.
  - intros k v Hk. destruct (decide (vtxid v = id)) as [E|E].
    + specialize (Hown k v Hk E). destruct (vcommitted v); [by rewrite E|].
      exists tx'. rewrite E, lookup_insert_eq. tauto.
    + specialize (Hv k v (Hother k v Hk E)). destruct (vcommitted v).
      * destruct Hcom as [[-> _]|[-> _]]; set_solver.
      * by rewrite lookup_insert_ne.
  - intros i t. rewrite Hnx. destruct (Ht id tx Hid) as (E1 & E2 & E3 & E4).
    destruct (decide (i = id)) as [->|Hne].
    + rewrite lookup_insert_eq. intros [= <-]. rewrite Hsn. split_and!; auto.
      destruct Hcom as [[-> ->]|[-> ->]]; [done|set_solver].
    + rewrite lookup_insert_ne by done. intros Hi. destruct (Ht i t Hi) as (F1 & F2 & F3 & F4).
      split_and!; auto. rewrite F4. destruct Hcom as [[-> _]|[-> _]]; set_solver.
  - intros i. rewrite Hnx. destruct (Ht id tx Hid) as (_ & _ & E3 & _).
    destruct Hcom as [[-> _]|[-> _]]; [auto|]. intros [->%elem_of_singleton|Hi]%elem_of_union; auto.
  - by rewrite Hnx.
Qed.

(** Steps that leave all versions as they are. *)
Lemma winv_same w id tx tx' l :
  winv w -> wtxs w !! id = Some tx -> txid tx' = id -> snapshot_txid tx' = snapshot_txid tx ->
  tcommitted tx' = tcommitted tx -> taborted tx' = taborted tx -> write_set tx' = write_set tx ->
  lock_ok l -> winv (mkWorld (with_locks (wstore w) l) (<[id := tx']> (wtxs w))).
Proof.
  intros Hw Hid Htx Hsn Htc Hta Hws Hl. eapply winv_update; eauto; simpl; auto.
  - apply (wi_sorted _ Hw).
  - intros k v Hv Ev. pose proof (wi_version _ Hw k v Hv) as H. destruct (vcommitted v).
    + by rewrite <- Ev.
    + rewrite Ev, Hid in H. destruct H as (t & [= <-] & ?). rewrite Htc, Hta, Hws. tauto.
Qed.

Lemma winv_write w id tx tx' l key value :
  winv w -> wtxs w !! id = Some tx -> check_active tx = Ok tt ->
  txid tx' = id -> snapshot_txid tx' = snapshot_txid tx -> tcommitted tx' = tcommitted tx ->
  taborted tx' = taborted tx -> write_set tx' = {[key]} ∪ write_set tx -> lock_ok l ->
  winv (mkWorld (store_write (with_locks (wstore w) l) key value id) (<[id := tx']> (wtxs w))).
Proof.
  intros Hw Hid Hac Htx Hsn Htc Hta Hws Hl.
  assert (Hact : tcommitted tx = false /\ taborted tx = false)
    by (unfold check_active in Hac; destruct (tcommitted tx), (taborted tx); done).
  pose proof (wi_sorted _ Hw key) as Hsk. destruct (drop_own_sorted id _ Hsk) as [Hd1 Hd2].
  eapply winv_update; eauto; simpl.
  - intros k. rewrite vs_of_write by done. case_decide; [|apply (wi_sorted _ Hw)].
    by apply insert_version_sorted.
  - intros k v. rewrite vs_of_write by done. case_decide as E; [subst|done].
    rewrite insert_version_elem. intros [->|Hv]; [done|]. by apply list_elem_of_filter in Hv as [_ Hv].
  - intros k v. rewrite vs_of_write by done. rewrite Htc, Hta, Hws.
    assert (Hold : v ∈ vs_of (wstore w) k -> vtxid v = id ->
      if vcommitted v then id ∈ committed_txids (wstore w) else tcommitted tx = false /\ taborted tx = false /\
        k ∈ {[key]} ∪ write_set tx).
    { intros Hv Ev. pose proof (wi_version _ Hw k v Hv) as H. destruct (vcommitted v); [by rewrite <- Ev|].
      rewrite Ev, Hid in H. destruct H as (t & [= <-] & ? & ? & ?). set_solver. }
    case_decide as E; [subst|done]. rewrite insert_version_elem. intros [->|Hv]; simpl; [set_solver|].
    intros Ev. apply list_elem_of_filter in Hv as [? _]. done.
Qed.

Lemma winv_abort w id tx l :
  winv w -> wtxs w !! id = Some tx -> check_active tx = Ok tt -> lock_ok l ->
  winv (mkWorld (with_locks (store_abort (wstore w) tx) l) (<[id := finish tx false true]> (wtxs w))).
Proof.
  intros Hw Hid Hac Hl. destruct (wi_tx _ Hw _ _ Hid) as (Etx & _).
  assert (Htc : tcommitted tx = false) by (unfold check_active in Hac; by destruct (tcommitted tx)).
  eapply winv_update; eauto; simpl.
  - intros k. rewrite vs_of_locks, vs_of_abort. case_decide; [|apply (wi_sorted _ Hw)].
    apply drop_own_sorted, (wi_sorted _ Hw).
  - intros k v. rewrite vs_of_locks, vs_of_abort. case_decide; [|done]. by intros [_ ?]%list_elem_of_filter.
  - intros k v. rewrite vs_of_locks, vs_of_abort, Etx. case_decide as Hk.
    + by intros [? _]%list_elem_of_filter.
    + intros Hv Ev. pose proof (wi_version _ Hw k v Hv) as H. destruct (vcommitted v); [by rewrite <- Ev|].
      rewrite Ev, Hid in H. destruct H as (t & [= <-] & ? & ? & ?). done.
Qed.

Lemma mark_txid id v : vtxid (mark id v) = vtxid v.
Proof. unfold mark. by destruct (Nat.eqb _ _). Qed.

Lemma map_mark_sorted id vs : by_txid vs -> by_txid (map (mark id) vs).
Proof.
  induction 1 as [|v vs Hs IH Hv]; simpl; constructor; auto.
  apply list.Forall_forall. intros x (y & -> & Hy)%list_elem_of_fmap. rewrite !mark_txid.
  rewrite list.Forall_forall in Hv. by apply Hv.
Qed.

Lemma winv_commit w id tx l :
  winv w -> wtxs w !! id = Some tx -> has_conflict (wstore w) tx = false -> lock_ok l ->
  winv (mkWorld (with_locks (store_commit (wstore w) tx).2 l) (<[id := finish tx true false]> (wtxs w))).
Proof.
  intros Hw Hid Hc Hl. destruct (wi_tx _ Hw _ _ Hid) as (Etx & _).
  assert (Hst : next_txid (store_commit (wstore w) tx).2 = next_txid (wstore w) /\
    committed_txids (store_commit (wstore w) tx).2 = {[id]} ∪ committed_txids (wstore w))
    by (unfold store_commit; by rewrite Hc, Etx). destruct Hst as [Hn Hcs].
  eapply winv_update; eauto.
  - intros k. rewrite vs_of_locks, vs_of_commit by done.
    case_decide; [apply map_mark_sorted|]; apply (wi_sorted _ Hw).
  - intros k v. rewrite vs_of_locks, vs_of_commit by done. case_decide; [|done].
    intros (y & -> & Hy)%list_elem_of_fmap. unfold mark. rewrite Etx.
    by destruct (Nat.eqb_spec (vtxid y) id).
  - intros k v. rewrite vs_of_locks, vs_of_commit by done. simpl. rewrite Hcs. case_decide as Hk.
    + intros (y & -> & Hy)%list_elem_of_fmap. rewrite mark_txid. intros Ey. unfold mark. rewrite Etx.
      destruct (Nat.eqb_spec (vtxid y) id); [simpl; set_solver|done].
    + intros Hv Ev. pose proof (wi_version _ Hw k v Hv) as H. destruct (vcommitted v); [set_solver|].
      rewrite Ev, Hid in H. destruct H as (t & [= <-] & ? & ? & ?). done.
Qed.

Lemma winv_begin w m : winv w -> winv (step w (OBegin m)).2.
Proof.
  intros [Hs Hv Ht Hc Hp Hl]. split; simpl; auto.
  - intros k v Hk. specialize (Hv k v Hk). destruct (vcommitted v); [done|].
    destruct Hv as (t & Hi & ?). destruct (Ht _ _ Hi) as (_ & _ & Hlt & _).
    exists t. rewrite lookup_insert_ne by lia. done.
  - intros i t. destruct (decide (i = next_txid (wstore w))) as [->|Hne].
    + rewrite lookup_insert_eq. intros [= <-]. simpl. split_and!; auto.
      * by apply set_max_lt.
      * split; [done|]. intros Hi%Hc. lia.
    + rewrite lookup_insert_ne by done. intros Hi. destruct (Ht _ _ Hi) as (? & ? & ? & ?).
      split_and!; auto.
  - intros i Hi%Hc. lia.
Qed.

Lemma sublist_sorted l1 l2 : sublist l1 l2 -> by_txid l2 -> by_txid l1.
Proof.
  induction 1 as [|x l1 l2 Hsub IH|x l1 l2 Hsub IH]; [done|..]; intros [Hx Hl]%StronglySorted_cons; auto.
  constructor; auto. rewrite list.Forall_forall in Hx. apply list.Forall_forall. intros y Hy.
  apply Hx. eapply elem_of_submseteq; [exact Hy|]. by apply sublist_submseteq.
Qed.

Lemma winv_vacuum w : winv w -> winv (step w OVacuum).2.
Proof.
  intros [Hs Hv Ht Hc Hp Hl]. pose proof (vs_of_vacuum (wstore w)) as Hsub.
  split; cbn [step snd wstore wtxs vacuum next_txid committed_txids locks]; auto.
  - intros k. eapply sublist_sorted; [apply Hsub|done].
  - intros k v Hk. apply Hv. eapply elem_of_submseteq; [exact Hk|]. apply sublist_submseteq, Hsub.
Qed.

(** The effect of the methods on the world, by the branches of the code. *)
Lemma winv_locked_read w id tx b lt key :
  winv w -> wtxs w !! id = Some tx ->
  let '(_, tx', s') := locked_read b lt (wstore w) tx key in winv (mkWorld s' (<[id := tx']> (wtxs w))).
Proof.
  intros Hw Hid. destruct (wi_tx _ Hw _ _ Hid) as (Etx & _). unfold locked_read.
  destruct (check_active tx).
  - pose proof (lock_if_lock_ok b (wstore w) (count_read tx) key lt (wi_locks _ Hw)) as Hl.
    destruct (lock_if_store b (wstore w) (count_read tx) key lt) as [l El].
    destruct (lock_if _ _ _ _ _) as [r s']. simpl in El, Hl. subst s'. simpl in Hl.
    by destruct r; apply winv_same with (tx := tx).
  - rewrite insert_id by done. by destruct w.
Qed.

Lemma winv_put w id tx key value :
  winv w -> wtxs w !! id = Some tx ->
  let '(_, tx', s') := tx_set (wstore w) tx key value in winv (mkWorld s' (<[id := tx']> (wtxs w))).
Proof.
  intros Hw Hid. destruct (wi_tx _ Hw _ _ Hid) as (Etx & _). unfold tx_set.
  destruct (check_active tx) as [[]|] eqn:Hac.
  - pose proof (lock_if_lock_ok (pessimistic tx) (wstore w) (count_write tx) key EXCLUSIVE (wi_locks _ Hw)) as Hl.
    destruct (lock_if_store (pessimistic tx) (wstore w) (count_write tx) key EXCLUSIVE) as [l El].
    change (pessimistic (count_write tx)) with (pessimistic tx).
    destruct (lock_if _ _ _ _ _) as [r s']. simpl in El, Hl. subst s'. simpl in Hl.
    destruct r; [|by apply winv_same with (tx := tx)].
    change (txid (count_write tx)) with (txid tx). rewrite Etx. by apply winv_write with (tx := tx).
  - rewrite insert_id by done. by destruct w.
Qed.

Lemma winv_tx_commit w id tx :
  winv w -> wtxs w !! id = Some tx ->
  let '(_, tx', s') := tx_commit (wstore w) tx in winv (mkWorld s' (<[id := tx']> (wtxs w))).
Proof.
  intros Hw Hid. unfold tx_commit. destruct (check_active tx) as [[]|] eqn:Hac;
    [|rewrite insert_id by done; by destruct w].
  destruct (store_commit (wstore w) tx) as [ok s'] eqn:Hc.
  assert (Hl : lock_ok (locks (unlock_if (pessimistic tx) s' tx))).
  { apply unlock_if_lock_ok. pose proof (store_commit_locks (wstore w) tx) as E. rewrite Hc in E.
    simpl in E. rewrite E. apply (wi_locks _ Hw). }
  destruct (unlock_if_store (pessimistic tx) s' tx) as [l El]. rewrite El in Hl |- *.
  unfold store_commit in Hc. destruct (has_conflict (wstore w) tx) eqn:Hcf; injection Hc as <- <-.
  - by apply winv_abort.
  - pose proof (winv_commit w id tx l Hw Hid Hcf Hl) as H. unfold store_commit in H. by rewrite Hcf in H.
Qed.

Lemma winv_tx_abort w id tx :
  winv w -> wtxs w !! id = Some tx ->
  let '(tx', s') := tx_abort (wstore w) tx in winv (mkWorld s' (<[id := tx']> (wtxs w))).
Proof.
  intros Hw Hid. unfold tx_abort. destruct (tcommitted tx || taborted tx) eqn:Hf;
    [rewrite insert_id by done; by destruct w|]. apply orb_false_iff in Hf as [Hf1 Hf2].
  destruct (unlock_if_store (pessimistic tx) (store_abort (wstore w) tx) tx) as [l El]. rewrite Hf1, El.
  apply winv_abort; auto; [unfold check_active; by rewrite Hf1, Hf2|].
  pose proof (unlock_if_lock_ok (pessimistic tx) (store_abort (wstore w) tx) tx (wi_locks _ Hw)) as Hl.
  by rewrite El in Hl.
Qed.

(** Every step keeps the invariant. *)
Lemma winv_step w o : winv w -> winv (step w o).2.
Proof.
  intros Hw. destruct o as [m|id key|id key|id key v|id key|id|id|]; [by apply winv_begin|..|by apply winv_vacuum];
    cbn [step]; unfold with_tx; destruct (wtxs w !! id) as [tx|] eqn:Hid; auto.
  - pose proof (winv_locked_read w id tx (pessimistic tx) SHARED key Hw Hid) as H.
    unfold tx_get. by destruct (locked_read _ _ _ _ _) as [[??]?].
  - pose proof (winv_locked_read w id tx true EXCLUSIVE key Hw Hid) as H.
    unfold tx_get_for_update. by destruct (locked_read _ _ _ _ _) as [[??]?].
  - pose proof (winv_put w id tx key v Hw Hid) as H. by destruct (tx_set _ _ _ _) as [[??]?].
  - pose proof (winv_put w id tx key TOMBSTONE Hw Hid) as H.
    change (tx_delete (wstore w) tx key) with (tx_set (wstore w) tx key TOMBSTONE).
    by destruct (tx_set _ _ _ _) as [[??]?].
  - pose proof (winv_tx_commit w id tx Hw Hid) as H. by destruct (tx_commit _ _) as [[??]?].
  - pose proof (winv_tx_abort w id tx Hw Hid) as H. by destruct (tx_abort _ _) as [??].
Qed.

Lemma winv_run os : forall w, winv w -> winv (run w os).2.
Proof.
  induction os as [|o os IH]; intros w Hw; [done|]. simpl. pose proof (winv_step w o Hw) as Hs.
  destruct (step w o) as [r w']. specialize (IH w' Hs). by destruct (run w' os).
Qed.

(** ** Frames *)

Lemma others_step w o u key :
  winv w -> actor o = Some u ->
  drop_own u (vs_of (wstore (step w o).2) key) = drop_own u (vs_of (wstore w) key).
Proof.
  intros Hw Ho.
  assert (Hput : forall s tx v k, txid tx = u -> (forall k, by_txid (vs_of s k)) ->
    drop_own u (vs_of (tx_set s tx k v).2 key) = drop_own u (vs_of s key)).
  { intros s tx v k Etx Hs. unfold tx_set. destruct (check_active tx); [|done].
    destruct (lock_if_store (pessimistic (count_write tx)) s (count_write tx) k EXCLUSIVE) as [l El].
    destruct (lock_if _ _ _ _ _) as [[] s']; simpl in El |- *; subst s'; [|done].
    rewrite vs_of_write by apply Hs. rewrite vs_of_locks. case_decide; [subst|done].
    destruct (drop_own_sorted (txid tx) (vs_of s k) (Hs k)) as [_ Hne]. by apply insert_version_drop. }
  assert (Hread : forall s tx b lt k, vs_of (locked_read b lt s tx k).2 key = vs_of s key).
  { intros s tx b lt k. unfold locked_read. destruct (check_active tx); [|done].
    destruct (lock_if_store b s (count_read tx) k lt) as [l El].
    by destruct (lock_if _ _ _ _ _) as [[] s']; simpl in El |- *; subst s'. }
  destruct o as [m|id k|id k|id k v|id k|id|id|]; try done; injection Ho as ->;
    cbn [step]; unfold with_tx; destruct (wtxs w !! u) as [tx|] eqn:Hid; auto;
    destruct (wi_tx _ Hw _ _ Hid) as (Etx & _).
  - specialize (Hread (wstore w) tx (pessimistic tx) SHARED k). unfold tx_get.
    destruct (locked_read _ _ _ _ _) as [[??]?]. simpl in *. by rewrite Hread.
  - specialize (Hread (wstore w) tx true EXCLUSIVE k). unfold tx_get_for_update.
    destruct (locked_read _ _ _ _ _) as [[??]?]. simpl in *. by rewrite Hread.
  - specialize (Hput (wstore w) tx v k Etx (wi_sorted _ Hw)). by destruct (tx_set _ _ _ _) as [[??]?].
  - specialize (Hput (wstore w) tx TOMBSTONE k Etx (wi_sorted _ Hw)).
    change (tx_delete (wstore w) tx k) with (tx_set (wstore w) tx k TOMBSTONE).
    by destruct (tx_set _ _ _ _) as [[??]?].
  - unfold tx_commit. destruct (check_active tx); [|done].
    destruct (store_commit (wstore w) tx) as [ok s'] eqn:Hc. simpl.
    destruct (unlock_if_store (pessimistic tx) s' tx) as [l ->]. rewrite vs_of_locks.
    destruct (has_conflict (wstore w) tx) eqn:Hcf.
    + unfold store_commit in Hc. rewrite Hcf in Hc. injection Hc as <- <-. rewrite vs_of_abort, Etx.
      case_decide; [apply drop_own_idem|done].
    + pose proof (vs_of_commit (wstore w) tx key Hcf) as E. rewrite Hc in E. simpl in E. rewrite E, Etx.
      case_decide; [apply drop_own_mark|done].
  - unfold tx_abort. destruct (_ || _); [done|]. simpl.
    destruct (unlock_if_store (pessimistic tx) (store_abort (wstore w) tx) tx) as [l ->].
    rewrite vs_of_locks, vs_of_abort, Etx. case_decide; [apply drop_own_idem|done].
Qed.

(** [o] cannot change what snapshot [snap] of transaction [t] reads. *)
Definition unseen (snap t : nat) (o : op) : Prop :=
  match o with
  | OBegin _ => True
  | OVacuum => False
  | _ => match actor o with Some u => u <> t /\ snap < u | None => False end
  end.

Lemma read_frame_step w o snap t key :
  winv w -> unseen snap t o ->
  store_read (wstore (step w o).2) key snap t = store_read (wstore w) key snap t.
Proof.
  intros Hw Ho. rewrite !store_read_eq. f_equal.
  destruct (actor o) as [u|] eqn:Ha.
  - apply (best_version_ext _ _ u); [..|by apply others_step]; destruct o; simpl in *; naive_solver.
  - by destruct o.
Qed.

Lemma read_frame_run os : forall w snap t key,
  winv w -> Forall (unseen snap t) os ->
  store_read (wstore (run w os).2) key snap t = store_read (wstore w) key snap t.
Proof.
  induction os as [|o os IH]; intros w snap t key Hw Hos; [done|].
  apply Forall_cons_1 in Hos as [Ho Hos]. pose proof (read_frame_step w o snap t key Hw Ho) as E.
  pose proof (winv_step w o Hw) as Hw'. simpl. destruct (step w o) as [r w']. simpl in *.
  specialize (IH w' snap t key Hw' Hos). destruct (run w' os). simpl in *. congruence.
Qed.

(** A visible version with the largest txid is the one read. *)
Lemma best_version_max snap own vs v :
  v ∈ vs -> visible snap own v = true ->
  (forall w, w ∈ vs -> visible snap own w = true -> w = v \/ vtxid w < vtxid v) ->
  best_version snap own vs = Some v.
Proof.
  intros Hin Hv Hmax. rewrite best_version_foldl.
  assert (Hkeep : forall l, (forall w, w ∈ l -> visible snap own w = true -> w = v \/ vtxid w < vtxid v) ->
    foldl (pick snap own) (Some v) l = Some v).
  { induction l as [|w l IH]; intros Hl; [done|]. simpl.
    assert (pick snap own (Some v) w = Some v) as ->; [|apply IH; set_solver].
    unfold pick. destruct (visible snap own w) eqn:Ew; [|done].
    destruct (Nat.ltb_spec (vtxid v) (vtxid w)); [|done]. destruct (Hl w) as [->|?]; [left|done|done|lia]. }
  assert (Hb : forall l b, (forall w, w ∈ l -> visible snap own w = true -> w = v \/ vtxid w < vtxid v) ->
    v ∈ l -> (b = None \/ exists w, b = Some w /\ vtxid w < vtxid v) ->
    foldl (pick snap own) b l = Some v).
  { induction l as [|w l IH]; intros b Hl Hvl Hb; [by apply not_elem_of_nil in Hvl|]. simpl.
    destruct (decide (w = v)) as [->|Hne].
    - assert (pick snap own b v = Some v) as ->.
      { unfold pick. rewrite Hv. destruct Hb as [->|(w & -> & Hw)]; [done|].
        by destruct (Nat.ltb_spec (vtxid w) (vtxid v)); [|lia]. }
      apply Hkeep. set_solver.
    - apply IH; [set_solver|set_solver|]. unfold pick. destruct (visible snap own w) eqn:Ew; [|done].
      assert (vtxid w < vtxid v) by (destruct (Hl w); [left|done|congruence|done]).
      destruct Hb as [->|(x & -> & Hx)]; [eauto|]. destruct (Nat.ltb _ _); eauto. }
  apply Hb; auto.
Qed.

(** ** Theorems *)

(** C6: repeatable reads.  In every reachable world, what transaction [t] reads
    at its snapshot is unchanged by any sequence of operations of transactions
    whose ids are above the snapshot: uncommitted data and later commits are
    invisible. *)
Theorem tx_repeatable_read os0 os snap t key :
  let w := (run new_world os0).2 in
  Forall (unseen snap t) os ->
  store_read (wstore (run w os).2) key snap t = store_read (wstore w) key snap t.
Proof. intros w Hos. apply read_frame_run; [|done]. apply winv_run, winv_new. Qed.

Lemma tx_repeatable_read_witness :
  let os0 := [OBegin OPTIMISTIC; OSet 1 (py "k") (py "a"); OCommit 1; OBegin OPTIMISTIC; OBegin OPTIMISTIC] in
  let os := [OSet 3 (py "k") (py "b"); OCommit 3] in
  let w := (run new_world os0).2 in
  Forall (unseen 1 2) os /\
  store_read (wstore (run w os).2) (py "k") 1 2 = store_read (wstore w) (py "k") 1 2 /\
  store_read (wstore w) (py "k") 1 2 = Some (py "a").
Proof.
  intros os0 os w. assert (Hf : Forall (unseen 1 2) os) by (repeat constructor; lia).
  split; [exact Hf|]. split; [apply (tx_repeatable_read os0 os 1 2 (py "k") Hf)|vm_compute; reflexivity].
Defined.

(** Read your own writes.  In every reachable world, a successful [set] of
    transaction [id] makes its own next read return the value written (nothing,
    if that value is the tombstone). *)
Theorem tx_read_your_writes os id tx tx' s' key value :
  let w := (run new_world os).2 in
  wtxs w !! id = Some tx -> tx_set (wstore w) tx key value = (Ok tt, tx', s') ->
  store_read s' key (snapshot_txid tx) (txid tx) = if value =s? TOMBSTONE then None else Some value.
Proof.
  intros w Hid Hset. assert (Hw : winv w) by apply winv_run, winv_new.
  destruct (wi_tx _ Hw _ _ Hid) as (Etx & Hsn & _).
  pose proof (wi_sorted _ Hw key) as Hsk. rewrite store_read_eq. unfold tx_set in Hset.
  destruct (check_active tx); [|done].
  destruct (lock_if_store (pessimistic (count_write tx)) (wstore w) (count_write tx) key EXCLUSIVE) as [l El].
  destruct (lock_if _ _ _ _ _) as [[] s]; simpl in El; subst s; [|done]. injection Hset as <- <-.
  rewrite vs_of_write, decide_True by done. rewrite vs_of_locks.
  rewrite (best_version_max _ _ _ (mkVersion (txid tx) value false)); [done|..].
  - apply insert_version_elem. by left.
  - unfold visible. simpl. by rewrite Nat.eqb_refl.
  - intros v [->|Hv]%insert_version_elem Hvis; [by left|right]. simpl.
    apply list_elem_of_filter in Hv as [Hne _]. unfold visible in Hvis.
    apply orb_true_iff in Hvis as [[_ Hle%Nat.leb_le]%andb_true_iff|He%Nat.eqb_eq]; [lia|done].
Qed.

Lemma tx_read_your_writes_witness :
  let w := (run new_world [OBegin OPTIMISTIC]).2 in
  exists tx tx' s', wtxs w !! 1 = Some tx /\ tx_set (wstore w) tx (py "k") (py "v") = (Ok tt, tx', s') /\
    store_read s' (py "k") (snapshot_txid tx) (txid tx) = Some (py "v").
Proof.
  intros w. eexists _, _, _. split; [reflexivity|]. split; [reflexivity|].
  exact (tx_read_your_writes [OBegin OPTIMISTIC] 1 _ _ _ (py "k") (py "v") eq_refl eq_refl).
Defined.

(** The versions of an active transaction are uncommitted and under the keys it wrote. *)
Lemma own_version w id tx key v :
  winv w -> wtxs w !! id = Some tx -> tcommitted tx = false -> v ∈ vs_of (wstore w) key -> vtxid v = id -> key ∈ write_set tx.
Proof.
  intros Hw Hid Hnc Hv Ev. pose proof (wi_version _ Hw key v Hv) as H. rewrite Ev in H.
  destruct (wi_tx _ Hw _ _ Hid) as (_ & _ & _ & Hc). destruct (vcommitted v).
  - apply Hc in H. congruence.
  - destruct H as (t & Ht & _ & _ & Hk). congruence.
Qed.

Lemma drop_none id (vs : list version) : (forall v, v ∈ vs -> vtxid v <> id) -> filter (fun v => vtxid v <> id) vs = vs.
Proof.
  induction vs as [|v vs IH]; intros Hall; [done|]. rewrite filter_cons_True by (apply Hall; left).
  f_equal. apply IH. intros x Hx. apply Hall. by right.
Qed.

Lemma has_conflict_spec s tx : has_conflict s tx = true <->
  exists key v, key ∈ write_set tx /\ v ∈ vs_of s key /\ vtxid v <> txid tx /\ vcommitted v = true /\ snapshot_txid tx < vtxid v.
Proof.
  unfold has_conflict. rewrite existsb_exists. setoid_rewrite existsb_exists. setoid_rewrite <- list_elem_of_In.
  setoid_rewrite elem_of_elements. unfold conflicting, vs_of. setoid_rewrite andb_true_iff. setoid_rewrite andb_true_iff.
  setoid_rewrite negb_true_iff. setoid_rewrite Nat.eqb_neq. setoid_rewrite Nat.ltb_lt. naive_solver.
Qed.

(** C7: A commit is all-or-nothing, in every reachable world.  It fails exactly when another
    transaction whose id is above the snapshot has committed a version of a key written by
    this one; it then removes all versions of the transaction.  Otherwise it marks all of
    them committed at once.  Versions of other transactions never change.  (Ids are handed
    out at the begin, so this is weaker than first-committer-wins: see
    [tx_snapshot_not_stable].) *)
Theorem tx_commit_atomic os id tx ok tx' s' :
  let w := (run new_world os).2 in
  wtxs w !! id = Some tx -> tx_commit (wstore w) tx = (Ok ok, tx', s') ->
  (ok = false <-> exists key v, key ∈ write_set tx /\ v ∈ vs_of (wstore w) key /\ vtxid v <> id /\
     vcommitted v = true /\ snapshot_txid tx < vtxid v) /\
  if (ok : bool) then
    (forall key, vs_of s' key =
       map (fun v => if decide (vtxid v = id) then mkVersion id (vvalue v) true else v) (vs_of (wstore w) key)) /\
    committed_txids s' = {[id]} ∪ committed_txids (wstore w)
  else
    (forall key, vs_of s' key = filter (fun v => vtxid v <> id) (vs_of (wstore w) key)) /\
    committed_txids s' = committed_txids (wstore w).
Proof.
  intros w Hid Hc. assert (Hw : winv w) by apply winv_run, winv_new.
  destruct (wi_tx _ Hw _ _ Hid) as (Etx & _). unfold tx_commit in Hc.
  destruct (check_active tx) as [[]|] eqn:Hac; [|done].
  assert (Hnc : tcommitted tx = false) by (unfold check_active in Hac; by destruct (tcommitted tx)).
  destruct (store_commit (wstore w) tx) as [ok' s1] eqn:Hs. injection Hc as <- <- <-.
  destruct (unlock_if_store (pessimistic tx) s1 tx) as [l ->].
  pose proof (has_conflict_spec (wstore w) tx) as Hspec. rewrite Etx in Hspec.
  pose proof (own_version w id tx) as Hown. destruct (has_conflict (wstore w) tx) eqn:Hcf.
  - unfold store_commit in Hs. rewrite Hcf in Hs. injection Hs as <- <-. split; [rewrite <- Hspec; tauto|]. split; [|done].
    intros key. rewrite vs_of_locks, vs_of_abort, Etx. unfold drop_own. case_decide as Hk; [done|]. symmetry.
    apply drop_none. intros v Hv Ev. by apply Hk, (Hown key v).
  - pose proof (fun key => vs_of_commit (wstore w) tx key Hcf) as Ev. rewrite Hs in Ev. unfold store_commit in Hs.
    rewrite Hcf in Hs. injection Hs as <- <-. split; [rewrite <- Hspec; split; [done|congruence]|]. rewrite Etx in *. split; [|done].
    intros key. rewrite vs_of_locks. cbn [snd] in Ev. rewrite Ev. case_decide as Hk.
    + apply map_ext. intros v. unfold mark. destruct (Nat.eqb_spec (vtxid v) id) as [E|E]; case_decide; congruence.
    + symmetry. transitivity (map (fun v : version => v) (vs_of (wstore w) key)); [|apply map_id]. apply map_ext_in.
      intros v Hv%list_elem_of_In. case_decide as E; [|done]. by destruct Hk; apply (Hown key v).
Qed.

Lemma tx_commit_atomic_witness :
  let os := [OBegin OPTIMISTIC; OSet 1 (py "k") (py "v")] in
  let w := (run new_world os).2 in
  exists tx tx' s', wtxs w !! 1 = Some tx /\ tx_commit (wstore w) tx = (Ok true, tx', s') /\
    vs_of s' (py "k") = [mkVersion 1 (py "v") true].
Proof.
  intros os w. eexists _, _, _. split; [vm_compute; reflexivity|]. split; [vm_compute; reflexivity|].
  refine (eq_trans (proj1 (proj2 (tx_commit_atomic os 1 _ true _ _ _ _)) (py "k")) _); vm_compute; reflexivity.
Defined.

(** Locks.  In every reachable world, a key with an exclusive holder has no
    other shared holder, so granted locks are pairwise compatible. *)
Theorem tx_lock_compatibility os key e t u :
  let w := (run new_world os).2 in
  locks (wstore w) !! key = Some e -> exclusive e = Some t -> u ∈ shared e -> u = t.
Proof.
  intros w He Hx Hu. assert (Hw : winv w) by apply winv_run, winv_new.
  pose proof (wi_locks _ Hw key e He t Hx) as Hsub. set_solver.
Qed.

Lemma tx_lock_compatibility_witness :
  let os := [OBegin PESSIMISTIC; OSet 1 (py "k") (py "v"); OGet 1 (py "k")] in
  exists e, locks (wstore (run new_world os).2) !! py "k" = Some e /\ exclusive e = Some 1 /\ 1 ∈ shared e /\ 1 = 1.
Proof.
  intros os. eexists. split; [vm_compute; reflexivity|]. split; [vm_compute; reflexivity|].
  assert (H : 1 ∈ shared (mkEntry {[1]} (Some 1))) by (simpl; set_solver). split; [exact H|].
  refine (tx_lock_compatibility os (py "k") _ 1 1 _ _ H); vm_compute; reflexivity.
Defined.

(** The snapshot is the largest committed id, so a transaction with a smaller
    id that commits later becomes visible to it.  Transaction 3 reads [k] twice
    and gets two answers; it then overwrites the value committed in between
    without a conflict being detected (a lost update). *)
Theorem tx_snapshot_not_stable :
  (run new_world [OBegin OPTIMISTIC; OBegin OPTIMISTIC; OCommit 2; OBegin OPTIMISTIC; OGet 3 (py "k");
     OSet 1 (py "k") (py "x"); OCommit 1; OGet 3 (py "k"); OSet 3 (py "k") (py "y"); OCommit 3]).1 =
  [RTx 1; RTx 2; RBool (Ok true); RTx 3; RVal (Ok None); RUnit (Ok tt); RBool (Ok true);
     RVal (Ok (Some (py "x"))); RUnit (Ok tt); RBool (Ok true)].
Proof. vm_compute. reflexivity. Qed.

(** [vacuum] compares with the ids, not the snapshots, of the active
    transactions: it deletes a version that active transaction 2 still reads. *)
Theorem tx_vacuum_unsafe :
  (run new_world [OBegin OPTIMISTIC; OSet 1 (py "k") (py "x"); OCommit 1; OBegin OPTIMISTIC; OGet 2 (py "k");
     OBegin OPTIMISTIC; OSet 3 (py "k") (py "y"); OCommit 3; OVacuum; OGet 2 (py "k")]).1 =
  [RTx 1; RUnit (Ok tt); RBool (Ok true); RTx 2; RVal (Ok (Some (py "x"))); RTx 3; RUnit (Ok tt);
     RBool (Ok true); RCount 1; RVal (Ok None)].
Proof. vm_compute. reflexivity. Qed.

(** [get_for_update] in optimistic mode takes an exclusive lock that neither
    [commit] nor [abort] releases, so the key stays locked for ever. *)
Theorem tx_for_update_leaks_lock :
  (run new_world [OBegin OPTIMISTIC; OGetForUpdate 1 (py "k"); OCommit 1; OBegin PESSIMISTIC;
     OSet 2 (py "k") (py "x")]).1 =
  [RTx 1; RVal (Ok None); RBool (Ok true); RTx 2; RUnit (Raise TimeoutError)].
Proof. vm_compute. reflexivity. Qed.
