(* ===== verification/Raft.v ===== *)
(** * Raft: [litedb-python/raft.py]

    [RaftNode] with its RPC handlers, and a cluster whose steps are the handlers
    run one at a time (each holds the node's lock).  The RPCs of the background
    threads are messages in flight, which may be delivered in any order or never;
    timers are not modelled: the election timer of a node that is not the leader
    may fire at any time.  The cluster also records, for the proofs only, the
    votes granted and the elections won. *)

From S2P Require Import Prelude.

(** ** Data *)

Inductive role := FOLLOWER | CANDIDATE | LEADER.

#[export] Instance role_eq_dec : EqDecision role.
Proof. solve_decision. Defined.

(** The commands the state machine knows; anything else is ignored. *)
Inductive command :=
| CSet (key value : str)
| CDelete (key : str)
| COther.

Record log_entry := mkLog { e_term : nat; e_index : nat; e_command : command }.

Record vote_request := mkVoteReq { vq_term : nat; vq_candidate : str; vq_last_index : nat; vq_last_term : nat }.
Record vote_response := mkVoteResp { vp_term : nat; vp_granted : bool; vp_voter : str }.
Record append_request := mkAppReq {
  aq_term : nat; aq_leader : str; aq_prev_index : nat; aq_prev_term : nat;
  aq_entries : list log_entry; aq_commit : nat }.
Record append_response := mkAppResp { ap_term : nat; ap_success : bool; ap_follower : str; ap_match : nat }.

Record node := mkNode {
  node_id : str;
  peers : list str;
  current_term : nat;
  voted_for : option str;
  log : list log_entry;
  commit_index : nat;
  last_applied : nat;
  next_index : gmap str nat;
  match_index : gmap str nat;
  nrole : role;
  leader_id : option str;
  votes_received : gset str;
  state_machine : gmap str str
}.

Definition new_node (id : str) (ps : list str) : node :=
  mkNode id ps 0 None [] 0 0 ∅ ∅ FOLLOWER None ∅ ∅.

Definition majority (n : node) : nat := Nat.div2 (length (peers n) + 1) + 1.
Definition last_log_term (n : node) : nat := match log n !! (length (log n) - 1) with Some e => e_term e | None => 0 end.

(** ** Roles *)

Definition become_follower (n : node) (term : nat) : node :=
  mkNode (node_id n) (peers n) term None (log n) (commit_index n) (last_applied n)
    (next_index n) (match_index n) FOLLOWER (leader_id n) (votes_received n) (state_machine n).

Definition become_leader (n : node) : node :=
  mkNode (node_id n) (peers n) (current_term n) (voted_for n) (log n) (commit_index n) (last_applied n)
    (foldl (fun m p => <[p := length (log n) + 1]> m) (next_index n) (peers n))
    (foldl (fun m p => <[p := 0]> m) (match_index n) (peers n))
    LEADER (Some (node_id n)) (votes_received n) (state_machine n).

(** [_start_election]: the candidate and the request it sends to every peer. *)
Definition start_election (n : node) : node * vote_request :=
  let n' := mkNode (node_id n) (peers n) (S (current_term n)) (Some (node_id n)) (log n)
    (commit_index n) (last_applied n) (next_index n) (match_index n) CANDIDATE (leader_id n)
    {[node_id n]} (state_machine n) in
  (n', mkVoteReq (current_term n') (node_id n') (length (log n')) (last_log_term n')).

Definition add_vote (n : node) (v : str) : node :=
  mkNode (node_id n) (peers n) (current_term n) (voted_for n) (log n) (commit_index n) (last_applied n)
    (next_index n) (match_index n) (nrole n) (leader_id n) ({[v]} ∪ votes_received n) (state_machine n).

Definition handle_vote_response (n : node) (r : vote_response) : node :=
  if decide (nrole n <> CANDIDATE) then n
  else if Nat.ltb (current_term n) (vp_term r) then become_follower n (vp_term r)
  else if vp_granted r && Nat.eqb (vp_term r) (current_term n) then
    let n := add_vote n (vp_voter r) in
    if Nat.leb (majority n) (size (votes_received n)) then become_leader n else n
  else n.

Definition set_vote (n : node) (c : str) : node :=
  mkNode (node_id n) (peers n) (current_term n) (Some c) (log n) (commit_index n) (last_applied n)
    (next_index n) (match_index n) (nrole n) (leader_id n) (votes_received n) (state_machine n).

Definition log_ok (n : node) (q : vote_request) : bool :=
  Nat.ltb (last_log_term n) (vq_last_term q) ||
  (Nat.eqb (vq_last_term q) (last_log_term n) && Nat.leb (length (log n)) (vq_last_index q)).

Definition may_vote (n : node) (c : str) : bool :=
  match voted_for n with None => true | Some v => v =s? c end.

Definition handle_vote_request (n : node) (q : vote_request) : vote_response * node :=
  let n := if Nat.ltb (current_term n) (vq_term q) then become_follower n (vq_term q) else n in
  let '(granted, n) :=
    if Nat.ltb (vq_term q) (current_term n) then (false, n)
    else if may_vote n (vq_candidate q) && log_ok n q then (true, set_vote n (vq_candidate q))
    else (false, n) in
  (mkVoteResp (current_term n) granted (node_id n), n).

(** ** Log replication *)

(** One committed entry on the state machine. *)
Definition apply_command (sm : gmap str str) (e : log_entry) : gmap str str :=
  match e_command e with
  | CSet k v => <[k := v]> sm
  | CDelete k => delete k sm
  | COther => sm
  end.

(** [_apply_committed]: the entries after [last_applied] up to [commit_index],
    which never passes the end of the log where this is called. *)
Definition apply_committed (n : node) : node :=
  mkNode (node_id n) (peers n) (current_term n) (voted_for n) (log n) (commit_index n)
    (Nat.max (last_applied n) (commit_index n)) (next_index n) (match_index n) (nrole n) (leader_id n)
    (votes_received n)
    (foldl apply_command (state_machine n)
       (take (commit_index n - last_applied n) (drop (last_applied n) (log n)))).

Definition set_commit (n : node) (i : nat) : node :=
  mkNode (node_id n) (peers n) (current_term n) (voted_for n) (log n) i (last_applied n)
    (next_index n) (match_index n) (nrole n) (leader_id n) (votes_received n) (state_machine n).

Definition replicas (n : node) (idx : nat) : nat :=
  S (length (filter (fun p => idx <= default 0 (match_index n !! p)) (peers n))).

(** The loop of [_advance_commit_index], from [idx] down to [commit_index]. *)
Fixpoint advance_loop (n : node) (idx : nat) : node :=
  match idx with
  | O => n
  | S i =>
      if Nat.leb idx (commit_index n) then n
      else
        match log n !! i with
        | None => n
        | Some e =>
            if negb (Nat.eqb (e_term e) (current_term n)) then advance_loop n i
            else if Nat.leb (majority n) (replicas n idx) then apply_committed (set_commit n idx)
            else advance_loop n i
        end
  end.
Definition advance_commit_index (n : node) : node := advance_loop n (length (log n)).

(** The request a leader sends to a peer. *)
Definition append_request_for (n : node) (p : str) : append_request :=
  let next_idx := default 1 (next_index n !! p) in
  let prev := next_idx - 1 in
  mkAppReq (current_term n) (node_id n) prev
    (if Nat.ltb 0 prev && Nat.leb prev (length (log n))
     then match log n !! (prev - 1) with Some e => e_term e | None => 0 end else 0)
    (drop (next_idx - 1) (log n)) (commit_index n).

Definition set_peer (n : node) (p : str) (mi ni : nat) : node :=
  mkNode (node_id n) (peers n) (current_term n) (voted_for n) (log n) (commit_index n) (last_applied n)
    (<[p := ni]> (next_index n)) (<[p := mi]> (match_index n)) (nrole n) (leader_id n)
    (votes_received n) (state_machine n).
Definition back_off (n : node) (p : str) : node :=
  mkNode (node_id n) (peers n) (current_term n) (voted_for n) (log n) (commit_index n) (last_applied n)
    (<[p := Nat.max 1 (default 1 (next_index n !! p) - 1)]> (next_index n)) (match_index n) (nrole n)
    (leader_id n) (votes_received n) (state_machine n).

(** The second half of [_send_append_entries]. *)
Definition handle_append_response (n : node) (p : str) (r : append_response) : node :=
  if Nat.ltb (current_term n) (ap_term r) then become_follower n (ap_term r)
  else if decide (nrole n <> LEADER) then n
  else if ap_success r then advance_commit_index (set_peer n p (ap_match r) (ap_match r + 1))
  else back_off n p.

(** The loop over the new entries. *)
Definition append_entry (l : list log_entry) (e : log_entry) : list log_entry :=
  let idx := e_index e in
  if Nat.leb idx (length l) then
    match l !! (idx - 1) with
    | Some e' => if negb (Nat.eqb (e_term e') (e_term e)) then take (idx - 1) l ++ [e] else l
    | None => l
    end
  else l ++ [e].

Definition set_log (n : node) (l : list log_entry) : node :=
  mkNode (node_id n) (peers n) (current_term n) (voted_for n) l (commit_index n) (last_applied n)
    (next_index n) (match_index n) (nrole n) (leader_id n) (votes_received n) (state_machine n).
Definition set_leader (n : node) (l : str) : node :=
  mkNode (node_id n) (peers n) (current_term n) (voted_for n) (log n) (commit_index n) (last_applied n)
    (next_index n) (match_index n) (nrole n) (Some l) (votes_received n) (state_machine n).

Definition handle_append_entries (n : node) (q : append_request) : append_response * node :=
  let n := if Nat.ltb (current_term n) (aq_term q) then become_follower n (aq_term q) else n in
  if Nat.ltb (aq_term q) (current_term n) then (mkAppResp (current_term n) false (node_id n) 0, n)
  else
    let n := set_leader n (aq_leader q) in
    let n := if decide (nrole n = CANDIDATE) then become_follower n (aq_term q) else n in
    let prev := aq_prev_index q in
    let reject n := (mkAppResp (current_term n) false (node_id n) (length (log n)), n) in
    if Nat.ltb 0 prev && Nat.ltb (length (log n)) prev then reject n
    else if Nat.ltb 0 prev &&
      match log n !! (prev - 1) with Some e => negb (Nat.eqb (e_term e) (aq_prev_term q)) | None => false end
    then reject (set_log n (take (prev - 1) (log n)))
    else
      let n := set_log n (foldl append_entry (log n) (aq_entries q)) in
      let n := if Nat.ltb (commit_index n) (aq_commit q)
               then apply_committed (set_commit n (Nat.min (aq_commit q) (length (log n)))) else n in
      (mkAppResp (current_term n) true (node_id n) (length (log n)), n).

(** ** Client API *)

Definition node_write (n : node) (c : command) : bool * node :=
  if decide (nrole n <> LEADER) then (false, n)
  else (true, set_log n (log n ++ [mkLog (current_term n) (length (log n) + 1) c])).

Definition node_read (n : node) (key : str) : option str := state_machine n !! key.

(** ** The cluster *)

Inductive msg :=
| VoteReq (to : str) (q : vote_request)
| VoteResp (to : str) (r : vote_response)
| AppendReq (to : str) (q : append_request)
| AppendResp (to peer : str) (r : append_response).

Record cluster := mkCluster {
  nodes : gmap str node;
  msgs : list msg;
  grants : gset (nat * str * str);            (* term, voter, candidate *)
  elected : list (nat * str * gset str)       (* term, leader, its votes *)
}.

Definition new_cluster (ids : list str) : cluster :=
  mkCluster (list_to_map (map (fun i => (i, new_node i (filter (fun p => p <> i) ids))) ids)) [] ∅ [].

Inductive event :=
| Timeout (n : str)            (* the election timer of [n] fires *)
| Deliver (i : nat)            (* message number [i] is handled *)
| Heartbeat (n p : str)        (* leader [n] sends to peer [p] *)
| Write (n : str) (c : command).

Definition deliver (c : cluster) (m : msg) (rest : list msg) : cluster :=
  match m with
  | VoteReq to q =>
      match nodes c !! to with
      | None => mkCluster (nodes c) rest (grants c) (elected c)
      | Some n =>
          let '(r, n') := handle_vote_request n q in
          mkCluster (<[to := n']> (nodes c)) (rest ++ [VoteResp (vq_candidate q) r])
            (if vp_granted r then {[(vp_term r, to, vq_candidate q)]} ∪ grants c else grants c) (elected c)
      end
  | VoteResp to r =>
      match nodes c !! to with
      | None => mkCluster (nodes c) rest (grants c) (elected c)
      | Some n =>
          let n' := handle_vote_response n r in
          mkCluster (<[to := n']> (nodes c)) rest (grants c)
            (if decide (nrole n = CANDIDATE /\ nrole n' = LEADER)
             then (current_term n', to, votes_received n') :: elected c else elected c)
      end
  | AppendReq to q =>
      match nodes c !! to with
      | None => mkCluster (nodes c) rest (grants c) (elected c)
      | Some n =>
          let '(r, n') := handle_append_entries n q in
          mkCluster (<[to := n']> (nodes c)) (rest ++ [AppendResp (aq_leader q) to r]) (grants c) (elected c)
      end
  | AppendResp to p r =>
      match nodes c !! to with
      | None => mkCluster (nodes c) rest (grants c) (elected c)
      | Some n => mkCluster (<[to := handle_append_response n p r]> (nodes c)) rest (grants c) (elected c)
      end
  end.

Definition cstep (c : cluster) (e : event) : cluster :=
  match e with
  | Timeout i =>
      match nodes c !! i with
      | Some n =>
          if decide (nrole n = LEADER) then c
          else let '(n', q) := start_election n in
               mkCluster (<[i := n']> (nodes c)) (msgs c ++ map (fun p => VoteReq p q) (peers n'))
                 (grants c) (elected c)
      | None => c
      end
  | Deliver i =>
      match msgs c !! i with
      | Some m => deliver c m (delete i (msgs c))
      | None => c
      end
  | Heartbeat i p =>
      match nodes c !! i with
      | Some n =>
          if decide (nrole n = LEADER /\ p ∈ peers n) then
            mkCluster (nodes c) (msgs c ++ [AppendReq p (append_request_for n p)]) (grants c) (elected c)
          else c
      | None => c
      end
  | Write i cmd =>
      match nodes c !! i with
      | Some n => mkCluster (<[i := (node_write n cmd).2]> (nodes c)) (msgs c) (grants c) (elected c)
      | None => c
      end
  end.

Definition crun (c : cluster) (es : list event) : cluster := foldl cstep c es.

(** ** [RaftCluster]: the client of the leader

    [ids] is the order in which the nodes were created. *)

Definition get_leader (ids : list str) (c : cluster) : option node :=
  snd <$> list_find (fun n => nrole n = LEADER) (omap (fun i => nodes c !! i) ids).

(** [write]: [None] when the wait loop has not returned after its first test. *)
Definition cluster_write (ids : list str) (c : cluster) (key value : str) : option bool * cluster :=
  match get_leader ids c with
  | None => (Some false, c)
  | Some l =>
      let '(ok, l') := node_write l (CSet key value) in
      let c' := mkCluster (<[node_id l := l']> (nodes c)) (msgs c) (grants c) (elected c) in
      if negb ok then (Some false, c')
      else (if Nat.leb (commit_index l') (last_applied l') then Some true else None, c')
  end.

Definition cluster_read (ids : list str) (c : cluster) (key : str) : option str :=
  match get_leader ids c with Some l => node_read l key | None => None end.

(** ** Election safety

    The invariant: what a granted vote and a won election say about the state
    of the nodes now. *)

(** A node keeps its vote for another candidate as long as its term lasts. *)
Definition keeps_vote (n : node) (t : nat) (c : str) : Prop :=
  t < current_term n \/ current_term n = t /\ nrole n = FOLLOWER /\ voted_for n = Some c.

(** A node that won term [t] is still its leader, or in a later term. *)
Definition keeps_lead (n : node) (t : nat) : Prop :=
  t < current_term n \/ current_term n = t /\ nrole n = LEADER /\ voted_for n = Some (node_id n).

Definition votes_for (g : gset (nat * str * str)) (t : nat) (c : str) (vs : gset str) : Prop :=
  forall v, v ∈ vs -> v = c \/ (t, v, c) ∈ g.

Record node_ok (ids : gset str) (c : cluster) (i : str) (n : node) : Prop := {
  no_id : node_id n = i;
  no_peers : forall p, p ∈ peers n <-> p ∈ ids /\ p <> i;
  no_majority : size ids < 2 * majority n;
  no_candidate : nrole n = CANDIDATE ->
    voted_for n = Some i /\ votes_received n ⊆ ids /\ votes_for (grants c) (current_term n) i (votes_received n);
  no_leader : nrole n = LEADER -> exists vs, (current_term n, i, vs) ∈ elected c
}.

Definition msg_ok (ids : gset str) (c : cluster) (m : msg) : Prop :=
  match m with
  | VoteReq to q => to <> vq_candidate q
  | VoteResp to r => vp_granted r = true -> vp_voter r ∈ ids /\ (vp_term r, vp_voter r, to) ∈ grants c
  | AppendReq _ _ | AppendResp _ _ _ => True
  end.

Record raft_inv (ids : gset str) (c : cluster) : Prop := {
  ri_dom : forall i, is_Some (nodes c !! i) <-> i ∈ ids;
  ri_node : forall i n, nodes c !! i = Some n -> node_ok ids c i n;
  ri_msg : forall m, m ∈ msgs c -> msg_ok ids c m;
  ri_grant : forall t v a, (t, v, a) ∈ grants c ->
    v <> a /\ (exists n, nodes c !! v = Some n /\ keeps_vote n t a) /\
    (forall b, (t, v, b) ∈ grants c -> a = b);
  ri_elected : forall t i vs, (t, i, vs) ∈ elected c ->
    vs ⊆ ids /\ size ids < 2 * size vs /\ votes_for (grants c) t i vs /\
    (exists n, nodes c !! i = Some n /\ keeps_lead n t) /\ (forall a, (t, i, a) ∉ grants c)
}.

Lemma elected_unique ids c t i j vi vj :
  raft_inv ids c -> (t, i, vi) ∈ elected c -> (t, j, vj) ∈ elected c -> i = j.
Proof.
  intros [_ _ _ Hg He] Hi Hj. destruct (decide (i = j)) as [->|Hne]; [done|exfalso].
  destruct (He _ _ _ Hi) as (Hi1 & Hi2 & Hi3 & _ & Hi5). destruct (He _ _ _ Hj) as (Hj1 & Hj2 & Hj3 & _ & Hj5).
  destruct (majorities_meet ids vi vj) as (x & Hxi & Hxj); auto.
  destruct (Hi3 x Hxi) as [->|Hx1]; [destruct (Hj3 _ Hxj) as [?|Hx2]; [done|by apply (Hi5 j)]|].
  destruct (Hj3 x Hxj) as [->|Hx2]; [by apply (Hj5 i)|].
  destruct (Hg _ _ _ Hx1) as (_ & _ & Huniq). by specialize (Huniq _ Hx2).
Qed.

(** A step that changes one node, without granting a vote or electing a leader. *)
Definition quiet (n n' : node) : Prop :=
  node_id n' = node_id n /\ peers n' = peers n /\
  ((current_term n < current_term n' /\ nrole n' = FOLLOWER) \/
   (current_term n' = current_term n /\
     (nrole n' = nrole n /\ voted_for n' = voted_for n /\ votes_received n' = votes_received n \/
      nrole n = CANDIDATE /\ nrole n' = FOLLOWER))).

Lemma quiet_same n n' :
  node_id n' = node_id n -> peers n' = peers n -> current_term n' = current_term n ->
  nrole n' = nrole n -> voted_for n' = voted_for n -> votes_received n' = votes_received n -> quiet n n'.
Proof. intros. split_and!; auto. right. auto. Qed.

Lemma quiet_follower n t : current_term n < t -> quiet n (become_follower n t).
Proof. intros Ht. split_and!; auto. Qed.

Lemma quiet_trans n1 n2 n3 : quiet n1 n2 -> quiet n2 n3 -> quiet n1 n3.
Proof.
  intros (Hi & Hp & H12) (Hi' & Hp' & H23). split_and!; try congruence.
  destruct H12 as [[Hlt Hr]|[Ht [(Hr & Hv & Hvs)|[Hr Hr']]]],
    H23 as [[Hlt' Hr2]|[Ht' [(Hr2 & Hv2 & Hvs2)|[Hr2 Hr2']]]];
    first [left; split; [lia|congruence] | right; split; [lia|left; split_and!; congruence]
          | right; split; [lia|right; split; congruence] | congruence].
Qed.

Lemma quiet_vote n n' t a : quiet n n' -> keeps_vote n t a -> keeps_vote n' t a.
Proof.
  intros (_ & _ & [[Hlt _]|[Ht [(Hr & Hv & _)|[Hr _]]]]) [H|(H1 & H2 & H3)]; unfold keeps_vote;
    rewrite ?Ht, ?Hr, ?Hv; try (left; lia); auto; congruence.
Qed.

Lemma quiet_lead n n' t : quiet n n' -> keeps_lead n t -> keeps_lead n' t.
Proof.
  intros (Hid & _ & [[Hlt _]|[Ht [(Hr & Hv & _)|[Hr _]]]]) [H|(H1 & H2 & H3)]; unfold keeps_lead;
    rewrite ?Ht, ?Hr, ?Hv, ?Hid; try (left; lia); auto; congruence.
Qed.

(** A cluster step that only changes node [i], quietly. *)
Lemma raft_inv_quiet ids c i n n' ms :
  raft_inv ids c -> nodes c !! i = Some n -> quiet n n' ->
  (forall m, m ∈ ms -> msg_ok ids c m) ->
  raft_inv ids (mkCluster (<[i := n']> (nodes c)) ms (grants c) (elected c)).
Proof.
  intros [Hd Hn Hm Hg He] Hi Hq Hms. pose proof (Hn i n Hi) as [Hid Hps Hmaj Hcd Hld].
  split; simpl; auto.
  - intros j. rewrite <- Hd. destruct (decide (j = i)) as [->|Hne];
      [rewrite lookup_insert_eq, Hi|by rewrite lookup_insert_ne]. split; by eexists.
  - intros j m. destruct (decide (j = i)) as [->|Hne]; [|rewrite lookup_insert_ne by done; intros Hj; by apply Hn in Hj as []].
    rewrite lookup_insert_eq. intros [= <-]. destruct Hq as (Qid & Qps & Hq). split; simpl.
    + congruence.
    + by rewrite Qps.
    + unfold majority. by rewrite Qps.
    + intros Hr. destruct Hq as [[_ ?]|[Ht [(Hr' & Hv & Hvs)|[_ ?]]]]; try congruence.
      rewrite Hv, Hvs, Ht. apply Hcd. congruence.
    + intros Hr. destruct Hq as [[_ ?]|[Ht [(Hr' & Hv & Hvs)|[_ ?]]]]; try congruence.
      rewrite Ht. apply Hld. congruence.
  - intros t v a Hta. destruct (Hg t v a Hta) as (? & (m & Hm' & Hk) & ?). split_and!; auto.
    destruct (decide (v = i)) as [->|Hne]; [|exists m; by rewrite lookup_insert_ne].
    exists n'. rewrite lookup_insert_eq. split; [done|]. eapply quiet_vote; [done|]. congruence.
  - intros t j vs Hj. destruct (He t j vs Hj) as (? & ? & ? & (m & Hm' & Hk) & ?). split_and!; auto.
    destruct (decide (j = i)) as [->|Hne]; [|exists m; by rewrite lookup_insert_ne].
    exists n'. rewrite lookup_insert_eq. split; [done|]. eapply quiet_lead; [done|]. congruence.
Qed.

(** ** The handlers are quiet *)

Lemma quiet_advance n i : quiet n (advance_loop n i).
Proof.
  induction i as [|i IH]; [by apply quiet_same|]. cbn [advance_loop].
  destruct (Nat.leb _ _); [by apply quiet_same|]. destruct (log n !! i); [|by apply quiet_same].
  destruct (negb _); [done|]. destruct (Nat.leb _ _); [by apply quiet_same|done].
Qed.

Lemma quiet_append_response n p r : quiet n (handle_append_response n p r).
Proof.
  unfold handle_append_response. destruct (Nat.ltb_spec (current_term n) (ap_term r)).
  - by apply quiet_follower.
  - case_decide; [by apply quiet_same|]. destruct (ap_success r); [|by apply quiet_same].
    eapply quiet_trans; [|apply quiet_advance]. by apply quiet_same.
Qed.

Lemma quiet_see_term n t : quiet n (if Nat.ltb (current_term n) t then become_follower n t else n).
Proof. destruct (Nat.ltb_spec (current_term n) t); [by apply quiet_follower|by apply quiet_same]. Qed.

Lemma quiet_append_entries n q : quiet n (handle_append_entries n q).2.
Proof.
  unfold handle_append_entries. pose proof (quiet_see_term n (aq_term q)) as H1.
  assert (Hle : current_term (if Nat.ltb (current_term n) (aq_term q) then become_follower n (aq_term q) else n)
    >= aq_term q) by (destruct (Nat.ltb_spec (current_term n) (aq_term q)); simpl; lia).
  revert H1 Hle. generalize (if Nat.ltb (current_term n) (aq_term q) then become_follower n (aq_term q) else n).
  intros n1 H1 Hle. destruct (Nat.ltb_spec (aq_term q) (current_term n1)) as [Hlt|Hge]; [done|].
  eapply quiet_trans; [exact H1|].
  set (n2 := if decide (nrole (set_leader n1 (aq_leader q)) = CANDIDATE) then _ else _).
  assert (H2 : quiet n1 n2).
  { unfold n2. case_decide as Hr; [|by apply quiet_same]. split_and!; auto. right. simpl in *.
    split; [lia|]. by right. }
  eapply quiet_trans; [exact H2|].
  destruct (_ && _); [by apply quiet_same|]. destruct (_ && _); [by apply quiet_same|].
  simpl. destruct (Nat.ltb _ _); by apply quiet_same.
Qed.

Lemma quiet_write n cmd : quiet n (node_write n cmd).2.
Proof. unfold node_write. case_decide; by apply quiet_same. Qed.

(** ** Elections *)

Lemma msgs_delete ids c i m : raft_inv ids c -> m ∈ delete i (msgs c) -> msg_ok ids c m.
Proof.
  intros Hc Hm. apply (ri_msg _ _ Hc). eapply elem_of_submseteq; [exact Hm|].
  apply sublist_submseteq, sublist_delete.
Qed.

(** The other nodes after node [i] changed. *)
Lemma other_nodes c i n' j m :
  j <> i -> (<[i := n']> (nodes c)) !! j = Some m -> nodes c !! j = Some m.
Proof. intros Hne. by rewrite lookup_insert_ne. Qed.

Lemma raft_inv_timeout ids c i n :
  raft_inv ids c -> nodes c !! i = Some n -> nrole n <> LEADER ->
  let '(n', q) := start_election n in
  raft_inv ids (mkCluster (<[i := n']> (nodes c)) (msgs c ++ map (fun p => VoteReq p q) (peers n'))
                  (grants c) (elected c)).
Proof.
  intros [Hd Hn Hm Hg He] Hi Hr. pose proof (Hn i n Hi) as [Hid Hps Hmaj Hcd Hld].
  assert (Hin : i ∈ ids) by (apply Hd; by eexists). split; simpl.
  - intros j. rewrite <- Hd. destruct (decide (j = i)) as [->|Hne];
      [rewrite lookup_insert_eq, Hi|by rewrite lookup_insert_ne]. split; by eexists.
  - intros j m. destruct (decide (j = i)) as [->|Hne];
      [|intros Hj%other_nodes; [|done]; by apply Hn in Hj as []].
    rewrite lookup_insert_eq. intros [= <-]. split; simpl; auto; [|done]. intros _.
    rewrite Hid. split_and!; auto; [set_solver|]. intros v Hv. left. set_solver.
  - intros m [Hmm|Hmm]%elem_of_app; [by apply Hm|]. apply list_elem_of_fmap in Hmm as (p & -> & Hp).
    simpl. apply Hps in Hp. rewrite Hid. tauto.
  - intros t v a Hta. destruct (Hg t v a Hta) as (? & (m & Hm' & Hk) & ?). split_and!; auto.
    destruct (decide (v = i)) as [->|Hne]; [|exists m; by rewrite lookup_insert_ne].
    eexists. rewrite lookup_insert_eq. split; [done|]. left. simpl.
    assert (m = n) as -> by congruence. destruct Hk as [?|[? _]]; lia.
  - intros t j vs Hj. destruct (He t j vs Hj) as (? & ? & ? & (m & Hm' & Hk) & ?). split_and!; auto.
    destruct (decide (j = i)) as [->|Hne]; [|exists m; by rewrite lookup_insert_ne].
    eexists. rewrite lookup_insert_eq. split; [done|]. left. simpl.
    assert (m = n) as -> by congruence. destruct Hk as [?|[? _]]; lia.
Qed.

(** The state of a voter just before it grants its vote. *)
Lemma voter_is_follower ids c i n a t :
  raft_inv ids c -> nodes c !! i = Some n -> a <> i -> current_term n <= t ->
  let n1 := if Nat.ltb (current_term n) t then become_follower n t else n in
  may_vote n1 a = true -> current_term n1 = t /\ nrole n1 = FOLLOWER /\ node_id n1 = i /\
    (current_term n = t -> voted_for n = None \/ voted_for n = Some a).
Proof.
  intros Hc Hi Hai Hle n1 Hmv. destruct (ri_node _ _ Hc i n Hi) as [Hid Hps Hmaj Hcd Hld].
  unfold n1 in *. destruct (Nat.ltb_spec (current_term n) t) as [Hlt|Hge]; simpl in *.
  - split_and!; auto. lia.
  - assert (Ht : current_term n = t) by lia. unfold may_vote in Hmv.
    assert (Hv : voted_for n = None \/ voted_for n = Some a)
      by (destruct (voted_for n); [str_bool; subst; by right|by left]).
    split_and!; auto. destruct (nrole n) eqn:Hr; [done| |].
    + destruct Hcd as [Hself _]; [done|]. rewrite Hself in Hv. by destruct Hv as [|[= ->]].
    + destruct Hld as [vs Hvs]; [done|]. destruct (ri_elected _ _ Hc _ _ _ Hvs) as (_ & _ & _ & (m & Hm & Hk) & _).
      assert (m = n) as -> by congruence. destruct Hk as [?|(_ & _ & Hself)]; [lia|].
      rewrite Hself, Hid in Hv. by destruct Hv as [|[= ->]].
Qed.

Lemma raft_inv_grant ids c i n a t ms :
  raft_inv ids c -> nodes c !! i = Some n -> a <> i -> current_term n <= t ->
  let n1 := if Nat.ltb (current_term n) t then become_follower n t else n in
  may_vote n1 a = true ->
  (forall m, m ∈ ms -> msg_ok ids c m) ->
  raft_inv ids (mkCluster (<[i := set_vote n1 a]> (nodes c)) (ms ++ [VoteResp a (mkVoteResp t true i)])
                  ({[(t, i, a)]} ∪ grants c) (elected c)).
Proof.
  intros Hc Hi Hai Hle n1 Hmv Hms.
  destruct (voter_is_follower ids c i n a t Hc Hi Hai Hle Hmv) as (Ht1 & Hr1 & Hid1 & Hold). fold n1 in Ht1, Hr1, Hid1.
  destruct Hc as [Hd Hn Hm Hg He]. pose proof (Hn i n Hi) as [Hid Hps Hmaj Hcd Hld].
  assert (Hps1 : peers n1 = peers n) by (unfold n1; by destruct (Nat.ltb _ _)).
  assert (Hin : i ∈ ids) by (apply Hd; by eexists).
  assert (Hsub : forall u k vs, votes_for (grants c) u k vs -> votes_for ({[(t, i, a)]} ∪ grants c) u k vs)
    by (intros u k vs H v Hv; destruct (H v Hv); [by left|right; set_solver]).
  assert (Holdg : forall b, (t, i, b) ∈ grants c -> a = b).
  { intros b Hb. destruct (Hg t i b Hb) as (_ & (m & Hm' & Hk) & _). assert (m = n) as -> by congruence.
    destruct Hk as [?|(E & _ & Hv)]; [lia|]. destruct (Hold E); congruence. }
  assert (Hlead : forall vs, (t, i, vs) ∉ elected c).
  { intros vs Hvs. destruct (He _ _ _ Hvs) as (_ & _ & _ & (m & Hm' & Hk) & _). assert (m = n) as -> by congruence.
    destruct Hk as [?|(E & Hr & Hv)]; [lia|]. destruct (Hold E); congruence. }
  split; simpl.
  - intros j. rewrite <- Hd. destruct (decide (j = i)) as [->|Hne];
      [rewrite lookup_insert_eq, Hi|by rewrite lookup_insert_ne]. split; by eexists.
  - intros j m. destruct (decide (j = i)) as [->|Hne].
    + rewrite lookup_insert_eq. intros [= <-]. split; simpl; try congruence.
      * by rewrite Hps1.
      * unfold majority in *. simpl. by rewrite Hps1.
    + intros Hj%other_nodes; [|done]. destruct (Hn _ _ Hj) as [? ? ? Hcj ?]. split; auto.
      intros Hrj. destruct (Hcj Hrj) as (? & ? & ?). split_and!; simpl; auto.
  - intros m [Hmm|Hmm]%elem_of_app.
    + specialize (Hms m Hmm). destruct m; simpl in *; auto. intros Hgr. destruct (Hms Hgr). split; [done|set_solver].
    + apply list_elem_of_singleton in Hmm as ->. simpl. intros _. split; [done|set_solver].
  - intros u v b [[= -> -> ->]%elem_of_singleton|Hub]%elem_of_union.
    + split_and!; auto.
      * eexists. rewrite lookup_insert_eq. split; [done|]. right. split_and!; auto.
      * intros b' [[= ->]%elem_of_singleton|Hb']%elem_of_union; auto.
    + destruct (Hg u v b Hub) as (? & (m & Hm' & Hk) & Hun). split_and!; auto.
      * destruct (decide (v = i)) as [->|Hne]; [|exists m; by rewrite lookup_insert_ne].
        eexists. rewrite lookup_insert_eq. split; [done|]. assert (m = n) as -> by congruence.
        unfold keeps_vote in *. simpl. rewrite Ht1. destruct Hk as [?|(E & _ & Hv)]; [left; lia|].
        destruct (decide (u = t)) as [->|]; [|left; lia]. right. split_and!; auto. f_equal.
        destruct (Hold E); congruence.
      * intros b' [[= -> -> ->]%elem_of_singleton|Hb']%elem_of_union; auto. symmetry. auto.
  - intros u j vs Hj. destruct (He u j vs Hj) as (? & ? & ? & (m & Hm' & Hk) & Hno). split_and!; auto.
    + destruct (decide (j = i)) as [->|Hne]; [|exists m; by rewrite lookup_insert_ne].
      eexists. rewrite lookup_insert_eq. split; [done|]. assert (m = n) as -> by congruence.
      left. simpl. rewrite Ht1. destruct Hk as [?|(E & _)]; [lia|].
      destruct (decide (u = t)) as [->|]; [by apply Hlead in Hj|lia].
    + intros b [[= -> -> ->]%elem_of_singleton|Hb]%elem_of_union; [by apply Hlead in Hj|by apply (Hno b)].
Qed.

(** A vote arrives at a candidate. *)
Lemma raft_inv_vote ids c i n v ms :
  raft_inv ids c -> nodes c !! i = Some n -> nrole n = CANDIDATE -> v ∈ ids ->
  (current_term n, v, i) ∈ grants c -> (forall m, m ∈ ms -> msg_ok ids c m) ->
  let n1 := add_vote n v in
  let n' := if Nat.leb (majority n1) (size (votes_received n1)) then become_leader n1 else n1 in
  raft_inv ids (mkCluster (<[i := n']> (nodes c)) ms (grants c)
    (if decide (nrole n = CANDIDATE /\ nrole n' = LEADER)
     then (current_term n', i, votes_received n') :: elected c else elected c)).
Proof.
  intros Hc Hi Hr Hv Hgr Hms n1 n'. pose proof Hc as [Hd Hn Hm Hg He].
  pose proof (Hn i n Hi) as [Hid Hps Hmaj Hcd Hld]. destruct (Hcd Hr) as (Hvf & Hvs & Hfor).
  assert (Hn' : node_id n' = i /\ peers n' = peers n /\ current_term n' = current_term n /\
    voted_for n' = Some i /\ votes_received n' = {[v]} ∪ votes_received n /\
    (nrole n' = CANDIDATE \/ nrole n' = LEADER /\ majority n <= size (votes_received n'))).
  { unfold n'. destruct (Nat.leb_spec (majority n1) (size (votes_received n1))) as [Hl|Hl]; simpl; split_and!; auto. }
  destruct Hn' as (Eid & Eps & Et & Evf & Evs & Erole).
  assert (Hfor' : votes_for (grants c) (current_term n) i (votes_received n')).
  { intros x. rewrite Evs. intros [->%elem_of_singleton|Hx]%elem_of_union; [by right|by apply Hfor]. }
  assert (Hsub' : votes_received n' ⊆ ids) by (rewrite Evs; set_solver).
  set (el := if decide _ then _ else _).
  assert (Hel : forall x, x ∈ elected c -> x ∈ el) by (unfold el; intros x Hx; case_decide; [by right|done]).
  split; simpl; auto.
  - intros j. rewrite <- Hd. destruct (decide (j = i)) as [->|Hne];
      [rewrite lookup_insert_eq, Hi|by rewrite lookup_insert_ne]. split; by eexists.
  - intros j m. destruct (decide (j = i)) as [->|Hne].
    + rewrite lookup_insert_eq. intros [= <-]. split; simpl; auto.
      * by rewrite Eps.
      * unfold majority in *. by rewrite Eps.
      * intros _. by rewrite Et.
      * intros Hl. rewrite Et. exists (votes_received n'). unfold el. rewrite decide_True by done.
        rewrite Et. left.
    + intros Hj%other_nodes; [|done]. destruct (Hn _ _ Hj) as [? ? ? Hcj Hlj]. split; auto.
      intros Hl. destruct (Hlj Hl) as [vs ?]. exists vs. auto.
  - intros t w a Hta. destruct (Hg t w a Hta) as (? & (m & Hm' & Hk) & ?). split_and!; auto.
    destruct (decide (w = i)) as [->|Hne]; [|exists m; by rewrite lookup_insert_ne].
    exists n'. rewrite lookup_insert_eq. split; [done|]. assert (m = n) as -> by congruence.
    left. rewrite Et. destruct Hk as [?|(_ & ? & _)]; [done|congruence].
  - assert (Hold : forall t j vs, (t, j, vs) ∈ elected c ->
      exists m, (<[i := n']> (nodes c)) !! j = Some m /\ keeps_lead m t).
    { intros t j vs Hj. destruct (He t j vs Hj) as (_ & _ & _ & (m & Hm' & Hk) & _).
      destruct (decide (j = i)) as [->|Hne]; [|exists m; by rewrite lookup_insert_ne].
      exists n'. rewrite lookup_insert_eq. split; [done|]. assert (m = n) as -> by congruence.
      left. rewrite Et. destruct Hk as [?|(_ & ? & _)]; [done|congruence]. }
    intros t j vs. unfold el. case_decide as Hl.
    + intros [[= -> -> ->]|Hj]%elem_of_cons.
      * destruct Hl as [_ Hl]. destruct Erole as [?|[_ Hsz]]; [congruence|]. split_and!; auto.
        -- lia.
        -- by rewrite Et.
        -- exists n'. rewrite lookup_insert_eq. split; [done|]. right. rewrite Eid. auto.
        -- intros a Ha. rewrite Et in Ha. destruct (Hg _ _ _ Ha) as (_ & (m & Hm' & Hk) & _).
           assert (m = n) as -> by congruence. destruct Hk as [?|(_ & ? & _)]; [lia|congruence].
      * destruct (He t j vs Hj) as (? & ? & ? & _ & ?). split_and!; eauto.
    + intros Hj. destruct (He t j vs Hj) as (? & ? & ? & _ & ?). split_and!; eauto.
Qed.

(** A message that reaches nobody is dropped. *)
Lemma raft_inv_msgs ids c ms :
  raft_inv ids c -> (forall m, m ∈ ms -> msg_ok ids c m) ->
  raft_inv ids (mkCluster (nodes c) ms (grants c) (elected c)).
Proof.
  intros [Hd Hn Hm Hg He] Hms. split; auto. intros i n Hi. destruct (Hn i n Hi). by split.
Qed.

(** Handling a vote request. *)
Lemma raft_inv_vote_request ids c to q ms :
  raft_inv ids c -> to <> vq_candidate q -> (forall m, m ∈ ms -> msg_ok ids c m) ->
  raft_inv ids (deliver c (VoteReq to q) ms).
Proof.
  intros Hc Hne Hms. simpl. destruct (nodes c !! to) as [n|] eqn:Hi.
  2: { by apply raft_inv_msgs. }
  pose proof (no_id _ _ _ _ (ri_node _ _ Hc _ _ Hi)) as Hid.
  unfold handle_vote_request.
  set (n1 := if Nat.ltb (current_term n) (vq_term q) then become_follower n (vq_term q) else n).
  assert (Hq1 : quiet n n1) by apply quiet_see_term.
  assert (Hrej : raft_inv ids (mkCluster (<[to := n1]> (nodes c))
    (ms ++ [VoteResp (vq_candidate q) (mkVoteResp (current_term n1) false (node_id n1))]) (grants c) (elected c))).
  { eapply raft_inv_quiet; eauto. intros m [Hm|Hm%list_elem_of_singleton]%elem_of_app; [by apply Hms|by subst]. }
  destruct (Nat.ltb_spec (vq_term q) (current_term n1)) as [Hlt|Hge]; [done|].
  destruct (may_vote n1 (vq_candidate q) && log_ok n1 q) eqn:Hv; [|done].
  apply andb_true_iff in Hv as [Hmv _]. simpl.
  assert (Hle : current_term n <= vq_term q)
    by (unfold n1 in Hge; destruct (Nat.ltb_spec (current_term n) (vq_term q)); lia).
  destruct (voter_is_follower ids c to n (vq_candidate q) (vq_term q) Hc Hi) as (Ht1 & _ & Hid1 & _); auto.
  fold n1 in Ht1, Hid1. rewrite Ht1, Hid1. apply raft_inv_grant; auto.
Qed.

(** Handling a vote response. *)
Lemma raft_inv_vote_response ids c to r ms :
  raft_inv ids c -> msg_ok ids c (VoteResp to r) -> (forall m, m ∈ ms -> msg_ok ids c m) ->
  raft_inv ids (deliver c (VoteResp to r) ms).
Proof.
  intros Hc Hok Hms. simpl. destruct (nodes c !! to) as [n|] eqn:Hi.
  2: { by apply raft_inv_msgs. }
  assert (Hquiet : forall n', quiet n n' -> (nrole n = CANDIDATE -> nrole n' <> LEADER) ->
    raft_inv ids (mkCluster (<[to := n']> (nodes c)) ms (grants c)
      (if decide (nrole n = CANDIDATE /\ nrole n' = LEADER)
       then (current_term n', to, votes_received n') :: elected c else elected c))).
  { intros n' Hq Hnl. rewrite decide_False by naive_solver. by eapply raft_inv_quiet. }
  unfold handle_vote_response.
  destruct (decide (nrole n <> CANDIDATE)) as [Hr|Hr]; [apply (Hquiet n); [by apply quiet_same|congruence]|].
  apply dec_stable in Hr. destruct (Nat.ltb_spec (current_term n) (vp_term r)).
  { apply (Hquiet (become_follower n (vp_term r))); [by apply quiet_follower|done]. }
  destruct (vp_granted r && Nat.eqb (vp_term r) (current_term n)) eqn:Hg.
  2: { apply (Hquiet n); [by apply quiet_same|congruence]. }
  apply andb_true_iff in Hg as [Hg Ht%Nat.eqb_eq]. simpl in Hok. destruct (Hok Hg) as [Hv Hgr].
  rewrite Ht in Hgr. by apply raft_inv_vote.
Qed.

Lemma raft_inv_step ids c e : raft_inv ids c -> raft_inv ids (cstep c e).
Proof.
  intros Hc. destruct e as [i|k|i p|i cmd]; simpl.
  - destruct (nodes c !! i) as [n|] eqn:Hi; [|done]. case_decide; [done|].
    by apply (raft_inv_timeout ids c i n).
  - destruct (msgs c !! k) as [m|] eqn:Hk; [|done].
    pose proof (ri_msg _ _ Hc m (list_elem_of_lookup_2 _ _ _ Hk)) as Hm.
    pose proof (fun m' => msgs_delete ids c k m' Hc) as Hms.
    destruct m as [to q|to r|to q|to p r].
    + by apply raft_inv_vote_request.
    + by apply raft_inv_vote_response.
    + simpl. destruct (nodes c !! to) as [n|] eqn:Hi; [|by apply raft_inv_msgs].
      pose proof (quiet_append_entries n q) as Hq. destruct (handle_append_entries n q) as [r n'].
      eapply raft_inv_quiet; eauto. intros m [Hmm|Hmm%list_elem_of_singleton]%elem_of_app; [by apply Hms|by subst].
    + simpl. destruct (nodes c !! to) as [n|] eqn:Hi; [|by apply raft_inv_msgs].
      eapply raft_inv_quiet; eauto using quiet_append_response.
  - destruct (nodes c !! i) as [n|] eqn:Hi; [|done]. case_decide; [|done].
    pose proof (ri_msg _ _ Hc) as Hmm. apply raft_inv_msgs; [done|].
    intros m [Hm|Hm%list_elem_of_singleton]%elem_of_app; [by apply Hmm|by subst].
  - destruct (nodes c !! i) as [n|] eqn:Hi; [|done].
    eapply raft_inv_quiet; eauto using quiet_write. apply (ri_msg _ _ Hc).
Qed.

Lemma raft_inv_run ids es : forall c, raft_inv ids c -> raft_inv ids (crun c es).
Proof. induction es as [|e es IH]; intros c Hc; [done|]. simpl. by apply IH, raft_inv_step. Qed.

Lemma filter_other_length (ids : list str) i :
  NoDup ids -> i ∈ ids -> length (filter (fun p => p <> i) ids) + 1 = length ids.
Proof.
  intros Hd Hi. apply list_elem_of_split in Hi as (l1 & l2 & ->).
  apply list.NoDup_app in Hd as (_ & Hd1 & Hd2). apply list.NoDup_cons in Hd2 as [Hn2 _].
  assert (Hid : forall l : list str, i ∉ l -> filter (fun p => p <> i) l = l).
  { induction l as [|x l IH]; intros Hl; [done|]. rewrite filter_cons_True by set_solver.
    f_equal. apply IH. set_solver. }
  rewrite list.filter_app, filter_cons_False, !Hid, !length_app by (auto; intros H; apply (Hd1 i H); left).
  simpl. lia.
Qed.

Lemma raft_inv_new ids : NoDup ids -> raft_inv (list_to_set ids) (new_cluster ids).
Proof.
  intros Hd. unfold new_cluster. set (f := fun i => (i, new_node i (filter (fun p => p <> i) ids))).
  assert (Hk : forall l, (map f l).*1 = l) by (induction l; simpl; f_equal; auto).
  assert (Hlk : forall i n, (list_to_map (map f ids) : gmap str node) !! i = Some n ->
    i ∈ ids /\ n = new_node i (filter (fun p => p <> i) ids)).
  { intros i n Hin%elem_of_list_to_map_2. apply list_elem_of_fmap in Hin as (j & [= -> ->] & Hj). done. }
  split; simpl; try set_solver.
  - intros i. rewrite elem_of_list_to_set. split; [by intros [n [Hi _]%Hlk]|]. intros Hi.
    exists (f i).2. apply elem_of_list_to_map_1; [by rewrite Hk|]. apply list_elem_of_fmap. by exists i.
  - intros i n [Hi ->]%Hlk. split; simpl; try done.
    + intros p. rewrite list_elem_of_filter, elem_of_list_to_set. tauto.
    + unfold majority. simpl. rewrite filter_other_length by done. rewrite size_list_to_set by done.
      rewrite Nat.div2_div. pose proof (Nat.div_mod_eq (length ids) 2).
      pose proof (Nat.mod_upper_bound (length ids) 2). lia.
Qed.

(** ** Theorems *)

(** C8: election safety.  In every run of a cluster, whatever timers fire and in
    whatever order messages arrive, two nodes that are leaders in the same term
    are the same node. *)
Theorem raft_election_safety ids es i j n m :
  let c := crun (new_cluster ids) es in
  NoDup ids -> nodes c !! i = Some n -> nodes c !! j = Some m ->
  nrole n = LEADER -> nrole m = LEADER -> current_term n = current_term m -> i = j.
Proof.
  intros c Hd Hi Hj Hn Hm Ht.
  assert (Hc : raft_inv (list_to_set ids) c) by (by apply raft_inv_run, raft_inv_new).
  destruct (no_leader _ _ _ _ (ri_node _ _ Hc _ _ Hi) Hn) as [vi Hvi].
  destruct (no_leader _ _ _ _ (ri_node _ _ Hc _ _ Hj) Hm) as [vj Hvj].
  rewrite Ht in Hvi. by eapply elected_unique.
Qed.

(** Three nodes; A is elected in term 1 by B. *)
Definition three : list str := [py "A"; py "B"; py "C"].
Definition elect_A : list event := [Timeout (py "A"); Deliver 0; Deliver 1].

Lemma raft_election_safety_witness :
  let c := crun (new_cluster three) elect_A in
  exists n, nodes c !! py "A" = Some n /\ nrole n = LEADER /\ py "A" = py "A".
Proof.
  intros c. eexists. split; [vm_compute; reflexivity|]. split; [reflexivity|].
  refine (raft_election_safety three elect_A (py "A") (py "A") _ _ _ _ _ _ _ eq_refl);
    first [apply (bool_decide_eq_true_1 _); vm_compute; reflexivity | vm_compute; reflexivity].
Defined.

(** B is elected in term 2 while A holds a stale entry [x] of term 1.  A's answer
    to an empty heartbeat reports the length of its log as replicated, so B counts
    A's stale entry as a copy of its own entry [y] and commits [y] alone.  A is then
    elected in term 3 by C and commits [x] at the same index. *)
Definition split_brain : list event :=
  elect_A ++
  [Write (py "A") (CSet (py "k") (py "x"));
   Timeout (py "B"); Deliver 2; Deliver 2;
   Heartbeat (py "B") (py "A"); Heartbeat (py "B") (py "C");
   Deliver 2; Deliver 3; Deliver 2;
   Write (py "B") (CSet (py "k") (py "y")); Deliver 2;
   Timeout (py "A"); Deliver 3; Deliver 3;
   Write (py "A") COther; Heartbeat (py "A") (py "C"); Deliver 3; Deliver 3;
   Heartbeat (py "A") (py "C"); Deliver 3; Deliver 3].

(** Commits are not safe.  In a run of three nodes two of them apply different
    commands at log index 1: after it, A's state machine holds [k = x] and B's
    holds [k = y], both committed. *)
Theorem raft_commit_unsafe :
  let c := crun (new_cluster three) split_brain in
  exists a b, nodes c !! py "A" = Some a /\ nodes c !! py "B" = Some b /\
    node_read a (py "k") = Some (py "x") /\ node_read b (py "k") = Some (py "y") /\
    1 <= commit_index a /\ 1 <= commit_index b.
Proof.
  intros c. eexists _, _. split; [vm_compute; reflexivity|]. split; [vm_compute; reflexivity|].
  split_and!; first [reflexivity | vm_compute; lia].
Qed.

(** A commit index never moves backwards and, when it moves on a leader, it
    moves to an entry of the leader's current term that a majority of match
    indices covers. *)
Theorem raft_advance_commit n :
  commit_index n <= commit_index (advance_commit_index n) /\
  (commit_index (advance_commit_index n) <> commit_index n ->
     exists e, log n !! (commit_index (advance_commit_index n) - 1) = Some e /\
       e_term e = current_term n /\ majority n <= replicas n (commit_index (advance_commit_index n))).
Proof.
  unfold advance_commit_index. generalize (length (log n)). intros i. induction i as [|i IH]; [done|].
  cbn [advance_loop]. destruct (Nat.leb_spec (S i) (commit_index n)); [done|].
  destruct (log n !! i) as [e|] eqn:He; [|done].
  destruct (Nat.eqb_spec (e_term e) (current_term n)) as [Et|Et]; simpl; [|done].
  destruct (Nat.leb_spec (majority n) (replicas n (S i))) as [Hm|Hm]; [|done].
  simpl. split; [lia|]. intros _. exists e. rewrite Nat.sub_0_r. auto.
Qed.

(** [RaftCluster.write] answers True before its entry is committed: it waits for
    [last_applied >= commit_index], which holds at once.  No other node has the
    entry, the leader has not committed it and a read does not see it. *)
Theorem raft_write_not_durable :
  let c := crun (new_cluster three) elect_A in
  let '(r, c') := cluster_write three c (py "k") (py "v") in
  r = Some true /\ cluster_read three c' (py "k") = None /\
  (forall i n, nodes c' !! i = Some n -> commit_index n = 0) /\
  (exists b, nodes c' !! py "B" = Some b /\ log b = []).
Proof.
  vm_compute cluster_write. cbv beta iota. split; [reflexivity|]. split; [vm_compute; reflexivity|]. split.
  - intros i n Hi. apply elem_of_map_to_list in Hi. revert Hi.
    match goal with |- _ ∈ map_to_list ?m -> _ => set (l := map_to_list m); vm_compute in l end.
    unfold l. intros Hi. repeat (apply elem_of_cons in Hi as [[= -> ->]|Hi]; [reflexivity|]).
    by apply not_elem_of_nil in Hi.
  - eexists. split; vm_compute; reflexivity.
Qed.
