(* ===== verification/Sharding.v ===== *)
(** * Consistent hashing: [litedb-python/sharding.py] and [litedb-python/partition.py]

    [ConsistentHashRing], [ShardedStore] and [Partitioner].  The operations are
    parametrised by the hash function, which may raise; [_hash], built on [hashlib.md5], is
    the instance the code uses, and raises on keys that UTF-8 cannot encode.  Python's [dict] of shards keeps its insertion order in
    [shard_order]; percentages of [load_distribution] are kept as (size, total).

    The theorems show that a lookup finds the owner of the nearest position
    clockwise, that adding a node moves keys only to the new node and removing one
    moves only its keys, that the replicas of a key are distinct nodes, and that a
    store with one copy per key refines a map across rebalancing. *)

From S2P Require Import Prelude PyStd Md5.

Local Open Scope N_scope.

(** Positions on the ring. *)
Definition RING_SIZE : N := 4294967296.

Definition _hash (key : str) : res N := bs ← utf8_encode key; Ok (of_digits 256 (md5 bs) mod RING_SIZE).

Record VNode := mkVNode { position : N; node_id : str; vnode_id : nat }.

Record ring := Ring {
  vnodes_per_node : nat;
  positions : list N;               (* [_ring] *)
  vnodes : gmap N VNode;
  nodes : gset str;
}.

Definition new_ring (k : nat) : ring := Ring k [] ∅ ∅.

Definition bisect_left_N (l : list N) (x : N) : nat := bisect (fun a => a <? x) l.
Definition bisect_right_N (l : list N) (x : N) : nat := bisect (fun a => negb (x <? a)) l.
Definition insort (l : list N) (x : N) : list N := list_insert_at (bisect_right_N l x) x l.

(** The vnode at index [idx] of the ring. *)
Definition vnode_at (r : ring) (idx : nat) : res VNode :=
  p ← nth_res (positions r) idx; of_option KeyError (vnodes r !! p).

Record token_range := TokenRange { tr_node : str; tr_start : N; tr_end : N; tr_size : Z }.

(** One iteration of [remove_node]'s loop. *)
Definition remove_position (r : ring) (pos : N) : ring :=
  let idx := bisect_left_N (positions r) pos in
  let ps := match positions r !! idx with
            | Some q => if q =? pos then base.delete idx (positions r) else positions r
            | None => positions r
            end in
  Ring (vnodes_per_node r) ps (base.delete pos (vnodes r)) (nodes r).

Definition remove_node (r : ring) (node : str) : res (ring * nat) :=
  if bool_decide (node ∈ nodes r) then
    let doomed := (filter (fun pv => node_id pv.2 = node) (map_to_list (vnodes r))).*1 in
    let r' := foldl remove_position r doomed in
    Ok (Ring (vnodes_per_node r') (positions r') (vnodes r') (nodes r' ∖ {[node]}), length doomed)
  else Raise ValueError.

Fixpoint token_ranges (r : ring) (prev : N) (ps : list N) : res (list token_range) :=
  match ps with
  | [] => Ok []
  | pos :: ps =>
      v ← of_option KeyError (vnodes r !! pos);
      rest ← token_ranges r pos ps;
      Ok (TokenRange (node_id v) prev pos (Z.of_N pos - Z.of_N prev) :: rest)
  end.

Definition get_token_ranges (r : ring) : res (list token_range) := token_ranges r 0 (positions r).

Definition add_size (m : gmap str Z) (t : token_range) : res (gmap str Z) :=
  n ← of_option KeyError (m !! tr_node t); Ok (<[tr_node t := (n + tr_size t)%Z]> m).

Fixpoint add_sizes (m : gmap str Z) (ts : list token_range) : res (gmap str Z) :=
  match ts with [] => Ok m | t :: ts => m' ← add_size m t; add_sizes m' ts end.

Definition load_distribution (r : ring) : res (gmap str (Z * Z)) :=
  match positions r with
  | [] => Ok ∅
  | _ =>
      if bool_decide (nodes r = ∅) then Ok (∅ : gmap str (Z * Z)) else
      ts ← get_token_ranges r;
      let total := foldr (fun t n => (tr_size t + n)%Z) 0%Z ts in
      sizes ← add_sizes (gset_to_gmap 0%Z (nodes r)) ts;
      Ok (if (total =? 0)%Z then (∅ : gmap str (Z * Z)) else fmap (M:=gmap str) (fun n => (n, total)) sizes)
  end.

Section hashed.
Context (hash : str -> res N).

Definition vnode_name (node : str) (i : nat) : str := node ++ py ":vnode:" ++ str_of_N (N.of_nat i).

(** One iteration of [add_node]'s loop. *)
Definition add_vnode (node : str) (r : ring) (i : nat) : res (ring * N) :=
  pos ← hash (vnode_name node i);
  Ok (Ring (vnodes_per_node r) (insort (positions r) pos) (<[pos := mkVNode pos node i]> (vnodes r)) (nodes r), pos).

Fixpoint add_vnodes (node : str) (r : ring) (js : list nat) : res (ring * list N) :=
  match js with
  | [] => Ok (r, [])
  | i :: js => '(r, pos) ← add_vnode node r i; '(r, ps) ← add_vnodes node r js; Ok (r, pos :: ps)
  end.

(** A node name that cannot be encoded makes the first call of [_hash] raise, before
    anything is changed. *)
Definition add_node (r : ring) (node : str) : res (ring * list N) :=
  if bool_decide (node ∈ nodes r) then Raise ValueError
  else
    '(r', ps) ← add_vnodes node r (seq 0 (vnodes_per_node r));
    Ok (Ring (vnodes_per_node r') (positions r') (vnodes r') ({[node]} ∪ nodes r'), ps).

(** The index of the first position clockwise from [h]. *)
Definition start_index (r : ring) (h : N) : nat := (bisect_right_N (positions r) h mod length (positions r))%nat.

Definition get_node (r : ring) (key : str) : res (option str) :=
  match positions r with
  | [] => Ok None
  | _ => h ← hash key; v ← vnode_at r (start_index r h); Ok (Some (node_id v))
  end.

(** The clockwise walk of [get_nodes]; [acc] is the list and the set at once. *)
Fixpoint walk (fuel : nat) (r : ring) (n : Z) (idx : nat) (acc : list str) : res (list str) :=
  match fuel with
  | O => Ok acc
  | S fuel =>
      v ← vnode_at r idx;
      let next := (S idx mod length (positions r))%nat in
      if bool_decide (node_id v ∈ acc) then walk fuel r n next acc
      else
        let acc' := acc ++ [node_id v] in
        if (Z.of_nat (length acc') =? n)%Z then Ok acc' else walk fuel r n next acc'
  end.

Definition get_nodes (r : ring) (key : str) (n : Z) : res (list str) :=
  match positions r with
  | [] => Ok []
  | _ => h ← hash key; walk (length (positions r)) r (Z.min n (Z.of_nat (size (nodes r)))) (start_index r h) []
  end.

(** ** [ShardedStore] *)

Record sharded := Sharded {
  s_ring : ring;
  replication_factor : Z;
  shard_order : list str;
  shards : gmap str (gmap str str);
}.

Definition new_store (rf : Z) (k : nat) : sharded := Sharded (new_ring k) rf [] ∅.

Definition with_shards (s : sharded) (f : gmap str (gmap str str)) : sharded :=
  Sharded (s_ring s) (replication_factor s) (shard_order s) f.

(** [self._shards[node][key] = value]. *)
Definition put (sh : gmap str (gmap str str)) (node key value : str) : res (gmap str (gmap str str)) :=
  d ← of_option KeyError (sh !! node); Ok (<[node := <[key := value]> d]> sh).

(** The keys of one shard whose primary is now [node]. *)
Fixpoint keys_to_move (r : ring) (node : str) (keys : list str) : res (list str) :=
  match keys with
  | [] => Ok []
  | key :: keys =>
      p ← get_node r key;
      rest ← keys_to_move r node keys;
      Ok (if bool_decide (p = Some node) then key :: rest else rest)
  end.

(** [val = shards[existing].pop(key); shards[node][key] = val]. *)
Fixpoint move_keys (sh : gmap str (gmap str str)) (existing node : str) (keys : list str) :
    res (gmap str (gmap str str)) :=
  match keys with
  | [] => Ok sh
  | key :: keys =>
      d ← of_option KeyError (sh !! existing);
      val ← of_option KeyError (d !! key);
      sh' ← put (<[existing := base.delete key d]> sh) node key val;
      move_keys sh' existing node keys
  end.

Fixpoint rebalance (r : ring) (node : str) (sh : gmap str (gmap str str)) (names : list str) (moved : nat) :
    res (gmap str (gmap str str) * nat) :=
  match names with
  | [] => Ok (sh, moved)
  | existing :: names =>
      if bool_decide (existing = node) then rebalance r node sh names moved
      else
        d ← of_option KeyError (sh !! existing);
        keys ← keys_to_move r node (map_to_list d).*1;
        sh' ← move_keys sh existing node keys;
        rebalance r node sh' names (moved + length keys)
  end.

(** [ShardedStore.add_node]: the state is returned with the result, because the
    shard is created before [ring.add_node] can raise. *)
Definition s_add_node (s : sharded) (node : str) : sharded * res nat :=
  let order := if bool_decide (node ∈ shard_order s) then shard_order s else shard_order s ++ [node] in
  let s1 := Sharded (s_ring s) (replication_factor s) order (<[node := ∅]> (shards s)) in
  match add_node (s_ring s) node with
  | Raise e => (s1, Raise e)
  | Ok (r, _) =>
      let s2 := Sharded r (replication_factor s) order (shards s1) in
      match rebalance r node (shards s1) order 0 with
      | Raise e => (s2, Raise e)
      | Ok (sh, moved) => (with_shards s2 sh, Ok moved)
      end
  end.

Fixpoint move_out (r : ring) (sh : gmap str (gmap str str)) (kvs : list (str * str)) (moved : nat) :
    res (gmap str (gmap str str) * nat) :=
  match kvs with
  | [] => Ok (sh, moved)
  | (key, val) :: kvs =>
      p ← get_node r key;
      match p with
      | None | Some [] => move_out r sh kvs moved
      | Some node => sh' ← put sh node key val; move_out r sh' kvs (S moved)
      end
  end.

Definition s_remove_node (s : sharded) (node : str) : res (sharded * nat) :=
  match shards s !! node with
  | None => Raise ValueError
  | Some d =>
      '(r, _) ← remove_node (s_ring s) node;
      '(sh, moved) ← move_out r (base.delete node (shards s)) (map_to_list d) 0;
      Ok (Sharded r (replication_factor s) (filter (fun n => n <> node) (shard_order s)) sh, moved)
  end.

Fixpoint put_all (sh : gmap str (gmap str str)) (names : list str) (key value : str) :
    res (gmap str (gmap str str)) :=
  match names with
  | [] => Ok sh
  | n :: names => sh' ← put sh n key value; put_all sh' names key value
  end.

Definition s_set (s : sharded) (key value : str) : res (sharded * str) :=
  names ← get_nodes (s_ring s) key (replication_factor s);
  match names with
  | [] => Raise RuntimeError
  | primary :: _ => sh ← put_all (shards s) names key value; Ok (with_shards s sh, primary)
  end.

Definition s_get (s : sharded) (key : str) : res (option str) :=
  p ← get_node (s_ring s) key;
  match p with
  | None | Some [] => Ok None
  | Some node => d ← of_option KeyError (shards s !! node); Ok (d !! key)
  end.

Fixpoint delete_all (sh : gmap str (gmap str str)) (names : list str) (key : str) (found : bool) :
    res (gmap str (gmap str str) * bool) :=
  match names with
  | [] => Ok (sh, found)
  | n :: names =>
      d ← of_option KeyError (sh !! n);
      match d !! key with
      | Some _ => delete_all (<[n := base.delete key d]> sh) names key true
      | None => delete_all sh names key found
      end
  end.

Definition s_delete (s : sharded) (key : str) : res (sharded * bool) :=
  names ← get_nodes (s_ring s) key (replication_factor s);
  '(sh, found) ← delete_all (shards s) names key false;
  Ok (with_shards s sh, found).

Definition shard_sizes (s : sharded) : gmap str nat := size <$> shards s.
Definition total_keys (s : sharded) : nat :=
  size (map_fold (fun _ d acc => dom d ∪ acc) (∅ : gset str) (shards s)).

(** ** [Partitioner] *)

Record partitioner := Partitioner {
  shard_ids : list str;
  p_nodes : list str;
  rf : Z;
  p_ring : ring;
  p_placement : gmap str (list str);
}.

Fixpoint add_nodes (r : ring) (ids : list str) : res ring :=
  match ids with
  | [] => Ok r
  | n :: ids => '(r', _) ← add_node r n; add_nodes r' ids
  end.

(** The replicas of the [i]-th shard. *)
Definition place (ns : list str) (rf : Z) (i : nat) : list str :=
  map (fun j => nth ((i + j) mod length ns)%nat ns []) (seq 0 (Z.to_nat rf)).

(** [replication_factor or len(nodes)]. *)
Definition effective_rf (ns : list str) (replication : option Z) : Z :=
  match replication with
  | None | Some 0%Z => Z.of_nat (length ns)
  | Some n => n
  end.

Definition new_partitioner (ids ns : list str) (replication : option Z) (k : nat) : res partitioner :=
  let rf := effective_rf ns replication in
  if (Z.of_nat (length ns) <? rf)%Z then Raise ValueError
  else
    r ← add_nodes (new_ring k) ids;
    Ok (Partitioner ids ns rf r
          (foldl (fun m '(i, s) => <[s := place ns rf i]> m) ∅ (imap (fun i s => (i, s)) ids))).

Definition shard_for (p : partitioner) (key : str) : res str :=
  s ← get_node (p_ring p) key; of_option AssertionError s.

Definition replicas (p : partitioner) (shard : str) : res (list str) :=
  of_option KeyError (p_placement p !! shard).

Definition preferred_leader (p : partitioner) (shard : str) : res str :=
  ns ← replicas p shard; nth_res ns 0.

Fixpoint shards_on_loop (p : partitioner) (node : str) (ids : list str) : res (list str) :=
  match ids with
  | [] => Ok []
  | s :: ids =>
      ns ← replicas p s;
      rest ← shards_on_loop p node ids;
      Ok (if bool_decide (node ∈ ns) then s :: rest else rest)
  end.
Definition shards_on (p : partitioner) (node : str) : res (list str) := shards_on_loop p node (shard_ids p).

(** [groups.setdefault(shard, []).append(k)] on a dict kept in insertion order. *)
Fixpoint group_add (groups : list (str * list str)) (shard key : str) : list (str * list str) :=
  match groups with
  | [] => [(shard, [key])]
  | (s, ks) :: groups =>
      if bool_decide (s = shard) then (s, ks ++ [key]) :: groups else (s, ks) :: group_add groups shard key
  end.

Fixpoint group_keys (p : partitioner) (groups : list (str * list str)) (keys : list str) :
    res (list (str * list str)) :=
  match keys with
  | [] => Ok groups
  | k :: keys => s ← shard_for p k; group_keys p (group_add groups s k) keys
  end.

Definition shards_for_keys (p : partitioner) (keys : list str) : res (list (str * list str)) :=
  group_keys p [] keys.

Fixpoint placement_loop (p : partitioner) (ids : list str) : res (list (str * str * list str)) :=
  match ids with
  | [] => Ok []
  | s :: ids =>
      l ← preferred_leader p s; ns ← replicas p s; rest ← placement_loop p ids; Ok ((s, l, ns) :: rest)
  end.
Definition placement (p : partitioner) : res (list (str * str * list str)) := placement_loop p (shard_ids p).

Definition ring_arcs (p : partitioner) : res (list (str * N * N)) :=
  ts ← get_token_ranges (p_ring p);
  let arcs := map (fun t => (tr_node t, tr_start t, tr_end t)) ts in
  match head arcs, list.last arcs with
  | Some (s0, _, _), Some (_, _, e) => Ok (if e <? RING_SIZE then arcs ++ [(s0, e, RING_SIZE)] else arcs)
  | _, _ => Ok arcs
  end.

End hashed.

(** ** Sorted positions *)

Lemma sorted_N_split (R : N -> bool) (l : list N) :
  StronglySorted N.le l -> (forall a b, a <= b -> R b = true -> R a = true) ->
  exists l1 l2, l = l1 ++ l2 /\ Forall (fun a => R a = true) l1 /\ Forall (fun a => R a = false) l2.
Proof.
  intros Hs HR. induction Hs as [|a l Hs IH Ha].
  - by exists [], [].
  - destruct (R a) eqn:Ea.
    + destruct IH as (l1 & l2 & -> & H1 & H2). exists (a :: l1), l2. auto.
    + exists [], (a :: l). split_and!; [done|constructor|]. constructor; [done|].
      eapply Forall_weaken; [exact Ha|]. intros b Hb; simpl in *.
      destruct (R b) eqn:Eb; [|done]. rewrite (HR a b) in Ea; congruence.
Qed.

Lemma bisect_right_split l x :
  StronglySorted N.le l ->
  exists l1 l2, l = l1 ++ l2 /\ Forall (fun a => a <= x) l1 /\ Forall (fun a => x < a) l2 /\
    bisect_right_N l x = length l1.
Proof.
  intros Hs. destruct (sorted_N_split (fun a => negb (x <? a)) l Hs) as (l1 & l2 & -> & H1 & H2).
  { intros a b Hab. destruct (N.ltb_spec x a), (N.ltb_spec x b); simpl; auto; lia. }
  exists l1, l2. split_and!; [done| | |by apply bisect_app].
  - eapply Forall_weaken; [exact H1|]. intros a; simpl. destruct (N.ltb_spec x a); [done|lia].
  - eapply Forall_weaken; [exact H2|]. intros a; simpl. destruct (N.ltb_spec x a); [lia|done].
Qed.

Lemma bisect_left_split l x :
  StronglySorted N.le l ->
  exists l1 l2, l = l1 ++ l2 /\ Forall (fun a => a < x) l1 /\ Forall (fun a => x <= a) l2 /\
    bisect_left_N l x = length l1.
Proof.
  intros Hs. destruct (sorted_N_split (fun a => a <? x) l Hs) as (l1 & l2 & -> & H1 & H2).
  { intros a b Hab. destruct (N.ltb_spec a x), (N.ltb_spec b x); simpl; auto; lia. }
  exists l1, l2. split_and!; [done| | |by apply bisect_app].
  - eapply Forall_weaken; [exact H1|]. intros a; simpl. destruct (N.ltb_spec a x); [lia|done].
  - eapply Forall_weaken; [exact H2|]. intros a; simpl. destruct (N.ltb_spec a x); [done|lia].
Qed.

Lemma sorted_N_app (l1 l2 : list N) :
  StronglySorted N.le (l1 ++ l2) <->
  StronglySorted N.le l1 /\ StronglySorted N.le l2 /\ Forall (fun a => Forall (fun b => a <= b) l2) l1.
Proof.
  induction l1 as [|a l1 IH]; simpl.
  - split; [intros H; split_and!; auto; constructor|tauto].
  - split.
    + intros H. inversion H as [|? ? H1 H2]; subst. apply IH in H1. apply Forall_app in H2.
      split_and!; try tauto; constructor; tauto.
    + intros (H1 & H2 & H3). inversion H1; inversion H3; subst. constructor; [tauto|].
      apply Forall_app. tauto.
Qed.

Lemma insort_spec l x :
  StronglySorted N.le l -> StronglySorted N.le (insort l x) /\ insort l x ≡ₚ x :: l.
Proof.
  intros Hs. unfold insort. destruct (bisect_right_split l x Hs) as (l1 & l2 & -> & H1 & H2 & ->).
  rewrite list_insert_at_app. split; [|by rewrite Permutation_middle].
  apply sorted_N_app in Hs as (S1 & S2 & S12). apply sorted_N_app. split_and!; auto.
  - constructor; [done|]. eapply Forall_weaken; [exact H2|]. simpl. intros; lia.
  - apply list.Forall_forall. intros a Ha. constructor.
    + by eapply (list.Forall_forall (fun a => a <= x)).
    + by eapply (list.Forall_forall (fun a => Forall (fun b => a <= b) l2)) in S12.
Qed.

(** ** The ring invariant *)

(** Positions are sorted ring positions, each held by a vnode of a member. *)
Record ring_ok (r : ring) : Prop := {
  ro_sorted : StronglySorted N.le (positions r);
  ro_range : Forall (fun p => p < RING_SIZE) (positions r);
  ro_owned : forall p, p ∈ positions r -> exists v, vnodes r !! p = Some v /\ node_id v ∈ nodes r;
}.

(** In addition no two vnodes share a position, and every member has one. *)
Record ring_exact (r : ring) : Prop := {
  re_ok : ring_ok r;
  re_nodup : NoDup (positions r);
  re_vnodes : forall p v, vnodes r !! p = Some v -> p ∈ positions r;
  re_members : forall n, n ∈ nodes r -> exists p v, vnodes r !! p = Some v /\ node_id v = n;
}.

(** Steps clockwise from position [h] to reach [p]; a full turn when [p = h]. *)
Definition clockwise (h p : N) : N := if h <? p then p - h else p + RING_SIZE - h.

Lemma clockwise_inj h p q :
  h < RING_SIZE -> p < RING_SIZE -> q < RING_SIZE -> clockwise h p = clockwise h q -> p = q.
Proof. unfold clockwise. destruct (N.ltb_spec h p), (N.ltb_spec h q); lia. Qed.

(** [p] is the first position of [ps] clockwise from [h]. *)
Definition nearest (ps : list N) (h p : N) : Prop :=
  p ∈ ps /\ forall q, q ∈ ps -> clockwise h p <= clockwise h q.

Lemma nearest_unique ps h p q :
  h < RING_SIZE -> Forall (fun p => p < RING_SIZE) ps -> nearest ps h p -> nearest ps h q -> p = q.
Proof.
  intros Hh Hr [Hp Hp'] [Hq Hq']. eapply list.Forall_forall in Hr as Hpr; [|exact Hp].
  eapply list.Forall_forall in Hr as Hqr; [|exact Hq].
  apply (clockwise_inj h); auto. specialize (Hp' q Hq). specialize (Hq' p Hp). lia.
Qed.

Lemma start_nearest ps h :
  StronglySorted N.le ps -> Forall (fun p => p < RING_SIZE) ps -> h < RING_SIZE -> ps <> [] ->
  exists p, ps !! (bisect_right_N ps h mod length ps)%nat = Some p /\ nearest ps h p.
Proof.
  intros Hs Hr Hh Hne. destruct (bisect_right_split ps h Hs) as (l1 & l2 & -> & H1 & H2 & ->).
  apply sorted_N_app in Hs as (S1 & S2 & S12).
  rewrite list.Forall_forall in H1, H2, Hr, S12.
  destruct l2 as [|p l2].
  - rewrite app_nil_r in *. rewrite Nat.Div0.mod_same. destruct l1 as [|p l1]; [done|].
    exists p. split; [done|]. split; [left|]. intros q Hq. unfold clockwise.
    specialize (H1 p ltac:(left)) as Hp. specialize (H1 q Hq) as Hq1.
    destruct (N.ltb_spec h p), (N.ltb_spec h q); try lia.
    apply list_elem_of_In in Hq. destruct Hq as [->|Hq]; [lia|]. apply list_elem_of_In in Hq.
    inversion S1 as [|? ? ? Hall]; subst. eapply list.Forall_forall in Hall; [|exact Hq]. lia.
  - rewrite Nat.mod_small by (rewrite length_app; simpl; lia).
    rewrite lookup_middle. exists p. split; [done|]. split; [apply elem_of_app; right; left|].
    intros q Hq. unfold clockwise. specialize (H2 p ltac:(left)) as Hp.
    destruct (N.ltb_spec h p); [|lia].
    assert (p < RING_SIZE) by (apply Hr, elem_of_app; right; left).
    apply elem_of_app in Hq as [Hq|Hq].
    + specialize (H1 q Hq). destruct (N.ltb_spec h q); lia.
    + specialize (H2 q Hq). destruct (N.ltb_spec h q); [|lia].
      apply elem_of_cons in Hq as [->|Hq]; [lia|].
      inversion S2 as [|? ? ? Hall]; subst. eapply list.Forall_forall in Hall; [|exact Hq]. lia.
Qed.

(** ** Lookups and membership changes *)

Section ring_facts.
Context (hash : str -> res N) (hash_range : forall k h, hash k = Ok h -> h < RING_SIZE).

Lemma get_node_owner r key h :
  ring_ok r -> positions r <> [] -> hash key = Ok h ->
  exists p v, nearest (positions r) h p /\ vnodes r !! p = Some v /\
    node_id v ∈ nodes r /\ get_node hash r key = Ok (Some (node_id v)).
Proof.
  intros [Hs Hr Ho] Hne Hh.
  destruct (start_nearest _ h Hs Hr (hash_range _ _ Hh) Hne) as (p & Hp & Hn).
  destruct (Ho p) as (v & Hv & Hm); [apply Hn|]. exists p, v. split_and!; auto.
  unfold get_node, vnode_at, start_index. destruct (positions r) eqn:E; [done|]. rewrite <- E in *. rewrite Hh. cbn [mbind res_bind].
  unfold nth_res. by rewrite Hp; cbn [mbind res_bind]; rewrite Hv.
Qed.

Lemma get_node_of_nearest r key h p v :
  ring_ok r -> hash key = Ok h -> nearest (positions r) h p -> vnodes r !! p = Some v ->
  get_node hash r key = Ok (Some (node_id v)).
Proof.
  intros Hok Hh Hn Hv. assert (positions r <> []) as Hne.
  { intros E. destruct Hn as [Hn _]. rewrite E in Hn. by apply not_elem_of_nil in Hn. }
  destruct (get_node_owner r key h Hok Hne Hh) as (q & w & Hq & Hw & _ & ->).
  rewrite (nearest_unique _ _ _ _ (hash_range _ _ Hh) (ro_range r Hok) Hn Hq) in Hv. congruence.
Qed.

(** A lookup that succeeds on a ring with positions has hashed the key. *)
Lemma get_node_hashed r key m : get_node hash r key = Ok (Some m) -> positions r <> [] /\ exists h, hash key = Ok h.
Proof. unfold get_node. destruct (positions r); [done|]. destruct (hash key); [eauto|done]. Qed.

Lemma get_node_raises r key e : positions r <> [] -> hash key = Raise e -> get_node hash r key = Raise e.
Proof. intros Hne Hh. unfold get_node. destruct (positions r); [done|]. by rewrite Hh. Qed.

(** The positions a node takes. *)
Definition hashes_to (n : str) (js : list nat) (ps : list N) : Prop := Forall2 (fun i p => hash (vnode_name n i) = Ok p) js ps.

Definition node_positions (r : ring) (n : str) (ps : list N) : Prop := hashes_to n (seq 0 (vnodes_per_node r)) ps.

Lemma hashes_range n js ps : hashes_to n js ps -> Forall (fun p => p < RING_SIZE) ps.
Proof. intros H. induction H; constructor; eauto. Qed.

(** What the loop of [add_node] does to the ring, for any list of vnode numbers. *)
Lemma add_vnodes_spec n js ps r :
  StronglySorted N.le (positions r) -> hashes_to n js ps ->
  exists r', add_vnodes hash n r js = Ok (r', ps) /\
    StronglySorted N.le (positions r') /\
    positions r' ≡ₚ ps ++ positions r /\
    vnodes_per_node r' = vnodes_per_node r /\ nodes r' = nodes r /\
    (forall p, p ∈ ps -> exists v, vnodes r' !! p = Some v /\ node_id v = n) /\
    (forall p, p ∉ ps -> vnodes r' !! p = vnodes r !! p).
Proof.
  intros Hs Hh. revert r Hs. induction Hh as [|i pos js ps Hpos _ IH]; intros r Hs; cbn [add_vnodes].
  { exists r. split_and!; auto. intros p Hp. by apply not_elem_of_nil in Hp. }
  unfold add_vnode. rewrite Hpos. cbn [mbind res_bind]. destruct (insort_spec (positions r) pos Hs) as [Hs' Hp].
  set (r1 := Ring _ _ _ _). destruct (IH r1 Hs') as (r' & -> & I1 & I2 & I3 & I4 & I5 & I6).
  exists r'. split_and!; auto.
  - rewrite I2. cbn [r1 positions]. rewrite Hp. by rewrite <- Permutation_middle.
  - intros p Hin. destruct (decide (p ∈ ps)) as [Hl|Hl]; [auto|].
    rewrite I6 by done. apply elem_of_cons in Hin as [->|]; [|done].
    cbn [r1 vnodes]. rewrite lookup_insert_eq. eauto.
  - intros p Hnin. apply not_elem_of_cons in Hnin as [Hne Hnin].
    rewrite I6 by done. cbn [r1 vnodes]. by rewrite lookup_insert_ne.
Qed.

Lemma add_vnodes_hashed n js r r' ps : add_vnodes hash n r js = Ok (r', ps) -> hashes_to n js ps.
Proof.
  revert r r' ps. induction js as [|i js IH]; intros r r' ps; cbn [add_vnodes]; [intros [= _ <-]; constructor|].
  unfold add_vnode. destruct (hash (vnode_name n i)) as [pos|] eqn:Hh; [|done]. cbn [mbind res_bind].
  destruct (add_vnodes hash n _ js) as [[r1 ps1]|] eqn:E; [|done]. cbn [mbind res_bind]. intros [= _ <-]. constructor; [done|by eapply (IH _ r1)].
Qed.

Lemma add_node_spec r n ps :
  ring_ok r -> n ∉ nodes r -> node_positions r n ps ->
  exists r', add_node hash r n = Ok (r', ps) /\ ring_ok r' /\
    positions r' ≡ₚ ps ++ positions r /\
    vnodes_per_node r' = vnodes_per_node r /\ nodes r' = {[n]} ∪ nodes r /\
    (forall p, p ∈ ps -> exists v, vnodes r' !! p = Some v /\ node_id v = n) /\
    (forall p, p ∉ ps -> vnodes r' !! p = vnodes r !! p).
Proof.
  intros [Hs Hr Ho] Hn Hps. unfold add_node. rewrite bool_decide_false by done.
  destruct (add_vnodes_spec n _ ps r Hs Hps) as (r1 & -> & A1 & A2 & A3 & A4 & A5 & A6). cbn [mbind res_bind].
  eexists. split; [done|]. split_and!; auto; cbn [positions vnodes nodes]; [|by rewrite A4].
  split; cbn [positions vnodes nodes]; auto.
  - rewrite A2. apply Forall_app. split; [by eapply hashes_range|done].
  - intros p Hp. destruct (decide (p ∈ ps)) as [Hl|Hl].
    + destruct (A5 p Hl) as (v & Hv & <-). exists v. split; [done|]. set_solver.
    + rewrite A2, elem_of_app in Hp. destruct Hp as [|Hp]; [done|].
      destruct (Ho p Hp) as (v & Hv & Hm). exists v. rewrite A6 by done. rewrite A4. set_solver.
Qed.

Lemma add_node_inv r n r' ps : add_node hash r n = Ok (r', ps) -> n ∉ nodes r /\ node_positions r n ps.
Proof.
  unfold add_node. case_bool_decide; [done|]. destruct (add_vnodes _ _ _ _) as [[r1 ps1]|] eqn:E; [|done]. cbn [mbind res_bind].
  intros [= _ <-]. split; [done|]. by eapply add_vnodes_hashed.
Qed.

Lemma new_ring_exact k : ring_exact (new_ring k).
Proof.
  split; [split| | |]; cbn; try constructor.
  - intros p Hp. by apply not_elem_of_nil in Hp.
  - intros p v Hv. by rewrite lookup_empty in Hv.
  - intros n Hn. set_solver.
Qed.

(** Adding a node keeps the ring exact when its positions are new and it has some. *)
Lemma add_node_exact r n ps :
  ring_exact r -> n ∉ nodes r -> (0 < vnodes_per_node r)%nat ->
  node_positions r n ps -> NoDup (ps ++ positions r) ->
  exists r', add_node hash r n = Ok (r', ps) /\ ring_exact r' /\
    positions r' ≡ₚ ps ++ positions r /\
    vnodes_per_node r' = vnodes_per_node r /\ nodes r' = {[n]} ∪ nodes r.
Proof.
  intros [Hok Hnd Hv Hm] Hn Hk Hps Hfresh.
  destruct (add_node_spec r n ps Hok Hn Hps) as (r' & E & Hok' & Hp & Hk' & Hnodes & Hnew & Hold).
  exists r'. split_and!; auto. split; auto.
  - by rewrite Hp.
  - intros p v Hpv. rewrite Hp, elem_of_app.
    destruct (decide (p ∈ ps)) as [Hl|Hl]; [by left|].
    right. rewrite Hold in Hpv by done. eauto.
  - intros m Hmem. rewrite Hnodes in Hmem. apply elem_of_union in Hmem as [Hmem|Hmem].
    + apply elem_of_singleton in Hmem as ->.
      assert (exists p, p ∈ ps) as [p Hpp].
      { apply Forall2_length in Hps. rewrite length_seq in Hps. destruct ps as [|p ps]; [cbn in Hps; lia|]. exists p. left. }
      destruct (Hnew p Hpp) as (v & ? & ?). eauto.
    + destruct (Hm m Hmem) as (p & v & Hpv & Hid). exists p, v. split; [|done].
      rewrite Hold; [done|]. intros Hin. apply list.NoDup_app in Hfresh as (_ & Hdis & _).
      by apply (Hdis p Hin), (Hv p v).
Qed.

(** A key either keeps its owner or moves to the new node. *)
Lemma add_node_owner r n r' ps key :
  ring_ok r -> positions r <> [] -> add_node hash r n = Ok (r', ps) ->
  get_node hash r' key = get_node hash r key \/ get_node hash r' key = Ok (Some n).
Proof.
  intros Hok Hne E. destruct (add_node_inv _ _ _ _ E) as [Hn Hps].
  destruct (add_node_spec r n ps Hok Hn Hps) as (r1 & E1 & Hok' & Hp & _ & _ & Hnew & Hold).
  rewrite E1 in E. injection E as <-. assert (positions r1 <> []) as Hne1.
  { intros E. rewrite E in Hp. apply Permutation_nil, app_eq_nil in Hp. tauto. }
  destruct (hash key) as [h|e] eqn:Hh; [|left; by rewrite !(get_node_raises _ _ e)].
  destruct (get_node_owner r1 key h Hok' Hne1 Hh) as (p & v & Hnear & Hv & _ & ->).
  destruct (decide (p ∈ ps)) as [Hl|Hl].
  - right. destruct (Hnew p Hl) as (w & Hw & <-). congruence.
  - left. rewrite Hold in Hv by done. symmetry. apply (get_node_of_nearest r key h p v Hok); [done| |done].
    destruct Hnear as [H1 H2]. rewrite Hp, elem_of_app in H1. split; [tauto|].
    intros q Hq. apply H2. rewrite Hp, elem_of_app. by right.
Qed.

Lemma remove_position_spec r p :
  StronglySorted N.le (positions r) -> p ∈ positions r ->
  let r' := remove_position r p in
  StronglySorted N.le (positions r') /\ p :: positions r' ≡ₚ positions r /\
  vnodes r' = base.delete p (vnodes r) /\ nodes r' = nodes r /\ vnodes_per_node r' = vnodes_per_node r.
Proof.
  intros Hs Hp. unfold remove_position.
  destruct (bisect_left_split (positions r) p Hs) as (l1 & l2 & E & H1 & H2 & ->).
  rewrite E in *. apply sorted_N_app in Hs as (S1 & S2 & S12).
  assert (exists l3, l2 = p :: l3) as [l3 ->].
  { apply elem_of_app in Hp as [Hp|Hp].
    - eapply list.Forall_forall in H1; [|exact Hp]. simpl in H1. lia.
    - destruct l2 as [|q l2]; [by apply not_elem_of_nil in Hp|].
      apply elem_of_cons in Hp as [->|Hp]; [eauto|].
      inversion S2 as [|? ? ? Hall]; subst. eapply list.Forall_forall in Hall; [|exact Hp].
      apply Forall_cons_1 in H2 as [H2 _]. assert (q = p) as -> by lia. eauto. }
  rewrite lookup_middle, N.eqb_refl, list_delete_middle. cbn [positions vnodes nodes vnodes_per_node].
  split_and!; auto; [|by rewrite Permutation_middle].
  apply sorted_N_app. inversion S2; subst. split_and!; auto.
  eapply Forall_weaken; [exact S12|]. intros a Ha. apply Forall_cons_1 in Ha. tauto.
Qed.

Lemma remove_positions_spec ps r :
  StronglySorted N.le (positions r) -> NoDup (positions r) -> NoDup ps -> ps ⊆ positions r ->
  let r' := foldl remove_position r ps in
  StronglySorted N.le (positions r') /\ ps ++ positions r' ≡ₚ positions r /\
  nodes r' = nodes r /\ vnodes_per_node r' = vnodes_per_node r /\
  (forall q, vnodes r' !! q = if bool_decide (q ∈ ps) then None else vnodes r !! q).
Proof.
  revert r. induction ps as [|p ps IH]; intros r Hs Hnd Hps Hsub; cbn [foldl].
  { split_and!; auto. }
  apply list.NoDup_cons in Hps as [Hp Hps].
  destruct (remove_position_spec r p Hs) as (R1 & R2 & R3 & R4 & R5); [apply Hsub; left|].
  rewrite <- R2 in Hnd. apply list.NoDup_cons in Hnd as [Hpr Hnd'].
  destruct (IH (remove_position r p) R1 Hnd' Hps) as (I1 & I2 & I3 & I4 & I5).
  { intros q Hq. assert (q ∈ positions r) as Hqr by (apply Hsub; by right).
    rewrite <- R2 in Hqr. apply elem_of_cons in Hqr as [->|]; done. }
  split_and!; auto; try congruence.
  - rewrite <- R2. simpl. by rewrite I2.
  - intros q. rewrite I5, R3. destruct (decide (q = p)) as [->|Hne].
    + rewrite (bool_decide_true (p ∈ p :: ps)) by left. rewrite lookup_delete_eq. by destruct (bool_decide _).
    + rewrite lookup_delete_ne by done. erewrite bool_decide_ext; [done|].
      rewrite elem_of_cons. naive_solver.
Qed.

Lemma remove_node_spec r n :
  ring_exact r -> n ∈ nodes r ->
  exists r' c, remove_node r n = Ok (r', c) /\ ring_exact r' /\
    nodes r' = nodes r ∖ {[n]} /\ vnodes_per_node r' = vnodes_per_node r /\
    positions r' ⊆ positions r /\
    (forall p v, p ∈ positions r' /\ vnodes r' !! p = Some v <->
       p ∈ positions r /\ vnodes r !! p = Some v /\ node_id v <> n).
Proof.
  intros [[Hs Hr Ho] Hnd Hv Hm] Hn. unfold remove_node. rewrite bool_decide_true by done.
  set (ps := (filter _ _).*1).
  assert (forall p, p ∈ ps <-> exists v, vnodes r !! p = Some v /\ node_id v = n) as Hps.
  { intros p. unfold ps. rewrite list_elem_of_fmap. split.
    - intros ([q v] & -> & H). apply list_elem_of_filter in H as [H1 H2].
      apply elem_of_map_to_list in H2. eauto.
    - intros (v & H & E). exists (p, v). split; [done|]. apply list_elem_of_filter.
      split; [done|]. by apply elem_of_map_to_list. }
  assert (NoDup ps) as Hnps.
  { unfold ps. eapply sublist_NoDup; [apply (NoDup_fst_map_to_list (vnodes r))|].
    apply fmap_sublist, sublist_filter. }
  assert (ps ⊆ positions r) as Hsub.
  { intros p Hp. apply Hps in Hp as (v & Hpv & _). eauto. }
  destruct (remove_positions_spec ps r Hs Hnd Hnps Hsub) as (R1 & R2 & R3 & R4 & R5).
  assert (forall p, p ∈ positions (foldl remove_position r ps) <-> p ∈ positions r /\ p ∉ ps) as Hin.
  { intros p. pose proof Hnd as Hnd'. rewrite <- R2 in Hnd'. apply list.NoDup_app in Hnd' as (_ & Hd & _).
    rewrite <- R2, elem_of_app. specialize (Hd p). tauto. }
  assert (forall p v, vnodes (foldl remove_position r ps) !! p = Some v <->
            vnodes r !! p = Some v /\ node_id v <> n) as Hvn.
  { intros p v. rewrite R5. case_bool_decide as Hp; rewrite Hps in Hp.
    - destruct Hp as (w & Hw & <-). split; [done|]. intros [Hv' Hne]. congruence.
    - split; [|tauto]. intros Hpv. split; [done|]. intros E. eauto. }
  do 2 eexists. split; [done|]. cbn [nodes vnodes_per_node positions vnodes]. split; [|split_and!; auto].
  - split; [split| | |]; cbn [nodes positions vnodes].
    + exact R1.
    + apply list.Forall_forall. intros p Hp. apply Hin in Hp as [Hp _]. by eapply list.Forall_forall in Hr.
    + intros p Hp. apply Hin in Hp as [Hp Hps']. destruct (Ho p Hp) as (v & Hpv & Hmem). exists v.
      assert (node_id v <> n) by (intros E; apply Hps', Hps; eauto).
      split; [by apply Hvn|]. rewrite R3. set_solver.
    + rewrite <- R2 in Hnd. apply list.NoDup_app in Hnd. tauto.
    + intros p v Hpv. apply Hvn in Hpv as [Hpv Hne]. apply Hin. split; [eauto|].
      rewrite Hps. intros (w & Hw & E). congruence.
    + intros m. rewrite R3. intros Hmem. destruct (Hm m) as (p & v & Hpv & E); [set_solver|].
      exists p, v. split; [|done]. apply Hvn. split; [done|]. set_solver.
  - by rewrite R3.
  - intros p Hp. apply Hin in Hp. tauto.
  - intros p v. rewrite Hin, Hvn, Hps. split; [tauto|]. intros (H1 & H2 & H3). split_and!; auto.
    intros (w & Hw & E). congruence.
Qed.

Lemma remove_node_owner r n r' c key m :
  ring_exact r -> remove_node r n = Ok (r', c) -> m <> n ->
  get_node hash r key = Ok (Some m) -> get_node hash r' key = Ok (Some m).
Proof.
  intros Hre E Hmn Hg. assert (n ∈ nodes r) as Hn.
  { unfold remove_node in E. by case_bool_decide. }
  destruct (remove_node_spec r n Hre Hn) as (r1 & c1 & E1 & Hre' & _ & _ & Hsub & Hvn).
  rewrite E1 in E. injection E as <- <-.
  destruct (get_node_hashed _ _ _ Hg) as [Hne [h Hh]].
  destruct (get_node_owner r key h (re_ok r Hre) Hne Hh) as (p & v & [Hp Hmin] & Hv & _ & Hg').
  rewrite Hg in Hg'. injection Hg' as ->.
  destruct (Hvn p v) as [_ Hvn']. destruct Hvn' as [Hp' Hv']; [done|].
  apply (get_node_of_nearest r1 key h p v (re_ok _ Hre')); [done| |done]. split; [done|]. eauto.
Qed.

(** ** Replica lists *)

(** The owners met on the clockwise walk. *)
Fixpoint collect (n : Z) (owners acc : list str) : list str :=
  match owners with
  | [] => acc
  | o :: owners =>
      if bool_decide (o ∈ acc) then collect n owners acc
      else if (Z.of_nat (length (acc ++ [o])) =? n)%Z then acc ++ [o] else collect n owners (acc ++ [o])
  end.

Lemma collect_nodup n owners acc : NoDup acc -> NoDup (collect n owners acc).
Proof.
  revert acc. induction owners as [|o os IH]; intros acc H; simpl; [done|].
  case_bool_decide; [auto|]. assert (NoDup (acc ++ [o])).
  { apply list.NoDup_app. split_and!; auto; [|apply NoDup_singleton].
    intros x Hx Hx'. apply list_elem_of_singleton in Hx' as ->. done. }
  destruct (_ =? _)%Z; auto.
Qed.

Lemma collect_sub n owners acc : collect n owners acc ⊆ acc ++ owners /\ acc `prefix_of` collect n owners acc.
Proof.
  revert acc. induction owners as [|o os IH]; intros acc; simpl.
  { rewrite app_nil_r. done. }
  case_bool_decide as Hin.
  - destruct (IH acc) as [I1 I2]. split; [|done]. intros x Hx. apply I1 in Hx.
    rewrite elem_of_app in *. rewrite elem_of_cons. tauto.
  - destruct (IH (acc ++ [o])) as [I1 I2]. destruct (_ =? _)%Z.
    + split; [|by apply prefix_app_r]. intros x. rewrite !elem_of_app, list_elem_of_singleton, elem_of_cons. tauto.
    + split.
      * intros x Hx. apply I1 in Hx. rewrite <- (assoc app) in Hx. done.
      * etransitivity; [|exact I2]. by apply prefix_app_r.
Qed.

(** Either [n] owners were found, or every owner was. *)
Lemma collect_complete n owners acc :
  (Z.of_nat (length acc) < n)%Z ->
  Z.of_nat (length (collect n owners acc)) = n \/
  (Z.of_nat (length (collect n owners acc)) < n)%Z /\ acc ++ owners ⊆ collect n owners acc.
Proof.
  revert acc. induction owners as [|o os IH]; intros acc H; simpl.
  { right. rewrite app_nil_r. done. }
  case_bool_decide as Hin.
  - destruct (IH acc H) as [|[I1 I2]]; [by left|right]. split; [done|].
    intros x. rewrite elem_of_app, elem_of_cons. intros [Hx|[->|Hx]]; apply I2, elem_of_app; auto.
  - destruct (Z.eqb_spec (Z.of_nat (length (acc ++ [o]))) n) as [E|E]; [by left|].
    destruct (IH (acc ++ [o])) as [|[I1 I2]]; [rewrite length_app in *; simpl in *; lia|by left|right].
    split; [done|]. by rewrite <- (assoc app) in I2.
Qed.

Lemma walk_collect r n fuel idx acc owners :
  (forall i, (i < fuel)%nat -> exists v, vnode_at r ((idx + i) mod length (positions r)) = Ok v /\
     owners !! i = Some (node_id v)) ->
  length owners = fuel -> (idx < length (positions r))%nat ->
  walk fuel r n idx acc = Ok (collect n owners acc).
Proof.
  revert idx acc owners. induction fuel as [|fuel IH]; intros idx acc owners Hw Hl Hidx.
  { destruct owners; [done|discriminate]. }
  destruct owners as [|o os]; [discriminate|]. injection Hl as Hl.
  destruct (Hw 0%nat) as (v & Hv & Ho); [lia|]. injection Ho as ->.
  rewrite Nat.add_0_r, Nat.mod_small in Hv by done.
  cbn [walk collect]. rewrite Hv. cbn [mbind res_bind].
  assert (forall acc, walk fuel r n (S idx mod length (positions r)) acc = Ok (collect n os acc)) as Hrec.
  { intros acc'. apply IH; [|done|apply Nat.mod_upper_bound; lia].
    intros i Hi. destruct (Hw (S i)) as (w & Hw' & How); [lia|]. exists w. split; [|done].
    rewrite Nat.Div0.add_mod_idemp_l. rewrite <- Hw'. f_equal. f_equal. lia. }
  case_bool_decide; [apply Hrec|]. destruct (_ =? _)%Z; [done|apply Hrec].
Qed.
End ring_facts.

Section replica_facts.
Context (hash : str -> res N) (hash_range : forall k h, hash k = Ok h -> h < RING_SIZE).

Definition owner_at (r : ring) (i : nat) : str :=
  match vnode_at r i with Ok v => node_id v | Raise _ => [] end.

(** Owners in the order of the walk from the key's position. *)
Definition owners_from (r : ring) (start : nat) : list str :=
  map (fun i => owner_at r ((start + i) mod length (positions r))%nat) (seq 0 (length (positions r))).

Lemma vnode_at_ok r i :
  ring_ok r -> (i < length (positions r))%nat ->
  exists p v, positions r !! i = Some p /\ vnodes r !! p = Some v /\ node_id v ∈ nodes r /\ vnode_at r i = Ok v.
Proof.
  intros Hok Hi. destruct (lookup_lt_is_Some_2 _ _ Hi) as [p Hp].
  destruct (ro_owned r Hok p) as (v & Hv & Hm); [by eapply list_elem_of_lookup_2|].
  exists p, v. split_and!; auto. unfold vnode_at, nth_res. rewrite Hp. cbn [mbind res_bind]. by rewrite Hv.
Qed.

Lemma owners_from_lookup r start i :
  ring_ok r -> (i < length (positions r))%nat ->
  exists v, vnode_at r ((start + i) mod length (positions r)) = Ok v /\
    owners_from r start !! i = Some (node_id v) /\ node_id v ∈ nodes r.
Proof.
  intros Hok Hi. destruct (vnode_at_ok r ((start + i) mod length (positions r)) Hok) as (p & v & _ & _ & Hm & Hv).
  { apply Nat.mod_upper_bound. lia. }
  exists v. split_and!; auto. unfold owners_from. rewrite list_lookup_fmap, lookup_seq_lt by done.
  simpl. unfold owner_at. by rewrite Hv.
Qed.

Lemma owners_from_complete r start m :
  ring_exact r -> (start < length (positions r))%nat -> m ∈ nodes r -> m ∈ owners_from r start.
Proof.
  intros Hre Hs Hm. destruct (re_members r Hre m Hm) as (p & v & Hv & <-).
  pose proof (re_vnodes r Hre p v Hv) as Hp. apply list_elem_of_lookup_1 in Hp as [j Hj].
  pose proof (lookup_lt_Some _ _ _ Hj) as Hjl. set (len := length (positions r)) in *.
  destruct (owners_from_lookup r start ((j + len - start) mod len) (re_ok r Hre)) as (w & Hw & Hl & _).
  { apply Nat.mod_upper_bound. lia. }
  fold len in Hw. rewrite Nat.Div0.add_mod_idemp_r in Hw.
  replace (start + (j + len - start))%nat with (j + 1 * len)%nat in Hw by lia.
  rewrite Nat.Div0.mod_add, Nat.mod_small in Hw by done.
  unfold vnode_at, nth_res in Hw. rewrite Hj in Hw. cbn [mbind res_bind] in Hw. rewrite Hv in Hw.
  injection Hw as <-. by eapply list_elem_of_lookup_2.
Qed.

Lemma start_index_lt r h : positions r <> [] -> (start_index r h < length (positions r))%nat.
Proof. intros H. apply Nat.mod_upper_bound. by destruct (positions r). Qed.

Lemma get_nodes_collect r key h n :
  ring_ok r -> positions r <> [] -> hash key = Ok h ->
  get_nodes hash r key n = Ok (collect (Z.min n (Z.of_nat (size (nodes r)))) (owners_from r (start_index r h)) []).
Proof.
  intros Hok Hne Hh. unfold get_nodes. destruct (positions r) eqn:E; [done|]. rewrite <- E. rewrite Hh. cbn [mbind res_bind].
  apply walk_collect; [| |apply start_index_lt; congruence].
  - intros i Hi. destruct (owners_from_lookup r (start_index r h) i Hok Hi) as (v & ? & ? & _). eauto.
  - unfold owners_from. by rewrite length_map, length_seq.
Qed.

Lemma get_node_head r key h :
  ring_ok r -> positions r <> [] -> hash key = Ok h -> get_node hash r key = Ok (head (owners_from r (start_index r h))).
Proof.
  intros Hok Hne Hh. pose proof (start_index_lt r h Hne) as Hs.
  assert (0 < length (positions r))%nat as H0 by lia.
  destruct (owners_from_lookup r (start_index r h) 0 Hok H0) as (v & Hv & Hl & _).
  rewrite Nat.add_0_r, Nat.mod_small in Hv by done.
  unfold get_node. destruct (positions r) eqn:E; [done|]. rewrite Hh. cbn [mbind res_bind]. rewrite Hv. cbn [mbind res_bind].
  by destruct (owners_from _ _); [done|injection Hl as ->].
Qed.

Lemma get_nodes_spec r key h n :
  ring_exact r -> positions r <> [] -> hash key = Ok h -> (1 <= n)%Z ->
  exists l, get_nodes hash r key n = Ok l /\ NoDup l /\ (forall x, x ∈ l -> x ∈ nodes r) /\
    length l = Nat.min (Z.to_nat n) (size (nodes r)) /\ get_node hash r key = Ok (head l).
Proof.
  intros Hre Hne Hh Hn. pose proof (re_ok r Hre) as Hok. pose proof (start_index_lt r h Hne) as Hs.
  rewrite (get_nodes_collect r key h), (get_node_head r key h) by done.
  set (os := owners_from _ _). set (k := Z.min _ _).
  assert (forall x, x ∈ os -> x ∈ nodes r) as Hsub.
  { intros x Hx. apply list_elem_of_lookup_1 in Hx as [i Hi].
    pose proof (lookup_lt_Some _ _ _ Hi) as Hl. unfold os, owners_from in Hl.
    rewrite length_map, length_seq in Hl.
    destruct (owners_from_lookup r (start_index r h) i Hok Hl) as (v & _ & Hv & Hm).
    unfold os in Hi. congruence. }
  destruct (collect_sub k os []) as [Hc _].
  pose proof (collect_nodup k os [] (NoDup_nil_2)) as Hnd.
  assert (1 <= size (nodes r))%nat as Hsz.
  { destruct (owners_from_lookup r (start_index r h) 0 Hok) as (v & _ & _ & Hm); [lia|].
    assert (size ({[node_id v]} : gset str) <= size (nodes r))%nat as H1 by (apply subseteq_size; set_solver).
    rewrite size_singleton in H1. lia. }
  eexists. split; [done|]. split_and!; [exact Hnd| | |].
  - intros x Hx. by apply Hsub, Hc.
  - destruct (collect_complete k os []) as [Hk|[Hk Hall]]; [unfold k; simpl; lia|unfold k in *; lia|].
    exfalso. assert (size (nodes r) <= length (collect k os []))%nat; [|unfold k in *; lia].
    rewrite <- (size_list_to_set (C:=gset str)) by exact Hnd. apply subseteq_size. intros m Hm.
    apply elem_of_list_to_set, Hall. by apply owners_from_complete.
  - assert (exists o os', os = o :: os') as (o & os' & E).
    { destruct os as [|o os'] eqn:E; [|eauto]. apply (f_equal length) in E. unfold os, owners_from in E.
      rewrite length_map, length_seq in E. simpl in E. lia. }
    rewrite E. cbn [collect head]. rewrite bool_decide_false by apply not_elem_of_nil.
    destruct (_ =? _)%Z; [done|]. destruct (collect_sub k os' ([] ++ [o])) as [_ [l ->]]. done.
Qed.
End replica_facts.

(** ** The store with one copy per key *)

Ltac bool_cases := repeat case_bool_decide; rewrite ?elem_of_cons, ?elem_of_nil in *; subst.

Definition lk (sh : gmap str (gmap str str)) (n k : str) : option str := sh !! n ≫= fun d => d !! k.

Lemma put_spec sh n k v :
  is_Some (sh !! n) ->
  exists sh', put sh n k v = Ok sh' /\ dom sh' = dom sh /\
    forall m k', lk sh' m k' = if bool_decide (m = n /\ k' = k) then Some v else lk sh m k'.
Proof.
  intros [d Hd]. unfold put. rewrite Hd. cbn. eexists. split; [done|]. split.
  - rewrite dom_insert_L. apply elem_of_dom_2 in Hd. set_solver.
  - intros m k'. unfold lk. rewrite lookup_insert. destruct (decide (n = m)) as [->|Hm]; [rewrite Hd|]; simpl.
    + rewrite lookup_insert. bool_cases; destruct (decide (k = k')); naive_solver.
    + bool_cases; naive_solver.
Qed.

Lemma move_keys_spec keys sh ex node :
  ex <> node -> is_Some (sh !! node) -> NoDup keys -> (forall k, k ∈ keys -> is_Some (lk sh ex k)) ->
  exists sh', move_keys sh ex node keys = Ok sh' /\ dom sh' = dom sh /\
    forall m k, lk sh' m k =
      if bool_decide (k ∈ keys /\ m = ex) then None
      else if bool_decide (k ∈ keys /\ m = node) then lk sh ex k else lk sh m k.
Proof.
  intros Hne. revert sh. induction keys as [|key keys IH]; intros sh Hnode Hnd Hin; cbn [move_keys].
  { exists sh. split_and!; auto. }
  apply list.NoDup_cons in Hnd as [Hkey Hnd]. destruct (Hin key) as [val Hval]; [left|].
  unfold lk in Hval. destruct (sh !! ex) as [d|] eqn:Hd; [|done]. simpl in Hval.
  cbn [of_option mbind res_bind]. rewrite Hval. cbn [of_option mbind res_bind].
  set (sh1 := <[ex := base.delete key d]> sh).
  assert (forall m k, lk sh1 m k = if bool_decide (m = ex /\ k = key) then None else lk sh m k) as H1.
  { intros m k. unfold lk, sh1. rewrite lookup_insert. destruct (decide (ex = m)) as [->|Hm]; [rewrite Hd|]; simpl.
    - rewrite lookup_delete. bool_cases; destruct (decide (key = k)); naive_solver.
    - bool_cases; naive_solver. }
  destruct (put_spec sh1 node key val) as (sh2 & -> & Hdom2 & H2).
  { unfold sh1. by rewrite lookup_insert_ne. }
  cbn [mbind res_bind].
  assert (dom sh1 = dom sh) as Hdom1.
  { unfold sh1. rewrite dom_insert_L. apply elem_of_dom_2 in Hd. set_solver. }
  destruct (IH sh2) as (sh' & -> & Hdom & H').
  - apply elem_of_dom. rewrite Hdom2, Hdom1. by apply elem_of_dom.
  - done.
  - intros k Hk. assert (k <> key) by (intros ->; done). rewrite H2, bool_decide_false by tauto.
    rewrite H1, bool_decide_false by tauto. apply Hin. by right.
  - exists sh'. split_and!; [done|congruence|]. intros m k. rewrite H', !H2, !H1.
    assert (lk sh ex key = Some val) as Hlk by (unfold lk; by rewrite Hd).
    bool_cases; naive_solver.
Qed.

Section store_facts.
Context (hash : str -> res N) (hash_range : forall k h, hash k = Ok h -> h < RING_SIZE).

#[local] Instance owned_dec r node k : Decision (get_node hash r k = Ok (Some node)).
Proof. destruct (get_node hash r k) as [[m|]|e]; [destruct (decide (m = node)) as [->|]|..]; (by left) || (right; congruence). Defined.

Lemma keys_to_move_spec r node keys :
  (forall k, k ∈ keys -> exists o, get_node hash r k = Ok o) ->
  keys_to_move hash r node keys = Ok (filter (fun k => get_node hash r k = Ok (Some node)) keys).
Proof.
  intros Htot. induction keys as [|k keys IH]; [done|]. cbn [keys_to_move].
  destruct (Htot k) as [o Ho]; [left|]. rewrite Ho, IH by (intros; apply Htot; by right). cbn [mbind res_bind]. rewrite filter_cons.
  bool_cases; destruct (decide _); congruence.
Qed.

(** A key is held by at most one shard. *)
Definition held_once (sh : gmap str (gmap str str)) : Prop :=
  forall n m k, is_Some (lk sh n k) -> is_Some (lk sh m k) -> n = m.

Definition holds (sh : gmap str (gmap str str)) (k v : str) : Prop := exists n, lk sh n k = Some v.

(** The shards after all keys that now belong to [node] left [ex]. *)
Lemma rebalance_one r node sh ex d :
  (forall n k, is_Some (lk sh n k) -> exists o, get_node hash r k = Ok o) -> ex <> node -> is_Some (sh !! node) -> sh !! ex = Some d ->
  exists keys sh', keys_to_move hash r node (map_to_list d).*1 = Ok keys /\
    move_keys sh ex node keys = Ok sh' /\ dom sh' = dom sh /\
    (forall k, get_node hash r k = Ok (Some node) -> lk sh' ex k = None) /\
    (forall n k v, lk sh' n k = Some v ->
       n = node /\ get_node hash r k = Ok (Some node) /\ lk sh ex k = Some v \/ lk sh n k = Some v) /\
    (forall n k v, lk sh n k = Some v -> (n = ex -> get_node hash r k <> Ok (Some node)) ->
       (n = node -> lk sh ex k = None) -> lk sh' n k = Some v) /\
    (forall k v, lk sh ex k = Some v -> get_node hash r k = Ok (Some node) -> lk sh' node k = Some v).
Proof.
  intros Htot Hne Hnode Hd. rewrite keys_to_move_spec.
  2: { intros k ([k' v] & -> & Hk%elem_of_map_to_list)%list_elem_of_fmap. apply (Htot ex). unfold lk. rewrite Hd. by exists v. }
  set (keys := filter _ _).
  assert (forall k, k ∈ keys <-> get_node hash r k = Ok (Some node) /\ is_Some (lk sh ex k)) as Hkeys.
  { intros k. unfold keys, lk. rewrite list_elem_of_filter, Hd. simpl. rewrite list_elem_of_fmap.
    split; intros [? H]; (split; [done|]).
    - destruct H as ([k' v] & -> & H). apply elem_of_map_to_list in H. by exists v.
    - destruct H as [v H]. exists (k, v). by rewrite elem_of_map_to_list. }
  assert (NoDup keys) by (apply list.NoDup_filter, NoDup_fst_map_to_list).
  destruct (move_keys_spec keys sh ex node Hne Hnode) as (sh' & E & Hdom & Hlk); [done|by intros k [_ H']%Hkeys|].
  exists keys, sh'. split_and!; auto.
  - intros k Hg. rewrite Hlk. specialize (Hkeys k). repeat case_bool_decide; [done| |].
    + destruct H1. congruence.
    + destruct (lk sh ex k) eqn:Ek; [|done]. exfalso. apply H0. rewrite Hkeys. eauto.
  - intros n k v. rewrite Hlk. specialize (Hkeys k). repeat case_bool_decide; [done| |by right].
    intros Hv. left. destruct H1 as [H1 ->]. apply Hkeys in H1. tauto.
  - intros n k v Hv H1 H2. rewrite Hlk. specialize (Hkeys k). repeat case_bool_decide; [| |done].
    + destruct H0 as [H0 ->]. apply Hkeys in H0. destruct H1; tauto.
    + destruct H3 as [H3 ->]. apply Hkeys in H3 as [_ [w Hw]]. rewrite H2 in Hw; done.
  - intros k v Hv Hg. rewrite Hlk. specialize (Hkeys k). repeat case_bool_decide; [|done|].
    + destruct H0. congruence.
    + destruct H1. rewrite Hkeys. eauto.
Qed.

Lemma rebalance_spec r node names sh moved :
  (forall n k, is_Some (lk sh n k) -> exists o, get_node hash r k = Ok o) -> is_Some (sh !! node) -> held_once sh ->
  (forall n, n ∈ names -> is_Some (sh !! n)) ->
  exists sh' moved', rebalance hash r node sh names moved = Ok (sh', moved') /\ dom sh' = dom sh /\
    held_once sh' /\ (forall k v, holds sh' k v <-> holds sh k v) /\
    (forall n k v, lk sh' n k = Some v ->
       n = node /\ get_node hash r k = Ok (Some node) \/ lk sh n k = Some v) /\
    (forall n k, n ∈ names -> n <> node -> get_node hash r k = Ok (Some node) -> lk sh' n k = None).
Proof.
  revert sh moved. induction names as [|ex names IH]; intros sh moved Htot Hnode Honce Hnames; cbn [rebalance].
  { do 2 eexists. split; [done|]. split_and!; auto. intros n k Hn. by apply not_elem_of_nil in Hn. }
  bool_cases.
  { destruct (IH sh moved Htot Hnode Honce) as (sh' & moved' & E & I1 & I2 & I3 & I4 & I5).
    { intros n Hn. apply Hnames. by right. }
    exists sh', moved'. split_and!; auto. intros n k [->|Hn]%elem_of_cons; [done|eauto]. }
  destruct (Hnames ex) as [d Hd]; [left|]. rewrite Hd. cbn [of_option mbind res_bind].
  destruct (rebalance_one r node sh ex d Htot H Hnode Hd) as (keys & sh1 & -> & E1 & D1 & A1 & A2 & A3 & A4).
  cbn [mbind res_bind]. rewrite E1. cbn [mbind res_bind].
  assert (held_once sh1) as Honce1.
  { intros n m k [v Hv] [w Hw]. destruct (A2 _ _ _ Hv) as [(-> & G1 & L1)|L1], (A2 _ _ _ Hw) as [(-> & G2 & L2)|L2]; auto.
    - assert (m = ex) as -> by (eapply Honce; eauto). rewrite A1 in Hw by done. done.
    - assert (n = ex) as -> by (eapply Honce; eauto). rewrite A1 in Hv by done. done.
    - eapply Honce; eauto. }
  assert (forall k v, holds sh1 k v <-> holds sh k v) as Hh1.
  { intros k v. split; intros [n Hv].
    - destruct (A2 _ _ _ Hv) as [(_ & _ & L)|L]; by eexists.
    - destruct (decide (get_node hash r k = Ok (Some node) /\ n = ex)) as [[G ->]|Hno].
      + exists node. auto.
      + exists n. apply A3; [done|naive_solver|]. intros ->.
        destruct (lk sh ex k) as [w|] eqn:Ew; [|done].
        exfalso. apply H. eapply Honce; eauto. }
  destruct (IH sh1 (moved + length keys)%nat) as (sh' & moved' & -> & D2 & O2 & H2 & B1 & B2); auto.
  { intros n k [v Hv]. destruct (A2 _ _ _ Hv) as [(_ & ? & _)|L]; [eauto|by apply (Htot n); exists v]. }
  { apply elem_of_dom. rewrite D1. by apply elem_of_dom. }
  { intros n Hn. apply elem_of_dom. rewrite D1. apply elem_of_dom, Hnames. by right. }
  exists sh', moved'. split_and!; auto; [congruence| | |].
  - intros k v. by rewrite H2.
  - intros n k v Hv. destruct (B1 _ _ _ Hv) as [?|Hv1]; [by left|].
    destruct (A2 _ _ _ Hv1) as [(-> & G & _)|?]; auto.
  - intros n k [->|Hn]%elem_of_cons Hne G; [|eauto].
    destruct (lk sh' ex k) as [v|] eqn:Ev; [|done]. destruct (B1 _ _ _ Ev) as [[-> _]|L]; [done|].
    by rewrite A1 in L.
Qed.

(** The invariant of a store with replication factor 1: the shards are the members of
    the ring, and a key is held only by its owner. *)
Record store_ok (s : sharded) : Prop := {
  so_ring : ring_exact (s_ring s);
  so_vnodes : (0 < vnodes_per_node (s_ring s))%nat;
  so_rf : replication_factor s = 1%Z;
  so_shards : forall n, is_Some (shards s !! n) <-> n ∈ nodes (s_ring s);
  so_order : forall n, n ∈ shard_order s <-> n ∈ nodes (s_ring s);
  so_named : [] ∉ nodes (s_ring s);
  so_owner : forall n k, is_Some (lk (shards s) n k) -> get_node hash (s_ring s) k = Ok (Some n);
}.

Lemma get_node_total r k h : ring_ok r -> hash k = Ok h -> exists o, get_node hash r k = Ok o.
Proof.
  intros Hok Hh. destruct (positions r) eqn:E; [exists None; unfold get_node; by rewrite E|].
  destruct (get_node_owner hash hash_range r k h Hok) as (p & v & _ & _ & _ & ->); [congruence|done|eauto].
Qed.

Lemma get_node_member r k n :
  ring_ok r -> get_node hash r k = Ok (Some n) -> positions r <> [] /\ n ∈ nodes r.
Proof.
  intros Hok Hg. destruct (get_node_hashed _ _ _ _ Hg) as [Hne [h Hh]].
  destruct (get_node_owner hash hash_range r k h Hok Hne Hh) as (p & v & _ & _ & Hm & Hg'). split; congruence.
Qed.

Lemma store_held_once s : store_ok s -> held_once (shards s).
Proof. intros Hok n m k Hn Hm. pose proof (so_owner s Hok n k Hn). pose proof (so_owner s Hok m k Hm). congruence. Qed.

(** [get] reads the one shard that can hold the key. *)
Lemma s_get_holds s k h :
  store_ok s -> hash k = Ok h -> exists o, s_get hash s k = Ok o /\ forall v, o = Some v <-> holds (shards s) k v.
Proof.
  intros Hok Hh. unfold s_get. destruct (get_node_total _ k h (re_ok _ (so_ring s Hok)) Hh) as [o Ho].
  rewrite Ho. cbn [mbind res_bind]. destruct o as [n|].
  - destruct (get_node_member _ _ _ (re_ok _ (so_ring s Hok)) Ho) as [_ Hn].
    destruct (proj2 (so_shards s Hok n) Hn) as [d Hd].
    destruct n as [|c n]; [by destruct (so_named s Hok)|]. rewrite Hd. cbn [of_option mbind res_bind].
    eexists. split; [done|]. intros v. split.
    + intros Hv. exists (c :: n). unfold lk. by rewrite Hd.
    + intros [m Hm]. pose proof (so_owner s Hok m k ltac:(eauto)) as Hg.
      assert (m = c :: n) as -> by congruence. unfold lk in Hm. by rewrite Hd in Hm.
  - eexists. split; [done|]. intros v. split; [done|]. intros [m Hm].
    pose proof (so_owner s Hok m k ltac:(eauto)). congruence.
Qed.

Lemma s_get_same s s' k h :
  store_ok s -> store_ok s' -> hash k = Ok h -> (forall v, holds (shards s') k v <-> holds (shards s) k v) ->
  s_get hash s' k = s_get hash s k.
Proof.
  intros H H' Hh Heq. destruct (s_get_holds s k h H Hh) as (o & -> & Ho), (s_get_holds s' k h H' Hh) as (o' & -> & Ho').
  f_equal. apply option_eq. intros v. by rewrite Ho, Ho'.
Qed.

Lemma s_get_value s k v : store_ok s -> holds (shards s) k v -> s_get hash s k = Ok (Some v).
Proof.
  intros H Hv. pose proof Hv as [n Hn]. destruct (get_node_hashed hash _ k n (so_owner s H n k ltac:(eauto))) as [_ [h Hh]].
  destruct (s_get_holds s k h H Hh) as (o & -> & Ho). f_equal. by apply Ho.
Qed.

Lemma s_get_none s k h : store_ok s -> hash k = Ok h -> (forall v, ~ holds (shards s) k v) -> s_get hash s k = Ok None.
Proof. intros H Hh Hv. destruct (s_get_holds s k h H Hh) as (o & -> & Ho). destruct o as [v|]; [|done]. destruct (Hv v). by apply Ho. Qed.

Lemma empty_ring r : ring_exact r -> positions r = [] -> nodes r = ∅.
Proof.
  intros Hre E. apply elem_of_equiv_empty_L. intros n Hn. destruct (re_members r Hre n Hn) as (p & v & Hv & _).
  apply (re_vnodes r Hre) in Hv. rewrite E in Hv. by apply not_elem_of_nil in Hv.
Qed.

Lemma s_add_node_ok s n ps :
  store_ok s -> n ∉ nodes (s_ring s) -> n <> [] ->
  node_positions hash (s_ring s) n ps -> NoDup (ps ++ positions (s_ring s)) ->
  exists s' moved, s_add_node hash s n = (s', Ok moved) /\ store_ok s' /\
    nodes (s_ring s') = {[n]} ∪ nodes (s_ring s) /\ forall k h, hash k = Ok h -> s_get hash s' k = s_get hash s k.
Proof.
  intros Hok Hn Hnn Hps Hfresh. pose proof Hok as [Hre Hk Hrf Hsh Hord Hnm Hown].
  destruct (add_node_exact hash hash_range _ n ps Hre Hn Hk Hps Hfresh) as (r & E & Hre' & Hp & Hk' & Hnodes).
  unfold s_add_node. rewrite E. cbn [shards].
  rewrite (bool_decide_false (n ∈ shard_order s)) by (by rewrite Hord).
  assert (forall m k, lk (<[n:=∅]> (shards s)) m k = lk (shards s) m k) as Hlk.
  { intros m k. unfold lk. rewrite lookup_insert. destruct (decide (n = m)) as [<-|]; [|done].
    destruct (shards s !! n) eqn:En; [|done]. destruct Hn. apply Hsh. eauto. }
  destruct (rebalance_spec r n (shard_order s ++ [n]) (<[n:=∅]> (shards s)) 0) as (sh & moved & -> & D & O & H1 & H2 & H3).
  - intros m k Hm. rewrite Hlk in Hm. destruct (get_node_hashed hash _ k m (Hown m k Hm)) as [_ [h Hh]].
    by apply (get_node_total r k h (re_ok _ Hre')).
  - by rewrite lookup_insert_eq.
  - intros a b k. rewrite !Hlk. by apply store_held_once.
  - intros m. rewrite elem_of_app, list_elem_of_singleton. intros Hm. rewrite lookup_insert.
    destruct (decide (n = m)); [done|]. apply Hsh, Hord. naive_solver.
  - assert (forall k v, holds sh k v <-> holds (shards s) k v) as Hh.
    { intros k v. rewrite H1. unfold holds. by setoid_rewrite Hlk. }
    assert (store_ok (with_shards (Sharded r (replication_factor s) (shard_order s ++ [n]) (<[n:=∅]> (shards s))) sh)) as Hok'.
    { split; cbn [s_ring with_shards replication_factor shards shard_order]; auto.
      - lia.
      - intros m. rewrite <- elem_of_dom, D, dom_insert_L, Hnodes, !elem_of_union, elem_of_dom, Hsh. done.
      - intros m. rewrite elem_of_app, list_elem_of_singleton, Hord, Hnodes. set_solver.
      - rewrite Hnodes. set_solver.
      - intros m k [v Hv]. destruct (H2 _ _ _ Hv) as [[-> ?]|Hv0]; [done|]. rewrite Hlk in Hv0.
        pose proof (Hown m k ltac:(eauto)) as Hg.
        destruct (get_node_member _ _ _ (re_ok _ Hre) Hg) as [Hne Hm].
        destruct (add_node_owner hash hash_range _ _ _ _ k (re_ok _ Hre) Hne E) as [->|Hg']; [done|].
        rewrite (H3 m k) in Hv; [done|apply elem_of_app; left; by apply Hord|set_solver|done]. }
    do 2 eexists. split; [done|]. split_and!; [done|done|].
    intros k h Hkh. by apply (s_get_same _ _ k h).
Qed.

(** Moving a list of pairs out to their owners. *)
Lemma move_out_spec r kvs sh moved :
  (forall k, k ∈ kvs.*1 -> exists m, get_node hash r k = Ok (Some m) /\ m <> [] /\ is_Some (sh !! m)) ->
  exists sh' moved', move_out hash r sh kvs moved = Ok (sh', moved') /\ dom sh' = dom sh /\
    (forall m k v, lk sh' m k = Some v ->
       (k, v) ∈ kvs /\ get_node hash r k = Ok (Some m) \/ lk sh m k = Some v) /\
    (forall m k, k ∉ kvs.*1 -> lk sh' m k = lk sh m k) /\
    (forall k v, NoDup kvs.*1 -> (k, v) ∈ kvs -> holds sh' k v).
Proof.
  revert sh moved. induction kvs as [|[key val] kvs IH]; intros sh moved Hown; cbn [move_out].
  { do 2 eexists. split; [done|]. split_and!; auto. intros k v _ Hin. by apply not_elem_of_nil in Hin. }
  destruct (Hown key ltac:(left)) as (m & Hg & Hne & Hm). rewrite Hg. cbn [mbind res_bind].
  destruct m as [|c m']; [done|]. set (m := c :: m') in *.
  destruct (put_spec sh m key val Hm) as (sh1 & -> & D1 & P1). cbn [mbind res_bind].
  destruct (IH sh1 (S moved)) as (sh' & moved' & -> & D2 & A1 & A2 & A3).
  { intros k Hk. destruct (Hown k ltac:(by right)) as (m2 & ? & ? & Hs). exists m2. split_and!; auto.
    apply elem_of_dom. rewrite D1. by apply elem_of_dom. }
  exists sh', moved'. split_and!; auto; [congruence| | |].
  - intros n k v Hv. destruct (A1 _ _ _ Hv) as [[Hin G]|Hv1]; [left; split; [by right|done]|].
    rewrite P1 in Hv1. case_bool_decide as Hc; [|by right]. destruct Hc as [-> ->].
    injection Hv1 as ->. left. split; [left|done].
  - intros n k Hk. cbn [fmap list_fmap fst] in Hk. apply not_elem_of_cons in Hk as [Hk1 Hk2].
    rewrite A2, P1 by done. rewrite bool_decide_false by tauto. done.
  - intros k v Hnd Hin. cbn [fmap list_fmap fst] in Hnd. apply list.NoDup_cons in Hnd as [Hkey Hnd].
    apply elem_of_cons in Hin as [E|Hin]; [|auto]. injection E as -> ->.
    exists m. rewrite A2, P1 by done. by rewrite bool_decide_true.
Qed.

Lemma s_remove_node_ok s n :
  store_ok s -> n ∈ nodes (s_ring s) -> (exists m, m ∈ nodes (s_ring s) /\ m <> n) ->
  exists s' moved, s_remove_node hash s n = Ok (s', moved) /\ store_ok s' /\
    nodes (s_ring s') = nodes (s_ring s) ∖ {[n]} /\ forall k h, hash k = Ok h -> s_get hash s' k = s_get hash s k.
Proof.
  intros Hok Hn (m & Hm & Hmn). pose proof Hok as [Hre Hk Hrf Hsh Hord Hnm Hown].
  unfold s_remove_node. destruct (proj2 (Hsh n) Hn) as [d Hd]. rewrite Hd.
  destruct (remove_node_spec hash hash_range _ n Hre Hn) as (r & c & E & Hre' & Hnodes & Hk' & _ & _).
  rewrite E. cbn [mbind res_bind].
  assert (positions r <> []) as Hne.
  { intros Er. apply (empty_ring r Hre') in Er. rewrite Hnodes in Er. clear - Er Hm Hmn. set_solver. }
  destruct (move_out_spec r (map_to_list d) (base.delete n (shards s)) 0) as (sh & moved & -> & D & A1 & A2 & A3).
  { intros k ([k' w] & -> & Hk2%elem_of_map_to_list)%list_elem_of_fmap. cbn [fst].
    destruct (get_node_hashed hash _ k' n (Hown n k' ltac:(unfold lk; rewrite Hd; by exists w))) as [_ [h Hh]].
    destruct (get_node_owner hash hash_range r k' h (re_ok _ Hre') Hne Hh) as (p & v & _ & _ & Hv & ->).
    rewrite Hnodes in Hv. apply elem_of_difference in Hv as [Hv1 Hv2]. rewrite elem_of_singleton in Hv2.
    exists (node_id v). split_and!; [done|congruence|].
    rewrite lookup_delete_ne by congruence. by apply Hsh. }
  cbn [mbind res_bind].
  assert (forall a k, lk (base.delete n (shards s)) a k = if decide (a = n) then None else lk (shards s) a k) as Hlk.
  { intros a k. unfold lk. destruct (decide (a = n)) as [->|]; [by rewrite lookup_delete_eq|].
    by rewrite lookup_delete_ne. }
  assert (forall k v, (k, v) ∈ map_to_list d <-> lk (shards s) n k = Some v) as Hdk.
  { intros k v. unfold lk. by rewrite Hd, elem_of_map_to_list. }
  assert (store_ok (Sharded r (replication_factor s) (filter (fun a => a <> n) (shard_order s)) sh)) as Hok'.
  { split; cbn [s_ring replication_factor shards shard_order]; auto.
    - lia.
    - intros a. rewrite <- elem_of_dom, D, dom_delete_L, Hnodes, !elem_of_difference, elem_of_dom, Hsh. done.
    - intros a. rewrite list_elem_of_filter, Hord, Hnodes, elem_of_difference, elem_of_singleton. tauto.
    - rewrite Hnodes, elem_of_difference. tauto.
    - intros a k [v Hv]. destruct (A1 _ _ _ Hv) as [[_ ?]|Hv0]; [done|]. rewrite Hlk in Hv0.
      destruct (decide (a = n)); [done|].
      apply (remove_node_owner hash hash_range _ n _ c k a Hre E); [done|]. apply Hown. by exists v. }
  do 2 eexists. split; [done|]. split_and!; [done|done|].
  intros k h Hh. apply (s_get_same _ _ k h); auto. intros v. cbn [shards]. split.
  - intros [a Ha]. destruct (A1 _ _ _ Ha) as [[Hin _]|Hv].
    + exists n. by apply Hdk.
    + rewrite Hlk in Hv. destruct (decide (a = n)); [done|by exists a].
  - intros [a Ha]. destruct (decide (a = n)) as [->|Han].
    + apply A3; [apply NoDup_fst_map_to_list|by apply Hdk].
    + exists a. rewrite A2, Hlk; [by rewrite decide_False|].
      intros ([k' w] & -> & Hin)%list_elem_of_fmap. apply Hdk in Hin. apply Han.
      apply (store_held_once s Hok a n k'); by eexists.
Qed.

Lemma get_nodes_one s k n :
  store_ok s -> get_node hash (s_ring s) k = Ok (Some n) ->
  get_nodes hash (s_ring s) k (replication_factor s) = Ok [n].
Proof.
  intros Hok Hg. destruct (get_node_member _ _ _ (re_ok _ (so_ring s Hok)) Hg) as [Hne Hn].
  destruct (get_node_hashed _ _ _ _ Hg) as [_ [h Hkh]]. rewrite (so_rf s Hok).
  destruct (get_nodes_spec hash hash_range (s_ring s) k h 1 (so_ring s Hok) Hne Hkh) as (l & -> & _ & _ & Hl & Hh); [lia|].
  assert (1 <= size (nodes (s_ring s)))%nat as Hsz.
  { assert (size ({[n]} : gset str) <= size (nodes (s_ring s)))%nat as H1 by (apply subseteq_size; set_solver).
    rewrite size_singleton in H1. lia. }
  change (Z.to_nat 1) with 1%nat in Hl.
  destruct l as [|a [|b l]]; cbn [length head] in *; [lia| |lia]. congruence.
Qed.

Lemma s_set_ok s key h value :
  store_ok s -> nodes (s_ring s) <> ∅ -> hash key = Ok h ->
  exists s' n, s_set hash s key value = Ok (s', n) /\ store_ok s' /\ s_ring s' = s_ring s /\
    get_node hash (s_ring s) key = Ok (Some n) /\
    forall k h, hash k = Ok h -> s_get hash s' k = if bool_decide (k = key) then Ok (Some value) else s_get hash s k.
Proof.
  intros Hok Hne Hh. pose proof Hok as [Hre Hk Hrf Hsh Hord Hnm Hown].
  assert (positions (s_ring s) <> []) as Hpos by (intros E; by apply Hne, empty_ring).
  destruct (get_node_owner hash hash_range _ key h (re_ok _ Hre) Hpos Hh) as (p & v & _ & _ & Hm & Hg).
  set (n := node_id v) in *. unfold s_set. rewrite (get_nodes_one s key n Hok Hg). cbn [mbind res_bind put_all].
  destruct (put_spec (shards s) n key value) as (sh & -> & D & P); [by apply Hsh|]. cbn [mbind res_bind].
  assert (store_ok (with_shards s sh)) as Hok'.
  { split; cbn [with_shards s_ring replication_factor shards shard_order]; auto.
    - intros m. by rewrite <- Hsh, <- !elem_of_dom, D.
    - intros m k. rewrite P. case_bool_decide as Hc; [|auto]. by destruct Hc as [-> ->]. }
  do 2 eexists. split; [done|]. split_and!; [done|done|done|].
  intros k h' Hh'. case_bool_decide as Hc.
  - subst k. apply s_get_value; [done|]. exists n. cbn [with_shards shards]. by rewrite P, bool_decide_true.
  - apply (s_get_same _ _ k h'); auto. intros w. cbn [with_shards shards]. unfold holds.
    setoid_rewrite P. by setoid_rewrite bool_decide_false; [|tauto].
Qed.

Lemma s_delete_ok s key h :
  store_ok s -> hash key = Ok h ->
  exists s' found, s_delete hash s key = Ok (s', found) /\ store_ok s' /\ s_ring s' = s_ring s /\
    (found = false <-> s_get hash s key = Ok None) /\
    forall k h, hash k = Ok h -> s_get hash s' k = if bool_decide (k = key) then Ok None else s_get hash s k.
Proof.
  intros Hok Hh. pose proof Hok as [Hre Hk Hrf Hsh Hord Hnm Hown].
  destruct (get_node_total _ key h (re_ok _ Hre) Hh) as [[n|] Hg].
  2: { assert (positions (s_ring s) = []) as E.
       { destruct (positions (s_ring s)) eqn:E; [done|].
         destruct (get_node_owner hash hash_range _ key h (re_ok _ Hre) ltac:(congruence) Hh) as (p & v & _ & _ & _ & Hg'); congruence. }
       assert (forall k, s_get hash s k = Ok None) as Hnone.
       { intros k. unfold s_get, get_node. by rewrite E. }
       exists s, false. unfold s_delete, get_nodes. rewrite E. cbn [mbind res_bind delete_all].
       replace (with_shards s (shards s)) with s by (by destruct s).
       split_and!; [done|done|done|by rewrite Hnone|]. intros k _ _. rewrite !Hnone. by case_bool_decide. }
  destruct (get_node_member _ _ _ (re_ok _ Hre) Hg) as [_ Hn]. destruct (proj2 (Hsh n) Hn) as [d Hd].
  unfold s_delete. rewrite (get_nodes_one s key n Hok Hg). cbn [mbind res_bind delete_all]. rewrite Hd.
  cbn [of_option mbind res_bind].
  assert (forall v, holds (shards s) key v <-> d !! key = Some v) as Hhold.
  { intros v. split.
    - intros [m Hm]. pose proof (Hown m key ltac:(eauto)). assert (m = n) as -> by congruence.
      unfold lk in Hm. by rewrite Hd in Hm.
    - intros Hv. exists n. unfold lk. by rewrite Hd. }
  destruct (d !! key) as [v|] eqn:Ev; cbn [mbind res_bind]; do 2 eexists; (split; [done|]).
  - set (sh := <[n := base.delete key d]> (shards s)).
    assert (forall m k, lk sh m k = if bool_decide (m = n /\ k = key) then None else lk (shards s) m k) as P.
    { intros m k. unfold lk, sh. rewrite lookup_insert. destruct (decide (n = m)) as [->|Hm]; [rewrite Hd|]; simpl.
      - rewrite lookup_delete. bool_cases; destruct (decide (key = k)); naive_solver.
      - bool_cases; naive_solver. }
    assert (store_ok (with_shards s sh)) as Hok'.
    { split; cbn [with_shards s_ring replication_factor shards shard_order]; auto.
      - intros m. rewrite <- Hsh, <- !elem_of_dom. unfold sh. rewrite dom_insert_L, elem_of_union, elem_of_singleton.
        apply elem_of_dom_2 in Hd. naive_solver.
      - intros m k. rewrite P. case_bool_decide as Hc; [by intros [? ?]|auto]. }
    split_and!; [done|done| |].
    + split; [done|]. intros H. rewrite (s_get_value s key v) in H by (done || by apply Hhold). done.
    + intros k h' Hh'. case_bool_decide as Hc.
      * subst k. apply (s_get_none _ key h'); [done|done|]. intros w [m Hm]. cbn [with_shards shards] in Hm. rewrite P in Hm.
        case_bool_decide as Hmn; [done|]. apply Hmn. split; [|done].
        pose proof (Hown m key ltac:(eauto)). congruence.
      * apply (s_get_same _ _ k h'); auto. intros w. cbn [with_shards shards]. unfold holds.
        setoid_rewrite P. by setoid_rewrite bool_decide_false; [|tauto].
  - assert (s_get hash s key = Ok None) as Hnone.
    { apply (s_get_none _ key h); [done|done|]. intros w Hw. apply Hhold in Hw. done. }
    replace (with_shards s (shards s)) with s by (by destruct s).
    split_and!; [done|done|by rewrite Hnone|]. intros k _ _. case_bool_decide; [by subst|done].
Qed.
End store_facts.

(** ** Partition maps *)

Lemma add_mod_inj i a b n :
  (a < n)%nat -> (b < n)%nat -> ((i + a) mod n = (i + b) mod n)%nat -> a = b.
Proof.
  intros Ha Hb Hm. pose proof (Nat.div_mod_eq (i + a) n) as Ea. pose proof (Nat.div_mod_eq (i + b) n) as Eb.
  rewrite Hm in Ea. set (q := ((i + a) / n)%nat) in *. set (q' := ((i + b) / n)%nat) in *.
  destruct (Nat.lt_trichotomy q q') as [Hq|[Hq|Hq]].
  - pose proof (Nat.mul_le_mono_l (q + 1) q' n ltac:(lia)). lia.
  - rewrite Hq in Ea. lia.
  - pose proof (Nat.mul_le_mono_l (q' + 1) q n ltac:(lia)). lia.
Qed.

Lemma snd_imap (l : list str) : (imap (fun i s => (i, s)) l).*2 = l.
Proof.
  apply list_eq. intros i. rewrite list_lookup_fmap, list_lookup_imap. by destruct (l !! i).
Qed.

Section partition_facts.
Context (hash : str -> res N) (hash_range : forall k h, hash k = Ok h -> h < RING_SIZE).

Lemma add_nodes_spec ids r r' :
  ring_ok r -> add_nodes hash r ids = Ok r' ->
  ring_ok r' /\ (forall n, n ∈ nodes r' <-> n ∈ ids \/ n ∈ nodes r) /\ vnodes_per_node r' = vnodes_per_node r /\
  ((0 < vnodes_per_node r)%nat -> ids <> [] \/ positions r <> [] -> positions r' <> []).
Proof.
  revert r. induction ids as [|n ids IH]; intros r Hok; cbn [add_nodes].
  { intros [= ->]. split_and!; auto; [|naive_solver]. intros n. rewrite elem_of_nil. tauto. }
  intros E. destruct (add_node hash r n) as [[r1 ps]|] eqn:E1; [|discriminate]. cbn [mbind res_bind] in E.
  destruct (add_node_inv hash _ _ _ _ E1) as [Hn Hps].
  destruct (add_node_spec hash hash_range r n ps Hok Hn Hps) as (r2 & E2 & Hok1 & Hp & Hk & Hnodes & _ & _).
  rewrite E2 in E1. injection E1 as ->. destruct (IH r1 Hok1 E) as (I1 & I2 & I3 & I4).
  split_and!; auto.
  - intros m. rewrite I2, Hnodes, elem_of_cons, elem_of_union, elem_of_singleton. tauto.
  - congruence.
  - intros Hk0 _. apply I4; [lia|]. right. intros E0. rewrite E0 in Hp. apply Permutation_nil in Hp.
    apply app_eq_nil in Hp as [-> _]. apply Forall2_length in Hps. rewrite length_seq in Hps. cbn in Hps. lia.
Qed.

Lemma place_spec ns rf i :
  NoDup ns -> (rf <= Z.of_nat (length ns))%Z ->
  length (place ns rf i) = Z.to_nat rf /\ NoDup (place ns rf i) /\ place ns rf i ⊆ ns.
Proof.
  intros Hnd Hrf. unfold place. split; [by rewrite length_map, length_seq|].
  assert (forall j, (j < Z.to_nat rf)%nat ->
    ns !! ((i + j) mod length ns)%nat = Some (nth ((i + j) mod length ns) ns [])) as Hl.
  { intros j Hj. assert (((i + j) mod length ns < length ns)%nat) as Hm by (apply Nat.mod_upper_bound; lia).
    apply lookup_lt_is_Some in Hm as [x Hx]. rewrite Hx. f_equal. symmetry. by apply nth_lookup_Some. }
  split.
  - apply NoDup_alt. intros a b x Ha Hb. rewrite list_lookup_fmap in Ha, Hb.
    apply fmap_Some in Ha as (a' & Ha & ->), Hb as (b' & Hb & Heq).
    apply lookup_seq in Ha as [-> Ha], Hb as [-> Hb]. rewrite !Nat.add_0_l in *.
    pose proof (Hl a Ha) as La. pose proof (Hl b Hb) as Lb. rewrite <- Heq in Lb.
    pose proof (NoDup_lookup _ _ _ _ Hnd La Lb) as Hmod.
    apply (add_mod_inj i a b (length ns)); [lia|lia|exact Hmod].
  - intros x Hx. apply list_elem_of_fmap in Hx as (j & -> & Hj). apply elem_of_seq in Hj.
    eapply list_elem_of_lookup_2, Hl. lia.
Qed.

Lemma placement_lookup (ns : list str) (rf : Z) (ids : list (nat * str)) (m : gmap str (list str)) (s : str) (l : list str) :
  foldl (fun m '(i, s) => <[s := place ns rf i]> m) m ids !! s = Some l ->
  (exists i, l = place ns rf i) \/ m !! s = Some l.
Proof.
  revert m. induction ids as [|[i a] ids IH]; intros m H; simpl in *; [by right|].
  destruct (IH _ H) as [?|H']; [by left|]. rewrite lookup_insert in H'.
  destruct (decide (a = s)); [left; exists i; congruence|by right].
Qed.

Lemma placement_total (ns : list str) (rf : Z) (ids : list (nat * str)) (m : gmap str (list str)) (s : str) :
  s ∈ ids.*2 \/ is_Some (m !! s) ->
  is_Some (foldl (fun m '(i, s) => <[s := place ns rf i]> m) m ids !! s).
Proof.
  revert m. induction ids as [|[i a] ids IH]; intros m H; simpl.
  { destruct H as [H|H]; [by apply not_elem_of_nil in H|done]. }
  apply IH. rewrite lookup_insert. destruct (decide (a = s)) as [->|Hne]; [right; by eexists|].
  destruct H as [H|H]; [|by right]. left. cbn [fmap list_fmap snd] in H.
  apply elem_of_cons in H as [->|H]; [done|exact H].
Qed.
End partition_facts.

(** ** Properties of the ring *)

(** On every ring whose positions are sorted and owned, [get_node] returns the
    owner of the unique position that is nearest clockwise from the key's hash. *)
Theorem ring_lookup (hash : str -> res N) (r : ring) (key : str) (h : N) :
  (forall k h, hash k = Ok h -> h < RING_SIZE) -> ring_ok r -> positions r <> [] -> hash key = Ok h ->
  exists p v, nearest (positions r) h p /\
    (forall q, nearest (positions r) h q -> q = p) /\
    vnodes r !! p = Some v /\ get_node hash r key = Ok (Some (node_id v)).
Proof.
  intros Hr Hok Hne Hh. destruct (get_node_owner hash Hr r key h Hok Hne Hh) as (p & v & Hn & Hv & _ & Hg).
  exists p, v. split; [exact Hn|]. split; [|done]. intros q Hq.
  exact (nearest_unique _ _ _ _ (Hr _ _ Hh) (ro_range r Hok) Hq Hn).
Qed.

(** C13: Consistent hashing.  Adding a node whose vnode names can be hashed gives a ring of
    the same kind in which a key keeps its owner or moves to the new node (and a key that
    cannot be hashed still raises); removing a node from a ring without position collisions
    leaves every key of the other nodes in place. *)
Theorem ring_minimal_disruption (hash : str -> res N) (r : ring) (n : str) :
  (forall k h, hash k = Ok h -> h < RING_SIZE) -> ring_ok r -> positions r <> [] ->
  (forall ps, n ∉ nodes r -> node_positions hash r n ps -> exists r', add_node hash r n = Ok (r', ps) /\ ring_ok r' /\
     forall k, get_node hash r' k = get_node hash r k \/ get_node hash r' k = Ok (Some n)) /\
  (n ∈ nodes r -> ring_exact r -> exists r' c, remove_node r n = Ok (r', c) /\ ring_exact r' /\
     forall k m, m <> n -> get_node hash r k = Ok (Some m) -> get_node hash r' k = Ok (Some m)).
Proof.
  intros Hr Hok Hne. split.
  - intros ps Hn Hps. destruct (add_node_spec hash Hr r n ps Hok Hn Hps) as (r' & E & Hok' & _).
    exists r'. split_and!; auto. intros k. eapply add_node_owner; eauto.
  - intros Hn Hre. destruct (remove_node_spec hash Hr r n Hre Hn) as (r' & c & E & Hre' & _).
    exists r', c. split_and!; auto. intros k m Hm. eapply remove_node_owner; eauto.
Qed.

(** [get_nodes] returns min(n, number of members) distinct members, the primary
    first, on every ring without position collisions. *)
Theorem ring_replicas (hash : str -> res N) (r : ring) (key : str) (h : N) (n : Z) :
  (forall k h, hash k = Ok h -> h < RING_SIZE) -> ring_exact r -> positions r <> [] -> hash key = Ok h -> (1 <= n)%Z ->
  exists l, get_nodes hash r key n = Ok l /\ NoDup l /\ (forall x, x ∈ l -> x ∈ nodes r) /\
    length l = Nat.min (Z.to_nat n) (size (nodes r)) /\ get_node hash r key = Ok (head l).
Proof. intros. by eapply get_nodes_spec. Qed.

(** C12: A store with one copy per key refines a map over the keys that can be hashed: [set]
    and [delete] change the key they name and no other, [add_node] and [remove_node] move
    keys between shards and change what no [get] returns, and all four keep the invariant.
    With a key that cannot be hashed, [set], [get] and [delete] raise what the hash raises. *)
Theorem sharded_store_refines (hash : str -> res N) (s : sharded) :
  (forall k h, hash k = Ok h -> h < RING_SIZE) -> store_ok hash s ->
  (forall key h value, nodes (s_ring s) <> ∅ -> hash key = Ok h ->
     exists s' n, s_set hash s key value = Ok (s', n) /\ store_ok hash s' /\
       forall k h, hash k = Ok h -> s_get hash s' k = if bool_decide (k = key) then Ok (Some value) else s_get hash s k) /\
  (forall key h, hash key = Ok h -> exists s' found, s_delete hash s key = Ok (s', found) /\ store_ok hash s' /\
       (found = false <-> s_get hash s key = Ok None) /\
       forall k h, hash k = Ok h -> s_get hash s' k = if bool_decide (k = key) then Ok None else s_get hash s k) /\
  (forall n ps, n ∉ nodes (s_ring s) -> n <> [] ->
     node_positions hash (s_ring s) n ps -> NoDup (ps ++ positions (s_ring s)) ->
     exists s' moved, s_add_node hash s n = (s', Ok moved) /\ store_ok hash s' /\
       forall k h, hash k = Ok h -> s_get hash s' k = s_get hash s k) /\
  (forall n m, n ∈ nodes (s_ring s) -> m ∈ nodes (s_ring s) -> m <> n ->
     exists s' moved, s_remove_node hash s n = Ok (s', moved) /\ store_ok hash s' /\
       forall k h, hash k = Ok h -> s_get hash s' k = s_get hash s k) /\
  (forall key e value, nodes (s_ring s) <> ∅ -> hash key = Raise e ->
     s_set hash s key value = Raise e /\ s_get hash s key = Raise e /\ s_delete hash s key = Raise e).
Proof.
  intros Hr Hok. split_and!.
  - intros key h value Hne Hh. destruct (s_set_ok hash Hr s key h value Hok Hne Hh) as (s' & n & ? & ? & _ & _ & ?). eauto.
  - intros key h Hh. destruct (s_delete_ok hash Hr s key h Hok Hh) as (s' & f & ? & ? & _ & ? & ?). exists s', f. auto.
  - intros n ps H1 H2 H3 H4. destruct (s_add_node_ok hash Hr s n ps Hok H1 H2 H3 H4) as (s' & m & ? & ? & _ & ?). eauto.
  - intros n m H1 H2 H3. destruct (s_remove_node_ok hash Hr s n Hok H1) as (s' & c & ? & ? & _ & ?); eauto.
  - intros key e value Hne Hh. assert (positions (s_ring s) <> []) as Hpos by (intros E; by apply Hne, empty_ring, E; apply Hok).
    unfold s_set, s_get, s_delete, get_nodes, get_node. destruct (positions (s_ring s)); [done|]. by rewrite Hh.
Qed.

(** C14: A partition map that was built routes every key that can be hashed to one of its
    shards, and that shard has exactly [rf] replicas, on distinct nodes of the cluster. *)
Theorem partition_total (hash : str -> res N) ids ns repl k p :
  (forall x h, hash x = Ok h -> h < RING_SIZE) -> new_partitioner hash ids ns repl k = Ok p ->
  NoDup ns -> ids <> [] -> (0 < k)%nat ->
  forall key h, hash key = Ok h -> exists s l, shard_for hash p key = Ok s /\ s ∈ shard_ids p /\ replicas p s = Ok l /\
    length l = Z.to_nat (rf p) /\ NoDup l /\ l ⊆ p_nodes p.
Proof.
  intros Hr E Hnd Hids Hk key h Hh. unfold new_partitioner in E. set (f := effective_rf ns repl) in E.
  destruct (Z.ltb_spec (Z.of_nat (length ns)) f) as [|Hf]; [discriminate|].
  destruct (add_nodes hash (new_ring k) ids) as [r|] eqn:Er; [|discriminate]. injection E as <-.
  destruct (add_nodes_spec hash Hr ids (new_ring k) r (re_ok _ (new_ring_exact hash Hr k)) Er) as (Hok & Hn & _ & Hpos).
  destruct (get_node_owner hash Hr r key h Hok) as (q & v & _ & _ & Hm & Hg); [by apply Hpos; [|left]|done|].
  apply Hn in Hm as [Hm|Hm]; [|set_solver]. unfold shard_for, replicas. cbn [p_ring p_placement shard_ids rf p_nodes].
  rewrite Hg. destruct (placement_total ns f (imap (fun i s => (i, s)) ids) ∅ (node_id v)) as [l Hl].
  { left. by rewrite snd_imap. }
  exists (node_id v), l. rewrite Hl. split_and!; try done;
    (destruct (placement_lookup _ _ _ _ _ _ Hl) as [[i ->]|H]; [|by rewrite lookup_empty in H]);
    by destruct (place_spec ns f i Hnd Hf) as (? & ? & ?).
Qed.

(** The hash of the code, on keys that UTF-8 can encode. *)
Lemma _hash_range k h : _hash k = Ok h -> h < RING_SIZE.
Proof. unfold _hash. destruct (utf8_encode k); cbn [mbind res_bind]; [|done]. intros [= <-]. by apply N.mod_lt. Qed.

Definition hash_value (k : str) : N := match _hash k with Ok h => h | Raise _ => 0 end.

Lemma demo_hash : _hash (py "user:1") = Ok (hash_value (py "user:1")) /\ _hash (py "k") = Ok (hash_value (py "k")).
Proof. by vm_compute. Qed.

Definition demo_positions : list N := map (fun i => hash_value (vnode_name (py "node-1") i)) (seq 0 2).

Lemma demo_hashes : node_positions _hash (new_ring 2) (py "node-1") demo_positions.
Proof. repeat constructor; by vm_compute. Qed.

(** A one-node store built with the hash of the code: the witness of the store and ring properties. *)
Lemma new_store_ok k : (0 < k)%nat -> store_ok _hash (new_store 1 k).
Proof.
  intros Hk. split; cbn; auto.
  - apply (new_ring_exact _hash _hash_range).
  - intros n. rewrite lookup_empty. split; [by intros [? ?]|set_solver].
  - intros n. set_solver.
  - set_solver.
  - intros n j [v Hv]. unfold lk in Hv. rewrite lookup_empty in Hv. done.
Qed.

Definition demo_store : sharded := (s_add_node _hash (new_store 1 2) (py "node-1")).1.

Lemma demo_store_ok : store_ok _hash demo_store.
Proof.
  destruct (s_add_node_ok _hash _hash_range (new_store 1 2) (py "node-1") demo_positions) as (s' & m & E & Hok & _).
  - by apply new_store_ok; lia.
  - cbn. apply not_elem_of_empty.
  - done.
  - apply demo_hashes.
  - cbn [new_store s_ring new_ring positions]. rewrite app_nil_r. apply (bool_decide_unpack _). by vm_compute.
  - unfold demo_store. by rewrite E.
Qed.

Lemma demo_ring_nonempty : positions (s_ring demo_store) <> [].
Proof. intros E. apply (f_equal (fun l => Nat.eqb (length l) 0)) in E. vm_compute in E. discriminate. Qed.

Lemma demo_member : py "node-1" ∈ nodes (s_ring demo_store).
Proof. apply (bool_decide_unpack _). by vm_compute. Qed.

Lemma ring_lookup_witness :
  exists v, get_node _hash (s_ring demo_store) (py "user:1") = Ok (Some (node_id v)).
Proof.
  destruct (ring_lookup _hash (s_ring demo_store) (py "user:1") _ _hash_range
              (re_ok _ (so_ring _ _ demo_store_ok)) demo_ring_nonempty (proj1 demo_hash)) as (p & v & _ & _ & _ & H).
  exists v. exact H.
Defined.

Lemma ring_minimal_disruption_witness :
  exists r' c, remove_node (s_ring demo_store) (py "node-1") = Ok (r', c) /\ ring_exact r'.
Proof.
  destruct (proj2 (ring_minimal_disruption _hash (s_ring demo_store) (py "node-1") _hash_range
              (re_ok _ (so_ring _ _ demo_store_ok)) demo_ring_nonempty) demo_member (so_ring _ _ demo_store_ok))
    as (r' & c & H1 & H2 & _).
  exists r', c. exact (conj H1 H2).
Defined.

Lemma ring_replicas_witness :
  exists l, get_nodes _hash (s_ring demo_store) (py "user:1") 3 = Ok l /\ NoDup l.
Proof.
  destruct (ring_replicas _hash (s_ring demo_store) (py "user:1") _ 3 _hash_range
              (so_ring _ _ demo_store_ok) demo_ring_nonempty (proj1 demo_hash) ltac:(lia)) as (l & H1 & H2 & _).
  exists l. exact (conj H1 H2).
Defined.

Lemma demo_nodes : nodes (s_ring demo_store) <> ∅.
Proof. pose proof demo_member. set_solver. Qed.

Lemma sharded_store_refines_witness :
  exists s' n, s_set _hash demo_store (py "k") (py "v") = Ok (s', n) /\ store_ok _hash s' /\ s_get _hash s' (py "k") = Ok (Some (py "v")).
Proof.
  destruct (proj1 (sharded_store_refines _hash demo_store _hash_range demo_store_ok) (py "k") _ (py "v") demo_nodes (proj2 demo_hash))
    as (s' & n & H1 & H2 & H3).
  exists s', n. split; [exact H1|]. split; [exact H2|]. rewrite (H3 (py "k") _ (proj2 demo_hash)). reflexivity.
Defined.

Lemma demo_partitioner :
  exists p, new_partitioner _hash [py "shard-0"; py "shard-1"] [py "n1"; py "n2"; py "n3"] (Some 2%Z) 2 = Ok p.
Proof. eexists. vm_compute. reflexivity. Qed.

Lemma partition_total_witness : exists p s, shard_for _hash p (py "user:1") = Ok s.
Proof.
  destruct demo_partitioner as [p Hp].
  destruct (partition_total _hash _ _ _ _ p _hash_range Hp ltac:(apply (bool_decide_unpack _); by vm_compute)
              ltac:(discriminate) ltac:(lia) (py "user:1") _ (proj1 demo_hash)) as (s & l & H & _).
  exists p, s. exact H.
Defined.

(** ** Behaviours the rebalancing code gets wrong *)

Definition run_adds (s : sharded) (names : list str) : sharded :=
  foldl (fun s n => (s_add_node _hash s n).1) s names.

Definition set_or_same (s : sharded) (k v : str) : sharded :=
  match s_set _hash s k v with Ok (s', _) => s' | Raise _ => s end.

(** The shards that hold a key. *)
Definition holders (s : sharded) (k : str) : list str :=
  filter (fun n => is_Some (lk (shards s) n k)) (shard_order s).

(** [ShardedStore.add_node] with the name of a member raises [ValueError], but
    the member's shard has been replaced by an empty one and its keys are gone. *)
Theorem sharded_add_existing_wipes :
  let s := set_or_same (run_adds (new_store 1 2) [py "a"; py "b"]) (py "user:1") (py "x") in
  s_get _hash s (py "user:1") = Ok (Some (py "x")) /\
  exists s' n, (n = py "a" \/ n = py "b") /\ s_add_node _hash s n = (s', Raise ValueError) /\
    s_get _hash s' (py "user:1") = Ok None.
Proof.
  intros s. split; [by vm_compute|]. 
  first [exists (s_add_node _hash s (py "a")).1, (py "a"); split; [by left|by vm_compute]
        |exists (s_add_node _hash s (py "b")).1, (py "b"); split; [by right|by vm_compute]].
Qed.

(** With replication factor 2, a key written to two nodes has one copy left after
    a third node joins: [add_node] takes every copy away and stores it on the newcomer only. *)
Theorem sharded_add_node_drops_replicas :
  let s := set_or_same (run_adds (new_store 2 2) [py "a"; py "b"]) (py "k1") (py "x") in
  holders s (py "k1") = [py "a"; py "b"] /\ holders (run_adds s [py "c"]) (py "k1") = [py "c"].
Proof. by vm_compute. Qed.

(** When vnodes of two nodes hash to one position, removing the second node leaves
    the position on the ring without a vnode, and every lookup raises [KeyError]. *)
Theorem ring_collision_breaks_lookup :
  let clash := fun _ : str => Ok 7 in
  exists r1 r2 r3, add_node clash (new_ring 1) (py "a") = Ok (r1, [7]) /\ add_node clash r1 (py "b") = Ok (r2, [7]) /\
    remove_node r2 (py "b") = Ok (r3, 1%nat) /\ py "a" ∈ nodes r3 /\
    forall key, get_node clash r3 key = Raise KeyError.
Proof.
  intros clash. do 3 eexists. split; [by vm_compute|]. split; [by vm_compute|]. split; [by vm_compute|].
  split; [|done]. apply (bool_decide_unpack _). by vm_compute.
Qed.
