(* ===== verification/Storage.v ===== *)
(** * The storage interface: [litedb-python/storage_engine.py]

    [StorageEngine] is the abstract class of the source: a type class whose instances
    are the engines.  [EngineLaws] states what the layers above rely on: an engine in
    its invariant behaves like a finite map.  Deletion has its own class, because not
    every engine keeps that promise.  [RefEngine] is the map itself. *)

From S2P Require Import Prelude.

(** [WriteOp]: one put or delete of a batch. *)
Record WriteOp := mkWriteOp { op_key : str; op_value : option str; is_delete : bool }.

Definition op_put (key value : str) : WriteOp := mkWriteOp key (Some value) false.
Definition op_delete (key : str) : WriteOp := mkWriteOp key None true.

Class StorageEngine (E : Type) := {
  e_set : E -> str -> str -> res E;
  e_delete : E -> str -> res E;
  e_get : E -> str -> res (option str);
  e_scan : E -> str -> str -> res (list (str * str));
  e_write_batch : E -> list WriteOp -> res E;
}.

(** [StorageEngine.write_batch], the default: one write after the other. *)
Fixpoint write_batch_default {E} (set : E -> str -> str -> res E) (del : E -> str -> res E)
    (e : E) (ops : list WriteOp) : res E :=
  match ops with
  | [] => Ok e
  | op :: ops =>
      e' ← (if is_delete op then del e (op_key op)
            else match op_value op with Some v => set e (op_key op) v | None => Raise TypeError end);
      write_batch_default set del e' ops
  end.

(** The map after a batch of puts. *)
Definition put_all (kvs : list (str * str)) (m : gmap str str) : gmap str str :=
  foldl (fun m kv => <[kv.1 := kv.2]> m) m kvs.

Definition puts (kvs : list (str * str)) : list WriteOp := map (fun kv => op_put kv.1 kv.2) kvs.

Class EngineLaws (E : Type) `{StorageEngine E} := {
  contents : E -> gmap str str;
  e_inv : E -> Prop;
  storable : str -> str -> Prop;
  law_get e k : e_inv e -> e_get e k = Ok (contents e !! k);
  law_scan e lo hi : e_inv e -> e_scan e lo hi = Ok (map_range (contents e) lo hi);
  law_set e k v : e_inv e -> storable k v ->
    exists e', e_set e k v = Ok e' /\ e_inv e' /\ contents e' = <[k := v]> (contents e);
  law_batch e kvs : e_inv e -> Forall (fun kv => storable kv.1 kv.2) kvs ->
    exists e', e_write_batch e (puts kvs) = Ok e' /\ e_inv e' /\ contents e' = put_all kvs (contents e);
}.

(** The map after one operation of a batch. *)
Definition apply_op (m : gmap str str) (op : WriteOp) : gmap str str :=
  if is_delete op then base.delete (op_key op) m
  else match op_value op with Some v => <[op_key op := v]> m | None => m end.

Definition op_ok (ok : str -> str -> Prop) (op : WriteOp) : Prop :=
  is_delete op = true \/ exists v, op_value op = Some v /\ ok (op_key op) v.

Class EngineDeletes (E : Type) `{EngineLaws E} := {
  law_delete e k : e_inv e -> exists e', e_delete e k = Ok e' /\ e_inv e' /\ contents e' = base.delete k (contents e);
  law_ops e ops : e_inv e -> Forall (op_ok storable) ops ->
    exists e', e_write_batch e ops = Ok e' /\ e_inv e' /\ contents e' = foldl apply_op (contents e) ops;
}.

(** ** The reference engine *)

Definition ref_set (m : gmap str str) (k v : str) : res (gmap str str) := Ok (<[k := v]> m).
Definition ref_delete (m : gmap str str) (k : str) : res (gmap str str) := Ok (base.delete k m).

#[export] Instance RefEngine : StorageEngine (gmap str str) := {
  e_set := ref_set;
  e_delete := ref_delete;
  e_get m k := Ok (m !! k);
  e_scan m lo hi := Ok (map_range m lo hi);
  e_write_batch := write_batch_default ref_set ref_delete;
}.

(** Any engine whose [set] obeys the law obeys the batch law with the default batch. *)
Lemma default_batch_law {E} (set : E -> str -> str -> res E) (del : E -> str -> res E) (cont : E -> gmap str str) (inv : E -> Prop)
    (ok : str -> str -> Prop) :
  (forall e k v, inv e -> ok k v -> exists e', set e k v = Ok e' /\ inv e' /\ cont e' = <[k := v]> (cont e)) ->
  forall kvs e, inv e -> Forall (fun kv => ok kv.1 kv.2) kvs ->
  exists e', write_batch_default set del e (puts kvs) = Ok e' /\ inv e' /\ cont e' = put_all kvs (cont e).
Proof.
  intros Hset. induction kvs as [|[k v] kvs IH]; intros e He Hall; [by exists e|].
  apply Forall_cons_1 in Hall as [Hok Hall]. destruct (Hset e k v He Hok) as (e1 & E1 & He1 & C1).
  destruct (IH e1 He1 Hall) as (e2 & E2 & He2 & C2). exists e2. simpl. rewrite E1. cbn [mbind res_bind].
  split_and!; [done|done|]. by rewrite C2, C1.
Qed.

#[export] Instance RefLaws : EngineLaws (gmap str str).
Proof.
  refine {| contents := fun m => m; e_inv := fun _ => True; storable := fun _ _ => True |}; try done.
  - intros e k v _ _. by exists (<[k := v]> e).
  - intros e kvs _ Hall. apply (default_batch_law ref_set ref_delete (fun m => m) (fun _ => True) (fun _ _ => True)); auto.
    intros m k v _ _. by exists (<[k := v]> m).
Defined.

#[export] Instance RefDeletes : EngineDeletes (gmap str str).
Proof.
  split; [intros e k _; by exists (base.delete k e)|].
  intros e ops _. cbn [e_write_batch RefEngine contents RefLaws e_inv storable]. revert e.
  induction ops as [|op ops IH]; intros e Hall; [by exists e|]. apply Forall_cons_1 in Hall as [Hop Hall].
  cbn [write_batch_default foldl]. unfold apply_op at 2. destruct (is_delete op) eqn:Hd; [by apply IH|].
  destruct Hop as [Hop|(v & -> & _)]; [congruence|]. by apply IH.
Qed.

Lemma lookup_put_all_ne kvs m k : k ∉ kvs.*1 -> put_all kvs m !! k = m !! k.
Proof.
  revert m. induction kvs as [|[k' v] kvs IH]; intros m Hk; [done|]. cbn [fmap list_fmap fst] in Hk.
  apply not_elem_of_cons in Hk as [H1 H2]. change (put_all kvs (<[k' := v]> m) !! k = m !! k).
  by rewrite IH, lookup_insert_ne.
Qed.

Lemma lookup_put_all kvs m k v : NoDup kvs.*1 -> (k, v) ∈ kvs -> put_all kvs m !! k = Some v.
Proof.
  revert m. induction kvs as [|[k' v'] kvs IH]; intros m Hnd Hin; [by apply not_elem_of_nil in Hin|].
  cbn [fmap list_fmap fst] in Hnd. apply list.NoDup_cons in Hnd as [Hk Hnd].
  apply elem_of_cons in Hin as [E|Hin]; [injection E as -> ->|by apply IH].
  simpl. change (put_all kvs (<[k' := v']> m) !! k' = Some v'). by rewrite lookup_put_all_ne, lookup_insert_eq.
Qed.
