(* ===== verification/Mvcc.v ===== *)
(** * Multi-version concurrency control: [litedb-python/mvcc.py]

    [MVCCEngine] and [Transaction] over any [StorageEngine] of [Storage.v].  A commit
    writes one physical key per user key, [userKey + SEP + hex(MAX_TS - ts)].

    The theorems, against the laws of the engine interface and for any set of user keys
    that the separator keeps apart ([KeySpace]; the keys without separator are one): a
    snapshot read returns the newest version at its timestamp, commits are
    first-committer-wins and never change older snapshots, and [vacuum] changes no read
    at or above its low-water mark. *)

From S2P Require Import Prelude PyStd Storage.

Local Open Scope Z_scope.

Definition MAX_TS : Z := 9223372036854775807.
Definition SEP : str := [0%N].
Definition HI16 : str := replicate 16 102%N.
Definition HI_CHAR : str := hi_char.
Definition TOMBSTONE : str := py " __DELETED__".

Definition version_key (user_key : str) (ts : Z) : str := user_key ++ SEP ++ format_hex 16 (MAX_TS - ts).

(** [vkey[-16:]] and [vkey[:-17]]. *)
Definition ts_from_version_key (vkey : str) : res Z :=
  n ← int_hex (drop (length vkey - 16) vkey); Ok (MAX_TS - Z.of_N n).
Definition user_key_from_version_key (vkey : str) : str := take (length vkey - 17) vkey.

(** [None if v == TOMBSTONE else v]. *)
Definition live (v : str) : option str := if v =s? TOMBSTONE then None else Some v.

(** A dict assignment; dicts keep their insertion order. *)
Fixpoint dict_set {A} (d : list (str * A)) (k : str) (v : A) : list (str * A) :=
  match d with
  | [] => [(k, v)]
  | (k', v') :: d => if k' =s? k then (k, v) :: d else (k', v') :: dict_set d k v
  end.

Fixpoint dict_pop {A} (d : list (str * A)) (k : str) : list (str * A) :=
  match d with
  | [] => []
  | (k', v') :: d => if k' =s? k then d else (k', v') :: dict_pop d k
  end.

Fixpoint dict_get {A} (d : list (str * A)) (k : str) : option A :=
  match d with
  | [] => None
  | (k', v') :: d => if k' =s? k then Some v' else dict_get d k
  end.

Section engine.
Context {E : Type} `{StorageEngine E}.

Record mvcc := MVCC { engine : E; oracle : Z; last_commit_ts : Z }.

(** [_recover_max_ts]. *)
Fixpoint max_ts (l : list (str * str)) (mx : Z) : res Z :=
  match l with
  | [] => Ok mx
  | (k, _) :: l => ts ← ts_from_version_key k; max_ts l (if mx <? ts then ts else mx)
  end.
Definition recover_max_ts (e : E) : res Z := l ← e_scan e [] HI_CHAR; max_ts l 0.

Definition open_mvcc (e : E) : res mvcc := mx ← recover_max_ts e; Ok (MVCC e mx mx).

Definition mvcc_read (m : mvcc) (user_key : str) (read_ts : Z) : res (option str) :=
  l ← e_scan (engine m) (version_key user_key read_ts) (user_key ++ SEP ++ HI16);
  match l with
  | [] => Ok None
  | (_, v) :: _ => Ok (live v)
  end.

Fixpoint scan_loop (read_ts : Z) (l : list (str * str)) (cur : option str) (resolved : bool) :
    res (list (str * str)) :=
  match l with
  | [] => Ok []
  | (k, v) :: l =>
      let uk := user_key_from_version_key k in
      ts ← ts_from_version_key k;
      let resolved := if bool_decide (Some uk = cur) then resolved else false in
      if resolved then scan_loop read_ts l (Some uk) true
      else if read_ts <? ts then scan_loop read_ts l (Some uk) false
      else
        out ← scan_loop read_ts l (Some uk) true;
        Ok (if v =s? TOMBSTONE then out else (uk, v) :: out)
  end.

Definition mvcc_scan (m : mvcc) (lo_user hi_user : str) (read_ts : Z) : res (list (str * str)) :=
  l ← e_scan (engine m) lo_user (hi_user ++ HI_CHAR); scan_loop read_ts l None false.

Definition newest_committed_ts (m : mvcc) (user_key : str) : res Z :=
  l ← e_scan (engine m) (user_key ++ SEP) (user_key ++ SEP ++ HI16);
  match l with
  | [] => Ok 0
  | (k, _) :: _ => ts_from_version_key k
  end.

Fixpoint check_conflicts (m : mvcc) (read_ts : Z) (keys : list str) : res unit :=
  match keys with
  | [] => Ok tt
  | k :: keys =>
      newest ← newest_committed_ts m k;
      if read_ts <? newest then Raise ConflictError else check_conflicts m read_ts keys
  end.

(** The batch written by a commit. *)
Definition version_writes (ts : Z) (writes : list (str * str)) : list (str * str) :=
  map (fun kv => (version_key kv.1 ts, kv.2)) writes.

Definition mvcc_commit (m : mvcc) (read_ts : Z) (writes : list (str * str)) : res (mvcc * Z) :=
  _ ← check_conflicts m read_ts writes.*1;
  let commit_ts := oracle m + 1 in
  e' ← e_write_batch (engine m) (puts (version_writes commit_ts writes));
  Ok (MVCC e' commit_ts commit_ts, commit_ts).

(** The keys [vacuum] deletes. *)
Fixpoint vacuum_loop (low_water_ts : Z) (l : list (str * str)) (prev : option str) (kept_floor : bool) :
    res (list str) :=
  match l with
  | [] => Ok []
  | (k, _) :: l =>
      let uk := user_key_from_version_key k in
      ts ← ts_from_version_key k;
      let kept := if bool_decide (Some uk = prev) then kept_floor else false in
      if low_water_ts <? ts then vacuum_loop low_water_ts l (Some uk) kept
      else if kept then rest ← vacuum_loop low_water_ts l (Some uk) true; Ok (k :: rest)
      else vacuum_loop low_water_ts l (Some uk) true
  end.

Fixpoint delete_keys (e : E) (keys : list str) : res E :=
  match keys with
  | [] => Ok e
  | k :: keys => e' ← e_delete e k; delete_keys e' keys
  end.

Definition mvcc_vacuum (m : mvcc) (low_water_ts : Z) : res (mvcc * nat) :=
  l ← e_scan (engine m) [] HI_CHAR;
  to_delete ← vacuum_loop low_water_ts l None false;
  e' ← delete_keys (engine m) to_delete;
  Ok (MVCC e' (oracle m) (last_commit_ts m), length to_delete).

Definition version_count (m : mvcc) : res nat := l ← e_scan (engine m) [] HI_CHAR; Ok (length l).

(** ** [Transaction] *)

Record txn := Txn { read_ts : Z; writes : list (str * str); finished : bool; commit_ts : Z }.

Definition mvcc_begin (m : mvcc) : txn := Txn (last_commit_ts m) [] false (-1).

Definition has_writes (t : txn) : bool := match writes t with [] => false | _ => true end.

Definition ensure_active (t : txn) : res unit := if finished t then Raise RuntimeError else Ok tt.

Definition txn_get (m : mvcc) (t : txn) (key : str) : res (option str) :=
  _ ← ensure_active t;
  match dict_get (writes t) key with
  | Some v => Ok (live v)
  | None => mvcc_read m key (read_ts t)
  end.

Definition overlay (lo hi : str) (merged : list (str * str)) (kv : str * str) : list (str * str) :=
  let '(k, v) := kv in
  if (k <s? lo) || (hi <s? k) then merged
  else if v =s? TOMBSTONE then dict_pop merged k else dict_set merged k v.

Definition txn_scan (m : mvcc) (t : txn) (lo_key hi_key : str) : res (list (str * str)) :=
  base ← mvcc_scan m lo_key hi_key (read_ts t);
  let merged := foldl (fun d kv => dict_set d kv.1 kv.2) [] base in
  Ok (merge_sort key_le (foldl (overlay lo_key hi_key) merged (writes t))).

Definition txn_put (t : txn) (key value : str) : res txn :=
  _ ← ensure_active t; Ok (Txn (read_ts t) (dict_set (writes t) key value) (finished t) (commit_ts t)).

Definition txn_delete (t : txn) (key : str) : res txn := txn_put t key TOMBSTONE.

(** [finished] is set before the commit can raise, so the transaction is returned too. *)
Definition txn_commit (m : mvcc) (t : txn) : txn * res (mvcc * Z) :=
  match ensure_active t with
  | Raise e => (t, Raise e)
  | Ok _ =>
      match mvcc_commit m (read_ts t) (writes t) with
      | Ok (m', ts) => (Txn (read_ts t) (writes t) true ts, Ok (m', ts))
      | Raise e => (Txn (read_ts t) (writes t) true (commit_ts t), Raise e)
      end
  end.

Definition txn_rollback (t : txn) : txn := Txn (read_ts t) [] true (commit_ts t).
End engine.
Arguments mvcc : clear implicits.

(** ** Dictionaries *)

Lemma dict_get_set {A} (d : list (str * A)) k v k' :
  dict_get (dict_set d k v) k' = if decide (k' = k) then Some v else dict_get d k'.
Proof.
  induction d as [|[k0 v0] d IH]; cbn [dict_set dict_get].
  - case_decide; case_bool_decide; congruence.
  - case_bool_decide; subst; cbn [dict_get].
    + case_bool_decide; case_decide; congruence.
    + rewrite IH. case_bool_decide; case_decide; congruence.
Qed.

Lemma dict_get_None {A} (d : list (str * A)) k : k ∉ d.*1 -> dict_get d k = None.
Proof.
  induction d as [|[k0 v0] d IH]; [done|]. rewrite fmap_cons. intros [H1 H2]%not_elem_of_cons. cbn in *.
  rewrite bool_decide_false by congruence. auto.
Qed.

Lemma dict_get_pop {A} (d : list (str * A)) k k' :
  NoDup d.*1 -> dict_get (dict_pop d k) k' = if decide (k' = k) then None else dict_get d k'.
Proof.
  induction d as [|[k0 v0] d IH]; cbn [dict_pop dict_get]; [by case_decide|]. rewrite fmap_cons.
  intros [H1 H2]%list.NoDup_cons. cbn in H1. case_bool_decide; subst.
  - case_decide; subst; [by apply dict_get_None|]. by rewrite bool_decide_false by congruence.
  - cbn [dict_get]. rewrite IH by done. case_bool_decide; case_decide; congruence.
Qed.

Lemma dict_pop_elem {A} (d : list (str * A)) k x : x ∈ (dict_pop d k).*1 -> x ∈ d.*1.
Proof.
  induction d as [|[k0 v0] d IH]; cbn [dict_pop]; [done|]. case_bool_decide; rewrite ?fmap_cons; [by right|].
  intros [->|Hx]%elem_of_cons; [left|right]; auto.
Qed.

Lemma dict_pop_NoDup {A} (d : list (str * A)) k : NoDup d.*1 -> NoDup (dict_pop d k).*1.
Proof.
  induction d as [|[k0 v0] d IH]; cbn [dict_pop]; [done|]. rewrite fmap_cons. intros [H1 H2]%list.NoDup_cons.
  case_bool_decide; [done|]. rewrite fmap_cons. apply list.NoDup_cons. split; [|auto]. intros Hx. by apply dict_pop_elem in Hx.
Qed.

Lemma dict_set_elem {A} (d : list (str * A)) k v x : x ∈ (dict_set d k v).*1 <-> x = k \/ x ∈ d.*1.
Proof.
  induction d as [|[k0 v0] d IH]; cbn [dict_set]; rewrite ?fmap_cons; cbn [fst].
  - rewrite list_elem_of_singleton. split; [by left|]. intros [?|Hx]; [done|by apply not_elem_of_nil in Hx].
  - case_bool_decide; subst; rewrite !fmap_cons, !elem_of_cons; cbn [fst]; tauto.
Qed.

Lemma dict_set_NoDup {A} (d : list (str * A)) k v : NoDup d.*1 -> NoDup (dict_set d k v).*1.
Proof.
  induction d as [|[k0 v0] d IH]; cbn [dict_set]; rewrite ?fmap_cons.
  - intros _. apply NoDup_singleton.
  - intros [H1 H2]%list.NoDup_cons. case_bool_decide; subst; rewrite fmap_cons; apply list.NoDup_cons; [done|].
    split; [|auto]. rewrite dict_set_elem. cbn in *. tauto.
Qed.

(** ** Version keys *)

(** User keys without the separator. *)
Definition sep_free (uk : str) : Prop := Forall (fun c => c <> 0%N) uk.

(** Keys that may be stored together: no key is another one followed by the separator. *)
Class KeySpace := {
  user_key_ok : str -> Prop;
  keys_apart uk uk' r h : user_key_ok uk -> user_key_ok uk' -> uk' ++ 0%N :: h = uk ++ 0%N :: r -> uk' = uk;
}.

Lemma sep_free_apart uk uk' r h : sep_free uk -> sep_free uk' -> uk' ++ 0%N :: h = uk ++ 0%N :: r -> uk' = uk.
Proof.
  revert uk'. induction uk as [|c uk IH]; intros [|c' uk'] Hs Hs' E; cbn in E; [done| | |].
  - injection E as -> _. by apply Forall_cons_1 in Hs' as [].
  - injection E as <- _. by apply Forall_cons_1 in Hs as [].
  - injection E as -> E. apply Forall_cons_1 in Hs as [_ Hs], Hs' as [_ Hs']. by rewrite (IH uk').
Qed.

#[export] Instance sep_free_keys : KeySpace := {| user_key_ok := sep_free; keys_apart := sep_free_apart |}.

Lemma hex_bound ts : 0 <= ts <= MAX_TS -> exists n, MAX_TS - ts = Z.of_N n /\ (n < 16 ^ N.of_nat 16)%N.
Proof. intros Hts. exists (Z.to_N (MAX_TS - ts)). unfold MAX_TS in *. change (16 ^ N.of_nat 16)%N with 18446744073709551616%N. lia. Qed.

Lemma version_key_suffix uk ts :
  0 <= ts <= MAX_TS -> exists h, version_key uk ts = uk ++ 0%N :: h /\ length h = 16%nat /\ h = format_hex 16 (MAX_TS - ts).
Proof.
  intros Hts. destruct (hex_bound ts Hts) as (n & Hn & Hb). exists (format_hex 16 (MAX_TS - ts)). split_and!; auto.
  rewrite Hn. apply length_format_hex; [lia|done].
Qed.

Lemma version_key_user uk ts : 0 <= ts <= MAX_TS -> user_key_from_version_key (version_key uk ts) = uk.
Proof.
  intros Hts. destruct (version_key_suffix uk ts Hts) as (h & -> & Hl & _). unfold user_key_from_version_key.
  rewrite length_app. cbn [length]. rewrite Hl, take_app_le by lia. apply take_ge. lia.
Qed.

Lemma version_key_ts uk ts : 0 <= ts <= MAX_TS -> ts_from_version_key (version_key uk ts) = Ok ts.
Proof.
  intros Hts. destruct (version_key_suffix uk ts Hts) as (h & -> & Hl & Hh). unfold ts_from_version_key.
  replace (length (uk ++ 0%N :: h) - 16)%nat with (length (uk ++ [0%N])) by (rewrite !length_app; simpl; lia).
  replace (uk ++ 0%N :: h) with ((uk ++ [0%N]) ++ h) by (by rewrite <- (assoc app)).
  rewrite drop_app_length, Hh. destruct (hex_bound ts Hts) as (n & Hn & Hb). rewrite Hn, int_hex_format by (lia || done).
  cbn [mbind res_bind]. f_equal. lia.
Qed.

Lemma version_key_inj uk uk' ts ts' :
  0 <= ts <= MAX_TS -> 0 <= ts' <= MAX_TS -> version_key uk ts = version_key uk' ts' -> uk = uk' /\ ts = ts'.
Proof.
  intros H H' E. split.
  - by rewrite <- (version_key_user uk ts H), <- (version_key_user uk' ts' H'), E.
  - pose proof (version_key_ts uk ts H) as E1. rewrite E, version_key_ts in E1 by done. congruence.
Qed.

(** Newer versions of a key come first. *)
Lemma version_key_order uk ts ts' :
  0 <= ts <= MAX_TS -> 0 <= ts' <= MAX_TS -> version_key uk ts <=s version_key uk ts' <-> ts' <= ts.
Proof.
  intros H H'. unfold version_key. rewrite !str_le_app. unfold str_le.
  destruct (hex_bound ts H) as (n & Hn & Hb), (hex_bound ts' H') as (n' & Hn' & Hb').
  rewrite Hn, Hn', format_hex_cmp by (lia || done). rewrite N.compare_gt_iff. lia.
Qed.

Lemma version_key_high uk ts : 0 <= ts <= MAX_TS -> version_key uk ts <=s uk ++ SEP ++ HI16.
Proof.
  intros H. unfold version_key. rewrite !str_le_app. unfold str_le.
  destruct (hex_bound ts H) as (n & -> & Hb).
  replace HI16 with (format_hex 16 (Z.of_N 18446744073709551615)) by (by vm_compute).
  rewrite format_hex_cmp by (lia || done). rewrite N.compare_gt_iff.
  change (16 ^ N.of_nat 16)%N with 18446744073709551616%N in Hb. lia.
Qed.

(** Everything between a prefix and one of its extensions starts with it. *)
Lemma between_prefix (p k x : str) : p <=s k -> k <=s p ++ x -> exists r, k = p ++ r.
Proof.
  revert k. induction p as [|c p IH]; intros [|d k] H1 H2; [by exists []|by exists (d :: k)|by unfold str_le in H1; cbn in H1|].
  unfold str_le in H1, H2. cbn in H1, H2. rewrite N.compare_antisym in H1.
  destruct (N.compare_spec d c) as [->|Hlt|Hgt]; cbn in *; [|done|done]. destruct (IH k H1 H2) as [r ->]. by exists r.
Qed.

Section key_space.
Context {KS : KeySpace}.

(** Between two strings [uk + SEP + _] lie only keys of [uk]. *)
Lemma between_same_user uk uk' a h b :
  user_key_ok uk -> user_key_ok uk' -> uk ++ 0%N :: a <=s uk' ++ 0%N :: h -> uk' ++ 0%N :: h <=s uk ++ 0%N :: b -> uk' = uk.
Proof.
  intros Hs Hs' H1 H2. destruct (between_prefix (uk ++ [0%N]) (uk' ++ 0%N :: h) b) as [r E].
  - pose proof (str_le_prefix (uk ++ [0%N]) a) as Hp. rewrite <- (assoc app) in Hp. cbn [app] in Hp. str_order.
  - by rewrite <- (assoc app).
  - rewrite <- (assoc app) in E. cbn [app] in E. by apply (keys_apart uk uk' r h).
Qed.

(** ** Snapshots *)

(** The newest version of [uk] in [M] with a timestamp up to [ts]. *)
Definition newest (M : gmap str str) (uk : str) (ts : Z) (o : option (Z * str)) : Prop :=
  match o with
  | Some (t, v) => 0 <= t <= ts /\ M !! version_key uk t = Some v /\
      forall t', t < t' <= ts -> M !! version_key uk t' = None
  | None => forall t', 0 <= t' <= ts -> M !! version_key uk t' = None
  end.

Definition live_version (o : option (Z * str)) : option str := o ≫= fun tv => live tv.2.

Lemma newest_unique M uk ts o1 o2 : newest M uk ts o1 -> newest M uk ts o2 -> o1 = o2.
Proof.
  destruct o1 as [[t1 v1]|], o2 as [[t2 v2]|]; simpl; auto.
  - intros (H1 & L1 & N1) (H2 & L2 & N2). destruct (Z.lt_trichotomy t1 t2) as [Hl|[->|Hl]].
    + rewrite N1 in L2 by lia. done.
    + congruence.
    + rewrite N2 in L1 by lia. done.
  - intros (H1 & L1 & _) N2. rewrite N2 in L1 by lia. done.
  - intros N1 (H2 & L2 & _). rewrite N1 in L2 by lia. done.
Qed.

(** Every stored key is a version, not newer than [last], of a user key. *)
Definition versions_ok (M : gmap str str) (last : Z) : Prop :=
  forall k v, M !! k = Some v -> exists uk t, k = version_key uk t /\ user_key_ok uk /\ 1 <= t <= last.

(** The same for the keys next to [uk], for stores that hold other keys too. *)
Definition versions_near (M : gmap str str) (last : Z) (uk : str) : Prop :=
  forall k v, M !! k = Some v -> uk ++ SEP <=s k -> k <=s uk ++ SEP ++ HI16 ->
  exists uk' t, k = version_key uk' t /\ user_key_ok uk' /\ 1 <= t <= last.

Lemma versions_ok_near M last uk : versions_ok M last -> versions_near M last uk.
Proof. intros Hok k v Hk _ _. by apply (Hok k v). Qed.

Lemma version_key_low uk t : uk ++ SEP <=s version_key uk t.
Proof. unfold version_key. rewrite (assoc app). apply str_le_prefix. Qed.

Lemma map_range_head (M : gmap str str) lo hi :
  match map_range M lo hi with
  | [] => forall k v, M !! k = Some v -> lo <=s k -> k <=s hi -> False
  | (k, v) :: _ => M !! k = Some v /\ lo <=s k /\ k <=s hi /\
      forall k' v', M !! k' = Some v' -> lo <=s k' -> k' <=s hi -> k <=s k'
  end.
Proof.
  pose proof (map_range_sorted M lo hi) as Hs.
  assert (forall k v, (k, v) ∈ map_range M lo hi <-> M !! k = Some v /\ lo <=s k /\ k <=s hi) as Hin
    by (intros; apply elem_of_map_range).
  destruct (map_range M lo hi) as [|[k v] l].
  - intros k v H1 H2 H3. apply (not_elem_of_nil (k, v)), Hin. auto.
  - destruct (proj1 (Hin k v)) as (H1 & H2 & H3); [left|]. split_and!; auto.
    intros k' v' H1' H2' H3'. assert ((k', v') ∈ (k, v) :: l) as Hk by (apply Hin; auto).
    apply elem_of_cons in Hk as [E|Hk]; [injection E as -> ->; str_order|].
    simpl in Hs. apply StronglySorted_cons in Hs as [Hs _]. rewrite list.Forall_forall in Hs.
    assert (k <s k') by (apply Hs, list_elem_of_fmap; by exists (k', v')). str_order.
Qed.

(** A scan from the version at [ts] finds the newest version first. *)
Lemma first_version M last uk ts :
  versions_near M last uk -> last <= MAX_TS -> user_key_ok uk -> 0 <= ts <= MAX_TS ->
  exists o, newest M uk ts o /\
    match map_range M (version_key uk ts) (uk ++ SEP ++ HI16) with
    | [] => o = None
    | (k, v) :: _ => exists t, o = Some (t, v) /\ k = version_key uk t /\ 1 <= t <= last
    end.
Proof.
  intros Hok Hlast Huk Hts. pose proof (map_range_head M (version_key uk ts) (uk ++ SEP ++ HI16)) as Hh.
  destruct (map_range _ _ _) as [|[k v] l].
  - exists None. split; [|done]. intros t Ht. destruct (M !! version_key uk t) as [v|] eqn:E; [|done].
    exfalso. apply (Hh _ _ E); [apply version_key_order; lia|apply version_key_high; lia].
  - destruct Hh as (H1 & H2 & H3 & H4). pose proof (version_key_low uk ts) as Hlow.
    destruct (Hok k v H1 ltac:(str_order) H3) as (uk' & t & -> & Huk' & Ht).
    assert (uk' = uk) as ->.
    { destruct (version_key_suffix uk ts ltac:(lia)) as (h1 & E1 & _), (version_key_suffix uk' t ltac:(lia)) as (h2 & E2 & _).
      rewrite E1 in H2. rewrite E2 in H2, H3. exact (between_same_user uk uk' h1 h2 HI16 Huk Huk' H2 H3). }
    exists (Some (t, v)). split; [|eauto]. apply version_key_order in H2; [|lia|lia].
    split; [lia|]. split; [done|]. intros t' Ht'. destruct (M !! version_key uk t') as [v'|] eqn:E'; [|done].
    assert (version_key uk t <=s version_key uk t') as Hle.
    { apply (H4 _ _ E'); [apply version_key_order; lia|apply version_key_high; lia]. }
    apply version_key_order in Hle; lia.
Qed.

(** A scan over all versions of [uk] finds the latest one first. *)
Lemma latest_version M last uk :
  versions_near M last uk -> last <= MAX_TS -> user_key_ok uk ->
  match map_range M (uk ++ SEP) (uk ++ SEP ++ HI16) with
  | [] => forall t, 0 <= t <= MAX_TS -> M !! version_key uk t = None
  | (k, v) :: _ => exists t, k = version_key uk t /\ 1 <= t <= last /\ M !! version_key uk t = Some v /\
      forall t', 0 <= t' <= MAX_TS -> is_Some (M !! version_key uk t') -> t' <= t
  end.
Proof.
  intros Hok Hlast Huk. pose proof (map_range_head M (uk ++ SEP) (uk ++ SEP ++ HI16)) as Hh.
  destruct (map_range _ _ _) as [|[k v] l].
  - intros t Ht. destruct (M !! version_key uk t) as [v|] eqn:E; [|done].
    exfalso. apply (Hh _ _ E); [apply version_key_low|by apply version_key_high].
  - destruct Hh as (H1 & H2 & H3 & H4). destruct (Hok k v H1 H2 H3) as (uk' & t & -> & Huk' & Ht).
    assert (uk' = uk) as ->.
    { destruct (version_key_suffix uk' t ltac:(lia)) as (h2 & E2 & _). rewrite E2 in H2, H3.
      exact (between_same_user uk uk' [] h2 HI16 Huk Huk' H2 H3). }
    exists t. do 3 (split; [done|]). intros t' Ht' [v' E']. assert (version_key uk t <=s version_key uk t') as Hle.
    { apply (H4 _ _ E'); [apply version_key_low|by apply version_key_high]. }
    apply version_key_order in Hle; lia.
Qed.

End key_space.

Section mvcc_facts.
Context {KS : KeySpace} {E : Type} `{EngineLaws E}.

(** The invariant of [MVCCEngine]. *)
Record mvcc_ok (m : mvcc E) : Prop := {
  mo_engine : e_inv (engine m);
  mo_versions : versions_ok (contents (engine m)) (last_commit_ts m);
  mo_oracle : oracle m = last_commit_ts m;
  mo_range : 0 <= last_commit_ts m <= MAX_TS;
}.

Lemma mvcc_read_newest m uk ts :
  mvcc_ok m -> user_key_ok uk -> 0 <= ts <= MAX_TS ->
  exists o, newest (contents (engine m)) uk ts o /\ mvcc_read m uk ts = Ok (live_version o).
Proof.
  intros [He Hv Ho Hr] Huk Hts. destruct (first_version _ _ uk ts (versions_ok_near _ _ uk Hv) (proj2 Hr) Huk Hts) as (o & Hn & Hm).
  exists o. split; [done|]. unfold mvcc_read. rewrite law_scan by done. cbn [mbind res_bind].
  destruct (map_range _ _ _) as [|[k v] l]; [by subst|]. destruct Hm as (t & -> & _). done.
Qed.

Lemma mvcc_read_eq m m' uk ts ts' :
  mvcc_ok m -> mvcc_ok m' -> user_key_ok uk -> 0 <= ts <= MAX_TS -> 0 <= ts' <= MAX_TS ->
  (forall o, newest (contents (engine m)) uk ts o -> newest (contents (engine m')) uk ts' o) ->
  mvcc_read m' uk ts' = mvcc_read m uk ts.
Proof.
  intros Hm Hm' Huk Hts Hts' Hn. destruct (mvcc_read_newest m uk ts Hm Huk Hts) as (o & Ho & ->).
  destruct (mvcc_read_newest m' uk ts' Hm' Huk Hts') as (o' & Ho' & ->).
  by rewrite (newest_unique _ _ _ _ _ Ho' (Hn o Ho)).
Qed.

(** The conflict check looks at the newest version of each key. *)
Lemma newest_committed m uk :
  mvcc_ok m -> user_key_ok uk ->
  exists n, newest_committed_ts m uk = Ok n /\ 0 <= n <= MAX_TS /\
    (forall t v, 0 <= t <= MAX_TS -> contents (engine m) !! version_key uk t = Some v -> t <= n) /\
    (0 < n -> is_Some (contents (engine m) !! version_key uk n)).
Proof.
  intros [He Hv Ho Hr] Huk. unfold newest_committed_ts. rewrite law_scan by done. cbn [mbind res_bind].
  pose proof (latest_version _ _ uk (versions_ok_near _ _ uk Hv) (proj2 Hr) Huk) as Hl.
  destruct (map_range _ _ _) as [|[k v] l].
  - exists 0. split_and!; [done|lia|unfold MAX_TS; lia| |lia]. intros t v Ht E'. by rewrite Hl in E'.
  - destruct Hl as (t & -> & Ht & E' & Hmax). exists t. rewrite version_key_ts by lia. split_and!; [done|lia|lia| |eauto].
    intros t' v' Ht' E2. apply Hmax; [done|eauto].
Qed.

Lemma check_conflicts_spec m r keys :
  mvcc_ok m -> 0 <= r -> Forall user_key_ok keys ->
  let clash := exists k t, k ∈ keys /\ r < t <= MAX_TS /\ is_Some (contents (engine m) !! version_key k t) in
  check_conflicts m r keys = Ok tt /\ ~ clash \/ check_conflicts m r keys = Raise ConflictError /\ clash.
Proof.
  intros Hm Hr Hk. induction Hk as [|k keys Hk _ IH]; intros clash; cbn [check_conflicts].
  { left. split; [done|]. intros (k & t & Hin & _). by apply not_elem_of_nil in Hin. }
  destruct (newest_committed m k Hm Hk) as (n & -> & Hn0 & Hmax & Hsome). cbn [mbind res_bind].
  destruct (Z.ltb_spec r n) as [Hlt|Hge].
  - right. split; [done|]. exists k, n. assert (0 < n) as Hn by lia. split_and!; [left|lia|lia|auto].
  - destruct IH as [[-> IH]|[-> IH]]; [left|right]; (split; [done|]).
    + intros (k' & t & Hin & Ht & [v Hv]). apply elem_of_cons in Hin as [->|Hin]; [|apply IH; eauto 10].
      pose proof (Hmax t v ltac:(lia) Hv). lia.
    + destruct IH as (k' & t & Hin & ?). exists k', t. split; [by right|done].
Qed.

Lemma version_writes_keys ts ws : (version_writes ts ws).*1 = (fun k => version_key k ts) <$> ws.*1.
Proof. unfold version_writes. rewrite <- !list_fmap_compose. apply list_fmap_ext. intros; done. Qed.

(** What a successful commit does to the versions. *)
Lemma commit_versions M last ws :
  versions_ok M last -> 0 <= last < MAX_TS -> Forall user_key_ok ws.*1 -> NoDup ws.*1 ->
  let M' := put_all (version_writes (last + 1) ws) M in
  versions_ok M' (last + 1) /\
  (forall uk t, 0 <= t <= last -> M' !! version_key uk t = M !! version_key uk t) /\
  (forall k v, (k, v) ∈ ws -> M' !! version_key k (last + 1) = Some v) /\
  (forall uk, uk ∉ ws.*1 -> M' !! version_key uk (last + 1) = None).
Proof.
  intros Hv Hl Hsf Hnd M'.
  assert (forall k, k ∈ (version_writes (last + 1) ws).*1 <-> exists uk, uk ∈ ws.*1 /\ k = version_key uk (last + 1)) as Hin.
  { intros k. rewrite version_writes_keys, list_elem_of_fmap. naive_solver. }
  assert (NoDup (version_writes (last + 1) ws).*1) as Hnd'.
  { rewrite version_writes_keys. apply NoDup_fmap_2_strong; [|done]. intros x y _ _ Hxy.
    apply version_key_inj in Hxy; [tauto|lia|lia]. }
  split_and!.
  - intros k v. destruct (decide (k ∈ (version_writes (last + 1) ws).*1)) as [Hk|Hk].
    + intros _. apply Hin in Hk as (uk & Huk & ->). exists uk, (last + 1).
      split_and!; [done| |lia|lia]. by eapply list.Forall_forall in Hsf.
    + unfold M'. rewrite lookup_put_all_ne by done. intros Hkv.
      destruct (Hv k v Hkv) as (uk & t & -> & Huk & Ht). exists uk, t. split_and!; auto; lia.
  - intros uk t Ht. unfold M'. apply lookup_put_all_ne. rewrite Hin. intros (uk' & _ & E').
    apply version_key_inj in E'; [lia|lia|lia].
  - intros k v Hkv. unfold M'. apply lookup_put_all; [done|].
    unfold version_writes. apply list_elem_of_fmap. by exists (k, v).
  - intros uk Huk. unfold M'. rewrite lookup_put_all_ne.
    + destruct (M !! version_key uk (last + 1)) as [v|] eqn:Ev; [|done].
      destruct (Hv _ _ Ev) as (uk' & t & E' & _ & Ht). apply version_key_inj in E'; lia.
    + rewrite Hin. intros (uk' & Huk' & E'). apply version_key_inj in E' as [-> _]; [done|lia|lia].
Qed.

(** ** Garbage collection *)

(** A version at or below the mark that a newer version, also below the mark, hides. *)
Definition superseded (M : gmap str str) (mark : Z) (k : str) : Prop :=
  exists uk t t', k = version_key uk t /\ 0 <= t < t' /\ t' <= mark /\ t' <= MAX_TS /\ is_Some (M !! version_key uk t').

End mvcc_facts.

(** ** The loops of [_scan] and [vacuum] on decoded versions *)

Record vrec := VRec { r_key : str; r_ts : Z; r_val : str }.
Definition enc (r : vrec) : str * str := (version_key (r_key r) (r_ts r), r_val r).

(** The versions of a key are contiguous, newest first. *)
Fixpoint ordered (vs : list vrec) : Prop :=
  match vs with
  | [] => True
  | r :: vs => ordered vs /\ forall y, y ∈ vs -> r_key y = r_key r ->
      r_ts y < r_ts r /\ exists h, head vs = Some h /\ r_key h = r_key r
  end.

Section loops.
Context {KS : KeySpace}.

Definition valid (r : vrec) : Prop := user_key_ok (r_key r) /\ 0 <= r_ts r <= MAX_TS.

Lemma decode_list M last (l : list (str * str)) :
  versions_ok M last -> last <= MAX_TS -> (forall k v, (k, v) ∈ l -> M !! k = Some v) ->
  exists vs, l = enc <$> vs /\ Forall valid vs.
Proof.
  intros Hv Hl. induction l as [|[k v] l IH]; intros Hin; [by exists []|].
  destruct IH as (vs & -> & Hvs); [intros; apply Hin; by right|].
  destruct (Hv k v) as (uk & t & -> & Huk & Ht); [apply Hin; left|].
  exists (VRec uk t v :: vs). split; [done|]. constructor; [|done]. split; simpl; [done|lia].
Qed.

Lemma between_versions a b c :
  valid a -> valid b -> valid c -> r_key a = r_key c -> (enc a).1 <=s (enc b).1 -> (enc b).1 <=s (enc c).1 -> r_key b = r_key a.
Proof.
  intros [Ka Ta] [Kb Tb] [Kc Tc] E H1 H2. simpl in *.
  destruct (version_key_suffix (r_key a) (r_ts a) Ta) as (h1 & E1 & _).
  destruct (version_key_suffix (r_key b) (r_ts b) Tb) as (h2 & E2 & _).
  destruct (version_key_suffix (r_key c) (r_ts c) Tc) as (h3 & E3 & _).
  rewrite E1, E2 in H1. rewrite E2, E3, <- E in H2. exact (between_same_user _ _ _ _ _ Ka Kb H1 H2).
Qed.

Lemma sorted_ordered vs : Forall valid vs -> StronglySorted str_lt (enc <$> vs).*1 -> ordered vs.
Proof.
  induction 1 as [|r vs Hr Hvs IH]; [done|]. cbn [fmap list_fmap]. intros [Hlt Hs]%StronglySorted_cons.
  split; [auto|]. rewrite list.Forall_forall in Hlt.
  assert (forall y, y ∈ vs -> (enc r).1 <s (enc y).1) as Hry.
  { intros y Hy. apply Hlt. rewrite <- list_fmap_compose. apply list_elem_of_fmap. by exists y. }
  intros y Hy E. assert (valid y) as Hvy by (by eapply list.Forall_forall in Hvs). split.
  - specialize (Hry y Hy). simpl in Hry. rewrite E in Hry.
    destruct (Z.lt_ge_cases (r_ts y) (r_ts r)) as [|Hge]; [done|].
    apply version_key_order with (uk := r_key r) in Hge; [str_order|apply Hvy|apply Hr].
  - destruct vs as [|h vs]; [by apply not_elem_of_nil in Hy|]. exists h. split; [done|].
    apply Forall_cons_1 in Hvs as [Hh Hvs].
    apply elem_of_cons in Hy as [->|Hy]; [done|]. apply (between_versions r h y); auto.
    + assert ((enc r).1 <s (enc h).1) by (apply Hry; left). str_order.
    + cbn [fmap list_fmap] in Hs. apply StronglySorted_cons in Hs as [Hs _]. rewrite list.Forall_forall in Hs.
      assert ((enc h).1 <s (enc y).1); [|str_order].
      apply Hs. rewrite <- list_fmap_compose. apply list_elem_of_fmap. by exists y.
Qed.

(** The key in the loop state can only continue at the head of the rest. *)
Definition resumes (prev : option str) (vs : list vrec) : Prop :=
  forall p y, prev = Some p -> y ∈ vs -> r_key y = p -> exists h, head vs = Some h /\ r_key h = p.

Lemma resumes_next r vs : ordered (r :: vs) -> resumes (Some (r_key r)) vs.
Proof. intros [_ Ho] p y [= <-] Hy E. apply (Ho y Hy E). Qed.

Lemma resumes_other prev r vs p y :
  resumes prev (r :: vs) -> prev = Some p -> r_key r <> p -> y ∈ r :: vs -> r_key y <> p.
Proof. intros Hres E Hne Hy Ek. destruct (Hres p y E Hy Ek) as (h & [= ->] & Eh). done. Qed.

Lemma vacuum_loop_spec mark vs prev kept :
  Forall valid vs -> ordered vs -> resumes prev vs ->
  exists ks, vacuum_loop mark (enc <$> vs) prev kept = Ok ks /\
    forall k, k ∈ ks <-> exists r, r ∈ vs /\ k = (enc r).1 /\ r_ts r <= mark /\
      (prev = Some (r_key r) /\ kept = true \/
       exists r', r' ∈ vs /\ r_key r' = r_key r /\ r_ts r < r_ts r' <= mark).
Proof.
  intros Hval. revert prev kept. induction Hval as [|r vs Hr Hval IH]; intros prev kept Hord Hres.
  { exists []. split; [done|]. intros k. split; [intros Hk; by apply not_elem_of_nil in Hk|].
    intros (r & Hr & _). by apply not_elem_of_nil in Hr. }
  cbn [fmap list_fmap]. unfold enc at 1. cbn [vacuum_loop]. destruct Hr as [Hsf Hts].
  rewrite version_key_ts, version_key_user by done. cbn [mbind res_bind].
  pose proof (resumes_next r vs Hord) as Hnext. pose proof Hord as [Hord' Hnew].
  set (kept' := if bool_decide (Some (r_key r) = prev) then kept else false).
  assert (kept' = true <-> prev = Some (r_key r) /\ kept = true) as Hk'.
  { unfold kept'. case_bool_decide; naive_solver. }
  assert (forall q, q ∈ vs -> prev = Some (r_key q) -> prev = Some (r_key r)) as Hprev.
  { intros q Hq Eq. destruct (decide (r_key r = r_key q)) as [->|Hne]; [done|].
    exfalso. apply (resumes_other prev r vs (r_key q) q Hres Eq Hne); [by right|done]. }
  assert (forall b ks, vacuum_loop mark (enc <$> vs) (Some (r_key r)) b = Ok ks -> 
    (b = true <-> kept' = true \/ r_ts r <= mark) ->
    (forall k, k ∈ ks <-> exists q, q ∈ vs /\ k = (enc q).1 /\ r_ts q <= mark /\
      (prev = Some (r_key q) /\ kept = true \/
       exists r', r' ∈ r :: vs /\ r_key r' = r_key q /\ r_ts q < r_ts r' <= mark))) as Hrest.
  { intros b ks Ek Hb k. destruct (IH (Some (r_key r)) b Hord' Hnext) as (ks' & Ek' & Hks).
    rewrite Ek in Ek'. injection Ek' as <-. rewrite Hks.
    split; intros (q & Hq & -> & Hqm & Hor); exists q; split_and!; auto.
    - destruct Hor as [[[= E] ->]|(r' & Hr' & E & Ht)].
      + destruct (proj1 Hb eq_refl) as [Hk|Hm]; [left; rewrite <- E; by apply Hk'|].
        right. exists r. split_and!; [left|done| |done]. by apply Hnew.
      + right. exists r'. split_and!; [by right|done|lia|lia].
    - destruct Hor as [[E ->]|(r' & Hr' & E & Ht)].
      + left. assert (prev = Some (r_key r)) as Er by (by apply (Hprev q)). split; [congruence|].
        apply Hb. left. apply Hk'. done.
      + apply elem_of_cons in Hr' as [->|Hr']; [|by right; exists r'].
        left. split; [by rewrite E|]. apply Hb. right. lia. }
  assert (forall r', r' ∈ r :: vs -> r_key r' = r_key r -> ~ r_ts r < r_ts r') as Hmax.
  { intros r' Hr' E. apply elem_of_cons in Hr' as [->|Hr']; [lia|]. pose proof (proj1 (Hnew r' Hr' E)). lia. }
  destruct (Z.ltb_spec mark (r_ts r)) as [Hm|Hm].
  - destruct (IH (Some (r_key r)) kept' Hord' Hnext) as (ks & Ek & _). exists ks. split; [done|].
    intros k. rewrite (Hrest kept' ks Ek) by (destruct kept'; naive_solver lia).
    split; intros (q & Hq & ? & ? & ?); exists q; [split_and!; auto; by right|].
    apply elem_of_cons in Hq as [->|Hq]; [lia|]. done.
  - destruct kept' eqn:Ekept.
    + destruct (IH (Some (r_key r)) true Hord' Hnext) as (ks & Ek & _). rewrite Ek. cbn [mbind res_bind].
      eexists. split; [done|]. intros k. rewrite elem_of_cons, (Hrest true ks Ek) by tauto. split.
      * intros [->|(q & Hq & ?)]; [|exists q; split; [by right|done]]. exists r. split_and!; [left|done|done|].
        left. by apply Hk'.
      * intros (q & Hq & ? & ? & ?). apply elem_of_cons in Hq as [->|Hq]; [by left|]. right. by exists q.
    + destruct (IH (Some (r_key r)) true Hord' Hnext) as (ks & Ek & _). exists ks. split; [done|].
      intros k. rewrite (Hrest true ks Ek) by naive_solver.
      split; intros (q & Hq & ? & ? & Hor); exists q; [split_and!; auto; by right|].
      apply elem_of_cons in Hq as [->|Hq]; [|done]. exfalso.
      destruct Hor as [Hor|(r' & Hr' & E & Ht)]; [by apply Hk' in Hor|]. apply (Hmax r' Hr' E). lia.
Qed.

(** The entry of a key that a scan at [ts] shows. *)
Definition shown (ts : Z) (vs : list vrec) (r : vrec) : Prop :=
  r ∈ vs /\ r_ts r <= ts /\ forall r', r' ∈ vs -> r_key r' = r_key r -> r_ts r' <= ts -> r_ts r' <= r_ts r.

Lemma scan_loop_spec ts vs cur resolved :
  Forall valid vs -> ordered vs -> resumes cur vs ->
  exists out, scan_loop ts (enc <$> vs) cur resolved = Ok out /\
    forall k v, (k, v) ∈ out <-> exists r, shown ts vs r /\ k = r_key r /\ v = r_val r /\ v <> TOMBSTONE /\
      ~ (cur = Some k /\ resolved = true).
Proof.
  intros Hval. revert cur resolved. induction Hval as [|r vs Hr Hval IH]; intros cur resolved Hord Hres.
  { exists []. split; [done|]. intros k v. split; [intros Hk; by apply not_elem_of_nil in Hk|].
    intros (r & (Hr & _) & _). by apply not_elem_of_nil in Hr. }
  cbn [fmap list_fmap]. unfold enc at 1. cbn [scan_loop]. destruct Hr as [Hsf Hts].
  rewrite version_key_ts, version_key_user by done. cbn [mbind res_bind].
  pose proof (resumes_next r vs Hord) as Hnext. pose proof Hord as [Hord' Hnew].
  set (res' := if bool_decide (Some (r_key r) = cur) then resolved else false).
  assert (res' = true <-> cur = Some (r_key r) /\ resolved = true) as Hr'.
  { unfold res'. case_bool_decide; naive_solver. }
  assert (forall q, q ∈ vs -> cur = Some (r_key q) -> cur = Some (r_key r)) as Hcur.
  { intros q Hq Eq. destruct (decide (r_key r = r_key q)) as [->|Hne]; [done|].
    exfalso. apply (resumes_other cur r vs (r_key q) q Hres Eq Hne); [by right|done]. }
  (* the entries after [r], given whether [r] or an earlier one decided its key *)
  assert (forall b out, scan_loop ts (enc <$> vs) (Some (r_key r)) b = Ok out ->
    (b = true <-> res' = true \/ r_ts r <= ts) ->
    forall k v, (k, v) ∈ out <-> exists q, q ∈ vs /\ shown ts (r :: vs) q /\ k = r_key q /\ v = r_val q /\ v <> TOMBSTONE /\
      ~ (cur = Some k /\ resolved = true)) as Hrest.
  { intros b out Eo Hb k v. destruct (IH (Some (r_key r)) b Hord' Hnext) as (out' & Eo' & Hout).
    rewrite Eo in Eo'. injection Eo' as <-. rewrite Hout. split.
    - intros (q & (Hq & Hqt & Hmax) & -> & -> & Hv & Hnot). exists q. split_and!; auto.
      + split; [by right|]. split; [done|]. intros r' Hin E Ht.
        apply elem_of_cons in Hin as [->|Hin]; [|auto]. exfalso. apply Hnot. split; [by rewrite E|].
        apply Hb. by right.
      + intros [E ->]. apply Hnot. pose proof (Hcur q Hq E) as Er. split; [congruence|].
        apply Hb. left. by apply Hr'.
    - intros (q & Hq & (_ & Hqt & Hmax) & -> & -> & Hv & Hnot). exists q. split_and!; auto.
      + split; [done|]. split; [done|]. intros r' Hin. apply Hmax. by right.
      + intros [[= E] ->]. apply Hnot. destruct (proj1 Hb eq_refl) as [Hres'|Ht].
        * apply Hr' in Hres'. split; [|tauto]. rewrite <- E. tauto.
        * exfalso. pose proof (Hmax r ltac:(left) E Ht). pose proof (proj1 (Hnew q Hq (eq_sym E))). lia. }
  assert (shown ts (r :: vs) r <-> r_ts r <= ts) as Hshown.
  { split; [by intros (_ & ? & _)|]. intros Ht. split; [left|]. split; [done|]. intros r' Hin E _.
    apply elem_of_cons in Hin as [->|Hin]; [lia|]. pose proof (proj1 (Hnew r' Hin E)). lia. }
  destruct res' eqn:Eres; [|destruct (Z.ltb_spec ts (r_ts r)) as [Ht|Ht]].
  - destruct (IH (Some (r_key r)) true Hord' Hnext) as (out & Eo & _). exists out. split; [done|].
    intros k v. rewrite (Hrest true out Eo) by tauto. split; [intros (q & ? & ?); by exists q|].
    intros (q & Hq & E1 & E2 & Hv & Hnot). exists q. split_and!; auto.
    pose proof (proj1 Hq) as Hin. apply elem_of_cons in Hin as [->|]; [|done].
    exfalso. apply Hnot. rewrite E1. by apply Hr'.
  - destruct (IH (Some (r_key r)) false Hord' Hnext) as (out & Eo & _). exists out. split; [done|].
    intros k v. rewrite (Hrest false out Eo) by (naive_solver lia). split; [intros (q & ? & ?); by exists q|].
    intros (q & Hq & Hq2). exists q. split_and!; [|done|tauto..].
    pose proof (proj1 Hq) as Hin. apply elem_of_cons in Hin as [->|]; [|done]. apply Hshown in Hq. lia.
  - destruct (IH (Some (r_key r)) true Hord' Hnext) as (out & Eo & _). rewrite Eo. cbn [mbind res_bind].
    eexists. split; [done|]. intros k v.
    assert ((k, v) ∈ (if r_val r =s? TOMBSTONE then out else (r_key r, r_val r) :: out) <->
      (r_val r <> TOMBSTONE /\ k = r_key r /\ v = r_val r) \/ (k, v) ∈ out) as ->.
    { case_bool_decide; rewrite ?elem_of_cons; naive_solver. }
    rewrite (Hrest true out Eo) by tauto. split.
    + intros [(Hv & -> & ->)|(q & ? & ?)]; [|by exists q]. exists r. split_and!; auto.
      * by apply Hshown.
      * intros Hc. apply Hr' in Hc. done.
    + intros (q & Hq & E1 & E2 & Hv & Hnot). pose proof (proj1 Hq) as Hin.
      apply elem_of_cons in Hin as [->|Hin]; [left; subst; done|right]. exists q. split_and!; auto.
Qed.

End loops.

Section mvcc_effects.
Context {KS : KeySpace} {E : Type} `{EngineLaws E}.

Lemma decode_scan (m : mvcc E) lo hi :
  mvcc_ok m -> exists vs, e_scan (engine m) lo hi = Ok (enc <$> vs) /\ Forall valid vs /\ ordered vs /\
    forall r, r ∈ vs <-> valid r /\ contents (engine m) !! version_key (r_key r) (r_ts r) = Some (r_val r) /\
      lo <=s version_key (r_key r) (r_ts r) /\ version_key (r_key r) (r_ts r) <=s hi.
Proof.
  intros [He Hv Ho Hr]. rewrite law_scan by done.
  destruct (decode_list (contents (engine m)) (last_commit_ts m) (map_range (contents (engine m)) lo hi)) as (vs & E1 & Hval);
    [done|lia|intros k v Hin; apply elem_of_map_range in Hin; tauto|].
  exists vs. rewrite E1. split_and!; auto.
  - apply sorted_ordered; [done|]. rewrite <- E1. apply map_range_sorted.
  - assert (forall r, valid r -> r ∈ vs <-> enc r ∈ map_range (contents (engine m)) lo hi) as Hin.
    { intros r Hvr. rewrite E1. rewrite list_elem_of_fmap. split; [eauto|]. intros (q & Eq & Hq).
      assert (valid q) as Hvq by (by eapply list.Forall_forall in Hval).
      unfold enc in Eq. injection Eq as Ek Ev. apply version_key_inj in Ek as [Ek Et]; [|apply Hvr|apply Hvq].
      destruct r, q; simpl in *; by subst. }
    intros r. split.
    + intros Hr'. assert (valid r) as Hvr by (by eapply list.Forall_forall in Hval). apply Hin in Hr'; [|done].
      unfold enc in Hr'. apply elem_of_map_range in Hr'. tauto.
    + intros (Hvr & H1 & H2). apply Hin; [done|]. unfold enc. apply elem_of_map_range. tauto.
Qed.

Lemma delete_keys_spec `{!EngineDeletes E} keys (e : E) :
  e_inv e -> exists e', delete_keys e keys = Ok e' /\ e_inv e' /\
    forall k, contents e' !! k = if bool_decide (k ∈ keys) then None else contents e !! k.
Proof.
  revert e. induction keys as [|k keys IH]; intros e He; cbn [delete_keys].
  { exists e. split_and!; auto. }
  destruct (law_delete e k He) as (e1 & -> & He1 & C1). cbn [mbind res_bind].
  destruct (IH e1 He1) as (e2 & -> & He2 & C2). exists e2. split_and!; auto.
  intros k'. rewrite C2, C1, lookup_delete. repeat case_bool_decide; rewrite ?elem_of_cons in *; destruct (decide (k = k')); naive_solver.
Qed.

Lemma commit_reads (m m' : mvcc E) ws :
  mvcc_ok m -> mvcc_ok m' -> last_commit_ts m < MAX_TS -> Forall user_key_ok ws.*1 -> NoDup ws.*1 ->
  last_commit_ts m' = last_commit_ts m + 1 ->
  contents (engine m') = put_all (version_writes (last_commit_ts m + 1) ws) (contents (engine m)) ->
  (forall uk ts, user_key_ok uk -> 0 <= ts <= last_commit_ts m -> mvcc_read m' uk ts = mvcc_read m uk ts) /\
  (forall k v, (k, v) ∈ ws -> mvcc_read m' k (last_commit_ts m') = Ok (live v)) /\
  (forall uk, user_key_ok uk -> uk ∉ ws.*1 -> mvcc_read m' uk (last_commit_ts m') = mvcc_read m uk (last_commit_ts m)).
Proof.
  intros Hm Hm' Hlt Hsf Hnd El Ec. pose proof (mo_range m Hm) as Hr. pose proof (mo_range m' Hm') as Hr'.
  destruct (commit_versions _ _ ws (mo_versions m Hm) ltac:(lia) Hsf Hnd) as (_ & Hold & Hnew & Hnone).
  rewrite <- Ec in *. split_and!.
  - intros uk ts Huk Hts. apply mvcc_read_eq; [done|done|done|lia|lia|]. intros [[t v]|]; simpl.
    + intros (Ht & L & N). split; [done|]. rewrite Hold by lia. split; [done|]. intros t' Ht'. rewrite Hold by lia. auto.
    + intros N t' Ht'. rewrite Hold by lia. auto.
  - intros k v Hkv. assert (user_key_ok k) as Hk.
    { eapply list.Forall_forall in Hsf; [exact Hsf|]. apply list_elem_of_fmap. by exists (k, v). }
    destruct (mvcc_read_newest m' k (last_commit_ts m') Hm' Hk ltac:(lia)) as (o & Ho & ->).
    rewrite (newest_unique _ _ _ o (Some (last_commit_ts m', v)) Ho); [done|].
    split; [lia|]. rewrite El, (Hnew k v Hkv). split; [done|]. intros; lia.
  - intros uk Huk Hin. apply mvcc_read_eq; [done|done|done|lia|lia|]. intros [[t v]|]; simpl.
    + intros (Ht & L & N). split; [lia|]. rewrite Hold by lia. split; [done|]. intros t' Ht'.
      destruct (decide (t' = last_commit_ts m + 1)) as [->|]; [by apply Hnone|]. rewrite Hold by lia. apply N. lia.
    + intros N t' Ht'. destruct (decide (t' = last_commit_ts m + 1)) as [->|]; [by apply Hnone|].
      rewrite Hold by lia. apply N. lia.
Qed.

Lemma str_le_sentinel uk hi h : sep_free hi -> uk <=s hi -> uk ++ 0%N :: h <=s hi ++ HI_CHAR.
Proof.
  revert hi. induction uk as [|c uk IH]; intros [|d hi] Hs Hle; simpl in *.
  - done.
  - apply Forall_cons_1 in Hs as [Hd _]. unfold str_le. simpl. by destruct d.
  - unfold str_le in Hle. simpl in Hle. done.
  - apply Forall_cons_1 in Hs as [_ Hs]. unfold str_le in *. simpl in *.
    destruct (N.compare_spec c d); [by apply IH|done|done].
Qed.

Lemma scan_agrees (m : mvcc E) lo hi ts :
  mvcc_ok m -> sep_free hi -> 0 <= ts <= MAX_TS ->
  exists out, mvcc_scan m lo hi ts = Ok out /\
    forall uk v, user_key_ok uk -> lo <=s uk -> uk <=s hi -> (uk, v) ∈ out <-> mvcc_read m uk ts = Ok (Some v).
Proof.
  intros Hm Hhi Hts. destruct (decode_scan m lo (hi ++ HI_CHAR) Hm) as (vs & E1 & Hval & Hord & Hvs).
  destruct (scan_loop_spec ts vs None false Hval Hord) as (out & E2 & Hout); [by intros p y|].
  exists out. unfold mvcc_scan. rewrite E1. cbn [mbind res_bind]. split; [done|]. intros uk v Huk Hlo Hle.
  assert (forall t w, 0 <= t <= MAX_TS -> VRec uk t w ∈ vs <-> contents (engine m) !! version_key uk t = Some w) as Hmem.
  { intros t w Ht. rewrite Hvs. simpl. split; [tauto|]. intros L. split; [by split|]. split; [done|]. split.
    - pose proof (str_le_prefix uk (SEP ++ format_hex 16 (MAX_TS - t))). unfold version_key. str_order.
    - by apply str_le_sentinel. }
  destruct (mvcc_read_newest m uk ts Hm Huk Hts) as (o & Ho & ->). rewrite Hout. split.
  - intros (r & (Hr & Ht & Hmax) & -> & -> & Hv & _). assert (valid r) as [_ Hrt] by (by eapply list.Forall_forall in Hval).
    destruct r as [k t w]; simpl in *. apply Hmem in Hr as L; [|done].
    rewrite (newest_unique _ _ _ _ (Some (t, w)) Ho); [simpl; unfold live; by rewrite bool_decide_false|].
    split; [lia|]. split; [done|]. intros t' Ht'. destruct (contents (engine m) !! version_key k t') as [w'|] eqn:L'; [|done].
    apply Hmem in L'; [|lia]. specialize (Hmax _ L' eq_refl). simpl in Hmax. lia.
  - destruct o as [[t w]|]; [|done]. destruct Ho as (Ht & L & N). simpl. unfold live.
    case_bool_decide as Hw; [done|]. intros [= ->]. exists (VRec uk t v). apply Hmem in L; [|lia].
    split_and!; auto; [|by intros [? ?]]. split; [done|]. split; [simpl; lia|]. intros [k' t' w'] Hr' Ek Ht'. simpl in *. subst k'.
    assert (0 <= t' <= MAX_TS) as Hb by (eapply list.Forall_forall in Hval; [|exact Hr']; apply Hval).
    destruct (Z.le_gt_cases t' t) as [|Hgt]; [done|]. apply Hmem in Hr'; [|done]. rewrite N in Hr' by lia. done.
Qed.
Lemma commit_isolated (m : mvcc E) (r : Z) (ws : list (str * str)) :
  mvcc_ok m -> 0 <= r -> last_commit_ts m < MAX_TS -> Forall user_key_ok ws.*1 -> NoDup ws.*1 ->
  Forall (fun kv => storable (version_key kv.1 (last_commit_ts m + 1)) kv.2) ws ->
  let clash := exists k t, k ∈ ws.*1 /\ r < t <= MAX_TS /\ is_Some (contents (engine m) !! version_key k t) in
  (mvcc_commit m r ws = Raise ConflictError /\ clash) \/
  (~ clash /\ exists m', mvcc_commit m r ws = Ok (m', last_commit_ts m + 1) /\ mvcc_ok m' /\
    last_commit_ts m' = last_commit_ts m + 1 /\
    (forall uk ts, user_key_ok uk -> 0 <= ts <= last_commit_ts m -> mvcc_read m' uk ts = mvcc_read m uk ts) /\
    (forall k v, (k, v) ∈ ws -> mvcc_read m' k (last_commit_ts m') = Ok (live v)) /\
    (forall uk, user_key_ok uk -> uk ∉ ws.*1 -> mvcc_read m' uk (last_commit_ts m') = mvcc_read m uk (last_commit_ts m))).
Proof.
  intros Hm Hr Hlt Hsf Hnd Hst clash. unfold mvcc_commit.
  destruct (check_conflicts_spec m r ws.*1 Hm Hr Hsf) as [[-> Hno]|[-> Hc]]; [right|by left].
  split; [done|]. cbn [mbind res_bind]. pose proof (mo_range m Hm) as Hrange. rewrite (mo_oracle m Hm).
  destruct (law_batch (engine m) (version_writes (last_commit_ts m + 1) ws) (mo_engine m Hm)) as (e' & -> & He' & Ec).
  { unfold version_writes. apply Forall_fmap. eapply Forall_weaken; [exact Hst|]. done. }
  cbn [mbind res_bind]. set (m' := MVCC e' _ _). exists m'.
  assert (mvcc_ok m') as Hm'.
  { destruct (commit_versions _ _ ws (mo_versions m Hm) ltac:(lia) Hsf Hnd) as (Hv & _).
    split; simpl; [done| |done|lia]. by rewrite Ec. }
  split; [done|]. split; [done|]. split; [done|]. by apply commit_reads.
Qed.

(** The keys that a scan returns. *)
Lemma scan_keys (m : mvcc E) lo hi ts out uk v :
  mvcc_ok m -> mvcc_scan m lo hi ts = Ok out -> (uk, v) ∈ out ->
  user_key_ok uk /\ exists r, lo <=s uk ++ 0%N :: r /\ uk ++ 0%N :: r <=s hi ++ HI_CHAR.
Proof.
  intros Hm Hs Hin. destruct (decode_scan m lo (hi ++ HI_CHAR) Hm) as (vs & E1 & Hval & Hord & Hvs).
  destruct (scan_loop_spec ts vs None false Hval Hord) as (out' & E2 & Hout); [by intros p y|].
  unfold mvcc_scan in Hs. rewrite E1 in Hs. cbn [mbind res_bind] in Hs. rewrite E2 in Hs. apply Ok_inj in Hs as <-.
  apply Hout in Hin as (r & (Hr & _) & -> & _). apply Hvs in Hr as ([Hk Ht] & _ & Hlo & Hhi). split; [done|].
  destruct (version_key_suffix (r_key r) (r_ts r) Ht) as (h & E' & _). rewrite E' in Hlo, Hhi. by exists h.
Qed.
End mvcc_effects.

(** ** Properties *)

(** C15: Commit.  Over every engine that obeys its laws, a commit raises
    [ConflictException] exactly when one of its keys (from a set that the separator
    keeps apart, such as the keys without it) has a version newer than its
    snapshot; otherwise it succeeds at the next timestamp, keeps the invariant,
    changes no read at an older timestamp, and makes all its writes visible at once. *)
Theorem mvcc_commit_isolated {KS : KeySpace} {E} `{EngineLaws E} (m : mvcc E) (r : Z) (ws : list (str * str)) :
  mvcc_ok m -> 0 <= r -> last_commit_ts m < MAX_TS -> Forall user_key_ok ws.*1 -> NoDup ws.*1 ->
  Forall (fun kv => storable (version_key kv.1 (last_commit_ts m + 1)) kv.2) ws ->
  let clash := exists k t, k ∈ ws.*1 /\ r < t <= MAX_TS /\ is_Some (contents (engine m) !! version_key k t) in
  (mvcc_commit m r ws = Raise ConflictError /\ clash) \/
  (~ clash /\ exists m', mvcc_commit m r ws = Ok (m', last_commit_ts m + 1) /\ mvcc_ok m' /\
    last_commit_ts m' = last_commit_ts m + 1 /\
    (forall uk ts, user_key_ok uk -> 0 <= ts <= last_commit_ts m -> mvcc_read m' uk ts = mvcc_read m uk ts) /\
    (forall k v, (k, v) ∈ ws -> mvcc_read m' k (last_commit_ts m') = Ok (live v)) /\
    (forall uk, user_key_ok uk -> uk ∉ ws.*1 -> mvcc_read m' uk (last_commit_ts m') = mvcc_read m uk (last_commit_ts m))).
Proof. apply commit_isolated. Qed.

(** C16: [vacuum] at a low-water mark succeeds, keeps the invariant, and leaves every
    read at the mark or above unchanged, over every engine that obeys its laws. *)
Theorem mvcc_vacuum_safe {KS : KeySpace} {E} `{EngineDeletes E} (m : mvcc E) (mark : Z) :
  mvcc_ok m -> 0 <= mark ->
  exists m' n, mvcc_vacuum m mark = Ok (m', n) /\ mvcc_ok m' /\
    forall uk ts, user_key_ok uk -> mark <= ts <= MAX_TS -> mvcc_read m' uk ts = mvcc_read m uk ts.
Proof.
  intros Hm Hmark. destruct (decode_scan m [] HI_CHAR Hm) as (vs & E1 & Hval & Hord & Hvs).
  destruct (vacuum_loop_spec mark vs None false Hval Hord) as (ks & E2 & Hks); [by intros p y|].
  destruct (delete_keys_spec ks (engine m) (mo_engine m Hm)) as (e' & E3 & He' & Hc).
  unfold mvcc_vacuum. rewrite E1. cbn [mbind res_bind]. rewrite E2. cbn [mbind res_bind]. rewrite E3. cbn [mbind res_bind].
  set (m' := MVCC e' _ _). exists m', (length ks).
  assert (mvcc_ok m') as Hm'.
  { destruct Hm as [He Hv Ho Hr]. split; simpl; auto. intros k v Hkv. apply (Hv k v).
    rewrite Hc in Hkv. by case_bool_decide. }
  split; [done|]. split; [done|]. intros uk ts Huk Hts. apply mvcc_read_eq; [done|done|done|lia|lia|].
  intros [[t v]|]; simpl.
  - intros (Ht & L & N). split; [done|]. split.
    + rewrite Hc. rewrite bool_decide_false; [done|]. rewrite Hks. intros (q & Hq & Ek & Hqm & Hor).
      destruct Hor as [[? _]|(q' & Hq' & Ekq & Hlt)]; [done|]. apply Hvs in Hq as ([_ Hqt] & _), Hq' as (_ & Lq' & _).
      simpl in Ek. apply version_key_inj in Ek as [-> ->]; [|lia|done]. rewrite Ekq in Lq'.
      rewrite N in Lq' by lia. done.
    + intros t' Ht'. rewrite Hc, (N t' Ht'). by case_bool_decide.
  - intros N t' Ht'. rewrite Hc, (N t' Ht'). by case_bool_decide.
Qed.

(** Inside its bounds, [_scan] returns exactly the keys that [_read] finds at the
    same snapshot, with the same values. *)
Theorem mvcc_scan_agrees {KS : KeySpace} {E} `{EngineLaws E} (m : mvcc E) lo hi ts :
  mvcc_ok m -> sep_free hi -> 0 <= ts <= MAX_TS ->
  exists out, mvcc_scan m lo hi ts = Ok out /\
    forall uk v, user_key_ok uk -> lo <=s uk -> uk <=s hi -> (uk, v) ∈ out <-> mvcc_read m uk ts = Ok (Some v).
Proof. apply scan_agrees. Qed.

Definition empty_mvcc : mvcc (gmap str str) := MVCC ∅ 0 0.

Lemma empty_mvcc_ok : mvcc_ok empty_mvcc.
Proof. split; simpl; [done| |done|unfold MAX_TS; lia]. intros k v Hk. simpl in Hk. by rewrite lookup_empty in Hk. Qed.

Lemma mvcc_commit_isolated_witness :
  exists m', mvcc_commit empty_mvcc 0 [(py "a", py "x")] = Ok (m', 1) /\ mvcc_read m' (py "a") 1 = Ok (Some (py "x")).
Proof.
  destruct (mvcc_commit_isolated empty_mvcc 0 [(py "a", py "x")] empty_mvcc_ok ltac:(lia) ltac:(done)
    ltac:(repeat constructor; discriminate) ltac:(apply (bool_decide_unpack _); by vm_compute) ltac:(by repeat constructor))
    as [[H1 _]|[_ (m' & H1 & _ & H3 & _ & H2 & _)]].
  - exfalso. vm_compute in H1. discriminate H1.
  - exists m'. split; [exact H1|]. specialize (H2 (py "a") (py "x") ltac:(left)). rewrite H3 in H2. exact H2.
Defined.

Lemma mvcc_vacuum_safe_witness : exists m' n, mvcc_vacuum empty_mvcc 5 = Ok (m', n) /\ mvcc_ok m'.
Proof.
  destruct (mvcc_vacuum_safe empty_mvcc 5 empty_mvcc_ok ltac:(lia)) as (m' & n & H1 & H2 & _).
  exists m', n. exact (conj H1 H2).
Defined.

Lemma mvcc_scan_agrees_witness : exists out, mvcc_scan empty_mvcc (py "a") (py "b") 0 = Ok out.
Proof.
  destruct (mvcc_scan_agrees empty_mvcc (py "a") (py "b") 0 empty_mvcc_ok ltac:(repeat constructor; discriminate)
    ltac:(unfold MAX_TS; lia)) as (out & H1 & _).
  exists out. exact H1.
Defined.

(** With keys the comment of the module allows, keys are confused: a key that
    contains the separator is returned by a read of another key that was never
    written, and a scan up to [a] also returns the key [ab]. *)
Theorem mvcc_keys_confused :
  let k := py "a" ++ SEP ++ py "8" in
  (exists m, mvcc_commit empty_mvcc 0 [(k, py "x")] = Ok (m, 1) /\ mvcc_read m (py "a") 1 = Ok (Some (py "x"))) /\
  (exists m, mvcc_commit empty_mvcc 0 [(py "ab", py "x")] = Ok (m, 1) /\
     txn_scan m (mvcc_begin m) (py "a") (py "a") = Ok [(py "ab", py "x")]).
Proof. split; eexists; (split; [vm_compute; reflexivity|by vm_compute]). Qed.
