(* ===== verification/TxStore.v ===== *)
(** * Transactions as maps

    The interface through which [relational_engine.py] and [catalog.py] use the
    transactions of [mvcc.py]: [TxStore] has the four operations, [TxLaws] says that an
    open transaction reads and writes a map.  [RefTxLaws] is a map itself;
    [MvccTxLaws] discharges the laws for the transactions of [Mvcc.v], over every
    engine that obeys its own: the map of a transaction is its snapshot with its own
    writes on top.  [commit_view] says that a commit without a competing writer turns
    the map of the transaction into the next snapshot. *)

From S2P Require Import Prelude PyStd Storage Mvcc.

Local Open Scope Z_scope.

Class TxStore (T : Type) := {
  tx_get : T -> str -> res (option str);
  tx_put : T -> str -> str -> res T;
  tx_delete : T -> str -> res T;
  tx_scan : T -> str -> str -> res (list (str * str));
}.

(** [t_key]: the keys in use; [t_range]: the bounds of scans.  The value that marks a
    deletion cannot be written. *)
Class TxLaws (T : Type) `{TxStore T} := {
  view : T -> gmap str str;
  t_inv : T -> Prop;
  t_key : str -> Prop;
  t_range : str -> str -> Prop;
  law_tx_get t k : t_inv t -> t_key k -> tx_get t k = Ok (view t !! k);
  law_tx_scan t lo hi : t_inv t -> t_range lo hi -> tx_scan t lo hi = Ok (map_range (view t) lo hi);
  law_tx_put t k v : t_inv t -> t_key k -> v <> TOMBSTONE ->
    exists t', tx_put t k v = Ok t' /\ t_inv t' /\ view t' = <[k := v]> (view t);
  law_tx_delete t k : t_inv t -> t_key k -> exists t', tx_delete t k = Ok t' /\ t_inv t' /\ view t' = base.delete k (view t);
}.

(** The transaction of the MVCC engine. *)
#[export] Instance MvccTx {E} `{StorageEngine E} : TxStore (mvcc E * txn) := {
  tx_get t k := txn_get t.1 t.2 k;
  tx_put t k v := t' ← txn_put t.2 k v; Ok (t.1, t');
  tx_delete t k := t' ← txn_delete t.2 k; Ok (t.1, t');
  tx_scan t lo hi := txn_scan t.1 t.2 lo hi;
}.

(** A map. *)
#[export] Instance RefTx : TxStore (gmap str str) := {
  tx_get m k := Ok (m !! k);
  tx_put m k v := Ok (<[k := v]> m);
  tx_delete m k := Ok (base.delete k m);
  tx_scan m lo hi := Ok (map_range m lo hi);
}.
#[export] Instance RefTxLaws : TxLaws (gmap str str).
Proof.
  refine {| view := fun m => m; t_inv := fun _ => True; t_key := fun _ => True; t_range := fun _ _ => True |}; try done.
  - intros t k v _ _ _. by exists (<[k := v]> t).
  - intros t k _ _. by exists (base.delete k t).
Defined.

(** ** Keys and bounds *)

(** User keys without the largest code point. *)
Class PlainKeys {KS : KeySpace} := plain_key uk : user_key_ok uk -> Forall (fun c => (c < max_code_point)%N) uk.

(** Bounds without separator, up to a prefix with the largest code point. *)
Definition prefix_range (lo hi : str) : Prop := sep_free lo /\ exists h, sep_free h /\ hi = h ++ HI_CHAR.

Lemma plain_le_hi uk : Forall (fun c => (c < max_code_point)%N) uk -> uk <=s HI_CHAR.
Proof.
  destruct 1 as [|c uk Hc _]; [apply str_nil_le|]. unfold str_le, HI_CHAR, hi_char. cbn.
  by rewrite (proj2 (N.compare_lt_iff c max_code_point)).
Qed.

Lemma version_above lo uk r : sep_free lo -> lo <=s uk ++ 0%N :: r -> lo <=s uk.
Proof.
  revert uk. induction lo as [|c lo IH]; intros [|d uk] Hs Hle; try apply str_nil_le.
  - apply Forall_cons_1 in Hs as [Hc _]. unfold str_le in Hle. cbn in Hle. by destruct c.
  - apply Forall_cons_1 in Hs as [_ Hs]. unfold str_le in *. cbn in *. destruct (N.compare_spec c d); cbn in *; auto.
Qed.

Lemma version_below uk r h : Forall (fun c => (c < max_code_point)%N) uk ->
  uk ++ 0%N :: r <=s (h ++ HI_CHAR) ++ HI_CHAR -> uk <=s h ++ HI_CHAR.
Proof.
  revert uk. induction h as [|c h IH]; intros uk Hp Hle; [by apply plain_le_hi|].
  destruct uk as [|d uk]; [apply str_nil_le|]. apply Forall_cons_1 in Hp as [_ Hp]. unfold str_le in *. cbn in *.
  destruct (N.compare_spec d c); cbn in *; auto.
Qed.

Lemma HI_CHAR_sep_free : sep_free HI_CHAR.
Proof. by repeat constructor. Qed.

(** ** Dictionaries as maps *)

Lemma dict_get_map {A} (d : list (str * A)) k : dict_get d k = (list_to_map d : gmap str A) !! k.
Proof.
  induction d as [|[k0 v0] d IH]; cbn [dict_get list_to_map foldr]; [by rewrite lookup_empty|]. cbn [uncurry].
  case_bool_decide as E; [subst; by rewrite lookup_insert_eq|by rewrite lookup_insert_ne].
Qed.

Lemma dict_get_elem {A} (d : list (str * A)) k v : NoDup d.*1 -> dict_get d k = Some v <-> (k, v) ∈ d.
Proof. intros Hd. rewrite dict_get_map. symmetry. by apply elem_of_list_to_map. Qed.

(** The dict built from a list of pairs. *)
Lemma dict_of_pairs {A} (l : list (str * A)) : let d := foldl (fun d kv => dict_set d kv.1 kv.2) [] l in
  NoDup d.*1 /\ ((forall k v v', (k, v) ∈ l -> (k, v') ∈ l -> v = v') -> forall k v, dict_get d k = Some v <-> (k, v) ∈ l).
Proof.
  induction l as [|[k0 v0] l [IHn IH]] using rev_ind; cbn zeta in *.
  { split; [constructor|]. intros _ k v. split; [done|by intros ?%not_elem_of_nil]. }
  rewrite foldl_app. cbn [foldl fst snd]. split; [by apply dict_set_NoDup|]. intros Hu k v. rewrite dict_get_set, elem_of_app, list_elem_of_singleton.
  assert (forall k v v', (k, v) ∈ l -> (k, v') ∈ l -> v = v') as Hu' by (intros k1 v1 v2 ? ?; apply (Hu k1); apply elem_of_app; by left).
  case_decide as Ek; [subst k0|].
  - split; [intros [= ->]; by right|]. intros [Hin|[= ->]]; [|done]. f_equal. apply (Hu k); apply elem_of_app; [right; by left|by left].
  - rewrite (IH Hu'). split; [by left|]. intros [?|[= -> ->]]; done.
Qed.

(** The writes of a transaction, laid over the rows of a scan. *)
Lemma overlay_get lo hi ws : forall d, NoDup d.*1 -> NoDup ws.*1 ->
  let d' := foldl (overlay lo hi) d ws in
  NoDup d'.*1 /\ forall k, dict_get d' k =
    match dict_get ws k with
    | Some w => if decide (lo <=s k /\ k <=s hi) then live w else dict_get d k
    | None => dict_get d k
    end.
Proof.
  induction ws as [|[k0 w0] ws IH]; intros d Hd Hws; [done|]. rewrite fmap_cons in Hws. apply list.NoDup_cons in Hws as [Hk0 Hws].
  cbn [foldl]. assert (NoDup (overlay lo hi d (k0, w0)).*1) as Hd1.
  { unfold overlay. destruct (_ || _); [done|]. destruct (w0 =s? TOMBSTONE); [by apply dict_pop_NoDup|by apply dict_set_NoDup]. }
  destruct (IH _ Hd1 Hws) as [Hn Hg]. split; [done|]. intros k. rewrite Hg. cbn [dict_get].
  assert (dict_get (overlay lo hi d (k0, w0)) k = if decide (k = k0 /\ lo <=s k0 /\ k0 <=s hi) then live w0 else dict_get d k) as E.
  { unfold overlay, live. destruct (bool_decide_reflect (k0 <s lo)) as [H1|H1]; [cbn; rewrite decide_False; [done|intros (_ & ? & _); str_order]|].
    destruct (bool_decide_reflect (hi <s k0)) as [H2|H2]; [cbn; rewrite decide_False; [done|intros (_ & _ & ?); str_order]|]. cbn [orb].
    assert (lo <=s k0 /\ k0 <=s hi) as Hin by (split; str_order).
    case_bool_decide; [rewrite dict_get_pop by done|rewrite dict_get_set]; repeat case_decide; tauto || done. }
  rewrite E. case_bool_decide as Ek.
  - subst k0. rewrite dict_get_None by done. repeat case_decide; tauto || done.
  - destruct (dict_get ws k); repeat case_decide; try done; naive_solver.
Qed.

(** ** Snapshots as maps *)

Section mvcc_tx.
Context {KS : KeySpace} {PK : PlainKeys} {E : Type} `{EngineLaws E}.

(** What a transaction sees that began at [ts]. *)
Definition snapshot (m : mvcc E) (ts : Z) : gmap str str :=
  match mvcc_scan m [] HI_CHAR ts with Ok l => list_to_map l | Raise _ => ∅ end.

Lemma scan_exact (m : mvcc E) lo hi ts : mvcc_ok m -> prefix_range lo hi -> 0 <= ts <= MAX_TS ->
  exists out, mvcc_scan m lo hi ts = Ok out /\
    forall uk v, (uk, v) ∈ out <-> user_key_ok uk /\ lo <=s uk /\ uk <=s hi /\ mvcc_read m uk ts = Ok (Some v).
Proof.
  intros Hm (Hlo & h & Hh & ->) Hts. assert (sep_free (h ++ HI_CHAR)) as Hhi by (apply Forall_app; split; [done|apply HI_CHAR_sep_free]).
  destruct (scan_agrees m lo (h ++ HI_CHAR) ts Hm Hhi Hts) as (out & Eo & Hout). exists out. split; [done|]. intros uk v. split.
  - intros Hin. destruct (scan_keys m lo (h ++ HI_CHAR) ts out uk v Hm Eo Hin) as (Hk & r & H1 & H2).
    apply version_above in H1; [|done]. apply version_below in H2; [|by apply plain_key]. split_and!; auto. by apply Hout.
  - intros (Hk & H1 & H2 & Hr). by apply Hout.
Qed.

Lemma snapshot_lookup (m : mvcc E) ts k v : mvcc_ok m -> 0 <= ts <= MAX_TS ->
  snapshot m ts !! k = Some v <-> user_key_ok k /\ mvcc_read m k ts = Ok (Some v).
Proof.
  intros Hm Hts. unfold snapshot.
  destruct (scan_exact m [] ([] ++ HI_CHAR) ts Hm) as (out & E1 & Hout); [split; [constructor|exists []; by split; [constructor|]]|done|].
  cbn [app] in *. rewrite E1. split.
  - intros Hl%elem_of_list_to_map_2. apply Hout in Hl. tauto.
  - intros [Hk Hr]. assert ((k, v) ∈ out) as Hin.
    { apply Hout. split_and!; auto; [apply str_nil_le|by apply plain_le_hi, plain_key]. }
    apply elem_of_list_to_map_1'; [|done]. intros v' Hv'. apply Hout in Hv' as (_ & _ & _ & Hr'). congruence.
Qed.

Lemma snapshot_live (m : mvcc E) ts k v : mvcc_ok m -> 0 <= ts <= MAX_TS -> snapshot m ts !! k = Some v -> live v = Some v.
Proof.
  intros Hm Hts [Hk Hr]%snapshot_lookup; auto. destruct (mvcc_read_newest m k ts Hm Hk Hts) as (o & _ & Eo). rewrite Eo in Hr. apply Ok_inj in Hr.
  destruct o as [[t w]|]; [|done]. cbn in Hr. unfold live in *. case_bool_decide; [done|]. injection Hr as ->. by rewrite bool_decide_false.
Qed.

Lemma snapshot_read (m : mvcc E) ts k : mvcc_ok m -> 0 <= ts <= MAX_TS -> user_key_ok k -> mvcc_read m k ts = Ok (snapshot m ts !! k).
Proof.
  intros Hm Hts Hk. destruct (mvcc_read_newest m k ts Hm Hk Hts) as (o & _ & Eo). rewrite Eo. f_equal. symmetry.
  apply option_eq. intros v. rewrite snapshot_lookup by done. rewrite Eo. split; [intros [_ E2]; by apply Ok_inj in E2|by intros ->].
Qed.

Lemma snapshot_ext (m m' : mvcc E) ts ts' : mvcc_ok m -> mvcc_ok m' -> 0 <= ts <= MAX_TS -> 0 <= ts' <= MAX_TS ->
  (forall k, user_key_ok k -> mvcc_read m' k ts' = mvcc_read m k ts) -> snapshot m' ts' = snapshot m ts.
Proof.
  intros Hm Hm' Hts Hts' Hr. apply map_eq. intros k. apply option_eq. intros v. rewrite !snapshot_lookup by done.
  split; intros [Hk E1]; (split; [done|]); [rewrite <- Hr|rewrite Hr]; done.
Qed.

(** ** The laws *)

(** The snapshot with the writes of the transaction on top. *)
Definition mvcc_view (x : mvcc E * txn) : gmap str str :=
  omap live ((list_to_map (writes x.2) : gmap str str) ∪ snapshot x.1 (read_ts x.2)).

Record mvcc_tx_ok (x : mvcc E * txn) : Prop := {
  to_mvcc : mvcc_ok x.1;
  to_open : finished x.2 = false;
  to_nodup : NoDup (writes x.2).*1;
  to_keys : Forall user_key_ok (writes x.2).*1;
  to_ts : 0 <= read_ts x.2 <= MAX_TS;
}.

Lemma mvcc_view_lookup x k : mvcc_tx_ok x ->
  mvcc_view x !! k = match dict_get (writes x.2) k with Some w => live w | None => snapshot x.1 (read_ts x.2) !! k end.
Proof.
  intros [Hm _ _ _ Hts]. unfold mvcc_view. rewrite lookup_omap, lookup_union, dict_get_map.
  destruct (list_to_map (writes x.2) !! k) as [w|]; [by rewrite union_Some_l|]. rewrite (left_id_L None (∪)).
  destruct (snapshot _ _ !! k) as [v|] eqn:Es; [|done]. by apply snapshot_live in Es.
Qed.

Lemma mvcc_tx_scan x lo hi : mvcc_tx_ok x -> prefix_range lo hi -> txn_scan x.1 x.2 lo hi = Ok (map_range (mvcc_view x) lo hi).
Proof.
  intros Hx Hr. pose proof Hx as [Hm _ Hn Hk Hts]. destruct (scan_exact x.1 lo hi (read_ts x.2) Hm Hr Hts) as (out & E1 & Hout).
  unfold txn_scan. rewrite E1. cbn [mbind res_bind]. f_equal.
  destruct (dict_of_pairs out) as [Nd Gd]. set (d := foldl _ [] out) in *.
  destruct (overlay_get lo hi (writes x.2) d Nd Hn) as [Nd' Gd']. set (d' := foldl _ d _) in *.
  assert (forall k v, dict_get d k = Some v <-> (k, v) ∈ out) as Gd1.
  { apply Gd. intros k v v' (_ & _ & _ & Hv)%Hout (_ & _ & _ & Hv')%Hout. congruence. }
  apply sorted_unique; [|apply map_range_sorted|].
  - apply sorted_keys_strict; [apply StronglySorted_merge_sort; apply _|]. by rewrite merge_sort_Permutation.
  - intros [k v]. rewrite merge_sort_Permutation, elem_of_map_range, <- dict_get_elem, Gd', mvcc_view_lookup by done.
    assert (dict_get d k = Some v <-> snapshot x.1 (read_ts x.2) !! k = Some v /\ lo <=s k /\ k <=s hi) as Hd.
    { rewrite Gd1, Hout, snapshot_lookup by done. tauto. }
    destruct (dict_get (writes x.2) k) as [w|] eqn:Ew; [|done]. case_decide as Hin; [tauto|]. rewrite Hd. tauto.
Qed.

Lemma mvcc_tx_write x k v : mvcc_tx_ok x -> user_key_ok k -> exists t', txn_put x.2 k v = Ok t' /\
  mvcc_tx_ok (x.1, t') /\ read_ts t' = read_ts x.2 /\
  forall k', mvcc_view (x.1, t') !! k' = if decide (k' = k) then live v else mvcc_view x !! k'.
Proof.
  intros Hx Hk. pose proof Hx as [Hm Hf Hn Hks Hts]. unfold txn_put, ensure_active. rewrite Hf. eexists. split; [reflexivity|].
  assert (mvcc_tx_ok (x.1, Txn (read_ts x.2) (dict_set (writes x.2) k v) false (commit_ts x.2))) as Hx'.
  { split; cbn; auto; [by apply dict_set_NoDup|]. apply list.Forall_forall. intros k' Hin%dict_set_elem.
    rewrite list.Forall_forall in Hks. destruct Hin as [->|?]; auto. }
  split_and!; [done|done|]. intros k'. rewrite !mvcc_view_lookup by done. cbn [fst snd writes read_ts]. rewrite dict_get_set. by case_decide.
Qed.

(** The laws for the transactions that began on [m] at [ts]. *)
Definition MvccTxLaws (m : mvcc E) (ts : Z) : TxLaws (mvcc E * txn).
Proof.
  refine {| view := mvcc_view; t_inv := fun x => mvcc_tx_ok x /\ x.1 = m /\ read_ts x.2 = ts; t_key := user_key_ok; t_range := prefix_range |}.
  - intros x k [Hx _] Hk. cbn. unfold txn_get, ensure_active. rewrite (to_open x Hx). cbn [mbind res_bind]. rewrite mvcc_view_lookup by done.
    destruct (dict_get (writes x.2) k); [done|]. destruct Hx. by apply snapshot_read.
  - intros x lo hi [Hx _]. by apply mvcc_tx_scan.
  - intros x k v [Hx Hm] Hk Hv. cbn. destruct (mvcc_tx_write x k v Hx Hk) as (t' & -> & Hx' & Hr & V). exists (x.1, t').
    split_and!; [done|done|tauto|cbn; destruct Hm; congruence|]. apply map_eq. intros k'. rewrite V.
    case_decide; [subst; rewrite lookup_insert_eq; unfold live; by rewrite bool_decide_false|by rewrite lookup_insert_ne].
  - intros x k [Hx Hm] Hk. cbn. unfold txn_delete. destruct (mvcc_tx_write x k TOMBSTONE Hx Hk) as (t' & -> & Hx' & Hr & V). exists (x.1, t').
    split_and!; [done|done|tauto|cbn; destruct Hm; congruence|]. apply map_eq. intros k'. rewrite V.
    case_decide; [subst; by rewrite lookup_delete_eq|by rewrite lookup_delete_ne].
Defined.

(** ** Begin and commit *)

Lemma begin_ok (m : mvcc E) : mvcc_ok m -> mvcc_tx_ok (m, mvcc_begin m) /\ mvcc_view (m, mvcc_begin m) = snapshot m (last_commit_ts m).
Proof.
  intros Hm. assert (mvcc_tx_ok (m, mvcc_begin m)) as Hx by (split; cbn; auto; [by apply list.NoDup_nil|apply Hm]).
  split; [done|]. apply map_eq. intros k. by rewrite mvcc_view_lookup.
Qed.

(** Without a commit since the transaction began, its commit succeeds and its map is the
    next snapshot. *)
Lemma commit_view x : (forall k v, storable k v) -> mvcc_tx_ok x -> read_ts x.2 = last_commit_ts x.1 -> last_commit_ts x.1 < MAX_TS ->
  exists m', (txn_commit x.1 x.2).2 = Ok (m', last_commit_ts x.1 + 1) /\ mvcc_ok m' /\
    last_commit_ts m' = last_commit_ts x.1 + 1 /\ snapshot m' (last_commit_ts m') = mvcc_view x.
Proof.
  intros Hst Hx Hr Hlt. pose proof Hx as [Hm Hf Hn Hk Hts].
  destruct (commit_isolated x.1 (read_ts x.2) (writes x.2) Hm ltac:(lia) Hlt Hk Hn) as [(_ & k & t & _ & Ht & v & Hv)|(_ & m' & Ec & Hm' & El & _ & Hw & Ho)].
  { apply list.Forall_forall. auto. }
  { destruct (mo_versions _ Hm _ _ Hv) as (uk & t' & E' & _ & Ht'). pose proof (mo_range _ Hm).
    apply version_key_inj in E' as [_ ->]; lia. }
  exists m'. unfold txn_commit, ensure_active. rewrite Hf, Ec. split_and!; auto. pose proof (mo_range _ Hm').
  apply map_eq. intros k. apply option_eq. intros v. rewrite snapshot_lookup, mvcc_view_lookup by done.
  destruct (dict_get (writes x.2) k) as [w|] eqn:Ew.
  - apply dict_get_elem in Ew; [|done]. assert (user_key_ok k) as Huk.
    { rewrite list.Forall_forall in Hk. apply Hk, list_elem_of_fmap. by exists (k, w). }
    rewrite (Hw k w Ew). split; [intros [_ E2]; by apply Ok_inj in E2|by intros ->].
  - rewrite Hr, snapshot_lookup by (auto; lia). assert (k ∉ (writes x.2).*1) as Hnin.
    { intros ([k' w] & -> & Hin)%list_elem_of_fmap. apply dict_get_elem in Hin; [|done]. cbn in Ew. congruence. }
    split; intros [Huk E2]; (split; [done|]); [rewrite <- Ho|rewrite Ho]; done.
Qed.
End mvcc_tx.
