(* ===== verification/Json.v ===== *)
(** * [json.dumps] and [json.loads]

    The part of Python's [json] module the program uses to write and read its files:
    [dumps] with the default settings (ASCII output, [", "] and [": "]) and a parser
    that accepts the JSON grammar.  A float is kept as its text.  [JSONDecodeError] is
    [ValueError]; [RuntimeError] stands for the recursion limit, which the fuel of
    [loads] never reaches on the output of [dumps] ([json_roundtrip]). *)

From S2P Require Import Prelude PyStd.

Local Open Scope N_scope.

#[warnings="-register-all"]
Inductive json :=
  | JNull
  | JBool (b : bool)
  | JInt (z : Z)
  | JFloat (text : str)
  | JStr (s : str)
  | JArr (l : list json)
  | JObj (l : list (str * json)).

(** ** Printing *)

Definition hex4 (n : N) : str := py "\u" ++ format_hex 4 (Z.of_N n).

Definition esc_char (c : N) : str :=
  if c =? 34 then [92; 34]
  else if c =? 92 then [92; 92]
  else if c =? 10 then [92; 110]
  else if c =? 13 then [92; 114]
  else if c =? 9 then [92; 116]
  else if c =? 12 then [92; 102]
  else if c =? 8 then [92; 98]
  else if (32 <=? c) && (c <=? 126) then [c]
  else if c <? 65536 then hex4 c
  else hex4 (55296 + (c - 65536) / 1024) ++ hex4 (56320 + (c - 65536) mod 1024).

Definition dumps_str (s : str) : str := 34 :: concat (map esc_char s) ++ [34].

Fixpoint join (sep : str) (l : list str) : str :=
  match l with
  | [] => []
  | [x] => x
  | x :: l => x ++ sep ++ join sep l
  end.

Fixpoint dumps (v : json) : str :=
  match v with
  | JNull => py "null"
  | JBool true => py "true"
  | JBool false => py "false"
  | JInt z => str_of_Z z
  | JFloat t => t
  | JStr s => dumps_str s
  | JArr l => py "[" ++ join (py ", ") (map dumps l) ++ py "]"
  | JObj l => py "{" ++ join (py ", ") (map (fun kv => dumps_str kv.1 ++ py ": " ++ dumps kv.2) l) ++ py "}"
  end.

(** ** Parsing *)

Definition is_ws (c : N) : bool := (c =? 32) || (c =? 9) || (c =? 10) || (c =? 13).

Fixpoint skip_ws (s : str) : str :=
  match s with
  | c :: s' => if is_ws c then skip_ws s' else s
  | [] => []
  end.

(** Four hexadecimal digits. *)
Definition read_hex4 (s : str) : res (N * str) :=
  if Nat.ltb (length s) 4 then Raise ValueError
  else n ← int_hex (take 4 s); Ok (n, drop 4 s).

Definition is_high (n : N) : bool := (55296 <=? n) && (n <=? 56319).
Definition is_low (n : N) : bool := (56320 <=? n) && (n <=? 57343).

(** What follows a backslash: the character and the rest. *)
Definition read_escape (s : str) : res (N * str) :=
  match s with
  | [] => Raise ValueError
  | c :: s =>
      if c =? 34 then Ok (34, s)
      else if c =? 92 then Ok (92, s)
      else if c =? 47 then Ok (47, s)
      else if c =? 98 then Ok (8, s)
      else if c =? 102 then Ok (12, s)
      else if c =? 110 then Ok (10, s)
      else if c =? 114 then Ok (13, s)
      else if c =? 116 then Ok (9, s)
      else if c =? 117 then
        '(n, r) ← read_hex4 s;
        match r with
        | 92 :: 117 :: r' =>
            if is_high n then
              '(n2, r2) ← read_hex4 r';
              Ok (if is_low n2 then (65536 + (n - 55296) * 1024 + (n2 - 56320), r2) else (n, r))
            else Ok (n, r)
        | _ => Ok (n, r)
        end
      else Raise ValueError
  end.

(** A string after its opening quote. *)
Fixpoint read_str (fuel : nat) (s : str) : res (str * str) :=
  match fuel with
  | O => Raise RuntimeError
  | S fuel =>
      match s with
      | [] => Raise ValueError
      | c :: r =>
          if c =? 34 then Ok ([], r)
          else if c =? 92 then
            '(d, r') ← read_escape r;
            '(t, r'') ← read_str fuel r';
            Ok (d :: t, r'')
          else if c <? 32 then Raise ValueError
          else '(t, r') ← read_str fuel r; Ok (c :: t, r')
      end
  end.

Definition is_digit (c : N) : bool := (48 <=? c) && (c <=? 57).

Fixpoint span_digits (s : str) : str * str :=
  match s with
  | c :: s' => if is_digit c then let '(d, r) := span_digits s' in (c :: d, r) else ([], s)
  | [] => ([], [])
  end.

(** The integer part: [0] or digits that do not start with [0]. *)
Definition read_int (s : str) : option (str * str) :=
  match s with
  | 48 :: r => Some ([48], r)
  | c :: _ => if is_digit c then Some (span_digits s) else None
  | [] => None
  end.

Definition read_frac (s : str) : str * str :=
  match s with
  | 46 :: r => match span_digits r with ([], _) => ([], s) | (d, r') => (46 :: d, r') end
  | _ => ([], s)
  end.

Definition read_exp (s : str) : str * str :=
  match s with
  | c :: r =>
      if (c =? 101) || (c =? 69) then
        let '(sign, r1) := match r with
                           | c1 :: r1 => if (c1 =? 43) || (c1 =? 45) then ([c1], r1) else ([], r)
                           | [] => ([], r)
                           end in
        match span_digits r1 with ([], _) => ([], s) | (d, r') => (c :: sign ++ d, r') end
      else ([], s)
  | [] => ([], s)
  end.

Definition int_value (ds : str) : Z := Z.of_N (of_digits 10 (map (fun c => c - 48) ds)).

Definition read_number (s : str) : res (json * str) :=
  let '(neg, s1) := match s with 45 :: r => (true, r) | _ => (false, s) end in
  '(ds, s2) ← of_option ValueError (read_int s1);
  let '(f, s3) := read_frac s2 in
  let '(e, s4) := read_exp s3 in
  match f, e with
  | [], [] => Ok (JInt (if neg then - int_value ds else int_value ds), s4)
  | _, _ => Ok (JFloat ((if neg then [45] else []) ++ ds ++ f ++ e), s4)
  end.

(** A literal word. *)
Definition read_word (w : str) (v : json) (s : str) : res (json * str) :=
  if bool_decide (take (length w) s = w) then Ok (v, drop (length w) s) else Raise ValueError.

Fixpoint obj_set (d : list (str * json)) (k : str) (v : json) : list (str * json) :=
  match d with
  | [] => [(k, v)]
  | (k', v') :: d => if k' =s? k then (k, v) :: d else (k', v') :: obj_set d k v
  end.
Definition obj_of (l : list (str * json)) : list (str * json) := foldl (fun d kv => obj_set d kv.1 kv.2) [] l.

Fixpoint read_value (fuel : nat) (s : str) {struct fuel} : res (json * str) :=
  match fuel with
  | O => Raise RuntimeError
  | S fuel =>
      match s with
      | [] => Raise ValueError
      | 34 :: r => '(t, r') ← read_str (length s) r; Ok (JStr t, r')
      | 91 :: r =>
          match skip_ws r with
          | 93 :: r' => Ok (JArr [], r')
          | r' => '(l, r'') ← read_items fuel r'; Ok (JArr l, r'')
          end
      | 123 :: r =>
          match skip_ws r with
          | 125 :: r' => Ok (JObj [], r')
          | r' => '(l, r'') ← read_members fuel r'; Ok (JObj (obj_of l), r'')
          end
      | 110 :: _ => read_word (py "null") JNull s
      | 116 :: _ => read_word (py "true") (JBool true) s
      | 102 :: _ => read_word (py "false") (JBool false) s
      | 78 :: _ => read_word (py "NaN") (JFloat (py "NaN")) s
      | 73 :: _ => read_word (py "Infinity") (JFloat (py "Infinity")) s
      | 45 :: 73 :: _ => read_word (py "-Infinity") (JFloat (py "-Infinity")) s
      | _ => read_number s
      end
  end
with read_items (fuel : nat) (s : str) {struct fuel} : res (list json * str) :=
  match fuel with
  | O => Raise RuntimeError
  | S fuel =>
      '(v, r) ← read_value fuel s;
      match skip_ws r with
      | 93 :: r' => Ok ([v], r')
      | 44 :: r' => '(l, r'') ← read_items fuel (skip_ws r'); Ok (v :: l, r'')
      | _ => Raise ValueError
      end
  end
with read_members (fuel : nat) (s : str) {struct fuel} : res (list (str * json) * str) :=
  match fuel with
  | O => Raise RuntimeError
  | S fuel =>
      match s with
      | 34 :: r =>
          '(k, r1) ← read_str (length s) r;
          match skip_ws r1 with
          | 58 :: r2 =>
              '(v, r3) ← read_value fuel (skip_ws r2);
              match skip_ws r3 with
              | 125 :: r4 => Ok ([(k, v)], r4)
              | 44 :: r4 => '(l, r5) ← read_members fuel (skip_ws r4); Ok ((k, v) :: l, r5)
              | _ => Raise ValueError
              end
          | _ => Raise ValueError
          end
      | _ => Raise ValueError
      end
  end.

Definition loads (s : str) : res json :=
  '(v, r) ← read_value (S (2 * length s)) (skip_ws s);
  match skip_ws r with
  | [] => Ok v
  | _ => Raise ValueError
  end.

(** ** Round trip of strings *)

Lemma read_hex4_format n r : n < 65536 -> read_hex4 (format_hex 4 (Z.of_N n) ++ r) = Ok (n, r).
Proof.
  intros Hn. assert (n < 16 ^ N.of_nat 4) as Hb by done.
  pose proof (length_format_hex 4 n ltac:(lia) Hb) as Hl. unfold read_hex4.
  rewrite length_app, Hl. change (Nat.ltb (4 + length r) 4) with false. cbv iota.
  rewrite take_app_length', drop_app_length' by lia. by rewrite int_hex_format by (lia || done).
Qed.

Lemma scalar_bounds c : scalar c = true -> c <= 1114111 /\ (c < 55296 \/ 57343 < c).
Proof. apply scalar_spec. Qed.

Lemma read_escape_bmp c r :
  scalar c = true -> c < 65536 -> read_escape (117 :: format_hex 4 (Z.of_N c) ++ r) = Ok (c, r).
Proof.
  intros Hs Hc. cbn [read_escape]. rewrite read_hex4_format by done. cbn [mbind res_bind].
  assert (is_high c = false) as ->.
  { apply scalar_bounds in Hs. unfold is_high. destruct (N.leb_spec 55296 c), (N.leb_spec c 56319); simpl; lia || done. }
  repeat case_match; done.
Qed.

Lemma read_escape_astral c r :
  65536 <= c <= 1114111 ->
  read_escape (117 :: format_hex 4 (Z.of_N (55296 + (c - 65536) / 1024)) ++
               hex4 (56320 + (c - 65536) mod 1024) ++ r) = Ok (c, r).
Proof.
  intros Hc. set (d := c - 65536). assert (d < 1048576) as Hd by lia.
  pose proof (N.mod_upper_bound d 1024 ltac:(done)) as Hm.
  assert (d / 1024 < 1024) as Hq by (apply N.Div0.div_lt_upper_bound; lia).
  pose proof (N.div_mod d 1024 ltac:(done)) as Hdm.
  set (q := d / 1024) in *. set (m := d mod 1024) in *. clearbody q m.
  cbn [read_escape]. rewrite read_hex4_format by lia. cbn [mbind res_bind].
  unfold hex4. change (py "\u") with [92; 117]. cbn [app].
  assert (is_high (55296 + q) = true) as ->.
  { unfold is_high. destruct (N.leb_spec 55296 (55296 + q)), (N.leb_spec (55296 + q) 56319); simpl; lia || done. }
  rewrite read_hex4_format by lia. cbn [mbind res_bind].
  assert (is_low (56320 + m) = true) as ->.
  { unfold is_low. destruct (N.leb_spec 56320 (56320 + m)), (N.leb_spec (56320 + m) 57343); simpl; lia || done. }
  do 2 f_equal. lia.
Qed.

Lemma esc_char_length c : (1 <= length (esc_char c))%nat.
Proof. unfold esc_char, hex4. repeat case_match; simpl; lia. Qed.

Lemma read_str_esc c fuel r :
  scalar c = true ->
  read_str (S fuel) (esc_char c ++ r) = '(t, r') ← read_str fuel r; Ok (c :: t, r').
Proof.
  intros Hs. pose proof (scalar_bounds c Hs) as Hb. unfold esc_char.
  destruct (N.eqb_spec c 34) as [->|]; [done|]. destruct (N.eqb_spec c 92) as [->|]; [done|].
  destruct (N.eqb_spec c 10) as [->|]; [done|]. destruct (N.eqb_spec c 13) as [->|]; [done|].
  destruct (N.eqb_spec c 9) as [->|]; [done|]. destruct (N.eqb_spec c 12) as [->|]; [done|].
  destruct (N.eqb_spec c 8) as [->|]; [done|].
  destruct (N.leb_spec 32 c) as [H1|H1]; [destruct (N.leb_spec c 126) as [H2|H2]|]; cbn [andb].
  - cbn [app read_str]. destruct (N.eqb_spec c 34), (N.eqb_spec c 92), (N.ltb_spec c 32); lia || done.
  - destruct (N.ltb_spec c 65536).
    + unfold hex4. change (py "\u") with [92; 117]. cbn [app read_str].
      change (92 =? 34) with false. change (92 =? 92) with true. cbv iota. by rewrite read_escape_bmp.
    + unfold hex4 at 1. change (py "\u") with [92; 117]. rewrite <- !(assoc app). cbn [app read_str].
      change (92 =? 34) with false. change (92 =? 92) with true. cbv iota. by rewrite read_escape_astral by lia.
  - destruct (N.ltb_spec c 65536); [|lia].
    unfold hex4. change (py "\u") with [92; 117]. cbn [app read_str].
    change (92 =? 34) with false. change (92 =? 92) with true. cbv iota. by rewrite read_escape_bmp.
Qed.

Lemma read_str_dumps s fuel r :
  Forall (fun c => scalar c = true) s -> (length s < fuel)%nat ->
  read_str fuel (concat (map esc_char s) ++ 34 :: r) = Ok (s, r).
Proof.
  intros Hs. revert fuel. induction Hs as [|c s Hc Hs IH]; intros [|fuel] Hf; simpl in Hf; try lia; [done|].
  cbn [map concat]. rewrite <- (assoc app), read_str_esc by done. rewrite IH by lia. done.
Qed.

Lemma length_concat_esc s : (length s <= length (concat (map esc_char s)))%nat.
Proof.
  induction s as [|c s IH]; simpl; [lia|]. rewrite length_app. pose proof (esc_char_length c). lia.
Qed.

(** ** Round trip of integers *)

(** What may follow a number. *)
Definition stops (r : str) : Prop :=
  match r with [] => True | c :: _ => is_digit c = false /\ c <> 46 /\ c <> 101 /\ c <> 69 end.

Lemma is_digit_char d : d < 10 -> is_digit (digit_char d) = true.
Proof.
  intros Hd. unfold is_digit, digit_char. destruct (N.ltb_spec d 10); [|lia].
  destruct (N.leb_spec 48 (48 + d)), (N.leb_spec (48 + d) 57); simpl; lia || done.
Qed.

Lemma span_digits_app ds r :
  Forall (fun d => d < 10) ds -> stops r -> span_digits ((digit_char <$> ds) ++ r) = (digit_char <$> ds, r).
Proof.
  intros Hds Hr. induction Hds as [|d ds Hd Hds IH].
  - destruct r as [|c r]; [done|]. destruct Hr as (Hc & _). simpl. by rewrite Hc.
  - rewrite fmap_cons. cbn [app span_digits]. rewrite is_digit_char by done. by rewrite IH.
Qed.

Lemma read_frac_stops r : stops r -> read_frac r = ([], r).
Proof. destruct r as [|c r]; [done|]. intros (_ & H & _). simpl. repeat case_match; done. Qed.

Lemma read_exp_stops r : stops r -> read_exp r = ([], r).
Proof.
  destruct r as [|c r]; [done|]. intros (_ & _ & H1 & H2). unfold read_exp.
  destruct (N.eqb_spec c 101), (N.eqb_spec c 69); done.
Qed.

Lemma read_int_digits n r :
  stops r -> read_int (str_of_N n ++ r) = Some (str_of_N n, r).
Proof.
  intros Hr. unfold str_of_N. pose proof (digits_bound 10 n ltac:(lia)) as Hb.
  destruct (digits 10 n) as [|d ds] eqn:E; [by destruct (digits_nonnil 10 n)|].
  destruct (decide (d = 0)) as [->|Hd].
  - apply digits_head in E as [-> ->]; [done|lia].
  - apply Forall_cons_1 in Hb as Hb'. destruct Hb' as [Hd10 _].
    assert (read_int ((digit_char <$> d :: ds) ++ r) = Some (span_digits ((digit_char <$> d :: ds) ++ r))) as ->.
    { cbn [fmap list_fmap app]. pose proof (is_digit_char d Hd10) as Hdig.
      assert (digit_char d <> 48) as Hne by (unfold digit_char; destruct (N.ltb_spec d 10); lia).
      unfold read_int. repeat case_match; congruence. }
    by rewrite span_digits_app.
Qed.

Lemma int_value_digits n : int_value (str_of_N n) = Z.of_N n.
Proof.
  unfold int_value, str_of_N. f_equal. rewrite <- (of_digits_digits 10 n) at 2 by lia. f_equal.
  pose proof (digits_bound 10 n ltac:(lia)) as Hb. induction Hb as [|d ds Hd Hb IH]; [done|].
  cbn [fmap list_fmap map]. f_equal; [|exact IH]. unfold digit_char. destruct (N.ltb_spec d 10); lia.
Qed.

Lemma read_number_Z z r : stops r -> read_number (str_of_Z z ++ r) = Ok (JInt z, r).
Proof.
  intros Hr. unfold read_number.
  assert (forall n, match str_of_N n ++ r with 45 :: r' => (true, r') | _ => (false, str_of_N n ++ r) end = (false, str_of_N n ++ r)) as Hpos.
  { intros n. unfold str_of_N. pose proof (digits_bound 10 n ltac:(lia)) as Hb.
    destruct (digits 10 n) as [|d ds] eqn:E; [by destruct (digits_nonnil 10 n)|].
    apply Forall_cons_1 in Hb as [Hd _]. cbn [fmap list_fmap app].
    assert (digit_char d <> 45) by (unfold digit_char; destruct (N.ltb_spec d 10); lia). repeat case_match; congruence. }
  destruct z as [|p|p]; unfold str_of_Z; cbn [Z.to_N app]; rewrite ?Hpos;
    rewrite read_int_digits by done; cbn [of_option mbind res_bind]; rewrite read_frac_stops, read_exp_stops by done;
    by rewrite int_value_digits.
Qed.

(** ** Round trip of values *)

Fixpoint jsize (v : json) : nat :=
  match v with
  | JArr l => S (list_sum (map (fun x => S (jsize x)) l))
  | JObj l => S (list_sum (map (fun kv => S (jsize kv.2)) l))
  | _ => 1
  end.

(** Values the program writes: no floats, strings of Unicode scalar values, dicts
    with one entry per key. *)
Fixpoint jok (v : json) : Prop :=
  match v with
  | JFloat _ => False
  | JStr s => Forall (fun c => scalar c = true) s
  | JArr l => foldr (fun x P => jok x /\ P) True l
  | JObj l => NoDup l.*1 /\ foldr (fun kv P => (Forall (fun c => scalar c = true) kv.1 /\ jok kv.2) /\ P) True l
  | _ => True
  end.

Lemma obj_set_new d k v : k ∉ d.*1 -> obj_set d k v = d ++ [(k, v)].
Proof.
  induction d as [|[k' v'] d IH]; [done|]. rewrite fmap_cons. intros [H1 H2]%not_elem_of_cons.
  cbn [obj_set fst] in *. rewrite bool_decide_false by congruence. by rewrite IH.
Qed.

Lemma obj_of_NoDup l : NoDup l.*1 -> obj_of l = l.
Proof.
  unfold obj_of. assert (forall d, NoDup (d.*1 ++ l.*1) -> foldl (fun d kv => obj_set d kv.1 kv.2) d l = d ++ l) as H.
  { induction l as [|[k v] l IH]; intros d Hd; [by rewrite app_nil_r|]. cbn [foldl fst snd].
    rewrite fmap_cons in Hd. cbn [fst] in Hd. apply list.NoDup_app in Hd as Hd'. destruct Hd' as (_ & Hdis & _).
    rewrite obj_set_new by (intros Hin; apply (Hdis k Hin); left).
    rewrite IH; [by rewrite <- (assoc app)|]. rewrite fmap_app. simpl. by rewrite <- (assoc app). }
  intros Hl. by rewrite (H []).
Qed.

Lemma digit_cases c : is_digit c = true ->
  c = 48 \/ c = 49 \/ c = 50 \/ c = 51 \/ c = 52 \/ c = 53 \/ c = 54 \/ c = 55 \/ c = 56 \/ c = 57.
Proof. unfold is_digit. rewrite andb_true_iff, !N.leb_le. lia. Qed.

Lemma str_of_N_head n : exists c t, str_of_N n = c :: t /\ is_digit c = true.
Proof.
  unfold str_of_N. pose proof (digits_bound 10 n ltac:(lia)) as Hb.
  destruct (digits 10 n) as [|d ds] eqn:E; [by destruct (digits_nonnil 10 n)|].
  apply Forall_cons_1 in Hb as [Hd _]. exists (digit_char d), (digit_char <$> ds). split; [done|]. by apply is_digit_char.
Qed.

Lemma read_value_number fuel z r : read_value (S fuel) (str_of_Z z ++ r) = read_number (str_of_Z z ++ r).
Proof.
  assert (forall n, exists c t, str_of_N n = c :: t /\ is_digit c = true) as Hh by apply str_of_N_head.
  destruct z as [|p|p]; unfold str_of_Z.
  - done.
  - destruct (Hh (Z.to_N (Z.pos p))) as (c & t & -> & Hc). apply digit_cases in Hc.
    destruct Hc as [->|[->|[->|[->|[->|[->|[->|[->|[->| ->]]]]]]]]]; done.
  - destruct (Hh (N.pos p)) as (c & t & -> & Hc). apply digit_cases in Hc.
    destruct Hc as [->|[->|[->|[->|[->|[->|[->|[->|[->| ->]]]]]]]]]; done.
Qed.

Lemma dumps_head v : jok v -> exists c t, dumps v = c :: t /\ is_ws c = false /\ c <> 93.
Proof.
  intros Hv. destruct v as [|[]|z|t|s|l|l]; try solve [destruct Hv | by do 2 eexists].
  destruct z as [|p|p]; [by do 2 eexists| |by do 2 eexists].
  destruct (str_of_N_head (Z.to_N (Z.pos p))) as (c & t & E & Hc). exists c, t. split; [exact E|].
  apply digit_cases in Hc. destruct Hc as [->|[->|[->|[->|[->|[->|[->|[->|[->| ->]]]]]]]]]; done.
Qed.

Lemma skip_ws_dumps v r : jok v -> skip_ws (dumps v ++ r) = dumps v ++ r.
Proof. intros Hv. destruct (dumps_head v Hv) as (c & t & -> & Hc & _). simpl. by rewrite Hc. Qed.

Definition item_str (l : list json) : str := join [44; 32] (map dumps l).
Definition member_str (l : list (str * json)) : str :=
  join [44; 32] (map (fun kv => dumps_str kv.1 ++ [58; 32] ++ dumps kv.2) l).

Lemma item_str_cons x l r :
  item_str (x :: l) ++ r = dumps x ++ match l with [] => r | _ => 44 :: 32 :: item_str l ++ r end.
Proof. unfold item_str. destruct l as [|y l]; [done|]. cbn [map join]. by rewrite <- !(assoc app). Qed.

Lemma member_str_cons k x l r :
  member_str ((k, x) :: l) ++ r =
    34 :: concat (map esc_char k) ++ 34 :: 58 :: 32 :: dumps x ++
    match l with [] => r | _ => 44 :: 32 :: member_str l ++ r end.
Proof.
  unfold member_str, dumps_str. destruct l as [|y l]; cbn [map join fst snd]; rewrite <- !(assoc app);
    cbn [app]; rewrite <- !(assoc app); done.
Qed.

Lemma read_key k r fuel :
  Forall (fun c => scalar c = true) k -> fuel = S (length (concat (map esc_char k) ++ 34 :: r)) ->
  read_str fuel (concat (map esc_char k) ++ 34 :: r) = Ok (k, r).
Proof.
  intros Hk ->. apply read_str_dumps; [done|]. rewrite length_app. pose proof (length_concat_esc k). lia.
Qed.

Lemma read_all_fuel fuel :
  (forall v r, (jsize v <= fuel)%nat -> jok v -> stops r -> read_value fuel (dumps v ++ r) = Ok (v, r)) /\
  (forall l r, l <> [] -> (list_sum (map (fun x => S (jsize x)) l) <= fuel)%nat -> jok (JArr l) ->
     read_items fuel (item_str l ++ 93 :: r) = Ok (l, r)) /\
  (forall l r, l <> [] -> (list_sum (map (fun kv => S (jsize kv.2)) l) <= fuel)%nat -> jok (JObj l) ->
     read_members fuel (member_str l ++ 125 :: r) = Ok (l, r)).
Proof.
  induction fuel as [|fuel (IHv & IHi & IHm)].
  { split_and!.
    - intros v r Hf. destruct v; simpl in Hf; lia.
    - intros [|x l] r Hne Hf; [done|simpl in Hf; lia].
    - intros [|x l] r Hne Hf; [done|simpl in Hf; lia]. }
  split_and!.
  - intros v r Hf Hok Hr. destruct v as [|[]|z|t|s|l|l]; try done.
    + change (dumps (JInt z)) with (str_of_Z z). rewrite read_value_number. by apply read_number_Z.
    + cbn [dumps]. unfold dumps_str. cbn [app read_value]. rewrite <- (assoc app). cbn [app].
      rewrite (read_key s r) by done. done.
    + change (dumps (JArr l)) with (91 :: item_str l ++ [93]). cbn [app read_value]. rewrite <- (assoc app). cbn [app].
      destruct l as [|x l]; [done|]. destruct Hok as [Hx Hl].
      assert (skip_ws (item_str (x :: l) ++ 93 :: r) = item_str (x :: l) ++ 93 :: r) as ->.
      { rewrite item_str_cons. by apply skip_ws_dumps. }
      assert (exists c t, item_str (x :: l) ++ 93 :: r = c :: t /\ c <> 93) as (c & t & E & Hc).
      { rewrite item_str_cons. destruct (dumps_head x Hx) as (c & t & -> & _ & Hc). by do 2 eexists. }
      pose proof (IHi (x :: l) r ltac:(done) ltac:(simpl in *; lia) (conj Hx Hl)) as Hi. rewrite E in *.
      repeat case_match; simplify_eq; by rewrite Hi.
    + change (dumps (JObj l)) with (123 :: member_str l ++ [125]). cbn [app read_value]. rewrite <- (assoc app). cbn [app].
      destruct l as [|[k x] l]; [done|].
      pose proof (IHm ((k, x) :: l) r ltac:(done) ltac:(simpl in *; lia) Hok) as Hi.
      assert (exists t, member_str ((k, x) :: l) ++ 125 :: r = 34 :: t) as [t E] by (rewrite member_str_cons; by eexists).
      rewrite E in *. cbn [skip_ws is_ws]. change (is_ws 34) with false. cbv iota. rewrite Hi. cbn [mbind res_bind].
      rewrite obj_of_NoDup by apply Hok. done.
  - intros [|x l] r Hne Hf Hok; [done|]. destruct Hok as [Hx Hl]. cbn [map list_sum foldr] in Hf.
    change (foldr Nat.add 0%nat) with list_sum in Hf.
    rewrite item_str_cons. cbn [read_items]. destruct l as [|y l].
    + rewrite IHv by (done || simpl in Hf; lia). done.
    + rewrite IHv by (done || simpl in Hf; lia). cbn [mbind res_bind skip_ws].
      change (is_ws 44) with false. change (is_ws 32) with true. cbv iota.
      change (skip_ws (32 :: item_str (y :: l) ++ 93 :: r)) with (skip_ws (item_str (y :: l) ++ 93 :: r)).
      assert (skip_ws (item_str (y :: l) ++ 93 :: r) = item_str (y :: l) ++ 93 :: r) as ->.
      { rewrite item_str_cons. apply skip_ws_dumps, Hl. }
      rewrite IHi; [done|done|lia|done].
  - intros [|[k x] l] r Hne Hf Hok; [done|]. destruct Hok as [Hnd [[Hk Hx] Hl]]. cbn [map list_sum foldr snd] in Hf.
    change (foldr Nat.add 0%nat) with list_sum in Hf.
    rewrite member_str_cons. cbn [read_members]. rewrite read_key by done. cbn [mbind res_bind skip_ws].
    change (is_ws 58) with false. change (is_ws 32) with true. cbv iota.
    change (skip_ws (32 :: ?a)) with (skip_ws a). rewrite skip_ws_dumps by done.
    destruct l as [|[k' y] l].
    + rewrite IHv by (done || simpl in Hf; lia). done.
    + rewrite IHv by (done || simpl in Hf; lia). cbn [mbind res_bind skip_ws].
      change (is_ws 44) with false. change (is_ws 32) with true. cbv iota.
      change (skip_ws (32 :: member_str ((k', y) :: l) ++ 125 :: r)) with (skip_ws (member_str ((k', y) :: l) ++ 125 :: r)).
      assert (skip_ws (member_str ((k', y) :: l) ++ 125 :: r) = member_str ((k', y) :: l) ++ 125 :: r) as ->
        by (by rewrite member_str_cons).
      rewrite IHm; [done|done|lia|]. rewrite fmap_cons in Hnd. apply list.NoDup_cons in Hnd. split; [tauto|done].
Qed.

Lemma length_join sep (l : list str) :
  length (join sep l) = (list_sum (map length l) + length sep * (length l - 1))%nat.
Proof.
  induction l as [|x [|y l] IH]; [simpl; lia|simpl; lia|].
  change (join sep (x :: y :: l)) with (x ++ sep ++ join sep (y :: l)). rewrite !length_app, IH. simpl. lia.
Qed.

Lemma list_sum_le {A} (f g : A -> nat) l : (forall x, x ∈ l -> f x <= g x)%nat -> (list_sum (map f l) <= list_sum (map g l))%nat.
Proof.
  induction l as [|x l IH]; intros H; simpl; [lia|].
  pose proof (H x ltac:(left)). assert (list_sum (map f l) <= list_sum (map g l))%nat; [|simpl in *; lia].
  apply IH. intros y Hy. apply H. by right.
Qed.

Lemma list_sum_elem (f : json -> nat) l x : x ∈ l -> (f x <= list_sum (map f l))%nat.
Proof. induction 1; simpl in *; lia. Qed.

Lemma jsize_bound v : (jsize v <= S (2 * length (dumps v)))%nat.
Proof.
  assert (forall n v, (jsize v <= n)%nat -> (jsize v <= S (2 * length (dumps v)))%nat) as H; [|by eapply H].
  induction n as [|n IH]; intros w Hn; [destruct w; simpl in Hn; lia|].
  destruct w as [|b|z|t|s|l|l]; try (cbn [jsize]; lia).
  - change (dumps (JArr l)) with (91 :: item_str l ++ [93]). cbn [length]. rewrite length_app. unfold item_str.
    rewrite length_join, length_map, map_map. cbn [jsize length] in *.
    assert (list_sum (map (fun x => S (jsize x)) l) <= 2 * list_sum (map (fun x => length (dumps x)) l) + 2 * length l)%nat; [|lia].
    assert (forall x, x ∈ l -> jsize x <= n)%nat as Hx.
    { intros x Hx. pose proof (list_sum_elem (fun x => S (jsize x)) l x Hx). simpl in *. lia. }
    clear Hn. induction l as [|x l IHl]; simpl; [lia|].
    pose proof (IH x (Hx x ltac:(left))). assert (forall y, y ∈ l -> jsize y <= n)%nat as Hy by (intros; apply Hx; by right).
    specialize (IHl Hy). simpl in *. lia.
  - change (dumps (JObj l)) with (123 :: member_str l ++ [125]). cbn [length]. rewrite length_app. unfold member_str.
    rewrite length_join, length_map, map_map. cbn [jsize length] in *.
    assert (list_sum (map (fun kv => S (jsize kv.2)) l) <=
      2 * list_sum (map (fun kv => length (dumps_str kv.1 ++ [58; 32]%N ++ dumps kv.2)) l) + 2 * length l)%nat; [|lia].
    assert (forall kv, kv ∈ l -> jsize kv.2 <= n)%nat as Hx.
    { clear IH. intros kv Hx. revert Hn. generalize n. induction Hx as [kv l|kv kv' l Hx IHx]; intros k Hn; simpl in Hn; [lia|].
      apply IHx. simpl in *. lia. }
    clear Hn. induction l as [|[k x] l IHl]; simpl; [lia|].
    pose proof (IH x (Hx (k, x) ltac:(left))).
    assert (forall y, y ∈ l -> jsize y.2 <= n)%nat as Hy by (intros; apply Hx; by right).
    specialize (IHl Hy). rewrite length_app. simpl in *. lia.
Qed.

(** [json.loads(json.dumps(v))] is [v]. *)
Lemma json_roundtrip v : jok v -> loads (dumps v) = Ok v.
Proof.
  intros Hv. unfold loads. pose proof (skip_ws_dumps v [] Hv) as Hs. rewrite app_nil_r in Hs. rewrite Hs.
  destruct (read_all_fuel (S (2 * length (dumps v)))) as (H & _ & _).
  specialize (H v [] (jsize_bound v) Hv I). rewrite app_nil_r in H. by rewrite H.
Qed.

(** The output is ASCII, so encoding it to UTF-8 and back changes nothing. *)
Lemma format_hex4_ascii n : n < 65536 -> Forall (fun c => c < 128) (format_hex 4 (Z.of_N n)).
Proof.
  intros Hn. rewrite format_hex_fixed by (lia || done). apply Forall_fmap.
  eapply Forall_weaken; [apply (fixed_digits_bound 16 4 n); done|]. intros d Hd. simpl in *.
  unfold digit_char. destruct (N.ltb_spec d 10); lia.
Qed.

Lemma esc_char_ascii c : c <= 1114111 -> Forall (fun c => c < 128) (esc_char c).
Proof.
  intros Hc. unfold esc_char.
  repeat (match goal with |- context [if ?b then _ else _] => destruct b eqn:? end; try (by repeat constructor)).
  - apply andb_true_iff in Heqb6 as [_ Hb]. apply N.leb_le in Hb. constructor; [lia|constructor].
  - unfold hex4. apply Forall_app. split; [by repeat constructor|]. apply format_hex4_ascii. by apply N.ltb_lt.
  - apply N.ltb_ge in Heqb7. set (d := c - 65536). assert (d < 1048576) as Hd by lia.
    assert (d / 1024 < 1024) as Hq by (apply N.Div0.div_lt_upper_bound; lia).
    pose proof (N.mod_upper_bound d 1024 ltac:(done)) as Hm.
    set (q := d / 1024) in *. set (m := d mod 1024) in *. clearbody q m.
    unfold hex4. repeat (apply Forall_app; split); try (by repeat constructor); apply format_hex4_ascii; lia.
Qed.

Lemma join_ascii sep l :
  Forall (fun c => c < 128) sep -> Forall (Forall (fun c => c < 128)) l -> Forall (fun c => c < 128) (join sep l).
Proof.
  intros Hs Hl. induction Hl as [|x [|y l] Hx Hl IH]; [constructor|done|].
  change (join sep (x :: y :: l)) with (x ++ sep ++ join sep (y :: l)). rewrite !Forall_app. auto.
Qed.

Lemma dumps_str_ascii s : Forall (fun c => scalar c = true) s -> Forall (fun c => c < 128) (dumps_str s).
Proof.
  intros Hs. unfold dumps_str. constructor; [done|]. apply Forall_app. split; [|by repeat constructor].
  induction Hs as [|c s Hc Hs IH]; [constructor|]. cbn [map concat]. apply Forall_app. split; [|done].
  apply esc_char_ascii. by apply scalar_bounds in Hc as [? _].
Qed.

Lemma str_of_N_ascii n : Forall (fun c => c < 128) (str_of_N n).
Proof.
  unfold str_of_N. apply Forall_fmap. eapply Forall_weaken; [apply (digits_bound 10 n); lia|].
  intros d Hd. simpl in *. unfold digit_char. destruct (N.ltb_spec d 10); lia.
Qed.

Lemma dumps_ascii v : jok v -> Forall (fun c => c < 128) (dumps v).
Proof.
  assert (forall n v, (jsize v <= n)%nat -> jok v -> Forall (fun c => c < 128) (dumps v)) as H; [|by eapply H].
  induction n as [|n IH]; intros w Hn Hok; [destruct w; simpl in Hn; lia|].
  destruct w as [|[]|z|t|s|l|l]; try (by repeat constructor); try done.
  - destruct z as [|p|p]; [by repeat constructor|apply str_of_N_ascii|].
    constructor; [done|apply str_of_N_ascii].
  - by apply dumps_str_ascii.
  - change (dumps (JArr l)) with (91 :: item_str l ++ [93]). constructor; [done|]. apply Forall_app.
    split; [|by repeat constructor]. apply join_ascii; [by repeat constructor|]. cbn [jsize] in Hn.
    induction l as [|x l IHl]; [constructor|]. destruct Hok as [Hx Hl]. cbn [map list_sum foldr] in *.
    change (foldr Nat.add 0%nat) with list_sum in Hn. constructor; [apply IH; [lia|done]|apply IHl; [lia|done]].
  - change (dumps (JObj l)) with (123 :: member_str l ++ [125]). constructor; [done|]. apply Forall_app.
    split; [|by repeat constructor]. apply join_ascii; [by repeat constructor|]. destruct Hok as [_ Hok]. cbn [jsize] in Hn.
    induction l as [|[k x] l IHl]; [constructor|]. destruct Hok as [[Hk Hx] Hl]. cbn [map list_sum foldr fst snd] in *.
    change (foldr Nat.add 0%nat) with list_sum in Hn. constructor; [|apply IHl; [lia|done]].
    rewrite !Forall_app. split_and!; [by apply dumps_str_ascii|by repeat constructor|apply IH; [lia|done]].
Qed.

(** [json.loads(json.dumps(v).encode("utf-8").decode("utf-8"))] is [v]. *)
Lemma json_bytes_roundtrip v : jok v -> utf8_encode (dumps v) = Ok (dumps v) /\
  utf8_decode (dumps v) = Ok (dumps v) /\ loads (dumps v) = Ok v.
Proof.
  intros Hv. pose proof (utf8_encode_ascii _ (dumps_ascii v Hv)) as He.
  split_and!; [done|by apply utf8_roundtrip|by apply json_roundtrip].
Qed.
