(* ===== verification/Wal.v ===== *)
(** * The write-ahead log: [litedb-python/wal.py]

    The log file is its bytes; [append] returns the state also when it raises, because
    the sequence number is taken first.  [read_all], a generator, returns the entries
    it yields and the exception that ends it, if any.

    A log of complete entries is read back exactly, and a crash that leaves a part of
    the next entry loses nothing else ([wal_crash_recovery]); the same tail hides
    every entry appended after the restart ([wal_torn_tail_hides_appends]). *)

From S2P Require Import Prelude PyStd Json.

Local Open Scope N_scope.

Record WALEntry := mkWALEntry {
  sequence : Z;
  operation : str;
  w_key : str;
  w_value : option str;
}.

Definition to_dict (e : WALEntry) : json :=
  JObj [(py "seq", JInt (sequence e)); (py "op", JStr (operation e)); (py "key", JStr (w_key e));
        (py "val", match w_value e with Some v => JStr v | None => JNull end)].

Fixpoint obj_get (d : list (str * json)) (k : str) : option json :=
  match d with
  | [] => None
  | (k', v) :: d => if k' =s? k then Some v else obj_get d k
  end.

(** [from_dict]; the fields of an entry have the types [append] gives them, anything
    else is a [TypeError]. *)
Definition from_dict (d : json) : res WALEntry :=
  match d with
  | JObj l =>
      seq ← of_option KeyError (obj_get l (py "seq"));
      op ← of_option KeyError (obj_get l (py "op"));
      key ← of_option KeyError (obj_get l (py "key"));
      match seq, op, key, obj_get l (py "val") with
      | JInt s, JStr o, JStr k, Some (JStr v) => Ok (mkWALEntry s o k (Some v))
      | JInt s, JStr o, JStr k, Some JNull => Ok (mkWALEntry s o k None)
      | JInt s, JStr o, JStr k, None => Ok (mkWALEntry s o k None)
      | _, _, _, _ => Raise TypeError
      end
  | _ => Raise TypeError
  end.

Definition checksum (payload : bytes) : N := N.land (crc32 0 payload) 4294967295.

(** The bytes [_write_entry] writes. *)
Definition encode_entry (e : WALEntry) : res bytes :=
  payload ← utf8_encode (dumps (to_dict e));
  len ← pack 4 (N.of_nat (length payload));
  crc ← pack 4 (checksum payload);
  Ok (len ++ payload ++ crc).

Record wal := Wal { w_file : bytes; w_seq : Z }.

Definition wal_append (w : wal) (op key : str) (value : option str) : wal * res WALEntry :=
  let e := mkWALEntry (w_seq w) op key value in
  match encode_entry e with
  | Ok bs => (Wal (w_file w ++ bs) (w_seq w + 1), Ok e)
  | Raise ex => (Wal (w_file w) (w_seq w + 1), Raise ex)
  end.

(** [json.loads(payload.decode("utf-8"))] and [from_dict]. *)
Definition decode_payload (payload : bytes) : res WALEntry :=
  s ← utf8_decode payload; d ← loads s; from_dict d.

Fixpoint read_loop (fuel : nat) (f : bytes) : list WALEntry * option exn :=
  match fuel with
  | O => ([], None)
  | S fuel =>
      let header := take 4 f in
      if Nat.ltb (length header) 4 then ([], None)
      else
        let n := of_digits 256 header in
        let f1 := drop 4 f in
        if N.of_nat (length f1) <? n then ([], None)
        else
          let payload := take (N.to_nat n) f1 in
          let f2 := drop (N.to_nat n) f1 in
          if Nat.ltb (length (take 4 f2)) 4 then ([], None)
          else if negb (of_digits 256 (take 4 f2) =? checksum payload) then ([], None)
          else
            match decode_payload payload with
            | Ok e => let '(es, r) := read_loop fuel (drop 4 f2) in (e :: es, r)
            | Raise ValueError | Raise KeyError => ([], None)
            | Raise ex => ([], Some ex)
            end
  end.

(** Every turn consumes eight bytes or more, so the length of the file is enough fuel. *)
Definition read_all (f : bytes) : list WALEntry * option exn := read_loop (length f) f.

(** [WriteAheadLog.__init__] on the bytes found on disk. *)
Definition wal_open (f : bytes) : res wal :=
  match read_all f with
  | (es, None) => Ok (Wal f (foldl (fun s e => if (s <=? sequence e)%Z then (sequence e + 1)%Z else s) 0%Z es))
  | (_, Some ex) => Raise ex
  end.

Definition wal_truncate (w : wal) : wal := Wal [] (w_seq w).

(** ** Facts *)

#[local] Opaque pack checksum dumps utf8_encode.

(** Entries the program can log: strings of Unicode scalar values. *)
Definition loggable (e : WALEntry) : Prop :=
  Forall (fun c => scalar c = true) (operation e) /\ Forall (fun c => scalar c = true) (w_key e) /\
  match w_value e with Some v => Forall (fun c => scalar c = true) v | None => True end.

Lemma to_dict_ok e : loggable e -> jok (to_dict e).
Proof.
  intros (H1 & H2 & H3). split.
  - apply (bool_decide_unpack _). by vm_compute.
  - simpl. split_and!; auto; try (by apply (bool_decide_unpack _); vm_compute). by destruct (w_value e).
Qed.

Lemma from_to_dict e : from_dict (to_dict e) = Ok e.
Proof. destruct e as [s o k [v|]]; done. Qed.

Lemma decode_payload_dumps e : loggable e -> decode_payload (dumps (to_dict e)) = Ok e.
Proof.
  intros He. destruct (json_bytes_roundtrip _ (to_dict_ok e He)) as (_ & H1 & H2).
  unfold decode_payload. rewrite H1. cbn [mbind res_bind]. rewrite H2. apply from_to_dict.
Qed.

Lemma pack_inv w n bs : pack w n = Ok bs -> length bs = w /\ of_digits 256 bs = n.
Proof.
  intros H. pose proof (pack_unpack w n bs H) as [Hl Hu]. split; [done|]. unfold unpack in Hu.
  rewrite Hl, Nat.eqb_refl in Hu. congruence.
Qed.

(** An encoded entry: four bytes of length, the payload, four bytes of checksum. *)
Lemma encode_entry_shape e bs :
  loggable e -> encode_entry e = Ok bs ->
  exists len crc, bs = len ++ dumps (to_dict e) ++ crc /\ length len = 4%nat /\ length crc = 4%nat /\
    of_digits 256 len = N.of_nat (length (dumps (to_dict e))) /\ of_digits 256 crc = checksum (dumps (to_dict e)).
Proof.
  intros He. destruct (json_bytes_roundtrip _ (to_dict_ok e He)) as (Hu & _ & _). unfold encode_entry.
  intros (payload & E1 & (len & El & (crc & Ec & E)%bind_ok)%bind_ok)%bind_ok.
  rewrite Hu in E1. apply Ok_inj in E1 as <-. apply Ok_inj in E as <-.
  apply pack_inv in El as [? ?], Ec as [? ?]. exists len, crc. auto.
Qed.

Lemma read_loop_entry e bs fuel rest :
  loggable e -> encode_entry e = Ok bs ->
  read_loop (S fuel) (bs ++ rest) = let '(es, r) := read_loop fuel rest in (e :: es, r).
Proof.
  intros He Hb. destruct (encode_entry_shape e bs He Hb) as (len & crc & -> & Hl & Hc & Dl & Dc).
  set (p := dumps (to_dict e)) in *. rewrite <- !(assoc app). cbn [read_loop].
  rewrite (take_app_length' len) by done. rewrite (drop_app_length' len) by done. rewrite Hl. cbn [Nat.ltb Nat.leb]. rewrite Dl.
  destruct (N.ltb_spec (N.of_nat (length (p ++ crc ++ rest))) (N.of_nat (length p))) as [H|_];
    [rewrite length_app in H; lia|]. rewrite Nat2N.id.
  rewrite (take_app_length p), (drop_app_length p).
  rewrite (take_app_length' crc), (drop_app_length' crc) by done. rewrite Hc, Dc, N.eqb_refl. cbn [Nat.ltb Nat.leb negb].
  unfold p. by rewrite decode_payload_dumps.
Qed.

(** A part of an entry is not read. *)
Lemma read_loop_partial e bs k fuel :
  loggable e -> encode_entry e = Ok bs -> (k < length bs)%nat -> read_loop fuel (take k bs) = ([], None).
Proof.
  intros He Hb Hk. destruct (encode_entry_shape e bs He Hb) as (len & crc & -> & Hl & Hc & Dl & Dc).
  set (p := dumps (to_dict e)) in *. rewrite !length_app in Hk. destruct fuel as [|fuel]; [done|]. cbn [read_loop].
  destruct (Nat.ltb_spec (length (take 4 (take k (len ++ p ++ crc)))) 4) as [_|H4]; [done|].
  rewrite take_take in *. rewrite !length_take, !length_app in H4.
  assert (Nat.min 4 k = 4)%nat as E4 by lia. rewrite E4. rewrite (take_app_length' len (p ++ crc) 4) by done. rewrite Dl.
  rewrite (take_app_ge len) by lia. rewrite (drop_app_length' len _ 4) by done. rewrite Hl.
  destruct (N.ltb_spec (N.of_nat (length (take (k - 4) (p ++ crc)))) (N.of_nat (length p))) as [_|H]; [done|].
  rewrite length_take, length_app in H. rewrite Nat2N.id.
  rewrite (take_app_ge p) by lia. rewrite (drop_app_length p).
  destruct (Nat.ltb_spec (length (take 4 (take (k - 4 - length p) crc))) 4) as [_|H']; [done|].
  rewrite !length_take in H'. lia.
Qed.

(** The log of a list of entries. *)
Fixpoint encode_log (es : list WALEntry) : res bytes :=
  match es with
  | [] => Ok []
  | e :: es => b ← encode_entry e; bs ← encode_log es; Ok (b ++ bs)
  end.

Lemma read_loop_log es bs rest fuel :
  Forall loggable es -> encode_log es = Ok bs -> (length es <= fuel)%nat ->
  (forall f, read_loop f rest = ([], None)) -> read_loop fuel (bs ++ rest) = (es, None).
Proof.
  intros Hes. revert bs fuel. induction Hes as [|e es He Hes IH]; intros bs fuel Hb Hf Hrest.
  { apply Ok_inj in Hb as <-. apply Hrest. }
  cbn [encode_log] in Hb. apply bind_ok in Hb as (b & Eb & (bs' & Ebs & E)%bind_ok). apply Ok_inj in E as <-.
  destruct fuel as [|fuel]; [simpl in Hf; lia|]. rewrite <- (assoc app), (read_loop_entry e) by done.
  rewrite IH; [done|done|simpl in Hf; lia|done].
Qed.

Lemma encode_log_length es bs : Forall loggable es -> encode_log es = Ok bs -> (length es <= length bs)%nat.
Proof.
  intros Hes. revert bs. induction Hes as [|e es He Hes IH]; intros bs Hb; [simpl; lia|].
  cbn [encode_log] in Hb. apply bind_ok in Hb as (b & Eb & (bs' & Ebs & E)%bind_ok). apply Ok_inj in E as <-.
  destruct (encode_entry_shape e b He Eb) as (len & crc & -> & Hl & _). specialize (IH bs' Ebs).
  rewrite !length_app. simpl. lia.
Qed.

Lemma encode_log_snoc es e bs b :
  encode_log es = Ok bs -> encode_entry e = Ok b -> encode_log (es ++ [e]) = Ok (bs ++ b).
Proof.
  intros Hes He. revert bs Hes. induction es as [|a es IH]; intros bs Hes; cbn [app encode_log] in *.
  - apply Ok_inj in Hes as <-. rewrite He. cbn [mbind res_bind]. by rewrite app_nil_r.
  - apply bind_ok in Hes as (c & Ec & (cs & Ecs & E)%bind_ok). apply Ok_inj in E as <-.
    rewrite Ec. cbn [mbind res_bind]. rewrite (IH cs Ecs). cbn [mbind res_bind]. by rewrite (assoc app).
Qed.

(** A run of appends, all successful. *)
Fixpoint run_appends (w : wal) (ops : list (str * str * option str)) : res (wal * list WALEntry) :=
  match ops with
  | [] => Ok (w, [])
  | (op, key, value) :: ops =>
      match wal_append w op key value with
      | (w', Ok e) => '(w'', es) ← run_appends w' ops; Ok (w'', e :: es)
      | (_, Raise ex) => Raise ex
      end
  end.

Definition next_seq (s : Z) (es : list WALEntry) : Z :=
  foldl (fun s e => if (s <=? sequence e)%Z then (sequence e + 1)%Z else s) s es.

Lemma run_appends_log w ops w' es :
  run_appends w ops = Ok (w', es) ->
  exists bs, encode_log es = Ok bs /\ w_file w' = w_file w ++ bs /\ next_seq (w_seq w) es = w_seq w'.
Proof.
  revert w w' es. induction ops as [|[[op key] value] ops IH]; intros w w' es; cbn [run_appends].
  { intros E. apply Ok_inj in E. injection E as <- <-. exists []. by rewrite app_nil_r. }
  unfold wal_append. destruct (encode_entry _) as [b|] eqn:Eb; [|done].
  intros ([w2 es2] & E2 & E)%bind_ok. apply Ok_inj in E. injection E as <- <-.
  destruct (IH _ _ _ E2) as (bs & Ebs & Ef & Es). exists (b ++ bs). cbn [encode_log]. rewrite Eb. cbn [mbind res_bind].
  rewrite Ebs. split; [done|]. split; [cbn [w_file] in Ef; by rewrite Ef, <- (assoc app)|].
  rewrite <- Es. unfold next_seq. cbn [foldl w_seq sequence]. by rewrite Z.leb_refl.
Qed.

(** The log of a run is read back, whatever unreadable bytes follow it. *)
Lemma log_read ops w es rest :
  run_appends (Wal [] 0) ops = Ok (w, es) -> Forall loggable es ->
  (forall f, read_loop f rest = ([], None)) -> read_all (w_file w ++ rest) = (es, None).
Proof.
  intros Hrun Hes Hrest. destruct (run_appends_log _ _ _ _ Hrun) as (log & Hlog & Hf & Hseq). simpl in Hf.
  unfold read_all. rewrite Hf. apply read_loop_log; auto.
  rewrite length_app. pose proof (encode_log_length es log Hes Hlog). lia.
Qed.

Lemma log_recovery ops w es e bs (k : nat) :
  run_appends (Wal [] 0) ops = Ok (w, es) -> Forall loggable es ->
  loggable e -> encode_entry e = Ok bs -> (k < length bs)%nat -> read_all (w_file w ++ take k bs) = (es, None).
Proof. intros Hrun Hes He Hbs Hk. eapply log_read; eauto. intros f. by eapply read_loop_partial. Qed.

(** A log of complete entries is reopened as it was. *)
Lemma log_reopen ops w es :
  run_appends (Wal [] 0) ops = Ok (w, es) -> Forall loggable es -> read_all (w_file w) = (es, None) /\ wal_open (w_file w) = Ok w.
Proof.
  intros Hrun Hes. unfold wal_open. pose proof (log_read ops w es [] Hrun Hes ltac:(by intros [|f])) as H0.
  rewrite app_nil_r in H0. split; [done|]. rewrite H0. destruct (run_appends_log _ _ _ _ Hrun) as (log & Hlog & Hf & Hseq).
  fold (next_seq 0 es). change 0%Z with (w_seq (Wal [] 0)). rewrite Hseq. by destruct w.
Qed.

Lemma run_appends_snoc w ops w' es op key value w'' e :
  run_appends w ops = Ok (w', es) -> wal_append w' op key value = (w'', Ok e) ->
  run_appends w (ops ++ [(op, key, value)]) = Ok (w'', es ++ [e]).
Proof.
  revert w es. induction ops as [|[[op0 key0] value0] ops IH]; intros w es Hr Ha; cbn [run_appends app] in *.
  - apply Ok_inj in Hr. injection Hr as <- <-. by rewrite Ha.
  - destruct (wal_append w op0 key0 value0) as [w1 [e1|]]; [|done]. apply bind_ok in Hr as ([w2 es1] & Hr & E).
    apply Ok_inj in E. injection E as <- <-. by rewrite (IH _ _ Hr Ha).
Qed.

(** ** Properties *)

(** C17: Crash recovery.  After any run of appends on a new log, and a crash that leaves
    any part of the bytes of a further entry, reading the file yields exactly the
    appended entries, in order and without error; reopening a log that ends with a
    complete entry continues with the next sequence number. *)
Theorem wal_crash_recovery ops w es e bs (k : nat) :
  run_appends (Wal [] 0) ops = Ok (w, es) -> Forall loggable es ->
  loggable e -> encode_entry e = Ok bs -> (k < length bs)%nat ->
  read_all (w_file w ++ take k bs) = (es, None) /\ wal_open (w_file w) = Ok w.
Proof.
  intros Hrun Hes He Hbs Hk. split; [by eapply log_recovery|]. by destruct (log_reopen ops w es Hrun Hes).
Qed.

Definition sample : WALEntry := mkWALEntry 2 (py "DELETE") (py "age") None.

Lemma wal_crash_recovery_witness :
  exists w es, run_appends (Wal [] 0) [(py "SET", py "name", Some (py "Ada")); (py "SET", py "age", Some (py "36"))] = Ok (w, es) /\
    read_all (w_file w ++ take 9 (default [] (match encode_entry sample with Ok b => Some b | _ => None end))) = (es, None).
Proof.
  do 2 eexists. split; [vm_compute; reflexivity|].
  refine (proj1 (wal_crash_recovery
    [(py "SET", py "name", Some (py "Ada")); (py "SET", py "age", Some (py "36"))] _ _ sample _ 9 _ _ _ _ _)).
  - vm_compute. reflexivity.
  - repeat constructor.
  - repeat constructor.
  - vm_compute. reflexivity.
  - vm_compute. lia.
Defined.

(** A torn entry is not cut off when the log is reopened: an entry appended after
    the restart, acknowledged and on disk, is not found by the next recovery. *)
Theorem wal_torn_tail_hides_appends :
  exists torn w w' e, encode_entry sample = Ok torn /\ wal_open (take 30 torn) = Ok w /\
    wal_append w (py "SET") (py "k") (Some (py "v")) = (w', Ok e) /\ read_all (w_file w') = ([], None).
Proof.
  do 4 eexists. split; [vm_compute; reflexivity|]. split; [vm_compute; reflexivity|].
  split; [vm_compute; reflexivity|]. by vm_compute.
Qed.
