(* ===== verification/SSTable.v ===== *)
(** * Sorted string tables: [litedb-python/sstable.py]

    The table file is its bytes.  [write_table] produces them; [open_table] reads the
    footer, the sparse index and the Bloom filter back, and [table_get],
    [table_scan] and [iter_all] read entries from a file position on.

    For every strictly sorted list of items the writer accepts, the reader finds
    exactly the items: [sstable_roundtrip]. *)

From S2P Require Import Prelude PyStd Json.

Local Open Scope N_scope.

Definition MAGIC : bytes := py "LITEDB01".
Definition INDEX_INTERVAL : nat := 16.

(** [f.read(n)] from the rest of a file: fewer bytes at the end. *)
Definition read_n (n : N) (f : bytes) : bytes :=
  if N.of_nat (length f) <? n then f else take (N.to_nat n) f.

(** ** Bloom filter *)

Record bloom := Bloom { bits : bytes; b_size : N; num_hashes : nat }.

Definition new_bloom (size_bits : N) (hashes : nat) : bloom :=
  Bloom (replicate (N.to_nat (size_bits / 8 + 1)) 0) size_bits hashes.

Definition hash_positions (b : bloom) (key : str) : res (list N) :=
  key_bytes ← utf8_encode key;
  if (b_size b =? 0) && negb (Nat.eqb (num_hashes b) 0) then Raise ZeroDivisionError
  else Ok (map (fun seed => N.land (crc32 (N.land (N.of_nat seed * 2654435769) 4294967295) key_bytes) 4294967295 mod b_size b)
        (seq 0 (num_hashes b))).

(** [self._bits[pos // 8] |= 1 << (pos % 8)]. *)
Definition set_bit (bs : bytes) (pos : N) : res bytes :=
  x ← nth_res bs (N.to_nat (pos / 8));
  Ok (<[N.to_nat (pos / 8) := N.lor x (N.shiftl 1 (pos mod 8))]> bs).

Fixpoint set_bits (bs : bytes) (ps : list N) : res bytes :=
  match ps with [] => Ok bs | p :: ps => bs ← set_bit bs p; set_bits bs ps end.

Definition bloom_add (b : bloom) (key : str) : res bloom :=
  ps ← hash_positions b key; bs ← set_bits (bits b) ps; Ok (Bloom bs (b_size b) (num_hashes b)).

(** [self._bits[pos // 8] & (1 << (pos % 8))]. *)
Definition test_bit (bs : bytes) (pos : N) : res bool :=
  x ← nth_res bs (N.to_nat (pos / 8)); Ok (negb (N.land x (N.shiftl 1 (pos mod 8)) =? 0)).

(** The loop returns at the first bit that is not set. *)
Fixpoint test_bits (bs : bytes) (ps : list N) : res bool :=
  match ps with
  | [] => Ok true
  | p :: ps => b ← test_bit bs p; if (b : bool) then test_bits bs ps else Ok false
  end.

Definition might_contain (b : bloom) (key : str) : res bool :=
  ps ← hash_positions b key; test_bits (bits b) ps.

Definition bloom_to_bytes (b : bloom) : res bytes :=
  s ← pack 4 (b_size b); h ← pack 4 (N.of_nat (num_hashes b)); Ok (s ++ h ++ bits b).

Definition bloom_from_bytes (d : bytes) : res bloom :=
  s ← unpack 4 (take 4 d); h ← unpack 4 (take 4 (drop 4 d)); Ok (Bloom (drop 8 d) s (N.to_nat h)).

(** ** Writer *)

Definition encode_item (kv : str * str) : res bytes :=
  kb ← utf8_encode kv.1;
  vb ← utf8_encode kv.2;
  kl ← pack 2 (N.of_nat (length kb));
  vl ← pack 4 (N.of_nat (length vb));
  Ok (kl ++ kb ++ vl ++ vb).

(** The loop over the items: [i] is the item's number and [pos] is [f.tell()]. *)
Fixpoint write_items (i pos : nat) (b : bloom) (items : list (str * str)) :
    res (list (str * nat) * bloom * bytes) :=
  match items with
  | [] => Ok ([], b, [])
  | (k, v) :: items =>
      b' ← bloom_add b k;
      e ← encode_item (k, v);
      '(index, b'', data) ← write_items (S i) (pos + length e) b' items;
      Ok (if Nat.eqb (i mod INDEX_INTERVAL) 0 then (k, pos) :: index else index, b'', e ++ data)
  end.

Definition index_json (index : list (str * nat)) : json :=
  JArr (map (fun e => JArr [JStr e.1; JInt (Z.of_nat e.2)]) index).

Definition write_table (items : list (str * str)) : res bytes :=
  '(index, b, data) ← write_items 0 0 (new_bloom 10000 3) items;
  index_data ← utf8_encode (dumps (index_json index));
  il ← pack 4 (N.of_nat (length index_data));
  bloom_data ← bloom_to_bytes b;
  bl ← pack 4 (N.of_nat (length bloom_data));
  let index_offset := N.of_nat (length data) in
  let bloom_offset := N.of_nat (length data + 4 + length index_data) in
  io ← pack 8 index_offset;
  ec ← pack 4 (N.of_nat (length items));
  bo ← pack 8 bloom_offset;
  Ok (data ++ (il ++ index_data) ++ (bl ++ bloom_data) ++ (io ++ il ++ ec ++ bo ++ MAGIC)).

(** ** Reader *)

Record table := Table {
  t_file : bytes;
  t_index : list (str * nat);
  t_bloom : bloom;
  entry_count : N;
  index_offset : N;
  bloom_offset : N;
}.

(** The index as [json.loads] returns it: pairs of a key and an offset. *)
Definition index_entry (j : json) : res (str * nat) :=
  match j with
  | JArr [JStr k; JInt z] => Ok (k, Z.to_nat z)
  | _ => Raise TypeError
  end.

Fixpoint index_entries (l : list json) : res (list (str * nat)) :=
  match l with
  | [] => Ok []
  | j :: l => e ← index_entry j; es ← index_entries l; Ok (e :: es)
  end.

Definition index_of_json (j : json) : res (list (str * nat)) :=
  match j with JArr l => index_entries l | _ => Raise TypeError end.

Definition FOOTER_SIZE : nat := 32.

(** [f.seek(n)]. *)
Definition seek (f : bytes) (n : N) : bytes := if N.of_nat (length f) <? n then [] else drop (N.to_nat n) f.

(** [_load_metadata]. *)
Definition open_table (f : bytes) : res table :=
  if Nat.ltb (length f) FOOTER_SIZE then Raise OSError else
  let footer := drop (length f - FOOTER_SIZE) f in
  if negb (bool_decide (drop 24 footer = MAGIC)) then Raise ValueError else
  io ← unpack 8 (take 8 footer);
  ec ← unpack 4 (take 4 (drop 12 footer));
  bo ← unpack 8 (take 8 (drop 16 footer));
  let f1 := seek f io in
  n ← unpack 4 (take 4 f1);
  text ← utf8_decode (read_n n (drop 4 f1));
  j ← loads text;
  index ← index_of_json j;
  let f2 := seek f bo in
  bn ← unpack 4 (take 4 f2);
  b ← bloom_from_bytes (read_n bn (drop 4 f2));
  Ok (Table f index b ec io bo).

(** [SSTableWriter.write]. *)
Definition table_write (items : list (str * str)) : res table := f ← write_table items; open_table f.

(** [_read_entry] on the rest of the file: the entry and the number of bytes read. *)
Definition read_entry (f : bytes) : res (option (str * str * nat)) :=
  if Nat.ltb (length (take 2 f)) 2 then Ok None else
  let kb := read_n (of_digits 256 (take 2 f)) (drop 2 f) in
  key ← utf8_decode kb;
  let f2 := drop (2 + length kb) f in
  if Nat.ltb (length (take 4 f2)) 4 then Ok None else
  let vb := read_n (of_digits 256 (take 4 f2)) (drop 4 f2) in
  value ← utf8_decode vb;
  Ok (Some (key, value, (2 + length kb + 4 + length vb)%nat)).

(** The search of the sparse index for a start offset. *)
Fixpoint find_start (index : list (str * nat)) (key : str) (start : nat) : nat :=
  match index with
  | [] => start
  | (k, o) :: index => if k <=s? key then find_start index key o else start
  end.

(** The loops below turn at most once per byte of the file. *)
Fixpoint get_loop (fuel : nat) (limit : N) (key : str) (pos : nat) (f : bytes) : res (option str) :=
  match fuel with
  | O => Ok None
  | S fuel =>
      if N.of_nat pos <? limit then
        e ← read_entry f;
        match e with
        | None => Ok None
        | Some (k, v, n) =>
            if k =s? key then Ok (Some v)
            else if key <s? k then Ok None
            else get_loop fuel limit key (pos + n) (drop n f)
        end
      else Ok None
  end.

Definition table_get (t : table) (key : str) : res (option str) :=
  maybe ← might_contain (t_bloom t) key;
  if negb maybe then Ok None
  else
    let start := find_start (t_index t) key 0 in
    get_loop (S (length (t_file t))) (index_offset t) key start (drop start (t_file t)).

Fixpoint scan_table (fuel : nat) (limit : N) (start_key end_key : str) (pos : nat) (f : bytes) :
    res (list (str * str)) :=
  match fuel with
  | O => Ok []
  | S fuel =>
      if N.of_nat pos <? limit then
        e ← read_entry f;
        match e with
        | None => Ok []
        | Some (k, v, n) =>
            if k <s? start_key then scan_table fuel limit start_key end_key (pos + n) (drop n f)
            else if end_key <s? k then Ok []
            else rest ← scan_table fuel limit start_key end_key (pos + n) (drop n f); Ok ((k, v) :: rest)
        end
      else Ok []
  end.

Definition table_scan (t : table) (start_key end_key : str) : res (list (str * str)) :=
  let start := find_start (t_index t) start_key 0 in
  scan_table (S (length (t_file t))) (index_offset t) start_key end_key start (drop start (t_file t)).

Fixpoint iter_loop (fuel : nat) (limit : N) (pos : nat) (f : bytes) : res (list (str * str)) :=
  match fuel with
  | O => Ok []
  | S fuel =>
      if N.of_nat pos <? limit then
        e ← read_entry f;
        match e with
        | None => Ok []
        | Some (k, v, n) => rest ← iter_loop fuel limit (pos + n) (drop n f); Ok ((k, v) :: rest)
        end
      else Ok []
  end.

Definition iter_all (t : table) : res (list (str * str)) :=
  iter_loop (S (length (t_file t))) (index_offset t) 0 (t_file t).

(** ** Bloom filters have no false negatives *)

#[local] Opaque pack crc32 utf8_encode utf8_decode dumps loads.

Lemma test_set_bit bs pos bs' q : set_bit bs pos = Ok bs' -> test_bit bs q = Ok true -> test_bit bs' q = Ok true.
Proof.
  intros (x & Hx & E)%bind_ok (y & Hy & E')%bind_ok. apply Ok_inj in E as <-, E'.
  unfold nth_res in *. destruct (bs !! N.to_nat (pos / 8)) as [x0|] eqn:Lx; [|done]. apply Ok_inj in Hx as ->.
  destruct (bs !! N.to_nat (q / 8)) as [y0|] eqn:Ly; [|done]. apply Ok_inj in Hy as ->. unfold test_bit, nth_res.
  destruct (decide (N.to_nat (pos / 8) = N.to_nat (q / 8))) as [E|E].
  - rewrite E in *. rewrite Lx in Ly. injection Ly as ->. rewrite list_lookup_insert_eq by by eapply lookup_lt_Some.
    cbn [mbind res_bind]. f_equal. rewrite negb_true_iff, N.eqb_neq in *. intros H0. apply E'.
    rewrite N.land_lor_distr_l in H0. by apply N.lor_eq_0_iff in H0 as [H0 _].
  - rewrite list_lookup_insert_ne by done. rewrite Ly. cbn [mbind res_bind]. by f_equal.
Qed.

Lemma set_bit_test bs pos bs' : set_bit bs pos = Ok bs' -> length bs' = length bs /\ test_bit bs' pos = Ok true.
Proof.
  intros (x & Hx & E)%bind_ok. apply Ok_inj in E as <-. rewrite length_insert. split; [done|].
  unfold nth_res in Hx. destruct (bs !! N.to_nat (pos / 8)) as [x0|] eqn:Lx; [|done]. unfold test_bit, nth_res.
  rewrite list_lookup_insert_eq by by eapply lookup_lt_Some. cbn [mbind res_bind]. f_equal. rewrite negb_true_iff, N.eqb_neq.
  rewrite N.land_lor_distr_l, N.land_diag. intros H. apply N.lor_eq_0_iff in H as [_ H].
  by apply N.shiftl_eq_0_iff in H.
Qed.

Lemma set_bits_test ps bs bs' :
  set_bits bs ps = Ok bs' ->
  length bs' = length bs /\ forall q, test_bit bs q = Ok true \/ q ∈ ps -> test_bit bs' q = Ok true.
Proof.
  revert bs. induction ps as [|p ps IH]; intros bs; cbn [set_bits].
  { intros E. apply Ok_inj in E as <-. split; [done|]. intros q [|Hq]; [done|by apply not_elem_of_nil in Hq]. }
  intros (bs1 & E1 & E)%bind_ok. destruct (IH _ E) as [L H]. destruct (set_bit_test _ _ _ E1) as [L1 H1].
  split; [congruence|]. intros q [Hq|Hq]; apply H; [left; by eapply test_set_bit|].
  apply elem_of_cons in Hq as [->|Hq]; [by left|by right].
Qed.

Lemma test_bits_true bs ps : test_bits bs ps = Ok true <-> forall q, q ∈ ps -> test_bit bs q = Ok true.
Proof.
  induction ps as [|p ps IH]; cbn [test_bits].
  { split; [|done]. intros _ q Hq. by apply not_elem_of_nil in Hq. }
  setoid_rewrite elem_of_cons. destruct (test_bit bs p) as [[]|e] eqn:E; cbn [mbind res_bind].
  - rewrite IH. split; [intros H q [->|Hq]; auto|auto].
  - split; [done|]. intros H. rewrite (H p) in E by auto. done.
  - split; [done|]. intros H. rewrite (H p) in E by auto. done.
Qed.

Lemma test_bits_total bs ps :
  Forall (fun p => N.to_nat (p / 8) < length bs)%nat ps -> exists m, test_bits bs ps = Ok m.
Proof.
  induction 1 as [|p ps Hp _ [m IH]]; cbn [test_bits]; [eauto|]. unfold test_bit, nth_res.
  apply lookup_lt_is_Some in Hp as [x ->]. cbn [mbind res_bind]. destruct (negb _); eauto.
Qed.

(** A filter with room for all its positions. *)
Definition bloom_ok (b : bloom) : Prop := 0 < b_size b /\ length (bits b) = N.to_nat (b_size b / 8 + 1).

Lemma positions_range b key ps :
  bloom_ok b -> hash_positions b key = Ok ps -> Forall (fun p => N.to_nat (p / 8) < length (bits b))%nat ps.
Proof.
  intros [Hs Hl] (kb & _ & E)%bind_ok. rewrite (proj2 (N.eqb_neq (b_size b) 0)) in E by lia. apply Ok_inj in E as <-. rewrite Hl. apply Forall_fmap, list.Forall_forall.
  intros seed _. simpl. set (h := N.land _ _). pose proof (N.mod_upper_bound h (b_size b) ltac:(lia)) as Hm.
  set (p := h mod b_size b) in *. clearbody p. assert (p / 8 <= b_size b / 8) by (apply N.Div0.div_le_mono; lia).
  set (u := p / 8) in *. set (w := b_size b / 8) in *. clearbody u w. lia.
Qed.

Lemma bloom_add_spec b key b' :
  bloom_ok b -> bloom_add b key = Ok b' ->
  bloom_ok b' /\ b_size b' = b_size b /\ num_hashes b' = num_hashes b /\ might_contain b' key = Ok true /\
  (forall k, might_contain b k = Ok true -> might_contain b' k = Ok true).
Proof.
  intros Hok (ps & Hps & (bs & Hbs & E)%bind_ok)%bind_ok. apply Ok_inj in E as <-. destruct (set_bits_test _ _ _ Hbs) as [Hl Ht].
  assert (forall k, hash_positions (Bloom bs (b_size b) (num_hashes b)) k = hash_positions b k) as Hh by done.
  split_and!; [|done|done| |].
  - destruct Hok as [H1 H2]. split; [done|]. simpl. by rewrite Hl.
  - unfold might_contain. rewrite Hh, Hps. cbn [mbind res_bind bits]. apply test_bits_true. auto.
  - intros k. unfold might_contain. rewrite Hh. destruct (hash_positions b k) as [qs|]; [|done]. cbn [mbind res_bind bits].
    rewrite !test_bits_true. auto.
Qed.

Lemma new_bloom_ok n h : 0 < n -> bloom_ok (new_bloom n h).
Proof. intros Hn. split; [done|]. simpl. by rewrite length_replicate. Qed.

(** ** Entries *)

Lemma pack_bytes w n bs : pack w n = Ok bs -> length bs = w /\ of_digits 256 bs = n /\ unpack w bs = Ok n.
Proof.
  intros H. pose proof (pack_unpack w n bs H) as [Hl Hu]. split; [done|]. split; [|done]. unfold unpack in Hu.
  rewrite Hl, Nat.eqb_refl in Hu. congruence.
Qed.

Lemma read_n_app (a b : bytes) : read_n (N.of_nat (length a)) (a ++ b) = a.
Proof.
  unfold read_n. destruct (N.ltb_spec (N.of_nat (length (a ++ b))) (N.of_nat (length a))) as [H|_].
  - rewrite length_app in H. lia.
  - by rewrite Nat2N.id, take_app_length.
Qed.

Lemma read_entry_encode kv bs rest :
  encode_item kv = Ok bs -> read_entry (bs ++ rest) = Ok (Some (kv.1, kv.2, length bs)) /\ (6 <= length bs)%nat.
Proof.
  unfold encode_item. intros (kb & Ek & (vb & Ev & (kl & El & (vl & Evl & E)%bind_ok)%bind_ok)%bind_ok)%bind_ok.
  apply Ok_inj in E as <-. apply pack_bytes in El as (L2 & D2 & _), Evl as (L4 & D4 & _).
  replace ((kl ++ kb ++ vl ++ vb) ++ rest) with (kl ++ kb ++ vl ++ vb ++ rest) by (by rewrite <- !(assoc app)).
  unfold read_entry. rewrite (take_app_length' kl _ 2), (drop_app_length' kl _ 2) by done. rewrite L2. cbn [Nat.ltb Nat.leb]. rewrite D2, read_n_app.
  rewrite (utf8_roundtrip _ _ Ek). cbn [mbind res_bind].
  replace (drop (2 + length kb) (kl ++ kb ++ vl ++ vb ++ rest)) with (vl ++ vb ++ rest).
  2: { rewrite drop_app_ge by lia. rewrite L2. replace (2 + length kb - 2)%nat with (length kb) by lia. by rewrite drop_app_length. }
  rewrite (take_app_length' vl _ 4), (drop_app_length' vl _ 4) by done. rewrite L4. cbn [Nat.ltb Nat.leb]. rewrite D4, read_n_app.
  rewrite (utf8_roundtrip _ _ Ev). cbn [mbind res_bind]. rewrite !length_app. split; [|lia].
  rewrite L2, L4. do 3 f_equal. lia.
Qed.

(** The encoded items, one chunk each. *)
Inductive encoded : list (str * str) -> list bytes -> Prop :=
  | encoded_nil : encoded [] []
  | encoded_cons kv items b chunks : encode_item kv = Ok b -> encoded items chunks -> encoded (kv :: items) (b :: chunks).

Lemma encoded_drop i items chunks : encoded items chunks -> encoded (drop i items) (drop i chunks).
Proof. intros H. revert i. induction H; intros [|i]; simpl; try constructor; auto. Qed.

Lemma encoded_chunk items chunks : encoded items chunks -> (length items <= length (concat chunks))%nat.
Proof.
  induction 1 as [|kv items b chunks Hb H IH]; simpl; [lia|]. rewrite length_app.
  pose proof (proj2 (read_entry_encode kv b [] Hb)). lia.
Qed.

(** *** The loops, on a position that is the start of a chunk *)

Section loops.
Context (tail : bytes) (limit : N).

Lemma get_loop_encoded items chunks key pos fuel :
  encoded items chunks -> limit = N.of_nat (pos + length (concat chunks)) -> (length items < fuel)%nat ->
  StronglySorted str_lt items.*1 ->
  get_loop fuel limit key pos (concat chunks ++ tail) = Ok ((list_to_map items : gmap str str) !! key).
Proof.
  intros H. revert pos fuel. induction H as [|[k v] items b chunks Hb H IH]; intros pos [|fuel] Hl Hf Hs; simpl in Hf; try lia.
  - cbn [get_loop concat app length] in *. rewrite Nat.add_0_r in Hl. destruct (N.ltb_spec (N.of_nat pos) limit); [lia|done].
  - cbn [get_loop concat]. rewrite <- !app_assoc. destruct (read_entry_encode _ _ (concat chunks ++ tail) Hb) as [-> H6].
    cbn [concat] in Hl. rewrite length_app in Hl.
    destruct (N.ltb_spec (N.of_nat pos) limit) as [_|]; [|lia]. cbn [mbind res_bind fst snd].
    rewrite fmap_cons in Hs. apply StronglySorted_cons in Hs as [Hk Hs].
    cbn [list_to_map foldr]. destruct (decide (k = key)) as [->|Hne].
    + rewrite bool_decide_true by done. by rewrite lookup_insert_eq.
    + rewrite bool_decide_false by done. rewrite lookup_insert_ne by done. case_bool_decide as Hlt.
      * symmetry. f_equal. apply not_elem_of_list_to_map_1. intros Hin. rewrite list.Forall_forall in Hk.
        specialize (Hk _ Hin). simpl in Hk. str_order.
      * rewrite drop_app_length. apply IH; [lia|lia|done].
Qed.

Lemma scan_table_encoded items chunks lo hi pos fuel :
  encoded items chunks -> limit = N.of_nat (pos + length (concat chunks)) -> (length items < fuel)%nat ->
  StronglySorted str_lt items.*1 ->
  scan_table fuel limit lo hi pos (concat chunks ++ tail) = Ok (filter (within lo hi) items).
Proof.
  intros H. revert pos fuel. induction H as [|[k v] items b chunks Hb H IH]; intros pos [|fuel] Hl Hf Hs; simpl in Hf; try lia.
  - cbn [scan_table concat app length] in *. rewrite Nat.add_0_r in Hl. destruct (N.ltb_spec (N.of_nat pos) limit); [lia|done].
  - cbn [scan_table concat]. rewrite <- !app_assoc. destruct (read_entry_encode _ _ (concat chunks ++ tail) Hb) as [-> H6].
    cbn [concat] in Hl. rewrite length_app in Hl.
    destruct (N.ltb_spec (N.of_nat pos) limit) as [_|]; [|lia]. cbn [mbind res_bind fst snd].
    rewrite fmap_cons in Hs. apply StronglySorted_cons in Hs as [Hk Hs]. rewrite drop_app_length.
    rewrite filter_cons. unfold within at 1. cbn [fst]. case_bool_decide as Hlo.
    + rewrite decide_False by (intros [? _]; str_order). apply IH; [lia|lia|done].
    + case_bool_decide as Hhi.
      * rewrite decide_False by (intros [_ ?]; str_order). f_equal. symmetry. apply filter_none.
        apply list.Forall_forall. intros [k' v'] Hin [_ Hle]. rewrite list.Forall_forall in Hk.
        assert (k <s k') by (apply Hk, list_elem_of_fmap; by exists (k', v')). simpl in *. str_order.
      * rewrite decide_True by (split; simpl; str_order). rewrite IH by (lia || done). done.
Qed.

Lemma iter_loop_encoded items chunks pos fuel :
  encoded items chunks -> limit = N.of_nat (pos + length (concat chunks)) -> (length items < fuel)%nat ->
  iter_loop fuel limit pos (concat chunks ++ tail) = Ok items.
Proof.
  intros H. revert pos fuel. induction H as [|[k v] items b chunks Hb H IH]; intros pos [|fuel] Hl Hf; simpl in Hf; try lia.
  - cbn [iter_loop concat app length] in *. rewrite Nat.add_0_r in Hl. destruct (N.ltb_spec (N.of_nat pos) limit); [lia|done].
  - cbn [iter_loop concat]. rewrite <- !app_assoc. destruct (read_entry_encode _ _ (concat chunks ++ tail) Hb) as [-> H6].
    cbn [concat] in Hl. rewrite length_app in Hl.
    destruct (N.ltb_spec (N.of_nat pos) limit) as [_|]; [|lia]. cbn [mbind res_bind fst snd].
    rewrite drop_app_length, IH by lia. done.
Qed.
End loops.

(** ** The writer *)

Lemma write_items_spec items i pos b index b' data :
  bloom_ok b -> write_items i pos b items = Ok (index, b', data) ->
  exists chunks, encoded items chunks /\ data = concat chunks /\
    bloom_ok b' /\ b_size b' = b_size b /\ num_hashes b' = num_hashes b /\
    (forall k, k ∈ items.*1 \/ might_contain b k = Ok true -> might_contain b' k = Ok true) /\
    Forall (fun k => Forall (fun c => scalar c = true) k) index.*1 /\
    (forall k o, (k, o) ∈ index -> exists j v, items !! j = Some (k, v) /\ o = (pos + length (concat (take j chunks)))%nat).
Proof.
  revert i pos b index b' data. induction items as [|[k v] items IH]; intros i pos b index b' data Hb; cbn [write_items].
  { intros E. apply Ok_inj in E. injection E as <- <- <-. exists []. split_and!; auto; try by constructor.
    - intros k [Hk|Hk]; [by apply not_elem_of_nil in Hk|done].
    - intros k o Hk. by apply not_elem_of_nil in Hk. }
  intros (b1 & Eb & (e & Ee & ([[index1 b2] data1] & Ew & E)%bind_ok)%bind_ok)%bind_ok.
  apply Ok_inj in E. injection E as <- <- <-.
  destruct (bloom_add_spec b k b1 Hb Eb) as (Hb1 & S1 & N1 & M1 & M2).
  destruct (IH _ _ _ _ _ _ Hb1 Ew) as (chunks & H1 & -> & H3 & H4 & H5 & H6 & H7 & H8).
  assert (Forall (fun c => scalar c = true) k) as Hk.
  { unfold encode_item in Ee. apply bind_ok in Ee as (kb & Ek & _). by apply utf8_encode_scalar in Ek. }
  exists (e :: chunks). split_and!; auto; try congruence.
  - by constructor.
  - intros k' [Hin|Hm]; apply H6; [|right; auto]. rewrite fmap_cons in Hin.
    apply elem_of_cons in Hin as [->|Hin]; [right; done|by left].
  - destruct (Nat.eqb _ _); [|done]. rewrite fmap_cons. by constructor.
  - assert (forall k' o, (k', o) ∈ index1 -> exists j v', ((k, v) :: items) !! j = Some (k', v') /\
      o = (pos + length (concat (take j (e :: chunks))))%nat) as Hrest.
    { intros k' o Hin. destruct (H8 k' o Hin) as (j & v' & Hj & ->). exists (S j), v'. split; [done|].
      cbn [take concat]. rewrite length_app. lia. }
    intros k' o Hin. destruct (Nat.eqb _ _); [|auto]. apply elem_of_cons in Hin as [E|Hin]; [|auto].
    injection E as -> ->. exists 0%nat, v. split; [done|]. simpl. lia.
Qed.

Lemma find_start_spec index key start :
  find_start index key start = start \/ exists k, (k, find_start index key start) ∈ index /\ k <=s key.
Proof.
  revert start. induction index as [|[k o] index IH]; intros start; [by left|]. cbn [find_start].
  case_bool_decide as Hk; [|by left]. destruct (IH o) as [->|(k' & Hin & Hk')]; right.
  - exists k. split; [left|done].
  - exists k'. split; [by right|done].
Qed.

(** The offset found in the index is the start of a chunk, and the entries before it are below the key. *)
Lemma start_chunk items chunks index key :
  encoded items chunks -> StronglySorted str_lt items.*1 ->
  (forall k o, (k, o) ∈ index -> exists j v, items !! j = Some (k, v) /\ o = length (concat (take j chunks))) ->
  exists j, find_start index key 0 = length (concat (take j chunks)) /\
    Forall (fun kv => kv.1 <s key) (take j items).
Proof.
  intros He Hs Hi. destruct (find_start_spec index key 0) as [->|(k & Hin & Hk)]; [exists 0%nat; by split|].
  destruct (Hi k _ Hin) as (j & v & Hj & ->). exists j. split; [done|].
  pose proof (take_drop_middle items j (k, v) Hj) as Hsplit. rewrite <- Hsplit in Hs. rewrite fmap_app, fmap_cons in Hs.
  apply list.Forall_forall. intros [k' v'] Hin'. cbn [fst].
  assert (k' <s k); [|str_order].
  clear - Hs Hin'. induction (take j items) as [|a l IH]; [by apply not_elem_of_nil in Hin'|].
  rewrite fmap_cons in Hs. cbn [app] in Hs. apply StronglySorted_cons in Hs as [Ha Hs].
  apply elem_of_cons in Hin' as [E|Hin']; [|auto]. rewrite <- E in Ha. rewrite list.Forall_forall in Ha.
  apply Ha, elem_of_app. right. left.
Qed.

Lemma sorted_drop (l : list str) i : StronglySorted str_lt l -> StronglySorted str_lt (drop i l).
Proof.
  revert i. induction l as [|a l IH]; intros [|i] Hs; simpl; auto. apply StronglySorted_cons in Hs as [_ Hs]. by apply IH.
Qed.

Lemma lookup_drop_below (items : list (str * str)) j key :
  Forall (fun kv => kv.1 <s key) (take j items) ->
  (list_to_map (drop j items) : gmap str str) !! key = (list_to_map items : gmap str str) !! key.
Proof.
  intros Hb. transitivity ((list_to_map (take j items ++ drop j items) : gmap str str) !! key); [|by rewrite take_drop].
  rewrite list_to_map_app, lookup_union_r; [done|]. apply not_elem_of_list_to_map_1. intros ([k v] & -> & Hin)%list_elem_of_fmap.
  eapply list.Forall_forall in Hb; [|exact Hin]. simpl in Hb. str_order.
Qed.

Lemma filter_drop_below (items : list (str * str)) j lo hi :
  Forall (fun kv => kv.1 <s lo) (take j items) -> filter (within lo hi) (drop j items) = filter (within lo hi) items.
Proof.
  intros Hb. transitivity (filter (within lo hi) (take j items ++ drop j items)); [|by rewrite take_drop].
  rewrite list.filter_app, (filter_none (within lo hi) (take j items)); [done|].
  eapply Forall_weaken; [exact Hb|]. intros kv H [H' _]. simpl in *. str_order.
Qed.

(** A table whose metadata describes its items. *)
Record table_of (items : list (str * str)) (t : table) : Prop := {
  to_chunks : exists chunks tail, encoded items chunks /\ t_file t = concat chunks ++ tail /\
    index_offset t = N.of_nat (length (concat chunks)) /\
    (forall k o, (k, o) ∈ t_index t -> exists j v, items !! j = Some (k, v) /\ o = length (concat (take j chunks)));
  to_bloom : forall k, k ∈ items.*1 -> might_contain (t_bloom t) k = Ok true;
  to_room : bloom_ok (t_bloom t);
  to_count : entry_count t = N.of_nat (length items);
}.

(** Reading from the start of chunk [j]. *)
Lemma chunk_position (chunks : list bytes) j tail :
  drop (length (concat (take j chunks))) (concat chunks ++ tail) = concat (drop j chunks) ++ tail /\
  (length (concat chunks) = length (concat (take j chunks)) + length (concat (drop j chunks)))%nat.
Proof.
  assert (concat chunks = concat (take j chunks) ++ concat (drop j chunks)) as ->.
  { by rewrite <- concat_app, take_drop. }
  by rewrite length_app, <- app_assoc, drop_app_length.
Qed.

Lemma table_get_spec items t key kb :
  table_of items t -> StronglySorted str_lt items.*1 -> utf8_encode key = Ok kb ->
  table_get t key = Ok ((list_to_map items : gmap str str) !! key).
Proof.
  intros [(chunks & tail & He & Ef & Eo & Hi) Hb Hroom _] Hs Hkey. unfold table_get.
  assert (exists m, might_contain (t_bloom t) key = Ok m) as [m Hm].
  { unfold might_contain. destruct (hash_positions (t_bloom t) key) as [ps|] eqn:Eps.
    - cbn [mbind res_bind]. apply test_bits_total. by eapply positions_range.
    - unfold hash_positions in Eps. rewrite Hkey in Eps. cbn [mbind res_bind] in Eps.
      destruct Hroom as [Hpos _]. by rewrite (proj2 (N.eqb_neq (b_size (t_bloom t)) 0)) in Eps by lia. }
  rewrite Hm. cbn [mbind res_bind]. destruct m; cbn [negb].
  - destruct (start_chunk items chunks (t_index t) key He Hs Hi) as (j & -> & Hbelow).
    destruct (chunk_position chunks j tail) as [E1 E2]. rewrite Ef, E1.
    rewrite (get_loop_encoded tail (index_offset t) (drop j items) (drop j chunks)).
    + by rewrite lookup_drop_below.
    + by apply encoded_drop.
    + by rewrite Eo, E2.
    + pose proof (encoded_chunk items chunks He). rewrite length_drop, length_app. lia.
    + rewrite fmap_drop. by apply sorted_drop.
  - f_equal. symmetry. apply not_elem_of_list_to_map_1. intros Hin. apply Hb in Hin. congruence.
Qed.

Lemma table_scan_spec items t lo hi :
  table_of items t -> StronglySorted str_lt items.*1 ->
  table_scan t lo hi = Ok (filter (within lo hi) items).
Proof.
  intros [(chunks & tail & He & Ef & Eo & Hi) Hb _ _] Hs. unfold table_scan.
  destruct (start_chunk items chunks (t_index t) lo He Hs Hi) as (j & -> & Hbelow).
  destruct (chunk_position chunks j tail) as [E1 E2]. rewrite Ef, E1.
  rewrite (scan_table_encoded tail (index_offset t) (drop j items) (drop j chunks)).
  - by rewrite filter_drop_below.
  - by apply encoded_drop.
  - by rewrite Eo, E2.
  - pose proof (encoded_chunk items chunks He). rewrite length_drop, length_app. lia.
  - rewrite fmap_drop. by apply sorted_drop.
Qed.

Lemma iter_all_spec items t : table_of items t -> iter_all t = Ok items.
Proof.
  intros [(chunks & tail & He & Ef & Eo & Hi) Hb _]. unfold iter_all. rewrite Ef.
  apply (iter_loop_encoded tail _ items chunks); [done|done|].
  pose proof (encoded_chunk items chunks He). rewrite length_app. lia.
Qed.

(** ** Opening a written file *)

Lemma slice_app (a b c : bytes) n m : length a = n -> length b = m -> take m (drop n (a ++ b ++ c)) = b.
Proof. intros <- <-. by rewrite drop_app_length, take_app_length. Qed.

Lemma seek_app (a b : bytes) : seek (a ++ b) (N.of_nat (length a)) = b.
Proof.
  unfold seek. destruct (N.ltb_spec (N.of_nat (length (a ++ b))) (N.of_nat (length a))) as [H|_].
  - rewrite length_app in H. lia.
  - by rewrite Nat2N.id, drop_app_length.
Qed.

Lemma footer_fields (io il ec bo : bytes) :
  length io = 8%nat -> length il = 4%nat -> length ec = 4%nat -> length bo = 8%nat ->
  let footer := io ++ il ++ ec ++ bo ++ MAGIC in
  length footer = 32%nat /\ take 8 footer = io /\ take 4 (drop 12 footer) = ec /\
  take 8 (drop 16 footer) = bo /\ drop 24 footer = MAGIC.
Proof.
  intros H1 H2 H3 H4 footer. split_and!.
  - unfold footer. rewrite !length_app, H1, H2, H3, H4. done.
  - unfold footer. by rewrite take_app_length' by done.
  - unfold footer. rewrite (app_assoc io il). apply (slice_app (io ++ il)); [rewrite length_app; lia|done].
  - unfold footer. rewrite (app_assoc il ec), (app_assoc io (il ++ ec)). apply (slice_app (io ++ il ++ ec)); [rewrite !length_app; lia|done].
  - unfold footer. rewrite (app_assoc ec bo), (app_assoc il (ec ++ bo)), (app_assoc io (il ++ ec ++ bo)).
    rewrite drop_app_length'; [done|]. rewrite !length_app. lia.
Qed.

Lemma index_json_ok index : Forall (fun k => Forall (fun c => scalar c = true) k) index.*1 -> jok (index_json index).
Proof.
  intros H. unfold index_json. cbn [jok]. induction index as [|[k o] index IH]; [done|].
  rewrite fmap_cons in H. apply Forall_cons_1 in H as [Hk H]. cbn [map foldr fst snd jok]. split; [|auto]. done.
Qed.

Lemma index_of_json_index index : index_of_json (index_json index) = Ok index.
Proof.
  unfold index_of_json, index_json. induction index as [|[k o] index IH]; [done|]. cbn [map index_entries index_entry fst snd].
  rewrite Nat2Z.id. cbn [mbind res_bind]. by rewrite IH.
Qed.

Lemma bloom_bytes_roundtrip b bs : bloom_to_bytes b = Ok bs -> bloom_from_bytes bs = Ok b.
Proof.
  intros (s & Es & (h & Eh & E)%bind_ok)%bind_ok. apply Ok_inj in E as <-.
  apply pack_bytes in Es as (Ls & _ & Us), Eh as (Lh & _ & Uh). unfold bloom_from_bytes.
  rewrite (take_app_length' s _ 4) by done. rewrite Us. cbn [mbind res_bind].
  rewrite (slice_app s h (bits b) 4 4) by done. rewrite Uh. cbn [mbind res_bind]. rewrite Nat2N.id.
  rewrite app_assoc, (drop_app_length' (s ++ h) _ 8) by (rewrite length_app; lia). by destruct b.
Qed.

Lemma open_written items f :
  write_table items = Ok f -> exists t, open_table f = Ok t /\ table_of items t.
Proof.
  unfold write_table. intros ([[index b] data] & Ew & E)%bind_ok.
  apply bind_ok in E as (idx & Ei & (il & El & (bd & Eb & (bl & Ebl & E)%bind_ok)%bind_ok)%bind_ok).
  apply bind_ok in E as (io & Eio & (ec & Eec & (bo & Ebo & E)%bind_ok)%bind_ok). apply Ok_inj in E as <-.
  destruct (write_items_spec items _ _ _ _ _ _ (new_bloom_ok 10000 3 ltac:(done)) Ew)
    as (chunks & He & Ed & Hbok & _ & _ & Hm & Hsc & Hi).
  destruct (json_bytes_roundtrip _ (index_json_ok index Hsc)) as (Hu & Hdec & Hloads).
  rewrite Hu in Ei. apply Ok_inj in Ei as <-. set (idx := dumps (index_json index)) in *.
  apply pack_bytes in El as (Ll & Dl & Ul), Ebl as (Lbl & Dbl & Ubl), Eio as (Lio & Dio & Uio), Eec as (Lec & Dec & Uec), Ebo as (Lbo & Dbo & Ubo).
  destruct (footer_fields io il ec bo Lio Ll Lec Lbo) as (F0 & F1 & F2 & F3 & F4).
  set (footer := io ++ il ++ ec ++ bo ++ MAGIC) in *.
  unfold open_table. set (f := data ++ (il ++ idx) ++ (bl ++ bd) ++ footer).
  assert (length f = length (data ++ (il ++ idx) ++ (bl ++ bd)) + 32)%nat as Hlf.
  { unfold f. rewrite !length_app, F0. lia. }
  destruct (Nat.ltb_spec (length f) FOOTER_SIZE) as [H|_]; [unfold FOOTER_SIZE in H; lia|].
  replace (drop (length f - FOOTER_SIZE) f) with footer.
  2: { assert (f = (data ++ (il ++ idx) ++ (bl ++ bd)) ++ footer) as Hf by (unfold f; by rewrite <- !app_assoc).
       unfold FOOTER_SIZE. rewrite Hlf, Nat.add_sub, Hf. by rewrite drop_app_length. }
  rewrite F4, bool_decide_true by done. cbn [negb]. rewrite F1, Uio. cbn [mbind res_bind]. rewrite F2, Uec. cbn [mbind res_bind].
  rewrite F3, Ubo. cbn [mbind res_bind].
  assert (seek f (N.of_nat (length data)) = il ++ idx ++ (bl ++ bd) ++ footer) as ->.
  { unfold f. rewrite seek_app. by rewrite <- app_assoc. }
  rewrite (take_app_length' il _ 4) by done. rewrite (drop_app_length' il _ 4) by done. rewrite Ul. cbn [mbind res_bind].
  rewrite read_n_app, Hdec. cbn [mbind res_bind]. rewrite Hloads. cbn [mbind res_bind]. rewrite index_of_json_index. cbn [mbind res_bind].
  assert (seek f (N.of_nat (length data + 4 + length idx)) = bl ++ bd ++ footer) as ->.
  { assert (f = (data ++ il ++ idx) ++ bl ++ bd ++ footer) as -> by (unfold f; by rewrite <- !app_assoc).
    replace (length data + 4 + length idx)%nat with (length (data ++ il ++ idx)) by (rewrite !length_app; lia). apply seek_app. }
  rewrite (take_app_length' bl _ 4) by done. rewrite (drop_app_length' bl _ 4) by done. rewrite Ubl. cbn [mbind res_bind].
  rewrite read_n_app, (bloom_bytes_roundtrip b bd Eb). cbn [mbind res_bind].
  eexists. split; [done|]. split; cbn [t_file t_index t_bloom entry_count index_offset].
  - exists chunks, ((il ++ idx) ++ (bl ++ bd) ++ footer). unfold f. rewrite Ed. split_and!; auto.
  - intros k Hk. apply Hm. by left.
  - done.
  - done.
Qed.

(** ** Properties *)

(** C18: For every strictly sorted list of items that the writer accepts, the file it
    writes opens, a lookup of any encodable key returns exactly its item, a range
    scan returns exactly the items in the range, and iteration returns all items. *)
Theorem sstable_roundtrip items f :
  write_table items = Ok f -> StronglySorted str_lt items.*1 ->
  exists t, open_table f = Ok t /\ entry_count t = N.of_nat (length items) /\
    (forall key kb, utf8_encode key = Ok kb -> table_get t key = Ok ((list_to_map items : gmap str str) !! key)) /\
    (forall lo hi, table_scan t lo hi = Ok (map_range (list_to_map items) lo hi)) /\
    iter_all t = Ok items.
Proof.
  intros Hw Hs. destruct (open_written items f Hw) as (t & Ho & Ht). exists t. split_and!; [done|by destruct Ht| | |].
  - intros key kb Hkb. by eapply table_get_spec.
  - intros lo hi. rewrite map_range_list by done. by apply table_scan_spec.
  - by apply iter_all_spec.
Qed.

Lemma sstable_roundtrip_witness :
  exists f t, write_table [(py "apple", py "red"); (py "fig", py "purple")] = Ok f /\ open_table f = Ok t /\
    iter_all t = Ok [(py "apple", py "red"); (py "fig", py "purple")].
Proof.
  destruct (write_table [(py "apple", py "red"); (py "fig", py "purple")]) as [f|] eqn:Ef; [|vm_compute in Ef; discriminate].
  destruct (sstable_roundtrip _ f Ef) as (t & H1 & _ & _ & _ & H2).
  - cbn [fmap list_fmap fst]. repeat constructor.
  - exists f, t. exact (conj eq_refl (conj H1 H2)).
Defined.
