(* ===== verification/MemTable.v ===== *)
(** * The in-memory write buffer: [litedb-python/memtable.py]

    [MemTable] with its tombstones and its size counter.  The invariant
    [mem_ok] says that the counter is the number of characters stored; every
    operation keeps it. *)

From S2P Require Import Prelude.

Local Open Scope Z_scope.

Definition TOMBSTONE : str := py "__DELETED__".

Record memtable := MemTable {
  m_data : gmap str str;
  m_size : Z;
  m_limit : Z;
  m_writes : nat;
}.

Definition new_memtable (limit : Z) : memtable := MemTable ∅ 0 limit 0.

Definition len (s : str) : Z := Z.of_nat (length s).

(** [set], and [delete] with the tombstone as value. *)
Definition mem_set (m : memtable) (key value : str) : memtable :=
  let size := match m_data m !! key with
              | Some old => m_size m - (len key + len old)
              | None => m_size m
              end in
  MemTable (<[key := value]> (m_data m)) (size + (len key + len value)) (m_limit m) (S (m_writes m)).

Definition mem_delete (m : memtable) (key : str) : memtable :=
  let size := match m_data m !! key with
              | Some old => m_size m - (len key + len old)
              | None => m_size m
              end in
  MemTable (<[key := TOMBSTONE]> (m_data m)) (size + (len key + len TOMBSTONE)) (m_limit m) (S (m_writes m)).

Definition mem_get (m : memtable) (key : str) : option str := m_data m !! key.

(** The loop of [scan] over the sorted keys: skip, stop, or yield. *)
Fixpoint mem_scan_loop (m : gmap str str) (start_key end_key : str) (keys : list str) : list (str * str) :=
  match keys with
  | [] => []
  | key :: keys =>
      if key <s? start_key then mem_scan_loop m start_key end_key keys
      else if end_key <s? key then []
      else match m !! key with
           | Some v => (key, v) :: mem_scan_loop m start_key end_key keys
           | None => mem_scan_loop m start_key end_key keys
           end
  end.

Definition items_sorted (m : memtable) : list (str * str) := sorted_items (m_data m).

Definition mem_scan (m : memtable) (start_key end_key : str) : list (str * str) :=
  mem_scan_loop (m_data m) start_key end_key (items_sorted m).*1.

Definition should_flush (m : memtable) : bool := m_limit m <=? m_size m.
Definition entry_count (m : memtable) : nat := size (m_data m).
Definition mem_clear (m : memtable) : memtable := MemTable ∅ 0 (m_limit m) 0.

(** ** Facts *)

Definition stored (m : gmap str str) : Z := map_fold (fun k v n => len k + len v + n) 0 m.

Definition mem_ok (m : memtable) : Prop := m_size m = stored (m_data m).

Lemma stored_insert m k v : m !! k = None -> stored (<[k := v]> m) = len k + len v + stored m.
Proof. intros Hk. unfold stored. rewrite map_fold_insert_L; [done| |done]. intros; lia. Qed.

Lemma stored_delete m k v : m !! k = Some v -> stored m = len k + len v + stored (base.delete k m).
Proof.
  intros Hk. rewrite <- (insert_delete_id m k v Hk) at 1. rewrite stored_insert; [done|]. apply lookup_delete_eq.
Qed.

Lemma stored_overwrite m k v :
  stored (<[k := v]> m) = match m !! k with Some old => stored m - (len k + len old) | None => stored m end + (len k + len v).
Proof.
  destruct (m !! k) as [old|] eqn:Ek.
  - rewrite <- insert_delete_eq, stored_insert by apply lookup_delete_eq. rewrite (stored_delete m k old Ek). lia.
  - rewrite stored_insert by done. lia.
Qed.

Lemma mem_set_ok m k v : mem_ok m -> mem_ok (mem_set m k v).
Proof. unfold mem_ok. intros H. simpl. rewrite stored_overwrite, H. done. Qed.

Lemma mem_delete_ok m k : mem_ok m -> mem_ok (mem_delete m k).
Proof. unfold mem_ok. intros H. simpl. rewrite stored_overwrite, H. done. Qed.

Lemma mem_scan_loop_spec (m : gmap str str) lo hi (l : list (str * str)) :
  StronglySorted str_lt l.*1 -> (forall k v, (k, v) ∈ l -> m !! k = Some v) ->
  mem_scan_loop m lo hi l.*1 = filter (within lo hi) l.
Proof.
  induction l as [|[k v] l IH]; intros Hs Hm; [done|]. rewrite fmap_cons in *. apply StronglySorted_cons in Hs as [Hk Hs].
  cbn [mem_scan_loop fst] in *. rewrite filter_cons. unfold within at 1. cbn [fst].
  assert (forall k' v', (k', v') ∈ l -> m !! k' = Some v') as Hm' by (intros; apply Hm; by right).
  case_bool_decide as Hlo; [|case_bool_decide as Hhi].
  - rewrite decide_False by (intros [? _]; str_order). auto.
  - rewrite decide_False by (intros [_ ?]; str_order). symmetry. apply filter_none, list.Forall_forall.
    intros [k' v'] Hin [_ Hle]. rewrite list.Forall_forall in Hk.
    assert (k <s k') by (apply Hk, list_elem_of_fmap; by exists (k', v')). simpl in *. str_order.
  - rewrite decide_True by (split; simpl; str_order). rewrite (Hm k v) by left. by rewrite IH.
Qed.

Lemma mem_scan_range m lo hi : mem_scan m lo hi = map_range (m_data m) lo hi.
Proof.
  unfold mem_scan, items_sorted, map_range. apply mem_scan_loop_spec; [apply sorted_items_sorted|].
  intros k v. apply elem_of_sorted_items.
Qed.

Inductive mem_op := MSet (k v : str) | MDel (k : str) | MClear.

Definition mem_step (m : memtable) (op : mem_op) : memtable :=
  match op with
  | MSet k v => mem_set m k v
  | MDel k => mem_delete m k
  | MClear => mem_clear m
  end.

(** The memory buffer.  In every run of [set], [delete] and [clear] from an empty
    buffer the size counter is the number of characters stored, so [should_flush]
    tells whether the contents have reached the limit; a range scan is the range
    query of the stored map; and [set] and [delete] leave other keys alone. *)
Theorem memtable_accounting limit ops :
  let m := foldl mem_step (new_memtable limit) ops in
  m_size m = stored (m_data m) /\ should_flush m = (limit <=? stored (m_data m)) /\
  (forall lo hi, mem_scan m lo hi = map_range (m_data m) lo hi) /\
  (forall k v k', mem_get (mem_set m k v) k' = if bool_decide (k' = k) then Some v else mem_get m k') /\
  (forall k k', mem_get (mem_delete m k) k' = if bool_decide (k' = k) then Some TOMBSTONE else mem_get m k').
Proof.
  intros m. assert (mem_ok m /\ m_limit m = limit) as [Hok Hl].
  { unfold m. generalize (new_memtable limit) (conj (eq_refl : mem_ok (new_memtable limit)) (eq_refl : m_limit (new_memtable limit) = limit)).
    induction ops as [|op ops IH]; intros m0 [H0 L0]; [done|]. simpl. apply IH.
    destruct op as [k v|k|]; simpl; [split; [by apply mem_set_ok|done]|split; [by apply mem_delete_ok|done]|by split]. }
  split_and!; [done|unfold should_flush; by rewrite Hl, Hok|apply mem_scan_range| |];
    intros; unfold mem_get; simpl; rewrite lookup_insert; case_bool_decide; destruct (decide _); congruence.
Qed.
