(* ===== verification/SecondaryIndex.v ===== *)
(** * The value index: [litedb-python/secondary_index.py]

    A B+ tree from [value + SEP + key] to [key].  On an index whose tree holds exactly
    the entries of a map, for values without the separator, a range query returns
    exactly the keys whose value lies in the range ([index_range_exact]). *)

From S2P Require Import Prelude BPlusTree BPlusTreeFacts.

Definition _SEP : str := [0%N].
Definition _HI : str := hi_char.

Record index := Index { i_tree : tree; i_entries : Z }.

Definition new_index : index := Index (empty_tree 16) 0.

Definition composite (value key : str) : str := value ++ _SEP ++ key.

Definition index_add (ix : index) (key value : str) : res index :=
  let comp := composite value key in
  old ← BPlusTree.get (i_tree ix) comp;
  t ← BPlusTree.set (i_tree ix) comp key;
  Ok (Index t (match old with None => i_entries ix + 1 | Some _ => i_entries ix end)%Z).

Definition index_remove (ix : index) (key value : str) : res index :=
  '(found, t) ← delete_key (i_tree ix) (composite value key);
  Ok (Index t (if found : bool then i_entries ix - 1 else i_entries ix)%Z).

Definition index_update (ix : index) (key : str) (old_value : option str) (new_value : str) : res index :=
  ix' ← match old_value with
        | Some old => if old =s? new_value then Ok ix else index_remove ix key old
        | None => Ok ix
        end;
  index_add ix' key new_value.

(** [comp[:comp.find(SEP)]], or [comp] when there is no separator. *)
Fixpoint before_sep (comp : str) : str :=
  match comp with
  | [] => []
  | c :: comp => if (c =? 0)%N then [] else c :: before_sep comp
  end.

Definition keys_in_value_range (ix : index) (low_value high_value : str) : res (list str) :=
  l ← BPlusTree.scan (i_tree ix) low_value (high_value ++ _HI);
  Ok (filter (fun kv => low_value <=s before_sep kv.1 /\ before_sep kv.1 <=s high_value) l).*2.

(** ** Facts *)

Definition no_sep (v : str) : Prop := Forall (fun c => c <> 0%N) v.

Lemma before_sep_composite v k : no_sep v -> before_sep (composite v k) = v.
Proof.
  unfold composite, _SEP. induction 1 as [|c v Hc Hv IH]; [done|]. cbn [app before_sep].
  destruct (N.eqb_spec c 0); [done|]. f_equal. exact IH.
Qed.

Lemma composite_inj v k v' k' : no_sep v -> no_sep v' -> composite v k = composite v' k' -> v = v' /\ k = k'.
Proof.
  intros Hv Hv' E. assert (v = v') as <- by (by rewrite <- (before_sep_composite v k), E, before_sep_composite).
  split; [done|]. unfold composite in E. apply app_inv_head in E. by injection E.
Qed.

Lemma composite_high v k hi : no_sep hi -> v <=s hi -> composite v k <=s hi ++ _HI.
Proof.
  unfold composite, _SEP. revert hi. induction v as [|c v IH]; intros [|d hi] Hs Hle; simpl in *.
  - done.
  - apply Forall_cons_1 in Hs as [Hd _]. unfold str_le. simpl. by destruct d.
  - unfold str_le in Hle. simpl in Hle. done.
  - apply Forall_cons_1 in Hs as [_ Hs]. unfold str_le in *. simpl in *.
    destruct (N.compare_spec c d); [by apply IH|done|done].
Qed.

(** The tree of the index holds one entry for each binding of [m]. *)
Record index_of (ix : index) (m : gmap str str) : Prop := {
  io_grown : grown (i_tree ix);
  io_values : forall k v, m !! k = Some v -> no_sep v;
  io_entries : forall c k, tree_map (i_tree ix) !! c = Some k <-> exists v, m !! k = Some v /\ c = composite v k;
  io_count : i_entries ix = Z.of_nat (size m);
}.

Lemma new_index_of : index_of new_index ∅.
Proof.
  split; [apply grown_empty; lia|done| |done]. intros c k. split; [done|]. intros (v & Hv & _).
  by rewrite lookup_empty in Hv.
Qed.

(** A key that is new to the index. *)
Lemma index_add_new ix m k v :
  index_of ix m -> m !! k = None -> no_sep v ->
  exists ix', index_add ix k v = Ok ix' /\ index_of ix' (<[k := v]> m).
Proof.
  intros [Hg Hv He Hc] Hk Hns. destruct (wf_ordered _ (gr_wf _ Hg)) as [h Ho].
  unfold index_add. rewrite (get_spec h _ _ Ho). cbn [mbind res_bind].
  destruct (grown_set (i_tree ix) (composite v k) k Hg) as (t & -> & Hg' & _ & Hm). cbn [mbind res_bind].
  assert (tree_map (i_tree ix) !! composite v k = None) as ->.
  { destruct (tree_map (i_tree ix) !! composite v k) as [k'|] eqn:E; [|done]. apply He in E as (v' & Hk' & E).
    apply composite_inj in E as [_ ->]; eauto. congruence. }
  eexists. split; [done|]. split; cbn [i_tree i_entries].
  - done.
  - intros k' v'. rewrite lookup_insert. destruct (decide (k = k')); [by intros [= <-]|eauto].
  - intros c k'. rewrite Hm, lookup_insert. destruct (decide (composite v k = c)) as [<-|Hne].
    + split.
      * intros [= <-]. exists v. by rewrite lookup_insert_eq.
      * intros (v' & Hk' & E). f_equal. rewrite lookup_insert in Hk'. destruct (decide (k = k')) as [->|]; [done|].
        apply composite_inj in E as [_ ?]; eauto.
    + rewrite He. split; intros (v' & Hk' & ->); exists v'; (split; [|done]); rewrite lookup_insert in *.
      * destruct (decide (k = k')) as [->|]; [congruence|done].
      * destruct (decide (k = k')) as [->|]; [congruence|done].
  - rewrite map_size_insert_None by done. lia.
Qed.

(** On an index that holds exactly the bindings of a map whose values do not
    contain the separator, [keys_in_value_range] returns exactly the keys whose
    value is in the range, each once; and adding a new key keeps the index exact. *)
Theorem index_range_exact ix m lo hi :
  index_of ix m -> no_sep hi ->
  (exists ks, keys_in_value_range ix lo hi = Ok ks /\ NoDup ks /\
     forall k, k ∈ ks <-> exists v, m !! k = Some v /\ lo <=s v /\ v <=s hi) /\
  (forall k v, m !! k = None -> no_sep v -> exists ix', index_add ix k v = Ok ix' /\ index_of ix' (<[k := v]> m)).
Proof.
  intros Hix Hhi. split; [|intros; by apply index_add_new]. destruct Hix as [Hg Hv He Hc].
  unfold keys_in_value_range. rewrite scan_spec by apply Hg. cbn [mbind res_bind]. eexists. split; [done|].
  set (l := filter _ _). assert (forall c k, (c, k) ∈ l <-> exists v, m !! k = Some v /\ c = composite v k /\ lo <=s v /\ v <=s hi) as Hl.
  { intros c k. unfold l. rewrite list_elem_of_filter, elem_of_map_range, He. cbn [fst]. split.
    - intros ((H1 & H2) & (v & Hk & ->) & _). rewrite before_sep_composite in H1, H2 by eauto. eauto.
    - intros (v & Hk & -> & H1 & H2). rewrite before_sep_composite by eauto. split_and!; eauto.
      + pose proof (str_le_prefix v (_SEP ++ k)). unfold composite. str_order.
      + by apply composite_high. }
  split.
  - apply NoDup_fmap_2_strong.
    + intros [c k] [c' k'] H1 H2 E. cbn [snd] in E. subst k'. apply Hl in H1 as (v & Hk & -> & _), H2 as (v' & Hk' & -> & _).
      congruence.
    + unfold l. apply list.NoDup_filter, (NoDup_fmap_1 fst), sorted_NoDup, map_range_sorted.
  - intros k. rewrite list_elem_of_fmap. split.
    + intros ([c k'] & -> & Hin). apply Hl in Hin as (v & ? & _ & ? & ?). eauto.
    + intros (v & Hk & H1 & H2). exists (composite v k, k). split; [done|]. apply Hl. eauto.
Qed.

Lemma index_range_exact_witness : exists ks, keys_in_value_range new_index (py "a") (py "b") = Ok ks.
Proof.
  destruct (proj1 (index_range_exact new_index ∅ (py "a") (py "b") new_index_of ltac:(repeat constructor; discriminate)))
    as (ks & H & _).
  exists ks. exact H.
Defined.
