(* ===== verification/BTreeEngine.v ===== *)
(** * The B+ tree storage engine: [litedb-python/btree_engine.py]

    [BTreeEngine] is a B+ tree of order 16 with a write-ahead log that is replayed when
    the engine starts.  The tree alone discharges the laws of the storage interface
    ([TreeLaws]); together with the log, a crash at any point of a write keeps every
    acknowledged write ([btree_engine_durable]). *)

From S2P Require Import Prelude PyStd Json Wal Storage BPlusTree BPlusTreeFacts.

(** ** The tree as a storage engine *)

Definition tree_delete (t : tree) (k : str) : res tree := '(_, t') ← delete_key t k; Ok t'.

#[export] Instance TreeEngine : StorageEngine tree := {
  e_set := BPlusTree.set;
  e_delete := tree_delete;
  e_get := BPlusTree.get;
  e_scan := BPlusTree.scan;
  e_write_batch := write_batch_default BPlusTree.set tree_delete;
}.

(** ** [BTreeEngine] *)

Record btree_engine := BTreeEngine { be_wal : wal; be_tree : tree }.

Definition SET : str := py "SET".
Definition DELETE : str := py "DELETE".

(** The loop body of [_recover]. *)
Definition replay (t : tree) (e : WALEntry) : res tree :=
  if operation e =s? SET then BPlusTree.set t (w_key e) (default [] (w_value e))
  else if operation e =s? DELETE then tree_delete t (w_key e)
  else Ok t.

Fixpoint replay_all (t : tree) (es : list WALEntry) : res tree :=
  match es with
  | [] => Ok t
  | e :: es => t' ← replay t e; replay_all t' es
  end.

(** [__init__]: open the log, then replay it. *)
Definition be_open (file : bytes) : res btree_engine :=
  w ← wal_open file;
  match read_all file with
  | (es, None) => t ← replay_all (empty_tree 16) es; Ok (BTreeEngine w t)
  | (_, Some ex) => Raise ex
  end.

(** [set] and [delete]: the log first.  The state is returned also when the log raises. *)
Definition be_set (e : btree_engine) (key value : str) : btree_engine * res unit :=
  match wal_append (be_wal e) SET key (Some value) with
  | (w, Raise ex) => (BTreeEngine w (be_tree e), Raise ex)
  | (w, Ok _) =>
      match BPlusTree.set (be_tree e) key value with
      | Ok t => (BTreeEngine w t, Ok tt)
      | Raise ex => (BTreeEngine w (be_tree e), Raise ex)
      end
  end.

Definition be_delete (e : btree_engine) (key : str) : btree_engine * res unit :=
  match wal_append (be_wal e) DELETE key None with
  | (w, Raise ex) => (BTreeEngine w (be_tree e), Raise ex)
  | (w, Ok _) =>
      match tree_delete (be_tree e) key with
      | Ok t => (BTreeEngine w t, Ok tt)
      | Raise ex => (BTreeEngine w (be_tree e), Raise ex)
      end
  end.

Definition be_get (e : btree_engine) (key : str) : res (option str) := BPlusTree.get (be_tree e) key.
Definition be_scan (e : btree_engine) (lo hi : str) : res (list (str * str)) := BPlusTree.scan (be_tree e) lo hi.

(** ** Facts *)

(** Trees built by insertions obey the laws of the interface. *)
#[export] Instance TreeLaws : EngineLaws tree.
Proof.
  refine {| contents := tree_map; e_inv := grown; storable := fun _ _ => True |}.
  - intros e k Hg. destruct (wf_ordered _ (gr_wf _ Hg)) as [h Ho]. by apply (get_spec h).
  - intros e lo hi Hg. apply scan_spec, Hg.
  - intros e k v Hg _. destruct (grown_set e k v Hg) as (t & H1 & H2 & _ & H3). eauto.
  - intros e kvs Hg Hall.
    apply (default_batch_law BPlusTree.set tree_delete tree_map grown (fun _ _ => True)); [|done|done].
    intros e' k v Hg' _. destruct (grown_set e' k v Hg') as (t & H1 & H2 & _ & H3). eauto.
Defined.

(** A run of operations that all return, restarts of the engine included. *)
Inductive engine_op := OpSet (key value : str) | OpDelete (key : str) | OpReopen.

Definition acked (r : btree_engine * res unit) : res btree_engine := _ ← r.2; Ok r.1.

Definition be_step (e : btree_engine) (o : engine_op) : res btree_engine :=
  match o with
  | OpSet key value => acked (be_set e key value)
  | OpDelete key => acked (be_delete e key)
  | OpReopen => be_open (w_file (be_wal e))
  end.

Fixpoint run_ops (e : btree_engine) (os : list engine_op) : res btree_engine :=
  match os with [] => Ok e | o :: os => e' ← be_step e o; run_ops e' os end.

Definition new_engine : btree_engine := BTreeEngine (Wal [] 0) (empty_tree 16).

Definition is_text (s : str) : Prop := Forall (fun c => scalar c = true) s.
Definition op_texts (o : engine_op) : Prop :=
  match o with OpSet key value => is_text key /\ is_text value | OpDelete key => is_text key | OpReopen => True end.

(** The log is complete and replaying it gives the tree. *)
Definition logged (e : btree_engine) : Prop :=
  exists ops es, run_appends (Wal [] 0) ops = Ok (be_wal e, es) /\ Forall loggable es /\
    replay_all (empty_tree 16) es = Ok (be_tree e).

Lemma replay_all_snoc t es e t1 t2 : replay_all t es = Ok t1 -> replay t1 e = Ok t2 -> replay_all t (es ++ [e]) = Ok t2.
Proof.
  revert t. induction es as [|e0 es IH]; intros t; cbn [replay_all app].
  - intros [= ->] ->. done.
  - intros (t' & -> & H)%bind_ok H2. by apply (IH t').
Qed.

(** One more entry in the log, applied to the tree. *)
Lemma logged_append e op key value w en t :
  logged e -> wal_append (be_wal e) op key value = (w, Ok en) -> loggable en -> replay (be_tree e) en = Ok t -> logged (BTreeEngine w t).
Proof.
  intros (ops & es & H1 & H2 & H3) Ha Hl Ht. eexists _, (es ++ [en]). split; [by eapply run_appends_snoc|].
  split; [by apply Forall_app; split; [|by constructor]|]. by eapply replay_all_snoc.
Qed.

Lemma logged_reopen e : logged e -> be_open (w_file (be_wal e)) = Ok e.
Proof.
  intros (ops & es & H1 & H2 & H3). destruct (log_reopen ops (be_wal e) es H1 H2) as [Hr Ho]. unfold be_open.
  rewrite Ho. cbn [mbind res_bind]. rewrite Hr, H3. cbn. by destruct e.
Qed.

Lemma logged_step e o e' : logged e -> op_texts o -> be_step e o = Ok e' -> logged e'.
Proof.
  intros Hl Ho. destruct o as [key value|key|]; cbn [be_step op_texts] in *.
  - unfold be_set, acked. destruct Ho as [Hk Hv]. destruct (wal_append _ _ _ _) as [w [en|]] eqn:Ea; [|done].
    destruct (BPlusTree.set _ _ _) as [t|] eqn:Et; [|done]. cbn. intros [= <-].
    assert (Een : en = mkWALEntry (w_seq (be_wal e)) SET key (Some value)) by (unfold wal_append in Ea; destruct (encode_entry _); congruence).
    subst en. apply (logged_append e SET key (Some value) w _ t Hl Ea); [|exact Et]. split_and!; [repeat constructor|done|done].
  - unfold be_delete, acked. destruct (wal_append _ _ _ _) as [w [en|]] eqn:Ea; [|done].
    destruct (tree_delete _ _) as [t|] eqn:Et; [|done]. cbn. intros [= <-].
    assert (Een : en = mkWALEntry (w_seq (be_wal e)) DELETE key None) by (unfold wal_append in Ea; destruct (encode_entry _); congruence).
    subst en. apply (logged_append e DELETE key None w _ t Hl Ea); [|exact Et]. split_and!; [repeat constructor|done|done].
  - rewrite logged_reopen by done. congruence.
Qed.

Lemma logged_run os : forall e e', logged e -> Forall op_texts os -> run_ops e os = Ok e' -> logged e'.
Proof.
  induction os as [|o os IH]; intros e e' Hl Ho; cbn [run_ops]; [congruence|].
  apply list.Forall_cons in Ho as [Ho Hos]. intros (e1 & H1 & H2)%bind_ok. eapply (IH e1); eauto using logged_step.
Qed.

(** The pairs written by a run. *)
Definition written (os : list engine_op) : list (str * str) :=
  omap (fun o => match o with OpSet key value => Some (key, value) | _ => None end) os.

(** Without deletions the tree holds the last value of each key. *)
Lemma run_sets_contents os : forall e e', logged e -> Forall op_texts os -> grown (be_tree e) -> (forall k, OpDelete k ∉ os) ->
  run_ops e os = Ok e' -> grown (be_tree e') /\ tree_map (be_tree e') = Storage.put_all (written os) (tree_map (be_tree e)).
Proof.
  induction os as [|o os IH]; intros e e' Hl Ho Hg Hnd; cbn [run_ops]; [intros [= <-]; done|].
  apply list.Forall_cons in Ho as [Ho Hos]. intros (e1 & H1 & H2)%bind_ok. pose proof (logged_step e o e1 Hl Ho H1) as Hl1.
  assert (Hnd' : forall k, OpDelete k ∉ os) by (intros k Hk; apply (Hnd k); by right).
  destruct o as [key value|key|]; cbn [be_step written omap list_omap] in *.
  - destruct (grown_set (be_tree e) key value Hg) as (t & Et & Hg' & _ & Hm).
    unfold be_set, acked in H1. destruct (wal_append _ _ _ _) as [w [en|]]; [|done]. rewrite Et in H1. injection H1 as <-.
    destruct (IH _ e' Hl1 Hos Hg' Hnd' H2) as [? E]. cbn [be_tree] in E. rewrite Hm in E. done.
  - destruct (Hnd key). left.
  - rewrite logged_reopen in H1 by done. injection H1 as <-. eauto.
Qed.

(** C19: Durability.  Take any run of writes, deletions and restarts on a new engine, in
    which every operation returned, and a crash that leaves any part of the log record of
    the next operation on disk.  The engine then starts with the very tree it had, so all
    its answers are unchanged; if nothing was deleted they are the last values written.
    (Operations after that restart are another matter: see [wal_torn_tail_hides_appends].) *)
Theorem btree_engine_durable os e next bs (k : nat) :
  run_ops new_engine os = Ok e -> Forall op_texts os ->
  loggable next -> encode_entry next = Ok bs -> (k < length bs)%nat ->
  exists e', be_open (w_file (be_wal e) ++ take k bs) = Ok e' /\ be_tree e' = be_tree e /\
    ((forall key, OpDelete key ∉ os) -> forall key, be_get e' key = Ok (Storage.put_all (written os) ∅ !! key)).
Proof.
  intros Hrun Hos Hn Hb Hk. assert (Hl0 : logged new_engine) by (exists [], []; split_and!; [done|constructor|done]).
  pose proof (logged_run os new_engine e Hl0 Hos Hrun) as (ops & es & H1 & H2 & H3).
  pose proof (log_recovery _ _ _ _ _ _ H1 H2 Hn Hb Hk) as Hread.
  unfold be_open, wal_open. rewrite Hread. cbn [mbind res_bind]. rewrite H3. cbn [mbind res_bind].
  eexists. split; [done|]. cbn [be_tree]. split; [done|]. intros Hnd key. unfold be_get. cbn [be_tree].
  destruct (run_sets_contents os new_engine e Hl0 Hos (grown_empty 16 ltac:(lia)) Hnd Hrun) as [Hg Hm].
  destruct (wf_ordered _ (gr_wf _ Hg)) as [h Ho]. by rewrite (get_spec h _ _ Ho), Hm.
Qed.

Definition demo_ops : list engine_op :=
  [OpSet (py "a") (py "1"); OpSet (py "b") (py "2"); OpReopen; OpDelete (py "b"); OpSet (py "c") (py "3")].
Definition torn : bytes := match encode_entry sample with Ok b => b | Raise _ => [] end.

Lemma btree_engine_durable_witness :
  exists e e', run_ops new_engine demo_ops = Ok e /\ be_open (w_file (be_wal e) ++ take 12 torn) = Ok e' /\ be_tree e' = be_tree e /\
    be_get e (py "b") = Ok None /\ be_get e (py "c") = Ok (Some (py "3")).
Proof.
  destruct (run_ops new_engine demo_ops) as [e|] eqn:Er; [|vm_compute in Er; discriminate].
  destruct (btree_engine_durable demo_ops e sample torn 12 Er) as (e' & H1 & H2 & _).
  - repeat constructor.
  - repeat constructor.
  - vm_compute. reflexivity.
  - vm_compute. lia.
  - exists e, e'. split; [reflexivity|]. split; [exact H1|]. split; [exact H2|]. clear H1 H2.
    vm_compute in Er. injection Er as <-. split; vm_compute; reflexivity.
Defined.
