(* ===== verification/LSM.v ===== *)
(** * The LSM tree engine: [litedb-python/lsm_engine.py]

    [LSMEngine] puts the write-ahead log, the memory buffer, the tables of two levels
    and the value index together.  Methods are computations of a small monad: they
    change the engine and return a value, raise, or block for ever on the lock
    [_flush_lock], which is not reentrant and is a part of the state; [_lock] is reentrant
    and makes the sections it guards atomic.  The files of a level are listed oldest
    first, as the sorted file names are while sequence numbers have six digits. *)

From S2P Require Import Prelude PyStd Json Wal MemTable SSTable Storage SecondaryIndex.

(** ** State and effects *)

Record sst := Sst { sst_seq : N; sst_table : table }.

Record lsm := LSM {
  l_wal : wal;
  l_mem : memtable;
  l_0 : list sst;            (* [_levels[0]], oldest first *)
  l_1 : list sst;            (* [_levels[1]] *)
  l_seq : N;                 (* [_sst_sequence] *)
  l_index : index;
  l_lock : bool;             (* [_flush_lock] is held *)
}.

Inductive outcome (A : Type) :=
  | Val (a : A)
  | Exc (e : exn)
  | Blocked.
Arguments Val {A} a.
Arguments Exc {A} e.
Arguments Blocked {A}.

Definition M (A : Type) : Type := lsm -> outcome A * lsm.

#[export] Instance M_ret : MRet M := fun A a s => (Val a, s).
#[export] Instance M_bind : MBind M := fun A B f m s =>
  match m s with
  | (Val a, s') => f a s'
  | (Exc e, s') => (Exc e, s')
  | (Blocked, s') => (Blocked, s')
  end.

Definition lift {A} (r : res A) : M A := fun s => match r with Ok a => (Val a, s) | Raise e => (Exc e, s) end.
Definition get_state : M lsm := fun s => (Val s, s).
Definition put_mem (m : memtable) : M unit := fun s => (Val tt, LSM (l_wal s) m (l_0 s) (l_1 s) (l_seq s) (l_index s) (l_lock s)).
Definition put_levels (a b : list sst) : M unit := fun s => (Val tt, LSM (l_wal s) (l_mem s) a b (l_seq s) (l_index s) (l_lock s)).
Definition put_index (ix : index) : M unit := fun s => (Val tt, LSM (l_wal s) (l_mem s) (l_0 s) (l_1 s) (l_seq s) ix (l_lock s)).
Definition truncate_wal : M unit := fun s =>
  (Val tt, LSM (wal_truncate (l_wal s)) (l_mem s) (l_0 s) (l_1 s) (l_seq s) (l_index s) (l_lock s)).

Definition log (op key : str) (value : option str) : M unit := fun s =>
  let '(w, r) := wal_append (l_wal s) op key value in
  let s' := LSM w (l_mem s) (l_0 s) (l_1 s) (l_seq s) (l_index s) (l_lock s) in
  match r with Ok _ => (Val tt, s') | Raise e => (Exc e, s') end.

(** [_new_sst_path]. *)
Definition new_sst_seq : M N := fun s =>
  (Val (l_seq s), LSM (l_wal s) (l_mem s) (l_0 s) (l_1 s) (l_seq s + 1)%N (l_index s) (l_lock s)).

Definition set_lock (b : bool) (s : lsm) : lsm := LSM (l_wal s) (l_mem s) (l_0 s) (l_1 s) (l_seq s) (l_index s) b.

(** [with self._flush_lock:] blocks while the lock is held, also by the same thread. *)
Definition with_flush_lock {A} (m : M A) : M A := fun s =>
  if l_lock s then (Blocked, s)
  else match m (set_lock true s) with
       | (Blocked, s') => (Blocked, s')
       | (r, s') => (r, set_lock false s')
       end.

(** ** Reads *)

(** [None if result == TOMBSTONE else result]. *)
Definition hide (v : str) : option str := if v =s? TOMBSTONE then None else Some v.

(** The first table, newest first, that holds the key. *)
Fixpoint lookup_tables (ts : list sst) (key : str) : res (option str) :=
  match ts with
  | [] => Ok None
  | t :: ts =>
      r ← table_get (sst_table t) key;
      match r with Some v => Ok (Some v) | None => lookup_tables ts key end
  end.

Definition lsm_get (s : lsm) (key : str) : res (option str) :=
  match mem_get (l_mem s) key with
  | Some v => Ok (hide v)
  | None =>
      r0 ← lookup_tables (rev (l_0 s)) key;
      match r0 with
      | Some v => Ok (hide v)
      | None =>
          r1 ← lookup_tables (rev (l_1 s)) key;
          Ok (r1 ≫= hide)
      end
  end.

Definition tag (p : nat) (l : list (str * str)) : list (str * str * nat) := map (fun kv => (kv, p)) l.

(** The items of tables, newest first, with increasing priorities. *)
Fixpoint scan_tables (ts : list sst) (lo hi : str) (p : nat) : res (list (str * str * nat)) :=
  match ts with
  | [] => Ok []
  | t :: ts =>
      l ← table_scan (sst_table t) lo hi;
      rest ← scan_tables ts lo hi (S p);
      Ok (tag p l ++ rest)
  end.

(** [if k not in seen or p < seen[k][1]: seen[k] = (v, p)]. *)
Definition see (seen : gmap str (str * nat)) (it : str * str * nat) : gmap str (str * nat) :=
  let '(k, v, p) := it in
  match seen !! k with
  | None => <[k := (v, p)]> seen
  | Some (_, q) => if Nat.ltb p q then <[k := (v, p)]> seen else seen
  end.

Definition lsm_scan (s : lsm) (lo hi : str) : res (list (str * str)) :=
  let mem_items := tag 0 (mem_scan (l_mem s) lo hi) in
  items ← scan_tables (rev (l_0 s) ++ rev (l_1 s)) lo hi 1;
  let seen := foldl see ∅ (mem_items ++ items) in
  Ok (filter (fun kv => kv.2 <> TOMBSTONE) (sorted_items (fst <$> seen))).

(** ** Flush and compaction *)

(** The entries of tables, oldest first: later ones overwrite earlier ones. *)
Fixpoint collect_entries (ts : list sst) (m : gmap str str) : res (gmap str str) :=
  match ts with
  | [] => Ok m
  | t :: ts => l ← iter_all (sst_table t); collect_entries ts (Storage.put_all l m)
  end.

Definition compact_l0_to_l1 : M unit := with_flush_lock (
  s ← get_state;
  match l_0 s with
  | [] => mret tt
  | _ =>
      all ← lift (collect_entries (l_1 s ++ l_0 s) ∅);
      let merged := filter (fun kv => kv.2 <> TOMBSTONE) (sorted_items all) in
      match merged with
      | [] => put_levels [] []
      | _ =>
          n ← new_sst_seq;
          t ← lift (table_write merged);
          put_levels [] [Sst n t]
      end
  end).

Definition L0_COMPACTION_THRESHOLD : nat := 4.
Definition MEMTABLE_SIZE_LIMIT : Z := 1048576.

Definition flush_memtable : M unit := with_flush_lock (
  s ← get_state;
  if negb (should_flush (l_mem s)) then mret tt
  else
    match items_sorted (l_mem s) with
    | [] => mret tt
    | items =>
        n ← new_sst_seq;
        t ← lift (table_write items);
        _ ← put_levels (l_0 s ++ [Sst n t]) (l_1 s);
        _ ← put_mem (mem_clear (l_mem s));
        _ ← truncate_wal;
        if Nat.leb L0_COMPACTION_THRESHOLD (length (l_0 s ++ [Sst n t])) then compact_l0_to_l1 else mret tt
    end).

Definition maybe_flush : M unit := s ← get_state; if should_flush (l_mem s) then flush_memtable else mret tt.

(** ** Writes *)

Definition update_index (key : str) (old : option str) (value : str) : M unit :=
  s ← get_state; ix ← lift (index_update (l_index s) key old value); put_index ix.

Definition remove_index (key : str) (old : option str) : M unit :=
  match old with
  | None => mret tt
  | Some v => s ← get_state; ix ← lift (index_remove (l_index s) key v); put_index ix
  end.

Definition apply_set (key value : str) (old : option str) : M unit :=
  s ← get_state; _ ← put_mem (mem_set (l_mem s) key value); update_index key old value.

Definition apply_delete (key : str) (old : option str) : M unit :=
  s ← get_state; _ ← put_mem (mem_delete (l_mem s) key); remove_index key old.

Definition lsm_set (key value : str) : M unit :=
  s ← get_state;
  old ← lift (lsm_get s key);
  _ ← log (py "SET") key (Some value);
  _ ← apply_set key value old;
  maybe_flush.

Definition lsm_delete (key : str) : M unit :=
  s ← get_state;
  old ← lift (lsm_get s key);
  _ ← log (py "DELETE") key None;
  _ ← apply_delete key old;
  maybe_flush.

Fixpoint log_ops (ops : list WriteOp) : M unit :=
  match ops with
  | [] => mret tt
  | op :: ops =>
      _ ← (if is_delete op then log (py "DELETE") (op_key op) None else log (py "SET") (op_key op) (op_value op));
      log_ops ops
  end.

Fixpoint apply_ops (ops : list WriteOp) : M unit :=
  match ops with
  | [] => mret tt
  | op :: ops =>
      s ← get_state;
      old ← lift (lsm_get s (op_key op));
      _ ← (if is_delete op then apply_delete (op_key op) old
           else match op_value op with
                | Some v => apply_set (op_key op) v old
                | None => lift (Raise TypeError)
                end);
      apply_ops ops
  end.

Definition lsm_write_batch (ops : list WriteOp) : M unit :=
  _ ← log (py "BEGIN") [] None;
  _ ← log_ops ops;
  _ ← log (py "COMMIT") [] None;
  _ ← apply_ops ops;
  maybe_flush.

Definition write_batch_simulate_crash (ops : list WriteOp) : M unit :=
  _ ← log (py "BEGIN") [] None; log_ops ops.

(** [flush]: the size limit becomes 0 and stays 0. *)
Definition lsm_flush : M unit :=
  s ← get_state;
  _ ← (if Nat.ltb 0 (MemTable.entry_count (l_mem s))
       then put_mem (MemTable (m_data (l_mem s)) (m_size (l_mem s)) 0 (m_writes (l_mem s)))
       else mret tt);
  flush_memtable.

Definition find_by_value_range (s : lsm) (lo hi : str) : res (list str) := keys_in_value_range (l_index s) lo hi.

(** ** Recovery *)

(** [_apply_wal_entry]. *)
Definition apply_wal_entry (m : memtable) (e : WALEntry) : memtable :=
  if operation e =s? py "SET" then mem_set m (w_key e) (default [] (w_value e))
  else if operation e =s? py "DELETE" then mem_delete m (w_key e)
  else m.

(** One turn of the replay loop: the buffer, [in_batch] and [batch]. *)
Definition replay_entry (st : memtable * bool * list WALEntry) (e : WALEntry) : memtable * bool * list WALEntry :=
  let '(m, in_batch, batch) := st in
  if operation e =s? py "BEGIN" then (m, true, [])
  else if operation e =s? py "COMMIT" then (foldl apply_wal_entry m batch, false, [])
  else if in_batch : bool then (m, true, batch ++ [e])
  else (apply_wal_entry m e, false, batch).

(** Tables that do not open are skipped with a warning. *)
Fixpoint load_level (files : list (N * bytes)) (seq : N) : list sst * N :=
  match files with
  | [] => ([], seq)
  | (n, f) :: files =>
      match open_table f with
      | Ok t => let '(ts, q) := load_level files (if (seq <=? n)%N then n + 1 else seq)%N in (Sst n t :: ts, q)
      | Raise _ => load_level files seq
      end
  end.

Fixpoint rebuild_index (ix : index) (kvs : list (str * str)) : res index :=
  match kvs with
  | [] => Ok ix
  | (k, v) :: kvs => ix' ← index_add ix k v; rebuild_index ix' kvs
  end.

(** [__init__] on the files of a data directory. *)
Definition lsm_open (files0 files1 : list (N * bytes)) (wal_file : bytes) : res lsm :=
  w ← wal_open wal_file;
  let '(t0, q0) := load_level files0 0 in
  let '(t1, q1) := load_level files1 q0 in
  match read_all wal_file with
  | (es, None) =>
      let '(m, _, _) := foldl replay_entry (new_memtable MEMTABLE_SIZE_LIMIT, false, []) es in
      let s := LSM w m t0 t1 q1 new_index false in
      live ← lsm_scan s [] hi_char;
      ix ← rebuild_index new_index live;
      Ok (LSM w m t0 t1 q1 ix false)
  | (_, Some ex) => Raise ex
  end.

(** What a crash leaves on disk. *)
Definition files_of (ts : list sst) : list (N * bytes) := map (fun t => (sst_seq t, t_file (sst_table t))) ts.

(** ** What the engine holds *)

Lemma bind_run {A B} (f : A -> M B) (m : M A) s :
  (x ← m; f x) s = match m s with
                   | (Val a, s') => f a s'
                   | (Exc e, s') => (Exc e, s')
                   | (Blocked, s') => (Blocked, s')
                   end.
Proof. done. Qed.

(** Runs the primitive steps of a method. *)
Ltac step_m :=
  repeat first
    [ rewrite bind_run
    | progress unfold get_state, lift, put_levels, put_mem, put_index, truncate_wal, new_sst_seq, mret, M_ret
    | progress cbv beta iota
    | progress cbn [LSM.l_wal LSM.l_mem LSM.l_0 LSM.l_1 LSM.l_seq LSM.l_index LSM.l_lock set_lock negb] ].

#[local] Opaque open_table table_write table_get table_scan iter_all encode_entry.

Definition table_items (t : table) : list (str * str) := match iter_all t with Ok l => l | Raise _ => [] end.
Definition tmap (x : sst) : gmap str str := list_to_map (table_items (sst_table x)).

(** A table that was written from a sorted list and can be opened again. *)
Record good (x : sst) : Prop := {
  g_table : table_of (table_items (sst_table x)) (sst_table x);
  g_sorted : StronglySorted str_lt (table_items (sst_table x)).*1;
  g_file : open_table (t_file (sst_table x)) = Ok (sst_table x);
}.

Lemma open_table_file f t : open_table f = Ok t -> t_file t = f.
Proof.
  Transparent open_table. unfold open_table. Opaque open_table.
  destruct (Nat.ltb _ _); [done|]. destruct (negb _); [done|].
  intros H. repeat (apply bind_ok in H as (? & _ & H)). apply Ok_inj in H as <-. done.
Qed.

Lemma written_good items t n :
  table_write items = Ok t -> StronglySorted str_lt items.*1 -> good (Sst n t) /\ tmap (Sst n t) = list_to_map items.
Proof.
  Transparent table_write. intros (f & Hf & Ho)%bind_ok Hs. Opaque table_write.
  destruct (open_written items f Hf) as (t' & Ho' & Ht). rewrite Ho in Ho'. apply Ok_inj in Ho' as <-.
  assert (table_items t = items) as E by (unfold table_items; by rewrite (iter_all_spec items t Ht)).
  split; [|unfold tmap; simpl; by rewrite E]. split; simpl; rewrite ?E; auto.
  by rewrite (open_table_file f t Ho).
Qed.

Definition tables_map (ts : list sst) : gmap str str := ⋃ (tmap <$> ts).

Lemma tables_map_cons t ts : tables_map (t :: ts) = tmap t ∪ tables_map ts.
Proof. done. Qed.

Lemma tables_map_app a b : tables_map (a ++ b) = tables_map a ∪ tables_map b.
Proof.
  induction a as [|t a IH]; cbn [app].
  { change (tables_map []) with (∅ : gmap str str). by rewrite (left_id_L ∅ (∪)). }
  rewrite !tables_map_cons, IH. by rewrite (assoc_L (∪)).
Qed.

(** All entries, newest first, and the live ones. *)
Definition raw (s : lsm) : gmap str str := m_data (l_mem s) ∪ tables_map (rev (l_0 s) ++ rev (l_1 s)).
Definition visible_in (m : gmap str str) : gmap str str := filter (fun kv => kv.2 <> TOMBSTONE) m.
Definition visible (s : lsm) : gmap str str := visible_in (raw s).

Definition tables_ok (s : lsm) : Prop := Forall good (l_0 s) /\ Forall good (l_1 s).

Lemma visible_lookup m k : visible_in m !! k = m !! k ≫= hide.
Proof.
  unfold visible_in, hide. destruct (m !! k) as [v|] eqn:E; simpl.
  - case_bool_decide as Hv.
    + apply map_lookup_filter_None. right. intros x Hx. simpl. congruence.
    + by apply map_lookup_filter_Some.
  - apply map_lookup_filter_None. by left.
Qed.

Lemma lookup_tables_spec ts key kb :
  Forall good ts -> utf8_encode key = Ok kb -> lookup_tables ts key = Ok (tables_map ts !! key).
Proof.
  intros Hts Hk. induction Hts as [|t ts [Ht Hs _] _ IH]; [done|]. cbn [lookup_tables].
  rewrite (table_get_spec _ _ _ _ Ht Hs Hk). cbn [mbind res_bind]. rewrite tables_map_cons, lookup_union. fold (tmap t).
  rewrite IH. by destruct (tmap t !! key), (tables_map ts !! key).
Qed.

Lemma Forall_rev_iff {A} (P : A -> Prop) l : Forall P l -> Forall P (rev l).
Proof. intros H. apply list.Forall_forall. intros x Hx. apply list_elem_of_In, in_rev, list_elem_of_In in Hx. by eapply list.Forall_forall in H. Qed.

Lemma lsm_get_spec s key kb :
  tables_ok s -> utf8_encode key = Ok kb -> lsm_get s key = Ok (visible s !! key).
Proof.
  intros [H0 H1] Hk. unfold lsm_get, visible. rewrite visible_lookup. unfold raw, mem_get.
  rewrite (lookup_tables_spec (rev (l_0 s)) key kb) by (by try apply Forall_rev_iff).
  rewrite (lookup_tables_spec (rev (l_1 s)) key kb) by (by try apply Forall_rev_iff).
  rewrite tables_map_app, !lookup_union. cbn [mbind res_bind].
  destruct (m_data (l_mem s) !! key) as [v|]; [by destruct (tables_map (rev (l_0 s)) !! key), (tables_map (rev (l_1 s)) !! key)|].
  destruct (tables_map (rev (l_0 s)) !! key) as [v|]; [by destruct (tables_map (rev (l_1 s)) !! key)|].
  by destruct (tables_map (rev (l_1 s)) !! key).
Qed.

(** *** Scans *)

(** Entries of higher priority number than all that was seen only add new keys. *)
Lemma see_fold (l : list (str * str)) p seen :
  NoDup l.*1 -> (forall k v q, seen !! k = Some (v, q) -> (q < p)%nat) ->
  let seen' := foldl see seen (tag p l) in
  (forall k, fst <$> seen' !! k = union (fst <$> seen !! k) ((list_to_map l : gmap str str) !! k)) /\
  (forall k v q, seen' !! k = Some (v, q) -> (q < S p)%nat).
Proof.
  intros Hnd Hp. assert (forall k v q, seen !! k = Some (v, q) -> (q < S p)%nat /\ (q = p -> k ∉ l.*1)) as Hp'.
  { intros k v q H. specialize (Hp k v q H). split; [lia|]. intros. lia. }
  clear Hp. revert seen Hnd Hp'. induction l as [|[k v] l IH]; intros seen Hnd Hp; cbn [tag map foldl].
  { split; [intros k; cbn [list_to_map foldr]; rewrite lookup_empty; by destruct (fst <$> seen !! k)|]. intros k v q H. by apply Hp in H as [? _]. }
  rewrite fmap_cons in Hnd. apply list.NoDup_cons in Hnd as [Hk Hnd]. fold (tag p l).
  set (seen1 := see seen (k, v, p)).
  assert (forall k', seen1 !! k' = if decide (k' = k) then match seen !! k with Some x => Some x | None => Some (v, p) end else seen !! k') as H1.
  { intros k'. unfold seen1, see. destruct (seen !! k) as [[w q]|] eqn:Es.
    - destruct (Nat.ltb_spec p q) as [Hlt|_]; [destruct (Hp k w q Es); lia|]. destruct (decide (k' = k)); congruence.
    - rewrite lookup_insert. destruct (decide (k = k')), (decide (k' = k)); congruence. }
  destruct (IH seen1 Hnd) as [I1 I2].
  { intros k' w q H. rewrite H1 in H. destruct (decide (k' = k)) as [->|Hne].
    - destruct (seen !! k) as [[w0 q0]|] eqn:Es; [|injection H as <- <-; split; [lia|done]].
      injection H as <- <-. destruct (Hp k w0 q0 Es) as [? _]. split; [lia|done].
    - destruct (Hp k' w q H) as [Ha Hb]. split; [done|]. intros E. specialize (Hb E). rewrite fmap_cons in Hb.
      apply not_elem_of_cons in Hb. tauto. }
  split; [|done]. intros k'. rewrite I1, H1. cbn [list_to_map foldr fst snd]. rewrite lookup_insert.
  destruct (decide (k' = k)) as [->|Hne].
  - destruct (decide (k = k)); [|done]. assert ((list_to_map l : gmap str str) !! k = None) as ->.
    { by apply not_elem_of_list_to_map_1. }
    by destruct (seen !! k) as [[w q]|].
  - destruct (decide (k = k')); congruence.
Qed.

Lemma filter_range_map (l : list (str * str)) lo hi k :
  StronglySorted str_lt l.*1 ->
  (list_to_map (filter (within lo hi) l) : gmap str str) !! k =
    if bool_decide (lo <=s k /\ k <=s hi) then (list_to_map l : gmap str str) !! k else None.
Proof.
  intros Hs. pose proof (sorted_NoDup _ Hs) as Hnd. pose proof (sorted_NoDup _ (sorted_filter (within lo hi) l Hs)) as Hnd'.
  apply option_eq. intros v. rewrite <- elem_of_list_to_map, list_elem_of_filter by done. unfold within. cbn [fst].
  case_bool_decide; [rewrite <- elem_of_list_to_map by done; tauto|]. split; [tauto|done].
Qed.

Lemma scan_tables_spec ts lo hi p seen :
  Forall good ts -> (forall k v q, seen !! k = Some (v, q) -> (q < p)%nat) ->
  exists l, scan_tables ts lo hi p = Ok l /\
    forall k, fst <$> foldl see seen l !! k =
      union (fst <$> seen !! k) (if bool_decide (lo <=s k /\ k <=s hi) then tables_map ts !! k else None).
Proof.
  intros Hts. revert p seen. induction Hts as [|t ts [Ht Hs _] _ IH]; intros p seen Hp; cbn [scan_tables].
  { exists []. split; [done|]. intros k. cbn [foldl]. unfold tables_map. simpl. rewrite lookup_empty.
    case_bool_decide; by destruct (fst <$> seen !! k). }
  rewrite (table_scan_spec _ _ lo hi Ht Hs). cbn [mbind res_bind].
  destruct (see_fold (filter (within lo hi) (table_items (sst_table t))) p seen) as [S1 S2];
    [apply sorted_NoDup; by apply sorted_filter|done|].
  destruct (IH (S p) _ S2) as (l & -> & Hl). cbn [mbind res_bind]. eexists. split; [done|].
  intros k. rewrite foldl_app, Hl, S1, filter_range_map by done. rewrite tables_map_cons, lookup_union. fold (tmap t).
  case_bool_decide; [|by destruct (fst <$> seen !! k)]. by destruct (fst <$> seen !! k), (tmap t !! k), (tables_map ts !! k).
Qed.

Lemma lsm_scan_spec s lo hi : tables_ok s -> lsm_scan s lo hi = Ok (map_range (visible s) lo hi).
Proof.
  intros [H0 H1]. unfold lsm_scan. rewrite mem_scan_range.
  destruct (see_fold (map_range (m_data (l_mem s)) lo hi) 0 ∅) as [S1 S2].
  { apply sorted_NoDup, map_range_sorted. }
  { intros k v q Hq. by rewrite lookup_empty in Hq. }
  destruct (scan_tables_spec (rev (l_0 s) ++ rev (l_1 s)) lo hi 1 _ ltac:(apply Forall_app; split; by apply Forall_rev_iff) S2)
    as (l & -> & Hl). cbn [mbind res_bind]. f_equal. rewrite foldl_app. set (seen := foldl see _ l) in *.
  assert (forall k, fst <$> seen !! k = if bool_decide (lo <=s k /\ k <=s hi) then raw s !! k else None) as Hseen.
  { intros k. rewrite Hl, S1, lookup_empty. unfold map_range. rewrite filter_range_map by apply sorted_items_sorted.
    assert ((list_to_map (sorted_items (m_data (l_mem s))) : gmap str str) !! k = m_data (l_mem s) !! k) as ->.
    { apply option_eq. intros v. rewrite <- elem_of_list_to_map by (apply sorted_NoDup, sorted_items_sorted). apply elem_of_sorted_items. }
    unfold raw. rewrite lookup_union. case_bool_decide; [|done]. simpl.
    by destruct (m_data (l_mem s) !! k), (tables_map (rev (l_0 s) ++ rev (l_1 s)) !! k). }
  apply sorted_unique; [apply sorted_filter, sorted_items_sorted|apply map_range_sorted|].
  intros [k v]. rewrite list_elem_of_filter, elem_of_sorted_items, elem_of_map_range, lookup_fmap. cbn [snd].
  rewrite Hseen. unfold visible, visible_in. rewrite map_lookup_filter_Some. case_bool_decide; simpl; [tauto|naive_solver].
Qed.

(** ** Flush and compaction keep the contents *)

(** The log replays to the memory buffer. *)
Definition log_ok (w : wal) (data : gmap str str) : Prop :=
  exists es m b, encode_log es = Ok (w_file w) /\ Forall loggable es /\
    foldl replay_entry (new_memtable MEMTABLE_SIZE_LIMIT, false, []) es = (m, false, b) /\ m_data m = data.

Record lsm_ok (s : lsm) : Prop := {
  lo_tables : tables_ok s;
  lo_log : log_ok (l_wal s) (m_data (l_mem s));
}.

Lemma list_to_map_sorted_items (m : gmap str str) : list_to_map (sorted_items m) = m.
Proof.
  apply map_eq. intros k. apply option_eq. intros v.
  rewrite <- elem_of_list_to_map by (apply sorted_NoDup, sorted_items_sorted). apply elem_of_sorted_items.
Qed.

Lemma rev_snoc {A} (l : list A) x : rev (l ++ [x]) = x :: rev l.
Proof. by rewrite rev_app_distr. Qed.

(** The lock, the index and the counters do not matter for the contents. *)
Lemma lsm_ok_same s s' :
  w_file (l_wal s') = w_file (l_wal s) -> l_mem s' = l_mem s -> l_0 s' = l_0 s -> l_1 s' = l_1 s -> lsm_ok s ->
  lsm_ok s' /\ raw s' = raw s.
Proof.
  intros Hw Hm H0 H1 [Ht Hl]. split.
  - split; [unfold tables_ok; by rewrite H0, H1|]. unfold log_ok. by rewrite Hw, Hm.
  - unfold raw. by rewrite Hm, H0, H1.
Qed.

(** The state of the engine after the table was added and the buffer cleared. *)
Definition flushed (s : lsm) (t : table) : lsm :=
  LSM (wal_truncate (l_wal s)) (mem_clear (l_mem s)) (l_0 s ++ [Sst (l_seq s) t]) (l_1 s) (l_seq s + 1)%N (l_index s) (l_lock s).

Lemma flush_runs s t :
  l_lock s = false -> should_flush (l_mem s) = true -> m_data (l_mem s) <> ∅ -> table_write (items_sorted (l_mem s)) = Ok t ->
  flush_memtable s = if Nat.leb 3 (length (l_0 s)) then (Blocked, set_lock true (flushed s t)) else (Val tt, flushed s t).
Proof.
  intros Hlk Hf Hne Ht. unfold flush_memtable, with_flush_lock at 1. rewrite Hlk. step_m. rewrite Hf. step_m.
  destruct (items_sorted (l_mem s)) as [|it its] eqn:Ei.
  { exfalso. apply Hne. rewrite <- (list_to_map_sorted_items (m_data (l_mem s))). unfold items_sorted in Ei. by rewrite Ei. }
  step_m. rewrite Ht. step_m. rewrite length_app. unfold L0_COMPACTION_THRESHOLD. cbn [length].
  replace (Nat.leb 4 (length (l_0 s) + 1)) with (Nat.leb 3 (length (l_0 s))).
  2: { destruct (Nat.leb_spec 3 (length (l_0 s))), (Nat.leb_spec 4 (length (l_0 s) + 1)); lia || done. }
  unfold flushed. destruct (Nat.leb 3 (length (l_0 s))); [done|]. by rewrite Hlk.
Qed.

Lemma flushed_ok s t :
  lsm_ok s -> table_write (items_sorted (l_mem s)) = Ok t -> lsm_ok (flushed s t) /\ raw (flushed s t) = raw s.
Proof.
  intros [[H0 H1] _] Ht. destruct (written_good _ t (l_seq s) Ht (sorted_items_sorted _)) as [Hg Hm].
  split; [split; [split|]|].
  - simpl. apply Forall_app. split; [done|]. by constructor.
  - done.
  - exists [], (new_memtable MEMTABLE_SIZE_LIMIT), []. split_and!; [done|constructor|done|done].
  - unfold raw, flushed. cbn [l_mem l_0 l_1 mem_clear m_data]. rewrite rev_snoc. cbn [app]. rewrite tables_map_cons, Hm.
    unfold items_sorted. rewrite list_to_map_sorted_items. by rewrite (left_id_L ∅ (∪)).
Qed.

(** Whatever happens in a flush, the contents stay. *)
Lemma flush_outcome s o s' : lsm_ok s -> flush_memtable s = (o, s') -> lsm_ok s' /\ raw s' = raw s.
Proof.
  intros Hok. destruct (l_lock s) eqn:Hlk; [unfold flush_memtable, with_flush_lock; rewrite Hlk; by intros [= _ <-]|].
  destruct (should_flush (l_mem s)) eqn:Hf.
  2: { unfold flush_memtable, with_flush_lock at 1. rewrite Hlk. step_m. rewrite Hf. intros [= _ <-]. by apply (lsm_ok_same s). }
  destruct (decide (m_data (l_mem s) = ∅)) as [He|Hne].
  { unfold flush_memtable, with_flush_lock at 1. rewrite Hlk. step_m. rewrite Hf.
    assert (items_sorted (l_mem s) = []) as -> by (unfold items_sorted; rewrite He; done).
    intros [= _ <-]. by apply (lsm_ok_same s). }
  destruct (table_write (items_sorted (l_mem s))) as [t|ex] eqn:Ht.
  - rewrite (flush_runs s t Hlk Hf Hne Ht). destruct (flushed_ok s t Hok Ht) as [Hok' Hr].
    destruct (Nat.leb _ _); intros [= _ <-]; [rewrite <- Hr; by apply (lsm_ok_same (flushed s t))|done].
  - unfold flush_memtable, with_flush_lock at 1. rewrite Hlk. step_m. rewrite Hf. step_m.
    destruct (items_sorted (l_mem s)) as [|it its]; [intros [= _ <-]; by apply (lsm_ok_same s)|].
    step_m. rewrite Ht. intros [= _ <-]. by apply (lsm_ok_same s).
Qed.

Lemma put_all_union (l : list (str * str)) m : NoDup l.*1 -> Storage.put_all l m = list_to_map l ∪ m.
Proof.
  intros Hnd. apply map_eq. intros k. rewrite lookup_union. destruct ((list_to_map l : gmap str str) !! k) as [v|] eqn:E.
  - rewrite (lookup_put_all l m k v Hnd) by (by apply elem_of_list_to_map). by destruct (m !! k).
  - rewrite lookup_put_all_ne by (by apply not_elem_of_list_to_map). by destruct (m !! k).
Qed.

Lemma collect_entries_spec ts m :
  Forall good ts -> collect_entries ts m = Ok (tables_map (rev ts) ∪ m).
Proof.
  intros Hts. revert m. induction Hts as [|t ts [Ht Hs _] _ IH]; intros m; cbn [collect_entries].
  { change (tables_map (rev [])) with (∅ : gmap str str). by rewrite (left_id_L ∅ (∪)). }
  rewrite (iter_all_spec _ _ Ht). cbn [mbind res_bind]. rewrite IH, put_all_union by (by apply sorted_NoDup).
  fold (tmap t). cbn [rev]. rewrite tables_map_app. change (tables_map [t]) with (tmap t ∪ ∅). rewrite (right_id_L ∅ (∪)).
  by rewrite (assoc_L (∪)).
Qed.

Lemma visible_union (a b : gmap str str) : visible_in (a ∪ visible_in b) = visible_in (a ∪ b).
Proof.
  apply map_eq. intros k. rewrite !visible_lookup, !lookup_union, visible_lookup.
  destruct (a !! k) as [v|], (b !! k) as [w|]; simpl; try done.
  - by destruct (hide w).
  - unfold hide. case_bool_decide; simpl; [done|]. unfold hide. by rewrite bool_decide_false.
Qed.

Lemma visible_sorted m : filter (fun kv => kv.2 <> TOMBSTONE) (sorted_items m) = sorted_items (visible_in m).
Proof.
  apply sorted_unique; [apply sorted_filter, sorted_items_sorted|apply sorted_items_sorted|].
  intros [k v]. rewrite list_elem_of_filter, !elem_of_sorted_items. unfold visible_in. rewrite map_lookup_filter_Some. tauto.
Qed.

Definition compacted (s : lsm) : list (str * str) := sorted_items (visible_in (tables_map (rev (l_0 s) ++ rev (l_1 s)))).

Lemma compact_spec s t :
  lsm_ok s -> l_lock s = false -> l_0 s <> [] -> (compacted s <> [] -> table_write (compacted s) = Ok t) ->
  exists s', compact_l0_to_l1 s = (Val tt, s') /\ lsm_ok s' /\ visible s' = visible s /\ l_0 s' = [] /\
    l_mem s' = l_mem s /\ l_wal s' = l_wal s.
Proof.
  intros [[H0 H1] Hlog] Hlk Hne Ht. unfold compact_l0_to_l1, with_flush_lock. rewrite Hlk. step_m.
  destruct (l_0 s) as [|x xs] eqn:E0; [done|]. rewrite <- E0 in *. clear x xs E0. step_m.
  rewrite collect_entries_spec by (by apply Forall_app). rewrite rev_app_distr, (right_id_L ∅ (∪)).
  rewrite visible_sorted. fold (compacted s).
  destruct (compacted s) as [|c cs] eqn:Ec.
  - eexists. split; [done|]. split_and!; [|  |done|done|done].
    + split; [by split|done].
    + unfold visible, raw. cbn [set_lock l_mem l_0 l_1 rev app]. change (tables_map []) with (∅ : gmap str str).
      assert (visible_in (tables_map (rev (l_0 s) ++ rev (l_1 s))) = ∅) as E.
      { rewrite <- (list_to_map_sorted_items (visible_in _)). unfold compacted in Ec. by rewrite Ec. }
      rewrite <- (visible_union (m_data (l_mem s)) (tables_map (rev (l_0 s) ++ rev (l_1 s)))), E. done.
  - rewrite <- Ec in *. step_m. rewrite Ht by (rewrite Ec; done). step_m. eexists. split; [done|].
    destruct (written_good (compacted s) t (l_seq s)) as [Hg Hm]; [apply Ht; rewrite Ec; done|apply sorted_items_sorted|].
    split_and!; [| |done|done|done].
    + split; [split; [done|]|done]. simpl. by constructor.
    + unfold visible, raw. cbn [set_lock l_mem l_0 l_1 rev app]. change (tables_map [?a]) with (tmap a ∪ ∅).
      rewrite (right_id_L ∅ (∪)), Hm. unfold compacted. rewrite list_to_map_sorted_items. by rewrite visible_union.
Qed.

(** ** Writes *)

Definition SETop : str := py "SET".
Definition DELop : str := py "DELETE".

(** The state after the log and the buffer were written. *)
Definition written (s : lsm) (bs : bytes) (m : memtable) (ix : index) : lsm :=
  LSM (Wal (w_file (l_wal s) ++ bs) (w_seq (l_wal s) + 1)) m (l_0 s) (l_1 s) (l_seq s) ix (l_lock s).

(** A full buffer can be flushed without compaction. *)
Definition room (s : lsm) : Prop :=
  should_flush (l_mem s) = true -> l_lock s = false /\ (length (l_0 s) < 3)%nat /\ exists t, table_write (items_sorted (l_mem s)) = Ok t.

Lemma log_ok_snoc w d e bs n d' :
  log_ok w d -> loggable e -> encode_entry e = Ok bs ->
  (forall m b, m_data m = d -> exists m', replay_entry (m, false, b) e = (m', false, b) /\ m_data m' = d') ->
  log_ok (Wal (w_file w ++ bs) n) d'.
Proof.
  intros (es & m & b & E1 & E2 & E3 & E4) He Hb Hr. destruct (Hr m b E4) as (m' & E5 & E6).
  exists (es ++ [e]), m', b. split_and!; [by apply encode_log_snoc|apply Forall_app; split; [done|by constructor]| |done].
  by rewrite foldl_app, E3.
Qed.

Lemma maybe_flush_returns s : m_data (l_mem s) <> ∅ -> room s -> (maybe_flush s).1 = Val tt.
Proof.
  intros Hne Hroom. unfold maybe_flush. step_m. destruct (should_flush (l_mem s)) eqn:Ef; [|done].
  destruct (Hroom Ef) as (Hlk & Hl & t & Ht). rewrite (flush_runs s t Hlk Ef Hne Ht).
  destruct (Nat.leb_spec 3 (length (l_0 s))); [lia|done].
Qed.

Lemma maybe_flush_outcome s o s' : lsm_ok s -> maybe_flush s = (o, s') -> lsm_ok s' /\ raw s' = raw s.
Proof.
  intros Hok. unfold maybe_flush. step_m. destruct (should_flush (l_mem s)); [by apply flush_outcome|]. by intros [= _ <-].
Qed.

Lemma raw_insert s w m ix b k v :
  m_data m = <[k := v]> (m_data (l_mem s)) -> raw (LSM w m (l_0 s) (l_1 s) (l_seq s) ix b) = <[k := v]> (raw s).
Proof. intros Hm. unfold raw. cbn [l_mem l_0 l_1]. by rewrite Hm, insert_union_l. Qed.

Lemma visible_insert m k v : v <> TOMBSTONE -> visible_in (<[k := v]> m) = <[k := v]> (visible_in m).
Proof.
  intros Hv. apply map_eq. intros k'. rewrite visible_lookup, !lookup_insert, visible_lookup.
  destruct (decide (k = k')); [|done]. simpl. unfold hide. by rewrite bool_decide_false.
Qed.

Lemma visible_tombstone m k : visible_in (<[k := TOMBSTONE]> m) = base.delete k (visible_in m).
Proof.
  apply map_eq. intros k'. rewrite visible_lookup, lookup_insert, lookup_delete, visible_lookup.
  destruct (decide (k = k')); [|done]. simpl. unfold hide. by rewrite bool_decide_true.
Qed.

Lemma scalar_key key kb : utf8_encode key = Ok kb -> Forall (fun c => scalar c = true) key.
Proof. apply utf8_encode_scalar. Qed.

Lemma loggable_set n key kb value :
  utf8_encode key = Ok kb -> Forall (fun c => scalar c = true) value -> loggable (mkWALEntry n SETop key (Some value)).
Proof. intros Hk Hv. split_and!; simpl; [repeat constructor|by eapply scalar_key|done]. Qed.

Lemma loggable_delete n key kb : utf8_encode key = Ok kb -> loggable (mkWALEntry n DELop key None).
Proof. intros Hk. split_and!; simpl; [repeat constructor|by eapply scalar_key|done]. Qed.

(** The log record and the change of the buffer agree. *)
Lemma written_ok s op key value bs m ix v :
  lsm_ok s -> loggable (mkWALEntry (w_seq (l_wal s)) op key value) -> encode_entry (mkWALEntry (w_seq (l_wal s)) op key value) = Ok bs ->
  (forall m0 b, exists m', replay_entry (m0, false, b) (mkWALEntry (w_seq (l_wal s)) op key value) = (m', false, b) /\
     m_data m' = <[key := v]> (m_data m0)) ->
  m_data m = <[key := v]> (m_data (l_mem s)) ->
  lsm_ok (written s bs m ix) /\ raw (written s bs m ix) = <[key := v]> (raw s).
Proof.
  intros Hok Hl Hb Hr Hm. split; [|by apply raw_insert]. split; [apply Hok|]. simpl. rewrite Hm.
  eapply log_ok_snoc; [apply Hok|exact Hl|exact Hb|]. intros m0 b Hm0. destruct (Hr m0 b) as (m' & E1 & E2).
  exists m'. split; [done|]. by rewrite E2, Hm0.
Qed.

Lemma replay_set n key value m b :
  exists m', replay_entry (m, false, b) (mkWALEntry n SETop key (Some value)) = (m', false, b) /\ m_data m' = <[key := value]> (m_data m).
Proof. by eexists. Qed.

Lemma replay_delete n key m b :
  exists m', replay_entry (m, false, b) (mkWALEntry n DELop key None) = (m', false, b) /\ m_data m' = <[key := TOMBSTONE]> (m_data m).
Proof. by eexists. Qed.

(** Every outcome of a write: a write that did not reach the log changes nothing, any other is in effect. *)
Lemma lsm_set_outcome s key value kb o s' :
  lsm_ok s -> utf8_encode key = Ok kb -> Forall (fun c => scalar c = true) value -> lsm_set key value s = (o, s') ->
  lsm_ok s' /\ (raw s' = <[key := value]> (raw s) \/ raw s' = raw s /\ exists e, o = Exc e).
Proof.
  intros Hok Hk Hv. unfold lsm_set. step_m. rewrite (lsm_get_spec s key kb (lo_tables s Hok) Hk).
  unfold log. step_m. unfold wal_append. fold SETop. destruct (encode_entry _) as [bs|e] eqn:Hb.
  2: { step_m. intros [= <- <-]. destruct (lsm_ok_same s (LSM (Wal (w_file (l_wal s)) (w_seq (l_wal s) + 1)) (l_mem s) (l_0 s) (l_1 s)
         (l_seq s) (l_index s) (l_lock s))) as [? E]; auto. split; [done|right; eauto]. }
  pose proof (fun ix => written_ok s SETop key (Some value) bs (mem_set (l_mem s) key value) ix value Hok
    (loggable_set _ key kb value Hk Hv) Hb (replay_set _ key value) eq_refl) as Hw.
  unfold apply_set, update_index. step_m. destruct (index_update _ _ _ _) as [ix|e].
  - step_m. intros Hf. destruct (Hw ix) as [Hok1 Hr1]. destruct (maybe_flush_outcome _ _ _ Hok1 Hf) as [Hok' Hr]. split; [done|left; congruence].
  - intros [= <- <-]. destruct (Hw (l_index s)) as [Hok1 Hr1]. split; [exact Hok1|left; exact Hr1].
Qed.

Lemma lsm_delete_outcome s key kb o s' :
  lsm_ok s -> utf8_encode key = Ok kb -> lsm_delete key s = (o, s') ->
  lsm_ok s' /\ (raw s' = <[key := TOMBSTONE]> (raw s) \/ raw s' = raw s /\ exists e, o = Exc e).
Proof.
  intros Hok Hk. unfold lsm_delete. step_m. rewrite (lsm_get_spec s key kb (lo_tables s Hok) Hk).
  unfold log. step_m. unfold wal_append. fold DELop. destruct (encode_entry _) as [bs|e] eqn:Hb.
  2: { step_m. intros [= <- <-]. destruct (lsm_ok_same s (LSM (Wal (w_file (l_wal s)) (w_seq (l_wal s) + 1)) (l_mem s) (l_0 s) (l_1 s)
         (l_seq s) (l_index s) (l_lock s))) as [? E]; auto. split; [done|right; eauto]. }
  pose proof (fun ix => written_ok s DELop key None bs (mem_delete (l_mem s) key) ix TOMBSTONE Hok
    (loggable_delete _ key kb Hk) Hb (replay_delete _ key) eq_refl) as Hw.
  unfold apply_delete, remove_index. step_m. destruct (visible s !! key) as [v|]; [step_m; destruct (index_remove _ _ _) as [ix|e]|step_m].
  - step_m. intros Hf. destruct (Hw ix) as [Hok1 Hr1]. destruct (maybe_flush_outcome _ _ _ Hok1 Hf) as [Hok' Hr]. split; [done|left; congruence].
  - intros [= <- <-]. destruct (Hw (l_index s)) as [Hok1 Hr1]. split; [exact Hok1|left; exact Hr1].
  - intros Hf. destruct (Hw (l_index s)) as [Hok1 Hr1]. destruct (maybe_flush_outcome _ _ _ Hok1 Hf) as [Hok' Hr]. split; [done|left; congruence].
Qed.

(** A write returns if its record can be written, the index can be updated and a full buffer can be flushed. *)
Lemma lsm_set_returns s key value kb bs ix :
  lsm_ok s -> utf8_encode key = Ok kb ->
  encode_entry (mkWALEntry (w_seq (l_wal s)) SETop key (Some value)) = Ok bs ->
  index_update (l_index s) key (visible s !! key) value = Ok ix ->
  room (written s bs (mem_set (l_mem s) key value) ix) -> (lsm_set key value s).1 = Val tt.
Proof.
  intros Hok Hk Hb Hix Hroom. unfold lsm_set. step_m. rewrite (lsm_get_spec s key kb (lo_tables s Hok) Hk).
  unfold log. step_m. unfold wal_append. fold SETop. rewrite Hb. unfold apply_set, update_index. step_m. rewrite Hix. step_m.
  apply maybe_flush_returns; [apply insert_non_empty|done].
Qed.

Lemma lsm_delete_returns s key kb bs ix :
  lsm_ok s -> utf8_encode key = Ok kb ->
  encode_entry (mkWALEntry (w_seq (l_wal s)) DELop key None) = Ok bs ->
  match visible s !! key with None => Ok (l_index s) | Some v => index_remove (l_index s) key v end = Ok ix ->
  room (written s bs (mem_delete (l_mem s) key) ix) -> (lsm_delete key s).1 = Val tt.
Proof.
  intros Hok Hk Hb Hix Hroom. unfold lsm_delete. step_m. rewrite (lsm_get_spec s key kb (lo_tables s Hok) Hk).
  unfold log. step_m. unfold wal_append. fold DELop. rewrite Hb. unfold apply_delete, remove_index. step_m.
  destruct (visible s !! key) as [v|]; step_m.
  - rewrite Hix. step_m. apply maybe_flush_returns; [apply insert_non_empty|done].
  - apply Ok_inj in Hix as <-. apply maybe_flush_returns; [apply insert_non_empty|done].
Qed.

(** ** Recovery *)

Lemma encode_log_app a b x y : encode_log a = Ok x -> encode_log b = Ok y -> encode_log (a ++ b) = Ok (x ++ y).
Proof.
  revert x. induction a as [|e a IH]; intros x Ha Hb; cbn [app encode_log] in *.
  - apply Ok_inj in Ha as <-. done.
  - apply bind_ok in Ha as (c & Ec & (cs & Ecs & E)%bind_ok). apply Ok_inj in E as <-.
    rewrite Ec. cbn [mbind res_bind]. rewrite (IH cs Ecs Hb). cbn [mbind res_bind]. by rewrite app_assoc.
Qed.

(** Nothing, or a batch that was begun and not committed. *)
Definition uncommitted (tail : list WALEntry) : Prop :=
  tail = [] \/ exists b ps, tail = b :: ps /\ operation b = py "BEGIN" /\
    Forall (fun e => operation e <> py "BEGIN" /\ operation e <> py "COMMIT") ps.

Lemma replay_uncommitted m b tail :
  uncommitted tail -> exists x y, foldl replay_entry (m, false, b) tail = (m, x, y).
Proof.
  intros [->|(e & ps & -> & He & Hps)]; [eauto|]. cbn [foldl]. unfold replay_entry at 2. rewrite bool_decide_true by done.
  generalize (@nil WALEntry). induction Hps as [|p ps [H1 H2] _ IH]; intros c; [eauto|]. cbn [foldl].
  unfold replay_entry at 2. rewrite !bool_decide_false by done. apply IH.
Qed.

(** Files that open give their tables, the others none. *)
Lemma load_level_good ts rest loaded : Forall good ts -> (forall q, exists q', load_level rest q = (loaded, q')) ->
  forall q, exists q', load_level (files_of ts ++ rest) q = (ts ++ loaded, q').
Proof.
  intros H Hr. induction H as [|t ts [_ _ Ht] _ IH]; intros q; [apply Hr|]. cbn [files_of map load_level app].
  rewrite Ht. fold (files_of ts). destruct (IH (if (q <=? sst_seq t)%N then sst_seq t + 1 else q)%N) as [q' ->].
  exists q'. by destruct t.
Qed.

Lemma load_level_files ts : Forall good ts -> forall q, exists q', load_level (files_of ts) q = (ts, q').
Proof. intros H q. destruct (load_level_good ts [] [] H ltac:(by eexists) q) as [q' E]. rewrite !app_nil_r in E. by exists q'. Qed.

Lemma rebuild_index_total kvs ix : BPlusTreeFacts.grown (i_tree ix) -> exists ix', rebuild_index ix kvs = Ok ix'.
Proof.
  revert ix. induction kvs as [|[k v] kvs IH]; intros ix Hg; [by exists ix|]. cbn [rebuild_index]. unfold index_add.
  destruct (BPlusTree.wf_ordered _ (BPlusTreeFacts.gr_wf _ Hg)) as [h Ho]. rewrite (BPlusTreeFacts.get_spec h _ _ Ho).
  cbn [mbind res_bind]. destruct (BPlusTreeFacts.grown_set (i_tree ix) (composite v k) k Hg) as (t & -> & Hg' & _).
  cbn [mbind res_bind]. by apply IH.
Qed.

Lemma lsm_open_from files0 files1 file es t0 t1 m x y :
  (forall q, exists q', load_level files0 q = (t0, q')) -> (forall q, exists q', load_level files1 q = (t1, q')) ->
  Forall good t0 -> Forall good t1 -> read_all file = (es, None) ->
  foldl replay_entry (new_memtable MEMTABLE_SIZE_LIMIT, false, []) es = (m, x, y) ->
  exists s', lsm_open files0 files1 file = Ok s' /\ l_mem s' = m /\ l_0 s' = t0 /\ l_1 s' = t1 /\ w_file (l_wal s') = file.
Proof.
  intros L0 L1 H0 H1 Hread Hm. unfold lsm_open, wal_open. rewrite Hread. cbn [mbind res_bind].
  destruct (L0 0%N) as [q0 ->]. destruct (L1 q0) as [q1 ->]. rewrite Hm.
  set (w := Wal _ _). assert (forall ix, tables_ok (LSM w m t0 t1 q1 ix false)) as Hto by (intros; by split).
  rewrite lsm_scan_spec by apply Hto. cbn [mbind res_bind].
  destruct (rebuild_index_total (map_range (visible (LSM w m t0 t1 q1 new_index false)) [] hi_char) new_index) as [ix ->].
  { apply BPlusTreeFacts.grown_empty. lia. }
  cbn [mbind res_bind]. eexists. split; [done|]. by split_and!.
Qed.

(** What a crash leaves of an engine: the log with an interrupted batch and a part of a
    record, or, from within a flush, the file of the new table, whole or not. *)
Inductive crash_image (s : lsm) : list (N * bytes) -> list (N * bytes) -> bytes -> Prop :=
| crash_log tail tb e bs (k : nat) :
    Forall loggable tail -> uncommitted tail -> encode_log tail = Ok tb -> loggable e -> encode_entry e = Ok bs -> (k < length bs)%nat ->
    crash_image s (files_of (l_0 s)) (files_of (l_1 s)) (w_file (l_wal s) ++ tb ++ take k bs)
| crash_in_table f ex :
    open_table f = Raise ex ->
    crash_image s (files_of (l_0 s) ++ [(l_seq s, f)]) (files_of (l_1 s)) (w_file (l_wal s))
| crash_after_table t :
    table_write (items_sorted (l_mem s)) = Ok t ->
    crash_image s (files_of (l_0 s) ++ [(l_seq s, t_file t)]) (files_of (l_1 s)) (w_file (l_wal s)).

Lemma log_ok_read w d tail tb rest :
  log_ok w d -> Forall loggable tail -> uncommitted tail -> encode_log tail = Ok tb -> (forall f, read_loop f rest = ([], None)) ->
  exists es m x y, read_all (w_file w ++ tb ++ rest) = (es, None) /\ m_data m = d /\
    foldl replay_entry (new_memtable MEMTABLE_SIZE_LIMIT, false, []) es = (m, x, y).
Proof.
  intros (es & m & b & E1 & E2 & E3 & E4) Htl Hu Htb Hrest.
  destruct (replay_uncommitted m b tail Hu) as (x & y & Et). exists (es ++ tail), m, x, y. split_and!; [|done|by rewrite foldl_app, E3].
  unfold read_all. rewrite app_assoc. pose proof (encode_log_app es tail _ _ E1 Htb) as El.
  assert (Forall loggable (es ++ tail)) as Hl by (by apply Forall_app). apply read_loop_log; [done|done| |done].
  pose proof (encode_log_length _ _ Hl El). rewrite (length_app (_ ++ tb)). lia.
Qed.

Lemma crash_recovered s f0 f1 w :
  lsm_ok s -> crash_image s f0 f1 w ->
  exists s', lsm_open f0 f1 w = Ok s' /\ tables_ok s' /\ visible s' = visible s /\ m_data (l_mem s') = m_data (l_mem s) /\ w_file (l_wal s') = w.
Proof.
  intros [[H0 H1] Hlog] Hc.
  assert (Hclean : exists es m x y, read_all (w_file (l_wal s)) = (es, None) /\ m_data m = m_data (l_mem s) /\
    foldl replay_entry (new_memtable MEMTABLE_SIZE_LIMIT, false, []) es = (m, x, y)).
  { destruct (log_ok_read _ _ [] [] [] Hlog) as (es & m & x & y & E & ?); [constructor|by left|done|by intros [|f]|].
    rewrite app_nil_r in E. eauto 6. }
  destruct Hc as [tail tb e bs k Htl Hu Htb He Hb Hk|f ex Hf|t Ht].
  - destruct (log_ok_read _ _ tail tb (take k bs) Hlog) as (es & m & x & y & Er & Ed & Em); auto; [intros f; by eapply read_loop_partial|].
    destruct (lsm_open_from _ _ _ _ _ _ _ _ _ (load_level_files _ H0) (load_level_files _ H1) H0 H1 Er Em) as (s' & E & Es & E0 & E1 & Ew).
    exists s'. unfold tables_ok, visible, raw. rewrite Es, E0, E1, Ed. by split_and!.
  - destruct Hclean as (es & m & x & y & Er & Ed & Em).
    destruct (lsm_open_from (files_of (l_0 s) ++ [(l_seq s, f)]) (files_of (l_1 s)) (w_file (l_wal s)) es (l_0 s) (l_1 s) m x y) as (s' & E & Es & E0 & E1 & Ew); auto.
    { intros q. destruct (load_level_good (l_0 s) [(l_seq s, f)] [] H0) with (q := q) as [q' E']; [|rewrite app_nil_r in E'; by exists q'].
      intros q1. cbn [load_level]. rewrite Hf. by eexists. }
    { apply load_level_files, H1. }
    exists s'. unfold tables_ok, visible, raw. rewrite Es, E0, E1, Ed. by split_and!.
  - destruct Hclean as (es & m & x & y & Er & Ed & Em). destruct (written_good _ t (l_seq s) Ht (sorted_items_sorted _)) as [Hg Hm].
    destruct (lsm_open_from (files_of (l_0 s) ++ [(l_seq s, t_file t)]) (files_of (l_1 s)) (w_file (l_wal s)) es (l_0 s ++ [Sst (l_seq s) t]) (l_1 s) m x y)
      as (s' & E & Es & E0 & E1 & Ew); auto.
    { apply load_level_good; [done|]. intros q. cbn [load_level]. pose proof (g_file _ Hg) as Ho. cbn [sst_table] in Ho. rewrite Ho. by eexists. }
    { apply load_level_files, H1. } { apply Forall_app. split; [done|]. by constructor. }
    exists s'. unfold tables_ok, visible, raw. rewrite Es, E0, E1, Ed, rev_snoc. cbn [app]. rewrite tables_map_cons, Hm.
    unfold items_sorted. rewrite list_to_map_sorted_items, (assoc_L (∪)), (map_union_idemp (m_data (l_mem s))).
    split_and!; auto. apply Forall_app. split; [done|]. by constructor.
Qed.

(** ** Properties *)

Definition new_engine : lsm := LSM (Wal [] 0) (new_memtable MEMTABLE_SIZE_LIMIT) [] [] 0 new_index false.

Lemma new_engine_ok : lsm_ok new_engine.
Proof.
  split; [by split|]. exists [], (new_memtable MEMTABLE_SIZE_LIMIT), []. split_and!; [done|constructor|done|done].
Qed.

(** C20: Writes.  On an engine in its invariant, whatever the outcome of a [set] of a text
    (it returns, raises or blocks), the invariant holds afterwards, and the live contents
    have changed at the key only, unless the call raised before anything was logged; a
    [set] that returns is always in effect.  The same holds for [delete].  Both return if
    the log record can be written, the value index can be updated, and a full buffer can be
    flushed without reaching the compaction.  (The tombstone text itself is excluded as a
    value.) *)
Theorem lsm_writes s key kb value :
  lsm_ok s -> utf8_encode key = Ok kb -> Forall (fun c => scalar c = true) value -> value <> TOMBSTONE ->
  (forall o s', lsm_set key value s = (o, s') -> lsm_ok s' /\
     (visible s' = <[key := value]> (visible s) \/ visible s' = visible s /\ exists e, o = Exc e)) /\
  (forall o s', lsm_delete key s = (o, s') -> lsm_ok s' /\
     (visible s' = base.delete key (visible s) \/ visible s' = visible s /\ exists e, o = Exc e)) /\
  (forall bs ix, encode_entry (mkWALEntry (w_seq (l_wal s)) SETop key (Some value)) = Ok bs ->
     index_update (l_index s) key (visible s !! key) value = Ok ix ->
     room (written s bs (mem_set (l_mem s) key value) ix) -> (lsm_set key value s).1 = Val tt) /\
  (forall bs ix, encode_entry (mkWALEntry (w_seq (l_wal s)) DELop key None) = Ok bs ->
     match visible s !! key with None => Ok (l_index s) | Some v => index_remove (l_index s) key v end = Ok ix ->
     room (written s bs (mem_delete (l_mem s) key) ix) -> (lsm_delete key s).1 = Val tt).
Proof.
  intros Hok Hk Hv Ht. split_and!.
  - intros o s' E. destruct (lsm_set_outcome s key value kb o s' Hok Hk Hv E) as [Hok' [Er|[Er Ho]]]; (split; [done|]).
    + left. unfold visible. rewrite Er. by apply visible_insert.
    + right. unfold visible. by rewrite Er.
  - intros o s' E. destruct (lsm_delete_outcome s key kb o s' Hok Hk E) as [Hok' [Er|[Er Ho]]]; (split; [done|]).
    + left. unfold visible. rewrite Er. apply visible_tombstone.
    + right. unfold visible. by rewrite Er.
  - intros bs ix. by eapply lsm_set_returns.
  - intros bs ix. by eapply lsm_delete_returns.
Qed.

Lemma lsm_writes_witness :
  exists s1 s2, lsm_set (py "a") (py "1") new_engine = (Val tt, s1) /\ visible s1 = <[py "a" := py "1"]> (visible new_engine) /\
    lsm_delete (py "a") s1 = (Val tt, s2) /\ visible s2 = base.delete (py "a") (visible s1).
Proof.
  destruct (lsm_writes new_engine (py "a") (py "a") (py "1") new_engine_ok ltac:(vm_compute; reflexivity) ltac:(repeat constructor) ltac:(discriminate))
    as (H1 & _ & R1 & _).
  destruct (encode_entry (mkWALEntry (w_seq (l_wal new_engine)) SETop (py "a") (Some (py "1")))) as [bs|] eqn:Eb; [|vm_compute in Eb; discriminate].
  destruct (index_update (l_index new_engine) (py "a") (visible new_engine !! py "a") (py "1")) as [ix|] eqn:Ei; [|vm_compute in Ei; discriminate].
  specialize (R1 bs ix eq_refl eq_refl ltac:(intros H; vm_compute in H; discriminate H)).
  destruct (lsm_set (py "a") (py "1") new_engine) as [o1 s1] eqn:E1. cbn [fst] in R1. subst o1.
  destruct (H1 _ _ eq_refl) as [Hok1 [V1|[_ [e He]]]]; [|discriminate He].
  destruct (lsm_writes s1 (py "a") (py "a") (py "1") Hok1 ltac:(vm_compute; reflexivity) ltac:(repeat constructor) ltac:(discriminate))
    as (_ & H2 & _ & _).
  destruct (lsm_delete (py "a") s1) as [o2 s2] eqn:E2. destruct (H2 _ _ eq_refl) as [_ V2].
  assert (o2 = Val tt) as ->.
  { replace s1 with ((lsm_set (py "a") (py "1") new_engine).2) in E2 by (by rewrite E1).
    replace o2 with ((lsm_delete (py "a") (lsm_set (py "a") (py "1") new_engine).2).1) by (by rewrite E2). vm_compute. reflexivity. }
  exists s1, s2. split; [reflexivity|]. split; [exact V1|]. split; [exact E2|]. destruct V2 as [V2|[_ [e He]]]; [exact V2|discriminate He].
Defined.

(** C22: Reads.  On an engine in its invariant, [get] of any encodable key is the lookup in
    the live contents (the newest entry of the key over buffer and tables, unless it
    is a tombstone), and [scan] is their range query. *)
Theorem lsm_reads s key kb lo hi :
  lsm_ok s -> utf8_encode key = Ok kb ->
  lsm_get s key = Ok (visible s !! key) /\ lsm_scan s lo hi = Ok (map_range (visible s) lo hi).
Proof. intros [Hok _] Hk. split; [by eapply lsm_get_spec|by apply lsm_scan_spec]. Qed.

Lemma lsm_reads_witness :
  exists s1, (lsm_set (py "a") (py "1") new_engine).2 = s1 /\ visible s1 !! py "a" = Some (py "1") /\ lsm_get s1 (py "a") = Ok (visible s1 !! py "a").
Proof.
  destruct (lsm_set (py "a") (py "1") new_engine) as [o s1] eqn:E.
  destruct (lsm_set_outcome new_engine (py "a") (py "1") (py "a") o s1 new_engine_ok ltac:(vm_compute; reflexivity) ltac:(repeat constructor) E) as [Hok _].
  exists s1. split; [reflexivity|]. split.
  - replace s1 with ((lsm_set (py "a") (py "1") new_engine).2) by (by rewrite E). vm_compute. reflexivity.
  - apply (lsm_reads s1 (py "a") (py "a") [] [] Hok). vm_compute. reflexivity.
Defined.

(** C21: Crash recovery.  Take an engine in its invariant, that is with a log of complete
    records that replays to its buffer.  A crash leaves at the end of the log an interrupted
    batch (begun, never committed) and a part of a further record, or it interrupts a flush
    and leaves the new table file, readable or not, beside the untouched log.  Opening the
    files gives an engine with exactly the same live contents, and one in its invariant if
    the log has no such remains.  (If it has, later writes may be lost at the next
    recovery: see [lsm_open_batch_swallows_writes].  Crashes inside the compaction are not
    covered.) *)
Theorem lsm_recovery s f0 f1 w :
  lsm_ok s -> crash_image s f0 f1 w ->
  exists s', lsm_open f0 f1 w = Ok s' /\ visible s' = visible s /\
    (forall key kb, utf8_encode key = Ok kb -> lsm_get s' key = lsm_get s key) /\
    (w = w_file (l_wal s) -> lsm_ok s').
Proof.
  intros Hok Hc. destruct (crash_recovered s f0 f1 w Hok Hc) as (s' & E & Ht & Hv & Hm & Hw).
  exists s'. split_and!; [done|done| |].
  - intros key kb Hk. by rewrite (lsm_get_spec s' key kb Ht Hk), (lsm_get_spec s key kb (lo_tables s Hok) Hk), Hv.
  - intros Ew. split; [done|]. pose proof (lo_log s Hok) as Hl. unfold log_ok in *. by rewrite Hw, Hm, Ew.
Qed.

Definition begin_entry : WALEntry := mkWALEntry 1 (py "BEGIN") [] None.

Lemma lsm_recovery_witness :
  exists s1 tb bs s', (lsm_set (py "a") (py "1") new_engine).2 = s1 /\ encode_log [begin_entry] = Ok tb /\ encode_entry sample = Ok bs /\
    lsm_open [] [] (w_file (l_wal s1) ++ tb ++ take 5 bs) = Ok s' /\ visible s' = visible s1.
Proof.
  destruct (encode_log [begin_entry]) as [tb|] eqn:Et; [|vm_compute in Et; discriminate].
  destruct (encode_entry sample) as [bs|] eqn:Es; [|vm_compute in Es; discriminate].
  assert (5 < length bs) as Hl by (vm_compute in Es; injection Es as <-; vm_compute; lia).
  destruct (lsm_set (py "a") (py "1") new_engine) as [o s1] eqn:E.
  destruct (lsm_set_outcome new_engine (py "a") (py "1") (py "a") o s1 new_engine_ok ltac:(vm_compute; reflexivity) ltac:(repeat constructor) E) as [Hok _].
  assert (l_0 s1 = [] /\ l_1 s1 = []) as [E0 E1]
    by (replace s1 with ((lsm_set (py "a") (py "1") new_engine).2) by (by rewrite E); split; vm_compute; reflexivity).
  destruct (lsm_recovery s1 (files_of (l_0 s1)) (files_of (l_1 s1)) (w_file (l_wal s1) ++ tb ++ take 5 bs) Hok) as (s' & H1 & H2 & _).
  - apply (crash_log s1 [begin_entry] tb sample bs 5); [repeat constructor| |exact Et|repeat constructor|exact Es|exact Hl].
    right. exists begin_entry, []. split; [reflexivity|]. split; [reflexivity|constructor].
  - rewrite E0, E1 in H1. exists s1, tb, bs, s'. split; [reflexivity|]. split; [reflexivity|]. split; [reflexivity|]. exact (conj H1 H2).
Defined.

(** Compaction replaces the tables of both levels by at most one table and changes no live
    entry, provided the lock is free and the merged table can be written.  The only call in
    the program holds the lock, so there it blocks instead: see
    [lsm_fourth_flush_blocks]. *)
Theorem lsm_compaction s t :
  lsm_ok s -> l_lock s = false -> l_0 s <> [] -> (compacted s <> [] -> table_write (compacted s) = Ok t) ->
  exists s', compact_l0_to_l1 s = (Val tt, s') /\ lsm_ok s' /\ visible s' = visible s /\ l_0 s' = [].
Proof. intros H1 H2 H3 H4. destruct (compact_spec s t H1 H2 H3 H4) as (s' & ? & ? & ? & ? & _). eauto. Qed.

(** *** The lock is taken twice *)

Lemma stored_nonneg m : (0 <= stored m)%Z.
Proof. induction m as [|k v m Hk IH] using map_ind; [done|]. rewrite stored_insert by done. unfold len. lia. Qed.

(** A flush of a full buffer that returns found fewer than three tables and added one. *)
Lemma flush_returned s s' :
  should_flush (l_mem s) = true -> m_data (l_mem s) <> ∅ -> flush_memtable s = (Val tt, s') ->
  (length (l_0 s) < 3)%nat /\ exists t, s' = flushed s t.
Proof.
  intros Hf Hne. destruct (l_lock s) eqn:Hlk; [unfold flush_memtable, with_flush_lock; by rewrite Hlk|].
  destruct (table_write (items_sorted (l_mem s))) as [t|ex] eqn:Ht.
  - rewrite (flush_runs s t Hlk Hf Hne Ht). destruct (Nat.leb_spec 3 (length (l_0 s))); [done|]. intros [= <-]. eauto.
  - unfold flush_memtable, with_flush_lock at 1. rewrite Hlk. step_m. rewrite Hf. step_m.
    destruct (items_sorted (l_mem s)) as [|it its] eqn:Ei; [|step_m; by rewrite Ht].
    destruct Hne. rewrite <- (list_to_map_sorted_items (m_data (l_mem s))). unfold items_sorted in Ei. by rewrite Ei.
Qed.

Lemma zero_limit_full m : mem_ok m -> m_limit m = 0%Z -> should_flush m = true.
Proof. intros Hm Hl. unfold should_flush. rewrite Hm, Hl. apply Z.leb_le, stored_nonneg. Qed.

(** With a size limit of 0 every write that returns has flushed. *)
Lemma set_flushes s key value s' :
  m_limit (l_mem s) = 0%Z -> mem_ok (l_mem s) -> lsm_set key value s = (Val tt, s') ->
  (length (l_0 s) < 3)%nat /\ length (l_0 s') = S (length (l_0 s)) /\ m_limit (l_mem s') = 0%Z /\ mem_ok (l_mem s').
Proof.
  intros Hlim Hm. unfold lsm_set. step_m. destruct (lsm_get s key) as [old|]; [|done]. unfold log. step_m.
  unfold wal_append. destruct (encode_entry _) as [bs|]; [|done]. unfold apply_set, update_index. step_m.
  destruct (index_update _ _ _ _) as [ix|]; [|done]. step_m. set (s1 := LSM _ _ _ _ _ _ _).
  pose proof (zero_limit_full (l_mem s1) (mem_set_ok _ key value Hm) Hlim) as Hf.
  unfold maybe_flush. step_m. rewrite Hf. intros E.
  destruct (flush_returned s1 s' Hf (insert_non_empty _ _ _) E) as [Hl [t ->]].
  split_and!; [done| |done|done]. cbn. rewrite length_app. cbn. lia.
Qed.

Fixpoint set_all (kvs : list (str * str)) : M unit :=
  match kvs with [] => mret tt | (key, value) :: kvs => _ ← lsm_set key value; set_all kvs end.

Lemma set_all_stuck kvs : forall s, m_limit (l_mem s) = 0%Z -> mem_ok (l_mem s) -> (3 < length (l_0 s) + length kvs)%nat -> (0 < length kvs)%nat ->
  (set_all kvs s).1 <> Val tt.
Proof.
  induction kvs as [|[k v] kvs IH]; intros s Hlim Hm Hl Hne; cbn [length] in *; [lia|]. cbn [set_all]. rewrite bind_run.
  destruct (lsm_set k v s) as [[[]|e|] s1] eqn:E; [|done|done].
  destruct (set_flushes s k v s1 Hlim Hm E) as (H3 & Hl1 & Hlim1 & Hm1). apply IH; auto; lia.
Qed.

(** C23: Liveness fails in two ways.  A flush of a non-empty full buffer while three tables
    are on level 0 never returns: it calls the compaction, which waits for the lock that the
    flush holds.  And after an explicit [flush] of a non-empty buffer, which sets the size
    limit to 0 for good so that every write flushes, no three further [set]s return. *)
Theorem lsm_fourth_flush_blocks :
  (forall s t, l_lock s = false -> should_flush (l_mem s) = true -> m_data (l_mem s) <> ∅ -> (3 <= length (l_0 s))%nat ->
     table_write (items_sorted (l_mem s)) = Ok t -> (flush_memtable s).1 = Blocked) /\
  (forall s s' kvs, mem_ok (l_mem s) -> m_data (l_mem s) <> ∅ -> lsm_flush s = (Val tt, s') -> length kvs = 3%nat -> (set_all kvs s').1 <> Val tt).
Proof.
  split.
  - intros s t Hlk Hf Hne Hl Ht. rewrite (flush_runs s t Hlk Hf Hne Ht). destruct (Nat.leb_spec 3 (length (l_0 s))); [done|lia].
  - intros s s' kvs Hm Hne Hf Hk.
    enough (m_limit (l_mem s') = 0%Z /\ mem_ok (l_mem s') /\ (0 < length (l_0 s'))%nat) as (? & ? & ?) by (apply set_all_stuck; auto; lia).
    unfold lsm_flush in Hf. revert Hf. step_m. unfold MemTable.entry_count.
    destruct (Nat.ltb_spec 0 (size (m_data (l_mem s)))) as [_|Hz]; [|by apply Nat.le_0_r, map_size_empty_inv in Hz].
    step_m. intros Hf. apply flush_returned in Hf as [_ [t ->]]; [|by apply zero_limit_full|done].
    split_and!; [done|done|]. cbn. rewrite length_app. cbn. lia.
Qed.

Lemma lsm_fourth_flush_blocks_witness :
  let s := (lsm_set (py "a") (py "1") new_engine).2 in
  exists s', lsm_flush s = (Val tt, s') /\ (set_all [(py "b", py "1"); (py "c", py "1"); (py "d", py "1")] s').1 <> Val tt.
Proof.
  intros s. destruct (lsm_flush s) as [o s'] eqn:E.
  assert (o = Val tt) as -> by (replace o with ((lsm_flush s).1) by (by rewrite E); vm_compute; reflexivity).
  exists s'. split; [reflexivity|]. apply (proj2 lsm_fourth_flush_blocks s s'); [vm_compute; reflexivity|vm_compute; discriminate|exact E|reflexivity].
Defined.

(** A crash and a restart. *)
Definition reopen (s : lsm) : lsm :=
  match lsm_open (files_of (l_0 s)) (files_of (l_1 s)) (w_file (l_wal s)) with Ok s' => s' | Raise _ => s end.

(** An interrupted batch swallows later writes: after a batch that was not committed,
    recovery is right, but a [set] acknowledged after it is taken as a part of the
    open batch by the next recovery and is lost. *)
Theorem lsm_open_batch_swallows_writes :
  let '(r1, s1) := write_batch_simulate_crash [op_put (py "x") (py "1")] new_engine in
  let '(r2, s2) := lsm_set (py "k") (py "v") (reopen s1) in
  r1 = Val tt /\ r2 = Val tt /\ lsm_get s2 (py "k") = Ok (Some (py "v")) /\
  lsm_get (reopen s2) (py "k") = Ok None.
Proof. by vm_compute. Qed.
