(* ===== verification/AuthPool.v ===== *)
(** * Accounts and connection pool: [litedb-python/auth_pool.py]

    Clock readings and random salts are inputs of the operations.  PBKDF2 is the
    parameter [derive] (password bytes and salt to key); nothing is assumed about it.
    A [User] or [PooledConnection] object is named by its user name or its id: both
    are created once and never replaced.  Each critical section of the account manager is
    one step, and so is each permission check; a call with two such parts leaves a
    [ticket] between them. *)

From S2P Require Import Prelude PyStd.

Local Open Scope Z_scope.

(** ** Accounts *)

Inductive Permission := SELECT | INSERT | UPDATE | DELETE | CREATE | DROP | ADMIN.
#[export] Instance Permission_eq_dec : EqDecision Permission.
Proof. solve_decision. Defined.

Inductive Role := SUPERUSER | READ_WRITE | READ_ONLY | NO_ACCESS.
#[export] Instance Role_eq_dec : EqDecision Role.
Proof. solve_decision. Defined.

Definition role_permissions (r : Role) : list Permission :=
  match r with
  | SUPERUSER => [SELECT; INSERT; UPDATE; DELETE; CREATE; DROP; ADMIN]
  | READ_WRITE => [SELECT; INSERT; UPDATE; DELETE]
  | READ_ONLY => [SELECT]
  | NO_ACCESS => []
  end.

Definition role_value (r : Role) : str :=
  match r with
  | SUPERUSER => py "SUPERUSER"
  | READ_WRITE => py "READ_WRITE"
  | READ_ONLY => py "READ_ONLY"
  | NO_ACCESS => py "NO_ACCESS"
  end.

Definition permission_name (p : Permission) : str :=
  match p with
  | SELECT => py "SELECT" | INSERT => py "INSERT" | UPDATE => py "UPDATE" | DELETE => py "DELETE"
  | CREATE => py "CREATE" | DROP => py "DROP" | ADMIN => py "ADMIN"
  end.

Record User := mkUser {
  u_salt : bytes;
  u_hash : bytes;
  u_role : Role;
  u_created : Z;
  u_last_login : option Z;
  u_attempts : nat;
  u_locked : bool;
}.

Definition has_permission (u : User) (p : Permission) : bool :=
  if u_locked u then false else bool_decide (p ∈ role_permissions (u_role u)).

Record audit_entry := Audit { a_time : Z; a_event : str; a_user : str; a_success : bool; a_reason : str; a_extra : list (str * str) }.

Record auth := Auth { users : gmap str User; audit_log : list audit_entry }.

Definition new_auth : auth := Auth ∅ [].

Definition MAX_LOGIN_ATTEMPTS : nat := 5.

Definition audit_with (a : auth) (now : Z) (event name : str) (ok : bool) (reason : str) (extra : list (str * str)) : auth :=
  Auth (users a) (audit_log a ++ [Audit now event name ok reason extra]).

Definition audit (a : auth) (now : Z) (event name : str) (ok : bool) (reason : str) : auth :=
  audit_with a now event name ok reason [].

Definition put_user (a : auth) (name : str) (u : User) : auth := Auth (<[name := u]> (users a)) (audit_log a).

Section auth.
Context (derive : bytes -> bytes -> bytes).

Definition hash_password (password : str) (salt : bytes) : res bytes :=
  b ← utf8_encode password; Ok (derive b salt).

Definition verify_password (password : str) (salt stored : bytes) : res bool :=
  h ← hash_password password salt; Ok (bool_decide (h = stored)).

Definition create_user (a : auth) (now : Z) (salt : bytes) (name password : str) (role : Role) : auth * res unit :=
  if bool_decide (is_Some (users a !! name)) then (a, Raise AuthErr)
  else if Nat.ltb (length password) 8 then (a, Raise AuthErr)
  else
    match hash_password password salt with
    | Raise e => (a, Raise e)
    | Ok h => (audit (put_user a name (mkUser salt h role now None 0 false)) now (py "CREATE_USER") name true [], Ok tt)
    end.

Definition with_login (u : User) (attempts : nat) (locked : bool) (login : option Z) : User :=
  mkUser (u_salt u) (u_hash u) (u_role u) (u_created u) login attempts locked.

Definition authenticate (a : auth) (now : Z) (name password : str) : auth * res unit :=
  match users a !! name with
  | None =>
      let a1 := audit a now (py "LOGIN_FAILED") name false (py "user_not_found") in
      match utf8_encode password with
      | Ok _ => (a1, Raise AuthErr)
      | Raise e => (a1, Raise e)
      end
  | Some u =>
      if u_locked u then (audit a now (py "LOGIN_BLOCKED") name false (py "account_locked"), Raise AuthErr)
      else
        match verify_password password (u_salt u) (u_hash u) with
        | Raise e => (a, Raise e)
        | Ok false =>
            let n := S (u_attempts u) in
            if Nat.leb MAX_LOGIN_ATTEMPTS n then
              (audit (put_user a name (with_login u n true (u_last_login u))) now (py "ACCOUNT_LOCKED") name false
                 (py "too_many_failures (" ++ str_of_N (N.of_nat n) ++ py ")"), Raise AuthErr)
            else
              (audit (put_user a name (with_login u n false (u_last_login u))) now (py "LOGIN_FAILED") name false
                 (py "bad_password (attempt " ++ str_of_N (N.of_nat n) ++ py ")"), Raise AuthErr)
        | Ok true =>
            (audit (put_user a name (with_login u 0 false (Some now))) now (py "LOGIN_OK") name true [], Ok tt)
        end
  end.

(** [change_password], its second critical section: the login has succeeded before. *)
Definition change_password_locked (a : auth) (now : Z) (salt : bytes) (name new_password : str) : auth * res unit :=
  if Nat.ltb (length new_password) 8 then (a, Raise AuthErr)
  else
    match hash_password new_password salt, users a !! name with
    | Ok h, Some u =>
        (audit (put_user a name (mkUser salt h (u_role u) (u_created u) (u_last_login u) (u_attempts u) (u_locked u)))
           now (py "PASSWORD_CHANGED") name true [], Ok tt)
    | Raise e, _ => (a, Raise e)
    | _, None => (a, Raise KeyError)
    end.
End auth.

(** The caller passes the administrator's [User] object, named by [admin]. *)
Definition may_admin (a : auth) (admin : str) : bool :=
  match users a !! admin with Some u => has_permission u ADMIN | None => false end.

(** What is left to do of a call after its first part: [change_password] after the login,
    [set_role] and [unlock_user] after the permission check, which is made without the lock.
    Other threads may run before the rest of the call takes the lock. *)
Inductive ticket :=
  | TChange (name new_password : str)
  | TSetRole (admin target : str) (role : Role)
  | TUnlock (admin target : str).
#[export] Instance ticket_eq_dec : EqDecision ticket.
Proof. solve_decision. Defined.

Definition change_password (derive : bytes -> bytes -> bytes) (a : auth) (now : Z) (name old_password new_password : str) : auth * res ticket :=
  match authenticate derive a now name old_password with
  | (a1, Ok _) => (a1, Ok (TChange name new_password))
  | (a1, Raise e) => (a1, Raise e)
  end.

Definition set_role (a : auth) (admin target : str) (role : Role) : res ticket :=
  if negb (may_admin a admin) then Raise AuthErr else Ok (TSetRole admin target role).

Definition set_role_locked (a : auth) (now : Z) (admin target : str) (role : Role) : auth * res unit :=
  match users a !! target with
  | None => (a, Raise AuthErr)
  | Some u =>
      (audit_with (put_user a target (mkUser (u_salt u) (u_hash u) role (u_created u) (u_last_login u) (u_attempts u) (u_locked u)))
         now (py "ROLE_CHANGED") target true [] [(py "new_role", role_value role); (py "by", admin)], Ok tt)
  end.

Definition unlock_user (a : auth) (admin target : str) : res ticket :=
  if negb (may_admin a admin) then Raise AuthErr else Ok (TUnlock admin target).

Definition unlock_user_locked (a : auth) (now : Z) (target : str) : auth * res unit :=
  match users a !! target with
  | None => (a, Ok tt)
  | Some u => (audit (put_user a target (with_login u 0 false (u_last_login u))) now (py "ACCOUNT_UNLOCKED") target true [], Ok tt)
  end.

Definition resume (derive : bytes -> bytes -> bytes) (a : auth) (now : Z) (salt : bytes) (t : ticket) : auth * res unit :=
  match t with
  | TChange name pw => change_password_locked derive a now salt name pw
  | TSetRole admin target role => set_role_locked a now admin target role
  | TUnlock _ target => unlock_user_locked a now target
  end.

Definition check_permission (a : auth) (now : Z) (name : str) (p : Permission) (resource : str) : auth * res unit :=
  match users a !! name with
  | Some u =>
      let extra := [(py "permission", permission_name p); (py "resource", resource)] in
      if has_permission u p then (audit_with a now (py "PERMISSION_GRANTED") name true [] extra, Ok tt)
      else (audit_with a now (py "PERMISSION_DENIED") name false [] extra, Raise AuthErr)
  | None => (a, Raise KeyError)
  end.

(** [self._audit_log[-limit:]]; with a limit of 0 this is the whole log. *)
Definition get_audit_log (a : auth) (limit : Z) : list audit_entry :=
  let n := Z.of_nat (length (audit_log a)) in
  if limit <=? 0 then drop (Z.to_nat (- limit)) (audit_log a)
  else drop (Z.to_nat (n - limit)) (audit_log a).

(** A run of the account manager and the threads that call it: the accounts, and the calls
    that have passed their first part. *)
Inductive auth_op :=
  | OpCreate (now : Z) (salt : bytes) (name password : str) (role : Role)
  | OpLogin (now : Z) (name password : str)
  | OpChange (now : Z) (name old_password new_password : str)
  | OpSetRole (admin target : str) (role : Role)
  | OpUnlock (admin target : str)
  | OpCheck (now : Z) (name : str) (p : Permission) (resource : str)
  | OpResume (now : Z) (salt : bytes) (i : nat).

Record world := World { accounts : auth; waiting : list ticket }.

Definition new_world : world := World new_auth [].

Definition issue (w : world) (a : auth) (r : res ticket) : world :=
  match r with Ok t => World a (waiting w ++ [t]) | Raise _ => World a (waiting w) end.

Definition auth_step (derive : bytes -> bytes -> bytes) (w : world) (op : auth_op) : world :=
  let a := accounts w in
  match op with
  | OpCreate now salt name pw role => World (create_user derive a now salt name pw role).1 (waiting w)
  | OpLogin now name pw => World (authenticate derive a now name pw).1 (waiting w)
  | OpChange now name o n => issue w (change_password derive a now name o n).1 (change_password derive a now name o n).2
  | OpSetRole admin target role => issue w a (set_role a admin target role)
  | OpUnlock admin target => issue w a (unlock_user a admin target)
  | OpCheck now name p r => World (check_permission a now name p r).1 (waiting w)
  | OpResume now salt i =>
      match waiting w !! i with
      | Some t => World (resume derive a now salt t).1 (base.delete i (waiting w))
      | None => w
      end
  end.

(** ** Connection pool *)

Inductive ConnectionState := IDLE | IN_USE | CLOSED.
#[export] Instance ConnectionState_eq_dec : EqDecision ConnectionState.
Proof. solve_decision. Defined.

Record conn := Conn {
  conn_id : nat;
  c_state : ConnectionState;
  c_created : Z;
  c_last_used : Z;
  c_uses : nat;
  c_owner : option str;
}.

Record pool := Pool {
  min_size : nat;
  max_size : nat;
  acquire_timeout : Z;
  max_lifetime : Z;
  max_idle_time : Z;
  connections : list conn;
  next_id : nat;
  stats_acquired : nat;
  stats_released : nat;
  stats_created : nat;
  stats_destroyed : nat;
  stats_timeouts : nat;
}.

Definition is_expired (c : conn) (now lifetime : Z) : bool := lifetime <? now - c_created c.
Definition is_idle_too_long (c : conn) (now max_idle : Z) : bool := max_idle <? now - c_last_used c.

Definition with_conns (p : pool) (cs : list conn) (acq rel des tmo : nat) : pool :=
  Pool (min_size p) (max_size p) (acquire_timeout p) (max_lifetime p) (max_idle_time p) cs (next_id p)
    (stats_acquired p + acq) (stats_released p + rel) (stats_created p) (stats_destroyed p + des) (stats_timeouts p + tmo).

(** [_create_connection]; the caller's [connect_fn] returns. *)
Definition create_connection (p : pool) (c : conn) : pool :=
  Pool (min_size p) (max_size p) (acquire_timeout p) (max_lifetime p) (max_idle_time p) (connections p ++ [c]) (S (next_id p))
    (stats_acquired p) (stats_released p) (S (stats_created p)) (stats_destroyed p) (stats_timeouts p).

Fixpoint prewarm (n : nat) (now : Z) (p : pool) : pool :=
  match n with
  | O => p
  | S n => prewarm n now (create_connection p (Conn (next_id p) IDLE now now 0 None))
  end.

Definition new_pool (mn mx : nat) (timeout lifetime idle now : Z) : pool :=
  prewarm mn now (Pool mn mx timeout lifetime idle [] 1 0 0 0 0 0).

Definition is_idle (c : conn) : bool := bool_decide (c_state c = IDLE).

(** The first idle connection and its index. *)
Fixpoint find_idle (i : nat) (cs : list conn) : option (nat * conn) :=
  match cs with
  | [] => None
  | c :: cs => if is_idle c then Some (i, c) else find_idle (S i) cs
  end.

(** One turn of the loop in [acquire]: the connection handed out, if any. *)
Definition acquire_try (p : pool) (now : Z) (owner : str) : option (pool * nat) :=
  match find_idle 0 (connections p) with
  | Some (i, c) =>
      if is_expired c now (max_lifetime p) then
        let p1 := with_conns p (base.delete i (connections p)) 0 0 1 0 in
        let id := next_id p1 in
        Some (with_conns (create_connection p1 (Conn id IN_USE now now 1 (Some owner)))
                (connections (create_connection p1 (Conn id IN_USE now now 1 (Some owner)))) 1 0 0 0, id)
      else
        let c' := Conn (conn_id c) IN_USE (c_created c) now (S (c_uses c)) (Some owner) in
        Some (with_conns p (<[i := c']> (connections p)) 1 0 0 0, conn_id c)
  | None =>
      if Nat.ltb (length (connections p)) (max_size p) then
        let id := next_id p in
        let p1 := create_connection p (Conn id IN_USE now now 1 (Some owner)) in
        Some (with_conns p1 (connections p1) 1 0 0 0, id)
      else None
  end.

(** [acquire] with the clock readings of its turns; one reading serves the loop test and
    the body of a turn.  The list ends where the caller's run is cut. *)
Fixpoint acquire_loop (p : pool) (deadline : Z) (owner : str) (clock : list Z) : pool * res nat :=
  match clock with
  | [] => (with_conns p (connections p) 0 0 0 1, Raise TimeoutError)
  | now :: clock =>
      if now <? deadline then
        match acquire_try p now owner with
        | Some (p', id) => (p', Ok id)
        | None => acquire_loop p deadline owner clock
        end
      else (with_conns p (connections p) 0 0 0 1, Raise TimeoutError)
  end.

Definition acquire (p : pool) (start : Z) (owner : str) (clock : list Z) : pool * res nat :=
  acquire_loop p (start + acquire_timeout p) owner clock.

(** [release] of the object with this id; objects outside the pool are closed. *)
Definition release (p : pool) (now : Z) (id : nat) : pool :=
  match list_find (fun c => conn_id c = id /\ c_state c = IN_USE) (connections p) with
  | Some (i, c) => with_conns p (<[i := Conn (conn_id c) IDLE (c_created c) now (c_uses c) None]> (connections p)) 0 1 0 0
  | None => p
  end.

Definition close_all (p : pool) : pool := with_conns p [] 0 0 (length (connections p)) 0.

(** [l[:n]] for any integer [n]. *)
Definition slice_to {A} (n : Z) (l : list A) : list A :=
  if n <? 0 then take (Z.to_nat (Z.of_nat (length l) + n)) l else take (Z.to_nat n) l.

(** One turn of [_maintenance_loop]. *)
Definition maintain (p : pool) (now : Z) : pool :=
  let idle := filter (fun c => is_idle c = true) (connections p) in
  let excess := Z.of_nat (length idle) - Z.of_nat (min_size p) in
  let doomed := map conn_id (filter (fun c => is_idle_too_long c now (max_idle_time p) = true) (slice_to excess idle)) in
  let kept := filter (fun c => conn_id c ∉ doomed) (connections p) in
  with_conns p kept 0 0 (length (connections p) - length kept) 0.

Definition in_use (p : pool) : list conn := filter (fun c => c_state c = IN_USE) (connections p).

Record pool_report := PoolReport {
  total : nat; idle : nat; busy : nat; r_min : nat; r_max : nat;
  acquired : nat; released : nat; created : nat; destroyed : nat; timeouts : nat;
}.

Definition pool_stats (p : pool) : pool_report :=
  PoolReport (length (connections p)) (length (filter (fun c => is_idle c = true) (connections p)))
    (length (in_use p)) (min_size p) (max_size p) (stats_acquired p) (stats_released p) (stats_created p)
    (stats_destroyed p) (stats_timeouts p).

(** [PooledConnectionContext]: acquire, run the body, release. *)
Definition with_connection (p : pool) (start : Z) (owner : str) (clock : list Z) (body : pool -> pool) (stop : Z) : pool * res nat :=
  match acquire p start owner clock with
  | (p1, Ok id) => (release (body p1) stop id, Ok id)
  | (p1, Raise e) => (p1, Raise e)
  end.

(** A run of the pool.  [PAcquire] is a call of [acquire] with no other call between its
    turns; [PTry] and [PTimeout] are a turn and the end of a call, so that other threads may
    run between the turns. *)
Inductive pool_op :=
  | PTry (now : Z) (owner : str)
  | PTimeout
  | PAcquire (start : Z) (owner : str) (clock : list Z)
  | PRelease (now : Z) (id : nat)
  | PMaintain (now : Z)
  | PCloseAll.

Definition pool_step (p : pool) (op : pool_op) : pool :=
  match op with
  | PTry now owner => match acquire_try p now owner with Some (p', _) => p' | None => p end
  | PTimeout => with_conns p (connections p) 0 0 0 1
  | PAcquire start owner clock => (acquire p start owner clock).1
  | PRelease now id => release p now id
  | PMaintain now => maintain p now
  | PCloseAll => close_all p
  end.

(** ** Theorems on accounts *)

(** What an operation may do to an account that exists. *)
Definition step_allows (w : world) (op : auth_op) (name : str) (u u' : User) : Prop :=
  (u_role u' <> u_role u -> exists now salt i admin, op = OpResume now salt i /\ waiting w !! i = Some (TSetRole admin name (u_role u'))) /\
  (u_locked u = true -> u_locked u' = false -> exists now salt i admin, op = OpResume now salt i /\ waiting w !! i = Some (TUnlock admin name)) /\
  (u_hash u' <> u_hash u -> exists now salt i pw, op = OpResume now salt i /\ waiting w !! i = Some (TChange name pw)).

(** Whether the password is the account's, for accounts that exist and passwords that can be
    encoded. *)
Definition password_is (derive : bytes -> bytes -> bytes) (a : auth) (name pw : str) : option bool :=
  match users a !! name, utf8_encode pw with
  | Some u, Ok b => Some (bool_decide (derive b (u_salt u) = u_hash u))
  | _, _ => None
  end.

(** The condition under which the first part of a call lets it go on. *)
Definition entitled (derive : bytes -> bytes -> bytes) (a : auth) (op : auth_op) (t : ticket) : Prop :=
  match t with
  | TChange name new => exists now old u, op = OpChange now name old new /\ users a !! name = Some u /\ u_locked u = false /\
      password_is derive a name old = Some true
  | TSetRole admin target role => op = OpSetRole admin target role /\ may_admin a admin = true
  | TUnlock admin target => op = OpUnlock admin target /\ may_admin a admin = true
  end.

(** The number of wrong passwords since the account was created, last logged in or was last
    unlocked, computed along a run without looking at the account's counter or lock.
    Passwords given while the number is at the limit are not tried. *)
Definition count_attempt (derive : bytes -> bytes -> bytes) (a : auth) (name pw : str) (n : nat) : nat :=
  match password_is derive a name pw with
  | Some ok => if Nat.leb MAX_LOGIN_ATTEMPTS n then n else if ok then 0%nat else S n
  | None => n
  end.

Definition count_step (derive : bytes -> bytes -> bytes) (name : str) (w : world) (op : auth_op) (n : nat) : nat :=
  match op with
  | OpLogin _ m pw | OpChange _ m pw _ => if bool_decide (m = name) then count_attempt derive (accounts w) name pw n else n
  | OpResume _ _ i =>
      match waiting w !! i with
      | Some (TUnlock _ m) => if bool_decide (m = name) then 0%nat else n
      | _ => n
      end
  | _ => n
  end.

Fixpoint failures (derive : bytes -> bytes -> bytes) (name : str) (w : world) (ops : list auth_op) (n : nat) : nat :=
  match ops with
  | [] => n
  | op :: ops => failures derive name (auth_step derive w op) ops (count_step derive name w op n)
  end.

(** The account's own records agree with the number [n]. *)
Definition counts (u : User) (n : nat) : Prop :=
  u_attempts u = n /\ u_locked u = Nat.leb MAX_LOGIN_ATTEMPTS n /\ (n <= MAX_LOGIN_ATTEMPTS)%nat.

(** The account after a password was given. *)
Definition logged (u : User) (now : Z) (ok : bool) : User :=
  if u_locked u then u
  else if ok then with_login u 0 false (Some now)
  else with_login u (S (u_attempts u)) (Nat.leb MAX_LOGIN_ATTEMPTS (S (u_attempts u))) (u_last_login u).

Lemma authenticate_effect derive a now name pw :
  users (authenticate derive a now name pw).1 =
    match users a !! name, password_is derive a name pw with
    | Some u, Some ok => <[name := logged u now ok]> (users a)
    | _, _ => users a
    end /\
  ((authenticate derive a now name pw).2 = Ok tt <->
   exists u, users a !! name = Some u /\ u_locked u = false /\ password_is derive a name pw = Some true).
Proof.
  assert (forall (x : res unit) (P : Prop), x <> Ok tt -> ~ P -> (x = Ok tt <-> P)) as Hno by (by split).
  unfold authenticate, password_is, verify_password, hash_password, logged. destruct (users a !! name) as [u|] eqn:Hu.
  2: { destruct (utf8_encode pw); (split; [done|]); (apply Hno; [by cbn [snd]|intros (v & ? & ? & ?); congruence]). }
  destruct (u_locked u) eqn:Hl.
  { split; [|apply Hno; [by cbn [snd]|intros (v & ? & ? & ?); congruence]]. destruct (utf8_encode pw); [|done]. by rewrite insert_id. }
  destruct (utf8_encode pw) as [b|]; cbn [mbind res_bind]; [|split; [done|]; apply Hno; [by cbn [snd]|intros (v & ? & ? & ?); congruence]].
  destruct (bool_decide (derive b (u_salt u) = u_hash u)); [split; [done|]; split; eauto|].
  destruct (Nat.leb MAX_LOGIN_ATTEMPTS (S (u_attempts u))); (split; [done|]); (apply Hno; [by cbn [snd]|intros (v & ? & ? & ?); congruence]).
Qed.

Lemma logged_same u now ok : u_role (logged u now ok) = u_role u /\ u_hash (logged u now ok) = u_hash u /\
  (u_locked u = true -> u_locked (logged u now ok) = true).
Proof. unfold logged. by destruct (u_locked u) eqn:?, ok; split_and!. Qed.

Lemma fresh_counts salt h role now : counts (mkUser salt h role now None 0 false) 0.
Proof. split; [done|]. split; [done|]. unfold MAX_LOGIN_ATTEMPTS. lia. Qed.

Lemma logged_counts u now ok n :
  counts u n -> counts (logged u now ok) (if Nat.leb MAX_LOGIN_ATTEMPTS n then n else if ok then 0%nat else S n).
Proof.
  intros (Ha & Hl & Hn). unfold logged. rewrite Hl, Ha. destruct (Nat.leb_spec MAX_LOGIN_ATTEMPTS n) as [H|H]; [split; [done|]; split; [by rewrite (proj2 (Nat.leb_le _ _) H)|done]|].
  destruct ok; (split; [done|]); (split; [done|]); unfold MAX_LOGIN_ATTEMPTS in *; lia.
Qed.

(** Evaluates an operation's result down to the account map. *)
Ltac acbn := cbn [fst snd users accounts waiting issue audit audit_with put_user].

Lemma accounts_issue w a r : accounts (issue w a r) = a.
Proof. by destruct r. Qed.

Lemma step_allows_keeps w op name u u' :
  u_role u' = u_role u -> u_hash u' = u_hash u -> (u_locked u = true -> u_locked u' = true) -> step_allows w op name u u'.
Proof. intros Hr Hh Hl. split; [by intros []|]. split; [|by intros []]. intros Hu. specialize (Hl Hu). congruence. Qed.

(** A password given for an account. *)
Lemma attempt_account derive w op a now name m pw u :
  a = accounts w -> users a !! name = Some u ->
  exists u', users (authenticate derive a now m pw).1 !! name = Some u' /\ step_allows w op name u u' /\
    forall n, counts u n -> counts u' (if bool_decide (m = name) then count_attempt derive a name pw n else n).
Proof.
  intros Ea Hu. destruct (authenticate_effect derive a now m pw) as [-> _]. case_bool_decide as Hm.
  - subst m. rewrite Hu. unfold count_attempt. destruct (password_is derive a name pw) as [ok|].
    + rewrite lookup_insert_eq. eexists. split; [done|]. split; [|intros n; apply logged_counts].
      by apply step_allows_keeps; apply logged_same.
    + exists u. split; [done|]. split; [by apply step_allows_keeps|done].
  - exists u. split; [|split; [by apply step_allows_keeps|done]].
    destruct (users a !! m), (password_is derive a m pw); rewrite ?lookup_insert_ne by done; done.
Qed.

(** The second part of a call. *)
Lemma resume_account derive w now salt i t name u :
  users (accounts w) !! name = Some u -> waiting w !! i = Some t ->
  exists u', users (resume derive (accounts w) now salt t).1 !! name = Some u' /\ step_allows w (OpResume now salt i) name u u' /\
    forall n, counts u n -> counts u' (match t with TUnlock _ m => if bool_decide (m = name) then 0%nat else n | _ => n end).
Proof.
  intros Hu Ht. destruct t as [m pw|ad m r|ad m]; cbn [resume]; (destruct (decide (m = name)) as [->|Hm]; [|rewrite ?bool_decide_false by done]).
  - unfold change_password_locked. rewrite Hu.
    destruct (Nat.ltb _ _), (hash_password derive pw salt); acbn; rewrite ?lookup_insert_eq; eexists; (split; [done|]);
      (split; [|by auto]); (split; [done|]); (split; [cbn; congruence|]); eauto 6.
  - exists u. split; [|split; [by apply step_allows_keeps|done]]. unfold change_password_locked.
    repeat case_match; acbn; by rewrite ?lookup_insert_ne by done.
  - unfold set_role_locked. rewrite Hu. acbn. rewrite lookup_insert_eq. eexists. split; [done|]. split; [|by auto].
    split; [eauto 6|]. split; [cbn; congruence|done].
  - exists u. split; [|split; [by apply step_allows_keeps|done]]. unfold set_role_locked.
    repeat case_match; acbn; by rewrite ?lookup_insert_ne by done.
  - unfold unlock_user_locked. rewrite Hu. acbn. rewrite lookup_insert_eq, bool_decide_true by done. eexists. split; [done|].
    split; [split; [done|split; [eauto 6|done]]|]. intros n _. split; [done|]. split; [done|]. unfold MAX_LOGIN_ATTEMPTS. lia.
  - exists u. split; [|split; [by apply step_allows_keeps|done]]. unfold unlock_user_locked.
    repeat case_match; acbn; by rewrite ?lookup_insert_ne by done.
Qed.

(** One operation against one account. *)
Lemma auth_step_account derive w op name u :
  users (accounts w) !! name = Some u ->
  exists u', users (accounts (auth_step derive w op)) !! name = Some u' /\ step_allows w op name u u' /\
    forall n, counts u n -> counts u' (count_step derive name w op n).
Proof.
  intros Hu. assert (Hsame : exists u', Some u = Some u' /\ step_allows w op name u u' /\ forall n, counts u n -> counts u' n)
    by (exists u; split; [done|]; split; [by apply step_allows_keeps|done]).
  destruct op as [now salt m pw r|now m pw|now m o pw|ad t r|ad t|now m p rs|now salt i]; cbn [auth_step count_step accounts].
  - unfold create_user. destruct (decide (m = name)) as [->|].
    + rewrite bool_decide_true by by rewrite Hu. acbn. by rewrite Hu.
    + repeat case_match; acbn; rewrite ?lookup_insert_ne by done; by rewrite Hu.
  - by apply attempt_account.
  - rewrite accounts_issue. replace ((change_password derive (accounts w) now m o pw).1) with ((authenticate derive (accounts w) now m o).1)
      by (unfold change_password; by destruct (authenticate _ _ _ _ _) as [? []]). by apply attempt_account.
  - rewrite accounts_issue. by rewrite Hu.
  - rewrite accounts_issue. by rewrite Hu.
  - unfold check_permission. repeat case_match; acbn; by rewrite Hu.
  - destruct (waiting w !! i) as [t|] eqn:Ht; [by apply resume_account|by rewrite Hu].
Qed.

(** Accounts only come into being open and without failures. *)
Lemma auth_step_fresh derive w op name :
  users (accounts w) !! name = None -> count_step derive name w op 0 = 0%nat /\
  match users (accounts (auth_step derive w op)) !! name with None => True | Some u => counts u 0 end.
Proof.
  intros Hu. assert (forall m pw, (if bool_decide (m = name) then count_attempt derive (accounts w) name pw 0 else 0%nat) = 0%nat) as Hz.
  { intros m pw. case_bool_decide; [|done]. unfold count_attempt, password_is. by rewrite Hu. }
  assert (forall now m pw, users (authenticate derive (accounts w) now m pw).1 !! name = None) as Hau.
  { intros now m pw. destruct (authenticate_effect derive (accounts w) now m pw) as [-> _].
    destruct (decide (m = name)) as [->|]; [by rewrite Hu|]. repeat case_match; rewrite ?lookup_insert_ne by done; done. }
  destruct op as [now salt m pw r|now m pw|now m o pw|ad t r|ad t|now m p rs|now salt i]; cbn [auth_step count_step accounts];
    rewrite ?accounts_issue, ?Hau, ?Hu.
  - split; [done|]. unfold create_user. destruct (bool_decide (is_Some (users (accounts w) !! m))), (Nat.ltb (length pw) 8), (hash_password derive pw salt); acbn; rewrite ?Hu; try done.
    destruct (decide (m = name)) as [->|]; [rewrite lookup_insert_eq; apply fresh_counts|by rewrite lookup_insert_ne, Hu].
  - by split; [apply Hz|].
  - split; [apply Hz|]. unfold change_password. pose proof (Hau now m o) as H. by destruct (authenticate _ _ _ _ _) as [? []]; cbn in *; rewrite H.
  - done.
  - done.
  - split; [done|]. unfold check_permission. destruct (users (accounts w) !! m) as [v|]; [destruct (has_permission v p)|]; acbn; by rewrite Hu.
  - destruct (waiting w !! i) as [t|]; [|by rewrite Hu]. split; [by destruct t; [| |case_bool_decide]|]. acbn.
    replace (users (resume derive (accounts w) now salt t).1 !! name) with (@None User); [done|].
    destruct t as [m pw|ad m r|ad m]; cbn [resume]; unfold change_password_locked, set_role_locked, unlock_user_locked;
      repeat case_match; acbn; try done; rewrite lookup_insert_ne by congruence; done.
Qed.

Lemma failures_counted derive name ops w n :
  match users (accounts w) !! name with None => n = 0%nat | Some u => counts u n end ->
  match users (accounts (fold_left (auth_step derive) ops w)) !! name with
  | None => failures derive name w ops n = 0%nat
  | Some u => counts u (failures derive name w ops n)
  end.
Proof.
  revert w n. induction ops as [|op ops IH]; intros w n Hn; [exact Hn|]. cbn [fold_left failures]. apply IH.
  destruct (users (accounts w) !! name) as [u|] eqn:Hu.
  - destruct (auth_step_account derive w op name u Hu) as (u' & -> & _ & Hc). by apply Hc.
  - subst n. destruct (auth_step_fresh derive w op name Hu) as [-> H]. cbn [count_step] in *. by destruct (users (accounts (auth_step derive w op)) !! name).
Qed.

Lemma issued w a r t : t ∈ waiting (issue w a r) -> t ∈ waiting w \/ r = Ok t.
Proof. destruct r; cbn; [|by left]. rewrite elem_of_app, list_elem_of_singleton. intros [?| ->]; auto. Qed.

(** Every waiting call was let through by its first part. *)
Lemma tickets_entitled derive w op t :
  t ∈ waiting (auth_step derive w op) -> t ∈ waiting w \/ entitled derive (accounts w) op t.
Proof.
  destruct op as [now salt m pw r|now m pw|now m o pw|ad u r|ad u|now m p rs|now salt i]; cbn [auth_step]; auto.
  - intros [?|He]%issued; [by left|right]. unfold change_password in He.
    destruct (authenticate_effect derive (accounts w) now m o) as [_ Hok]. destruct (authenticate _ _ _ _ _) as [a1 [[]|]]; [|done].
    injection He as <-. destruct (proj1 Hok eq_refl) as (v & ? & ? & ?). by exists now, o, v.
  - intros [?|He]%issued; [by left|right]. unfold set_role in He. destruct (may_admin (accounts w) ad) eqn:?; [|done]. by injection He as <-.
  - intros [?|He]%issued; [by left|right]. unfold unlock_user in He. destruct (may_admin (accounts w) ad) eqn:?; [|done]. by injection He as <-.
  - destruct (waiting w !! i); [|auto]. cbn. intros H. left. eapply elem_of_sublist; [exact H|]. apply sublist_delete.
Qed.

(** C24: in every run of the account manager, with the two parts of each call of
    [change_password], [set_role] and [unlock_user] interleaved with other calls in any way,
    an account's failure counter is the number of wrong passwords since its creation, last
    successful login or last unlock, and the account is locked exactly when that number has
    reached five.  A locked account has no permission and cannot log in, whatever the
    password.  One further operation keeps every account; it changes a role, reopens a locked
    account or replaces a password only as the second part of [set_role], [unlock_user] or
    [change_password]; and such a second part exists only if the first part found, at its own
    time, an open account with the ADMIN permission or the account open and the right password. *)
Theorem auth_lockout derive ops name u :
  let w := fold_left (auth_step derive) ops new_world in
  let n := failures derive name new_world ops 0 in
  users (accounts w) !! name = Some u ->
  (u_attempts u = n /\ u_locked u = Nat.leb MAX_LOGIN_ATTEMPTS n /\ (n <= MAX_LOGIN_ATTEMPTS)%nat) /\
  (u_locked u = true ->
   (forall p, has_permission u p = false) /\
   forall now pw, (authenticate derive (accounts w) now name pw).2 = Raise AuthErr /\
                  users (authenticate derive (accounts w) now name pw).1 = users (accounts w)) /\
  (forall op, exists u', users (accounts (auth_step derive w op)) !! name = Some u' /\ step_allows w op name u u') /\
  (forall op t, t ∈ waiting (auth_step derive w op) -> t ∈ waiting w \/ entitled derive (accounts w) op t).
Proof.
  intros w n Hu. split; [|split; [|split]].
  - pose proof (failures_counted derive name ops new_world 0 eq_refl) as H. fold w n in H. by rewrite Hu in H.
  - intros Hl. unfold has_permission, authenticate. by rewrite Hu, Hl.
  - intros op. destruct (auth_step_account derive w op name u Hu) as (u' & ? & ? & _). eauto.
  - intros op t. apply tickets_entitled.
Qed.

Lemma auth_lockout_witness :
  let derive := fun b s : bytes => b ++ s in
  let ops := [OpCreate 0 [1%N] (py "root") (py "password") SUPERUSER; OpCreate 0 [1%N] (py "ann") (py "password") READ_ONLY;
              OpLogin 1 (py "ann") (py "a"); OpLogin 2 (py "ann") (py "password"); OpLogin 3 (py "ann") (py "c");
              OpChange 4 (py "ann") (py "d") (py "new"); OpLogin 5 (py "ann") (py "e"); OpUnlock (py "root") (py "ann");
              OpLogin 6 (py "ann") (py "f"); OpLogin 7 (py "ann") (py "g")] in
  failures derive (py "ann") new_world ops 0 = 5%nat /\
  match users (accounts (fold_left (auth_step derive) ops new_world)) !! py "ann" with
  | Some u => u_attempts u = 5%nat /\ u_locked u = true
  | None => False
  end.
Proof.
  intros derive ops. assert (failures derive (py "ann") new_world ops 0 = 5%nat) as Hf by (vm_compute; reflexivity).
  split; [exact Hf|]. destruct (users _ !! py "ann") as [u|] eqn:Hu.
  - destruct (auth_lockout derive ops (py "ann") u Hu) as [[H1 [H2 _]] _]. rewrite Hf in H1, H2. exact (conj H1 H2).
  - vm_compute in Hu. discriminate Hu.
Defined.

(** A login succeeds exactly when the account exists, is open and the key derived from the
    password and the stored salt is the stored key; a user that was created with a password
    that can be encoded can log in with it. *)
Theorem auth_login_exact derive a now name pw :
  ((authenticate derive a now name pw).2 = Ok tt <->
   exists u b, users a !! name = Some u /\ u_locked u = false /\ utf8_encode pw = Ok b /\ derive b (u_salt u) = u_hash u) /\
  forall salt role later a', create_user derive a now salt name pw role = (a', Ok tt) ->
    (authenticate derive a' later name pw).2 = Ok tt.
Proof.
  assert (Hexact : forall a now, (authenticate derive a now name pw).2 = Ok tt <->
     exists u b, users a !! name = Some u /\ u_locked u = false /\ utf8_encode pw = Ok b /\ derive b (u_salt u) = u_hash u).
  { clear. intros a now. unfold authenticate, verify_password, hash_password. split.
    - repeat case_match; cbn; try done. intros _. destruct (utf8_encode pw) eqn:Hp; simplify_eq/=.
      case_bool_decide; simplify_eq. eauto 10.
    - intros (u & b & -> & -> & -> & He). cbn. by rewrite bool_decide_true. }
  split; [apply Hexact|]. intros salt role later a' Hc. apply Hexact. revert Hc. unfold create_user, hash_password.
  destruct (utf8_encode pw) as [b|] eqn:Hp; repeat case_match; intros; simplify_eq/=.
  eexists _, b. rewrite lookup_insert_eq. split; [done|]. cbn. done.
Qed.

(** ** Theorems on the pool *)

Record pool_inv (p : pool) : Prop := {
  pi_nodup : NoDup (conn_id <$> connections p);
  pi_ids : Forall (fun c => (conn_id c < next_id p)%nat) (connections p);
  pi_state : Forall (fun c => c_state c <> CLOSED /\ (c_state c = IN_USE <-> is_Some (c_owner c))) (connections p);
  pi_size : (length (connections p) <= max (min_size p) (max_size p))%nat;
  pi_count : stats_created p = (stats_destroyed p + length (connections p))%nat;
  pi_uses : (stats_released p + length (in_use p) <= stats_acquired p)%nat;
}.

Lemma find_idle_Some k cs i c :
  find_idle k cs = Some (i, c) -> exists pre post, cs = pre ++ c :: post /\ i = (k + length pre)%nat /\ c_state c = IDLE.
Proof.
  revert k. induction cs as [|d cs IH]; intros k; cbn; [done|]. unfold is_idle at 1. case_bool_decide.
  - intros [= <- <-]. exists [], cs. split; [done|]. split; [cbn; lia|done].
  - intros (pre & post & -> & -> & Hc)%IH. exists (d :: pre), post. split; [done|]. split; [cbn; lia|done].
Qed.

Lemma insert_middle (pre post : list conn) c c' : <[length pre := c']> (pre ++ c :: post) = pre ++ c' :: post.
Proof. rewrite insert_app_r_alt by done. by rewrite Nat.sub_diag. Qed.

Definition busy_of (cs : list conn) : list conn := filter (fun c => c_state c = IN_USE) cs.

Lemma in_use_eq p : in_use p = busy_of (connections p).
Proof. done. Qed.

Lemma busy_app cs ds : busy_of (cs ++ ds) = busy_of cs ++ busy_of ds.
Proof. apply list.filter_app. Qed.

Lemma busy_cons c cs : busy_of (c :: cs) = (if decide (c_state c = IN_USE) then [c] else []) ++ busy_of cs.
Proof. unfold busy_of. rewrite filter_cons. by case_decide. Qed.

Lemma busy_snoc cs c : c_state c = IN_USE -> busy_of (cs ++ [c]) ≡ₚ c :: busy_of cs.
Proof. intros Hc. rewrite busy_app, busy_cons, decide_True by done. apply Permutation_app_comm. Qed.

(** The shapes of the connection list that the operations build. *)
Definition list_inv (next : nat) (cs : list conn) : Prop :=
  NoDup (conn_id <$> cs) /\ Forall (fun c => (conn_id c < next)%nat) cs /\
  Forall (fun c => c_state c <> CLOSED /\ (c_state c = IN_USE <-> is_Some (c_owner c))) cs.

Lemma list_inv_app_new next cs c :
  list_inv next cs -> conn_id c = next -> c_state c <> CLOSED -> (c_state c = IN_USE <-> is_Some (c_owner c)) ->
  list_inv (S next) (cs ++ [c]).
Proof.
  intros (Hn & Hi & Hs) Hc H1 H2. split; [|split].
  - rewrite fmap_app. apply list.NoDup_app. split; [done|]. split; [|apply NoDup_singleton].
    intros x Hx Hx'. apply list_elem_of_singleton in Hx' as ->. apply list_elem_of_fmap in Hx as (d & Hd & Hin).
    rewrite list.Forall_forall in Hi. specialize (Hi d Hin). lia.
  - apply Forall_app. split; [eapply Forall_impl; [|exact Hi]; cbn; lia|]. constructor; [lia|constructor].
  - apply Forall_app. split; [done|]. by constructor; [|constructor].
Qed.

Lemma list_inv_sublist next cs ds : list_inv next cs -> ds `sublist_of` cs -> list_inv next ds.
Proof.
  intros (Hn & Hi & Hs) Hsub. split; [|split].
  - eapply sublist_NoDup; [done|]. by apply fmap_sublist.
  - rewrite list.Forall_forall in *. intros x Hx. eapply Hi, elem_of_sublist; done.
  - rewrite list.Forall_forall in *. intros x Hx. eapply Hs, elem_of_sublist; done.
Qed.

Lemma list_inv_replace next pre c c' post :
  list_inv next (pre ++ c :: post) -> conn_id c' = conn_id c -> c_state c' <> CLOSED ->
  (c_state c' = IN_USE <-> is_Some (c_owner c')) -> list_inv next (pre ++ c' :: post).
Proof.
  intros (Hn & Hi & Hs) Hc H1 H2. rewrite fmap_app, fmap_cons in Hn.
  rewrite Forall_app, list.Forall_cons in Hi. rewrite Forall_app, list.Forall_cons in Hs.
  split; [by rewrite fmap_app, fmap_cons, Hc|]. split; apply Forall_app; rewrite list.Forall_cons; rewrite ?Hc; tauto.
Qed.

Lemma pool_inv_list p : pool_inv p -> list_inv (next_id p) (connections p).
Proof. by intros []. Qed.

Ltac pool_mk := destruct_and?; constructor; cbn [connections next_id min_size max_size stats_created stats_destroyed
                  stats_released stats_acquired with_conns create_connection]; try done.

Ltac pool_count :=
  rewrite ?in_use_eq; cbn [connections with_conns create_connection]; rewrite ?busy_app, ?busy_cons, ?length_app;
  cbn [c_state length app busy_of filter list_filter]; rewrite ?decide_True, ?decide_False by done; rewrite ?length_app;
  cbn [length app]; try lia.

(** One turn of [acquire]: the new holder is added to the connections in use. *)
Lemma acquire_try_ok p now owner p' id :
  pool_inv p -> acquire_try p now owner = Some (p', id) ->
  pool_inv p' /\ exists c, conn_id c = id /\ c_owner c = Some owner /\ in_use p' ≡ₚ c :: in_use p.
Proof.
  intros Hp. pose proof (pool_inv_list _ Hp) as Hl. destruct Hp as [_ _ _ Hsz Hct Hus]. unfold acquire_try.
  destruct (find_idle 0 (connections p)) as [[i c]|] eqn:Hf.
  - apply find_idle_Some in Hf as (pre & post & Hcs & -> & Hc). rewrite (in_use_eq p), Hcs in *. rewrite length_app in *.
    rewrite !busy_app, busy_cons, decide_False in * by congruence. rewrite !length_app in *. cbn [app length] in *.
    cbn [Nat.add]. destruct (is_expired c now (max_lifetime p)); intros [= <- <-].
    + rewrite delete_middle. set (n := Conn _ IN_USE _ _ _ _).
      assert (list_inv (S (next_id p)) ((pre ++ post) ++ [n])) as Hl'.
      { apply list_inv_app_new; [|done|done|by cbn; split]. eapply list_inv_sublist; [done|].
        apply sublist_app; [done|]. by apply sublist_cons. }
      split; [|exists n; split; [done|]; split; [done|]; rewrite in_use_eq; cbn [connections with_conns create_connection];
               rewrite <- busy_app; by apply busy_snoc].
      destruct Hl' as (? & ? & ?). pool_mk; pool_count.
    + set (n := Conn _ IN_USE _ _ _ _). rewrite insert_middle.
      assert (list_inv (next_id p) (pre ++ n :: post)) as Hl' by (eapply list_inv_replace; [done|done|done|by cbn; split]).
      split; [|exists n; split; [done|]; split; [done|]; rewrite in_use_eq; cbn [connections with_conns];
               rewrite busy_app, busy_cons; cbn; by rewrite Permutation_middle].
      destruct Hl' as (? & ? & ?). pool_mk; pool_count.
  - destruct (Nat.ltb _ _) eqn:Hlt; [|done]. apply Nat.ltb_lt in Hlt. intros [= <- <-]. set (n := Conn _ IN_USE _ _ _ _).
    assert (list_inv (S (next_id p)) (connections p ++ [n])) as Hl' by (apply list_inv_app_new; [done|done|done|by cbn; split]).
    split; [|exists n; split; [done|]; split; [done|]; rewrite !in_use_eq; cbn [connections with_conns create_connection];
             by apply busy_snoc].
    destruct Hl' as (? & ? & ?). rewrite in_use_eq in Hus.
    pool_mk; pool_count.
Qed.

Lemma pool_inv_same p acq rel tmo :
  pool_inv p -> (rel = 0)%nat -> pool_inv (with_conns p (connections p) acq rel 0 tmo).
Proof. intros [Hn Hi Hs Hsz Hct Hus] ->. rewrite in_use_eq in Hus. pool_mk; pool_count. Qed.

Lemma acquire_loop_ok p deadline owner clock :
  pool_inv p ->
  pool_inv (acquire_loop p deadline owner clock).1 /\
  match acquire_loop p deadline owner clock with
  | (p', Ok id) => exists c, conn_id c = id /\ c_owner c = Some owner /\ in_use p' ≡ₚ c :: in_use p
  | (p', Raise e) => e = TimeoutError /\ connections p' = connections p
  end.
Proof.
  intros Hp. induction clock as [|now clock IH]; cbn [acquire_loop fst]; [split; [by apply pool_inv_same|done]|].
  destruct (now <? deadline); [|split; [by apply pool_inv_same|done]].
  destruct (acquire_try p now owner) as [[p' id]|] eqn:Ht; [|done]. by apply (acquire_try_ok p now).
Qed.

Lemma not_idle_busy next cs :
  list_inv next cs -> find_idle 0 cs = None -> busy_of cs = cs.
Proof.
  intros (_ & _ & Hs). generalize 0%nat. induction Hs as [|c cs [Hc _] _ IH]; intros k; [done|]. cbn [find_idle]. unfold is_idle.
  case_bool_decide; [done|]. intros Hf. rewrite busy_cons, (IH (S k)) by done. rewrite decide_True; [done|].
  by destruct (c_state c).
Qed.

Lemma acquire_try_live p now owner : pool_inv p -> (length (in_use p) < max_size p)%nat -> is_Some (acquire_try p now owner).
Proof.
  intros Hp Hlt. unfold acquire_try. destruct (find_idle 0 (connections p)) as [[i c]|] eqn:Hf; [case_match; eauto|].
  rewrite in_use_eq, (not_idle_busy _ _ (pool_inv_list _ Hp) Hf) in Hlt. apply Nat.ltb_lt in Hlt. rewrite Hlt. eauto.
Qed.

Lemma release_ok p now id :
  pool_inv p -> pool_inv (release p now id) /\
  ((exists c, conn_id c = id /\ in_use p ≡ₚ c :: in_use (release p now id)) \/
   release p now id = p /\ id ∉ conn_id <$> in_use p).
Proof.
  intros Hp. pose proof (pool_inv_list _ Hp) as Hl. unfold release.
  destruct (list_find _ (connections p)) as [[i c]|] eqn:Hf.
  - apply list_find_Some in Hf as (Hi & [Hid Hst] & _). apply list_elem_of_split_length in Hi as (pre & post & Hcs & ->).
    destruct Hp as [_ _ _ Hsz Hct Hus]. rewrite (in_use_eq p), Hcs, busy_app, busy_cons, decide_True in * by done.
    rewrite !length_app in *. cbn [app length] in *. rewrite insert_middle. set (n := Conn _ IDLE _ _ _ _).
    assert (list_inv (next_id p) (pre ++ n :: post)) as (? & ? & ?).
    { eapply list_inv_replace; [done|done|done|]. split; [done|by intros []]. }
    split; [pool_mk; pool_count|]. left. exists c. split; [done|]. pool_count. by rewrite <- Permutation_middle.
  - split; [done|]. right. split; [done|]. apply list_find_None in Hf. rewrite list.Forall_forall in Hf.
    intros (c & -> & Hc)%list_elem_of_fmap. apply list_elem_of_filter in Hc as [? ?]. by apply (Hf c).
Qed.

Lemma NoDup_fmap_inj (cs : list conn) c d : NoDup (conn_id <$> cs) -> c ∈ cs -> d ∈ cs -> conn_id c = conn_id d -> c = d.
Proof.
  intros Hn (i & Hi)%list_elem_of_lookup (j & Hj)%list_elem_of_lookup He.
  assert (i = j); [|by simplify_eq]. eapply NoDup_lookup; [exact Hn|by rewrite list_lookup_fmap, Hi|].
  by rewrite list_lookup_fmap, Hj, He.
Qed.

Lemma slice_to_elem {A} n (l : list A) x : x ∈ slice_to n l -> x ∈ l.
Proof. unfold slice_to. case_match; intros (i & Hi & _)%elem_of_take; by eapply list_elem_of_lookup_2. Qed.

Lemma filter_agree {A} (P Q : A -> Prop) `{forall x, Decision (P x)} `{forall x, Decision (Q x)} (l : list A) :
  (forall x, x ∈ l -> P x <-> Q x) -> filter P l = filter Q l.
Proof.
  induction l as [|x l IH]; intros Hl; [done|]. rewrite !filter_cons, IH by (intros; apply Hl; by constructor).
  destruct (Hl x ltac:(by constructor)). repeat case_decide; tauto.
Qed.

(** Maintenance closes idle connections only. *)
Lemma maintain_in_use p now : pool_inv p -> in_use (maintain p now) = in_use p.
Proof.
  intros Hp. unfold maintain. rewrite !in_use_eq. cbn [connections with_conns]. unfold busy_of.
  rewrite list_filter_filter. apply filter_agree. intros c Hc. split; [tauto|]. intros Hs. split; [done|].
  intros (d & Hd & Hin)%list_elem_of_In%in_map_iff. apply list_elem_of_In in Hin. apply list_elem_of_filter in Hin as [_ Hin%slice_to_elem].
  apply list_elem_of_filter in Hin as [Hi Hin]. apply bool_decide_eq_true in Hi.
  assert (c = d) by (eapply NoDup_fmap_inj; [apply Hp|done..]). congruence.
Qed.

Lemma pool_inv_maintain p now : pool_inv p -> pool_inv (maintain p now).
Proof.
  intros Hp. pose proof (maintain_in_use p now Hp) as Hu. pose proof (pool_inv_list _ Hp) as Hl.
  revert Hu. unfold maintain. set (kept := filter _ (connections p)). intros Hu.
  assert (kept `sublist_of` connections p) as Hsub by apply sublist_filter.
  pose proof (sublist_length _ _ Hsub). destruct (list_inv_sublist _ _ _ Hl Hsub) as (? & ? & ?).
  destruct Hp as [_ _ _ Hsz Hct Hus]. rewrite <- Hu in Hus. pool_mk; cbn [in_use connections with_conns] in *; lia.
Qed.

Lemma pool_inv_close p : pool_inv p -> pool_inv (close_all p).
Proof. intros [_ _ _ Hsz Hct Hus]. unfold close_all. pool_mk; try constructor; pool_count. Qed.

Lemma prewarm_ok n now p :
  (length (connections p) + n <= max (min_size p) (max_size p))%nat -> pool_inv p ->
  pool_inv (prewarm n now p) /\ min_size (prewarm n now p) = min_size p /\ max_size (prewarm n now p) = max_size p.
Proof.
  revert p. induction n as [|n IH]; intros p Hn Hp; [done|]. cbn [prewarm].
  destruct (IH (create_connection p (Conn (next_id p) IDLE now now 0 None))) as (Hi & -> & ->); [| |done].
  - cbn [connections create_connection min_size max_size]. rewrite length_app. cbn [length]. lia.
  - assert (list_inv (S (next_id p)) (connections p ++ [Conn (next_id p) IDLE now now 0 None])) as (? & ? & ?).
    { apply list_inv_app_new; [by apply pool_inv_list|done|done|]. split; [done|by intros []]. }
    destruct Hp as [_ _ _ Hsz Hct Hus]. rewrite in_use_eq in Hus. pool_mk; pool_count.
Qed.

Lemma pool_step_ok p op :
  pool_inv p -> pool_inv (pool_step p op) /\ min_size (pool_step p op) = min_size p /\ max_size (pool_step p op) = max_size p.
Proof.
  intros Hp. destruct op; cbn [pool_step].
  - destruct (acquire_try p now owner) as [[p' id]|] eqn:E; [|done]. split; [by eapply acquire_try_ok|].
    revert E. unfold acquire_try. repeat (case_match; simplify_eq); by intros [= <- _].
  - split; [by apply pool_inv_same|done].
  - split; [by apply acquire_loop_ok|]. unfold acquire. generalize (start + acquire_timeout p). intros d.
    induction clock as [|now clock IH]; cbn [acquire_loop]; [done|]. unfold acquire_try. by repeat (case_match; simplify_eq).
  - split; [by apply release_ok|]. unfold release. by repeat case_match.
  - split; [by apply pool_inv_maintain|done].
  - split; [by apply pool_inv_close|done].
Qed.

Lemma pool_run_ok ops p :
  pool_inv p -> pool_inv (fold_left pool_step ops p) /\ min_size (fold_left pool_step ops p) = min_size p /\
  max_size (fold_left pool_step ops p) = max_size p.
Proof.
  revert p. induction ops as [|op ops IH]; intros p Hp; [done|]. cbn [fold_left].
  destruct (pool_step_ok p op Hp) as (Hi & <- & <-). by apply IH.
Qed.

Lemma acquire_exclusive p start owner clock p' id :
  pool_inv p -> acquire p start owner clock = (p', Ok id) ->
  id ∉ conn_id <$> in_use p /\ exists c, conn_id c = id /\ c_owner c = Some owner /\ in_use p' ≡ₚ c :: in_use p.
Proof.
  intros Hp Ha. destruct (acquire_loop_ok p (start + acquire_timeout p) owner clock Hp) as [Hi Hm].
  unfold acquire in Ha. rewrite Ha in Hi, Hm. cbn in Hi. split; [|done]. destruct Hm as (c & <- & _ & Hperm).
  destruct Hi as [Hn _ _ _ _ _]. apply (sublist_NoDup (conn_id <$> in_use p')) in Hn; [|apply fmap_sublist, sublist_filter].
  rewrite Hperm, fmap_cons in Hn. by apply list.NoDup_cons in Hn as [? _].
Qed.

(** C25: in every run of acquire, release, maintenance and shutdown the pool holds at most
    [max min_size max_size] connections, with distinct ids, and its counters agree with them.
    (There is no lower bound: see [pool_maintenance_below_min].)  A connection that [acquire]
    hands out is held by nobody else, and it joins the ones in use; [acquire] fails only with a
    timeout and then changes no connection; it succeeds in its first turn while fewer than
    [max_size] are in use; [release] takes exactly the released connection out of use, and
    maintenance never closes one in use. *)
Theorem pool_exclusive mn mx timeout lifetime idle t0 ops :
  let p := fold_left pool_step ops (new_pool mn mx timeout lifetime idle t0) in
  pool_inv p /\ (length (connections p) <= max mn mx)%nat /\
  (forall start owner clock,
     match acquire p start owner clock with
     | (p', Ok id) => id ∉ conn_id <$> in_use p /\
                      exists c, conn_id c = id /\ c_owner c = Some owner /\ in_use p' ≡ₚ c :: in_use p
     | (p', Raise e) => e = TimeoutError /\ connections p' = connections p
     end) /\
  (forall start owner now clock, (length (in_use p) < mx)%nat -> now < start + acquire_timeout p ->
     exists p' id, acquire p start owner (now :: clock) = (p', Ok id)) /\
  (forall now id, id ∈ conn_id <$> in_use p -> exists c, conn_id c = id /\ in_use p ≡ₚ c :: in_use (release p now id)) /\
  (forall now, in_use (maintain p now) = in_use p).
Proof.
  assert (pool_inv (Pool mn mx timeout lifetime idle [] 1 0 0 0 0 0)) as H0 by (pool_mk; try constructor; pool_count).
  destruct (prewarm_ok mn t0 (Pool mn mx timeout lifetime idle [] 1 0 0 0 0 0) ltac:(cbn; lia) H0) as (H1 & Hmn & Hmx).
  destruct (pool_run_ok ops _ H1) as (Hp & Hmn' & Hmx'). rewrite Hmn in Hmn'. rewrite Hmx in Hmx'.
  change (prewarm mn t0 _) with (new_pool mn mx timeout lifetime idle t0) in *. intros p. fold p in Hp, Hmn', Hmx'.
  cbn [min_size max_size] in Hmn', Hmx'.
  split; [done|]. split; [rewrite <- Hmn', <- Hmx'; apply Hp|]. split; [|split; [|split]].
  - intros start owner clock. destruct (acquire p start owner clock) as [p' [id|e]] eqn:Ha;
      [by apply (acquire_exclusive p start owner clock)|].
    destruct (acquire_loop_ok p (start + acquire_timeout p) owner clock Hp) as [_ Hm]. unfold acquire in Ha. by rewrite Ha in Hm.
  - intros start owner now clock Hlt Hnow. unfold acquire. cbn [acquire_loop]. rewrite (proj2 (Z.ltb_lt _ _) Hnow).
    rewrite <- Hmx' in Hlt. destruct (acquire_try_live p now owner Hp Hlt) as [[p' id] ->]. eauto.
  - intros now id Hin. by destruct (release_ok p now id Hp) as [_ [?|[_ ?]]].
  - intros now. by apply maintain_in_use.
Qed.

(** Maintenance may leave fewer than [min_size] connections: with fewer idle ones than
    [min_size] the slice bound is negative. *)
Theorem pool_maintenance_below_min :
  let p := (acquire (new_pool 3 10 5 3600 600 0) 0 (py "w") [1]).1 in
  length (connections p) = 3%nat /\ length (connections (maintain p 1000)) = 2%nat.
Proof. by vm_compute. Qed.
