(* ===== verification/RateLimiter.v ===== *)
(** * Rate limiter: [litedb-python/auth_pool.py], class [RateLimiter]

    Python floats are rationals here, and every float operation rounds its exact result to
    53 significant bits, to the nearest and ties to even, as binary64 does.  The exponent is
    not bounded: overflow to infinity and underflow are not modelled.  Clock readings are
    inputs of the operations. *)

From Stdlib Require Import QArith Qround Qpower Lqa.
From S2P Require Import Prelude.

Local Open Scope Z_scope.

(** ** Rounding *)

(** [n / d] for [d > 0], rounded to the nearest integer, ties to even. *)
Definition round_div (n d : Z) : Z :=
  let q := n / d in
  let r := n mod d in
  if 2 * r <? d then q else if d <? 2 * r then q + 1 else if Z.even q then q else q + 1.

(** The exponent of the leading bit of [n / d]. *)
Definition exponent (n d : Z) : Z :=
  let e := Z.log2 (Z.abs n) - Z.log2 d in
  if d * 2 ^ Z.max e 0 <=? Z.abs n * 2 ^ Z.max (- e) 0 then e else e - 1.

Definition PRECISION : Z := 53.

(** The float nearest to [x]. *)
Definition fl (x : Q) : Q :=
  let n := Qnum x in
  let d := Zpos (Qden x) in
  let e := exponent n d - (PRECISION - 1) in
  (inject_Z (round_div (n * 2 ^ Z.max (- e) 0) (d * 2 ^ Z.max e 0)) * inject_Z (2 ^ Z.max e 0) / inject_Z (2 ^ Z.max (- e) 0))%Q.

Definition fadd (x y : Q) : Q := fl (x + y).
Definition fsub (x y : Q) : Q := fl (x - y).
Definition fmul (x y : Q) : Q := fl (x * y).

(** ** Token bucket *)

Record limiter := Limiter { rate : Q; capacity : Q; tokens : Q; last_refill : Q; allowed : nat; denied : nat }.

Definition new_limiter (r c now : Q) : limiter := Limiter r c c now 0 0.

Definition refill (l : limiter) (now : Q) : limiter :=
  let elapsed := fsub now (last_refill l) in
  let new_tokens := fmul elapsed (rate l) in
  let t := fadd (tokens l) new_tokens in
  Limiter (rate l) (capacity l) (if Qle_bool (capacity l) t then capacity l else t) now (allowed l) (denied l).

Definition allow (l : limiter) (now cost : Q) : limiter * bool :=
  let l1 := refill l now in
  if Qle_bool cost (tokens l1) then
    (Limiter (rate l1) (capacity l1) (fsub (tokens l1) cost) (last_refill l1) (S (allowed l1)) (denied l1), true)
  else (Limiter (rate l1) (capacity l1) (tokens l1) (last_refill l1) (allowed l1) (S (denied l1)), false).

Definition tokens_available (l : limiter) (now : Q) : limiter * Q := let l1 := refill l now in (l1, tokens l1).

(** The cost allowed by a sequence of requests (time, cost). *)
Fixpoint spend (l : limiter) (reqs : list (Q * Q)) : limiter * Q :=
  match reqs with
  | [] => (l, 0%Q)
  | (now, cost) :: reqs =>
      let '(l1, ok) := allow l now cost in
      let '(l2, total) := spend l1 reqs in
      (l2, if ok then (cost + total)%Q else total)
  end.

(** ** The rounding error *)

(** The unit roundoff. *)
Definition u : Q := 1 # 2 ^ 53.

Lemma round_div_error n d : 0 < d -> 2 * Z.abs (round_div n d * d - n) <= d.
Proof.
  intros Hd. unfold round_div. pose proof (Z.div_mod n d ltac:(lia)). pose proof (Z.mod_pos_bound n d Hd).
  destruct (Z.ltb_spec (2 * (n mod d)) d), (Z.ltb_spec d (2 * (n mod d))); [| | |destruct (Z.even _)]; nia.
Qed.

Lemma pow2_pos k : 0 < 2 ^ Z.max k 0.
Proof. apply Z.pow_pos_nonneg; lia. Qed.

(** [2 ^ k * d <= |n|], written without fractions. *)
Lemma exponent_bound n d : n <> 0 -> 0 < d ->
  d * 2 ^ Z.max (exponent n d) 0 <= Z.abs n * 2 ^ Z.max (- exponent n d) 0.
Proof.
  intros Hn Hd. unfold exponent. destruct (Z.leb_spec (d * 2 ^ Z.max (Z.log2 (Z.abs n) - Z.log2 d) 0)
    (Z.abs n * 2 ^ Z.max (- (Z.log2 (Z.abs n) - Z.log2 d)) 0)) as [H|_]; [done|].
  destruct (Z.log2_spec (Z.abs n)) as [Hln _]; [lia|]. destruct (Z.log2_spec d Hd) as [_ Hld].
  pose proof (Z.log2_nonneg (Z.abs n)). pose proof (Z.log2_nonneg d).
  set (a := Z.log2 (Z.abs n)) in *. set (b := Z.log2 d) in *. destruct (Z.le_gt_cases 1 (a - b)) as [Hab|Hab].
  - rewrite (Z.max_l (a - b - 1)), (Z.max_r (- (a - b - 1))) by lia. rewrite Z.pow_0_r, Z.mul_1_r.
    apply (Z.le_trans _ (2 ^ a)); [|done]. replace a with (Z.succ b + (a - b - 1)) at 2 by lia.
    rewrite Z.pow_add_r by lia. pose proof (Z.pow_pos_nonneg 2 (a - b - 1) ltac:(lia) ltac:(lia)). nia.
  - rewrite (Z.max_r (a - b - 1)), (Z.max_l (- (a - b - 1))) by lia. rewrite Z.pow_0_r, Z.mul_1_r.
    apply (Z.le_trans _ (2 ^ Z.succ b)); [lia|]. replace (Z.succ b) with (a + - (a - b - 1)) by lia.
    rewrite Z.pow_add_r by lia. pose proof (Z.pow_pos_nonneg 2 (- (a - b - 1)) ltac:(lia) ltac:(lia)). nia.
Qed.

(** The scaled quotient has at least 53 bits. *)
Lemma scaled_bound n d : n <> 0 -> 0 < d ->
  let e := exponent n d - (PRECISION - 1) in 2 ^ 52 * (d * 2 ^ Z.max e 0) <= Z.abs n * 2 ^ Z.max (- e) 0.
Proof.
  intros Hn Hd. pose proof (exponent_bound n d Hn Hd) as H. unfold PRECISION. set (k := exponent n d) in *. cbn zeta.
  destruct (Z.le_gt_cases 52 k) as [H1|H1]; [|destruct (Z.le_gt_cases 0 k) as [H2|H2]].
  - rewrite (Z.max_l (k - _)), (Z.max_r (- (k - _))) by lia. rewrite Z.max_l, Z.max_r in H by lia.
    replace k with (52 + (k - (53 - 1))) in H by lia. rewrite Z.pow_add_r in H by lia. lia.
  - rewrite (Z.max_r (k - _)), (Z.max_l (- (k - _))) by lia. rewrite Z.max_l, Z.max_r in H by lia.
    replace 52 with (k + - (k - (53 - 1))) at 1 by lia. rewrite Z.pow_add_r by lia.
    pose proof (Z.pow_pos_nonneg 2 (- (k - (53 - 1))) ltac:(lia) ltac:(lia)). nia.
  - rewrite (Z.max_r (k - _)), (Z.max_l (- (k - _))) by lia. rewrite Z.max_r, Z.max_l in H by lia.
    replace (- (k - (53 - 1))) with (52 + - k) by lia. rewrite Z.pow_add_r by lia. lia.
Qed.

(** Rounding a number that is not negative. *)
Lemma fl_bounds x : (0 <= x -> (1 - u) * x <= fl x /\ fl x <= (1 + u) * x)%Q.
Proof.
  intros Hx. destruct x as [n d]. unfold fl. cbn [Qnum Qden]. set (e := exponent n (Z.pos d) - (PRECISION - 1)).
  pose proof (pow2_pos e) as HP. pose proof (pow2_pos (- e)) as HQ.
  assert (0 <= n) as Hn by (unfold Qle in Hx; cbn in Hx; lia).
  set (P := 2 ^ Z.max e 0) in *. set (R := 2 ^ Z.max (- e) 0) in *.
  pose proof (round_div_error (n * R) (Z.pos d * P) ltac:(lia)) as Hr.
  set (m := round_div (n * R) (Z.pos d * P)) in *.
  assert (2 ^ 53 * Z.abs (m * (Z.pos d * P) - n * R) <= n * R) as He.
  { destruct (Z.eq_dec n 0) as [Hz|Hn0].
    { rewrite Hz, Z.mul_0_l, Z.sub_0_r, Z.abs_mul, (Z.abs_eq (Z.pos d * P)) in * by lia. assert (Z.abs m = 0) as -> by nia. lia. }
    pose proof (scaled_bound n (Z.pos d) Hn0 ltac:(lia)) as Hs. cbn zeta in Hs. fold e P R in Hs. lia. }
  assert (0 < inject_Z R)%Q as HRq by (unfold Qlt; cbn; lia).
  split; [apply Qle_shift_div_l; [done|]|apply Qle_shift_div_r; [done|]]; unfold u, Qle; cbn [Qnum Qden Qmult Qplus Qminus Qopp inject_Z]; lia.
Qed.

(** ** The budget *)

(** Request times do not go backwards and costs are not negative. *)
Fixpoint reqs_ok (t : Q) (reqs : list (Q * Q)) : Prop :=
  match reqs with
  | [] => True
  | (now, cost) :: reqs => (t <= now)%Q /\ (0 <= cost)%Q /\ reqs_ok now reqs
  end.

Fixpoint last_time (t : Q) (reqs : list (Q * Q)) : Q :=
  match reqs with [] => t | (now, _) :: reqs => last_time now reqs end.

Record bucket_ok (l : limiter) : Prop := {
  bo_rate : (0 <= rate l)%Q;
  bo_capacity : (0 <= capacity l)%Q;
  bo_tokens : (0 <= tokens l)%Q;
}.

(** How much a bound grows with one rounded operation, and shrinks. *)
Local Notation g := (1 + u)%Q.
Local Notation h := (1 - u)%Q.

Lemma u_range : (0 < u /\ u < 1)%Q.
Proof. by vm_compute. Qed.

Lemma scale k x y : (0 <= k -> x <= y -> k * x <= k * y)%Q.
Proof. intros Hk Hxy. rewrite !(Qmult_comm k). by apply Qmult_le_compat_r. Qed.

Lemma refilled l now :
  bucket_ok l -> (last_refill l <= now)%Q ->
  let d := (rate l * (now - last_refill l))%Q in
  (0 <= d /\ 0 <= tokens (refill l now) /\ tokens (refill l now) <= capacity l /\
   tokens (refill l now) <= g * (tokens l + g * g * d) /\
   forall c, c <= capacity l -> c <= h * (h * h * d) -> c <= tokens (refill l now))%Q.
Proof.
  intros [Hr Hc Ht] Hnow d. destruct u_range as [Hu0 Hu1]. unfold refill, fadd, fmul, fsub. cbn [tokens].
  set (el := (now - last_refill l)%Q) in *. assert (0 <= el)%Q as Hel by (unfold el; lra).
  destruct (fl_bounds el Hel) as [E1 E2]. set (fe := fl el) in *. assert (0 <= fe)%Q as Hfe by nra.
  assert (0 <= fe * rate l)%Q as Hn by nra. destruct (fl_bounds _ Hn) as [N1 N2]. set (nt := fl (fe * rate l)) in *.
  assert (0 <= nt)%Q as Hnt by nra. destruct (fl_bounds (tokens l + nt) ltac:(lra)) as [T1 T2]. set (t := fl (tokens l + nt)) in *.
  assert (0 <= d)%Q as Hd by (unfold d; nra).
  assert (fe * rate l <= g * d /\ h * d <= fe * rate l)%Q as [F1 F2].
  { pose proof (Qmult_le_compat_r _ _ (rate l) E1 Hr). pose proof (Qmult_le_compat_r _ _ (rate l) E2 Hr). unfold d. split; lra. }
  pose proof (scale g _ _ ltac:(lra) F1) as Hup. pose proof (scale h _ _ ltac:(lra) F2) as Hlo.
  assert (0 <= t)%Q as Ht0 by nra.
  destruct (Qle_bool (capacity l) t) eqn:Hcap.
  - apply Qle_bool_iff in Hcap. split_and!; auto; [lra|].
    apply (Qle_trans _ _ _ Hcap), (Qle_trans _ _ _ T2), scale; lra.
  - assert (~ (capacity l <= t)%Q) by (rewrite <- Qle_bool_iff; congruence). split_and!; auto; [lra|apply (Qle_trans _ _ _ T2), scale; lra|].
    intros c _ Hlc. apply (Qle_trans _ _ _ Hlc), (Qle_trans _ (h * (tokens l + nt))); [|done]. apply scale; lra.
Qed.

Lemma allowed_budget l now cost :
  bucket_ok l -> (last_refill l <= now)%Q -> (0 <= cost)%Q ->
  let l1 := refill l now in
  let '(l', ok) := allow l now cost in
  bucket_ok l' /\ rate l' = rate l /\ capacity l' = capacity l /\ last_refill l' = now /\
  (allowed l' + denied l' = S (allowed l + denied l))%nat /\
  (if ok then cost <= tokens l1 /\ tokens l' <= g * (tokens l1 - cost) else tokens l' == tokens l1)%Q.
Proof.
  intros Hok Hnow Hcost l1. destruct (refilled l now Hok Hnow) as (_ & H0 & _). destruct u_range. destruct Hok. fold l1 in H0. unfold allow. fold l1.
  destruct (Qle_bool cost (tokens l1)) eqn:Hc.
  - apply Qle_bool_iff in Hc. destruct (fl_bounds (tokens l1 - cost) ltac:(lra)) as [F1 F2].
    pose proof (scale h 0 (tokens l1 - cost) ltac:(lra) ltac:(lra)).
    split_and!; try done. constructor; cbn [tokens]; unfold fsub; try done; lra.
  - split_and!; try done; cbn; lia.
Qed.

(** The growth of the bound with each request. *)
Lemma growth_step n : (g ^ (2 * Z.of_nat (S n)) == g * g * g ^ (2 * Z.of_nat n))%Q.
Proof. replace (2 * Z.of_nat (S n)) with (2 + 2 * Z.of_nat n) by lia. rewrite Qpower_plus by (by vm_compute). reflexivity. Qed.

Lemma growth_ge1 n : (1 <= g ^ (2 * Z.of_nat n))%Q.
Proof.
  induction n as [|n IH]; [by vm_compute|]. rewrite growth_step. destruct u_range. apply (Qle_trans _ (g * g * 1)); [nra|]. apply scale; nra.
Qed.

(** One request against the budget of the rest: [p] is the growth over the rest, [b] and
    [b'] the refills before this request and after it. *)
Lemma budget_step p t t1 t' cost total b b' :
  (1 <= p -> 0 <= cost -> 0 <= b' -> 0 <= t1 -> t1 <= g * (t + b) -> t' <= g * (t1 - cost) -> total <= p * (t' + b') ->
   cost + total <= g * g * p * (t + (b + b')))%Q.
Proof.
  intros Hp Hc Hb' Ht1 H1 H2 H3. destruct u_range.
  assert (p * t' <= p * (g * (t1 - cost)))%Q by (apply scale; lra).
  assert (p * t1 <= p * (g * (t + b)))%Q by (apply scale; lra).
  assert (g * (p * t1) <= g * (p * (g * (t + b))))%Q by (apply scale; lra).
  assert (1 * b' <= g * g * b')%Q by (apply Qmult_le_compat_r; nra).
  assert (p * (1 * b') <= p * (g * g * b'))%Q by (apply scale; lra).
  assert (1 * cost <= p * g * cost)%Q by (apply Qmult_le_compat_r; nra).
  lra.
Qed.

Lemma spend_budget reqs l :
  bucket_ok l -> reqs_ok (last_refill l) reqs ->
  let '(l', total) := spend l reqs in
  bucket_ok l' /\ rate l' = rate l /\ capacity l' = capacity l /\ last_refill l' = last_time (last_refill l) reqs /\
  (last_refill l <= last_refill l')%Q /\ (allowed l' + denied l' = allowed l + denied l + length reqs)%nat /\
  (total <= g ^ (2 * Z.of_nat (length reqs)) * (tokens l + g * g * (rate l * (last_refill l' - last_refill l))))%Q.
Proof.
  revert l. induction reqs as [|[now cost] reqs IH]; intros l Hl Hok; cbn [spend last_time].
  - split_and!; try done; [apply Qle_refl| ]. destruct Hl as [_ _ Ht]. change (g ^ (2 * Z.of_nat (length [])))%Q with 1%Q. lra.
  - destruct Hok as (Hnow & Hcost & Hok). pose proof (allowed_budget l now cost Hl Hnow Hcost) as Ha.
    destruct (refilled l now Hl Hnow) as (Hd & H0 & _ & H1 & _).
    destruct (allow l now cost) as [l1 ok]. destruct Ha as (Hl1 & Hrate & Hcap & Hlast & Hcnt & Hb).
    specialize (IH l1 Hl1). rewrite Hlast in IH. specialize (IH Hok). destruct (spend l1 reqs) as [l2 total].
    destruct IH as (Hl2 & Hr2 & Hc2 & Hlast2 & Hmono & Hcnt2 & Htot). rewrite Hrate in Htot.
    split_and!; try congruence; [lra|cbn [length]; lia|]. cbn [length]. rewrite growth_step.
    set (p := (g ^ (2 * Z.of_nat (length reqs)))%Q) in *. assert (1 <= p)%Q as Hp by apply growth_ge1.
    set (b := (g * g * (rate l * (now - last_refill l)))%Q) in *. set (b' := (g * g * (rate l * (last_refill l2 - now)))%Q) in *.
    assert (0 <= b')%Q as Hb' by (destruct Hl, u_range; unfold b'; apply Qmult_le_0_compat; nra).
    assert (g * g * (rate l * (last_refill l2 - last_refill l)) == b + b')%Q as -> by (unfold b, b'; ring).
    destruct ok.
    + destruct Hb as [Hle Ht']. by apply (budget_step p _ (tokens (refill l now)) (tokens l1)).
    + apply (Qle_trans _ (0 + total)); [lra|]. apply (budget_step p _ (tokens (refill l now)) (tokens l1)); try done; destruct u_range; nra.
Qed.

(** C26: take a clock that does not go backwards and costs that are not negative.  The bucket
    is never negative and, when a request is decided, never above the capacity; each request
    is allowed or denied.  The total cost that [n] requests are allowed is at most the
    capacity plus the refill of the elapsed time, up to the rounding of the float operations:
    a factor [1 + 2^-53] twice per request, and twice for the refill.  And a request for at
    most the capacity is allowed once the refill since the last request covers it, up to
    three roundings. *)
Theorem rate_limit_bound r cap t0 reqs :
  (0 <= r)%Q -> (0 <= cap)%Q -> reqs_ok t0 reqs ->
  let '(l, total) := spend (new_limiter r cap t0) reqs in
  let n := length reqs in
  let t := last_time t0 reqs in
  (0 <= tokens l)%Q /\ (allowed l + denied l = n)%nat /\
  (total <= (1 + u) ^ (2 * Z.of_nat n) * (cap + (1 + u) * (1 + u) * (r * (t - t0))))%Q /\
  (forall now, (t <= now)%Q -> (0 <= tokens (refill l now))%Q /\ (tokens (refill l now) <= cap)%Q) /\
  (forall now cost, (t <= now)%Q -> (cost <= cap)%Q -> (cost <= (1 - u) * ((1 - u) * (1 - u) * (r * (now - t))))%Q -> (allow l now cost).2 = true).
Proof.
  intros Hr Hc Hok. pose proof (spend_budget reqs (new_limiter r cap t0) (Build_bucket_ok (new_limiter r cap t0) Hr Hc Hc) Hok) as H.
  destruct (spend (new_limiter r cap t0) reqs) as [l total]. cbn [rate capacity tokens last_refill allowed denied new_limiter] in H.
  destruct H as (Hl & Hrl & Hcl & Hlast & _ & Hcnt & Htot). cbn zeta. rewrite <- Hlast. split_and!; [apply Hl|done|done| |].
  - intros now Hnow. destruct (refilled l now Hl Hnow) as (_ & ? & ? & _). by rewrite <- Hcl.
  - intros now cost Hnow Hcc Hcost. destruct (refilled l now Hl Hnow) as (_ & _ & _ & _ & Hlive). rewrite Hrl, Hcl in Hlive.
    unfold allow. by rewrite (proj2 (Qle_bool_iff _ _) (Hlive cost Hcc Hcost)).
Qed.

Lemma rate_limit_bound_witness :
  let reqs := [(0, 2); (1, 1); (1, 1); (3, 2)]%Q in
  (snd (spend (new_limiter 1 2 0) reqs) == 5)%Q /\
  (snd (spend (new_limiter 1 2 0) reqs) <= (1 + u) ^ 8 * (2 + (1 + u) * (1 + u) * (1 * (3 - 0))))%Q.
Proof.
  intros reqs. split; [vm_compute; reflexivity|].
  assert (reqs_ok 0 reqs) as Hok by (vm_compute; repeat split; discriminate).
  pose proof (rate_limit_bound 1 2 0 reqs ltac:(vm_compute; discriminate) ltac:(vm_compute; discriminate) Hok) as H.
  destruct (spend (new_limiter 1 2 0) reqs). exact (proj1 (proj2 (proj2 H))).
Defined.
