(* ===== verification/ShardStore.v ===== *)
(** * Shard storage, shard replicas and the coordinator's log:
    [litedb-python/hlc.py], [shard_store.py], [shard_replica.py], [txn_log.py]

    [ShardStore] is the state machine that Raft drives on every replica, over any
    [StorageEngine] of [Storage.v], with the version keys of [Mvcc.v].  Prepared
    transactions are kept twice: in memory and as intent keys of the engine.

    [ShardReplica] adds the leader's checks.  Its Raft group is seen through its contract:
    a proposal joins a queue, and a wait for it either sees the queue applied in order or
    ends without knowing.  Role changes, clock readings and the outcomes of waits are
    inputs of the operations.

    [TxnLog] is a directory of files. *)

From S2P Require Import Prelude PyStd Storage Json Mvcc.

Local Open Scope Z_scope.

(** ** [HLC]: a clock is its last timestamp; [wall] is the reading of the system clock. *)

Definition hlc_now (last wall : Z) : Z := if last <? wall then wall else last + 1.

Definition hlc_update (last remote wall : Z) : Z := Z.max (Z.max (last + 1) (remote + 1)) wall.

(** ** [ShardStore] *)

Definition INTENT_PREFIX : str := [0%N] ++ py "__intent__" ++ [0%N].

Definition intent_key (txn_id : str) : str := INTENT_PREFIX ++ txn_id.

Definition is_intent (k : str) : bool := take (length INTENT_PREFIX) k =s? INTENT_PREFIX.

(** The writes of a transaction: a user key and its value, or [None] for a deletion. *)
Abbreviation wlist := (list (str * option str)) (only parsing).

(** [json.dumps({"commit_ts": commit_ts, "writes": writes})]. *)
Definition write_json (kv : str * option str) : json :=
  JArr [JStr kv.1; match kv.2 with Some v => JStr v | None => JNull end].
Definition intent_value (commit_ts : Z) (ws : wlist) : json :=
  JObj [(py "commit_ts", JInt commit_ts); (py "writes", JArr (map write_json ws))].
Definition intent_json (commit_ts : Z) (ws : wlist) : str := dumps (intent_value commit_ts ws).

Definition read_write (j : json) : res (str * option str) :=
  match j with
  | JArr [JStr k; JStr v] => Ok (k, Some v)
  | JArr [JStr k; JNull] => Ok (k, None)
  | _ => Raise TypeError
  end.

Fixpoint read_writes (l : list json) : res wlist :=
  match l with
  | [] => Ok []
  | j :: l => w ← read_write j; ws ← read_writes l; Ok (w :: ws)
  end.

(** [rec["commit_ts"], rec["writes"]] of a loaded record. *)
Definition read_intent (j : json) : res (Z * wlist) :=
  match j with
  | JObj l =>
      match dict_get l (py "commit_ts"), dict_get l (py "writes") with
      | Some (JInt ts), Some (JArr ws) => ws ← read_writes ws; Ok (ts, ws)
      | Some _, Some _ => Raise TypeError
      | _, _ => Raise KeyError
      end
  | _ => Raise TypeError
  end.

Inductive command :=
  | Noop
  | Config
  | Prepare (txn_id : str) (commit_ts : Z) (ws : wlist)
  | Commit (txn_id : str)
  | Abort (txn_id : str)
  | Write (ts : Z) (ws : wlist).

(** [TOMBSTONE if v is None else v]. *)
Definition stored (v : option str) : str := match v with None => TOMBSTONE | Some v => v end.

Definition versioned (ts : Z) (ws : wlist) : list (str * str) := map (fun kv => (version_key kv.1 ts, stored kv.2)) ws.

Section shard.
Context {E : Type} `{StorageEngine E}.

Record shard := Shard { s_engine : E; intents : list (str * (Z * wlist)); s_last_ts : Z }.

Fixpoint recover_loop (l : list (str * str)) (d : list (str * (Z * wlist))) : res (list (str * (Z * wlist))) :=
  match l with
  | [] => Ok d
  | (k, v) :: l =>
      j ← loads v;
      i ← read_intent j;
      recover_loop l (dict_set d (drop (length INTENT_PREFIX) k) i)
  end.
Definition recover_intents (e : E) : res (list (str * (Z * wlist))) :=
  l ← e_scan e INTENT_PREFIX (INTENT_PREFIX ++ HI_CHAR); recover_loop l [].

Fixpoint shard_max_loop (l : list (str * str)) (mx : Z) : res Z :=
  match l with
  | [] => Ok mx
  | (k, _) :: l =>
      if is_intent k then shard_max_loop l mx
      else ts ← ts_from_version_key k; shard_max_loop l (if mx <? ts then ts else mx)
  end.
Definition shard_max_ts (e : E) : res Z := l ← e_scan e [] HI_CHAR; shard_max_loop l 0.

Definition open_shard (e : E) : res shard :=
  d ← recover_intents e;
  mx ← shard_max_ts e;
  Ok (Shard e d mx).

Definition bump (last ts : Z) : Z := if last <? ts then ts else last.

(** An error of the engine leaves the fields as they were set before the call. *)
Definition apply (s : shard) (c : command) : shard * res unit :=
  match c with
  | Noop | Config => (s, Ok tt)
  | Prepare txn ts ws =>
      match e_set (s_engine s) (intent_key txn) (intent_json ts ws) with
      | Ok e' => (Shard e' (dict_set (intents s) txn (ts, ws)) (s_last_ts s), Ok tt)
      | Raise x => (s, Raise x)
      end
  | Commit txn =>
      let rest := dict_pop (intents s) txn in
      match dict_get (intents s) txn with
      | None =>
          match e_delete (s_engine s) (intent_key txn) with
          | Ok e' => (Shard e' rest (s_last_ts s), Ok tt)
          | Raise x => (Shard (s_engine s) rest (s_last_ts s), Raise x)
          end
      | Some (ts, ws) =>
          match e_write_batch (s_engine s) (puts (versioned ts ws) ++ [op_delete (intent_key txn)]) with
          | Ok e' => (Shard e' rest (bump (s_last_ts s) ts), Ok tt)
          | Raise x => (Shard (s_engine s) rest (s_last_ts s), Raise x)
          end
      end
  | Abort txn =>
      let rest := dict_pop (intents s) txn in
      match e_delete (s_engine s) (intent_key txn) with
      | Ok e' => (Shard e' rest (s_last_ts s), Ok tt)
      | Raise x => (Shard (s_engine s) rest (s_last_ts s), Raise x)
      end
  | Write ts ws =>
      match versioned ts ws with
      | [] => (Shard (s_engine s) (intents s) (bump (s_last_ts s) ts), Ok tt)
      | ops =>
          match e_write_batch (s_engine s) (puts ops) with
          | Ok e' => (Shard e' (intents s) (bump (s_last_ts s) ts), Ok tt)
          | Raise x => (s, Raise x)
          end
      end
  end.

Definition snapshot_ts (s : shard) : Z := s_last_ts s.

Definition holds_key (ws : wlist) (key : str) : bool := bool_decide (key ∈ ws.*1).

Fixpoint locker (d : list (str * (Z * wlist))) (key exclude : str) : option str :=
  match d with
  | [] => None
  | (txn, (_, ws)) :: d =>
      if txn =s? exclude then locker d key exclude
      else if holds_key ws key then Some txn
      else locker d key exclude
  end.
Definition intent_locking (s : shard) (key exclude : str) : option str := locker (intents s) key exclude.

Definition shard_read (s : shard) (key : str) (read_ts : Z) : res (option str) :=
  l ← e_scan (s_engine s) (version_key key read_ts) (key ++ SEP ++ HI16);
  match l with
  | [] => Ok None
  | (_, v) :: _ => Ok (live v)
  end.

Definition shard_scan (s : shard) (lo_user hi_user : str) (read_ts : Z) : res (list (str * str)) :=
  l ← e_scan (s_engine s) lo_user (hi_user ++ HI_CHAR); scan_loop read_ts l None false.

Definition shard_newest_ts (s : shard) (key : str) : res Z :=
  l ← e_scan (s_engine s) (key ++ SEP) (key ++ SEP ++ HI16);
  match l with
  | [] => Ok 0
  | (k, _) :: _ => ts_from_version_key k
  end.

Definition run_commands (s : shard) (cs : list command) : shard := fold_left (fun s c => (apply s c).1) cs s.

(** ** [ShardReplica] *)

(** The store, the hybrid clock, and the Raft group: role, readiness, known leader, and the
    proposals that are not applied yet. *)
Record replica := Replica {
  store : shard;
  hlc : Z;
  leader : bool;
  ready : bool;
  leader_id : option str;
  pending : list command;
}.

(** What the surroundings decide during one operation: the system clock, whether the group
    still leads when the proposal is made, and whether it is applied before the timeout. *)
Record env := Env { wall : Z; still_leader : bool; in_time : bool }.

Inductive reply :=
  | NotLeader (hint : option (option str))
  | NotReady
  | Conflict (key : str)
  | Locked (key by_txn : str)
  | Timeout
  | Done (commit_ts : option Z).

Definition applied (r : replica) (c : command) : replica :=
  Replica (run_commands (store r) (pending r ++ [c])) (hlc r) (leader r) (ready r) (leader_id r) [].

Definition queued (r : replica) (c : command) : replica :=
  Replica (store r) (hlc r) (leader r) (ready r) (leader_id r) (pending r ++ [c]).

Definition set_hlc (r : replica) (t : Z) : replica := Replica (store r) t (leader r) (ready r) (leader_id r) (pending r).

(** [propose] followed by [wait_commit]. *)
Definition propose_wait (r : replica) (n : env) (c : command) (ts : option Z) : replica * reply :=
  if negb (still_leader n) then (r, NotLeader None)
  else if in_time n then (applied r c, Done ts)
  else (queued r c, Timeout).

Fixpoint replica_conflicts (s : shard) (keys : list str) (read_ts : Z) (txn_id : str) : res (option reply) :=
  match keys with
  | [] => Ok None
  | key :: keys =>
      newest ← shard_newest_ts s key;
      if read_ts <? newest then Ok (Some (Conflict key))
      else match intent_locking s key txn_id with
           | Some by_txn => Ok (Some (Locked key by_txn))
           | None => replica_conflicts s keys read_ts txn_id
           end
  end.

Definition commit_write (r : replica) (n : env) (ws : wlist) (read_ts : option Z) : res (replica * reply) :=
  if negb (leader r) then Ok (r, NotLeader (Some (leader_id r)))
  else if negb (ready r) then Ok (r, NotReady)
  else
    let rts := match read_ts with Some t => t | None => snapshot_ts (store r) end in
    conflict ← replica_conflicts (store r) ws.*1 rts [];
    match conflict with
    | Some c => Ok (r, c)
    | None =>
        let commit_ts := match read_ts with
                         | Some _ => hlc_update (hlc r) rts (wall n)
                         | None => hlc_now (hlc r) (wall n)
                         end in
        Ok (propose_wait (set_hlc r commit_ts) n (Write commit_ts ws) (Some commit_ts))
    end.

Definition prepare (r : replica) (n : env) (txn_id : str) (ws : wlist) (read_ts commit_ts : Z) : res (replica * reply) :=
  if negb (leader r) then Ok (r, NotLeader (Some (leader_id r)))
  else if negb (ready r) then Ok (r, NotReady)
  else
    conflict ← replica_conflicts (store r) ws.*1 read_ts txn_id;
    match conflict with
    | Some c => Ok (r, c)
    | None => Ok (propose_wait r n (Prepare txn_id commit_ts ws) None)
    end.

Definition commit_prepared (r : replica) (n : env) (txn_id : str) : replica * reply := propose_wait r n (Commit txn_id) None.
Definition abort_prepared (r : replica) (n : env) (txn_id : str) : replica * reply := propose_wait r n (Abort txn_id) None.

Definition replica_read (r : replica) (key : str) (read_ts : option Z) : res (option str) :=
  shard_read (store r) key (match read_ts with Some t => t | None => snapshot_ts (store r) end).

Definition replica_scan (r : replica) (lo hi : str) (read_ts : option Z) : res (list (str * str)) :=
  shard_scan (store r) lo hi (match read_ts with Some t => t | None => snapshot_ts (store r) end).

(** A run of a replica: its operations, and what happens to its group between them.  In
    [RSettle k cs] the first [k] of the proposals that timed out are applied after all, the
    others are replaced by the entries [cs] of another leader, and these are applied.  [RNow]
    is a reading of the node's clock for some other purpose. *)
Inductive replica_op :=
  | RWrite (n : env) (ws : wlist) (read_ts : option Z)
  | RPrepare (n : env) (txn_id : str) (ws : wlist) (read_ts commit_ts : Z)
  | RCommit (n : env) (txn_id : str)
  | RAbort (n : env) (txn_id : str)
  | RRole (is_leader is_ready : bool) (known : option str)
  | RSettle (k : nat) (cs : list command)
  | RNow (clock : Z).

(** An operation that raises leaves the replica as it is. *)
Definition keep (r : replica) (o : res (replica * reply)) : replica := match o with Ok (r', _) => r' | Raise _ => r end.

Definition replica_step (r : replica) (op : replica_op) : replica :=
  match op with
  | RWrite n ws rts => keep r (commit_write r n ws rts)
  | RPrepare n txn ws rts cts => keep r (prepare r n txn ws rts cts)
  | RCommit n txn => (commit_prepared r n txn).1
  | RAbort n txn => (abort_prepared r n txn).1
  | RRole l rd known => Replica (store r) (hlc r) l rd known (pending r)
  | RSettle k cs => Replica (run_commands (store r) (take k (pending r) ++ cs)) (hlc r) (leader r) (ready r) (leader_id r) []
  | RNow clock => set_hlc r (hlc_now (hlc r) clock)
  end.
End shard.
Arguments shard : clear implicits.
Arguments replica : clear implicits.

(** ** [TxnLog] *)

(** The directory: file name to text. *)
Abbreviation dir := (gmap str str) (only parsing).

Definition log_path (txn_id : str) : str := txn_id ++ py ".json".
Definition tmp_path (txn_id : str) : str := log_path txn_id ++ py ".tmp".

Definition log_write (d : dir) (txn_id : str) (record : json) : dir :=
  <[log_path txn_id := dumps record]> (base.delete (tmp_path txn_id) d).

(** A crash after [n] characters of the temporary file, before [os.replace]. *)
Definition log_write_crash (d : dir) (txn_id : str) (record : json) (n : nat) : dir :=
  <[tmp_path txn_id := take n (dumps record)]> d.

Definition log_remove (d : dir) (txn_id : str) : dir := base.delete (log_path txn_id) d.

Definition ends_with (suffix s : str) : bool := drop (length s - length suffix) s =s? suffix.

Fixpoint load_all (l : list (str * str)) : res (list json) :=
  match l with
  | [] => Ok []
  | (_, text) :: l => j ← loads text; js ← load_all l; Ok (j :: js)
  end.

Definition log_pending (d : dir) : res (list json) :=
  load_all (filter (fun kv => ends_with (py ".json") kv.1 = true) (sorted_items d)).

(** ** The abstract shard *)

(** Committed versions, prepared transactions and the newest timestamp. *)
Record spec := Spec { sp_versions : gmap str str; sp_intents : gmap str (Z * wlist); sp_last : Z }.

Definition spec_step (sp : spec) (c : command) : spec :=
  let '(Spec V J last) := sp in
  match c with
  | Noop | Config => sp
  | Prepare txn ts ws => Spec V (<[txn := (ts, ws)]> J) last
  | Commit txn =>
      match J !! txn with
      | None => sp
      | Some (ts, ws) => Spec (put_all (versioned ts ws) V) (base.delete txn J) (bump last ts)
      end
  | Abort txn => Spec V (base.delete txn J) last
  | Write ts ws => Spec (put_all (versioned ts ws) V) J (bump last ts)
  end.

(** User keys: not empty, without separator, below the scan sentinel, and encodable. *)
Definition user_key (uk : str) : Prop :=
  sep_free uk /\ (exists c t, uk = c :: t /\ (c < max_code_point)%N) /\ Forall (fun c => scalar c = true) uk.

Definition write_ok (ok : str -> str -> Prop) (ts : Z) (kv : str * option str) : Prop :=
  user_key kv.1 /\ (forall v, kv.2 = Some v -> Forall (fun c => scalar c = true) v) /\ ok (version_key kv.1 ts) (stored kv.2).

Definition writes_ok (ok : str -> str -> Prop) (ts : Z) (ws : wlist) : Prop :=
  1 <= ts <= MAX_TS /\ Forall (write_ok ok ts) ws.

Definition cmd_ok (ok : str -> str -> Prop) (c : command) : Prop :=
  match c with
  | Prepare txn ts ws => txn <=s HI_CHAR /\ writes_ok ok ts ws /\ ok (intent_key txn) (intent_json ts ws)
  | Write ts ws => writes_ok ok ts ws
  | _ => True
  end.

(** *** Keys of the two kinds *)

Lemma is_intent_key txn : is_intent (intent_key txn) = true.
Proof. unfold is_intent, intent_key. rewrite take_app_length. by apply bool_decide_eq_true. Qed.

Lemma drop_intent_key txn : drop (length INTENT_PREFIX) (intent_key txn) = txn.
Proof. apply drop_app_length. Qed.

Lemma is_intent_inv k : is_intent k = true -> k = intent_key (drop (length INTENT_PREFIX) k).
Proof.
  unfold is_intent, intent_key. intros Hk%bool_decide_eq_true.
  transitivity (take (length INTENT_PREFIX) k ++ drop (length INTENT_PREFIX) k); [by rewrite take_drop|by rewrite Hk].
Qed.

Lemma version_head uk t : user_key uk -> exists c r, version_key uk t = c :: r /\ (0 < c < max_code_point)%N.
Proof.
  intros (Hs & (c & r & -> & Hc) & _). apply Forall_cons_1 in Hs as [Hc0 _]. exists c. eexists. split; [done|]. lia.
Qed.

Lemma version_not_intent uk t : user_key uk -> is_intent (version_key uk t) = false.
Proof.
  intros Hu. destruct (version_head uk t Hu) as (c & r & -> & Hc). apply bool_decide_eq_false. intros Heq.
  change INTENT_PREFIX with (0%N :: (py "__intent__" ++ [0%N])) in Heq. cbn [length take] in Heq. injection Heq as -> _. lia.
Qed.

(** *** Intent records *)

Lemma writes_jok ok ts ws : Forall (write_ok ok ts) ws -> jok (JArr (map write_json ws)).
Proof.
  cbn [jok]. induction 1 as [|[k v] ws ((_ & _ & Hk) & Hv & _) _ IH]; cbn [map foldr]; [done|]. split; [|done].
  cbn in *. split; [done|]. split; [|done]. destruct v; [by apply Hv|done].
Qed.

Lemma read_writes_json ws : read_writes (map write_json ws) = Ok ws.
Proof. induction ws as [|[k [v|]] ws IH]; cbn [map read_writes]; [done| |]; cbn; by rewrite IH. Qed.

Lemma read_intent_json ok ts ws :
  Forall (write_ok ok ts) ws -> exists j, loads (intent_json ts ws) = Ok j /\ read_intent j = Ok (ts, ws).
Proof.
  intros Hws. exists (intent_value ts ws). unfold intent_json. rewrite json_roundtrip.
  - split; [done|]. unfold intent_value, read_intent.
    change (dict_get _ (py "commit_ts")) with (Some (JInt ts)).
    change (dict_get _ (py "writes")) with (Some (JArr (map write_json ws))). cbn iota. by rewrite read_writes_json.
  - split; [|split; [|split; [|done]]].
    + refine (bool_decide_unpack _ _). by vm_compute.
    + split; [by repeat constructor|done].
    + split; [by repeat constructor|]. by eapply writes_jok.
Qed.

(** *** The refinement *)

(** What the engine holds for an abstract shard. *)
Definition encode (V : gmap str str) (J : gmap str (Z * wlist)) (k : str) : option str :=
  if is_intent k then (fun i => intent_json i.1 i.2) <$> J !! drop (length INTENT_PREFIX) k else V !! k.

Record spec_ok (ok : str -> str -> Prop) (sp : spec) : Prop := {
  sk_versions : forall k v, sp_versions sp !! k = Some v -> exists uk t, k = version_key uk t /\ user_key uk /\ 1 <= t <= sp_last sp;
  sk_intents : map_Forall (fun txn i => txn <=s HI_CHAR /\ writes_ok ok i.1 i.2) (sp_intents sp);
  sk_last : 0 <= sp_last sp <= MAX_TS;
}.

Lemma put_all_encode (kvs : list (str * str)) (V : gmap str str) (J : gmap str (Z * wlist)) (M : gmap str str) :
  Forall (fun kv => is_intent kv.1 = false) kvs -> (forall k, M !! k = encode V J k) ->
  forall k, put_all kvs M !! k = encode (put_all kvs V) J k.
Proof.
  intros Hk. revert M V. induction Hk as [|[k0 v0] kvs Hk0 _ IH]; intros M V HM k; [apply HM|].
  change (put_all kvs (<[k0 := v0]> M) !! k = encode (put_all kvs (<[k0 := v0]> V)) J k). apply IH. clear k. intros k.
  cbn in Hk0. destruct (decide (k = k0)) as [->|Hne].
  - unfold encode. by rewrite Hk0, !lookup_insert_eq.
  - rewrite lookup_insert_ne, HM by done. unfold encode. case_match; [done|]. by rewrite lookup_insert_ne.
Qed.

Lemma insert_encode (txn : str) (i : Z * wlist) (V : gmap str str) (J : gmap str (Z * wlist)) (M : gmap str str) :
  (forall k, M !! k = encode V J k) -> forall k, <[intent_key txn := intent_json i.1 i.2]> M !! k = encode V (<[txn := i]> J) k.
Proof.
  intros HM k. destruct (decide (k = intent_key txn)) as [->|Hne].
  - unfold encode. by rewrite is_intent_key, drop_intent_key, !lookup_insert_eq.
  - rewrite lookup_insert_ne, HM by done. unfold encode. destruct (is_intent k) eqn:Hk; [|done].
    rewrite lookup_insert_ne; [done|]. intros ->. by apply is_intent_inv in Hk.
Qed.

Lemma delete_encode (txn : str) (V : gmap str str) (J : gmap str (Z * wlist)) (M : gmap str str) :
  (forall k, M !! k = encode V J k) -> forall k, base.delete (intent_key txn) M !! k = encode V (base.delete txn J) k.
Proof.
  intros HM k. destruct (decide (k = intent_key txn)) as [->|Hne].
  - unfold encode. by rewrite is_intent_key, drop_intent_key, !lookup_delete_eq.
  - rewrite lookup_delete_ne, HM by done. unfold encode. destruct (is_intent k) eqn:Hk; [|done].
    rewrite lookup_delete_ne; [done|]. intros ->. by apply is_intent_inv in Hk.
Qed.

Lemma Forall_versioned (P : str * str -> Prop) ts ws :
  Forall (fun kv => P (version_key kv.1 ts, stored kv.2)) ws -> Forall P (versioned ts ws).
Proof. unfold versioned. induction 1; cbn [map]; by constructor. Qed.

Lemma versioned_keys ok ts ws : writes_ok ok ts ws -> Forall (fun kv => is_intent kv.1 = false) (versioned ts ws).
Proof.
  intros [_ Hws]. apply Forall_versioned. eapply Forall_weaken; [exact Hws|]. intros kv [Hk _]. by apply version_not_intent.
Qed.

Lemma versioned_storable ok ts ws : writes_ok ok ts ws -> Forall (fun kv => ok kv.1 kv.2) (versioned ts ws).
Proof. intros [_ Hws]. apply Forall_versioned. eapply Forall_weaken; [exact Hws|]. by intros kv (_ & _ & ?). Qed.

Lemma put_all_inv (kvs : list (str * str)) (M : gmap str str) (k v : str) : put_all kvs M !! k = Some v -> M !! k = Some v \/ (k, v) ∈ kvs.
Proof.
  revert M. induction kvs as [|[k0 v0] kvs IH]; intros M; [by left|].
  change (put_all kvs (<[k0 := v0]> M) !! k = Some v -> M !! k = Some v \/ (k, v) ∈ (k0, v0) :: kvs).
  intros [Hk|Hk]%IH; [|right; by right]. apply lookup_insert_Some in Hk as [[-> ->]|[_ Hk]]; [right; left|by left].
Qed.

Lemma bump_ge last ts : last <= bump last ts /\ ts <= bump last ts.
Proof. unfold bump. destruct (Z.ltb_spec last ts); lia. Qed.

Lemma spec_ok_put (ok : str -> str -> Prop) (V : gmap str str) (J : gmap str (Z * wlist)) (last ts : Z) (ws : wlist) :
  writes_ok ok ts ws -> spec_ok ok (Spec V J last) -> spec_ok ok (Spec (put_all (versioned ts ws) V) J (bump last ts)).
Proof.
  intros [Hts Hws] [Hv Hi Hl]. cbn in *. pose proof (bump_ge last ts) as [Hb1 Hb2]. split; cbn; [|done|].
  - intros k v [Hk|Hk]%put_all_inv.
    + destruct (Hv k v Hk) as (uk & t & -> & Hu & Ht). exists uk, t. split; [done|]. split; [done|lia].
    + assert (Forall (fun kv => exists uk, kv.1 = version_key uk ts /\ user_key uk) (versioned ts ws)) as Hall.
      { apply Forall_versioned. eapply Forall_weaken; [exact Hws|]. intros kv [Hu _]. eauto. }
      rewrite list.Forall_forall in Hall. destruct (Hall _ Hk) as (uk & Huk & Hu). cbn in Huk. subst k. exists uk, ts. split; [done|]. split; [done|lia].
  - unfold bump. case_match; lia.
Qed.

Lemma spec_ok_step ok sp c : cmd_ok ok c -> spec_ok ok sp -> spec_ok ok (spec_step sp c).
Proof.
  destruct sp as [V J last]. intros Hc Hsp. destruct c as [| |txn ts ws|txn|txn|ts ws]; cbn [spec_step]; try done.
  - destruct Hc as (Ht & Hw & _), Hsp as [Hv Hi Hl]. split; [done| |done]. by apply map_Forall_insert_2.
  - destruct (J !! txn) as [[ts ws]|] eqn:Hj; [|done]. apply spec_ok_put; [by apply (sk_intents _ _ Hsp) in Hj as [_ ?]|].
    destruct Hsp as [Hv Hi Hl]. split; [done| |done]. by apply map_Forall_delete.
  - destruct Hsp as [Hv Hi Hl]. split; [done| |done]. by apply map_Forall_delete.
  - by apply spec_ok_put.
Qed.

Lemma foldl_puts (kvs : list (str * str)) (M : gmap str str) : foldl apply_op M (puts kvs) = put_all kvs M.
Proof. revert M. induction kvs as [|kv kvs IH]; intros M; [done|]. cbn. apply IH. Qed.

Section refine.
Context {E : Type} `{EngineDeletes E}.

Record represents (s : shard E) (sp : spec) : Prop := {
  rp_engine : e_inv (s_engine s);
  rp_contents : forall k, contents (s_engine s) !! k = encode (sp_versions sp) (sp_intents sp) k;
  rp_intents : forall txn, dict_get (intents s) txn = sp_intents sp !! txn;
  rp_nodup : NoDup (intents s).*1;
  rp_last : s_last_ts s = sp_last sp;
  rp_ok : spec_ok storable sp;
}.

Lemma represents_delete (s : shard E) (V : gmap str str) (J : gmap str (Z * wlist)) (last : Z) (txn : str) :
  represents s (Spec V J last) ->
  exists e', e_delete (s_engine s) (intent_key txn) = Ok e' /\
    represents (Shard e' (dict_pop (intents s) txn) (s_last_ts s)) (Spec V (base.delete txn J) last).
Proof.
  intros [He Hc Hi Hn Hl Hok]. cbn [s_engine intents s_last_ts sp_versions sp_intents sp_last fst snd] in *. destruct (law_delete (s_engine s) (intent_key txn) He) as (e' & Hd & He' & Hc').
  exists e'. split; [done|]. split; cbn [s_engine intents s_last_ts sp_versions sp_intents sp_last fst snd]; [done| | |by apply dict_pop_NoDup|done|].
  - intros k. rewrite Hc'. by apply delete_encode.
  - intros t. rewrite dict_get_pop by done. case_decide as Ht; subst; [by rewrite lookup_delete_eq|].
    by rewrite lookup_delete_ne.
  - apply (spec_ok_step _ _ (Abort txn) I Hok).
Qed.

(** One command. *)
Lemma apply_represents s sp c :
  represents s sp -> cmd_ok storable c -> exists s', apply s c = (s', Ok tt) /\ represents s' (spec_step sp c).
Proof.
  intros Hr Hc. pose proof (spec_ok_step _ _ _ Hc (rp_ok _ _ Hr)) as Hok'. destruct sp as [V J last].
  destruct c as [| |txn ts ws|txn|txn|ts ws]; cbn [apply spec_step] in *; [by exists s|by exists s| | | |].
  - destruct Hr as [He Hm Hi Hn Hl Hok], Hc as (_ & _ & Hst).
    destruct (law_set (s_engine s) _ _ He Hst) as (e' & -> & He' & Hc'). eexists. split; [done|].
    split; cbn [s_engine intents s_last_ts sp_versions sp_intents sp_last fst snd] in *; [done| | |by apply dict_set_NoDup|done|done].
    + intros k. rewrite Hc'. by apply (insert_encode txn (ts, ws)).
    + intros t. rewrite dict_get_set. case_decide; subst; [by rewrite lookup_insert_eq|by rewrite lookup_insert_ne].
  - rewrite (rp_intents _ _ Hr). cbn [sp_intents]. destruct (J !! txn) as [[ts ws]|] eqn:Hj.
    + pose proof (sk_intents _ _ (rp_ok _ _ Hr) _ _ Hj) as [_ Hw]. destruct Hr as [He Hm Hi Hn Hl Hok]. cbn [s_engine intents s_last_ts sp_versions sp_intents sp_last fst snd] in *.
      destruct (law_ops (s_engine s) (puts (versioned ts ws) ++ [op_delete (intent_key txn)]) He) as (e' & -> & He' & Hc').
      { apply Forall_app. split; [|by repeat constructor]. unfold puts. apply list.Forall_forall.
        intros op (kv & -> & Hkv)%list_elem_of_fmap. right. eexists. split; [done|].
        pose proof (versioned_storable _ _ _ Hw) as Hall. rewrite list.Forall_forall in Hall. by apply Hall. }
      eexists. split; [done|]. split; cbn [s_engine intents s_last_ts sp_versions sp_intents sp_last fst snd] in *; [done| | |by apply dict_pop_NoDup|by rewrite Hl|done].
      * intros k. rewrite Hc', foldl_app, foldl_puts. cbn [foldl]. change (apply_op ?m (op_delete ?k)) with (base.delete k m). apply delete_encode. intros k'.
        apply put_all_encode; [|done]. by eapply versioned_keys.
      * intros t. rewrite dict_get_pop by done. case_decide; subst; [by rewrite lookup_delete_eq|by rewrite lookup_delete_ne].
    + destruct (represents_delete s V J last txn Hr) as (e' & -> & Hr'). eexists. split; [done|].
      by rewrite delete_id in Hr' by done.
  - destruct (represents_delete s V J last txn Hr) as (e' & -> & Hr'). eauto.
  - pose proof (versioned_storable _ _ _ Hc) as Hst. pose proof (versioned_keys _ _ _ Hc) as Hk.
    destruct Hr as [He Hm Hi Hn Hl Hok]. cbn [s_engine intents s_last_ts sp_versions sp_intents sp_last fst snd] in *.
    destruct (law_batch (s_engine s) (versioned ts ws) He Hst) as (e' & Hb & He' & Hc').
    destruct (versioned ts ws) as [|kv kvs] eqn:Hvs.
    + eexists. split; [done|]. split; cbn [s_engine intents s_last_ts sp_versions sp_intents sp_last fst snd]; try done. by rewrite Hl.
    + rewrite Hb. eexists. split; [done|]. split; cbn [s_engine sp_versions sp_intents intents s_last_ts sp_last]; try done; [|by rewrite Hl].
      intros k. rewrite Hc'. by apply put_all_encode.
Qed.

(** *** Reads *)

Lemma newest_ext (M M' : gmap str str) uk ts o :
  (forall t, M !! version_key uk t = M' !! version_key uk t) -> newest M uk ts o -> newest M' uk ts o.
Proof.
  intros Hc. unfold newest. destruct o as [[t v]|].
  - rewrite Hc. intros (H1' & H2' & H3'). split; [done|]. split; [done|]. intros t' Ht'. rewrite <- Hc. auto.
  - intros Hn t' Ht'. rewrite <- Hc. auto.
Qed.

Lemma contents_version s sp uk t :
  represents s sp -> user_key uk -> contents (s_engine s) !! version_key uk t = sp_versions sp !! version_key uk t.
Proof. intros Hr Hu. rewrite (rp_contents _ _ Hr). unfold encode. by rewrite version_not_intent. Qed.

Lemma user_key_above_intent uk r k : user_key uk -> is_intent k = true -> uk ++ r <=s k -> False.
Proof.
  intros (Hs & (c & t & -> & _) & _) Hk%is_intent_inv Hle. apply Forall_cons_1 in Hs as [Hc _]. rewrite Hk in Hle.
  unfold str_le in Hle. change (intent_key ?x) with (0%N :: (py "__intent__" ++ [0%N]) ++ x) in Hle. cbn [app str_cmp] in Hle.
  destruct (N.compare_spec c 0); [lia|lia|done].
Qed.

Lemma represents_near s sp uk : represents s sp -> user_key uk -> versions_near (contents (s_engine s)) (sp_last sp) uk.
Proof.
  intros Hr Hu k v Hk Hlo _. rewrite (rp_contents _ _ Hr) in Hk. unfold encode in Hk. destruct (is_intent k) eqn:Hi.
  - exfalso. by eapply user_key_above_intent.
  - destruct (sk_versions _ _ (rp_ok _ _ Hr) k v Hk) as (uk' & t & -> & Hu' & Ht). exists uk', t. split; [done|]. split; [apply Hu'|done].
Qed.

Lemma newest_versions s sp uk ts o :
  represents s sp -> user_key uk -> newest (contents (s_engine s)) uk ts o <-> newest (sp_versions sp) uk ts o.
Proof.
  intros Hr Hu. pose proof (fun t => contents_version s sp uk t Hr Hu) as Hc. split; apply newest_ext; auto.
Qed.

Lemma shard_read_spec s sp uk ts :
  represents s sp -> user_key uk -> 0 <= ts <= MAX_TS ->
  exists o, newest (sp_versions sp) uk ts o /\ shard_read s uk ts = Ok (live_version o).
Proof.
  intros Hr Hu Hts. pose proof (represents_near s sp uk Hr Hu) as Hn. pose proof (sk_last _ _ (rp_ok _ _ Hr)) as Hl.
  destruct (first_version _ _ uk ts Hn ltac:(lia) (proj1 Hu) Hts) as (o & Ho & Hm). exists o.
  split; [by eapply newest_versions|]. unfold shard_read. rewrite law_scan by apply Hr. cbn [mbind res_bind].
  destruct (map_range _ _ _) as [|[k v] l]; [by subst|]. by destruct Hm as (t & -> & _).
Qed.

Lemma shard_newest_spec s sp uk :
  represents s sp -> user_key uk ->
  exists n, shard_newest_ts s uk = Ok n /\ 0 <= n <= sp_last sp /\
    forall t, 0 <= t <= MAX_TS -> is_Some (sp_versions sp !! version_key uk t) -> t <= n.
Proof.
  intros Hr Hu. pose proof (represents_near s sp uk Hr Hu) as Hn. pose proof (sk_last _ _ (rp_ok _ _ Hr)) as Hl.
  pose proof (latest_version _ _ uk Hn ltac:(lia) (proj1 Hu)) as Hv. unfold shard_newest_ts.
  rewrite law_scan by apply Hr. cbn [mbind res_bind].
  pose proof (fun t => contents_version s sp uk t Hr Hu) as Hc. destruct (map_range _ _ _) as [|[k v] l].
  - exists 0. split; [done|]. split; [lia|]. intros t Ht [v Hs]. rewrite <- Hc, Hv in Hs by done. done.
  - destruct Hv as (t & -> & Ht & _ & Hmax). exists t. rewrite version_key_ts by lia. split; [done|]. split; [lia|].
    intros t' Ht' Hs. apply Hmax; [done|]. by rewrite Hc.
Qed.

(** *** Recovery *)

Lemma recover_loop_spec (J : gmap str (Z * wlist)) l d :
  Forall (fun kv => exists txn i, kv = (intent_key txn, intent_json i.1 i.2) /\ J !! txn = Some i /\ writes_ok storable i.1 i.2) l ->
  NoDup d.*1 ->
  exists d', recover_loop l d = Ok d' /\ NoDup d'.*1 /\
    forall txn, dict_get d' txn = if decide (intent_key txn ∈ l.*1) then J !! txn else dict_get d txn.
Proof.
  intros Hl. revert d. induction Hl as [|kv l (txn & [ts ws] & -> & Hj & _ & Hw) _ IH]; intros d Hd; cbn [recover_loop].
  - exists d. split; [done|]. split; [done|]. intros txn. rewrite decide_False; [done|]. apply not_elem_of_nil.
  - cbn [fst snd] in *. destruct (read_intent_json _ ts ws Hw) as (j & -> & Hj'). cbn [mbind res_bind]. rewrite Hj'. cbn [mbind res_bind].
    rewrite drop_intent_key. destruct (IH (dict_set d txn (ts, ws)) (dict_set_NoDup _ _ _ Hd)) as (d' & -> & Hn & Hg).
    exists d'. split; [done|]. split; [done|]. intros t. rewrite Hg, dict_get_set, fmap_cons. cbn [fst].
    destruct (decide (t = txn)) as [->|Hne].
    + rewrite Hj. assert (intent_key txn ∈ intent_key txn :: l.*1) by left. repeat case_decide; done.
    + assert (intent_key t ∈ intent_key txn :: l.*1 <-> intent_key t ∈ l.*1) as Hiff.
      { rewrite elem_of_cons. split; [|by right]. intros [Hin|Hin]; [|done]. unfold intent_key in Hin. by apply app_inv_head in Hin. }
      repeat case_decide; tauto.
Qed.

Lemma shard_max_loop_spec last l mx :
  Forall (fun kv => is_intent kv.1 = true \/ exists uk t, kv.1 = version_key uk t /\ user_key uk /\ 1 <= t <= last) l ->
  last <= MAX_TS -> mx <= last ->
  exists m, shard_max_loop l mx = Ok m /\ mx <= m <= last /\
    (forall uk t, user_key uk -> 0 <= t <= MAX_TS -> version_key uk t ∈ l.*1 -> t <= m) /\
    (m = mx \/ exists uk, user_key uk /\ version_key uk m ∈ l.*1).
Proof.
  intros Hl Hlast. revert mx. induction Hl as [|[k v] l Hk _ IH]; intros mx Hmx; cbn [shard_max_loop].
  - exists mx. split; [done|]. split; [lia|]. split; [|by left]. intros uk t _ _ Hin. by apply not_elem_of_nil in Hin.
  - cbn [fst] in Hk. destruct (is_intent k) eqn:Hi.
    + destruct (IH mx Hmx) as (m & -> & Hm & Hall & Hex). exists m. split; [done|]. split; [done|]. rewrite fmap_cons. cbn [fst].
      split; [|destruct Hex as [?|(uk & ? & ?)]; [by left|right; exists uk; split; [done|by right]]].
      intros uk t Hu Ht [<-|Hin]%elem_of_cons; [|by eapply Hall]. by rewrite version_not_intent in Hi.
    + destruct Hk as [?|(uk0 & t0 & -> & Hu0 & Ht0)]; [done|]. rewrite version_key_ts by lia. cbn [mbind res_bind].
      destruct (IH (if mx <? t0 then t0 else mx)) as (m & -> & Hm & Hall & Hex); [case_match; lia|]. exists m. split; [done|].
      destruct (Z.ltb_spec mx t0); (split; [lia|]); rewrite fmap_cons; cbn [fst]; (split; [intros uk t Hu Ht [Heq|Hin]%elem_of_cons;
        [apply version_key_inj in Heq as [_ ->]; lia|by eapply Hall]|]); destruct Hex as [->|(uk & ? & ?)];
        try (by left); right; first [exists uk; split; [done|by right]|exists uk0; split; [done|by left]].
Qed.

Lemma represents_recover s sp :
  represents s sp -> exists s' m, open_shard (s_engine s) = Ok s' /\ 0 <= m <= sp_last sp /\
    represents s' (Spec (sp_versions sp) (sp_intents sp) m) /\
    (m = 0 \/ exists uk, user_key uk /\ is_Some (sp_versions sp !! version_key uk m)).
Proof.
  intros Hr. pose proof (rp_ok _ _ Hr) as [Hv Hi Hl]. pose proof (rp_contents _ _ Hr) as Hc. unfold open_shard, recover_intents, shard_max_ts.
  rewrite !law_scan by apply Hr. cbn [mbind res_bind].
  set (l1 := map_range _ INTENT_PREFIX _). set (l2 := map_range _ [] _).
  destruct (recover_loop_spec (sp_intents sp) l1 []) as (d & -> & Hd & Hg); [|constructor|].
  { apply list.Forall_forall. intros [k v] (Hk & Hlo & Hhi)%elem_of_map_range. rewrite Hc in Hk. unfold encode in Hk.
    destruct (is_intent k) eqn:Hik.
    - apply fmap_Some in Hk as (i & Hj & ->). apply is_intent_inv in Hik. exists (drop (length INTENT_PREFIX) k), i. split; [by rewrite <- Hik|].
      split; [done|]. by apply Hi in Hj as [_ ?].
    - exfalso. destruct (Hv k v Hk) as (uk & t & -> & Hu & _). destruct (version_head uk t Hu) as (c & r & E1 & Hc1).
      rewrite E1 in Hhi. unfold str_le in Hhi. change INTENT_PREFIX with (0%N :: py "__intent__" ++ [0%N]) in Hhi. cbn [app str_cmp] in Hhi.
      destruct (N.compare_spec c 0); [lia|lia|done]. }
  cbn [mbind res_bind].
  destruct (shard_max_loop_spec (sp_last sp) l2 0) as (m & -> & Hm & Hall & Hex); [|lia|lia|].
  { apply list.Forall_forall. intros [k v] (Hk & _ & _)%elem_of_map_range. rewrite Hc in Hk. unfold encode in Hk. cbn [fst].
    destruct (is_intent k); [by left|right]. by apply (Hv k v). }
  cbn [mbind res_bind]. exists (Shard (s_engine s) d m), m. split; [done|]. split; [lia|]. split.
  - split; cbn [s_engine intents s_last_ts sp_versions sp_intents sp_last]; [apply Hr|done| |done|done|].
    + intros txn. rewrite Hg. case_decide as Hin; [done|]. cbn [dict_get]. destruct (sp_intents sp !! txn) as [i|] eqn:Hj; [|done].
      exfalso. apply Hin. apply list_elem_of_fmap. exists (intent_key txn, intent_json i.1 i.2). split; [done|].
      apply elem_of_map_range. split; [rewrite Hc; unfold encode; by rewrite is_intent_key, drop_intent_key, Hj|].
      split; [apply str_le_prefix|]. unfold intent_key. apply str_le_app. by apply Hi in Hj as [? _].
    + split; cbn [sp_versions sp_intents sp_last]; [|done|lia]. intros k v Hk. destruct (Hv k v Hk) as (uk & t & -> & Hu & Ht).
      exists uk, t. split; [done|]. split; [done|]. split; [lia|]. eapply (Hall uk t Hu); [lia|]. apply list_elem_of_fmap.
      exists (version_key uk t, v). split; [done|]. apply elem_of_map_range. rewrite (contents_version s sp uk t Hr Hu).
      split; [done|]. split; [apply str_nil_le|]. destruct (version_head uk t Hu) as (c & r & -> & Hcc).
      unfold str_le, HI_CHAR, hi_char. cbn [str_cmp]. destruct (N.compare_spec c max_code_point); [lia|done|lia].
  - destruct Hex as [?|(uk & Hu & Hin)]; [by left|right]. exists uk. split; [done|].
    apply list_elem_of_fmap in Hin as ([k v] & Hkv & (Hk & _)%elem_of_map_range). cbn in Hkv. subst k.
    rewrite (contents_version s sp uk m Hr Hu) in Hk. eauto.
Qed.

(** A run of the state machine that stops at the first error. *)
Fixpoint apply_all (s : shard E) (cs : list command) : res (shard E) :=
  match cs with
  | [] => Ok s
  | c :: cs => let '(s', r) := apply s c in _ ← r; apply_all s' cs
  end.

Lemma apply_all_represents cs s sp :
  represents s sp -> Forall (cmd_ok storable) cs ->
  exists s', apply_all s cs = Ok s' /\ represents s' (fold_left spec_step cs sp).
Proof.
  intros Hr Hcs. revert s sp Hr. induction Hcs as [|c cs Hc _ IH]; intros s sp Hr; [by exists s|]. cbn [apply_all fold_left].
  destruct (apply_represents s sp c Hr Hc) as (s1 & -> & Hr1). cbn [mbind res_bind]. by apply IH.
Qed.

Lemma represents_empty e : e_inv e -> contents e = ∅ -> represents (Shard e [] 0) (Spec ∅ ∅ 0).
Proof.
  intros He Hc. split; cbn; [done| |done|constructor|done|].
  - intros k. rewrite Hc. unfold encode. rewrite !lookup_empty. by case_match.
  - split; cbn; [done|apply map_Forall_empty|unfold MAX_TS; lia].
Qed.
End refine.

(** C27: on every engine that obeys the storage laws, any sequence of commands from an empty
    store is applied without error and refines the abstract shard: a prepared transaction is
    only an intent, a commit turns exactly its writes into versions at its timestamp, an abort
    leaves nothing; and a read returns the newest committed version at its timestamp. *)
Theorem shard_refines {E} `{EngineDeletes E} (e : E) cs :
  e_inv e -> contents e = ∅ -> Forall (cmd_ok storable) cs ->
  let sp := fold_left spec_step cs (Spec ∅ ∅ 0) in
  exists s, apply_all (Shard e [] 0) cs = Ok s /\ represents s sp /\
    forall uk ts, user_key uk -> 0 <= ts <= MAX_TS ->
      exists o, newest (sp_versions sp) uk ts o /\ shard_read s uk ts = Ok (live_version o).
Proof.
  intros He Hc Hcs sp. destruct (apply_all_represents cs _ _ (represents_empty e He Hc) Hcs) as (s & Hs & Hr).
  exists s. split; [done|]. split; [done|]. intros uk ts Hu Hts. by apply shard_read_spec.
Qed.

(** C28: a replica that is reopened after any run finds exactly the prepared transactions it
    had, with their writes and timestamps, and the timestamp of its newest version. *)
Theorem shard_recovery {E} `{EngineDeletes E} (e : E) cs s :
  e_inv e -> contents e = ∅ -> Forall (cmd_ok storable) cs -> apply_all (Shard e [] 0) cs = Ok s ->
  let sp := fold_left spec_step cs (Spec ∅ ∅ 0) in
  exists s', open_shard (s_engine s) = Ok s' /\
    (forall txn, dict_get (intents s') txn = dict_get (intents s) txn) /\
    s_last_ts s' <= s_last_ts s /\ represents s' (Spec (sp_versions sp) (sp_intents sp) (s_last_ts s')) /\
    (s_last_ts s' = 0 \/ exists uk, user_key uk /\ is_Some (sp_versions sp !! version_key uk (s_last_ts s'))).
Proof.
  intros He Hc Hcs Ha sp. destruct (apply_all_represents cs _ _ (represents_empty e He Hc) Hcs) as (s1 & Hs & Hr).
  rewrite Ha in Hs. injection Hs as <-. fold sp in Hr. destruct (represents_recover s sp Hr) as (s' & m & Ho & Hm & Hr' & Hex).
  exists s'. split; [done|]. pose proof (rp_last _ _ Hr') as Hl. cbn in Hl. rewrite Hl, (rp_last _ _ Hr).
  split; [intros txn; by rewrite (rp_intents _ _ Hr'), (rp_intents _ _ Hr)|]. split; [lia|]. split; [done|done].
Qed.

(** ** Replicas *)

(** No key is held by two prepared transactions. *)
Definition exclusive (d : list (str * (Z * wlist))) : Prop :=
  forall t1 t2 i1 i2 k, dict_get d t1 = Some i1 -> dict_get d t2 = Some i2 -> t1 <> t2 -> k ∈ i1.2.*1 -> k ∈ i2.2.*1 -> False.

(** No wait of the operation times out. *)
Definition op_in_time (op : replica_op) : Prop :=
  match op with
  | RWrite n _ _ | RPrepare n _ _ _ _ | RCommit n _ | RAbort n _ => in_time n = true
  | RRole _ _ _ | RSettle _ _ | RNow _ => True
  end.

(** The prepares of another leader passed that leader's check for locks, which looked at the
    intents of the same applied entries. *)
Fixpoint entries_checked {E} `{StorageEngine E} (s : shard E) (cs : list command) : Prop :=
  match cs with
  | [] => True
  | c :: cs =>
      match c with Prepare txn _ ws => forall k, k ∈ ws.*1 -> intent_locking s k txn = None | _ => True end /\
      entries_checked (apply s c).1 cs
  end.

Fixpoint run_ok {E} `{StorageEngine E} (r : replica E) (ops : list replica_op) : Prop :=
  match ops with
  | [] => True
  | op :: ops =>
      op_in_time op /\
      match op with RSettle k cs => entries_checked (run_commands (store r) (take k (pending r))) cs | _ => True end /\
      run_ok (replica_step r op) ops
  end.

Lemma locker_None d key exclude txn i :
  locker d key exclude = None -> dict_get d txn = Some i -> txn <> exclude -> key ∈ i.2.*1 -> False.
Proof.
  induction d as [|[t [ts ws]] d IH]; cbn [locker dict_get]; [done|]. unfold holds_key.
  repeat case_bool_decide; subst; intros; simplify_eq; eauto.
Qed.

Lemma exclusive_pop d txn : NoDup d.*1 -> exclusive d -> exclusive (dict_pop d txn).
Proof.
  intros Hn Hd t1 t2 i1 i2 k. rewrite !dict_get_pop by done. repeat case_decide; try done. apply Hd.
Qed.

Lemma exclusive_set d txn ts (ws : wlist) :
  exclusive d -> (forall k, k ∈ ws.*1 -> locker d k txn = None) -> exclusive (dict_set d txn (ts, ws)).
Proof.
  intros Hd Hfree t1 t2 i1 i2 k. rewrite !dict_get_set.
  destruct (decide (t1 = txn)) as [E1|E1], (decide (t2 = txn)) as [E2|E2]; intros G1 G2 Hne K1 K2.
  - congruence.
  - injection G1 as <-. eapply (locker_None d k txn t2 i2); eauto.
  - injection G2 as <-. eapply (locker_None d k txn t1 i1); eauto.
  - by eapply (Hd t1 t2 i1 i2 k).
Qed.

Section replica_facts.
Context {E : Type} `{StorageEngine E}.

(** A check that finds no conflict finds no lock either. *)
Lemma conflicts_None (s : shard E) keys rts txn :
  replica_conflicts s keys rts txn = Ok None -> forall k, k ∈ keys ->
  locker (intents s) k txn = None /\ exists n, shard_newest_ts s k = Ok n /\ n <= rts.
Proof.
  induction keys as [|key keys IH]; cbn [replica_conflicts]; [intros _ k Hk; by apply not_elem_of_nil in Hk|].
  intros (n & Hn & Hr)%bind_ok k. destruct (Z.ltb_spec rts n); [done|]. unfold intent_locking in Hr.
  destruct (locker (intents s) key txn) eqn:Hl; [done|]. intros [->|Hk]%elem_of_cons; [eauto|auto].
Qed.

Lemma conflicts_Some (s : shard E) keys rts txn c :
  replica_conflicts s keys rts txn = Ok (Some c) -> forall ts, c <> Done ts.
Proof.
  induction keys as [|key keys IH]; cbn [replica_conflicts]; [done|]. intros (n & Hn & Hr)%bind_ok.
  repeat case_match; intros; simplify_eq; auto.
Qed.

Lemma apply_intents (s : shard E) c :
  intents (apply s c).1 = intents s \/ (exists txn, intents (apply s c).1 = dict_pop (intents s) txn) \/
  (exists txn ts ws, c = Prepare txn ts ws /\ intents (apply s c).1 = dict_set (intents s) txn (ts, ws)).
Proof. destruct c; cbn [apply]; repeat case_match; cbn; eauto 10. Qed.

Definition locks_ok (r : replica E) : Prop := pending r = [] /\ NoDup (intents (store r)).*1 /\ exclusive (intents (store r)).

Lemma exclusive_apply (s : shard E) c :
  NoDup (intents s).*1 -> exclusive (intents s) ->
  (forall txn cts ws, c = Prepare txn cts ws -> forall k, k ∈ ws.*1 -> locker (intents s) k txn = None) ->
  NoDup (intents (apply s c).1).*1 /\ exclusive (intents (apply s c).1).
Proof.
  intros Hn He Hfree. destruct (apply_intents s c) as [->|[(txn & ->)|(txn & cts & ws & -> & ->)]]; [done| |].
  - split; [by apply dict_pop_NoDup|by apply exclusive_pop].
  - split; [by apply dict_set_NoDup|]. apply exclusive_set; [done|]. by eapply Hfree.
Qed.

Lemma exclusive_entries cs (s : shard E) :
  NoDup (intents s).*1 -> exclusive (intents s) -> entries_checked s cs ->
  NoDup (intents (run_commands s cs)).*1 /\ exclusive (intents (run_commands s cs)).
Proof.
  revert s. induction cs as [|c cs IH]; intros s Hn He Hc; [done|]. destruct Hc as [Hc Hcs].
  destruct (exclusive_apply s c Hn He) as [Hn' He']; [|by apply IH]. intros txn cts ws ->. exact Hc.
Qed.

Lemma locks_ok_propose r n c ts :
  locks_ok r -> in_time n = true ->
  (forall txn cts ws, c = Prepare txn cts ws -> forall k, k ∈ ws.*1 -> locker (intents (store r)) k txn = None) ->
  locks_ok (propose_wait r n c ts).1.
Proof.
  intros (Hp & Hn & He) Ht Hfree. unfold propose_wait. rewrite Ht. destruct (still_leader n); cbn [negb fst]; [|done].
  unfold applied, locks_ok. rewrite Hp. cbn [pending store app run_commands fold_left]. split; [done|]. by apply exclusive_apply.
Qed.

Lemma locks_ok_step r op ops : locks_ok r -> run_ok r (op :: ops) -> locks_ok (replica_step r op).
Proof.
  intros Hr (Ht & Hs & _). destruct op as [n ws rts|n txn ws rts cts|n txn|n txn| |k cs|t]; cbn [replica_step op_in_time] in *.
  - unfold commit_write. destruct (negb (leader r)); [done|]. destruct (negb (ready r)); [done|].
    destruct (replica_conflicts _ _ _ _) as [[|]|]; cbn [mbind res_bind keep]; [done| |done].
    set (cts := match rts with Some _ => _ | None => _ end).
    pose proof (locks_ok_propose (set_hlc r cts) n (Write cts ws) (Some cts) Hr Ht) as Hx.
    destruct (propose_wait _ _ _ _). by apply Hx.
  - unfold prepare. destruct (negb (leader r)); [done|]. destruct (negb (ready r)); [done|].
    destruct (replica_conflicts (store r) ws.*1 rts txn) as [[|]|] eqn:Hc; cbn [mbind res_bind keep]; [done| |done].
    destruct (propose_wait r n (Prepare txn cts ws) None) as [r' rep] eqn:Hpw.
    pose proof (locks_ok_propose r n (Prepare txn cts ws) None Hr Ht) as Hx. rewrite Hpw in Hx. apply Hx.
    intros txn' cts' ws' [= <- <- <-] k Hk. by apply (conflicts_None _ _ _ _ Hc).
  - by apply locks_ok_propose.
  - by apply locks_ok_propose.
  - done.
  - destruct Hr as (Hp & Hn & He). rewrite Hp, take_nil in *. split; [done|]. by apply exclusive_entries.
  - done.
Qed.

Lemma commit_write_held r n ws rts txn i k :
  dict_get (intents (store r)) txn = Some i -> k ∈ i.2.*1 -> k ∈ ws.*1 -> txn <> [] ->
  forall r' ts, commit_write r n ws rts <> Ok (r', Done ts).
Proof.
  intros Hg Hk Hw Hne r' ts. unfold commit_write. destruct (negb (leader r)); [done|]. destruct (negb (ready r)); [done|].
  destruct (replica_conflicts _ _ _ _) as [[c|]|] eqn:Hc; cbn [mbind res_bind]; [| |done].
  - intros [= _ ->]. by eapply conflicts_Some.
  - intros _. destruct (conflicts_None _ _ _ _ Hc k Hw) as [Hl _]. by eapply locker_None.
Qed.

Lemma prepare_held r n txn' ws rts cts txn i k :
  dict_get (intents (store r)) txn = Some i -> k ∈ i.2.*1 -> k ∈ ws.*1 -> txn <> txn' ->
  forall r' ts, prepare r n txn' ws rts cts <> Ok (r', Done ts).
Proof.
  intros Hg Hk Hw Hne r' ts. unfold prepare. destruct (negb (leader r)); [done|]. destruct (negb (ready r)); [done|].
  destruct (replica_conflicts _ _ _ _) as [[c|]|] eqn:Hc; cbn [mbind res_bind]; [| |done].
  - intros [= _ ->]. by eapply conflicts_Some.
  - intros _. destruct (conflicts_None _ _ _ _ Hc k Hw) as [Hl _]. by eapply locker_None.
Qed.
End replica_facts.

(** C29: on a replica whose waits do not time out no key is ever held by two prepared
    transactions, over any engine and under any change of leadership, with the entries of
    other leaders applied in between, provided that their prepares passed the same check for
    locks; and while a transaction holds a key, neither a plain write of the key nor a prepare
    by another transaction is acknowledged. *)
Theorem replica_locks {E} `{StorageEngine E} (r0 : replica E) ops :
  intents (store r0) = [] -> pending r0 = [] -> run_ok r0 ops ->
  let r := fold_left replica_step ops r0 in
  exclusive (intents (store r)) /\
  forall txn i k, dict_get (intents (store r)) txn = Some i -> k ∈ i.2.*1 ->
    forall n ws, k ∈ ws.*1 ->
    (txn <> [] -> forall rts r' ts, commit_write r n ws rts <> Ok (r', Done ts)) /\
    (forall txn' rts cts r' ts, txn <> txn' -> prepare r n txn' ws rts cts <> Ok (r', Done ts)).
Proof.
  intros Hi Hp Hops r. split.
  - assert (locks_ok r0) as H0.
    { split; [done|]. rewrite Hi. split; [constructor|]. intros t1 t2 i1 i2 k. by cbn. }
    assert (forall r1, run_ok r1 ops -> locks_ok r1 -> locks_ok (fold_left replica_step ops r1)) as Hrun.
    { clear r H0 Hi Hp Hops. induction ops as [|op ops IH]; intros r1 Hok H1; [done|]. cbn [fold_left].
      apply IH; [apply Hok|by eapply locks_ok_step]. }
    apply (Hrun r0 Hops H0).
  - intros txn i k Hg Hk n ws Hw. split.
    + intros Hne rts r' ts. by eapply commit_write_held.
    + intros txn' rts cts r' ts Hne. by eapply prepare_held.
Qed.

Lemma versioned_fst ts ws : (versioned ts ws).*1 = (fun k => version_key k ts) <$> ws.*1.
Proof. unfold versioned. rewrite <- !list_fmap_compose. apply list_fmap_ext. intros; done. Qed.

(** The versions after the writes of a commit. *)
Lemma versioned_lookup (ts : Z) (ws : wlist) (V : gmap str str) :
  0 <= ts <= MAX_TS -> NoDup ws.*1 ->
  (forall k v, (k, v) ∈ ws -> put_all (versioned ts ws) V !! version_key k ts = Some (stored v)) /\
  (forall k t, 0 <= t <= MAX_TS -> t <> ts -> put_all (versioned ts ws) V !! version_key k t = V !! version_key k t).
Proof.
  intros Hts Hnd. split.
  - intros k v Hkv. apply lookup_put_all.
    + rewrite versioned_fst. apply NoDup_fmap_2_strong; [|done]. intros x y _ _ Hxy. by apply version_key_inj in Hxy as [? _].
    + unfold versioned. apply list_elem_of_fmap. by exists (k, v).
  - intros k t Ht Hne. apply lookup_put_all_ne. rewrite versioned_fst. intros (k' & Heq & _)%list_elem_of_fmap.
    by apply version_key_inj in Heq as [_ ?].
Qed.


Section stale_clock.
Context {E : Type} `{EngineDeletes E}.

(** Against the snapshot of the newest applied entry nothing conflicts but locks. *)
Lemma no_conflicts (s : shard E) sp keys :
  represents s sp -> Forall user_key keys -> (forall k, k ∈ keys -> intent_locking s k [] = None) ->
  replica_conflicts s keys (snapshot_ts s) [] = Ok None.
Proof.
  intros Hr Hk Hl. induction Hk as [|k keys Hu _ IH]; [done|]. cbn [replica_conflicts].
  destruct (shard_newest_spec s sp k Hr Hu) as (m & -> & Hm & _). cbn [mbind res_bind]. unfold snapshot_ts in *.
  rewrite (rp_last _ _ Hr) in *. destruct (Z.ltb_spec (sp_last sp) m); [lia|]. rewrite (Hl k) by constructor. apply IH.
  intros k' Hk'. apply Hl. by constructor.
Qed.

(** Writes below an existing version of the key do not change its newest version. *)
Lemma newest_below (V : gmap str str) k ts (ws : wlist) t0 t o :
  0 <= ts <= MAX_TS -> NoDup ws.*1 -> ts < t0 <= t -> t <= MAX_TS -> is_Some (V !! version_key k t0) ->
  newest V k t o -> newest (put_all (versioned ts ws) V) k t o.
Proof.
  intros Hts Hnd Ht0 Ht [v0 Hv0] Ho. destruct (versioned_lookup ts ws V Hts Hnd) as [_ Hout].
  destruct o as [[t1 v1]|]; cbn [newest] in *; [|by rewrite Ho in Hv0 by lia].
  destruct Ho as (Ha & Hb & Hc). assert (t0 <= t1).
  { destruct (Z.le_gt_cases t0 t1); [done|]. by rewrite Hc in Hv0 by lia. }
  split; [done|]. split; [by rewrite Hout by lia|]. intros t' Ht'. rewrite Hout by lia. by apply Hc.
Qed.
End stale_clock.

(** C31: a write without a snapshot is timestamped by the local clock alone, which applied
    entries never move.  Take any leader that is ready, and a write of keys that no transaction
    holds, at a moment when the clock is below the timestamp of a stored version of one of
    them.  The write is acknowledged, and reads of that key on the same replica at any snapshot
    from that version on, the current one included, return what they returned before it. *)
Theorem replica_write_lost {E} `{EngineDeletes E} (r : replica E) sp n ws k t0 :
  let ts := hlc_now (hlc r) (wall n) in
  represents (store r) sp -> pending r = [] -> leader r = true -> ready r = true -> still_leader n = true -> in_time n = true ->
  NoDup ws.*1 -> cmd_ok storable (Write ts ws) -> (forall k', k' ∈ ws.*1 -> intent_locking (store r) k' [] = None) ->
  k ∈ ws.*1 -> ts < t0 <= sp_last sp -> is_Some (sp_versions sp !! version_key k t0) ->
  exists r', commit_write r n ws None = Ok (r', Done (Some ts)) /\
    replica_read r' k None = replica_read r k None /\
    forall t, t0 <= t <= MAX_TS -> replica_read r' k (Some t) = replica_read r k (Some t).
Proof.
  intros ts Hr Hp Hl Hrd Hs Ht Hnd Hok Hfree Hk Ht0 Hv. pose proof Hok as [Hts Hws]. pose proof (sk_last _ _ (rp_ok _ _ Hr)) as Hlast.
  assert (Forall user_key ws.*1) as Hus by (apply Forall_fmap; eapply Forall_impl; [|exact Hws]; by intros ? [? _]).
  pose proof (proj1 (list.Forall_forall _ _) Hus k Hk) as Hu. destruct (apply_represents (store r) sp (Write ts ws) Hr Hok) as (s' & Ha & Hr').
  exists (applied (set_hlc r ts) (Write ts ws)). split.
  { unfold commit_write. rewrite Hl, Hrd. cbn [negb]. rewrite (no_conflicts _ sp) by done. cbn [mbind res_bind]. fold ts.
    unfold propose_wait. by rewrite Hs, Ht. }
  assert (forall t, t0 <= t <= MAX_TS -> shard_read s' k t = shard_read (store r) k t) as Hsame.
  { intros t Htt. destruct (shard_read_spec _ _ k t Hr Hu ltac:(lia)) as (o & Ho & ->).
    destruct (shard_read_spec _ _ k t Hr' Hu ltac:(lia)) as (o' & Ho' & ->). destruct sp as [V J last]. cbn [spec_step sp_versions] in *.
    by rewrite (newest_unique _ _ _ _ _ Ho' (newest_below V k ts ws t0 t o ltac:(lia) Hnd ltac:(lia) ltac:(lia) Hv Ho)). }
  unfold replica_read, applied, snapshot_ts. cbn [store set_hlc pending]. rewrite Hp. cbn [app run_commands fold_left]. rewrite Ha. cbn [fst].
  split; [|exact Hsame]. rewrite (rp_last _ _ Hr'), (rp_last _ _ Hr). destruct sp as [V J last]. cbn [spec_step sp_last] in *.
  unfold bump. destruct (Z.ltb_spec last ts); [lia|]. apply Hsame. lia.
Qed.

(** After a prepare that timed out, a second transaction can prepare the same key. *)
Theorem replica_timeout_overlap :
  let r0 := Replica (Shard (∅ : gmap str str) [] 0) 0 true true None [] in
  let r := fold_left replica_step [RPrepare (Env 1 true false) (py "t1") [(py "k", Some (py "a"))] 0 5;
                                   RPrepare (Env 1 true true) (py "t2") [(py "k", Some (py "b"))] 0 6] r0 in
  dict_get (intents (store r)) (py "t1") = Some (5, [(py "k", Some (py "a"))]) /\
  dict_get (intents (store r)) (py "t2") = Some (6, [(py "k", Some (py "b"))]).
Proof. by vm_compute. Qed.

(** A scan from the empty key fails while a transaction is prepared: it reads the intent. *)
Theorem shard_scan_prepared_raises :
  let s := run_commands (Shard (∅ : gmap str str) [] 0) [Write 3 [(py "k", Some (py "v"))]; Prepare (py "txn-1") 5 [(py "k", None)]] in
  shard_scan s (py "a") (py "z") 4 = Ok [(py "k", py "v")] /\ shard_scan s [] (py "z") 4 = Raise ValueError.
Proof. by vm_compute. Qed.

(** *** Examples of the hypotheses *)

Definition demo_commands : list command :=
  [Write 3 [(py "k", Some (py "v"))]; Prepare (py "t") 7 [(py "k", None); (py "m", Some (py "w"))]; Commit (py "t");
   Prepare (py "u") 9 [(py "n", Some (py "x"))]].

Lemma user_key_py c t :
  forallb (fun c => negb (c =? 0)%N && scalar c) (c :: t) = true -> (c < max_code_point)%N -> user_key (c :: t).
Proof.
  intros Hb Hc. rewrite forallb_forall in Hb. split; [|split; [eauto|]]; apply list.Forall_forall; intros x Hx;
    apply list_elem_of_In, Hb, andb_true_iff in Hx as [H1 H2]; [|done]. apply negb_true_iff, N.eqb_neq in H1. done.
Qed.

Ltac demo_ok :=
  repeat match goal with
  | |- _ /\ _ => split
  | |- Forall (fun c => scalar c = true) _ => by repeat constructor
  | |- Forall _ (_ :: _) => constructor
  | |- Forall _ [] => constructor
  | |- write_ok _ _ _ => split
  | |- user_key _ => by apply user_key_py
  | |- cmd_ok _ _ => hnf
  | |- writes_ok _ _ _ => hnf
  | |- forall v, _ = Some v -> _ => intros ? [= <-]
  | |- forall v, None = Some v -> _ => done
  | _ => done
  end.

Lemma demo_commands_ok : Forall (cmd_ok (storable (E := gmap str str))) demo_commands.
Proof. unfold demo_commands. demo_ok. Qed.

Lemma ref_inv : e_inv (∅ : gmap str str).
Proof. done. Qed.

Lemma demo_run : exists s, apply_all (Shard (∅ : gmap str str) [] 0) demo_commands = Ok s.
Proof.
  destruct (apply_all_represents demo_commands _ _ (represents_empty ∅ ref_inv eq_refl) demo_commands_ok) as (s & Hs & _). eauto.
Qed.

Lemma user_key_m : user_key (py "m").
Proof. demo_ok. Qed.

Lemma shard_refines_witness :
  exists s o, apply_all (Shard (∅ : gmap str str) [] 0) demo_commands = Ok s /\ shard_read s (py "m") 8 = Ok (live_version o) /\
    newest (sp_versions (fold_left spec_step demo_commands (Spec ∅ ∅ 0))) (py "m") 8 o.
Proof.
  destruct (shard_refines (∅ : gmap str str) demo_commands ref_inv eq_refl demo_commands_ok) as (s & Hs & _ & Hr).
  destruct (Hr (py "m") 8 user_key_m ltac:(unfold MAX_TS; lia)) as (o & Ho & Ho'). exists s, o. done.
Defined.

Lemma shard_recovery_witness :
  exists s s', apply_all (Shard (∅ : gmap str str) [] 0) demo_commands = Ok s /\ open_shard (s_engine s) = Ok s' /\
    forall txn, dict_get (intents s') txn = dict_get (intents s) txn.
Proof.
  destruct demo_run as (s & Hs).
  destruct (shard_recovery (∅ : gmap str str) demo_commands s ref_inv eq_refl demo_commands_ok Hs) as (s' & Ho & Hi & _).
  exists s, s'. done.
Defined.

Lemma replica_locks_witness :
  exclusive (intents (store (fold_left replica_step
    [RPrepare (Env 1 true true) (py "t1") [(py "k", Some (py "a"))] 0 5; RPrepare (Env 1 true true) (py "t2") [(py "k", None)] 0 6;
     RRole false false None; RSettle 0 [Commit (py "t1"); Prepare (py "t3") 8 [(py "k", None)]]]
    (Replica (Shard (∅ : gmap str str) [] 0) 0 true true None [])))).
Proof.
  apply (replica_locks (Replica (Shard (∅ : gmap str str) [] 0) 0 true true None [])); [reflexivity|reflexivity|].
  do 3 (split; [done|]; split; [done|]). split; [done|]. split; [|done]. split; [done|]. split; [|done]. intros k Hk. vm_compute. reflexivity.
Defined.

Lemma replica_write_lost_witness :
  let s := run_commands (Shard (∅ : gmap str str) [] 0) [Write 100 [(py "k", Some (py "old"))]] in
  let r := Replica s 0 true true None [] in
  exists r', commit_write r (Env 50 true true) [(py "k", Some (py "new"))] None = Ok (r', Done (Some 50)) /\
    replica_read r' (py "k") None = Ok (Some (py "old")).
Proof.
  intros s r. assert (cmd_ok (storable (E := gmap str str)) (Write 100 [(py "k", Some (py "old"))])) as Hc by demo_ok.
  destruct (apply_represents (Shard (∅ : gmap str str) [] 0) (Spec ∅ ∅ 0) _ (represents_empty _ ref_inv eq_refl) Hc) as (s' & Hs & Hr).
  assert (s = s') as <- by (unfold s; cbn [run_commands fold_left]; rewrite Hs; reflexivity).
  destruct (replica_write_lost r _ (Env 50 true true) [(py "k", Some (py "new"))] (py "k") 100 Hr) as (r' & H1 & H2 & _);
    [reflexivity|reflexivity|reflexivity|reflexivity|reflexivity|apply NoDup_singleton|demo_ok| |apply list_elem_of_here|vm_compute; split; [reflexivity|discriminate]| |].
  - intros k' Hk'. reflexivity.
  - exists (py "old"). vm_compute. reflexivity.
  - exists r'. split; [exact H1|]. rewrite H2. vm_compute. reflexivity.
Defined.


(** ** The coordinator's log *)

Lemma ends_with_tmp txn : ends_with (py ".json") (tmp_path txn) = false.
Proof.
  unfold ends_with, tmp_path, log_path. apply bool_decide_eq_false. intros Heq.
  set (n := (length ((txn ++ py ".json") ++ py ".tmp") - length (py ".json"))%nat) in Heq.
  assert (list.last ((txn ++ py ".json") ++ py ".tmp") = Some 110%N) as Hl.
  { rewrite <- (take_drop n ((txn ++ py ".json") ++ py ".tmp")), Heq. by rewrite list.last_app. }
  rewrite list.last_app in Hl. by vm_compute in Hl.
Qed.

Lemma ends_with_log txn : ends_with (py ".json") (log_path txn) = true.
Proof.
  unfold ends_with, log_path. apply bool_decide_eq_true. rewrite length_app, Nat.add_sub. apply drop_app_length.
Qed.

Definition log_files (d : dir) : list (str * str) := filter (fun kv => ends_with (py ".json") kv.1 = true) (sorted_items d).

Lemma log_files_ext (d d' : gmap str str) :
  (forall k, ends_with (py ".json") k = true -> d !! k = d' !! k) -> log_files d = log_files d'.
Proof.
  intros Hd. apply sorted_unique; [apply sorted_filter, sorted_items_sorted..|]. intros [k v]. unfold log_files.
  rewrite !list_elem_of_filter, !elem_of_sorted_items. cbn [fst]. split; intros [Hk Hv]; (split; [done|]); [by rewrite <- Hd|by rewrite Hd].
Qed.

Lemma load_all_ok l : (exists js, load_all l = Ok js) <-> Forall (fun kv => exists j, loads kv.2 = Ok j) l.
Proof.
  induction l as [|[k v] l IH]; cbn [load_all]; [split; [constructor|eauto]|]. rewrite list.Forall_cons. cbn [snd]. split.
  - intros (js & (j & Hj & (js' & Hjs & _)%bind_ok)%bind_ok). split; [by exists j|]. apply IH. eauto.
  - intros [[j Hj] (js & Hjs)%IH]. rewrite Hj, Hjs. cbn [mbind res_bind]. eauto.
Qed.

(** The coordinator's log is atomic and durable.  A crash at any point of a write leaves
    what [pending] returns unchanged; a finished write adds its record, once, to the records
    of the other transactions; removing a record that was just added restores the log. *)
Theorem txn_log_atomic (d : dir) txn record n :
  jok record ->
  log_pending (log_write_crash d txn record n) = log_pending d /\
  (forall js, log_pending (log_write d txn record) = Ok js -> record ∈ js) /\
  (forall js, log_pending d = Ok js -> exists js', log_pending (log_write d txn record) = Ok js') /\
  (d !! log_path txn = None -> log_pending (log_remove (log_write d txn record) txn) = log_pending d).
Proof.
  intros Hj. unfold log_pending. fold (log_files d) (log_files (log_write_crash d txn record n)) (log_files (log_write d txn record))
    (log_files (log_remove (log_write d txn record) txn)).
  assert (forall k, ends_with (py ".json") k = true -> k <> tmp_path txn) as Htmp.
  { intros k Hk ->. by rewrite ends_with_tmp in Hk. }
  split; [|split; [|split]].
  - f_equal. apply log_files_ext. intros k Hk. apply lookup_insert_ne. intros <-. by apply (Htmp _ Hk).
  - assert ((log_path txn, dumps record) ∈ log_files (log_write d txn record)) as Hin.
    { apply list_elem_of_filter. split; [apply ends_with_log|]. apply elem_of_sorted_items. apply lookup_insert_eq. }
    revert Hin. generalize (log_files (log_write d txn record)). intros l. induction l as [|[k v] l IH]; intros Hin js.
    { by apply not_elem_of_nil in Hin. }
    cbn [load_all]. intros (j & Hj' & (js' & Hjs & Heq)%bind_ok)%bind_ok. injection Heq as <-.
    apply elem_of_cons in Hin as [Hin|Hin]; [|right; auto]. injection Hin as <- <-.
    rewrite json_roundtrip in Hj' by done. injection Hj' as <-. left.
  - intros js Hjs. apply load_all_ok. apply list.Forall_forall. intros [k v] [Hk Hv%elem_of_sorted_items]%list_elem_of_filter. cbn [fst snd] in *.
    unfold log_write in Hv. apply lookup_insert_Some in Hv as [[<- <-]|[Hne Hv]]; [rewrite json_roundtrip by done; eauto|].
    rewrite lookup_delete_ne in Hv by (intros ?; by apply (Htmp _ Hk)).
    assert (exists js, load_all (log_files d) = Ok js) as He by eauto. apply load_all_ok in He. rewrite list.Forall_forall in He.
    apply (He (k, v)). apply list_elem_of_filter. split; [done|]. by apply elem_of_sorted_items.
  - intros Hnone. f_equal. apply log_files_ext. intros k Hk. unfold log_remove, log_write.
    destruct (decide (k = log_path txn)) as [->|Hne]; [by rewrite lookup_delete_eq|].
    rewrite lookup_delete_ne, lookup_insert_ne by done. apply lookup_delete_ne. intros <-. by apply (Htmp _ Hk).
Qed.

Lemma txn_log_atomic_witness :
  jok (JObj [(py "state", JStr (py "preparing"))]) /\
  log_pending (log_write_crash ∅ (py "t") (JObj [(py "state", JStr (py "preparing"))]) 3) = log_pending ∅.
Proof.
  assert (jok (JObj [(py "state", JStr (py "preparing"))])) as Hj.
  { split; [apply NoDup_singleton|]. split; [|done]. split; by repeat constructor. }
  split; [exact Hj|]. exact (proj1 (txn_log_atomic ∅ (py "t") _ 3 Hj)).
Defined.
