(* ===== verification/Gossip.v ===== *)
(** * Gossip membership: [litedb-python/gossip.py]

    [Gossip] holds a node's view of the cluster; clock readings, shuffles and answers of
    other nodes are inputs.  A received entry is the outcome of decoding it: the source
    skips the ones whose decoding raises.  The theorem: views converge to the newest
    versions whatever the order of messages, and silence is detected. *)

From S2P Require Import Prelude PyStd.

Local Open Scope Z_scope.

Abbreviation address := (str * Z)%type (only parsing).

(** An entry on the wire, and with the local time of its last progress. *)
Record entry := Entry { e_addr : address; e_gen : Z; e_hb : Z }.
Record member := Member { m_entry : entry; last_update : Z }.

Inductive liveness := ALIVE | SUSPECT | DEAD.
#[export] Instance liveness_eq_dec : EqDecision liveness.
Proof. solve_decision. Defined.

Record gossip := mkGossip {
  node_id : str;
  addr : address;
  seeds : list address;
  suspect_after : Z;
  dead_after : Z;
  fanout : nat;
  heartbeat : Z;
  generation : Z;
  members : gmap str member;
}.

Definition with_members (g : gossip) (ms : gmap str member) : gossip :=
  mkGossip (node_id g) (addr g) (seeds g) (suspect_after g) (dead_after g) (fanout g) (heartbeat g) (generation g) ms.

(** [int(time.time())] is the input [gen]. *)
Definition new_gossip (id : str) (a : address) (seed_addrs : list address) (suspect dead : Z) (fan : nat) (gen now : Z) : gossip :=
  mkGossip id a (filter (fun s => s <> a) seed_addrs) suspect dead fan 0 gen {[ id := Member (Entry a gen 0) now ]}.

(** [(gen, hb) > (cur_gen, cur_hb)] on tuples. *)
Definition newer (gen hb gen' hb' : Z) : bool := (gen' <? gen) || ((gen =? gen') && (hb' <? hb)).

Definition merge_one (g : gossip) (now : Z) (ms : gmap str member) (item : str * res entry) : gmap str member :=
  let '(nid, e) := item in
  if nid =s? node_id g then ms
  else
    match e with
    | Raise _ => ms
    | Ok e =>
        match ms !! nid with
        | None => <[nid := Member e now]> ms
        | Some cur =>
            if newer (e_gen e) (e_hb e) (e_gen (m_entry cur)) (e_hb (m_entry cur)) then <[nid := Member e now]> ms else ms
        end
    end.

Definition merge (g : gossip) (now : Z) (incoming : list (str * res entry)) : gossip :=
  with_members g (foldl (merge_one g now) (members g) incoming).

Definition digest (g : gossip) : gmap str entry := m_entry <$> members g.

Definition handle (g : gossip) (now : Z) (incoming : list (str * res entry)) : gossip * gmap str entry :=
  let g' := merge g now incoming in (g', digest g').

Definition age (g : gossip) (nid : str) (now : Z) : option Z := (fun m => now - last_update m) <$> members g !! nid.

Definition state (g : gossip) (nid : str) (now : Z) : option liveness :=
  if nid =s? node_id g then Some ALIVE
  else (fun a => if dead_after g <? a then DEAD else if suspect_after g <? a then SUSPECT else ALIVE) <$> age g nid now.

(** The part of a turn of [_loop] under the lock: the own heartbeat. *)
Definition beat (g : gossip) (now : Z) : gossip :=
  let hb := heartbeat g + 1 in
  mkGossip (node_id g) (addr g) (seeds g) (suspect_after g) (dead_after g) (fanout g) hb (generation g)
    (alter (fun m => Member (Entry (e_addr (m_entry m)) (e_gen (m_entry m)) hb) now) (node_id g) (members g)).

(** The peers that may be contacted, before [random.shuffle]. *)
Definition live_peers (g : gossip) (now : Z) : list address :=
  (fun kv => e_addr (m_entry kv.2)) <$>
  filter (fun kv => kv.1 <> node_id g /\ now - last_update kv.2 <= dead_after g) (map_to_list (members g)).

Definition known (g : gossip) (a : address) : bool :=
  existsb (fun kv => bool_decide (e_addr (m_entry kv.2) = a)) (map_to_list (members g)).

(** [_pick_targets], with the shuffled peers. *)
Definition pick_targets (g : gossip) (shuffled : list address) : list address :=
  foldl (fun ts s => if known g s || bool_decide (s ∈ ts) then ts else ts ++ [s]) (take (fanout g) shuffled) (seeds g).

(** A turn of [_loop]: the heartbeat, then the answers that came back. *)
Definition turn (g : gossip) (now : Z) (answers : list (Z * list (str * res entry))) : gossip :=
  foldl (fun g a => merge g a.1 a.2) (beat g now) answers.

Definition addr_of (g : gossip) (nid : str) : option address := (fun m => e_addr (m_entry m)) <$> members g !! nid.

Definition alive_nodes (g : gossip) (now : Z) : list str :=
  merge_sort str_le ((filter (fun kv => state g kv.1 now <> Some DEAD) (map_to_list (members g))).*1).

Definition view (g : gossip) (now : Z) : list (str * (address * option liveness * Z * Z)) :=
  (fun kv => (kv.1, (e_addr (m_entry kv.2), state g kv.1 now, e_hb (m_entry kv.2), e_gen (m_entry kv.2)))) <$> sorted_items (members g).

(** *** Versions form a join semilattice *)

Abbreviation version := (option (Z * Z)) (only parsing).

Definition version_of (g : gossip) (nid : str) : version := (fun m => (e_gen (m_entry m), e_hb (m_entry m))) <$> members g !! nid.

(** The newer of two versions. *)
Definition vmax (a b : version) : version :=
  match a, b with
  | None, v | v, None => v
  | Some (g1, h1), Some (g2, h2) => if newer g2 h2 g1 h1 then b else a
  end.

Lemma newer_spec gen hb gen' hb' : newer gen hb gen' hb' = true <-> gen' < gen \/ gen = gen' /\ hb' < hb.
Proof. unfold newer. rewrite orb_true_iff, andb_true_iff, Z.eqb_eq, !Z.ltb_lt. done. Qed.

Lemma newer_false gen hb gen' hb' : newer gen hb gen' hb' = false <-> gen < gen' \/ gen = gen' /\ hb <= hb'.
Proof. rewrite <- not_true_iff_false, newer_spec. lia. Qed.

(** Splits on every comparison of versions. *)
Ltac newer_cases :=
  repeat match goal with
  | |- context [newer ?a ?b ?c ?d] => let H := fresh "Hn" in destruct (newer a b c d) eqn:H; cbn
  end;
  repeat match goal with
  | H : newer _ _ _ _ = true |- _ => apply newer_spec in H
  | H : newer _ _ _ _ = false |- _ => apply newer_false in H
  end.

#[global] Instance vmax_comm : Comm (=) vmax.
Proof. intros [[g1 h1]|] [[g2 h2]|]; cbn; try done. newer_cases; repeat f_equal; lia. Qed.
#[global] Instance vmax_assoc : Assoc (=) vmax.
Proof. intros [[g1 h1]|] [[g2 h2]|] [[g3 h3]|]; cbn; newer_cases; try done; repeat f_equal; lia. Qed.
#[global] Instance vmax_idemp : IdemP (=) vmax.
Proof. intros [[g1 h1]|]; cbn; [by case_match|done]. Qed.

(** The versions of [nid] that a list of messages carries. *)
Definition versions_in (nid : str) (l : list (str * res entry)) : list version :=
  omap (fun item => match item.2 with Ok e => if item.1 =s? nid then Some (Some (e_gen e, e_hb e)) else None | Raise _ => None end) l.

Definition received (nid : str) (ds : list (Z * list (str * res entry))) : list version :=
  concat (map (fun d => versions_in nid d.2) ds).

Definition receive (g : gossip) (ds : list (Z * list (str * res entry))) : gossip := foldl (fun g d => merge g d.1 d.2) g ds.

Definition ver (m : option member) : version := (fun m => (e_gen (m_entry m), e_hb (m_entry m))) <$> m.

Lemma merge_one_ne g now ms k e nid : k <> nid \/ k = node_id g -> merge_one g now ms (k, e) !! nid = ms !! nid.
Proof.
  intros Hk. unfold merge_one. destruct (k =s? node_id g) eqn:Hs; [done|]. apply bool_decide_eq_false in Hs.
  destruct Hk as [Hk|Hk]; [|done]. repeat case_match; try done; by rewrite lookup_insert_ne.
Qed.

(** Taking in one entry joins its version, and keeps the member if that changes nothing. *)
Lemma merge_one_version g now ms item nid :
  nid <> node_id g ->
  ver (merge_one g now ms item !! nid) = foldl vmax (ver (ms !! nid)) (versions_in nid [item]) /\
  (ver (merge_one g now ms item !! nid) = ver (ms !! nid) -> merge_one g now ms item !! nid = ms !! nid).
Proof.
  intros Hn. destruct item as [k e]. destruct (decide (k = nid)) as [->|Hk].
  - unfold versions_in, merge_one. rewrite (bool_decide_false (nid = node_id g)) by done.
    destruct e as [e|x]; [|done]. cbn [omap list_omap fst snd]. rewrite bool_decide_true by done. cbn [foldl].
    destruct (ms !! nid) as [cur|] eqn:Hc; [|rewrite lookup_insert_eq; done]. cbn [ver fmap option_fmap option_map vmax].
    destruct (newer _ _ _ _) eqn:Hnew; [rewrite lookup_insert_eq|by rewrite Hc]. split; [done|]. cbn. intros [= H1 H2].
    apply newer_spec in Hnew. lia.
  - rewrite merge_one_ne by auto. split; [|done]. unfold versions_in. cbn [omap list_omap fst snd].
    destruct e; [rewrite bool_decide_false by done|]; done.
Qed.

Lemma versions_in_cons nid item l : versions_in nid (item :: l) = versions_in nid [item] ++ versions_in nid l.
Proof. unfold versions_in. cbn [omap list_omap]. by case_match. Qed.

Lemma foldl_vmax_ge l (v : version) : vmax v (foldl vmax v l) = foldl vmax v l.
Proof.
  revert v. induction l as [|w l IH]; intros v; cbn [foldl]; [apply vmax_idemp|].
  rewrite <- (IH (vmax v w)) at 1. rewrite (assoc vmax), (assoc vmax v v w), (idemp vmax v). apply IH.
Qed.

Lemma vmax_between (a b c : version) : vmax a b = b -> vmax b c = c -> c = a -> b = a.
Proof. intros H1 H2 ->. rewrite <- H1 at 1. rewrite (comm vmax). done. Qed.

Lemma merge_fold_version g now l ms nid :
  nid <> node_id g ->
  ver (foldl (merge_one g now) ms l !! nid) = foldl vmax (ver (ms !! nid)) (versions_in nid l) /\
  (ver (foldl (merge_one g now) ms l !! nid) = ver (ms !! nid) -> foldl (merge_one g now) ms l !! nid = ms !! nid).
Proof.
  intros Hn. revert ms. induction l as [|item l IH]; intros ms; [done|]. cbn [foldl]. rewrite versions_in_cons, foldl_app.
  destruct (merge_one_version g now ms item nid Hn) as [Hv Hk]. destruct (IH (merge_one g now ms item)) as [Hv' Hk'].
  rewrite Hv', <- Hv. split; [done|]. intros Heq. assert (ver (merge_one g now ms item !! nid) = ver (ms !! nid)) as Hsame.
  { eapply vmax_between; [|apply foldl_vmax_ge|exact Heq]. rewrite Hv. apply foldl_vmax_ge. }
  rewrite Hk' by (rewrite Hv'; congruence). by apply Hk.
Qed.

Lemma receive_version g ds nid :
  nid <> node_id g ->
  node_id (receive g ds) = node_id g /\
  version_of (receive g ds) nid = foldl vmax (version_of g nid) (received nid ds) /\
  (version_of (receive g ds) nid = version_of g nid -> members (receive g ds) !! nid = members g !! nid).
Proof.
  revert g. induction ds as [|[now l] ds IH]; intros g Hn; [done|]. cbn [receive foldl fst snd].
  unfold received. cbn [map concat snd]. rewrite foldl_app. fold (received nid ds) (receive (merge g now l) ds).
  destruct (merge_fold_version g now l (members g) nid Hn) as [Hv Hk].
  change (ver (foldl (merge_one g now) (members g) l !! nid)) with (version_of (merge g now l) nid) in Hv, Hk.
  change (ver (members g !! nid)) with (version_of g nid) in Hv, Hk.
  destruct (IH (merge g now l) Hn) as (Hid & Hv' & Hk'). rewrite Hid. split; [done|]. rewrite Hv', Hv. split; [done|].
  intros Heq. assert (version_of (merge g now l) nid = version_of g nid) as Hsame.
  { eapply vmax_between; [|apply foldl_vmax_ge|rewrite <- Hv in Heq; exact Heq]. rewrite Hv. apply foldl_vmax_ge. }
  rewrite Hk'; [by apply Hk|]. rewrite Hv', Hv. congruence.
Qed.

Lemma receive_self g ds : members (receive g ds) !! node_id g = members g !! node_id g /\ node_id (receive g ds) = node_id g.
Proof.
  revert g. induction ds as [|[now l] ds IH]; intros g; [done|]. cbn [receive foldl fst snd]. fold (receive (merge g now l) ds).
  destruct (IH (merge g now l)) as [H1 H2]. cbn [node_id merge with_members] in *. rewrite H1, H2. split; [|done].
  cbn [members merge with_members]. clear IH H1 H2. generalize (members g). induction l as [|[k e] l IHl]; intros ms; [done|]. cbn [foldl].
  rewrite IHl. destruct (decide (k = node_id g)); apply merge_one_ne; auto.
Qed.

Lemma foldl_vmax_elem l (v w : version) : w ∈ l -> vmax w (foldl vmax v l) = foldl vmax v l.
Proof.
  revert v. induction l as [|x l IH]; intros v Hin; [by apply not_elem_of_nil in Hin|]. cbn [foldl].
  apply elem_of_cons in Hin as [->|Hin]; [|auto]. rewrite <- (foldl_vmax_ge l (vmax v x)), (assoc vmax), (comm vmax v x), (assoc vmax x x v).
  by rewrite (idemp vmax x).
Qed.

Lemma foldl_vmax_le l (v u : version) : vmax v u = u -> (forall w, w ∈ l -> vmax w u = u) -> vmax (foldl vmax v l) u = u.
Proof.
  revert v. induction l as [|x l IH]; intros v Hv Hl; [done|]. cbn [foldl]. apply IH; [|intros; apply Hl; by right].
  rewrite <- (assoc vmax), (Hl x) by left. done.
Qed.

(** The join of versions depends on their set only. *)
Lemma foldl_vmax_set l1 l2 (v : version) : (forall w, w ∈ l1 <-> w ∈ l2) -> foldl vmax v l1 = foldl vmax v l2.
Proof.
  intros Hl. transitivity (vmax (foldl vmax v l1) (foldl vmax v l2)).
  - symmetry. rewrite (comm vmax). apply foldl_vmax_le; [apply foldl_vmax_ge|]. intros w Hw. apply foldl_vmax_elem. by apply Hl.
  - apply foldl_vmax_le; [apply foldl_vmax_ge|]. intros w Hw. apply foldl_vmax_elem. by apply Hl.
Qed.

(** C32: gossip converges.  Whatever the order, the batching and the repetition of messages, the
    version a node holds of another member is the newest of the one it had and the ones it
    received, so two nodes with equal views that received the same versions agree; a node's own
    entry is never changed by others; and a member whose version does not advance keeps its
    entry and its last progress, so it is dead exactly when [dead_after] has passed since. *)
Theorem gossip_converges g ds nid :
  members (receive g ds) !! node_id g = members g !! node_id g /\
  (nid <> node_id g ->
   version_of (receive g ds) nid = foldl vmax (version_of g nid) (received nid ds) /\
   (forall g' ds', nid <> node_id g' -> version_of g' nid = version_of g nid ->
      (forall v, v ∈ received nid ds <-> v ∈ received nid ds') ->
      version_of (receive g' ds') nid = version_of (receive g ds) nid) /\
   (forall m now, members g !! nid = Some m -> (forall v, v ∈ received nid ds -> vmax v (version_of g nid) = version_of g nid) ->
      members (receive g ds) !! nid = Some m /\
      (state (receive g ds) nid now = Some DEAD <-> dead_after (receive g ds) < now - last_update m))).
Proof.
  split; [apply receive_self|]. intros Hn. destruct (receive_version g ds nid Hn) as (Hid & Hv & Hk). split; [done|]. split.
  - intros g' ds' Hn' Heq Hset. destruct (receive_version g' ds' nid Hn') as (_ & Hv' & _). rewrite Hv, Hv', Heq.
    symmetry. by apply foldl_vmax_set.
  - intros m now Hm Hold. assert (version_of (receive g ds) nid = version_of g nid) as Hsame.
    { rewrite Hv. rewrite <- (foldl_vmax_le (received nid ds) (version_of g nid) (version_of g nid)) at 2; [|apply vmax_idemp|done].
      rewrite (comm vmax). symmetry. apply foldl_vmax_ge. }
    rewrite (Hk Hsame). split; [done|]. unfold state, age. rewrite Hid, (Hk Hsame), Hm, bool_decide_false by done. cbn.
    destruct (Z.ltb_spec (dead_after (receive g ds)) (now - last_update m)); [done|]. split; [|lia]. by repeat case_match.
Qed.
