(* ===== verification/Placement.v ===== *)
(** * The placement driver: [litedb-python/pd.py], [cluster_config.py]

    [Pd] is a replicated state machine whose log holds membership decisions.  Its leader
    runs a failure detector over the gossip views of the nodes and a reconcile loop that
    moves the voters of each shard towards [compute_placement].  What the nodes answer is
    an input of a pass.  A reconfiguration is a call to the leader of the shard; it may be
    lost or reach a node that leads no more, and otherwise takes effect as
    [RaftGroup.reconfigure] does, which refuses to change more than one voter.  One driver
    is active at a time: the voters do not change between its question and its call.

    The theorems: the target placement is valid, each pass changes at most one voter of a
    shard and is never refused for changing more, and the voters reach the target after as
    many delivered calls as they differ; a node is only proposed for removal if, from a pass
    at least the grace period ago, every pass that examined it found it reported dead by a
    majority. *)

From S2P Require Import Prelude PyStd.

Local Open Scope Z_scope.

(** ** [compute_placement] *)

Definition default_rf (rf factor : nat) : nat := match rf with O => factor | _ => rf end.

(** The replicas of the shard at index [i]. *)
Definition replicas_at (nodes : list str) (rf i : nat) : list str :=
  map (fun j => nth ((i + j) mod length nodes) nodes []) (seq 0 rf).

Definition compute_placement (factor : nat) (shards : list str) (nodes : list str) (rf : nat) : list (str * list str) :=
  let rf := Nat.min (default_rf rf factor) (length nodes) in
  imap (fun i s => (s, replicas_at nodes rf i)) shards.

(** ** [Pd] *)

Inductive decision := AddNode (node : str) | RemoveNode (node : str) | OtherEntry.

(** [list.remove]: the first occurrence. *)
Fixpoint list_remove (x : str) (l : list str) : list str :=
  match l with
  | [] => []
  | y :: l => if y =s? x then l else y :: list_remove x l
  end.

Definition pd_apply (active : list str) (d : decision) : list str :=
  match d with
  | AddNode n => if bool_decide (n ∈ active) then active else active ++ [n]
  | RemoveNode n => if bool_decide (n ∈ active) then list_remove n active else active
  | OtherEntry => active
  end.

(** *** Failure detection *)

(** The states each responding node reports, in the order of the active list. *)
Abbreviation views_t := (list (str * gmap str str)) (only parsing).

Definition reports_dead (cand : str) (v : str * gmap str str) : bool := bool_decide (v.2 !! cand = Some (py "dead")).

(** Some peer answered, and more than half of the answers say dead. *)
Definition dead_by_majority (views : views_t) (cand : str) : bool :=
  let others := filter (fun v => v.1 <> cand) views in
  negb (Nat.eqb (length others) 0) && Nat.ltb (length others) (2 * length (filter (fun v => reports_dead cand v = true) others)).

Definition has_peers (views : views_t) (cand : str) : bool := negb (Nat.eqb (length (filter (fun v => v.1 <> cand) views)) 0).

(** The loop over the candidates: the new [_dead_since] and the node to remove. *)
Fixpoint detect_loop (views : views_t) (now reap_after : Z) (since : gmap str Z) (cands : list str) : gmap str Z * option str :=
  match cands with
  | [] => (since, None)
  | cand :: cands =>
      if negb (has_peers views cand) then detect_loop views now reap_after since cands
      else if dead_by_majority views cand then
        let first := match since !! cand with Some t => t | None => now end in
        let since := <[cand := first]> since in
        if reap_after <=? now - first then (base.delete cand since, Some cand)
        else detect_loop views now reap_after since cands
      else detect_loop views now reap_after (base.delete cand since) cands
  end.

Definition detect_failures (active : list str) (views : views_t) (now reap_after : Z) (since : gmap str Z) :
    gmap str Z * option str :=
  if Nat.leb (length active) 1 then (since, None)
  else if Nat.eqb (length views) 0 || Nat.leb (2 * length views) (length active) then (since, None)
  else detect_loop views now reap_after since active.

(** *** Reconcile *)

Inductive action := AddVoter (node : str) | DropVoter (node : str) | Keep.

(** The change of one pass, from the wanted list and the sorted current voters. *)
Definition plan (want cur : list str) : action :=
  match filter (fun n => n ∉ cur) want, filter (fun n => n ∉ want) cur with
  | n :: _, _ => AddVoter n
  | [], n :: _ => match filter (fun m => m <> n) cur with [] => Keep | _ => DropVoter n end
  | [], [] => Keep
  end.

(** [sorted(set(...))]. *)
Definition sorted_set (s : gset str) : list str := merge_sort str_le (elements s).

Definition target (cur : gset str) (a : action) : gset str :=
  match a with AddVoter n => cur ∪ {[n]} | DropVoter n => cur ∖ {[n]} | Keep => cur end.

(** [RaftGroup.reconfigure] with the new voters, on a node that leads the group or not. *)
Definition reconfigure (leads : bool) (cur new : gset str) : option (gset str) :=
  if negb leads then None
  else if Nat.eqb (size ((cur ∖ new) ∪ (new ∖ cur))) 1 then Some new else None.

(** What a pass meets at a shard: no leader is found or it does not report its voters, or it
    does; then whether the [reconfigure] call is delivered, and whether the node still leads. *)
Inductive answer := Silent | Answers (delivered leads : bool).
#[export] Instance answer_eq_dec : EqDecision answer.
Proof. solve_decision. Defined.

(** One pass over one shard whose leader reports its voters. *)
Definition reconcile_shard (want : list str) (delivered leads : bool) (cur : gset str) : gset str :=
  match plan want (sorted_set cur) with
  | Keep => cur
  | a => if delivered then default cur (reconfigure leads cur (target cur a)) else cur
  end.

(** One pass of [_reconcile]. *)
Fixpoint reconcile (placement : list (str * list str)) (answers : str -> answer) (voters : gmap str (gset str)) : gmap str (gset str) :=
  match placement with
  | [] => voters
  | (shard, want) :: placement =>
      let voters := match answers shard, voters !! shard with
                    | Answers delivered leads, Some cur => <[shard := reconcile_shard want delivered leads cur]> voters
                    | _, _ => voters
                    end in
      reconcile placement answers voters
  end.

(** ** The target placement *)

Lemma replicas_at_length nodes rf i : length (replicas_at nodes rf i) = rf.
Proof. unfold replicas_at. by rewrite length_map, length_seq. Qed.

Lemma replicas_at_lookup nodes rf i j :
  nodes <> [] -> (j < rf)%nat -> exists n, replicas_at nodes rf i !! j = Some n /\ nodes !! ((i + j) mod length nodes)%nat = Some n.
Proof.
  intros Hn Hj. unfold replicas_at.
  assert ((i + j) mod length nodes < length nodes)%nat as Hlt by (apply Nat.mod_upper_bound; by destruct nodes).
  destruct (lookup_lt_is_Some_2 nodes _ Hlt) as [n Hlk]. exists n. split; [|done].
  change (map ?f ?l) with (f <$> l). rewrite list_lookup_fmap, lookup_seq_lt by done. cbn. f_equal.
  rewrite nth_lookup, Hlk. done.
Qed.

(** Offsets below the length give different positions. *)
Lemma mod_offset_inj n i j1 j2 : (j1 < n -> j2 < n -> (i + j1) mod n = (i + j2) mod n -> j1 = j2)%nat.
Proof.
  intros H1 H2 Heq. rewrite !(Nat.Div0.add_mod i) in Heq. rewrite (Nat.mod_small j1), (Nat.mod_small j2) in Heq by lia.
  pose proof (Nat.mod_upper_bound i n ltac:(lia)) as Hi. set (r := (i mod n)%nat) in *.
  assert (forall j, (j < n)%nat -> ((r + j) mod n = if Nat.ltb (r + j) n then r + j else r + j - n)%nat) as Hm.
  { intros j Hj. destruct (Nat.ltb_spec (r + j) n); [by apply Nat.mod_small|].
    replace (r + j)%nat with ((r + j - n) + 1 * n)%nat at 1 by lia. rewrite Nat.Div0.mod_add. apply Nat.mod_small. lia. }
  rewrite !Hm in Heq by done. destruct (Nat.ltb_spec (r + j1) n), (Nat.ltb_spec (r + j2) n); lia.
Qed.

(** The target gives every shard the same number of different active nodes, starting at the
    node with the shard's index. *)
Theorem placement_valid factor shards nodes rf i s :
  NoDup nodes -> shards !! i = Some s ->
  exists reps, compute_placement factor shards nodes rf !! i = Some (s, reps) /\
    length reps = Nat.min (default_rf rf factor) (length nodes) /\ NoDup reps /\ (forall n, n ∈ reps -> n ∈ nodes) /\
    ((0 < length reps)%nat -> reps !! 0%nat = nodes !! (i mod length nodes)%nat).
Proof.
  intros Hnd Hs. unfold compute_placement. set (k := Nat.min _ _). exists (replicas_at nodes k i).
  rewrite list_lookup_imap, Hs. split; [done|]. rewrite replicas_at_length. split; [done|].
  destruct (decide (nodes = [])) as [->|Hne].
  { replace k with 0%nat by (unfold k; cbn; lia). cbn. split; [constructor|]. split; [by intros n Hn%not_elem_of_nil|lia]. }
  assert (k <= length nodes)%nat as Hk by (unfold k; lia). split; [|split].
  - apply NoDup_alt. intros j1 j2 x H1 H2. pose proof (lookup_lt_Some _ _ _ H1). pose proof (lookup_lt_Some _ _ _ H2).
    rewrite replicas_at_length in *. destruct (replicas_at_lookup nodes k i j1 Hne ltac:(done)) as (n1 & E1 & F1).
    destruct (replicas_at_lookup nodes k i j2 Hne ltac:(done)) as (n2 & E2 & F2). simplify_eq.
    apply (mod_offset_inj (length nodes) i); [lia|lia|]. by apply (NoDup_lookup nodes _ _ x Hnd).
  - intros n (j & Hj)%list_elem_of_lookup. pose proof (lookup_lt_Some _ _ _ Hj) as Hlt. rewrite replicas_at_length in Hlt.
    destruct (replicas_at_lookup nodes k i j Hne Hlt) as (m & E1 & F1). simplify_eq. by eapply list_elem_of_lookup_2.
  - intros H0. destruct (replicas_at_lookup nodes k i 0 Hne H0) as (m & -> & F1). by rewrite Nat.add_0_r in F1.
Qed.

Lemma list_remove_elem x l y : NoDup l -> y ∈ list_remove x l <-> y ∈ l /\ y <> x.
Proof.
  induction l as [|z l IH]; cbn [list_remove].
  - intros _. rewrite elem_of_nil. tauto.
  - intros [H1 H2]%list.NoDup_cons. case_bool_decide; subst; rewrite ?elem_of_cons.
    + split; [|tauto]. intros Hy. split; [by right|]. by intros ->.
    + rewrite IH by done. split; [|tauto]. intros [->|?]; tauto.
Qed.

Lemma list_remove_NoDup x l : NoDup l -> NoDup (list_remove x l).
Proof.
  induction l as [|z l IH]; cbn [list_remove]; [done|]. intros Hnd. apply list.NoDup_cons in Hnd as Hnd'. destruct Hnd' as [H1 H2].
  case_bool_decide; [done|]. apply list.NoDup_cons. split; [|auto]. rewrite list_remove_elem by done. tauto.
Qed.

(** The replicated membership is a set: every decision keeps it free of repetitions. *)
Theorem pd_membership active d :
  NoDup active ->
  NoDup (pd_apply active d) /\
  forall n, n ∈ pd_apply active d <->
    match d with AddNode m => n ∈ active \/ n = m | RemoveNode m => n ∈ active /\ n <> m | OtherEntry => n ∈ active end.
Proof.
  intros Hnd. destruct d as [m|m|]; cbn [pd_apply]; [| |done]; case_bool_decide as Hm.
  - split; [done|]. intros n. split; [by left|]. by intros [?| ->].
  - split.
    + apply list.NoDup_app. split; [done|]. split; [|apply NoDup_singleton]. intros x Hx ->%list_elem_of_singleton. done.
    + intros n. by rewrite elem_of_app, list_elem_of_singleton.
  - split; [by apply list_remove_NoDup|]. intros n. by apply list_remove_elem.
  - split; [done|]. intros n. split; [|tauto]. intros Hn. split; [done|]. by intros ->.
Qed.

(** ** Failure detection *)

(** A run of the detector: one entry per pass of the control loop, with the node it proposed
    for removal. *)
Record pass := Pass { p_active : list str; p_views : views_t; p_now : Z }.

Definition detect_pass (reap_after : Z) (st : gmap str Z * list (pass * option str)) (p : pass) : gmap str Z * list (pass * option str) :=
  let out := detect_failures (p_active p) (p_views p) (p_now p) reap_after st.1 in
  (out.1, st.2 ++ [(p, out.2)]).

(** The loop over [cands] came to [c], with answers of other nodes to judge it by. *)
Definition reached (views : views_t) (cands : list str) (out : option str) (c : str) : Prop :=
  has_peers views c = true /\
  exists before after, cands = before ++ c :: after /\ match out with None => True | Some d => d ∉ before end.

(** The pass examined [c]: a majority of the active nodes answered, and the loop reached it. *)
Definition examined (e : pass * option str) (c : str) : Prop :=
  (length (p_active e.1) < 2 * length (p_views e.1))%nat /\ (1 < length (p_active e.1))%nat /\ reached (p_views e.1) (p_active e.1) e.2 c.

(** At some pass at time [t] and in every later pass that examined it, [c] was reported dead by
    a majority. *)
Definition dead_since (history : list (pass * option str)) (c : str) (t : Z) : Prop :=
  exists before p out after, history = before ++ (p, out) :: after /\ p_now p = t /\ dead_by_majority (p_views p) c = true /\
    Forall (fun e => examined e c -> dead_by_majority (p_views e.1) c = true) after.

Lemma reached_later views cand cands out c :
  c <> cand -> reached views (cand :: cands) out c -> reached views cands out c /\ out <> Some cand.
Proof.
  intros Hc (Hp & [|b before] & after & He & Ho); [cbn in He; congruence|]. cbn in He. injection He as <- ->. split.
  - split; [done|]. exists before, after. split; [done|]. destruct out; [|done]. by apply not_elem_of_cons in Ho as [_ ?].
  - intros ->. apply Ho. left.
Qed.

(** One pass over the candidates, from the table [s]. *)
Lemma detect_loop_spec views now reap_after cands s :
  let out := detect_loop views now reap_after s cands in
  (forall c t, out.1 !! c = Some t ->
     t = now /\ dead_by_majority views c = true \/
     s !! c = Some t /\ (reached views cands out.2 c -> dead_by_majority views c = true)) /\
  (forall c, out.2 = Some c -> c ∈ cands /\ dead_by_majority views c = true /\
     exists t, (t = now \/ s !! c = Some t) /\ reap_after <= now - t).
Proof.
  revert s. induction cands as [|cand cands IH]; intros s; cbn [detect_loop].
  { split; [|done]. intros c t Hc. right. split; [done|]. intros (_ & [|] & ? & ? & _); discriminate. }
  destruct (has_peers views cand) eqn:Hp; cbn [negb].
  2: { destruct (IH s) as [H1 H2]. split; [|intros c Hc; destruct (H2 c Hc); split; [by right|done]].
    intros c t Hc. destruct (H1 c t Hc) as [?|[Hs Hr]]; [by left|right]. split; [done|]. intros Hre. apply Hr.
    assert (c <> cand) by (intros ->; destruct Hre; congruence). by eapply reached_later. }
  destruct (dead_by_majority views cand) eqn:Hd.
  - set (first := match s !! cand with Some t => t | None => now end).
    assert (first = now \/ s !! cand = Some first) as Hfirst by (unfold first; destruct (s !! cand); auto).
    destruct (Z.leb_spec reap_after (now - first)) as [Hle|_]; cbn [fst snd].
    + split.
      * intros c t [Hne Hc]%lookup_delete_Some. rewrite lookup_insert_ne in Hc by done. right. split; [done|].
        intros Hr. by destruct (reached_later views cand cands (Some cand) c (not_eq_sym Hne) Hr) as [_ []].
      * intros c [= <-]. split; [by left|]. eauto.
    + destruct (IH (<[cand := first]> s)) as [H1 H2]. split.
      * intros c t Hc. destruct (H1 c t Hc) as [?|[Hs Hr]]; [by left|]. apply lookup_insert_Some in Hs as [[<- <-]|[Hne Hs]].
        -- destruct Hfirst as [->|Hf]; [by left|]. right. by split.
        -- right. split; [done|]. intros Hre. apply Hr. by eapply reached_later.
      * intros c Hc. destruct (H2 c Hc) as (Hin & Hdc & t & Ht & Hle). split; [by right|]. split; [done|]. exists t. split; [|done].
        destruct Ht as [->|[[<- <-]|[_ Hs]]%lookup_insert_Some]; auto.
  - destruct (IH (base.delete cand s)) as [H1 H2]. split.
    + intros c t Hc. destruct (H1 c t Hc) as [?|[[Hne Hs]%lookup_delete_Some Hr]]; [by left|]. right. split; [done|].
      intros Hre. apply Hr. by eapply reached_later.
    + intros c Hc. destruct (H2 c Hc) as (Hin & Hdc & t & Ht & Hle). split; [by right|]. split; [done|]. exists t. split; [|done].
      destruct Ht as [->|[_ Hs]%lookup_delete_Some]; auto.
Qed.

Lemma detect_failures_spec p reap_after s :
  let out := detect_failures (p_active p) (p_views p) (p_now p) reap_after s in
  (forall c t, out.1 !! c = Some t ->
     t = p_now p /\ dead_by_majority (p_views p) c = true \/
     s !! c = Some t /\ (examined (p, out.2) c -> dead_by_majority (p_views p) c = true)) /\
  (forall c, out.2 = Some c -> (length (p_active p) < 2 * length (p_views p))%nat /\ c ∈ p_active p /\ dead_by_majority (p_views p) c = true /\
     exists t, (t = p_now p \/ s !! c = Some t) /\ reap_after <= p_now p - t).
Proof.
  unfold detect_failures, examined. cbn [fst snd]. destruct (Nat.leb_spec (length (p_active p)) 1); cbn [fst snd].
  { split; [|done]. intros c t Hc. right. split; [done|]. lia. }
  destruct (Nat.eqb (length (p_views p)) 0) eqn:Hz; cbn [orb fst snd].
  { apply Nat.eqb_eq in Hz. rewrite Hz. split; [|done]. intros c t Hc. right. split; [done|]. lia. }
  destruct (Nat.leb_spec (2 * length (p_views p)) (length (p_active p))); cbn [fst snd].
  { split; [|done]. intros c t Hc. right. split; [done|]. lia. }
  destruct (detect_loop_spec (p_views p) (p_now p) reap_after (p_active p) s) as [H1 H2]. split; [|auto].
  intros c t Hc. destruct (H1 c t Hc) as [?|[? Hr]]; [by left|]. right. split; [done|]. intros (_ & _ & ?). by apply Hr.
Qed.

(** Every entry of the table is the time since which its node was found dead. *)
Lemma detect_run_ok reap_after passes :
  let st := foldl (detect_pass reap_after) (∅, []) passes in forall c t, st.1 !! c = Some t -> dead_since st.2 c t.
Proof.
  induction passes as [|p passes IH] using rev_ind; cbn zeta in *; [done|]. rewrite foldl_app. cbn [foldl]. revert IH.
  generalize (foldl (detect_pass reap_after) (∅, []) passes). intros [s h] IH c t. unfold detect_pass. cbn [fst snd] in *. intros Hc.
  destruct (detect_failures_spec p reap_after s) as [H1 _]. destruct (H1 c t Hc) as [[-> Hd]|[Hs He]].
  - by exists h, p, (detect_failures (p_active p) (p_views p) (p_now p) reap_after s).2, [].
  - destruct (IH c t Hs) as (before & q & out & after & -> & Hq & Hd & Hall). eexists before, q, out, (after ++ [_]).
    rewrite <- app_assoc. split; [done|]. split; [done|]. split; [done|]. apply Forall_app. split; [done|]. by constructor; [|constructor].
Qed.

(** C34: after any run of passes the failure detector proposes a node for removal only while a
    majority of the active nodes answers and more than half of the other answers report it
    dead, and only if this has lasted: unless the grace period is zero or negative, there is an
    earlier pass, at least the grace period ago, in which more than half of the other answers
    reported it dead, and so did those of every pass since then that examined the node.  (A
    pass does not examine a node if it has no such majority of answers, or stops before it at a
    node that it removes.) *)
Theorem pd_detect_safe reap_after passes active views now since' c :
  let st := foldl (detect_pass reap_after) (∅, []) passes in
  detect_failures active views now reap_after st.1 = (since', Some c) ->
  c ∈ active /\ (length active < 2 * length views)%nat /\ dead_by_majority views c = true /\
  (0 < reap_after -> exists t, reap_after <= now - t /\ dead_since st.2 c t).
Proof.
  intros st Hd. destruct (detect_failures_spec (Pass active views now) reap_after st.1) as [_ H]. cbn [p_active p_views p_now] in H.
  rewrite Hd in H. destruct (H c eq_refl) as (H1 & H2 & H3 & t & Ht & Hle). split_and!; [done|done|done|]. intros Hpos.
  exists t. split; [done|]. destruct Ht as [->|Ht]; [lia|]. by apply detect_run_ok.
Qed.

Lemma pd_detect_safe_witness :
  let views := [(py "a", {[ py "c" := py "dead" ]}); (py "b", {[ py "c" := py "dead" ]})] in
  let healthy := [(py "a", {[ py "c" := py "alive" ]}); (py "b", {[ py "c" := py "alive" ]})] in
  let passes := [Pass [py "a"; py "b"; py "c"] views 1; Pass [py "a"; py "b"; py "c"] healthy 2; Pass [py "a"; py "b"; py "c"] views 10] in
  exists t, 5 <= 15 - t /\ dead_since (foldl (detect_pass 5) (∅, []) passes).2 (py "c") t.
Proof.
  intros views healthy passes.
  destruct (detect_failures [py "a"; py "b"; py "c"] views 15 5 (foldl (detect_pass 5) (∅, []) passes).1) as [since' o] eqn:E.
  assert (o = Some (py "c")) as -> by (change o with ((since', o).2); rewrite <- E; vm_compute; reflexivity).
  apply (pd_detect_safe 5 passes [py "a"; py "b"; py "c"] views 15 since' (py "c") E). reflexivity.
Defined.

(** ** Reconcile *)

(** How many voters have to change. *)
Definition distance (want : list str) (cur : gset str) : nat :=
  size (list_to_set want ∖ cur) + size (cur ∖ list_to_set want).

Lemma elem_of_sorted_set (n : str) (s : gset str) : n ∈ sorted_set s <-> n ∈ s.
Proof. unfold sorted_set. rewrite merge_sort_Permutation. apply elem_of_elements. Qed.

(** The outcome of [plan] on the sets it is about. *)
Lemma plan_cases (want : list str) (cur : gset str) :
  want <> [] ->
  match plan want (sorted_set cur) with
  | AddVoter n => n ∈ want /\ n ∉ cur
  | DropVoter n => n ∈ cur /\ n ∉ want /\ (forall m, m ∈ want -> m ∈ cur)
  | Keep => cur = list_to_set want
  end.
Proof.
  intros Hw. unfold plan. destruct (filter (fun n => n ∉ sorted_set cur) want) as [|n add] eqn:Ha.
  - assert (forall m, m ∈ want -> m ∈ cur) as Hin.
    { intros m Hm. destruct (decide (m ∈ cur)) as [|Hc]; [done|]. exfalso. apply (not_elem_of_nil m). rewrite <- Ha.
      apply list_elem_of_filter. by rewrite elem_of_sorted_set. }
    destruct (filter (fun n => n ∉ want) (sorted_set cur)) as [|n drop] eqn:Hd.
    + apply set_eq. intros m. rewrite elem_of_list_to_set. split; [|auto]. intros Hm. destruct (decide (m ∈ want)) as [|Hc]; [done|].
      exfalso. apply (not_elem_of_nil m). rewrite <- Hd. apply list_elem_of_filter. by rewrite elem_of_sorted_set.
    + assert (n ∈ filter (fun n => n ∉ want) (sorted_set cur)) as Hn by (rewrite Hd; left).
      apply list_elem_of_filter in Hn as [Hn1 Hn2]. rewrite elem_of_sorted_set in Hn2.
      destruct (filter (fun m => m <> n) (sorted_set cur)) as [|m rest] eqn:Hr; [|done].
      exfalso. destruct want as [|w want']; [done|]. apply (not_elem_of_nil w). rewrite <- Hr. apply list_elem_of_filter.
      rewrite elem_of_sorted_set. split; [|apply Hin; left]. intros ->. apply Hn1. left.
  - assert (n ∈ filter (fun n => n ∉ sorted_set cur) want) as Hn by (rewrite Ha; left).
    apply list_elem_of_filter in Hn as [Hn1 Hn2]. by rewrite elem_of_sorted_set in Hn1.
Qed.

(** Adding or dropping one node is a change of exactly one voter, which Raft accepts. *)
Lemma reconfigure_add (n : str) (cur : gset str) : n ∉ cur -> reconfigure true cur (cur ∪ {[n]}) = Some (cur ∪ {[n]}).
Proof.
  intros Hn. unfold reconfigure. cbn [negb]. replace (cur ∖ (cur ∪ {[n]}) ∪ (cur ∪ {[n]}) ∖ cur) with ({[n]} : gset str) by set_solver.
  by rewrite size_singleton.
Qed.

Lemma reconfigure_drop (n : str) (cur : gset str) : n ∈ cur -> reconfigure true cur (cur ∖ {[n]}) = Some (cur ∖ {[n]}).
Proof.
  intros Hn. unfold reconfigure. cbn [negb]. replace (cur ∖ (cur ∖ {[n]}) ∪ cur ∖ {[n]} ∖ cur) with ({[n]} : gset str).
  - by rewrite size_singleton.
  - apply set_eq. intros x. rewrite elem_of_union, !elem_of_difference, elem_of_singleton.
    destruct (decide (x = n)), (decide (x ∈ cur)); subst; tauto.
Qed.

Lemma size_remove (s : gset str) (n : str) : n ∈ s -> (size (s ∖ {[n]}) + 1 = size s)%nat.
Proof.
  intros Hn. rewrite size_difference by (by apply singleton_subseteq_l). rewrite size_singleton.
  assert (size s <> 0%nat); [|lia]. intros H0%size_empty_inv. set_solver.
Qed.

Lemma distance_add (want : list str) (cur : gset str) (n : str) : n ∈ want -> n ∉ cur -> S (distance want (cur ∪ {[n]})) = distance want cur.
Proof.
  intros H1 H2. unfold distance. assert (n ∈ (list_to_set want : gset str)) as HW by (by apply elem_of_list_to_set).
  revert HW. generalize (list_to_set want : gset str). clear H1. intros W HW.
  pose proof (size_remove (W ∖ cur) n ltac:(set_solver)) as Hs.
  replace (W ∖ cur ∖ {[n]}) with (W ∖ (cur ∪ {[n]})) in Hs by set_solver.
  replace ((cur ∪ {[n]}) ∖ W) with (cur ∖ W) by set_solver. lia.
Qed.

Lemma distance_drop (want : list str) (cur : gset str) (n : str) : n ∈ cur -> n ∉ want -> S (distance want (cur ∖ {[n]})) = distance want cur.
Proof.
  intros H1 H2. unfold distance. assert (n ∉ (list_to_set want : gset str)) as HW by (by rewrite elem_of_list_to_set).
  revert HW. generalize (list_to_set want : gset str). clear H2. intros W HW.
  pose proof (size_remove (cur ∖ W) n ltac:(set_solver)) as Hs.
  replace (cur ∖ W ∖ {[n]}) with (cur ∖ {[n]} ∖ W) in Hs by set_solver.
  replace (W ∖ (cur ∖ {[n]})) with (W ∖ cur) by set_solver. lia.
Qed.

(** A pass whose call is delivered to the leader. *)
Abbreviation advance want := (reconcile_shard want true true) (only parsing).

(** One such pass: either the shard has its target, or exactly one voter changes, the
    distance drops by one and no more voters are lost than the target asks for. *)
Lemma reconcile_shard_step (want : list str) (cur : gset str) :
  want <> [] ->
  let new := advance want cur in
  (cur = list_to_set want /\ new = cur /\ distance want cur = 0%nat) \/
  (S (distance want new) = distance want cur /\ reconfigure true cur new = Some new /\
   (Nat.min (size cur) (size (list_to_set want : gset str)) <= size new)%nat).
Proof.
  intros Hw new. pose proof (plan_cases want cur Hw) as Hp. unfold new, reconcile_shard.
  destruct (plan want (sorted_set cur)) as [n|n|]; cbn [target].
  - destruct Hp as [H1 H2]. right. rewrite reconfigure_add by done. cbn [from_option id].
    split; [by apply distance_add|]. split; [by apply reconfigure_add|]. rewrite size_union by set_solver. lia.
  - destruct Hp as (H1 & H2 & H3). right. rewrite reconfigure_drop by done. cbn [from_option id].
    split; [by apply distance_drop|]. split; [by apply reconfigure_drop|].
    assert (list_to_set want ⊆ cur ∖ {[n]}) as Hsub; [|apply subseteq_size in Hsub; lia].
    intros m Hm. rewrite elem_of_list_to_set in Hm. apply elem_of_difference. split; [auto|].
    rewrite elem_of_singleton. by intros ->.
  - left. subst cur. split; [done|]. split; [done|]. unfold distance. by rewrite difference_diag_L, size_empty.
Qed.

Lemma reconcile_iter (want : list str) (cur : gset str) (k : nat) :
  want <> [] -> (distance want cur <= k)%nat -> Nat.iter k (advance want) cur = list_to_set want.
Proof.
  intros Hw. revert cur. induction k as [|k IH]; intros cur Hk; rewrite ?Nat.iter_succ_r; cbn [Nat.iter];
    destruct (reconcile_shard_step want cur Hw) as [(H1 & H2 & H3)|(H1 & _)]; [done|lia| |apply IH; lia].
  rewrite H2. apply IH. lia.
Qed.

(** How many passes delivered their call to the shard's leader. *)
Definition answered (passes : list (str -> answer)) (shard : str) : nat := length (filter (fun a => a shard = Answers true true) passes).

Lemma reconcile_shard_missed want delivered leads cur :
  (delivered && leads) = false -> reconcile_shard want delivered leads cur = cur.
Proof. unfold reconcile_shard, reconfigure. by destruct delivered, leads, (plan want (sorted_set cur)). Qed.

Lemma reconcile_lookup placement answers voters shard want cur :
  NoDup placement.*1 -> (shard, want) ∈ placement -> voters !! shard = Some cur ->
  reconcile placement answers voters !! shard = Some (if decide (answers shard = Answers true true) then advance want cur else cur).
Proof.
  assert (forall pl vs, shard ∉ pl.*1 -> reconcile pl answers vs !! shard = vs !! shard) as Hother.
  { induction pl as [|[s w] pl IH]; intros vs Hs; [done|]. rewrite fmap_cons in Hs. apply not_elem_of_cons in Hs as [H1 H2].
    cbn [reconcile]. rewrite IH by done. repeat case_match; try done. by rewrite lookup_insert_ne. }
  revert voters. induction placement as [|[s w] placement IH]; intros voters Hnd Hin Hv; [by apply not_elem_of_nil in Hin|].
  rewrite fmap_cons in Hnd. apply list.NoDup_cons in Hnd as [Hs Hnd]. cbn [fst] in Hs. cbn [reconcile].
  apply elem_of_cons in Hin as [[= <- <-]|Hin].
  - rewrite Hother by done. rewrite Hv. destruct (answers shard) as [|[] []]; rewrite ?lookup_insert_eq, ?reconcile_shard_missed by done;
      case_decide; done.
  - assert (s <> shard) by (intros ->; apply Hs, list_elem_of_fmap; by exists (shard, want)).
    apply IH; [done|done|]. destruct (answers s); [done|]. destruct (voters !! s); [|done]. by rewrite lookup_insert_ne.
Qed.

(** C33: reconciliation terminates at its target.  Whatever passes find no leader of a shard,
    lose their call or send it to a node that leads no more, the voters of the shard after a run
    of passes are those of as many single steps as calls were delivered to the leader; once
    there were as many as voters differ from the wanted list the voters are exactly the wanted
    nodes, and stay so; and each step on the way changes exactly one voter and keeps at least as
    many voters as the smaller of both configurations has. *)
Theorem pd_reconcile_converges placement voters passes shard want cur :
  NoDup placement.*1 -> (shard, want) ∈ placement -> want <> [] -> voters !! shard = Some cur ->
  let final := foldl (fun v a => reconcile placement a v) voters passes in
  final !! shard = Some (Nat.iter (answered passes shard) (advance want) cur) /\
  ((distance want cur <= answered passes shard)%nat -> final !! shard = Some (list_to_set want)) /\
  forall k, let now := Nat.iter k (advance want) cur in let next := advance want now in
    (next = now /\ now = list_to_set want \/ reconfigure true now next = Some next) /\
    (Nat.min (size cur) (size (list_to_set want : gset str)) <= size now)%nat.
Proof.
  intros Hnd Hin Hw Hv final.
  assert (final !! shard = Some (Nat.iter (answered passes shard) (advance want) cur)) as Hf.
  { unfold final. clear final. revert voters cur Hv. induction passes as [|a passes IH]; intros voters cur Hv; [done|]. cbn [foldl].
    rewrite (IH _ _ (reconcile_lookup placement a voters shard want cur Hnd Hin Hv)). unfold answered. rewrite filter_cons.
    case_decide; [|done]. cbn [length]. by rewrite Nat.iter_succ_r. }
  split; [done|]. split; [intros Hk; by rewrite Hf, reconcile_iter|]. cbv zeta. induction k as [|k IH]; [change (Nat.iter 0 _ cur) with cur|rewrite !Nat.iter_succ].
  - split; [|apply Nat.le_min_l]. destruct (reconcile_shard_step want cur Hw) as [(H1 & H2 & _)|(_ & H2 & _)]; [by left|by right].
  - destruct IH as [_ IH]. set (now := Nat.iter k (advance want) cur) in *. split.
    + destruct (reconcile_shard_step want (advance want now) Hw) as [(H1 & H2 & _)|(_ & H2 & _)]; [by left|by right].
    + destruct (reconcile_shard_step want now Hw) as [(_ & -> & _)|(_ & _ & H3)]; lia.
Qed.

Lemma pd_reconcile_converges_witness :
  let placement := [(py "s", [py "b"; py "c"])] in
  foldl (fun v a => reconcile placement a v) {[ py "s" := {[ py "a"; py "b" ]} ]} [fun _ => Answers true true; fun _ => Silent; fun _ => Answers false true; fun _ => Answers true true] !! py "s"
  = Some (list_to_set [py "b"; py "c"]).
Proof.
  intros placement.
  apply (pd_reconcile_converges placement {[ py "s" := {[ py "a"; py "b" ]} ]} [fun _ => Answers true true; fun _ => Silent; fun _ => Answers false true; fun _ => Answers true true]
           (py "s") [py "b"; py "c"] {[ py "a"; py "b" ]});
    [apply NoDup_singleton|left|done|apply lookup_singleton_eq|by vm_compute; lia].
Defined.
