(* ===== verification/TwoPhase.v ===== *)
(** * Cross-shard transactions: [litedb-python/node.py]

    The coordinator side of two-phase commit in [NodeServer]: grouping the writes of a
    transaction by shard, the prepare round, the decision in the coordinator's log, driving
    the decision to the participants, and the sweep that resumes after a crash.

    A participant is the abstract shard of [ShardStore.v], which the shard stores refine.  Every
    call to a participant is a step of its own.  It may be served or not, its answer may get
    lost, and a request that was sent may be served again or late at any time, since the RPC
    client sends a request a second time after a failure and a server goes on with a request
    whose caller has given up.  The coordinator and the sweep are two threads that interleave;
    the sweep acts on a record it has read earlier.  Clock readings, crashes and the operations
    of other transactions are events too.

    The theorems: the outcome is the same on all participants, and a decision that is
    re-sent until it is acknowledged completes.  They need that the sweep does not abort a
    transaction past the timeout while its coordinator has not crashed; the code does not
    ensure that, and [twopc_sweep_race] shows what happens then.  A late prepare can leave a
    lock behind: [twopc_late_prepare]. *)

From S2P Require Import Prelude PyStd Storage Mvcc ShardStore.

Local Open Scope Z_scope.

(** ** [_on_txn]: the writes by shard, in the order of their first keys *)

Definition group_add (groups : list (str * wlist)) (shard : str) (kv : str * option str) : list (str * wlist) :=
  match dict_get groups shard with
  | Some w => dict_set groups shard (w ++ [kv])
  | None => dict_set groups shard [kv]
  end.

Definition group_writes (shard_for : str -> str) (ws : wlist) : list (str * wlist) :=
  foldl (fun groups kv => group_add groups (shard_for kv.1) kv) [] ws.

(** ** The coordinator *)

Create HintDb twophase.

Inductive status := Preparing | Committing | Aborted.
#[export] Instance status_eq_dec : EqDecision status.
Proof. solve_decision. Defined.

(** The record in the coordinator's log: status and time. *)
Record record := Record_ { r_status : status; r_time : Z }.

Definition PREPARE_TIMEOUT : Z := 10.

(** What the caller sees of a call: it is served and answered, served and the answer is lost,
    or it fails without being served (yet). *)
Inductive outcome := Acked | ReplyLost | NotServed.

Record txn := Txn { txn_id : str; groups : list (str * wlist); cts : Z }.

(** [_drive_txn] under way: the decision, the participants still to be called, [all_ok]. *)
Record driver := Driver { d_status : status; d_todo : list str; d_ok : bool }.

(** Where the coordinator's thread is: before the transaction, with the participants still to
    be prepared, driving its decision, after its answer to the client, or gone after a crash. *)
Inductive phase := Idle | PrepareLeft (todo : list (str * wlist)) | Driving (d : driver) | Answered (ok : bool) | Crashed.

(** Where the sweep is with this transaction: it has not read its record, has read it, or is
    driving its decision. *)
Inductive sweep_phase := SIdle | SSeen (r : record) | SDriving (d : driver).

(** The log, the two threads, the requests sent so far, and the participants. *)
Record world := World { log : option record; thread : phase; sweeper : sweep_phase; net : list (str * command); parts : gmap str spec }.

Definition set_log (w : world) (l : option record) : world := World l (thread w) (sweeper w) (net w) (parts w).
Definition set_thread (w : world) (p : phase) : world := World (log w) p (sweeper w) (net w) (parts w).
Definition set_sweeper (w : world) (p : sweep_phase) : world := World (log w) (thread w) p (net w) (parts w).

(** A command at one participant. *)
Definition at_part (parts : gmap str spec) (shard : str) (c : command) : gmap str spec :=
  alter (fun sp => spec_step sp c) shard parts.

Definition serve (w : world) (shard : str) (c : command) : world := World (log w) (thread w) (sweeper w) (net w) (at_part (parts w) shard c).

(** One call: the request is on its way from now on. *)
Definition send (w : world) (shard : str) (c : command) (o : outcome) : world * bool :=
  let w := World (log w) (thread w) (sweeper w) (net w ++ [(shard, c)]) (parts w) in
  match o with
  | Acked => (serve w shard c, true)
  | ReplyLost => (serve w shard c, false)
  | NotServed => (w, false)
  end.

Definition decision (t : txn) (s : status) : command := match s with Committing => Commit (txn_id t) | _ => Abort (txn_id t) end.

(** [_drive_txn]: the first call, and each step from there.  After the last call the record is
    removed if all were acknowledged. *)
Definition drive (t : txn) (s : status) : driver := Driver s (groups t).*1 true.

Definition drive_step (t : txn) (w : world) (d : driver) (o : outcome) : world * option driver :=
  match d_todo d with
  | [] => (if d_ok d then set_log w None else w, None)
  | shard :: todo =>
      let '(w, ok) := send w shard (decision t (d_status d)) o in
      (w, Some (Driver (d_status d) todo (d_ok d && ok)))
  end.

(** [_txn_write]. *)
Definition txn_write (w : world) (s : status) (now : Z) : world := set_log w (Some (Record_ s now)).

(** [_coordinate_2pc]: recording the transaction, ... *)
Definition begin_2pc (t : txn) (w : world) (now : Z) : world :=
  set_thread (txn_write w Preparing now) (PrepareLeft (groups t)).

(** ... one prepare call after the other, which decides to abort at the first that fails, ... *)
Definition prepare_next (t : txn) (w : world) (o : outcome) (now : Z) : world :=
  match thread w with
  | PrepareLeft ((shard, ws) :: todo) =>
      let '(w, ok) := send w shard (Prepare (txn_id t) (cts t) ws) o in
      if ok then set_thread w (PrepareLeft todo)
      else set_thread (txn_write w Aborted now) (Driving (drive t Aborted))
  | _ => w
  end.

(** ... the commit point, ... *)
Definition commit_point (t : txn) (w : world) (now : Z) : world :=
  match thread w with
  | PrepareLeft [] => set_thread (txn_write w Committing now) (Driving (drive t Committing))
  | _ => w
  end.

(** ... and driving the decision. *)
Definition coordinator_drive (t : txn) (w : world) (o : outcome) : world :=
  match thread w with
  | Driving d =>
      match drive_step t w d o with
      | (w, Some d') => set_thread w (Driving d')
      | (w, None) => set_thread w (Answered (bool_decide (d_status d = Committing)))
      end
  | _ => w
  end.

(** [_sweep_once] on this transaction's record: [pending] reads it, ... *)
Definition sweep_read (w : world) : world :=
  match sweeper w, log w with
  | SIdle, Some r => set_sweeper w (SSeen r)
  | _, _ => w
  end.

(** ... later the loop comes to it, ... *)
Definition sweep_act (t : txn) (w : world) (now : Z) : world :=
  match sweeper w with
  | SSeen r =>
      match r_status r with
      | Preparing => if PREPARE_TIMEOUT <? now - r_time r
                     then set_sweeper (txn_write w Aborted now) (SDriving (drive t Aborted))
                     else set_sweeper w SIdle
      | s => set_sweeper w (SDriving (drive t s))
      end
  | _ => w
  end.

(** ... and drives the decision. *)
Definition sweep_drive (t : txn) (w : world) (o : outcome) : world :=
  match sweeper w with
  | SDriving d =>
      match drive_step t w d o with
      | (w, Some d') => set_sweeper w (SDriving d')
      | (w, None) => set_sweeper w SIdle
      end
  | _ => w
  end.

(** ** Runs *)

Inductive event :=
  | EBegin (now : Z)
  | EPrepare (o : outcome) (now : Z)
  | ECommit (now : Z)
  | EDrive (o : outcome)
  | ESweepRead
  | ESweepAct (now : Z)
  | ESweepDrive (o : outcome)
  | EServe (i : nat)
  | ECrash
  | EOther (shard : str) (c : command).

(** [EServe]: a request that was sent is served late or again.  [ECrash]: the coordinator's
    process stops, with both threads, and starts again. *)
Definition step (t : txn) (w : world) (e : event) : world :=
  match e with
  | EBegin now => match thread w with Idle => begin_2pc t w now | _ => w end
  | EPrepare o now => prepare_next t w o now
  | ECommit now => commit_point t w now
  | EDrive o => coordinator_drive t w o
  | ESweepRead => sweep_read w
  | ESweepAct now => sweep_act t w now
  | ESweepDrive o => sweep_drive t w o
  | EServe i => match net w !! i with Some (shard, c) => serve w shard c | None => w end
  | ECrash => set_sweeper (set_thread w Crashed) SIdle
  | EOther shard c => serve w shard c
  end.

(** A command of another transaction, with another timestamp. *)
Definition foreign (t : txn) (c : command) : Prop :=
  match c with
  | Noop | Config => True
  | Prepare id ts _ => id <> txn_id t /\ ts <> cts t /\ 0 <= ts <= MAX_TS
  | Commit id | Abort id => id <> txn_id t
  | Write ts _ => ts <> cts t /\ 0 <= ts <= MAX_TS
  end.

(** The other commands are of other transactions; the sweep decides to abort only for a
    coordinator that has crashed; and if [prompt], no prepare is served late or again. *)
Definition fair (prompt : bool) (t : txn) (w : world) (e : event) : Prop :=
  match e with
  | EOther _ c => foreign t c
  | ESweepAct now => match sweeper w with
                     | SSeen r => r_status r = Preparing -> PREPARE_TIMEOUT < now - r_time r -> thread w = Crashed
                     | _ => True
                     end
  | EServe i => match net w !! i with Some (_, Prepare _ _ _) => prompt = false | _ => True end
  | _ => True
  end.

Fixpoint fair_run (prompt : bool) (t : txn) (w : world) (es : list event) : Prop :=
  match es with
  | [] => True
  | e :: es => fair prompt t w e /\ fair_run prompt t (step t w e) es
  end.

(** ** What a participant holds of a transaction *)

Definition untouched (t : txn) (ws : wlist) (sp : spec) : Prop :=
  forall k, k ∈ ws.*1 -> sp_versions sp !! version_key k (cts t) = None.
Definition visible (t : txn) (ws : wlist) (sp : spec) : Prop :=
  forall k v, (k, v) ∈ ws -> sp_versions sp !! version_key k (cts t) = Some (stored v).

(** No lock is held; or, if prepares may be served late, perhaps one that nobody will release. *)
Definition released (prompt : bool) (t : txn) (ws : wlist) (sp : spec) : Prop :=
  sp_intents sp !! txn_id t = None \/ prompt = false /\ sp_intents sp !! txn_id t = Some (cts t, ws).

(** Prepared and not resolved; without effect; committed. *)
Definition staged (t : txn) (ws : wlist) (sp : spec) : Prop := untouched t ws sp /\ sp_intents sp !! txn_id t = Some (cts t, ws).
Definition clean (prompt : bool) (t : txn) (ws : wlist) (sp : spec) : Prop := untouched t ws sp /\ released prompt t ws sp.
Definition committed (prompt : bool) (t : txn) (ws : wlist) (sp : spec) : Prop := visible t ws sp /\ released prompt t ws sp.
Definition waiting (prompt : bool) (t : txn) (ws : wlist) (sp : spec) : Prop := staged t ws sp \/ clean prompt t ws sp.
Definition going (prompt : bool) (t : txn) (ws : wlist) (sp : spec) : Prop := staged t ws sp \/ committed prompt t ws sp.

(** Prepared transactions of others have other timestamps. *)
Definition others_ok (t : txn) (sp : spec) : Prop :=
  forall id i, sp_intents sp !! id = Some i -> id <> txn_id t -> i.1 <> cts t /\ 0 <= i.1 <= MAX_TS.

Definition holds (t : txn) (parts : gmap str spec) (shard : str) (ws : wlist) (P : wlist -> spec -> Prop) : Prop :=
  exists sp, parts !! shard = Some sp /\ others_ok t sp /\ P ws sp.

Definition on_all (t : txn) (parts : gmap str spec) (P : wlist -> spec -> Prop) : Prop :=
  forall shard ws, (shard, ws) ∈ groups t -> holds t parts shard ws P.

Record txn_ok (t : txn) : Prop := {
  to_shards : NoDup (groups t).*1;
  to_keys : Forall (fun g => NoDup g.2.*1) (groups t);
  to_cts : 0 <= cts t <= MAX_TS;
}.

Section facts.
Context (q : bool) (t : txn) (Ht : txn_ok t).

Lemma versioned_other (ts : Z) (ws : wlist) (k : str) (V : gmap str str) :
  ts <> cts t -> 0 <= ts <= MAX_TS -> put_all (versioned ts ws) V !! version_key k (cts t) = V !! version_key k (cts t).
Proof.
  intros Hne Hr. apply lookup_put_all_ne. rewrite versioned_fst. intros (k' & Heq & _)%list_elem_of_fmap.
  apply version_key_inj in Heq as [_ ?]; [done|apply Ht|done].
Qed.

(** *** The commands of the transaction *)

(** The effect of a command of the transaction on a participant's part of it. *)
Definition moves (c : command) (ws : wlist) (P Q : wlist -> spec -> Prop) : Prop :=
  forall sp, others_ok t sp -> P ws sp -> others_ok t (spec_step sp c) /\ Q ws (spec_step sp c).

Lemma others_ok_prepare ws sp : others_ok t sp -> others_ok t (spec_step sp (Prepare (txn_id t) (cts t) ws)).
Proof. destruct sp as [V J last]. intros Ho id i. cbn. intros [[<- _]|[_ Hid]]%lookup_insert_Some Hne; [done|by eapply Ho]. Qed.

Lemma others_ok_delete sp V last : others_ok t sp -> others_ok t (Spec V (base.delete (txn_id t) (sp_intents sp)) last).
Proof. intros Ho id i. cbn. intros [_ Hid]%lookup_delete_Some Hne. by eapply Ho. Qed.

Lemma moves_prepare ws : moves (Prepare (txn_id t) (cts t) ws) ws (waiting q t) (staged t).
Proof.
  intros sp Ho Hw. split; [by apply others_ok_prepare|]. destruct sp as [V J last].
  split; [by destruct Hw as [[Hu _]|[Hu _]]|]. cbn. by rewrite lookup_insert_eq.
Qed.

(** A prepare that is served late. *)
Lemma moves_late_prepare ws P : q = false -> P = clean q t \/ P = committed q t -> moves (Prepare (txn_id t) (cts t) ws) ws P P.
Proof.
  intros Hq HP sp Ho Hp. split; [by apply others_ok_prepare|]. destruct sp as [V J last].
  assert (released q t ws (Spec V (<[txn_id t := (cts t, ws)]> J) last)) by (right; split; [done|]; apply lookup_insert_eq).
  by destruct HP as [->| ->]; destruct Hp as [? _].
Qed.

Lemma moves_commit shard ws : (shard, ws) ∈ groups t -> moves (Commit (txn_id t)) ws (going q t) (committed q t).
Proof.
  intros Hin [V J last] Ho Hg. cbn [spec_step]. destruct (J !! txn_id t) as [[ts ws']|] eqn:Hj.
  - assert (ts = cts t /\ ws' = ws) as [-> ->].
    { destruct Hg as [[_ Hi]|[_ [Hi|[_ Hi]]]]; cbn [sp_intents] in Hi; rewrite Hj in Hi; by simplify_eq. }
    split; [by apply (others_ok_delete (Spec V J last))|]. split; [|left; cbn; apply lookup_delete_eq].
    intros k v Hkv. cbn. apply versioned_lookup; [apply Ht| |done]. pose proof (to_keys t Ht) as Hk. rewrite list.Forall_forall in Hk.
    by apply (Hk (shard, ws)).
  - destruct Hg as [[_ Hi]|Hc]; [cbn [sp_intents] in Hi; congruence|]. by split.
Qed.

Lemma moves_abort ws : moves (Abort (txn_id t)) ws (waiting q t) (clean q t).
Proof.
  intros sp Ho Hw. destruct sp as [V J last]. split; [by apply (others_ok_delete (Spec V J last))|].
  destruct Hw as [[Hu _]|[Hu _]]; (split; [exact Hu|]); left; cbn; apply lookup_delete_eq.
Qed.

(** The versions at the transaction's timestamp and its intent are not changed by others. *)
Lemma step_foreign c sp : foreign t c -> others_ok t sp ->
  others_ok t (spec_step sp c) /\ sp_intents (spec_step sp c) !! txn_id t = sp_intents sp !! txn_id t /\
  forall k, sp_versions (spec_step sp c) !! version_key k (cts t) = sp_versions sp !! version_key k (cts t).
Proof.
  destruct sp as [V J last]. intros Hc Ho. destruct c as [| |id ts ws|id|id|ts ws]; cbn [spec_step foreign] in *; [done|done| | | |].
  - split; [|split; [cbn; apply lookup_insert_ne; tauto|done]].
    intros id' i. cbn. intros [[<- <-]|[_ Hid]]%lookup_insert_Some Hne; [tauto|by eapply Ho].
  - destruct (J !! id) as [[ts ws]|] eqn:Hj; [|done]. destruct (Ho id _ Hj Hc) as [H1 H2]. cbn in H1, H2.
    split; [|split; [cbn; by apply lookup_delete_ne|intros k; by apply versioned_other]].
    intros id' i. cbn. intros [_ Hid]%lookup_delete_Some Hne. by eapply Ho.
  - split; [|split; [cbn; by apply lookup_delete_ne|done]]. intros id' i. cbn. intros [_ Hid]%lookup_delete_Some Hne. by eapply Ho.
  - destruct Hc. split; [done|]. split; [done|]. intros k. by apply versioned_other.
Qed.

(** A property of the transaction's own versions and intent. *)
Definition own (P : wlist -> spec -> Prop) : Prop :=
  forall ws sp sp', sp_intents sp' !! txn_id t = sp_intents sp !! txn_id t ->
    (forall k, sp_versions sp' !! version_key k (cts t) = sp_versions sp !! version_key k (cts t)) -> P ws sp -> P ws sp'.

Lemma own_untouched : own (untouched t).
Proof. intros ws sp sp' Hi Hv Hu k Hk. rewrite Hv. by apply Hu. Qed.
Lemma own_visible : own (visible t).
Proof. intros ws sp sp' Hi Hv Hs k v Hk. rewrite Hv. by apply Hs. Qed.
Lemma own_released : own (released q t).
Proof. intros ws sp sp' Hi Hv. unfold released. by rewrite Hi. Qed.
Lemma own_staged : own (staged t).
Proof. intros ws sp sp' Hi Hv [Hu Hs]. split; [by eapply own_untouched|by rewrite Hi]. Qed.
Lemma own_clean : own (clean q t).
Proof. intros ws sp sp' Hi Hv [Hu Hs]. split; [by eapply own_untouched|by eapply own_released]. Qed.
Lemma own_committed : own (committed q t).
Proof. intros ws sp sp' Hi Hv [Hu Hs]. split; [by eapply own_visible|by eapply own_released]. Qed.
Lemma own_or (P Q : wlist -> spec -> Prop) : own P -> own Q -> own (fun ws sp => P ws sp \/ Q ws sp).
Proof. intros HP HQ ws sp sp' Hi Hv [Hs|Hs]; [left; by eapply HP|right; by eapply HQ]. Qed.
End facts.

#[export] Hint Resolve own_untouched own_staged own_clean own_committed own_or : twophase.

(** ** The invariant *)

Section run.
Context (q : bool) (t : txn) (Ht : txn_ok t).

(** What a decision leads to, and what it starts from. *)
Definition status_of (yes : bool) : status := if yes then Committing else Aborted.
Definition resolved (yes : bool) : wlist -> spec -> Prop := if yes then committed q t else clean q t.
Definition moving (yes : bool) : wlist -> spec -> Prop := fun ws sp => staged t ws sp \/ resolved yes ws sp.

Lemma moving_going : moving true = going q t.
Proof. done. Qed.
Lemma moving_waiting : moving false = waiting q t.
Proof. done. Qed.

(** The requests that may be around: prepares of these groups, and the decision. *)
Definition own_request (m : str * command) (allowed : str -> command -> Prop) : Prop :=
  exists ws, (m.1, ws) ∈ groups t /\ (m.2 = Prepare (txn_id t) (cts t) ws \/ allowed m.1 m.2).

Definition driver_ok (yes : bool) (ps : gmap str spec) (d : driver) : Prop :=
  d_status d = status_of yes /\ (forall shard, shard ∈ d_todo d -> shard ∈ (groups t).*1) /\
  (d_ok d = true -> forall shard ws, (shard, ws) ∈ groups t -> shard ∉ d_todo d -> holds t ps shard ws (resolved yes)).

Record decided (yes : bool) (w : world) : Prop := {
  dc_log : match log w with
           | None => on_all t (parts w) (resolved yes)
           | Some r => r_status r = status_of yes /\ on_all t (parts w) (moving yes)
           end;
  dc_thread : match thread w with
              | Driving d => driver_ok yes (parts w) d
              | Answered b => b = yes
              | Crashed => True
              | Idle | PrepareLeft _ => False
              end;
  dc_sweeper : match sweeper w with
               | SIdle => True
               | SSeen r => r_status r = status_of yes \/ r_status r = Preparing /\ thread w <> Crashed
               | SDriving d => driver_ok yes (parts w) d
               end;
  dc_net : Forall (fun m => own_request m (fun _ c => c = decision t (status_of yes))) (net w);
}.

Definition seen_preparing (s : sweep_phase) : Prop :=
  match s with SIdle => True | SSeen r => r_status r = Preparing | SDriving _ => False end.

Inductive undecided (w : world) : Prop :=
| und_idle :
    log w = None -> thread w = Idle -> sweeper w = SIdle -> net w = [] -> on_all t (parts w) (clean q t) -> undecided w
| und_preparing r ready todo :
    log w = Some r -> r_status r = Preparing -> thread w = PrepareLeft todo -> seen_preparing (sweeper w) ->
    groups t = ready ++ todo ->
    (forall shard ws, (shard, ws) ∈ ready -> holds t (parts w) shard ws (staged t)) ->
    (forall shard ws, (shard, ws) ∈ todo -> holds t (parts w) shard ws (clean q t)) ->
    Forall (fun m => exists ws, (m.1, ws) ∈ ready /\ m.2 = Prepare (txn_id t) (cts t) ws) (net w) -> undecided w
| und_crashed r :
    log w = Some r -> r_status r = Preparing -> thread w = Crashed -> seen_preparing (sweeper w) ->
    on_all t (parts w) (waiting q t) -> Forall (fun m => own_request m (fun _ _ => False)) (net w) -> undecided w.

Definition inv (w : world) : Prop := undecided w \/ exists yes, decided yes w.

(** *** One request served *)

Lemma group_unique shard ws ws' : (shard, ws) ∈ groups t -> (shard, ws') ∈ groups t -> ws = ws'.
Proof.
  intros [i Hi]%list_elem_of_lookup [j Hj]%list_elem_of_lookup.
  assert (i = j) by (eapply (NoDup_lookup _ _ _ shard (to_shards t Ht)); rewrite list_lookup_fmap; [by rewrite Hi|by rewrite Hj]).
  congruence.
Qed.

(** A command that keeps a property where it is served keeps it everywhere. *)
Lemma holds_serve ps shard c s ws (P : wlist -> spec -> Prop) :
  (s = shard -> moves t c ws P P) -> holds t ps s ws P -> holds t (at_part ps shard c) s ws P.
Proof.
  intros Hm (sp & Hs & Ho & Hp). unfold holds, at_part. destruct (decide (s = shard)) as [->|Hne].
  - rewrite lookup_alter_eq, Hs. cbn. destruct (Hm eq_refl sp Ho Hp). eauto.
  - rewrite lookup_alter_ne by done. eauto.
Qed.

Lemma holds_moved ps shard c ws (P Q : wlist -> spec -> Prop) :
  moves t c ws P Q -> holds t ps shard ws P -> holds t (at_part ps shard c) shard ws Q.
Proof.
  intros Hm (sp & Hs & Ho & Hp). unfold holds, at_part. rewrite lookup_alter_eq, Hs. cbn. destruct (Hm sp Ho Hp). eauto.
Qed.

Lemma holds_weaken ps s ws (P Q : wlist -> spec -> Prop) : (forall ws sp, P ws sp -> Q ws sp) -> holds t ps s ws P -> holds t ps s ws Q.
Proof. intros HPQ (sp & ? & ? & ?). exists sp. auto. Qed.

Lemma own_moves c ws (P : wlist -> spec -> Prop) : foreign t c -> own t P -> moves t c ws P P.
Proof. intros Hc HP sp Ho Hp. destruct (step_foreign t Ht c sp Hc Ho) as (H1 & H2 & H3). split; [done|]. by eapply HP. Qed.

Lemma own_resolved yes : own t (resolved yes).
Proof. destruct yes; [apply own_committed|apply own_clean]. Qed.

Lemma decision_moves yes shard ws : (shard, ws) ∈ groups t -> moves t (decision t (status_of yes)) ws (moving yes) (resolved yes).
Proof. intros Hin. destruct yes; [by eapply moves_commit|apply moves_abort]. Qed.

(** What may be served after the decision. *)
Definition harmless (yes : bool) (shard : str) (c : command) : Prop :=
  forall ws, (shard, ws) ∈ groups t -> moves t c ws (resolved yes) (resolved yes) /\ moves t c ws (moving yes) (moving yes).

Lemma harmless_decision yes shard : harmless yes shard (decision t (status_of yes)).
Proof.
  intros ws Hin. pose proof (decision_moves yes shard ws Hin) as Hd.
  split; intros sp Ho Hp; destruct (Hd sp Ho) as [? ?]; try (by right); try done. split; [done|]. by right.
Qed.

Lemma harmless_foreign yes shard c : foreign t c -> harmless yes shard c.
Proof.
  intros Hc ws Hin. split; (apply own_moves; [done|]); [apply own_resolved|]. apply own_or; [apply own_staged|apply own_resolved].
Qed.

Lemma harmless_prepare yes shard ws : (shard, ws) ∈ groups t -> q = false -> harmless yes shard (Prepare (txn_id t) (cts t) ws).
Proof.
  intros Hin Hq ws' Hin'. rewrite (group_unique _ _ _ Hin' Hin).
  assert (moves t (Prepare (txn_id t) (cts t) ws) ws (resolved yes) (resolved yes)) as Hr
    by (apply (moves_late_prepare q); [done|]; destruct yes; auto).
  split; [done|]. intros sp Ho [Hs|Hp].
  - destruct (moves_prepare q t ws sp Ho (or_introl Hs)) as [? ?]. split; [done|]. by left.
  - destruct (Hr sp Ho Hp) as [? ?]. split; [done|]. by right.
Qed.

Lemma driver_ok_serve yes ps shard c d : harmless yes shard c -> driver_ok yes ps d -> driver_ok yes (at_part ps shard c) d.
Proof.
  intros Hh (Hst & Hsub & Hd). split; [done|]. split; [done|]. intros Hok s ws Hin Hni. apply holds_serve; [|by apply Hd]. intros ->. by apply Hh.
Qed.

Lemma on_all_serve ps shard c (P : wlist -> spec -> Prop) :
  (forall ws, (shard, ws) ∈ groups t -> moves t c ws P P) -> on_all t ps P -> on_all t (at_part ps shard c) P.
Proof. intros Hm Hon s ws Hin. apply holds_serve; [|by apply Hon]. intros ->. by apply Hm. Qed.

Lemma decided_serve yes w shard c : harmless yes shard c -> decided yes w -> decided yes (serve w shard c).
Proof.
  intros Hh [Hl Hth Hsw Hn]. split; cbn [log thread sweeper net parts serve] in *; [| | |done].
  - destruct (log w); [destruct Hl; split; [done|]|]; (apply on_all_serve; [intros ws Hin; by apply Hh|done]).
  - destruct (thread w); try done. by apply driver_ok_serve.
  - destruct (sweeper w); try done. by apply driver_ok_serve.
Qed.

Lemma decided_sent yes w shard ws : (shard, ws) ∈ groups t -> decided yes w ->
  decided yes (World (log w) (thread w) (sweeper w) (net w ++ [(shard, decision t (status_of yes))]) (parts w)).
Proof.
  intros Hin [Hl Hth Hsw Hn]. split; cbn [log thread sweeper net parts] in *; try done. apply Forall_app. split; [done|].
  constructor; [|constructor]. exists ws. cbn. auto.
Qed.

(** *** Driving *)

Lemma driver_ok_start yes ps : driver_ok yes ps (drive t (status_of yes)).
Proof. split; [done|]. split; [done|]. intros _ shard ws Hin Hni. destruct Hni. apply list_elem_of_fmap. by exists (shard, ws). Qed.

Lemma log_moving yes w : decided yes w -> on_all t (parts w) (moving yes).
Proof.
  intros [Hl _ _ _]. destruct (log w); [apply Hl|]. intros s ws Hin. eapply holds_weaken; [|by apply Hl]. by right.
Qed.

(** One step of driving the decision, by either thread. *)
Lemma drive_step_ok yes w d o :
  decided yes w -> driver_ok yes (parts w) d ->
  let '(w', d') := drive_step t w d o in
  decided yes w' /\ thread w' = thread w /\ sweeper w' = sweeper w /\ match d' with Some d' => driver_ok yes (parts w') d' | None => True end.
Proof.
  intros Hd (Hst & Hsub & Hr). unfold drive_step. destruct d as [st [|shard todo] ok]; cbn [d_todo d_ok d_status] in *.
  { destruct ok; [|done]. split; [|done]. destruct Hd as [Hl Hth Hsw Hn]. split; cbn [log thread sweeper net parts set_log]; try done.
    intros s ws Hin. apply Hr; [done|done|apply not_elem_of_nil]. }
  subst st. destruct (proj1 (list_elem_of_fmap _ _ _) (Hsub shard ltac:(left))) as ([sh ws] & Hsh & Hin). cbn [fst] in Hsh. subst sh.
  pose proof (decided_sent yes w shard ws Hin Hd) as Hd1. set (c := decision t (status_of yes)) in *.
  set (w1 := World (log w) (thread w) (sweeper w) (net w ++ [(shard, c)]) (parts w)) in *.
  assert (forall s, s ∈ todo -> s ∈ (groups t).*1) as Hsub' by (intros s Hs; apply Hsub; by right).
  assert (forall ps, driver_ok yes ps (Driver (status_of yes) todo (ok && false))) as Hfail.
  { intros ps. split; [done|]. split; [done|]. cbn [d_ok]. by rewrite andb_false_r. }
  assert (driver_ok yes (at_part (parts w) shard c) (Driver (status_of yes) todo (ok && true))) as Hserved.
  { split; [done|]. split; [done|]. cbn [d_ok d_todo]. intros [Hok _]%andb_true_iff s ws' Hin' Hni. destruct (decide (s = shard)) as [->|Hne].
    - rewrite (group_unique _ _ _ Hin' Hin). eapply holds_moved; [by eapply decision_moves|]. by apply (log_moving yes w Hd).
    - apply holds_serve; [done|]. apply Hr; [done|done|]. by intros [?|?]%elem_of_cons. }
  assert (decided yes (serve w1 shard c)) as Hd2 by (apply decided_serve; [apply harmless_decision|done]).
  by destruct o; cbn [send]; fold w1.
Qed.

Lemma decided_thread yes w p :
  decided yes w -> match p with Driving d => driver_ok yes (parts w) d | Answered b => b = yes | Crashed => False | _ => False end ->
  thread w <> Crashed -> decided yes (set_thread w p).
Proof.
  intros [Hl Hth Hsw Hn] Hp Hc. split; cbn [log thread sweeper net parts set_thread]; try done; [by destruct p|].
  destruct (sweeper w); try done. destruct Hsw as [?|[? _]]; [by left|]. right. split; [done|]. intros ->. done.
Qed.

Lemma decided_sweeper yes w p :
  decided yes w -> match p with SIdle => True | SSeen r => r_status r = status_of yes | SDriving d => driver_ok yes (parts w) d end ->
  decided yes (set_sweeper w p).
Proof. intros [Hl Hth Hsw Hn] Hp. split; cbn [log thread sweeper net parts set_sweeper]; try done. destruct p; auto. Qed.

(** *** The steps *)

(** Writing a decision. *)
Lemma decide_ok yes w now :
  on_all t (parts w) (moving yes) -> Forall (fun m => own_request m (fun _ c => c = decision t (status_of yes))) (net w) ->
  match sweeper w with SIdle => True | SSeen r => r_status r = Preparing | SDriving _ => False end ->
  decided yes (set_thread (txn_write w (status_of yes) now) (Driving (drive t (status_of yes)))).
Proof.
  intros Hon Hn Hs. split; cbn [log thread sweeper net parts set_thread txn_write set_log]; [done|apply driver_ok_start| |done].
  destruct (sweeper w); try done. by right.
Qed.

Lemma prepared_waiting w ready todo :
  groups t = ready ++ todo -> (forall shard ws, (shard, ws) ∈ ready -> holds t (parts w) shard ws (staged t)) ->
  (forall shard ws, (shard, ws) ∈ todo -> holds t (parts w) shard ws (clean q t)) -> on_all t (parts w) (waiting q t).
Proof.
  intros Hg Hr Hc s ws Hin. rewrite Hg in Hin. apply elem_of_app in Hin as [Hin|Hin].
  - eapply holds_weaken; [|by apply Hr]. by left.
  - eapply holds_weaken; [|by apply Hc]. by right.
Qed.

Lemma prepares_requests (ready : list (str * wlist)) allowed (ms : list (str * command)) :
  (forall g, g ∈ ready -> g ∈ groups t) ->
  Forall (fun m => exists ws, (m.1, ws) ∈ ready /\ m.2 = Prepare (txn_id t) (cts t) ws) ms -> Forall (fun m => own_request m allowed) ms.
Proof. intros Hsub. apply Forall_impl. intros m (ws & Hin & Hm). exists ws. auto. Qed.

(** Serving the next prepare. *)
Lemma prepare_served w ready shard ws todo :
  groups t = ready ++ (shard, ws) :: todo ->
  (forall s ws, (s, ws) ∈ ready -> holds t (parts w) s ws (staged t)) ->
  (forall s ws', (s, ws') ∈ (shard, ws) :: todo -> holds t (parts w) s ws' (clean q t)) ->
  let ps := at_part (parts w) shard (Prepare (txn_id t) (cts t) ws) in
  (forall s ws', (s, ws') ∈ ready ++ [(shard, ws)] -> holds t ps s ws' (staged t)) /\
  (forall s ws', (s, ws') ∈ todo -> holds t ps s ws' (clean q t)).
Proof.
  intros Hg Hready Htodo ps. pose proof (to_shards t Ht) as Hnd. rewrite Hg, fmap_app, fmap_cons in Hnd.
  apply list.NoDup_app in Hnd as (_ & Hdis & Hnd). apply list.NoDup_cons in Hnd as [Hni _]. cbn [fst] in *.
  split; intros s ws' Hin.
  - apply elem_of_app in Hin as [Hin|[= -> ->]%list_elem_of_singleton].
    + apply holds_serve; [|by apply Hready]. intros ->. exfalso. apply (Hdis shard); [apply list_elem_of_fmap; by exists (shard, ws')|left].
    + eapply holds_moved; [apply (moves_prepare q)|]. eapply holds_weaken; [|apply Htodo; left]. by right.
  - apply holds_serve; [|apply Htodo; by right]. intros ->. exfalso. apply Hni, list_elem_of_fmap. by exists (shard, ws').
Qed.

Lemma inv_prepare w o now : inv w -> inv (prepare_next t w o now).
Proof.
  intros Hi. unfold prepare_next. destruct (thread w) as [|[|[shard ws] todo]| | |] eqn:Hth; try done.
  destruct Hi as [Hu|[yes [_ Hd _ _]]]; [|by rewrite Hth in Hd].
  destruct Hu as [? Hth'|r ready todo' Hlog Hr Hth' Hseen Hg Hready Htodo Hnet|? ? ? Hth']; rewrite Hth in Hth'; try discriminate.
  injection Hth' as <-. set (c := Prepare (txn_id t) (cts t) ws).
  destruct (prepare_served w ready shard ws todo Hg Hready Htodo) as [Hready' Htodo'].
  assert (groups t = (ready ++ [(shard, ws)]) ++ todo) as Hg' by (by rewrite <- app_assoc).
  assert (Forall (fun m => exists ws', (m.1, ws') ∈ ready ++ [(shard, ws)] /\ m.2 = Prepare (txn_id t) (cts t) ws') (net w ++ [(shard, c)])) as Hnet'.
  { apply Forall_app. split; [|constructor; [exists ws; split; [apply elem_of_app; right; left|done]|constructor]].
    eapply Forall_impl; [|exact Hnet]. intros m (ws' & ? & ?). exists ws'. split; [apply elem_of_app; by left|done]. }
  assert (Forall (fun m => own_request m (fun _ c => c = decision t (status_of false))) (net w ++ [(shard, c)])) as Hreq.
  { eapply prepares_requests; [|exact Hnet']. intros g Hin. rewrite Hg'. apply elem_of_app. by left. }
  destruct o; cbn [send].
  - left. eapply (und_preparing _ r (ready ++ [(shard, ws)]) todo); cbn [log thread sweeper net parts serve set_thread]; done.
  - right. exists false. apply decide_ok; cbn [parts net sweeper serve]; [|done|by destruct (sweeper w)].
    by eapply (prepared_waiting (serve w shard c)).
  - right. exists false. apply decide_ok; cbn [parts net sweeper]; [|done|by destruct (sweeper w)]. by apply (prepared_waiting w ready ((shard, ws) :: todo)).
Qed.

Lemma inv_commit w now : inv w -> inv (commit_point t w now).
Proof.
  intros Hi. unfold commit_point. destruct (thread w) as [|[|]| | |] eqn:Hth; try done.
  destruct Hi as [Hu|[yes [_ Hd _ _]]]; [|by rewrite Hth in Hd].
  destruct Hu as [? Hth'|r ready todo' Hlog Hr Hth' Hseen Hg Hready Htodo Hnet|? ? ? Hth']; rewrite Hth in Hth'; try discriminate.
  injection Hth' as <-. rewrite app_nil_r in Hg. subst ready. right. exists true. apply decide_ok; [|by eapply prepares_requests|by destruct (sweeper w)].
  intros s ws Hin. eapply holds_weaken; [|by apply Hready]. by left.
Qed.

Lemma inv_drive w o : inv w -> inv (coordinator_drive t w o).
Proof.
  intros Hi. unfold coordinator_drive. destruct (thread w) as [| |d| |] eqn:Hth; try done.
  destruct Hi as [[? Hth'|? ? ? ? ? Hth'|? ? ? Hth']|[yes Hd]]; try congruence. right. exists yes.
  pose proof (dc_thread yes w Hd) as Hdr. rewrite Hth in Hdr. pose proof (drive_step_ok yes w d o Hd Hdr) as Hs.
  destruct (drive_step t w d o) as [w' [d'|]]; destruct Hs as (Hd' & Hth' & _ & Hx); apply decided_thread; try done; try congruence.
  destruct Hdr as [-> _]. by destruct yes.
Qed.

Lemma inv_sweep_read w : inv w -> inv (sweep_read w).
Proof.
  intros Hi. unfold sweep_read. destruct (sweeper w) eqn:Hs; try done. destruct (log w) as [r|] eqn:Hl; [|done].
  destruct Hi as [Hu|[yes Hd]].
  - left. destruct Hu as [?|r' ready todo ? ? ? ? ? ? ? ?|r' ? ? ? ? ? ?]; [congruence| |];
      [eapply (und_preparing _ r ready todo)|eapply (und_crashed _ r)]; cbn [log thread sweeper net parts set_sweeper seen_preparing]; try done; congruence.
  - right. exists yes. apply decided_sweeper; [done|]. pose proof (dc_log yes w Hd) as Hlog. rewrite Hl in Hlog. apply Hlog.
Qed.

Lemma undecided_sweeper_idle w : undecided w -> undecided (set_sweeper w SIdle).
Proof.
  intros [?|r ready todo ? ? ? ? ? ? ? ?|r ? ? ? ? ? ?]; [apply und_idle|eapply (und_preparing _ r ready todo)|eapply (und_crashed _ r)];
    cbn [log thread sweeper net parts set_sweeper seen_preparing]; done.
Qed.

Lemma inv_sweep_act w now : inv w -> fair q t w (ESweepAct now) -> inv (sweep_act t w now).
Proof.
  intros Hi Hf. unfold sweep_act. cbn [fair] in Hf. destruct (sweeper w) as [|r|] eqn:Hs; try done.
  destruct (r_status r) eqn:Hr.
  - destruct (Z.ltb_spec PREPARE_TIMEOUT (now - r_time r)) as [Hlt|_].
    + specialize (Hf eq_refl Hlt). destruct Hi as [[? ?|? ? ? ? ? ?|r' Hlog Hr' _ _ Hon Hnet]|[yes Hd]]; [congruence|congruence| |].
      * right. exists false. split; cbn [log thread sweeper net parts set_sweeper txn_write set_log]; [done|by rewrite Hf|apply driver_ok_start|].
        eapply Forall_impl; [|exact Hnet]. intros m (ws & ? & [?|[]]). exists ws. auto.
      * exfalso. pose proof (dc_sweeper yes w Hd) as Hx. rewrite Hs, Hr in Hx. destruct Hx as [Hx|[_ Hx]]; [by destruct yes|done].
    + destruct Hi as [Hu|[yes Hd]]; [left; by apply undecided_sweeper_idle|]. right. exists yes. by apply decided_sweeper.
  - destruct Hi as [[? ? Hsw|? ? ? ? ? ? Hsw|? ? ? ? Hsw]|[yes Hd]]; try (rewrite Hs in Hsw; cbn in Hsw; congruence). right. exists yes.
    pose proof (dc_sweeper yes w Hd) as Hx. rewrite Hs, Hr in Hx. destruct Hx as [Hx|[? _]]; [|done]. apply decided_sweeper; [done|].
    rewrite Hx. apply driver_ok_start.
  - destruct Hi as [[? ? Hsw|? ? ? ? ? ? Hsw|? ? ? ? Hsw]|[yes Hd]]; try (rewrite Hs in Hsw; cbn in Hsw; congruence). right. exists yes.
    pose proof (dc_sweeper yes w Hd) as Hx. rewrite Hs, Hr in Hx. destruct Hx as [Hx|[? _]]; [|done]. apply decided_sweeper; [done|].
    rewrite Hx. apply driver_ok_start.
Qed.

Lemma inv_sweep_drive w o : inv w -> inv (sweep_drive t w o).
Proof.
  intros Hi. unfold sweep_drive. destruct (sweeper w) as [| |d] eqn:Hs; try done.
  destruct Hi as [[? ? Hsw|? ? ? ? ? ? Hsw|? ? ? ? Hsw]|[yes Hd]]; try (rewrite Hs in Hsw; cbn in Hsw; done). right. exists yes.
  pose proof (dc_sweeper yes w Hd) as Hdr. rewrite Hs in Hdr. pose proof (drive_step_ok yes w d o Hd Hdr) as Hx.
  destruct (drive_step t w d o) as [w' [d'|]]; destruct Hx as (Hd' & _ & _ & Hx); by apply decided_sweeper.
Qed.

Lemma inv_crash w : inv w -> inv (set_sweeper (set_thread w Crashed) SIdle).
Proof.
  intros [[Hl ? ? Hn Hon|r ready todo Hl Hr ? ? Hg Hready Htodo Hnet|r Hl Hr ? ? Hon Hnet]|[yes [Hl Hth Hsw Hn]]].
  - right. exists false. split; cbn [log thread sweeper net parts set_sweeper set_thread]; [by rewrite Hl|done|done|by rewrite Hn].
  - left. eapply (und_crashed _ r); cbn [log thread sweeper net parts set_sweeper set_thread seen_preparing]; try done; [by eapply prepared_waiting|].
    eapply prepares_requests; [|exact Hnet]. intros g Hin. rewrite Hg. apply elem_of_app. by left.
  - left. by eapply (und_crashed _ r).
  - right. exists yes. by split.
Qed.
Lemma inv_other w shard c : inv w -> foreign t c -> inv (serve w shard c).
Proof.
  intros Hi Hc. assert (forall s ws P, own t P -> holds t (parts w) s ws P -> holds t (at_part (parts w) shard c) s ws P) as Hh.
  { intros s ws P HP. apply holds_serve. intros _. by apply own_moves. }
  destruct Hi as [[? ? ? ? Hon|r ready todo ? ? ? ? ? Hr Hto ?|r ? ? ? ? Hon ?]|[yes Hd]].
  - left. apply und_idle; try done. intros s ws Hin. apply Hh; [apply own_clean|by apply Hon].
  - left. eapply (und_preparing _ r ready todo); try done; intros s ws Hin; (apply Hh; [|by auto]); [apply own_staged|apply own_clean].
  - left. eapply (und_crashed _ r); try done. intros s ws Hin. apply Hh; [|by apply Hon]. apply own_or; [apply own_staged|apply own_clean].
  - right. exists yes. apply decided_serve; [by apply harmless_foreign|done].
Qed.

(** A request that is served late or again. *)
Lemma inv_serve w i : inv w -> fair q t w (EServe i) -> inv (step t w (EServe i)).
Proof.
  intros Hi Hf. cbn [step fair] in *. destruct (net w !! i) as [[shard c]|] eqn:Hm; [|done]. apply list_elem_of_lookup_2 in Hm.
  destruct Hi as [[? ? ? Hn|r ready todo ? ? ? ? Hg Hr Hto Hn|r ? ? ? ? Hon Hn]|[yes Hd]].
  - rewrite Hn in Hm. by apply not_elem_of_nil in Hm.
  - left. rewrite list.Forall_forall in Hn. destruct (Hn _ Hm) as (ws & Hin & Hc). cbn in Hin, Hc. subst c.
    pose proof (to_shards t Ht) as Hnd. rewrite Hg, fmap_app in Hnd. apply list.NoDup_app in Hnd as (_ & Hdis & _).
    eapply (und_preparing _ r ready todo); try done; cbn [parts net serve]; [| |by apply list.Forall_forall].
    + intros s ws' Hin'. apply holds_serve; [|by apply Hr]. intros ->.
      assert (ws' = ws) as -> by (eapply (group_unique shard); rewrite Hg; apply elem_of_app; by left).
      intros sp Ho Hs. apply (moves_prepare q); [done|by left].
    + intros s ws' Hin'. apply holds_serve; [|by apply Hto]. intros ->. exfalso. apply (Hdis shard); apply list_elem_of_fmap; [by exists (shard, ws)|by exists (shard, ws')].
  - left. rewrite list.Forall_forall in Hn. destruct (Hn _ Hm) as (ws & Hin & [Hc|[]]). cbn in Hin, Hc. subst c.
    eapply (und_crashed _ r); try done; cbn [parts net serve]; [|by apply list.Forall_forall]. apply on_all_serve; [|done].
    intros ws' Hin'. rewrite (group_unique _ _ _ Hin' Hin). intros sp Ho Hs. destruct (moves_prepare q t ws sp Ho Hs). split; [done|by left].
  - right. exists yes. pose proof (dc_net yes w Hd) as Hn. rewrite list.Forall_forall in Hn. destruct (Hn _ Hm) as (ws & Hin & Hc). cbn in Hin, Hc.
    apply decided_serve; [|done]. destruct Hc as [-> | ->]; [by apply harmless_prepare|apply harmless_decision].
Qed.

Lemma inv_begin w now : inv w -> inv (step t w (EBegin now)).
Proof.
  intros Hi. cbn [step]. destruct (thread w) eqn:Hth; try done.
  destruct Hi as [[? _ Hs Hn Hon|? ? ? ? ? Hth'|? ? ? Hth']|[yes [_ Hd _ _]]]; [|congruence|congruence|by rewrite Hth in Hd].
  left. eapply (und_preparing _ (Record_ Preparing now) [] (groups t)); try done; cbn [begin_2pc sweeper net set_thread txn_write set_log].
  - by rewrite Hs.
  - intros s ws Hin. by apply not_elem_of_nil in Hin.
  - by rewrite Hn.
Qed.

Lemma inv_step w e : inv w -> fair q t w e -> inv (step t w e).
Proof.
  intros Hi Hf. destruct e; [by apply inv_begin|by apply inv_prepare|by apply inv_commit|by apply inv_drive|by apply inv_sweep_read|
    by apply inv_sweep_act|by apply inv_sweep_drive|by apply inv_serve|by apply inv_crash|by apply inv_other].
Qed.

Lemma inv_run es w : inv w -> fair_run q t w es -> inv (foldl (step t) w es).
Proof. revert w. induction es as [|e es IH]; intros w Hi; [done|]. intros [Hf Hr]. cbn [foldl]. auto using inv_step. Qed.

(** All participants go for the commit, or none does. *)
Lemma inv_cases w : inv w -> on_all t (parts w) (going q t) \/ on_all t (parts w) (waiting q t).
Proof.
  intros [[? ? ? ? Hon|r ready todo ? ? ? ? Hg Hr Hto ?|r ? ? ? ? Hon ?]|[[] Hd]].
  - right. intros s ws Hin. eapply holds_weaken; [|by apply Hon]. by right.
  - right. by eapply prepared_waiting.
  - by right.
  - left. by apply (log_moving true).
  - right. by apply (log_moving false).
Qed.
End run.

(** *** Completion *)

(** One pass of the sweep over the transaction in which every call is answered. *)
Definition sweep_pass (t : txn) (now : Z) : list event :=
  ESweepRead :: ESweepAct now :: replicate (S (length (groups t))) (ESweepDrive Acked).

Lemma drive_completes t st todo w :
  sweeper w = SDriving (Driver st todo true) -> log (foldl (step t) w (replicate (S (length todo)) (ESweepDrive Acked))) = None.
Proof.
  revert w. induction todo as [|s todo IH]; intros w Hs; cbn [length]; rewrite replicate_S; cbn [foldl].
  - cbn [replicate foldl step]. unfold sweep_drive. by rewrite Hs.
  - apply IH. cbn [step]. unfold sweep_drive. by rewrite Hs.
Qed.

Lemma sweep_idle t w n : sweeper w = SIdle -> foldl (step t) w (replicate n (ESweepDrive Acked)) = w.
Proof. intros Hs. induction n as [|n IH]; [done|]. rewrite replicate_S. cbn [foldl]. assert (step t w (ESweepDrive Acked) = w) as -> by (cbn [step]; unfold sweep_drive; by rewrite Hs). done. Qed.

Lemma sweep_completes t w now :
  sweeper w = SIdle -> (forall r, log w = Some r -> r_time r + PREPARE_TIMEOUT < now) -> log (foldl (step t) w (sweep_pass t now)) = None.
Proof.
  intros Hs Hl. unfold sweep_pass. cbn [foldl]. destruct (log w) as [r|] eqn:Hlog.
  - specialize (Hl r eq_refl). assert (step t w ESweepRead = set_sweeper w (SSeen r)) as -> by (cbn [step]; unfold sweep_read; by rewrite Hs, Hlog).
    rewrite <- (length_fmap fst (groups t)). cbn [step]. unfold sweep_act. cbn [sweeper set_sweeper].
    destruct (r_status r); [|by apply (drive_completes t Committing)|by apply (drive_completes t Aborted)].
    destruct (Z.ltb_spec PREPARE_TIMEOUT (now - r_time r)); [|lia]. by apply (drive_completes t Aborted).
  - assert (step t w ESweepRead = w) as -> by (cbn [step]; unfold sweep_read; by rewrite Hs, Hlog).
    assert (step t w (ESweepAct now) = w) as -> by (cbn [step]; unfold sweep_act; by rewrite Hs). by rewrite sweep_idle.
Qed.

(** C35: two-phase commit is atomic.  Take any run of one transaction with calls and answers
    lost, requests served late or repeatedly, crashes, sweeps on stale records and operations of
    other transactions in between, under one condition: the sweep does not abort the
    transaction past the timeout while its coordinator has not crashed.  Once no record is left,
    all participants have committed or none shows an effect; a commit that is visible on one
    participant is prepared or visible on all; the client's answer is true to the outcome; and a
    later pass of the sweep whose calls are all answered removes the record.  If no prepare is
    served late ([prompt]), no participant then holds a lock of the transaction. *)
Theorem twopc_atomic prompt t ps es :
  txn_ok t -> on_all t ps (clean prompt t) -> fair_run prompt t (World None Idle SIdle [] ps) es ->
  let w := foldl (step t) (World None Idle SIdle [] ps) es in
  (log w = None -> on_all t (parts w) (committed prompt t) \/ on_all t (parts w) (clean prompt t)) /\
  (forall shard ws sp, (shard, ws) ∈ groups t -> ws <> [] -> parts w !! shard = Some sp -> visible t ws sp -> on_all t (parts w) (going prompt t)) /\
  (thread w = Answered true -> on_all t (parts w) (going prompt t)) /\
  (thread w = Answered false -> on_all t (parts w) (waiting prompt t)) /\
  (forall now, sweeper w = SIdle -> (forall r, log w = Some r -> r_time r + PREPARE_TIMEOUT < now) ->
     log (foldl (step t) w (sweep_pass t now)) = None).
Proof.
  intros Ht Hc Hf w. assert (inv prompt t w) as Hi by (apply inv_run; [done| |done]; left; by apply und_idle). clearbody w. clear Hc Hf es ps.
  split; [|split; [|split; [|split]]].
  - intros Hl. destruct Hi as [[? ? ? ? Hon|? ? ? ?|? ?]|[[] Hd]]; [by right|congruence|congruence| |];
      pose proof (dc_log _ _ _ _ Hd) as Hx; rewrite Hl in Hx; [by left|by right].
  - intros shard ws sp Hin Hne Hs Hv. destruct (inv_cases prompt t w Hi) as [?|Hw]; [done|]. exfalso.
    destruct (Hw shard ws Hin) as (sp' & Hs' & _ & Hp). assert (sp' = sp) as -> by congruence.
    destruct ws as [|[k v] ws]; [done|]. specialize (Hv k v ltac:(left)).
    destruct Hp as [[Hu _]|[Hu _]]; rewrite (Hu k) in Hv by left; done.
  - intros Hth. destruct Hi as [[]|[yes Hd]]; [congruence..|]. pose proof (dc_thread _ _ _ _ Hd) as Hx. rewrite Hth in Hx. subst yes.
    by apply (log_moving prompt t true).
  - intros Hth. destruct Hi as [[]|[yes Hd]]; [congruence..|]. pose proof (dc_thread _ _ _ _ Hd) as Hx. rewrite Hth in Hx. subst yes.
    by apply (log_moving prompt t false).
  - intros now Hs Hl. by apply sweep_completes.
Qed.

Definition demo_txn : txn := Txn (py "txn-1") [(py "s1", [(py "a", Some (py "x"))]); (py "s2", [(py "b", None)])] 7.
Definition demo_parts : gmap str spec := {[ py "s1" := Spec ∅ ∅ 0; py "s2" := Spec ∅ ∅ 0 ]}.
Definition demo_start : world := World None Idle SIdle [] demo_parts.

Lemma demo_txn_ok : txn_ok demo_txn.
Proof.
  split; [refine (bool_decide_unpack _ _); by vm_compute| |cbn; unfold MAX_TS; lia].
  repeat constructor; apply not_elem_of_nil.
Qed.

Lemma demo_clean prompt : on_all demo_txn demo_parts (clean prompt demo_txn).
Proof.
  intros shard ws [[= -> ->]|[[= -> ->]|Hin%not_elem_of_nil]%elem_of_cons]%elem_of_cons; [| |done];
    exists (Spec ∅ ∅ 0); (split; [by vm_compute|]); (split; [done|]); (split; [done|by left]).
Qed.

Lemma twopc_atomic_witness :
  let es := [EBegin 0; EPrepare Acked 0; ESweepRead; EPrepare Acked 0; ESweepAct 1; ECommit 1; EDrive Acked; EServe 0; EDrive ReplyLost; ECrash;
             ESweepRead; ESweepAct 20; ESweepDrive Acked; EServe 2; ESweepDrive Acked; ESweepDrive Acked] in
  let w := foldl (step demo_txn) demo_start es in
  log w = None /\ (on_all demo_txn (parts w) (committed false demo_txn) \/ on_all demo_txn (parts w) (clean false demo_txn)).
Proof.
  intros es w. assert (log w = None) as Hl by reflexivity. split; [exact Hl|].
  refine (proj1 (twopc_atomic false demo_txn demo_parts es demo_txn_ok (demo_clean false) _) Hl). vm_compute. intuition discriminate.
Defined.

(** The sweep of a coordinator that is slow aborts its own transaction: the first shard drops
    its intent, the coordinator goes on, and the commit it acknowledges to the client is
    applied on the second shard only. *)
Theorem twopc_sweep_race :
  let es := [EBegin 0; EPrepare Acked 5; ESweepRead; ESweepAct 11; ESweepDrive Acked; ESweepDrive Acked; ESweepDrive Acked;
             EPrepare Acked 12; ECommit 13; EDrive Acked; EDrive Acked; EDrive Acked] in
  let w := foldl (step demo_txn) demo_start es in
  log w = None /\ thread w = Answered true /\
  (sp_versions <$> parts w !! py "s1") = Some ∅ /\
  (sp_versions <$> parts w !! py "s2") = Some {[ version_key (py "b") 7 := TOMBSTONE ]}.
Proof. by vm_compute. Qed.

(** The same with a record that has become stale: the sweep reads it while the coordinator is
    preparing and comes to it after the commit point. *)
Theorem twopc_stale_record :
  let es := [EBegin 0; EPrepare Acked 5; ESweepRead; EPrepare Acked 6; ECommit 7; EDrive Acked; ESweepAct 11; ESweepDrive Acked; ESweepDrive Acked;
             ESweepDrive Acked; EDrive Acked; EDrive Acked] in
  let w := foldl (step demo_txn) demo_start es in
  log w = None /\ thread w = Answered true /\
  (sp_versions <$> parts w !! py "s1") = Some {[ version_key (py "a") 7 := py "x" ]} /\
  (sp_versions <$> parts w !! py "s2") = Some ∅.
Proof. by vm_compute. Qed.

(** A prepare that is served after the abort stages an intent that no record resolves. *)
Theorem twopc_late_prepare :
  let es := [EBegin 0; EPrepare NotServed 5; EDrive Acked; EDrive Acked; EDrive Acked; EServe 0] in
  let w := foldl (step demo_txn) demo_start es in
  log w = None /\ thread w = Answered false /\ fair_run false demo_txn demo_start es /\
  (fun sp => sp_intents sp !! py "txn-1") <$> parts w !! py "s1" = Some (Some (7, [(py "a", Some (py "x"))])).
Proof. by vm_compute. Qed.

(** ** Grouping *)

(** Grouping keeps every write, in order, in the group of its shard, and makes no empty group. *)
Theorem group_writes_partition shard_for ws :
  NoDup (group_writes shard_for ws).*1 /\
  forall shard, dict_get (group_writes shard_for ws) shard =
    match filter (fun kv => shard_for kv.1 = shard) ws with [] => None | w => Some w end.
Proof.
  induction ws as [|kv ws [Hnd IH]] using rev_ind; [split; [constructor|done]|].
  unfold group_writes in *. rewrite foldl_app. cbn [foldl]. set (gs := foldl _ [] ws) in *. unfold group_add. split.
  - case_match; by apply dict_set_NoDup.
  - intros shard. rewrite list.filter_app, filter_cons. pose proof (IH (shard_for kv.1)) as IHs. specialize (IH shard).
    destruct (dict_get gs (shard_for kv.1)) as [w|] eqn:Hg; rewrite dict_get_set; destruct (decide (shard = shard_for kv.1)) as [->|Hne].
    + rewrite decide_True by done. destruct (filter _ ws) as [|x l] eqn:Hfl; [done|]. injection IHs as ->. done.
    + rewrite decide_False by done. by rewrite filter_nil, app_nil_r.
    + rewrite decide_True by done. by destruct (filter _ ws) eqn:Hfl.
    + rewrite decide_False by done. by rewrite filter_nil, app_nil_r.
Qed.
