(* ===== verification/RaftNode.v ===== *)
(** * Networked Raft groups: [litedb-python/raft_node.py]

    [RaftGroup]: the Raft of the cluster, with persisted term, vote and log, pre-votes,
    leader stickiness, an election no-op and configurations that live in the log.  A
    cluster runs the handlers one at a time (each holds the group's lock); the RPCs of the
    background threads are messages that may be handled in any order or never.  Timers are
    not modelled: any group may start a pre-election at any time, and whether a leader was
    heard of recently is an input of the vote handler.  A group may restart at any time
    from what it wrote to disk.

    The theorems: election safety and log matching for a fixed configuration, also across
    restarts; what is on disk is what a group works with.  And runs in which the protocol
    goes wrong: a split vote that is never resolved, a single voter that never leads, and
    two leaders that apply different commands at one index, after two configuration changes
    or after an answer from an earlier term. *)

From stdpp Require Import functions.
From S2P Require Import Prelude.

(** ** Data *)

Inductive role := Follower | Candidate | Leader.
#[export] Instance role_eq_dec : EqDecision role.
Proof. solve_decision. Defined.

(** A configuration entry stores the voters as a sorted list and is read back as a set. *)
Inductive command := Noop | ConfigTo (new : gset str) | Data (text : str).
#[export] Instance command_eq_dec : EqDecision command.
Proof. solve_decision. Defined.

Record entry := Entry { e_term : nat; e_index : nat; e_command : command }.
#[export] Instance entry_eq_dec : EqDecision entry.
Proof. solve_decision. Defined.

Record vote_request := VoteRequest { vq_pre : bool; vq_term : nat; vq_candidate : str; vq_last_index : nat; vq_last_term : nat }.
Record vote_response := VoteResponse { vr_term : nat; vr_granted : bool; vr_voter : str }.
Record append_request := AppendRequest {
  aq_term : nat; aq_leader : str; aq_prev_index : nat; aq_prev_term : nat; aq_entries : list entry; aq_commit : nat }.
Record append_response := AppendResponse { ar_term : nat; ar_success : bool; ar_match : nat }.

(** What [_persist_meta], [_append_log_persist] and [_rewrite_log] write. *)
Record disk := Disk { d_term : nat; d_vote : option str; d_log : list entry }.

Record group := mkGroup {
  node_id : str;
  initial_voters : gset str;
  voters : gset str;
  current_term : nat;
  voted_for : option str;
  log : list entry;
  stored : disk;
  commit_index : nat;
  applied : list entry;
  grole : role;
  leader_id : option str;
  votes_received : gset str;
  pre_votes : gset str;
  pre_vote_term : nat;
  next_index : gmap str nat;
  match_index : gmap str nat;
}.

(** [last_applied] and the term of the last applied entry. *)
Definition last_applied (n : group) : nat := length (applied n).
Definition last_applied_term (n : group) : nat := match list.last (applied n) with Some e => e_term e | None => 0 end.

Definition peers (n : group) : gset str := voters n ∖ {[node_id n]}.
Definition majority (n : group) : nat := size (voters n) / 2 + 1.
Definition last_log_term (n : group) : nat := match list.last (log n) with Some e => e_term e | None => 0 end.

(** ** Persistence and configuration *)

Definition with_log (n : group) (l : list entry) (d : disk) : group :=
  mkGroup (node_id n) (initial_voters n) (voters n) (current_term n) (voted_for n) l d (commit_index n) (applied n)
    (grole n) (leader_id n) (votes_received n) (pre_votes n) (pre_vote_term n) (next_index n) (match_index n).

Definition persist_meta (n : group) : group :=
  with_log n (log n) (Disk (current_term n) (voted_for n) (d_log (stored n))).

Definition append_log_persist (n : group) (e : entry) : group :=
  with_log n (log n) (Disk (d_term (stored n)) (d_vote (stored n)) (d_log (stored n) ++ [e])).

Definition rewrite_log (n : group) : group :=
  with_log n (log n) (Disk (d_term (stored n)) (d_vote (stored n)) (log n)).

(** The voters of the latest configuration entry. *)
Fixpoint config_of (l : list entry) (init : gset str) : gset str :=
  match l with
  | [] => init
  | e :: l => config_of l (match e_command e with ConfigTo vs => vs | _ => init end)
  end.

Definition set_default (m : gmap str nat) (v : nat) (ps : gset str) : gmap str nat :=
  set_fold (fun p m => match m !! p with Some _ => m | None => <[p := v]> m end) m ps.

Definition set_voters (n : group) (vs : gset str) : group :=
  if decide (vs = voters n) then n
  else
    let ps := vs ∖ {[node_id n]} in
    mkGroup (node_id n) (initial_voters n) vs (current_term n) (voted_for n) (log n) (stored n) (commit_index n) (applied n)
      (grole n) (leader_id n) (votes_received n) (pre_votes n) (pre_vote_term n)
      (set_default (next_index n) (length (log n) + 1) ps) (set_default (match_index n) 0 ps).

Definition refresh_voters (n : group) : group := set_voters n (config_of (log n) (initial_voters n)).

(** [__init__] with [_recover]. *)
Definition recover (id : str) (init : gset str) (d : disk) : group :=
  refresh_voters (mkGroup id init init (d_term d) (d_vote d) (d_log d) d 0 [] Follower None ∅ ∅ 0 ∅ ∅).

Definition new_group (id : str) (init : gset str) : group := recover id init (Disk 0 None []).

(** ** Roles *)

Definition become_follower (n : group) (term : nat) : group :=
  let changed := negb (Nat.eqb term (current_term n)) || bool_decide (is_Some (voted_for n)) in
  let n := mkGroup (node_id n) (initial_voters n) (voters n) term None (log n) (stored n) (commit_index n) (applied n)
             Follower (leader_id n) (votes_received n) (pre_votes n) (pre_vote_term n) (next_index n) (match_index n) in
  if changed then persist_meta n else n.

(** A new entry of the leader: in the log and on disk. *)
Definition append_own (n : group) (c : command) : group :=
  let e := Entry (current_term n) (length (log n) + 1) c in
  append_log_persist (with_log n (log n ++ [e]) (stored n)) e.

Definition become_leader (n : group) : group :=
  let nxt := length (log n) + 1 in
  let n := mkGroup (node_id n) (initial_voters n) (voters n) (current_term n) (voted_for n) (log n) (stored n) (commit_index n)
             (applied n) Leader (Some (node_id n)) (votes_received n) (pre_votes n) (pre_vote_term n)
             (set_fold (fun p m => <[p := nxt]> m) (next_index n) (peers n))
             (set_fold (fun p m => <[p := 0]> m) (match_index n) (peers n)) in
  append_own n Noop.

(** ** Elections *)

Definition request_of (n : group) (pre : bool) (term : nat) : vote_request :=
  VoteRequest pre term (node_id n) (length (log n)) (last_log_term n).

(** [_start_election]; the request goes to every peer. *)
Definition start_election (n : group) : group * list (str * vote_request) :=
  let n := persist_meta
    (mkGroup (node_id n) (initial_voters n) (voters n) (S (current_term n)) (Some (node_id n)) (log n) (stored n) (commit_index n)
       (applied n) Candidate (leader_id n) {[node_id n]} (pre_votes n) (pre_vote_term n) (next_index n) (match_index n)) in
  (n, map (fun p => (p, request_of n false (current_term n))) (elements (peers n))).

Definition set_pre_votes (n : group) (vs : gset str) (term : nat) : group :=
  mkGroup (node_id n) (initial_voters n) (voters n) (current_term n) (voted_for n) (log n) (stored n) (commit_index n) (applied n)
    (grole n) (leader_id n) (votes_received n) vs term (next_index n) (match_index n).

Definition start_pre_election (n : group) : group * list (str * vote_request) :=
  let n := set_pre_votes n {[node_id n]} (S (current_term n)) in
  if Nat.leb (majority n) (size (pre_votes n ∩ voters n)) then start_election n
  else (n, map (fun p => (p, request_of n true (pre_vote_term n))) (elements (peers n))).

(** The part of [_request_pre_vote] that handles the answer. *)
Definition on_pre_vote (n : group) (r : vote_response) : group * list (str * vote_request) :=
  if negb (bool_decide (grole n = Follower)) || negb (Nat.eqb (pre_vote_term n) (S (current_term n))) then (n, [])
  else if Nat.ltb (current_term n) (vr_term r) then (become_follower n (vr_term r), [])
  else if vr_granted r then
    let n := set_pre_votes n ({[vr_voter r]} ∪ pre_votes n) (pre_vote_term n) in
    if Nat.leb (majority n) (size (pre_votes n ∩ voters n)) then start_election n else (n, [])
  else (n, []).

Definition add_vote (n : group) (v : str) : group :=
  mkGroup (node_id n) (initial_voters n) (voters n) (current_term n) (voted_for n) (log n) (stored n) (commit_index n) (applied n)
    (grole n) (leader_id n) ({[v]} ∪ votes_received n) (pre_votes n) (pre_vote_term n) (next_index n) (match_index n).

(** The part of [_request_vote] that handles the answer. *)
Definition on_vote (n : group) (r : vote_response) : group :=
  if negb (bool_decide (grole n = Candidate)) || Nat.ltb (vr_term r) (current_term n) then n
  else if Nat.ltb (current_term n) (vr_term r) then become_follower n (vr_term r)
  else if vr_granted r then
    let n := add_vote n (vr_voter r) in
    if Nat.leb (majority n) (size (votes_received n ∩ voters n)) then become_leader n else n
  else n.

Definition up_to_date (n : group) (q : vote_request) : bool :=
  Nat.ltb (last_log_term n) (vq_last_term q) ||
  (Nat.eqb (vq_last_term q) (last_log_term n) && Nat.leb (length (log n)) (vq_last_index q)).

Definition may_vote (n : group) (c : str) : bool := match voted_for n with None => true | Some v => v =s? c end.

Definition set_vote (n : group) (c : str) : group :=
  persist_meta (mkGroup (node_id n) (initial_voters n) (voters n) (current_term n) (Some c) (log n) (stored n) (commit_index n)
    (applied n) (grole n) (leader_id n) (votes_received n) (pre_votes n) (pre_vote_term n) (next_index n) (match_index n)).

(** [handle_vote]; [recent]: a leader was heard of within the election timeout. *)
Definition handle_vote (n : group) (q : vote_request) (recent : bool) : group * vote_response :=
  let n := if negb (vq_pre q) && Nat.ltb (current_term n) (vq_term q) then become_follower n (vq_term q) else n in
  let leader_recent := bool_decide (grole n = Leader) || (bool_decide (is_Some (leader_id n)) && recent) in
  if vq_pre q then
    (n, VoteResponse (current_term n) (Nat.leb (current_term n) (vq_term q) && up_to_date n q && negb leader_recent) (node_id n))
  else if Nat.leb (current_term n) (vq_term q) && may_vote n (vq_candidate q) && up_to_date n q then
    let n := set_vote n (vq_candidate q) in (n, VoteResponse (current_term n) true (node_id n))
  else (n, VoteResponse (current_term n) false (node_id n)).

(** ** Replication *)

(** [_apply_committed]: the committed entries are handed to the state machine in order, and a
    leader outside the configuration steps down. *)
Definition apply_committed (n : group) : group :=
  let todo := take (commit_index n - last_applied n) (drop (last_applied n) (log n)) in
  let out := bool_decide (grole n = Leader) && negb (bool_decide (node_id n ∈ voters n)) in
  mkGroup (node_id n) (initial_voters n) (voters n) (current_term n) (voted_for n) (log n) (stored n) (commit_index n)
    (applied n ++ todo) (if out then Follower else grole n) (if out then None else leader_id n)
    (votes_received n) (pre_votes n) (pre_vote_term n) (next_index n) (match_index n).

Definition set_commit (n : group) (i : nat) : group :=
  mkGroup (node_id n) (initial_voters n) (voters n) (current_term n) (voted_for n) (log n) (stored n) i (applied n)
    (grole n) (leader_id n) (votes_received n) (pre_votes n) (pre_vote_term n) (next_index n) (match_index n).

(** The voters that have the entry at [idx]. *)
Definition holders (n : group) (idx : nat) : nat :=
  (if bool_decide (node_id n ∈ voters n) then 1 else 0) + size (filter (fun p => idx <= default 0 (match_index n !! p)) (peers n)).

(** The loop of [_advance_commit], from [idx] down. *)
Fixpoint advance_from (n : group) (idx : nat) : group :=
  match idx with
  | O => n
  | S i =>
      if Nat.leb idx (commit_index n) then n
      else
        match log n !! i with
        | Some e =>
            if Nat.eqb (e_term e) (current_term n) && Nat.leb (majority n) (holders n idx)
            then apply_committed (set_commit n idx) else advance_from n i
        | None => n
        end
  end.
Definition advance_commit (n : group) : group := advance_from n (length (log n)).

(** The first half of [_replicate_to]: the request. *)
Definition append_to (n : group) (p : str) : append_request :=
  let next := default 1 (next_index n !! p) in
  let prev := next - 1 in
  AppendRequest (current_term n) (node_id n) prev
    (match prev with O => 0 | S i => match log n !! i with Some e => e_term e | None => 0 end end)
    (drop (next - 1) (log n)) (commit_index n).

Definition set_peer (n : group) (p : str) (mi : option nat) (ni : nat) : group :=
  mkGroup (node_id n) (initial_voters n) (voters n) (current_term n) (voted_for n) (log n) (stored n) (commit_index n) (applied n)
    (grole n) (leader_id n) (votes_received n) (pre_votes n) (pre_vote_term n)
    (<[p := ni]> (next_index n)) (match mi with Some m => <[p := m]> (match_index n) | None => match_index n end).

(** The second half: the answer. *)
Definition on_append (n : group) (p : str) (r : append_response) : group :=
  if Nat.ltb (current_term n) (ar_term r) then become_follower n (ar_term r)
  else if negb (bool_decide (grole n = Leader)) then n
  else if ar_success r then advance_commit (set_peer n p (Some (ar_match r)) (ar_match r + 1))
  else set_peer n p None (Nat.max 1 (ar_match r + 1)).

(** The loop over the entries of a request: log, disk log, and whether it has to be rewritten.
    Indices start at 1. *)
Definition take_entry (st : list entry * list entry * bool) (e : entry) : list entry * list entry * bool :=
  let '(l, d, rewrote) := st in
  if Nat.leb (e_index e) (length l) then
    match l !! (e_index e - 1) with
    | Some x => if Nat.eqb (e_term x) (e_term e) then (l, d, rewrote) else (take (e_index e - 1) l ++ [e], d, true)
    | None => (l, d, rewrote)
    end
  else (l ++ [e], if rewrote : bool then d else d ++ [e], rewrote).

Definition take_entries (n : group) (es : list entry) : group :=
  let '(l, d, rewrote) := foldl take_entry (log n, d_log (stored n), false) es in
  let n := with_log n l (Disk (d_term (stored n)) (d_vote (stored n)) (if rewrote : bool then l else d)) in
  match es with [] => n | _ => refresh_voters n end.

Definition set_leader (n : group) (l : str) : group :=
  mkGroup (node_id n) (initial_voters n) (voters n) (current_term n) (voted_for n) (log n) (stored n) (commit_index n) (applied n)
    (grole n) (Some l) (votes_received n) (pre_votes n) (pre_vote_term n) (next_index n) (match_index n).

Definition handle_append (n : group) (q : append_request) : group * append_response :=
  let n := if Nat.ltb (current_term n) (aq_term q) then become_follower n (aq_term q) else n in
  if Nat.ltb (aq_term q) (current_term n) then (n, AppendResponse (current_term n) false 0)
  else
    let n := set_leader n (aq_leader q) in
    let n := if bool_decide (grole n = Candidate) then become_follower n (aq_term q) else n in
    let prev := aq_prev_index q in
    if Nat.ltb 0 prev && Nat.ltb (length (log n)) prev then (n, AppendResponse (current_term n) false (length (log n)))
    else if Nat.ltb 0 prev && negb (bool_decide ((e_term <$> log n !! (prev - 1)) = Some (aq_prev_term q))) then
      let n := rewrite_log (with_log n (take (prev - 1) (log n)) (stored n)) in
      (n, AppendResponse (current_term n) false (length (log n)))
    else
      let n := take_entries n (aq_entries q) in
      let n := if Nat.ltb (commit_index n) (aq_commit q)
               then apply_committed (set_commit n (Nat.min (aq_commit q) (length (log n)))) else n in
      (n, AppendResponse (current_term n) true (length (log n))).

(** ** Clients *)

Definition propose (n : group) (c : command) : group * option nat :=
  if bool_decide (grole n = Leader) then (append_own n c, Some (length (log n) + 1)) else (n, None).

Definition reconfigure (n : group) (new : gset str) : group * option nat :=
  if negb (bool_decide (grole n = Leader)) then (n, None)
  else if negb (Nat.eqb (size ((voters n ∖ new) ∪ (new ∖ voters n))) 1) then (n, None)
  else let '(n, idx) := propose n (ConfigTo new) in (refresh_voters n, idx).

Definition is_ready (n : group) : bool := bool_decide (grole n = Leader) && Nat.eqb (last_applied_term n) (current_term n).

(** ** The cluster

    A message stays in [net]: a retried call may be handled twice, a lost one never is.
    [wins] records the elections won, with the voters that made the majority. *)

Inductive msg :=
  | MVote (to : str) (q : vote_request)
  | MVoted (to : str) (pre : bool) (r : vote_response)
  | MAppend (to : str) (q : append_request)
  | MAppended (to from : str) (r : append_response).

Record cluster := mkCluster {
  groups : gmap str group;
  net : list msg;
  wins : list (nat * str * gset str);
}.

Definition new_cluster (ids : gset str) : cluster :=
  mkCluster (set_to_map (fun i => (i, new_group i ids)) ids) [] [].

Inductive event :=
  | Campaign (i : str)
  | Replicate (i p : str)
  | Deliver (k : nat) (recent : bool)
  | Propose (i : str) (text : str)
  | Reconfigure (i : str) (new : gset str)
  | Restart (i : str).

(** Group [i] went from [n] to [n'] and sent [ms]. *)
Definition put (c : cluster) (i : str) (n n' : group) (ms : list msg) : cluster :=
  mkCluster (<[i := n']> (groups c)) (net c ++ ms)
    (if decide (grole n <> Leader /\ grole n' = Leader)
     then (current_term n', i, votes_received n' ∩ voters n') :: wins c else wins c).

Definition vote_msgs (qs : list (str * vote_request)) : list msg := map (fun pq => MVote pq.1 pq.2) qs.

Definition on_msg (n : group) (m : msg) (recent : bool) : group * list msg :=
  match m with
  | MVote to q => let '(n', r) := handle_vote n q recent in (n', [MVoted (vq_candidate q) (vq_pre q) r])
  | MVoted to true r => let '(n', qs) := on_pre_vote n r in (n', vote_msgs qs)
  | MVoted to false r => (on_vote n r, [])
  | MAppend to q => let '(n', r) := handle_append n q in (n', [MAppended (aq_leader q) (node_id n) r])
  | MAppended to from r => (on_append n from r, [])
  end.

Definition msg_to (m : msg) : str :=
  match m with MVote to _ | MVoted to _ _ | MAppend to _ | MAppended to _ _ => to end.

(** What group [n] does at an event of its own: the guards of the election and leader loops. *)
Definition on_event (n : group) (e : event) : group * list msg :=
  match e with
  | Campaign _ =>
      if bool_decide (grole n = Leader) || negb (bool_decide (node_id n ∈ voters n)) then (n, [])
      else let '(n', qs) := start_pre_election n in (n', vote_msgs qs)
  | Replicate _ p =>
      if bool_decide (grole n = Leader) && negb (p =s? node_id n) then (n, [MAppend p (append_to n p)]) else (n, [])
  | Propose _ t => ((propose n (Data t)).1, [])
  | Reconfigure _ new => ((reconfigure n new).1, [])
  | Restart _ => (recover (node_id n) (initial_voters n) (stored n), [])
  | Deliver _ _ => (n, [])
  end.

Definition cstep (c : cluster) (e : event) : cluster :=
  match e with
  | Deliver k recent =>
      match net c !! k with
      | Some m =>
          match groups c !! msg_to m with
          | Some n => let '(n', ms) := on_msg n m recent in put c (msg_to m) n n' ms
          | None => c
          end
      | None => c
      end
  | Campaign i | Replicate i _ | Propose i _ | Reconfigure i _ | Restart i =>
      match groups c !! i with
      | Some n => let '(n', ms) := on_event n e in put c i n n' ms
      | None => c
      end
  end.

Definition crun (c : cluster) (es : list event) : cluster := foldl cstep c es.

(** ** Steps *)

(** A step changes nothing, or is one group handling a message or an event of its own. *)
Lemma cstep_cases (c : cluster) (e : event) :
  cstep c e = c \/
  exists (i : str) (n n' : group) (ms : list msg), groups c !! i = Some n /\ cstep c e = put c i n n' ms /\
    ((exists (m : msg) (recent : bool), m ∈ net c /\ i = msg_to m /\ on_msg n m recent = (n', ms)) \/
     (on_event n e = (n', ms) /\ forall k b, e <> Deliver k b)).
Proof.
  destruct e as [i|i p|k recent|i t|i new|i]; cbn [cstep];
    try (destruct (groups c !! i) as [n|] eqn:Hi; [|by left];
         match goal with |- context [on_event n ?e] => destruct (on_event n e) as [n' ms] eqn:E end;
         right; exists i, n, n', ms; split_and!; [done|done|by right]).
  destruct (net c !! k) as [m|] eqn:Hk; [|by left]. destruct (groups c !! msg_to m) as [n|] eqn:Hi; [|by left].
  destruct (on_msg n m recent) as [n' ms] eqn:E. right. exists (msg_to m), n, n', ms. split_and!; [done|done|].
  left. exists m, recent. split_and!; auto. by eapply list_elem_of_lookup_2.
Qed.

(** An invariant of single groups and messages that every handler keeps holds in every run. *)
Section local.
Context (P : str -> group -> Prop) (Q : msg -> Prop) (R : event -> Prop).
Context (HM : forall n m b, P (msg_to m) n -> Q m -> P (msg_to m) (on_msg n m b).1 /\ Forall Q (on_msg n m b).2).
Context (HE : forall i n e, P i n -> R e -> P i (on_event n e).1 /\ Forall Q (on_event n e).2).

Definition all_local (c : cluster) : Prop := map_Forall P (groups c) /\ Forall Q (net c).

Lemma cstep_local (c : cluster) (e : event) : R e -> all_local c -> all_local (cstep c e).
Proof using HM HE.
  intros He [HP HQ]. destruct (cstep_cases c e) as [->|(i & n & n' & ms & Hi & -> & Hc)]; [done|].
  assert (H : P i n' /\ Forall Q ms).
  { pose proof (HP i n Hi) as Hn. destruct Hc as [(m & b & Hm & -> & E)|[E _]].
    - rewrite list.Forall_forall in HQ. pose proof (HM n m b Hn (HQ _ Hm)) as H. by rewrite E in H.
    - pose proof (HE i n e Hn He) as H. by rewrite E in H. }
  destruct H as [H1 H2]. split; cbn [put groups net]; [by apply map_Forall_insert_2|by apply Forall_app].
Qed.

Lemma crun_local (es : list event) (c : cluster) : Forall R es -> all_local c -> all_local (crun c es).
Proof using HM HE.
  revert c. induction es as [|e es IH]; intros c Hes Hc; [done|]. apply list.Forall_cons in Hes as [He Hes].
  cbn [crun foldl]. by apply IH, cstep_local.
Qed.
End local.

Lemma new_cluster_local (P : str -> group -> Prop) (Q : msg -> Prop) (ids : gset str) :
  (forall i, P i (new_group i ids)) -> all_local P Q (new_cluster ids).
Proof.
  intros H. split; [|by constructor]. intros i n. cbn. rewrite lookup_set_to_map by done. by intros (j & _ & [= <- <-]).
Qed.

(** ** What is on disk *)

Definition mirror (n : group) : Prop := stored n = Disk (current_term n) (voted_for n) (log n).

Lemma mirror_follower (n : group) (t : nat) : mirror n -> mirror (become_follower n t).
Proof.
  unfold mirror, become_follower. intros H. destruct (Nat.eqb_spec t (current_term n)) as [->|Hne]; cbn [negb orb].
  - destruct (voted_for n) as [v|] eqn:Hv; cbn; by rewrite H.
  - cbn. by rewrite H.
Qed.

Lemma mirror_refresh (n : group) : mirror n -> mirror (refresh_voters n).
Proof. unfold mirror, refresh_voters, set_voters. intros H. by case_decide. Qed.

Lemma mirror_own (n : group) (c : command) : mirror n -> mirror (append_own n c).
Proof. unfold mirror, append_own. cbn. intros H. by rewrite H. Qed.

Lemma mirror_take_entries (n : group) (es : list entry) : mirror n -> mirror (take_entries n es).
Proof.
  intros H. unfold take_entries. rewrite H. cbn [d_log d_term d_vote].
  assert (Hf : forall es l d w, (w = false -> d = l) ->
    let r := foldl take_entry (l, d, w) es in r.2 = false -> r.1.2 = r.1.1).
  { clear. intros es. induction es as [|e es IH]; intros l d w Hw; [done|]. cbn [foldl].
    destruct (take_entry (l, d, w) e) as [[l' d'] w'] eqn:E. apply IH. intros ->. unfold take_entry in E.
    destruct (Nat.leb _ _); [destruct (l !! _); [destruct (Nat.eqb _ _)|]|]; simplify_eq; auto. by rewrite Hw. }
  specialize (Hf es (log n) (log n) false (fun _ => eq_refl)).
  destruct (foldl take_entry _ _) as [[l d] w]. cbn [fst snd] in Hf.
  assert (Hm : mirror (with_log n l (Disk (current_term n) (voted_for n) (if w then l else d))))
    by (unfold mirror; cbn; destruct w; [done|by rewrite Hf]).
  destruct es; [done|by apply mirror_refresh].
Qed.

Lemma mirror_advance (n : group) (i : nat) : mirror n -> mirror (advance_from n i).
Proof.
  intros H. induction i as [|i IH]; [done|]. cbn [advance_from]. destruct (Nat.leb _ _); [done|].
  destruct (log n !! i); [|done]. by destruct (_ && _).
Qed.

Lemma mirror_append (n : group) (q : append_request) : mirror n -> mirror (handle_append n q).1.
Proof.
  intros H. unfold handle_append.
  set (n1 := if Nat.ltb _ _ then _ else n). assert (H1 : mirror n1) by (unfold n1; destruct (Nat.ltb _ _); auto using mirror_follower).
  clearbody n1. destruct (Nat.ltb _ _); [done|].
  set (n2 := if bool_decide _ then _ else _).
  assert (H2 : mirror n2) by (unfold n2; destruct (bool_decide _); [by apply mirror_follower|done]). clearbody n2.
  destruct (_ && _); [done|]. destruct (_ && _); [unfold mirror in *; cbn; by rewrite H2|].
  pose proof (mirror_take_entries n2 (aq_entries q) H2) as H3. by destruct (Nat.ltb _ _).
Qed.

Lemma mirror_start (n : group) : mirror n -> mirror (start_election n).1.
Proof. unfold mirror. cbn. intros H. by rewrite H. Qed.

Create HintDb raft.
#[local] Hint Resolve mirror_follower mirror_own mirror_refresh mirror_take_entries mirror_advance mirror_append mirror_start : raft.

Lemma mirror_vote (n : group) (q : vote_request) (b : bool) : mirror n -> mirror (handle_vote n q b).1.
Proof.
  intros H. unfold handle_vote. set (n1 := if _ && _ then _ else n).
  assert (H1 : mirror n1) by (unfold n1; destruct (_ && _); auto with raft). clearbody n1.
  destruct (vq_pre q); [done|]. destruct (_ && _); [|done]. unfold mirror in *. cbn. by rewrite H1.
Qed.

Lemma mirror_msg (n : group) (m : msg) (b : bool) : mirror n -> mirror (on_msg n m b).1.
Proof.
  intros H. destruct m as [to q|to [] r|to q|to p r]; cbn [on_msg].
  - pose proof (mirror_vote n q b H). by destruct (handle_vote n q b).
  - unfold on_pre_vote. destruct (_ || _); [done|]. destruct (Nat.ltb _ _); [by apply mirror_follower|].
    destruct (vr_granted r); [|done]. destruct (Nat.leb _ _); [|done]. by apply (mirror_start (set_pre_votes n _ _)).
  - cbn [fst]. unfold on_vote. destruct (_ || _); [done|]. destruct (Nat.ltb _ _); [by apply mirror_follower|].
    destruct (vr_granted r); [|done]. destruct (Nat.leb _ _); [|done]. by apply mirror_own.
  - pose proof (mirror_append n q H). by destruct (handle_append n q).
  - cbn [fst]. unfold on_append. destruct (Nat.ltb _ _); [by apply mirror_follower|].
    destruct (negb _); [done|]. destruct (ar_success r); [by apply mirror_advance|done].
Qed.

Lemma mirror_recover (i : str) (init : gset str) (d : disk) : mirror (recover i init d).
Proof. apply mirror_refresh. by destruct d. Qed.

Lemma mirror_event (n : group) (e : event) : mirror n -> mirror (on_event n e).1.
Proof.
  intros H. destruct e as [i|i p|k b|i t|i new|i]; cbn [on_event]; try done.
  - destruct (_ || _); [done|]. unfold start_pre_election. destruct (Nat.leb _ _); [|done].
    by apply (mirror_start (set_pre_votes n _ _)).
  - by destruct (_ && _).
  - unfold propose. destruct (bool_decide _); [by apply mirror_own|done].
  - unfold reconfigure, propose. destruct (bool_decide _); cbn [negb]; [|done]. destruct (negb _); [done|].
    by apply mirror_refresh, mirror_own.
  - apply mirror_recover.
Qed.

(** ** A fixed configuration *)

Definition plain (e : entry) : Prop := match e_command e with ConfigTo _ => False | _ => True end.

Definition fixed (ids : gset str) (n : group) : Prop :=
  initial_voters n = ids /\ voters n = ids /\ Forall plain (log n).
Definition plain_msg (m : msg) : Prop := match m with MAppend _ q => Forall plain (aq_entries q) | _ => True end.
Definition no_reconfigure (e : event) : Prop := match e with Reconfigure _ _ => False | _ => True end.

Lemma config_plain (l : list entry) (init : gset str) : Forall plain l -> config_of l init = init.
Proof.
  induction 1 as [|e l He Hl IH]; [done|]. cbn [config_of]. unfold plain in He. by destruct (e_command e).
Qed.

Lemma fixed_refresh (ids : gset str) (n : group) : fixed ids n -> fixed ids (refresh_voters n).
Proof.
  intros (H1 & H2 & H3). unfold refresh_voters, set_voters. rewrite config_plain, H1, H2 by done.
  by rewrite decide_True.
Qed.

Lemma fixed_follower (ids : gset str) (n : group) (t : nat) : fixed ids n -> fixed ids (become_follower n t).
Proof. unfold become_follower. by destruct (_ || _). Qed.

Lemma fixed_own (ids : gset str) (n : group) (c : command) :
  match c with ConfigTo _ => False | _ => True end -> fixed ids n -> fixed ids (append_own n c).
Proof.
  intros Hc (H1 & H2 & H3). unfold append_own, fixed. cbn. split_and!; auto. apply Forall_app. split; [done|].
  by repeat constructor.
Qed.

Lemma take_entry_plain (es : list entry) : forall l d w, Forall plain l -> Forall plain es ->
  Forall plain (foldl take_entry (l, d, w) es).1.1.
Proof.
  induction es as [|e es IH]; intros l d w Hl Hes; [done|]. apply list.Forall_cons in Hes as [He Hes]. cbn [foldl].
  destruct (take_entry (l, d, w) e) as [[l' d'] w'] eqn:E. apply IH; [|done]. unfold take_entry in E.
  destruct (Nat.leb _ _); [destruct (l !! _); [destruct (Nat.eqb _ _)|]|]; simplify_eq; auto;
    apply Forall_app; auto using Forall_take.
Qed.

Lemma fixed_take_entries (ids : gset str) (n : group) (es : list entry) :
  Forall plain es -> fixed ids n -> fixed ids (take_entries n es).
Proof.
  intros Hes (H1 & H2 & H3). unfold take_entries.
  pose proof (take_entry_plain es (log n) (d_log (stored n)) false H3 Hes) as Hl.
  destruct (foldl take_entry _ _) as [[l d] w]. cbn [fst] in Hl.
  assert (Hf : fixed ids (with_log n l (Disk (d_term (stored n)) (d_vote (stored n)) (if w then l else d)))) by done.
  destruct es; [done|by apply fixed_refresh].
Qed.

Lemma fixed_advance (ids : gset str) (n : group) (i : nat) : fixed ids n -> fixed ids (advance_from n i).
Proof.
  intros H. induction i as [|i IH]; [done|]. cbn [advance_from]. destruct (Nat.leb _ _); [done|].
  destruct (log n !! i); [|done]. by destruct (_ && _).
Qed.

Lemma fixed_append (ids : gset str) (n : group) (q : append_request) :
  Forall plain (aq_entries q) -> fixed ids n -> fixed ids (handle_append n q).1.
Proof.
  intros Hq H. unfold handle_append.
  set (n1 := if Nat.ltb _ _ then _ else n). assert (H1 : fixed ids n1) by (unfold n1; destruct (Nat.ltb _ _); auto using fixed_follower).
  clearbody n1. destruct (Nat.ltb _ _); [done|].
  set (n2 := if bool_decide _ then _ else _).
  assert (H2 : fixed ids n2) by (unfold n2; destruct (bool_decide _); [by apply fixed_follower|done]). clearbody n2.
  destruct (_ && _); [done|]. destruct (_ && _).
  { destruct H2 as (? & ? & ?). split_and!; cbn; auto using Forall_take. }
  pose proof (fixed_take_entries ids n2 (aq_entries q) Hq H2) as H3. by destruct (Nat.ltb _ _).
Qed.

Lemma vote_msgs_plain (qs : list (str * vote_request)) : Forall plain_msg (vote_msgs qs).
Proof. induction qs; by constructor. Qed.

Lemma fixed_msg (ids : gset str) (n : group) (m : msg) (b : bool) :
  mirror n /\ fixed ids n -> plain_msg m ->
  (mirror (on_msg n m b).1 /\ fixed ids (on_msg n m b).1) /\ Forall plain_msg (on_msg n m b).2.
Proof.
  intros [Hm H] Hq. split; [split; [by apply mirror_msg|]|].
  - destruct m as [to q|to [] r|to q|to p r]; cbn [on_msg].
    + unfold handle_vote. set (n1 := if _ && _ then _ else n).
      assert (H1 : fixed ids n1) by (unfold n1; destruct (_ && _); auto using fixed_follower).
      clearbody n1. destruct (vq_pre q); [done|]. by destruct (_ && _).
    + unfold on_pre_vote. destruct (_ || _); [done|]. destruct (Nat.ltb _ _); [by apply fixed_follower|].
      destruct (vr_granted r); [|done]. by destruct (Nat.leb _ _).
    + cbn [fst]. unfold on_vote. destruct (_ || _); [done|]. destruct (Nat.ltb _ _); [by apply fixed_follower|].
      destruct (vr_granted r); [|done]. destruct (Nat.leb _ _); [|done]. by apply fixed_own.
    + pose proof (fixed_append ids n q Hq H). by destruct (handle_append n q).
    + cbn [fst]. unfold on_append. destruct (Nat.ltb _ _); [by apply fixed_follower|].
      destruct (negb _); [done|]. destruct (ar_success r); [by apply fixed_advance|done].
  - destruct m as [to q|to [] r|to q|to p r]; cbn [on_msg].
    + destruct (handle_vote n q b). by repeat constructor.
    + destruct (on_pre_vote n r). apply vote_msgs_plain.
    + constructor.
    + destruct (handle_append n q). by repeat constructor.
    + constructor.
Qed.

Lemma fixed_event (ids : gset str) (n : group) (e : event) :
  mirror n /\ fixed ids n -> no_reconfigure e ->
  (mirror (on_event n e).1 /\ fixed ids (on_event n e).1) /\ Forall plain_msg (on_event n e).2.
Proof.
  intros [Hm H] He. split; [split; [by apply mirror_event|]|]; destruct e as [i|i p|k b|i t|i new|i]; cbn [on_event]; try done.
  - destruct (_ || _); [done|]. unfold start_pre_election. by destruct (Nat.leb _ _).
  - by destruct (_ && _).
  - unfold propose. destruct (bool_decide _); [by apply fixed_own|done].
  - apply fixed_refresh. destruct H as (H1 & H2 & H3). split_and!; cbn; auto. by rewrite Hm.
  - destruct (_ || _); [constructor|]. destruct (start_pre_election n). apply vote_msgs_plain.
  - destruct (_ && _); [|constructor]. repeat constructor. cbn. apply Forall_drop, H.
Qed.

(** ** Elections *)

(** A group keeps a vote for another as long as its term lasts. *)
Definition keeps_vote (n : group) (t : nat) (a : str) : Prop :=
  t < current_term n \/ current_term n = t /\ grole n = Follower /\ voted_for n = Some a.

(** The winner of term [t] never stands or votes for another in that term. *)
Definition keeps_lead (n : group) (t : nat) : Prop :=
  t < current_term n \/ current_term n = t /\ grole n <> Candidate /\ voted_for n = Some (node_id n).

Definition granted (c : cluster) (t : nat) (v a : str) : Prop := MVoted a false (VoteResponse t true v) ∈ net c.

Definition votes_for (c : cluster) (t : nat) (i : str) (vs : gset str) : Prop :=
  forall v, v ∈ vs -> v = i \/ granted c t v i.

Record group_ok (ids : gset str) (c : cluster) (i : str) (n : group) : Prop := {
  go_id : node_id n = i;
  go_voters : voters n = ids;
  go_candidate : grole n = Candidate -> voted_for n = Some i /\ votes_for c (current_term n) i (votes_received n);
  go_leader : grole n = Leader -> exists vs, (current_term n, i, vs) ∈ wins c
}.

Definition from_other (m : msg) : Prop := match m with MVote to q => to <> vq_candidate q | _ => True end.

Record group_inv (ids : gset str) (c : cluster) : Prop := {
  ri_group : forall i n, groups c !! i = Some n -> group_ok ids c i n;
  ri_msg : forall m, m ∈ net c -> from_other m;
  ri_grant : forall t v a, granted c t v a ->
    v <> a /\ (exists n, groups c !! v = Some n /\ keeps_vote n t a) /\ (forall b, granted c t v b -> a = b);
  ri_win : forall t i vs, (t, i, vs) ∈ wins c ->
    vs ⊆ ids /\ size ids < 2 * size vs /\ votes_for c t i vs /\
    (exists n, groups c !! i = Some n /\ keeps_lead n t) /\ (forall a, ~ granted c t i a)
}.

Lemma wins_unique (ids : gset str) (c : cluster) (t : nat) (i j : str) (vi vj : gset str) :
  group_inv ids c -> (t, i, vi) ∈ wins c -> (t, j, vj) ∈ wins c -> i = j.
Proof.
  intros [_ _ Hg He] Hi Hj. destruct (decide (i = j)) as [->|Hne]; [done|exfalso].
  destruct (He _ _ _ Hi) as (Hi1 & Hi2 & Hi3 & _ & Hi5). destruct (He _ _ _ Hj) as (Hj1 & Hj2 & Hj3 & _ & Hj5).
  destruct (majorities_meet ids vi vj) as (x & Hxi & Hxj); auto.
  destruct (Hi3 x Hxi) as [->|Hx1]; [destruct (Hj3 _ Hxj) as [?|Hx2]; [done|by apply (Hi5 j)]|].
  destruct (Hj3 x Hxj) as [->|Hx2]; [by apply (Hj5 i)|].
  destruct (Hg _ _ _ Hx1) as (_ & _ & Huniq). by specialize (Huniq _ Hx2).
Qed.

(** A change of a group that neither grants a vote nor counts one. *)
Definition adv (n n' : group) : Prop :=
  node_id n' = node_id n /\
  (current_term n < current_term n' /\
     (grole n' = Follower \/
      grole n' = Candidate /\ voted_for n' = Some (node_id n) /\ votes_received n' = {[node_id n]}) \/
   current_term n' = current_term n /\
     (voted_for n' = voted_for n /\ (grole n' = Follower \/ grole n' = grole n /\ votes_received n' = votes_received n) \/
      grole n = Candidate /\ grole n' = Follower)).

Lemma adv_same (n n' : group) :
  node_id n' = node_id n -> current_term n' = current_term n -> voted_for n' = voted_for n ->
  grole n' = Follower \/ grole n' = grole n /\ votes_received n' = votes_received n -> adv n n'.
Proof. unfold adv. tauto. Qed.

Lemma adv_refl (n : group) : adv n n.
Proof. apply adv_same; auto. Qed.

Lemma adv_trans (n1 n2 n3 : group) : adv n1 n2 -> adv n2 n3 -> adv n1 n3.
Proof.
  intros [Hi H12] [Hi' H23]. split; [congruence|].
  destruct H12 as [[Hlt [Hr|(Hr & Hv & Hs)]]|[Ht [[Hv [Hr|[Hr Hs]]]|[Hr Hr']]]],
    H23 as [[Hlt2 [Hr2|(Hr2 & Hv2 & Hs2)]]|[Ht2 [[Hv2 [Hr2|[Hr2 Hs2]]]|[Hr2 Hr2']]]]; try congruence;
    first [ left; split; [lia|]; first [left; congruence | right; split_and!; congruence]
          | right; split; [lia|]; first [left; split; [congruence|]; first [left; congruence|right; split; congruence]
                                        | right; split; congruence ] ].
Qed.

Lemma adv_vote (n n' : group) (t : nat) (a : str) : adv n n' -> keeps_vote n t a -> keeps_vote n' t a.
Proof.
  unfold keeps_vote. intros [_ [[Hlt _]|[Ht [[Hv [Hr|[Hr _]]]|[Hr _]]]]] [H|(H1 & H2 & H3)]; rewrite ?Ht, ?Hr, ?Hv;
    try (left; lia); auto; congruence.
Qed.

Lemma adv_lead (n n' : group) (t : nat) : adv n n' -> keeps_lead n t -> keeps_lead n' t.
Proof.
  unfold keeps_lead. intros [Hid [[Hlt _]|[Ht [[Hv [Hr|[Hr _]]]|[Hr _]]]]] [H|(H1 & H2 & H3)]; rewrite ?Ht, ?Hr, ?Hv, ?Hid;
    try (left; lia); auto; congruence.
Qed.

Lemma adv_follower (n : group) (t : nat) : current_term n < t -> adv n (become_follower n t).
Proof. intros H. unfold become_follower. destruct (_ || _); (split; [done|]; left; auto). Qed.

Lemma adv_see_term (n : group) (t : nat) : adv n (if Nat.ltb (current_term n) t then become_follower n t else n).
Proof. destruct (Nat.ltb_spec (current_term n) t); [by apply adv_follower|apply adv_refl]. Qed.

Lemma adv_start (n : group) : adv n (start_election n).1.
Proof. split; [done|]. left. cbn. split; [lia|]. by right. Qed.

Lemma adv_refresh (n : group) : adv n (refresh_voters n).
Proof. unfold refresh_voters, set_voters. case_decide; apply adv_same; auto. Qed.

Lemma adv_take_entries (n : group) (es : list entry) : adv n (take_entries n es).
Proof.
  unfold take_entries. destruct (foldl take_entry _ _) as [[l d] w].
  destruct es; [by apply adv_same; auto|]. eapply adv_trans; [|apply adv_refresh]. by apply adv_same; auto.
Qed.

Lemma adv_apply (n : group) : adv n (apply_committed n).
Proof. apply adv_same; auto. cbn. destruct (_ && _); auto. Qed.

Lemma adv_advance (n : group) (i : nat) : adv n (advance_from n i).
Proof.
  induction i as [|i IH]; [apply adv_refl|]. cbn [advance_from]. destruct (Nat.leb _ _); [apply adv_refl|].
  destruct (log n !! i); [|apply adv_refl]. destruct (_ && _); [|done].
  eapply adv_trans; [|apply adv_apply]. by apply adv_same; auto.
Qed.

Lemma adv_append (n : group) (q : append_request) : adv n (handle_append n q).1.
Proof.
  unfold handle_append. pose proof (adv_see_term n (aq_term q)) as H1.
  assert (Hle : aq_term q <= current_term (if Nat.ltb (current_term n) (aq_term q) then become_follower n (aq_term q) else n))
    by (destruct (Nat.ltb_spec (current_term n) (aq_term q)); [unfold become_follower; by destruct (_ || _)|lia]).
  revert H1 Hle. generalize (if Nat.ltb (current_term n) (aq_term q) then become_follower n (aq_term q) else n).
  intros n1 H1 Hle. destruct (Nat.ltb_spec (aq_term q) (current_term n1)); [done|].
  eapply adv_trans; [exact H1|]. set (n2 := if bool_decide _ then _ else _).
  assert (H2 : adv n1 n2).
  { unfold n2. case_bool_decide as Hr; [|apply adv_same; auto]. unfold become_follower. cbn in Hr.
    destruct (_ || _); (split; [done|]; right; split; [cbn; lia|by right]). }
  clearbody n2. eapply adv_trans; [exact H2|]. destruct (_ && _); [apply adv_refl|].
  destruct (_ && _); [by apply adv_same; auto|]. eapply adv_trans; [apply (adv_take_entries n2 (aq_entries q))|].
  destruct (Nat.ltb _ _); [|apply adv_refl]. eapply adv_trans; [|apply adv_apply]. by apply adv_same; auto.
Qed.

Lemma adv_on_append (n : group) (p : str) (r : append_response) : adv n (on_append n p r).
Proof.
  unfold on_append. destruct (Nat.ltb_spec (current_term n) (ar_term r)); [by apply adv_follower|].
  destruct (negb _); [apply adv_refl|]. destruct (ar_success r); [|apply adv_same; auto].
  eapply adv_trans; [|apply adv_advance]. by apply adv_same; auto.
Qed.

(** Messages that are not a vote. *)
Definition no_vote (m : msg) : Prop :=
  match m with MVoted _ false r => vr_granted r = false | _ => from_other m end.

Lemma granted_put (c : cluster) (i : str) (n n' : group) (ms : list msg) (t : nat) (v a : str) :
  Forall no_vote ms -> granted (put c i n n' ms) t v a <-> granted c t v a.
Proof.
  intros H. unfold granted. cbn [put net]. rewrite elem_of_app. split; [|by left]. intros [?|Hm]; [done|].
  rewrite list.Forall_forall in H. by apply H in Hm.
Qed.

Lemma no_vote_from_other (m : msg) : no_vote m -> from_other m.
Proof. by destruct m as [|? []| |]. Qed.

Lemma put_wins (c : cluster) (i : str) (n n' : group) (ms : list msg) :
  (grole n' = Leader -> grole n = Leader) -> wins (put c i n n' ms) = wins c.
Proof. intros H. cbn. rewrite decide_False; [done|]. intros [? ?]. auto. Qed.

Lemma adv_leader (n n' : group) : adv n n' -> grole n' = Leader -> grole n = Leader /\ current_term n' = current_term n.
Proof. intros [_ [[? [?|[? _]]]|[? [[? [?|[? _]]]|[? ?]]]]] ?; split; congruence. Qed.

(** A group changes without granting or counting a vote. *)
Lemma group_inv_adv (ids : gset str) (c : cluster) (i : str) (n n' : group) (ms : list msg) :
  group_inv ids c -> groups c !! i = Some n -> adv n n' -> voters n' = ids -> Forall no_vote ms ->
  group_inv ids (put c i n n' ms).
Proof.
  intros [Hn Hm Hg He] Hi Ha Hvs Hms. pose proof (Hn i n Hi) as [Hid _ Hcd Hld].
  assert (Hgr : forall t v a, granted (put c i n n' ms) t v a <-> granted c t v a) by (intros; by apply granted_put).
  assert (Hw : wins (put c i n n' ms) = wins c) by (apply put_wins; intros H; by apply (adv_leader n n')).
  assert (Hvf : forall t j vs, votes_for c t j vs -> votes_for (put c i n n' ms) t j vs).
  { intros t j vs H v Hv. destruct (H v Hv); [by left|right; by apply Hgr]. }
  assert (Hk : forall (K : group -> Prop) j, (forall m, K m -> m = n -> K n') -> (exists m, groups c !! j = Some m /\ K m) ->
    exists m, groups (put c i n n' ms) !! j = Some m /\ K m).
  { intros K j HK (m & Hj & Hm'). cbn [put groups]. destruct (decide (j = i)) as [->|Hne];
      [exists n'; rewrite lookup_insert_eq; split; [done|]; apply (HK m); [done|congruence]|exists m; by rewrite lookup_insert_ne]. }
  split.
  - intros j m. cbn [put groups]. destruct (decide (j = i)) as [->|Hne].
    + rewrite lookup_insert_eq. intros [= <-]. pose proof Ha as [Aid Hc]. split; [congruence|done| |].
      * intros Hr. destruct Hc as [[_ [?|(_ & Hv & Hs)]]|[Ht [[Hv [?|[Hr' Hs]]]|[_ ?]]]]; try congruence.
        -- split; [congruence|]. rewrite Hs, Hid. intros v Hv'%elem_of_singleton. by left.
        -- rewrite Hv, Hs, Ht. destruct Hcd as [? ?]; [congruence|]. auto.
      * intros Hr. destruct (adv_leader n n' Ha Hr) as [Hr' ->]. rewrite Hw. auto.
    + rewrite lookup_insert_ne by done. intros Hj. destruct (Hn j m Hj) as [? ? Hcj ?]. split; auto; rewrite ?Hw; auto.
      intros Hr. destruct (Hcj Hr). auto.
  - intros m. cbn [put net]. rewrite elem_of_app. intros [?|Hm']; [auto|]. rewrite list.Forall_forall in Hms.
    by apply no_vote_from_other, Hms.
  - intros t v a Hta%Hgr. destruct (Hg t v a Hta) as (? & Hex & Hu). split_and!; [done| |intros b Hb%Hgr; auto].
    revert Hex. apply Hk. intros m Hm' ->. by eapply adv_vote.
  - rewrite Hw. intros t j vs Hj. destruct (He t j vs Hj) as (? & ? & ? & Hex & Hno). split_and!; auto.
    + revert Hex. apply Hk. intros m Hm' ->. by eapply adv_lead.
    + intros a Ha'%Hgr. by apply (Hno a).
Qed.

(** The state of a voter just before it grants its vote. *)
Lemma voter_state (ids : gset str) (c : cluster) (i : str) (n n1 : group) (a : str) :
  group_inv ids c -> groups c !! i = Some n -> a <> i -> n1 = n \/ current_term n < current_term n1 /\ grole n1 = Follower ->
  may_vote n1 a = true ->
  grole n1 = Follower /\ (current_term n = current_term n1 -> voted_for n = None \/ voted_for n = Some a).
Proof.
  intros Hc Hi Hai [->|[Hlt Hr]] Hmv; [|split; [done|lia]].
  destruct (ri_group _ _ Hc i n Hi) as [Hid _ Hcd Hld]. unfold may_vote in Hmv.
  assert (Hv : voted_for n = None \/ voted_for n = Some a)
    by (destruct (voted_for n); [str_bool; subst; by right|by left]).
  split; [|done]. destruct (grole n) eqn:Hr; [done| |].
  - destruct Hcd as [Hself _]; [done|]. rewrite Hself in Hv. by destruct Hv as [|[= ->]].
  - destruct Hld as [vs Hvs]; [done|]. destruct (ri_win _ _ Hc _ _ _ Hvs) as (_ & _ & _ & (m & Hm & Hk) & _).
    assert (m = n) as -> by congruence. destruct Hk as [?|(_ & _ & Hself)]; [lia|].
    rewrite Hself, Hid in Hv. by destruct Hv as [|[= ->]].
Qed.

Lemma group_inv_grant (ids : gset str) (c : cluster) (i : str) (n n1 : group) (a : str) :
  group_inv ids c -> groups c !! i = Some n -> a <> i -> n1 = n \/ current_term n < current_term n1 /\ grole n1 = Follower ->
  may_vote n1 a = true -> voters n1 = ids -> node_id n1 = i ->
  group_inv ids (put c i n (set_vote n1 a) [MVoted a false (VoteResponse (current_term n1) true i)]).
Proof.
  intros Hc Hi Hai Hn1 Hmv Hvs1 Hid1. destruct (voter_state ids c i n n1 a Hc Hi Hai Hn1 Hmv) as [Hr1 Hold].
  assert (Hle : current_term n <= current_term n1) by (destruct Hn1 as [->|[? _]]; lia).
  destruct Hc as [Hn Hm Hg He]. set (t := current_term n1) in *.
  assert (Hgr : forall u v b, granted (put c i n (set_vote n1 a) [MVoted a false (VoteResponse t true i)]) u v b <->
    granted c u v b \/ (u = t /\ v = i /\ b = a)).
  { intros u v b. unfold granted. cbn [put net]. rewrite elem_of_app, list_elem_of_singleton.
    split; (intros [?|H]; [by left|right]); [by simplify_eq|by destruct H as (-> & -> & ->)]. }
  assert (Hw : wins (put c i n (set_vote n1 a) [MVoted a false (VoteResponse t true i)]) = wins c)
    by (apply put_wins; cbn; congruence).
  assert (Hlk : forall j m, j <> i -> groups c !! j = Some m ->
    groups (put c i n (set_vote n1 a) [MVoted a false (VoteResponse t true i)]) !! j = Some m)
    by (intros; cbn; by rewrite lookup_insert_ne).
  assert (Hlk' : groups (put c i n (set_vote n1 a) [MVoted a false (VoteResponse t true i)]) !! i = Some (set_vote n1 a))
    by (cbn; by rewrite lookup_insert_eq).
  assert (Holdg : forall b, granted c t i b -> a = b).
  { intros b Hb. destruct (Hg t i b Hb) as (_ & (m & Hm' & Hk) & _). assert (m = n) as -> by congruence.
    destruct Hk as [?|(E & _ & Hv)]; [lia|]. destruct (Hold E); congruence. }
  assert (Hlead : forall vs, (t, i, vs) ∉ wins c).
  { intros vs Hvs. destruct (He _ _ _ Hvs) as (_ & _ & _ & (m & Hm' & Hk) & _). assert (m = n) as -> by congruence.
    pose proof (go_id _ _ _ _ (Hn _ _ Hi)). destruct Hk as [?|(E & Hr & Hv)]; [lia|]. destruct (Hold E); congruence. }
  set (c' := put _ _ _ _ _) in *.
  assert (Hvf : forall u j vs, votes_for c u j vs -> votes_for c' u j vs).
  { intros u j vs H v Hv. destruct (H v Hv); [by left|right; apply Hgr; by left]. }
  split.
  - intros j m. destruct (decide (j = i)) as [->|Hne].
    + rewrite Hlk'. intros [= <-]. split; cbn; congruence.
    + intros Hj. unfold c' in Hj. cbn [put groups] in Hj. rewrite lookup_insert_ne in Hj by done.
      destruct (Hn j m Hj) as [? ? Hcj ?]. split; auto; rewrite ?Hw; auto. intros Hr. destruct (Hcj Hr). auto.
  - intros m. unfold c'. cbn [put net]. rewrite elem_of_app, list_elem_of_singleton. intros [?| ->]; [auto|done].
  - intros u v b [Hub|(-> & -> & ->)]%Hgr.
    + destruct (Hg u v b Hub) as (? & (m & Hm' & Hk) & Hun). split_and!; auto.
      * destruct (decide (v = i)) as [->|Hne]; [|by eauto].
        exists (set_vote n1 a). split; [done|]. assert (m = n) as -> by congruence. unfold keeps_vote in *. cbn. fold t.
        destruct (decide (u = t)) as [->|]; [|left; destruct Hk as [?|[? _]]; lia]. right. split_and!; auto.
        f_equal. by apply Holdg.
      * intros b' [Hb'|(-> & -> & ->)]%Hgr; auto. symmetry. auto.
    + split_and!; auto.
      * exists (set_vote n1 a). split; [done|]. right. auto.
      * intros b' [Hb'|(_ & _ & ->)]%Hgr; auto.
  - rewrite Hw. intros u j vs Hj. destruct (He u j vs Hj) as (? & ? & ? & (m & Hm' & Hk) & Hno). split_and!; auto.
    + destruct (decide (j = i)) as [->|Hne]; [|by eauto]. exists (set_vote n1 a). split; [done|].
      assert (m = n) as -> by congruence. left. cbn. fold t. assert (u <> t) by (intros ->; by apply Hlead in Hj).
      destruct Hk as [?|[? _]]; lia.
    + intros b [Hb|(-> & -> & ->)]%Hgr; [by apply (Hno b)|by apply Hlead in Hj].
Qed.

(** A candidate counts a vote. *)
Definition count_vote (n : group) (v : str) : group :=
  let n := add_vote n v in if Nat.leb (majority n) (size (votes_received n ∩ voters n)) then become_leader n else n.

Lemma count_vote_state (n : group) (v : str) :
  let n' := count_vote n v in
  node_id n' = node_id n /\ voters n' = voters n /\ current_term n' = current_term n /\ voted_for n' = voted_for n /\
  votes_received n' = {[v]} ∪ votes_received n /\
  (grole n' = grole n \/ grole n' = Leader /\ size (voters n) < 2 * size (votes_received n' ∩ voters n)).
Proof.
  cbv zeta. unfold count_vote. destruct (Nat.leb_spec (majority (add_vote n v)) (size (votes_received (add_vote n v) ∩ voters (add_vote n v))))
    as [Hl|Hl]; cbn -[size]; split_and!; auto. right. split; [done|]. unfold majority in Hl. cbn -[size Nat.div] in Hl.
  pose proof (Nat.div_mod_eq (size (voters n)) 2). pose proof (Nat.mod_upper_bound (size (voters n)) 2). lia.
Qed.

Lemma group_inv_vote (ids : gset str) (c : cluster) (i : str) (n : group) (v : str) :
  group_inv ids c -> groups c !! i = Some n -> grole n = Candidate -> granted c (current_term n) v i ->
  group_inv ids (put c i n (count_vote n v) []).
Proof.
  intros Hc Hi Hr Hgrv. destruct (count_vote_state n v) as (Eid & Evo & Et & Evf & Evs & Er).
  set (n' := count_vote n v) in *. clearbody n'. destruct Hc as [Hn Hm Hg He]. pose proof (Hn i n Hi) as [Hid Hvo Hcd _].
  destruct (Hcd Hr) as [Hself Hfor].
  assert (Hgr : forall t w a, granted (put c i n n' []) t w a <-> granted c t w a) by (intros; by apply granted_put).
  assert (Hvf : forall t j vs, votes_for c t j vs -> votes_for (put c i n n' []) t j vs).
  { intros t j vs H w Hw. destruct (H w Hw); [by left|right; by apply Hgr]. }
  assert (Hfor' : votes_for c (current_term n) i (votes_received n')).
  { intros x. rewrite Evs. intros [->%elem_of_singleton|Hx]%elem_of_union; [by right|by apply Hfor]. }
  assert (Hk : forall (K : group -> Prop) j, (K n -> K n') -> (exists m, groups c !! j = Some m /\ K m) ->
    exists m, groups (put c i n n' []) !! j = Some m /\ K m).
  { intros K j HK (m & Hj & Hm'). cbn [put groups]. destruct (decide (j = i)) as [->|Hne];
      [exists n'; rewrite lookup_insert_eq; split; [done|]; apply HK; congruence|exists m; by rewrite lookup_insert_ne]. }
  assert (Hwin : forall t j vs, (t, j, vs) ∈ wins (put c i n n' []) -> (t, j, vs) ∈ wins c \/
    grole n' = Leader /\ t = current_term n /\ j = i /\ vs = votes_received n' ∩ voters n').
  { intros t j vs. cbn. case_decide as Hl; [|by left]. intros [E|?]%elem_of_cons; [|by left]. right.
    destruct Hl. rewrite Et in E. by simplify_eq. }
  assert (Hwin' : forall x, x ∈ wins c -> x ∈ wins (put c i n n' []))
    by (intros x Hx; cbn; case_decide; [by apply elem_of_cons; right|done]).
  split.
  - intros j m. cbn [put groups]. destruct (decide (j = i)) as [->|Hne].
    + rewrite lookup_insert_eq. intros [= <-]. split; [congruence|congruence| |].
      * intros _. rewrite Et. split; [congruence|auto].
      * intros Hl. eexists. cbn. rewrite decide_True by (split; congruence). apply elem_of_cons. by left.
    + rewrite lookup_insert_ne by done. intros Hj. destruct (Hn j m Hj) as [? ? Hcj Hlj]. split; auto.
      * intros Hrj. destruct (Hcj Hrj). auto.
      * intros Hl. destruct (Hlj Hl) as [vs ?]. exists vs. auto.
  - intros m. cbn [put net]. rewrite app_nil_r. auto.
  - intros t w a Hta%Hgr. destruct (Hg t w a Hta) as (? & Hex & Hu). split_and!; [done| |intros b Hb%Hgr; auto].
    revert Hex. apply Hk. unfold keeps_vote. rewrite Et. intros [?|(_ & ? & _)]; [by left|congruence].
  - intros t j vs [Hj|(Hl & -> & -> & ->)]%Hwin.
    + destruct (He t j vs Hj) as (? & ? & ? & Hex & Hno). split_and!; auto; [|intros a Ha%Hgr; by apply (Hno a)].
      revert Hex. apply Hk. unfold keeps_lead. rewrite Et. intros [?|(_ & ? & _)]; [by left|congruence].
    + rewrite Evo, Hvo in *. destruct Er as [?|[_ Hsz]]; [congruence|]. split_and!.
      * set_solver.
      * done.
      * apply Hvf. intros x [Hx _]%elem_of_intersection. auto.
      * exists n'. cbn. rewrite lookup_insert_eq. split; [done|]. right. split_and!; congruence.
      * intros a Ha%Hgr. destruct (Hg _ _ _ Ha) as (_ & (m & Hm' & Hkv) & _). assert (m = n) as -> by congruence.
        destruct Hkv as [?|(_ & ? & _)]; [lia|congruence].
Qed.

Lemma vote_msgs_other (n : group) (pre : bool) (t : nat) :
  Forall no_vote (vote_msgs (map (fun p => (p, request_of n pre t)) (elements (peers n)))).
Proof.
  apply list.Forall_forall. intros m (pq & -> & (p & -> & Hp)%list_elem_of_fmap)%list_elem_of_fmap.
  cbn. apply elem_of_elements in Hp. unfold peers in Hp. set_solver.
Qed.

Lemma adv_event (n : group) (e : event) :
  mirror n -> no_reconfigure e -> adv n (on_event n e).1 /\ Forall no_vote (on_event n e).2.
Proof.
  intros Hm He. destruct e as [i|i p|k b|i t|i new|i]; cbn [on_event]; try done.
  - destruct (_ || _); [split; [apply adv_refl|constructor]|]. unfold start_pre_election.
    destruct (Nat.leb _ _); cbn [fst snd]; (split; [|apply vote_msgs_other]).
    + eapply adv_trans; [|apply (adv_start (set_pre_votes n _ _))]. by apply adv_same; auto.
    + by apply adv_same; auto.
  - destruct (_ && _); (split; [apply adv_refl|by repeat constructor]).
  - split; [apply adv_refl|constructor].
  - unfold propose. destruct (bool_decide _); (split; [by apply adv_same; auto|constructor]).
  - split; [|constructor]. eapply adv_trans; [|apply adv_refresh]. apply adv_same; cbn; rewrite ?Hm; auto.
Qed.

(** Every message is handled without touching votes, or as a vote granted or counted. *)
Lemma on_msg_cases (n : group) (m : msg) (b : bool) :
  adv n (on_msg n m b).1 /\ Forall no_vote (on_msg n m b).2 \/
  (exists q n1, m = MVote (msg_to m) q /\ (n1 = n \/ current_term n < current_term n1 /\ grole n1 = Follower) /\
     node_id n1 = node_id n /\ may_vote n1 (vq_candidate q) = true /\
     on_msg n m b = (set_vote n1 (vq_candidate q), [MVoted (vq_candidate q) false (VoteResponse (current_term n1) true (node_id n))])) \/
  (exists r, m = MVoted (msg_to m) false r /\ vr_granted r = true /\ grole n = Candidate /\ vr_term r = current_term n /\
     on_msg n m b = (count_vote n (vr_voter r), [])).
Proof.
  destruct m as [to q|to [] r|to q|to p r]; cbn [on_msg msg_to].
  - unfold handle_vote. destruct (vq_pre q) eqn:Hpre; cbn [negb andb].
    { left. split; [apply adv_refl|by repeat constructor]. }
    set (n1 := if Nat.ltb _ _ then _ else n). assert (Ha : adv n n1) by apply adv_see_term.
    assert (H1 : n1 = n \/ current_term n < current_term n1 /\ grole n1 = Follower).
    { unfold n1. destruct (Nat.ltb_spec (current_term n) (vq_term q)); [right|by left].
      unfold become_follower. by destruct (_ || _). }
    clearbody n1. destruct (_ && _) eqn:E; cbn [fst snd].
    + right. left. exists q, n1. apply andb_true_iff in E as [[_ E]%andb_true_iff _]. pose proof Ha as [Hid _].
      split_and!; auto. cbn. by rewrite Hid.
    + left. split; [done|by repeat constructor].
  - left. unfold on_pre_vote. destruct (_ || _); [split; [apply adv_refl|constructor]|].
    destruct (Nat.ltb_spec (current_term n) (vr_term r)); [split; [by apply adv_follower|constructor]|].
    destruct (vr_granted r); [|split; [apply adv_refl|constructor]].
    destruct (Nat.leb _ _); cbn [fst snd]; (split; [|first [apply vote_msgs_other|constructor]]).
    + eapply adv_trans; [|apply (adv_start (set_pre_votes n _ _))]. by apply adv_same; auto.
    + by apply adv_same; auto.
  - unfold on_vote. case_bool_decide as Hr; cbn [negb orb]; [|left; split; [apply adv_refl|constructor]].
    destruct (Nat.ltb_spec (vr_term r) (current_term n)); [left; split; [apply adv_refl|constructor]|].
    destruct (Nat.ltb_spec (current_term n) (vr_term r)); [left; split; [by apply adv_follower|constructor]|].
    destruct (vr_granted r) eqn:Hg; [|left; split; [apply adv_refl|constructor]].
    right. right. exists r. split_and!; auto. lia.
  - left. pose proof (adv_append n q). destruct (handle_append n q). split; [done|by repeat constructor].
  - left. split; [apply adv_on_append|constructor].
Qed.

Definition local_inv (ids : gset str) : cluster -> Prop := all_local (fun _ n => mirror n /\ fixed ids n) plain_msg.

Lemma group_inv_step (ids : gset str) (c : cluster) (e : event) :
  no_reconfigure e -> local_inv ids c -> group_inv ids c -> group_inv ids (cstep c e).
Proof.
  intros He [HP HQ] Hc. destruct (cstep_cases c e) as [->|(i & n & n' & ms & Hi & -> & Hs)]; [done|].
  pose proof (HP i n Hi) as Hn. destruct Hs as [(m & b & Hm & -> & E)|[E _]].
  - rewrite list.Forall_forall in HQ. pose proof (fixed_msg ids n m b Hn (HQ _ Hm)) as [[_ (_ & Hv & _)] _].
    destruct (on_msg_cases n m b) as [[Ha Hno]|[(q & n1 & Em & Hn1 & Hid & Hmv & E')|(r & Em & Hg & Hr & Ht & E')]].
    + rewrite E in *. by apply group_inv_adv.
    + pose proof (go_id _ _ _ _ (ri_group _ _ Hc _ _ Hi)) as Hid'. rewrite E' in E, Hv. injection E as <- <-. cbn in Hv.
      rewrite Hid'. apply group_inv_grant; auto; [|congruence].
      pose proof (ri_msg _ _ Hc m Hm) as Ho. rewrite Em in Ho. cbn in Ho. congruence.
    + rewrite E' in E. injection E as <- <-. apply group_inv_vote; auto. rewrite <- Ht. unfold granted.
      rewrite Em in Hm. by destruct r as [t [] v].
  - pose proof (fixed_event ids n e Hn He) as [[_ (_ & Hv & _)] _]. destruct (adv_event n e (proj1 Hn) He) as [Ha Hno].
    rewrite E in *. by apply group_inv_adv.
Qed.

Lemma new_group_fixed (i : str) (ids : gset str) : mirror (new_group i ids) /\ fixed ids (new_group i ids).
Proof. split; [apply mirror_recover|]. by apply fixed_refresh. Qed.

Lemma new_group_state (i : str) (ids : gset str) :
  node_id (new_group i ids) = i /\ grole (new_group i ids) = Follower /\ log (new_group i ids) = [].
Proof. unfold new_group, recover, refresh_voters, set_voters. by case_decide. Qed.

Lemma group_inv_new (ids : gset str) : group_inv ids (new_cluster ids).
Proof.
  split; unfold granted; cbn; try set_solver.
  intros i n. rewrite lookup_set_to_map by done. intros (j & _ & [= <- <-]).
  destruct (new_group_state j ids) as (? & Hr & _). destruct (new_group_fixed j ids) as [_ (_ & ? & _)].
  split; [done|done| |]; rewrite Hr; done.
Qed.

Lemma group_inv_run (ids : gset str) (es : list event) :
  Forall no_reconfigure es -> forall c, local_inv ids c -> group_inv ids c ->
  local_inv ids (crun c es) /\ group_inv ids (crun c es).
Proof.
  induction 1 as [|e es He Hes IH]; intros c Hl Hc; [done|]. cbn [crun foldl]. apply IH; [|by apply group_inv_step].
  apply (cstep_local _ _ no_reconfigure); auto using fixed_msg, fixed_event.
Qed.

Lemma local_inv_new (ids : gset str) : local_inv ids (new_cluster ids).
Proof. apply new_cluster_local. intros i. apply new_group_fixed. Qed.

(** ** Logs *)

(** [T t]: the log of the leader of term [t]; empty when there was none. *)
Definition from_T (T : nat -> list entry) (l : list entry) : Prop :=
  forall k e, l !! k = Some e -> take (S k) l = take (S k) (T (e_term e)) /\ e_index e = S k.

Lemma from_T_take (T : nat -> list entry) (l : list entry) (m : nat) : from_T T l -> from_T T (take m l).
Proof.
  intros H k e Hk. apply lookup_take_Some in Hk as [Hk Hlt]. rewrite take_take, Nat.min_l by lia. by apply H.
Qed.

Lemma from_T_agree (T : nat -> list entry) (l l' : list entry) (k : nat) (e e' : entry) :
  from_T T l -> from_T T l' -> l !! k = Some e -> l' !! k = Some e' -> e_term e = e_term e' ->
  take (S k) l = take (S k) l'.
Proof. intros H H' Hk Hk' Ht. destruct (H _ _ Hk) as [-> _]. destruct (H' _ _ Hk') as [-> _]. by rewrite Ht. Qed.

Lemma from_T_grow (T : nat -> list entry) (t : nat) (x l : list entry) :
  from_T T l -> T t `prefix_of` x -> from_T (<[t := x]> T) l.
Proof.
  intros H [y ->] k e Hk. destruct (H _ _ Hk) as [E Hi]. split; [|done].
  destruct (decide (e_term e = t)) as [<-|Hne]; [|by rewrite fn_lookup_insert_ne].
  rewrite fn_lookup_insert. rewrite E. apply (f_equal length) in E. apply lookup_lt_Some in Hk.
  rewrite !length_take in E. rewrite take_app_le by lia. done.
Qed.

(** The leader of term [t] adds an entry. *)
Lemma from_T_snoc (T : nat -> list entry) (t : nat) (l : list entry) (cmd : command) :
  from_T T l -> T t `prefix_of` l -> 
  from_T (<[t := l ++ [Entry t (length l + 1) cmd]]> T) (l ++ [Entry t (length l + 1) cmd]).
Proof.
  intros H Hp k e Hk. destruct (decide (k = length l)) as [->|Hne].
  - rewrite lookup_app_r, Nat.sub_diag in Hk by done. injection Hk as <-. cbn. rewrite fn_lookup_insert. split; [done|lia].
  - pose proof (lookup_lt_Some _ _ _ Hk) as Hlt. rewrite length_app in Hlt. cbn in Hlt.
    rewrite lookup_app_l in Hk by lia. rewrite take_app_le by lia.
    apply (from_T_grow T t (l ++ [Entry t (length l + 1) cmd]) l H); [by apply prefix_app_r|done].
Qed.

Lemma take_entry_log (T : nat -> list entry) (L : list entry) : from_T T L -> forall es m l d w,
  es = drop m L -> from_T T l -> m <= length l -> take m l = take m L ->
  from_T T (foldl take_entry (l, d, w) es).1.1.
Proof.
  intros HL es. induction es as [|e es IH]; intros m l d w Hes Hl Hm Htk; [done|]. cbn [foldl].
  assert (He : L !! m = Some e) by (rewrite <- (Nat.add_0_r m), <- lookup_drop, <- Hes; done).
  assert (Hes' : es = drop (S m) L) by (rewrite <- Nat.add_1_r, <- drop_drop, <- Hes; done).
  destruct (HL _ _ He) as [_ Hidx].
  assert (Hpre : take m l ++ [e] = take (S m) L) by (by rewrite Htk, (take_S_r L m e)).
  assert (Hlen : length (take (S m) L) = S m) by (apply length_take_le; apply lookup_lt_Some in He; lia).
  assert (Hnew : forall d w, from_T T (foldl take_entry (take (S m) L, d, w) es).1.1)
    by (intros; apply (IH (S m)); auto using from_T_take; [lia|by rewrite take_take, Nat.min_id]).
  unfold take_entry at 2. rewrite Hidx. replace (S m - 1) with m by lia. destruct (Nat.leb_spec (S m) (length l)).
  - destruct (lookup_lt_is_Some_2 l m) as [x Hx]; [lia|]. rewrite Hx.
    destruct (Nat.eqb_spec (e_term x) (e_term e)) as [Hte|Hte]; [|rewrite Hpre; apply Hnew].
    apply (IH (S m)); auto; try lia. by eapply from_T_agree.
  - rewrite <- (firstn_all2 (n := m) l) by lia. rewrite Hpre. apply Hnew.
Qed.

(** A request carries the tail of a leader's log. *)
Definition append_ok (T : nat -> list entry) (c : cluster) (to : str) (q : append_request) : Prop :=
  to <> aq_leader q /\ (exists vs, (aq_term q, aq_leader q, vs) ∈ wins c) /\
  exists L, from_T T L /\ aq_entries q = drop (aq_prev_index q) L /\
    (0 < aq_prev_index q <= length L -> (e_term <$> L !! (aq_prev_index q - 1)) = Some (aq_prev_term q)).

Record logs_ok (T : nat -> list entry) (c : cluster) : Prop := {
  lo_log : forall i n, groups c !! i = Some n -> from_T T (log n);
  lo_leader : forall i n, groups c !! i = Some n -> grole n = Leader -> T (current_term n) = log n;
  lo_msg : forall to q, MAppend to q ∈ net c -> append_ok T c to q;
  lo_empty : forall t, T t <> [] -> exists i vs, (t, i, vs) ∈ wins c
}.

Lemma log_follower (n : group) (t : nat) : log (become_follower n t) = log n.
Proof. unfold become_follower. by destruct (_ || _). Qed.

Lemma log_refresh (n : group) : log (refresh_voters n) = log n.
Proof. unfold refresh_voters, set_voters. by case_decide. Qed.

Lemma log_advance (n : group) (i : nat) : log (advance_from n i) = log n.
Proof.
  induction i as [|i IH]; [done|]. cbn [advance_from]. destruct (Nat.leb _ _); [done|].
  destruct (log n !! i); [|done]. by destruct (_ && _).
Qed.

Lemma log_take_entries (n : group) (es : list entry) :
  log (take_entries n es) = (foldl take_entry (log n, d_log (stored n), false) es).1.1.
Proof.
  unfold take_entries. destruct (foldl take_entry _ _) as [[l d] w]. destruct es; [done|by rewrite log_refresh].
Qed.

Lemma handle_append_log (T : nat -> list entry) (c : cluster) (n : group) (to : str) (q : append_request) :
  from_T T (log n) -> append_ok T c to q -> from_T T (log (handle_append n q).1).
Proof.
  intros Hn (_ & _ & L & HL & Hes & Hprev). unfold handle_append.
  set (n1 := if Nat.ltb _ _ then _ else n).
  assert (H1 : log n1 = log n) by (unfold n1; destruct (Nat.ltb _ _); auto using log_follower). clearbody n1.
  destruct (Nat.ltb _ _); [cbn [fst]; by rewrite H1|]. set (n2 := if bool_decide _ then _ else _).
  assert (H2 : log n2 = log n) by (unfold n2; destruct (bool_decide _); rewrite ?log_follower; done). clearbody n2.
  rewrite <- H2 in Hn. destruct (Nat.ltb_spec 0 (aq_prev_index q)) as [Hp|Hp]; cbn [andb].
  - destruct (Nat.ltb_spec (length (log n2)) (aq_prev_index q)) as [Hlen|Hlen]; [done|].
    case_bool_decide as Hpt; cbn [negb fst]; [|by apply from_T_take].
    assert (Hf : from_T T (log (take_entries n2 (aq_entries q)))); [|by destruct (Nat.ltb _ _)].
    rewrite log_take_entries. destruct (decide (aq_prev_index q <= length L)) as [HpL|HpL].
    + apply (take_entry_log T L HL _ (aq_prev_index q)); auto. specialize (Hprev (conj Hp HpL)).
      apply fmap_Some in Hpt as (x & Hx & Ex). apply fmap_Some in Hprev as (y & Hy & Ey).
      pose proof (from_T_agree T _ _ _ _ _ Hn HL Hx Hy ltac:(congruence)) as H.
      by replace (S (aq_prev_index q - 1)) with (aq_prev_index q) in H by lia.
    + rewrite Hes, drop_ge by lia. done.
  - assert (Hf : from_T T (log (take_entries n2 (aq_entries q)))); [|by destruct (Nat.ltb _ _)].
    rewrite log_take_entries. assert (Hz : aq_prev_index q = 0) by lia. rewrite Hz in Hes.
    apply (take_entry_log T L HL _ 0); auto; lia.
Qed.

(** A request of an older term changes nothing. *)
Lemma handle_append_stale (n : group) (q : append_request) :
  aq_term q < current_term n -> (handle_append n q).1 = n.
Proof.
  intros H. unfold handle_append. destruct (Nat.ltb_spec (current_term n) (aq_term q)); [lia|].
  by destruct (Nat.ltb_spec (aq_term q) (current_term n)); [|lia].
Qed.

(** Handlers that leave the log alone, or fill it from a request. *)
Lemma logs_ok_keep (T : nat -> list entry) (c : cluster) (i : str) (n n' : group) (ms : list msg) :
  logs_ok T c -> groups c !! i = Some n -> from_T T (log n') ->
  (grole n' = Leader -> grole n = Leader /\ current_term n' = current_term n /\ log n' = log n) ->
  (forall to q, MAppend to q ∈ ms -> append_ok T c to q) -> logs_ok T (put c i n n' ms).
Proof.
  intros [Hl Hld Hm He] Hi Hn' Hr Hms. assert (Hw : wins (put c i n n' ms) = wins c) by (apply put_wins; intros H; by apply Hr).
  split.
  - intros j m. cbn [put groups]. destruct (decide (j = i)) as [->|Hne]; [|rewrite lookup_insert_ne by done; by apply Hl].
    rewrite lookup_insert_eq. by intros [= <-].
  - intros j m. cbn [put groups]. destruct (decide (j = i)) as [->|Hne]; [|rewrite lookup_insert_ne by done; by apply Hld].
    rewrite lookup_insert_eq. intros [= <-] Hrm. destruct (Hr Hrm) as (? & -> & ->). by eapply Hld.
  - unfold append_ok. rewrite Hw. intros to q. cbn [put net]. rewrite elem_of_app. intros [?|?]; [by apply Hm|by apply Hms].
  - rewrite Hw. done.
Qed.

(** The leader of a term, new or not, adds an entry. *)
Lemma logs_ok_own (ids : gset str) (T : nat -> list entry) (c : cluster) (i : str) (n n' : group) (cmd : command) :
  logs_ok T c -> groups c !! i = Some n -> group_inv ids (put c i n n' []) ->
  (forall x, x ∈ wins c -> x ∈ wins (put c i n n' [])) ->
  grole n' = Leader -> log n' = log n ++ [Entry (current_term n') (length (log n) + 1) cmd] ->
  T (current_term n') `prefix_of` log n ->
  logs_ok (<[current_term n' := log n']> T) (put c i n n' []).
Proof.
  intros [Hl Hld Hm He] Hi Hc' Hw Hr Hlog Hpre. set (t := current_term n') in *.
  assert (Hg : groups (put c i n n' []) !! i = Some n') by (cbn; by rewrite lookup_insert_eq).
  destruct (go_leader _ _ _ _ (ri_group _ _ Hc' i n' Hg) Hr) as [vs Hvs].
  assert (Hpre' : T t `prefix_of` log n') by (rewrite Hlog; by apply prefix_app_r).
  split.
  - intros j m. destruct (decide (j = i)) as [->|Hne].
    + rewrite Hg. intros [= <-]. rewrite Hlog. apply from_T_snoc; [by eapply Hl|done].
    + cbn [put groups]. rewrite lookup_insert_ne by done. intros Hj. apply from_T_grow; [by eapply Hl|done].
  - intros j m Hj Hrm. destruct (decide (current_term m = t)) as [Et|Et].
    + destruct (go_leader _ _ _ _ (ri_group _ _ Hc' j m Hj) Hrm) as [vs' Hvs']. rewrite Et in Hvs'.
      assert (j = i) as -> by (by eapply wins_unique). rewrite Hg in Hj. injection Hj as <-. fold t. by rewrite fn_lookup_insert.
    + rewrite fn_lookup_insert_ne by done. cbn [put groups] in Hj. destruct (decide (j = i)) as [->|Hne].
      * rewrite lookup_insert_eq in Hj. by injection Hj as <-.
      * rewrite lookup_insert_ne in Hj by done. by eapply Hld.
  - intros to q. cbn [put net]. rewrite app_nil_r. intros Hq. destruct (Hm to q Hq) as (? & (vs' & ?) & L & HL & ? & ?).
    split_and!; [done|by exists vs'; apply Hw|]. exists L. split_and!; auto. by apply from_T_grow.
  - intros u Hu. destruct (decide (u = t)) as [->|Hne]; [by exists i, vs|]. rewrite fn_lookup_insert_ne in Hu by done.
    destruct (He u Hu) as (j & vs' & ?). exists j, vs'. auto.
Qed.

Lemma logs_ok_adv (T : nat -> list entry) (c : cluster) (i : str) (n n' : group) (ms : list msg) :
  logs_ok T c -> groups c !! i = Some n -> adv n n' -> log n' = log n ->
  (forall to q, MAppend to q ∈ ms -> append_ok T c to q) -> logs_ok T (put c i n n' ms).
Proof.
  intros HT Hi Ha Hl Hms. apply logs_ok_keep; auto; [rewrite Hl; by eapply lo_log|].
  intros Hr. by destruct (adv_leader n n' Ha Hr).
Qed.

Lemma no_append_votes (qs : list (str * vote_request)) (to : str) (q : append_request) : MAppend to q ∉ vote_msgs qs.
Proof. intros (pq & E & _)%list_elem_of_fmap. done. Qed.

Lemma log_start (n : group) : log (start_election n).1 = log n.
Proof. done. Qed.

Lemma logs_ok_append (ids : gset str) (T : nat -> list entry) (c : cluster) (n : group) (to : str) (q : append_request) (m : msg) :
  group_inv ids c -> logs_ok T c -> groups c !! to = Some n -> MAppend to q ∈ net c -> (forall t r, m <> MAppend t r) ->
  logs_ok T (put c to n (handle_append n q).1 [m]).
Proof.
  intros Hc HT Hi Hq Hm. pose proof (lo_msg _ _ HT to q Hq) as Hok. apply logs_ok_keep; auto.
  - eapply handle_append_log; [by eapply lo_log|done].
  - intros Hr. destruct (adv_leader n _ (adv_append n q) Hr) as [Hrn Ht]. split_and!; auto.
    destruct (Nat.lt_trichotomy (aq_term q) (current_term n)) as [Hlt|[Heq|Hgt]].
    + by rewrite handle_append_stale.
    + destruct (go_leader _ _ _ _ (ri_group _ _ Hc _ _ Hi) Hrn) as [vs Hvs]. destruct Hok as (Hne & (vs' & Hvs') & _).
      rewrite Heq in Hvs'. by destruct Hne; eapply wins_unique.
    + exfalso. assert (E : handle_append n q = handle_append (become_follower n (aq_term q)) q).
      { assert (Et : current_term (become_follower n (aq_term q)) = aq_term q) by (unfold become_follower; by destruct (_ || _)).
        unfold handle_append. rewrite Et, Nat.ltb_irrefl. by rewrite (proj2 (Nat.ltb_lt _ _) Hgt). }
      rewrite E in Hr. destruct (adv_leader _ _ (adv_append _ q) Hr) as [Hr' _]. revert Hr'.
      unfold become_follower. by destruct (_ || _).
  - intros t r E%list_elem_of_singleton. by destruct (Hm t r).
Qed.

Lemma logs_ok_vote (ids : gset str) (T : nat -> list entry) (c : cluster) (i : str) (n : group) (r : vote_response) :
  group_inv ids c -> group_inv ids (put c i n (on_vote n r) []) -> logs_ok T c -> groups c !! i = Some n ->
  exists T', logs_ok T' (put c i n (on_vote n r) []).
Proof.
  intros Hc Hc' HT Hi. unfold on_vote in *. case_bool_decide as Hr; cbn [negb orb] in *.
  2: { exists T. apply logs_ok_adv; auto using adv_refl. set_solver. }
  destruct (Nat.ltb_spec (vr_term r) (current_term n)).
  { exists T. apply logs_ok_adv; auto using adv_refl. set_solver. }
  destruct (Nat.ltb_spec (current_term n) (vr_term r)).
  { exists T. apply logs_ok_adv; auto using adv_follower, log_follower. set_solver. }
  destruct (vr_granted r); [|exists T; apply logs_ok_adv; auto using adv_refl; set_solver].
  destruct (Nat.leb _ _).
  2: { exists T. apply logs_ok_keep; auto; [exact (lo_log _ _ HT _ _ Hi)|set_solver]. }
  set (n' := become_leader _) in *. exists (<[current_term n' := log n']> T).
  assert (Hw : wins (put c i n n' []) = (current_term n', i, votes_received n' ∩ voters n') :: wins c)
    by (unfold put; cbn [wins]; rewrite decide_True; [done|split; [congruence|done]]).
  eapply logs_ok_own; eauto; [intros x; rewrite Hw; set_solver|].
  destruct (T (current_term n')) as [|e l] eqn:E; [by exists (log n)|exfalso].
  destruct (lo_empty _ _ HT (current_term n')) as (j & vs & Hj); [by rewrite E|].
  assert (j = i) as -> by (eapply (wins_unique _ _ _ _ _ _ _ Hc'); rewrite Hw; apply elem_of_cons; [by right|by left]).
  destruct (ri_win _ _ Hc _ _ _ Hj) as (_ & _ & _ & (m & Hm & Hk) & _). assert (m = n) as -> by congruence.
  destruct Hk as [Hk|(_ & ? & _)]; [|congruence]. cbn in Hk. lia.
Qed.

Lemma logs_ok_msg (ids : gset str) (T : nat -> list entry) (c : cluster) (m : msg) (b : bool) (n : group) :
  group_inv ids c -> group_inv ids (put c (msg_to m) n (on_msg n m b).1 (on_msg n m b).2) -> logs_ok T c ->
  groups c !! msg_to m = Some n -> m ∈ net c ->
  exists T', logs_ok T' (put c (msg_to m) n (on_msg n m b).1 (on_msg n m b).2).
Proof.
  intros Hc Hc' HT Hi Hm. destruct m as [to q|to [] r|to q|to p r]; cbn [on_msg msg_to] in *.
  - exists T. destruct (handle_vote n q b) as [n' r] eqn:E. cbn [fst snd].
    apply logs_ok_keep; auto; unfold handle_vote in E; [| |intros ? ? [=]%list_elem_of_singleton];
      destruct (_ && Nat.ltb _ _), (vq_pre q); try destruct (_ && _); injection E as <- <-;
      first [exact (lo_log _ _ HT _ _ Hi) | cbn; rewrite log_follower; exact (lo_log _ _ HT _ _ Hi) | done
            | unfold become_follower; by destruct (_ || _) | idtac].
  - exists T. unfold on_pre_vote. destruct (_ || _); cbn [fst snd]; [apply logs_ok_adv; auto using adv_refl; set_solver|].
    destruct (Nat.ltb_spec (current_term n) (vr_term r)); cbn [fst snd];
      [apply logs_ok_adv; auto using adv_follower, log_follower; set_solver|].
    destruct (vr_granted r); cbn [fst snd]; [|apply logs_ok_adv; auto using adv_refl; set_solver].
    destruct (Nat.leb _ _); cbn [fst snd]; apply logs_ok_adv; auto; try (by apply adv_same; auto); try set_solver.
    + eapply adv_trans; [|apply (adv_start (set_pre_votes n _ _))]. by apply adv_same; auto.
  - by eapply logs_ok_vote.
  - exists T. destruct (handle_append n q) as [n' r] eqn:E. cbn [fst snd]. replace n' with (handle_append n q).1 by (by rewrite E).
    by eapply logs_ok_append.
  - exists T. cbn [fst snd]. apply logs_ok_adv; auto using adv_on_append; [|set_solver]. unfold on_append.
    destruct (Nat.ltb _ _); [apply log_follower|]. destruct (negb _); [done|].
    destruct (ar_success r); [apply (log_advance (set_peer n _ _ _))|done].
Qed.

Lemma append_to_ok (ids : gset str) (T : nat -> list entry) (c : cluster) (i p : str) (n : group) :
  group_inv ids c -> logs_ok T c -> groups c !! i = Some n -> grole n = Leader -> p <> i -> append_ok T c p (append_to n p).
Proof.
  intros Hc HT Hi Hr Hp. destruct (ri_group _ _ Hc i n Hi) as [Hid _ _ Hld]. unfold append_ok, append_to. cbn [aq_leader aq_term aq_entries aq_prev_index aq_prev_term].
  rewrite Hid. split_and!; auto. exists (log n). split_and!; [by eapply lo_log|done|]. intros [H1 H2].
  destruct (default 1 (next_index n !! p) - 1) as [|k]; [lia|]. replace (S k - 1) with k by lia.
  destruct (lookup_lt_is_Some_2 (log n) k) as [e He]; [lia|]. by rewrite He.
Qed.

Lemma logs_ok_event (ids : gset str) (T : nat -> list entry) (c : cluster) (i : str) (n : group) (e : event) :
  mirror n -> no_reconfigure e -> group_inv ids c -> group_inv ids (put c i n (on_event n e).1 (on_event n e).2) ->
  logs_ok T c -> groups c !! i = Some n -> exists T', logs_ok T' (put c i n (on_event n e).1 (on_event n e).2).
Proof.
  intros Hmi He Hc Hc' HT Hi. destruct (adv_event n e Hmi He) as [Ha _].
  assert (Hkeep : log (on_event n e).1 = log n -> (forall to q, MAppend to q ∈ (on_event n e).2 -> append_ok T c to q) ->
    exists T', logs_ok T' (put c i n (on_event n e).1 (on_event n e).2)) by (intros; exists T; by apply logs_ok_adv).
  destruct e as [j|j p|k b|j t|j new|j]; cbn [on_event] in *; try done.
  - apply Hkeep.
    + destruct (_ || _); [done|]. unfold start_pre_election. by destruct (Nat.leb _ _).
    + intros to q. destruct (_ || _); [set_solver|]. destruct (start_pre_election n). by intros ?%no_append_votes.
  - apply Hkeep; [by destruct (_ && _)|]. intros to q. destruct (_ && _) eqn:E; [|set_solver]. cbn [snd].
    intros [= -> ->]%list_elem_of_singleton. apply andb_true_iff in E as [Hr%bool_decide_eq_true Hp%negb_true_iff]. str_bool.
    eapply append_to_ok; eauto. by rewrite <- (go_id _ _ _ _ (ri_group _ _ Hc i n Hi)).
  - apply Hkeep; [done|]. set_solver.
  - unfold propose in *. case_bool_decide as Hr; cbn [fst snd] in *; [|apply Hkeep; [done|set_solver]].
    set (n' := append_own n (Data t)) in *. exists (<[current_term n' := log n']> T).
    eapply logs_ok_own; eauto.
    + intros x. by rewrite put_wins.
    + change (current_term n') with (current_term n). by rewrite (lo_leader _ _ HT i n Hi Hr).
  - apply Hkeep; [|set_solver]. cbn [fst]. unfold recover. rewrite log_refresh. cbn. by rewrite Hmi.
Qed.

Lemma logs_ok_step (ids : gset str) (T : nat -> list entry) (c : cluster) (e : event) :
  no_reconfigure e -> local_inv ids c -> group_inv ids c -> logs_ok T c -> exists T', logs_ok T' (cstep c e).
Proof.
  intros He Hl Hc HT. pose proof (group_inv_step ids c e He Hl Hc) as Hc'.
  destruct (cstep_cases c e) as [E|(i & n & n' & ms & Hi & Es & Hs)]; [rewrite E; eauto|]. rewrite Es in *.
  destruct Hs as [(m & b & Hm & -> & E)|[E _]].
  - pose proof (logs_ok_msg ids T c m b n) as H. rewrite E in H. by apply H.
  - pose proof (logs_ok_event ids T c i n e (proj1 (proj1 Hl i n Hi)) He) as H. rewrite E in H. by apply H.
Qed.

Lemma logs_ok_new (ids : gset str) : logs_ok (fun _ => []) (new_cluster ids).
Proof.
  assert (H : forall i n, groups (new_cluster ids) !! i = Some n -> grole n = Follower /\ log n = []).
  { intros i n. cbn. rewrite lookup_set_to_map by done. intros (j & _ & [= <- <-]). by destruct (new_group_state j ids) as (_ & ? & ?). }
  split; [| |cbn; set_solver|done]; intros i n Hi; destruct (H i n Hi) as [Hr Hl]; [by rewrite Hl|congruence].
Qed.

Lemma logs_ok_run (ids : gset str) (es : list event) :
  Forall no_reconfigure es -> exists T, logs_ok T (crun (new_cluster ids) es).
Proof.
  intros Hes. enough (H : forall c T, local_inv ids c -> group_inv ids c -> logs_ok T c -> exists T', logs_ok T' (crun c es))
    by (eapply H; [apply local_inv_new|apply group_inv_new|apply logs_ok_new]).
  induction Hes as [|e es He Hes IH]; intros c T Hl Hc HT; [eauto|]. cbn [crun foldl].
  destruct (logs_ok_step ids T c e He Hl Hc HT) as [T' HT']. eapply IH; eauto using group_inv_step.
  apply (cstep_local _ _ no_reconfigure); auto using fixed_msg, fixed_event.
Qed.

(** ** Theorems *)

(** C9: election safety of the networked Raft.  With a fixed configuration, in every run with
    restarts, repeated and lost messages, two groups that lead in the same term are the
    same. *)
Theorem group_election_safety (ids : gset str) (es : list event) (i j : str) (n m : group) :
  let c := crun (new_cluster ids) es in
  Forall no_reconfigure es -> groups c !! i = Some n -> groups c !! j = Some m ->
  grole n = Leader -> grole m = Leader -> current_term n = current_term m -> i = j.
Proof.
  intros c Hes Hi Hj Hn Hm Ht. destruct (group_inv_run ids es Hes _ (local_inv_new ids) (group_inv_new ids)) as [_ Hc].
  destruct (go_leader _ _ _ _ (ri_group _ _ Hc _ _ Hi) Hn) as [vi Hvi].
  destruct (go_leader _ _ _ _ (ri_group _ _ Hc _ _ Hj) Hm) as [vj Hvj].
  rewrite Ht in Hvi. by eapply wins_unique.
Qed.

(** C10: log matching.  With a fixed configuration, in every run, two logs that hold entries of
    the same term at the same index are equal up to that index, and the entry at
    position [k] carries index [k + 1]. *)
Theorem group_log_matching (ids : gset str) (es : list event) (i j : str) (n m : group) (k : nat) (x y : entry) :
  let c := crun (new_cluster ids) es in
  Forall no_reconfigure es -> groups c !! i = Some n -> groups c !! j = Some m ->
  log n !! k = Some x -> log m !! k = Some y -> e_term x = e_term y ->
  take (S k) (log n) = take (S k) (log m) /\ e_index x = S k.
Proof.
  intros c Hes Hi Hj Hx Hy Ht. destruct (logs_ok_run ids es Hes) as [T HT].
  pose proof (lo_log _ _ HT _ _ Hi) as Hn. pose proof (lo_log _ _ HT _ _ Hj) as Hm.
  split; [by eapply from_T_agree|]. by destruct (Hn _ _ Hx).
Qed.

(** C11: what a group works with is on disk.  In every run, reconfigurations included, a
    restart finds the term, the vote and the log the group had, so a vote once given is
    not given again. *)
Theorem group_durable (ids : gset str) (es : list event) (i : str) (n : group) :
  groups (crun (new_cluster ids) es) !! i = Some n ->
  let n' := recover (node_id n) (initial_voters n) (stored n) in
  current_term n' = current_term n /\ voted_for n' = voted_for n /\ log n' = log n /\
  voters n' = config_of (log n) (initial_voters n).
Proof.
  intros Hi. destruct (crun_local (fun _ => mirror) (fun _ => True) (fun _ => True)) with (es := es) (c := new_cluster ids) as [Hm _].
  - intros. split; [by apply mirror_msg|by apply list.Forall_true].
  - intros. split; [by apply mirror_event|by apply list.Forall_true].
  - by apply list.Forall_true.
  - apply new_cluster_local. intros. apply mirror_recover.
  - specialize (Hm i n Hi). cbn in Hm. unfold recover. rewrite Hm. unfold refresh_voters, set_voters.
    case_decide as E; cbn in *; auto.
Qed.

(** ** Runs *)

Definition A : str := py "A".
Definition B : str := py "B".
Definition C : str := py "C".
Definition D : str := py "D".
Definition E : str := py "E".
Definition abc : gset str := {[A; B; C]}.
Definition delivers (ks : list nat) : list event := map (fun k => Deliver k false) ks.

(** A asks B for a pre-vote, then for its vote, and leads. *)
Definition elect_A : list event := Campaign A :: delivers [1; 2; 4; 5].

Definition leads (c : cluster) (i : str) (t : nat) : bool :=
  match groups c !! i with Some n => bool_decide (grole n = Leader) && Nat.eqb (current_term n) t | None => false end.

Lemma group_election_safety_witness :
  let c := crun (new_cluster abc) elect_A in leads c A 1 = true /\
  forall n, groups c !! A = Some n -> grole n = Leader -> A = A.
Proof.
  split; [vm_compute; reflexivity|]. intros n Hn Hr.
  refine (group_election_safety abc elect_A A A n n _ Hn Hn Hr Hr eq_refl). repeat constructor.
Defined.

(** A replicates its no-op to B. *)
Definition elect_and_send : list event := elect_A ++ Replicate A B :: delivers [6; 7].

Lemma group_log_matching_witness :
  let c := crun (new_cluster abc) elect_and_send in
  (groups c !! A ≫= fun n => log n !! 0) = Some (Entry 1 1 Noop) /\
  (groups c !! B ≫= fun n => log n !! 0) = Some (Entry 1 1 Noop) /\
  forall n m x y, groups c !! A = Some n -> groups c !! B = Some m -> log n !! 0 = Some x -> log m !! 0 = Some y ->
    e_term x = e_term y -> take 1 (log n) = take 1 (log m).
Proof.
  split; [vm_compute; reflexivity|]. split; [vm_compute; reflexivity|]. intros n m x y Hn Hm Hx Hy Ht.
  refine (proj1 (group_log_matching abc elect_and_send A B n m 0 x y _ Hn Hm Hx Hy Ht)). repeat constructor.
Defined.

Lemma group_durable_witness :
  let c := crun (new_cluster abc) elect_and_send in
  is_Some (groups c !! B) /\
  forall n, groups c !! B = Some n -> log (recover (node_id n) (initial_voters n) (stored n)) = log n.
Proof.
  split; [vm_compute; eauto|]. intros n Hn. exact (proj1 (proj2 (proj2 (group_durable abc elect_and_send B n Hn)))).
Defined.

(** Replicas A and B of three run, C is down.  Both ask for pre-votes at once, grant each
    other's, stand in term 1 and refuse each other's request. *)
Definition two_of_three : cluster := mkCluster {[A := new_group A abc; B := new_group B abc]} [] [].
Definition split_vote : list event := [Campaign A; Campaign B] ++ delivers [1; 3; 4; 5; 7; 9; 10; 11].

Definition no_restart (e : event) : Prop := match e with Restart _ => False | _ => True end.

(** A candidate with nothing but its own vote. *)
Definition lonely (i : str) (n : group) : Prop :=
  node_id n = i /\ grole n = Candidate /\ current_term n = 1 /\ voted_for n = Some i /\ voters n = abc.
Definition useless (m : msg) : Prop :=
  match m with
  | MVote to q => if vq_pre q then True else vq_term q <= 1 /\ to <> vq_candidate q
  | MVoted _ false r => vr_term r <= 1 /\ vr_granted r = false
  | MVoted _ true _ => True
  | MAppend _ _ | MAppended _ _ _ => False
  end.

#[local] Instance lonely_dec (i : str) (n : group) : Decision (lonely i n).
Proof. unfold lonely. apply _. Defined.
#[local] Instance useless_dec (m : msg) : Decision (useless m).
Proof. destruct m as [to q|to [] r|to q|to p r]; cbn; try destruct (vq_pre q); apply _. Defined.

Lemma abc_size : size abc = 3.
Proof. vm_compute. reflexivity. Qed.

Lemma lonely_msg (n : group) (m : msg) (b : bool) :
  lonely (msg_to m) n -> useless m -> lonely (msg_to m) (on_msg n m b).1 /\ Forall useless (on_msg n m b).2.
Proof.
  intros (Hid & Hr & Ht & Hv & Hvs) Hm. destruct m as [to q|to [] r|to q|to p r]; cbn [on_msg msg_to] in *; try done.
  - unfold handle_vote. cbn in Hm. destruct (vq_pre q) eqn:Hp; cbn [negb andb].
    { split; [done|]. by repeat constructor. }
    destruct Hm as [Hq Hne]. rewrite Ht. destruct (Nat.ltb_spec 1 (vq_term q)); [lia|]. rewrite Ht.
    assert (Hmv : may_vote n (vq_candidate q) = false) by (unfold may_vote; rewrite Hv; str_bool; congruence).
    rewrite Hmv, andb_false_r. cbn [andb fst snd]. split; [done|]. repeat constructor; cbn; auto.
  - unfold on_pre_vote. rewrite bool_decide_false by congruence. cbn. by split.
  - unfold on_vote. rewrite bool_decide_true by done. cbn in Hm. destruct Hm as [Hq Hg]. rewrite Ht, Hg.
    cbn [negb orb]. destruct (Nat.ltb _ _); [by split|]. destruct (Nat.ltb_spec 1 (vr_term r)); [lia|by split].
Qed.

Lemma lonely_event (i : str) (n : group) (e : event) :
  lonely i n -> no_restart e -> lonely i (on_event n e).1 /\ Forall useless (on_event n e).2.
Proof.
  intros (Hid & Hr & Ht & Hv & Hvs) He.
  destruct e as [j|j p|k b|j t|j new|j]; cbn [on_event]; unfold propose, reconfigure;
    rewrite ?(bool_decide_false (grole n = Leader)) by congruence; cbn [orb andb negb fst snd]; try done.
  destruct (negb _); [done|]. unfold start_pre_election. destruct (Nat.leb_spec (majority (set_pre_votes n {[node_id n]} (S (current_term n))))
    (size (pre_votes (set_pre_votes n {[node_id n]} (S (current_term n))) ∩ voters (set_pre_votes n {[node_id n]} (S (current_term n)))))) as [Hl|_].
  - exfalso. unfold majority in Hl. cbn -[size Nat.div] in Hl. rewrite Hvs, abc_size in Hl.
    assert (size ({[node_id n]} ∩ abc) <= 1); [|change (3 / 2 + 1) with 2 in Hl; lia].
    rewrite <- (size_singleton (C := gset str) (node_id n)). apply subseteq_size. set_solver.
  - split; [done|]. cbn [snd]. apply list.Forall_forall. by intros m (pq & -> & (p & -> & _)%list_elem_of_fmap)%list_elem_of_fmap.
Qed.

(** A split vote is never resolved.  With two of the three replicas up, there is a short
    run after which both are candidates, and whatever timers fire and messages arrive
    (short of a restart) both stay candidates: a candidate ignores the answers to its
    own pre-votes, so the group has no leader although a majority is up. *)
Theorem group_split_vote_stuck (es : list event) :
  Forall no_restart es ->
  map_Forall (fun _ n => grole n = Candidate) (groups (crun (crun two_of_three split_vote) es)).
Proof.
  intros Hes. assert (Hc : all_local lonely useless (crun two_of_three split_vote)).
  { split.
    - apply (bool_decide_eq_true_1 _). vm_compute. reflexivity.
    - apply (bool_decide_eq_true_1 _). vm_compute. reflexivity. }
  destruct (crun_local lonely useless no_restart lonely_msg lonely_event es _ Hes Hc) as [H _].
  intros i n Hi. by destruct (H i n Hi) as (_ & ? & _).
Qed.

Lemma group_split_vote_stuck_witness :
  Forall no_restart [Campaign A; Campaign B] /\
  map_Forall (fun _ n => grole n = Candidate) (groups (crun (crun two_of_three split_vote) [Campaign A; Campaign B])).
Proof. split; [repeat constructor|]. apply (group_split_vote_stuck [Campaign A; Campaign B]). repeat constructor. Defined.

(** The entry a group has applied at an index. *)
Definition applied_at (c : cluster) (i : str) (idx : nat) : option entry := groups c !! i ≫= fun n => applied n !! (idx - 1).

(** A, leader of A, B, C, adds D and then E before the first change is committed, and
    commits with D and E; B and C, who know of neither, elect B. *)
Definition joining : cluster :=
  mkCluster (list_to_map (map (fun i => (i, new_group i abc)) [A; B; C; D; E])) [] [].
Definition two_changes : list event :=
  elect_A ++ [Reconfigure A {[A; B; C; D]}; Reconfigure A {[A; B; C; D; E]}]
  ++ Replicate A D :: delivers [6; 7] ++ Replicate A E :: delivers [8; 9]
  ++ Replicate A D :: delivers [10; 11] ++ Replicate A E :: delivers [12; 13]
  ++ Campaign B :: delivers [14; 16; 17; 19]
  ++ [Propose B (py "x"); Propose B (py "x"); Replicate B C] ++ delivers [20; 21].

(** Two membership changes in a row are unsafe.  Each change adds one voter, as
    [reconfigure] demands, but the second does not wait for the first to commit: two
    leaders then apply different commands at the same index. *)
Theorem group_reconfigure_unsafe :
  let c := crun joining two_changes in
  applied_at c A 2 = Some (Entry 1 2 (ConfigTo {[A; B; C; D]})) /\ applied_at c B 2 = Some (Entry 2 2 (Data (py "x"))).
Proof. vm_compute. split; reflexivity. Qed.

(** Five voters.  B's answer to A's request of term 1 (message 13) is late: meanwhile C leads
    term 2 and overwrites what B stored, and A leads term 3. *)
Definition abcde : gset str := {[A; B; C; D; E]}.
Definition late_answer : list event :=
  Campaign A :: delivers [3; 4; 2; 5; 9; 10; 8; 11]
  ++ [Propose A (py "x"); Propose A (py "x"); Replicate A B] ++ delivers [12]
  ++ Campaign C :: delivers [15; 18; 14; 19; 21; 24; 20; 25]
  ++ Replicate C B :: delivers [26; 27] ++ Replicate C A :: delivers [28; 29]
  ++ Replicate C A :: delivers [30; 31] ++ Replicate C D :: delivers [32; 33]
  ++ Campaign A :: delivers [37; 38; 35; 39; 43; 44; 41; 45]
  ++ [Propose A (py "y"); Replicate A D] ++ delivers [46; 47; 13]
  ++ Replicate C B :: delivers [48; 49]
  ++ Campaign C :: delivers [52; 54; 50; 55; 58; 60; 56; 61]
  ++ [Propose C (py "z"); Replicate C B] ++ delivers [62; 63]
  ++ Replicate C E :: delivers [64; 65] ++ Replicate C E :: delivers [66; 67].

(** An answer from an earlier term is counted.  With a fixed configuration, every message
    handled at most once and no restart, two leaders apply different commands at the
    same index, because [_replicate_to] does not check that an answer belongs to its
    current term. *)
Theorem group_late_answer_unsafe :
  let c := crun (new_cluster abcde) late_answer in
  Forall no_reconfigure late_answer /\ Forall no_restart late_answer /\
  applied_at c A 3 = Some (Entry 3 3 (Data (py "y"))) /\ applied_at c C 3 = Some (Entry 4 3 (Data (py "z"))).
Proof. split; [repeat constructor|]. split; [repeat constructor|]. vm_compute. split; reflexivity. Qed.

(** The only voter of its configuration. *)
Definition alone (i : str) (n : group) : Prop :=
  (mirror n /\ fixed {[i]} n) /\ node_id n = i /\ grole n <> Leader.

Lemma alone_event (i : str) (n : group) (e : event) :
  alone i n -> no_reconfigure e -> alone i (on_event n e).1 /\ Forall (fun _ => False) (on_event n e).2.
Proof.
  intros (Hf & Hid & Hr) He. destruct (fixed_event _ n e Hf He) as [Hf' _]. destruct (adv_event n e (proj1 Hf) He) as [Ha _].
  split; [split; [done|split; [pose proof Ha as [? _]; congruence|intros Hl; by apply (adv_leader _ _ Ha) in Hl as [? _]]]|].
  destruct e as [j|j p|k b|j t|j new|j]; cbn [on_event]; rewrite ?(bool_decide_false (grole n = Leader)) by done; cbn [andb orb]; try done.
  destruct (negb _); [done|]. destruct Hf as [_ (_ & Hv & _)].
  assert (Hp : forall m, node_id m = i -> voters m = {[i]} -> elements (peers m) = [])
    by (intros m Hi Hm; unfold peers; rewrite Hm, Hi, difference_diag_L; apply elements_empty).
  unfold start_pre_election. destruct (Nat.leb _ _); cbn [start_election snd]; rewrite Hp; done.
Qed.

(** A group whose only voter is itself never leads: [_start_election] counts votes only
    when an answer arrives, and there is nobody to answer. *)
Theorem group_single_voter_stuck (i : str) (es : list event) :
  Forall no_reconfigure es ->
  map_Forall (fun _ n => grole n <> Leader) (groups (crun (new_cluster {[i]}) es)).
Proof.
  intros Hes. destruct (crun_local alone (fun _ => False) no_reconfigure) with (es := es) (c := new_cluster {[i]}) as [H _];
    auto using alone_event.
  - done.
  - split; [|constructor]. intros j n. cbn. rewrite lookup_set_to_map by done.
    intros (k & ->%elem_of_singleton & [= <- <-]). destruct (new_group_state i {[i]}) as (? & Hr & _).
    split; [apply new_group_fixed|]. split; [done|]. by rewrite Hr.
  - intros j n Hj. by destruct (H j n Hj) as (_ & _ & ?).
Qed.

(** A follower that holds an uncommitted configuration. *)
Definition with_config : group :=
  mkGroup B abc {[A; B; C; D]} 1 None [Entry 1 1 (ConfigTo {[A; B; C; D]})]
    (Disk 1 None [Entry 1 1 (ConfigTo {[A; B; C; D]})]) 0 [] Follower None ∅ ∅ 0 ∅ ∅.

(** A request that does not match removes the tail of the log but not the configuration it
    held: the voters stay those of an entry that is gone, also on a group whose log is
    now empty. *)
Theorem group_truncation_keeps_config :
  let n := (handle_append with_config (AppendRequest 2 C 1 2 [] 0)).1 in
  log n = [] /\ voters n = {[A; B; C; D]} /\ config_of (log n) (initial_voters n) = abc.
Proof. vm_compute. split_and!; reflexivity. Qed.
