(* ===== verification/SqlParser.v ===== *)
(** * The SQL parser: [litedb-python/sql_parser.py]

    [tokenize] and the recursive-descent [Parser].  The position of a token only appears
    in error messages and is left out.  Characters beyond ASCII are classified by the type
    class [Unicode], so the theorems hold whatever the tables of Python say of them; a
    float is kept as its numeral.

    The grammar of the [Parser] docstring is the relation [G] (expressions) and [G_stmt]
    (statements), with the parts the docstring leaves open as the parser has them: in a
    column definition any token with a text stands for a type.  A derivable
    statement is parsed to its tree, and accepted input has a derivable prefix
    ([sql_grammar]); and the text of a statement is read back as that statement
    ([sql_roundtrip]).  What follows a statement is ignored, so a misspelt keyword can
    drop a condition ([sql_typo_drops_where]). *)

From S2P Require Import Prelude PyStd Mvcc.

Local Open Scope N_scope.

(** ** Characters *)

Class Unicode := {
  u_space : N -> bool;
  u_alpha : N -> bool;
  u_digit : N -> bool;
  u_alnum : N -> bool;
  u_decimal : N -> option N;
  u_upper : N -> str;
  float_trunc : str -> res Z;
}.

Definition between (lo hi c : N) : bool := (lo <=? c) && (c <=? hi).
Definition ascii_digit (c : N) : bool := between 48 57 c.
Definition ascii_alpha (c : N) : bool := between 65 90 c || between 97 122 c.

Inductive number := NInt (z : Z) | NFloat (raw : str).

Inductive tok :=
| Kw (w : str)
| Ident (w : str)
| Str (s : str)
| Num (n : number)
| Star | EQ | NEQ | LT | LTE | GT | GTE | LParen | RParen | Comma | Semi | Eof.

#[export] Instance number_eq_dec : EqDecision number.
Proof. solve_decision. Defined.
#[export] Instance tok_eq_dec : EqDecision tok.
Proof. solve_decision. Defined.

Definition KEYWORDS : list str :=
  [py "SELECT"; py "INSERT"; py "UPDATE"; py "DELETE"; py "CREATE"; py "DROP";
   py "FROM"; py "INTO"; py "TABLE"; py "WHERE"; py "SET"; py "VALUES";
   py "AND"; py "OR"; py "NOT"; py "ORDER"; py "BY"; py "LIMIT"; py "ASC"; py "DESC";
   py "TEXT"; py "INT"; py "INTEGER"; py "FLOAT"; py "BOOLEAN"].

Section text.
Context `{Unicode}.

Definition isspace (c : N) : bool := if c <? 128 then between 9 13 c || between 28 32 c else u_space c.
Definition isdigit (c : N) : bool := if c <? 128 then ascii_digit c else u_digit c.
Definition isalpha (c : N) : bool := if c <? 128 then ascii_alpha c else u_alpha c.
Definition isalnum (c : N) : bool := if c <? 128 then ascii_alpha c || ascii_digit c else u_alnum c.
Definition upper_char (c : N) : str := if c <? 128 then [if between 97 122 c then c - 32 else c] else u_upper c.
Definition upper (s : str) : str := concat (map upper_char s).

Definition decimal (c : N) : option N :=
  if c <? 128 then if ascii_digit c then Some (c - 48) else None else u_decimal c.

(** [int(raw)] and the check of [float(raw)], for an optional sign, digits and dots. *)
Definition int_digits (ds : str) : res Z :=
  match mapM decimal ds with
  | Some (d :: l) => Ok (Z.of_N (of_digits 10 (d :: l)))
  | _ => Raise ValueError
  end.
Definition int_raw (raw : str) : res Z :=
  match raw with
  | 45 :: ds => z ← int_digits ds; Ok (- z)%Z
  | _ => int_digits raw
  end.
Definition unsigned (raw : str) : str := match raw with 45 :: ds => ds | _ => raw end.
Definition float_ok (raw : str) : bool :=
  let ds := unsigned raw in
  let digits := filter (fun c => c <> 46) ds in
  Nat.eqb (length ds) (S (length digits)) && negb (Nat.eqb (length digits) 0)
  && bool_decide (is_Some (mapM decimal digits)).
Definition number_of (raw : str) : res number :=
  if bool_decide (46 ∈ raw) then (if float_ok raw then Ok (NFloat raw) else Raise ValueError)
  else z ← int_raw raw; Ok (NInt z).

(** ** The tokenizer *)

(** The longest prefix of characters in [p]. *)
Fixpoint span (p : N -> bool) (s : str) : str * str :=
  match s with
  | c :: s' => if p c then let '(a, b) := span p s' in (c :: a, b) else ([], s)
  | [] => ([], [])
  end.

(** A string literal up to its quote; a backslash protects the next character and stays. *)
Fixpoint str_body (q : N) (s : str) : str * str :=
  match s with
  | [] => ([], [])
  | c :: s' =>
      if c =? q then ([], s')
      else
        match s' with
        | d :: s'' => if c =? 92 then let '(a, b) := str_body q s'' in (c :: d :: a, b)
                      else let '(a, b) := str_body q s' in (c :: a, b)
        | [] => ([c], [])
        end
  end.

Definition word_token (w : str) : tok := let u := upper w in if bool_decide (u ∈ KEYWORDS) then Kw u else Ident w.

Definition punct (c : N) (next : option N) : option (tok * bool) :=
  if (c =? 33) && bool_decide (next = Some 61) then Some (NEQ, true)
  else if (c =? 60) && bool_decide (next = Some 61) then Some (LTE, true)
  else if (c =? 62) && bool_decide (next = Some 61) then Some (GTE, true)
  else if c =? 61 then Some (EQ, false)
  else if c =? 60 then Some (LT, false)
  else if c =? 62 then Some (GT, false)
  else if c =? 42 then Some (Star, false)
  else if c =? 40 then Some (LParen, false)
  else if c =? 41 then Some (RParen, false)
  else if c =? 44 then Some (Comma, false)
  else if c =? 59 then Some (Semi, false)
  else None.

(** One turn of the loop at a non-empty text: the token, if any, and the rest. *)
Definition next_token (c : N) (s : str) : res (option tok * str) :=
  if isspace c then Ok (None, s)
  else if (c =? 45) && bool_decide (head s = Some 45) then Ok (None, (span (fun d => negb (d =? 10)) (c :: s)).2)
  else if (c =? 39) || (c =? 34) then let '(body, rest) := str_body c s in Ok (Some (Str body), rest)
  else if isdigit c || ((c =? 45) && match s with d :: _ => isdigit d | [] => false end) then
    let '(ds, rest) := span (fun d => isdigit d || (d =? 46)) (if c =? 45 then s else c :: s) in
    let raw := if c =? 45 then c :: ds else ds in
    n ← number_of raw; Ok (Some (Num n), rest)
  else if isalpha c || (c =? 95) then
    let '(w, rest) := span (fun d => isalnum d || (d =? 95)) (c :: s) in Ok (Some (word_token w), rest)
  else
    match punct c (head s) with
    | Some (t, true) => Ok (Some t, tail s)
    | Some (t, false) => Ok (Some t, s)
    | None => Raise SyntaxErr
    end.

Fixpoint tokenize_loop (fuel : nat) (s : str) : res (list tok) :=
  match s with
  | [] => Ok [Eof]
  | c :: s' =>
      match fuel with
      | O => Raise RuntimeError
      | S fuel =>
          '(t, rest) ← next_token c s';
          ts ← tokenize_loop fuel rest;
          Ok (match t with Some t => t :: ts | None => ts end)
      end
  end.
Definition tokenize (sql : str) : res (list tok) := tokenize_loop (length sql) sql.
End text.

(** ** Syntax trees *)

Inductive value := VNone | VBool (b : bool) | VNum (n : number) | VStr (s : str).

Inductive binop := OEq | ONeq | OLt | OLte | OGt | OGte | OAnd | OOr.

Inductive expr :=
| BinaryExpr (op : binop) (left right : expr)
| UnaryExpr (operand : expr)
| ColumnRef (name : str)
| Literal (v : value).

Record ColumnDef := mkColumnDef { cd_name : str; cd_type : str }.

Inductive stmt :=
| CreateTableStmt (table : str) (columns : list ColumnDef)
| DropTableStmt (table : str)
| InsertStmt (table : str) (columns : list str) (values : list value)
| SelectStmt (table : str) (columns : list str) (where_ : option expr) (order_by : option str) (order_desc : bool) (limit : option Z)
| UpdateStmt (table : str) (assignments : list (str * value)) (where_ : option expr)
| DeleteStmt (table : str) (where_ : option expr).

(** ** The parser

    A parser takes the tokens from [pos] on and returns what it read and the tokens left over. *)

Definition parser (A : Type) : Type := list tok -> res (A * list tok).

Definition peek (ts : list tok) : res tok := match ts with t :: _ => Ok t | [] => Raise IndexError end.
Definition matches (t : tok) (ts : list tok) : res bool := t' ← peek ts; Ok (bool_decide (t' = t)).

(** [consume(expected_type)], for a token without a value and for an identifier. *)
Definition consume (t : tok) (ts : list tok) : res (list tok) :=
  match ts with
  | t' :: ts => if decide (t' = t) then Ok ts else Raise SyntaxErr
  | [] => Raise IndexError
  end.
Definition consume_ident : parser str := fun ts =>
  match ts with
  | Ident w :: ts => Ok (w, ts)
  | _ :: _ => Raise SyntaxErr
  | [] => Raise IndexError
  end.

(** [p (, p)*]: the loop after the first element. *)
Fixpoint more {A} (p : parser A) (fuel : nat) (ts : list tok) : res (list A * list tok) :=
  match ts with
  | Comma :: ts =>
      match fuel with
      | O => Raise RuntimeError
      | S fuel => '(x, ts) ← p ts; '(xs, ts) ← more p fuel ts; Ok (x :: xs, ts)
      end
  | _ :: _ => Ok ([], ts)
  | [] => Raise IndexError
  end.
Definition comma_list {A} (p : parser A) : parser (list A) := fun ts =>
  '(x, ts) ← p ts; '(xs, ts) ← more p (length ts) ts; Ok (x :: xs, ts).

Definition cmp_op (t : tok) : option binop :=
  match t with
  | EQ => Some OEq | NEQ => Some ONeq | LT => Some OLt | LTE => Some OLte | GT => Some OGt | GTE => Some OGte
  | _ => None
  end.

(** [pe] parses the expression between parentheses. *)
Definition parse_term (pe : parser expr) : parser expr := fun ts =>
  match ts with
  | LParen :: ts => '(e, ts) ← pe ts; ts ← consume RParen ts; Ok (e, ts)
  | Ident w :: ts => Ok (ColumnRef w, ts)
  | Str s :: ts => Ok (Literal (VStr s), ts)
  | Num n :: ts => Ok (Literal (VNum n), ts)
  | _ :: _ => Raise SyntaxErr
  | [] => Raise IndexError
  end.

Definition parse_compare (pe : parser expr) : parser expr := fun ts =>
  '(lhs, ts) ← parse_term pe ts;
  t ← peek ts;
  match cmp_op t with
  | Some op => '(rhs, ts) ← parse_term pe (tail ts); Ok (BinaryExpr op lhs rhs, ts)
  | None => Ok (lhs, ts)
  end.

Fixpoint parse_not (pe : parser expr) (fuel : nat) (ts : list tok) : res (expr * list tok) :=
  b ← matches (Kw (py "NOT")) ts;
  if b : bool then
    match fuel with
    | O => Raise RuntimeError
    | S fuel => '(e, ts) ← parse_not pe fuel (tail ts); Ok (UnaryExpr e, ts)
    end
  else parse_compare pe ts.

(** The loops of [_parse_and] and [_parse_or]: [p] reads the next operand. *)
Fixpoint fold_left_op (w : str) (op : binop) (p : parser expr) (fuel : nat) (lhs : expr) (ts : list tok) :
    res (expr * list tok) :=
  b ← matches (Kw w) ts;
  if b : bool then
    match fuel with
    | O => Raise RuntimeError
    | S fuel => '(rhs, ts) ← p (tail ts); fold_left_op w op p fuel (BinaryExpr op lhs rhs) ts
    end
  else Ok (lhs, ts).

Definition parse_and (pe : parser expr) (fuel : nat) : parser expr := fun ts =>
  '(lhs, ts) ← parse_not pe fuel ts; fold_left_op (py "AND") OAnd (parse_not pe fuel) fuel lhs ts.

Definition parse_or (pe : parser expr) (fuel : nat) : parser expr := fun ts =>
  '(lhs, ts) ← parse_and pe fuel ts; fold_left_op (py "OR") OOr (parse_and pe fuel) fuel lhs ts.

Fixpoint parse_expr_fuel (fuel : nat) (ts : list tok) : res (expr * list tok) :=
  match fuel with
  | O => Raise RuntimeError
  | S fuel => parse_or (parse_expr_fuel fuel) fuel ts
  end.
(** The tokens left over bound both the depth and the loops. *)
Definition parse_expr : parser expr := fun ts => parse_expr_fuel (S (length ts)) ts.

Definition parse_where : parser (option expr) := fun ts =>
  b ← matches (Kw (py "WHERE")) ts;
  if b : bool then '(e, ts) ← parse_expr (tail ts); Ok (Some e, ts) else Ok (None, ts).

Section parser.
Context `{Unicode}.

Definition parse_column_list : parser (list str) := fun ts =>
  b ← matches Star ts;
  if b : bool then Ok ([py "*"], tail ts) else comma_list consume_ident ts.

(** The value of an identifier in a literal position. *)
Definition ident_value (w : str) : value :=
  let u := upper w in
  if u =s? py "NULL" then VNone else if u =s? py "TRUE" then VBool true else if u =s? py "FALSE" then VBool false else VStr w.

Definition parse_literal_value : parser value := fun ts =>
  match ts with
  | Str s :: ts => Ok (VStr s, ts)
  | Num n :: ts => Ok (VNum n, ts)
  | Ident w :: ts => Ok (ident_value w, ts)
  | _ :: _ => Raise SyntaxErr
  | [] => Raise IndexError
  end.

(** [tok.value]; numbers and the end of the text have no [upper]. *)
Definition tok_text (t : tok) : option str :=
  match t with
  | Kw w | Ident w | Str w => Some w
  | Star => Some (py "*") | EQ => Some (py "=") | NEQ => Some (py "!=") | LT => Some (py "<") | LTE => Some (py "<=")
  | GT => Some (py ">") | GTE => Some (py ">=") | LParen => Some (py "(") | RParen => Some (py ")")
  | Comma => Some (py ",") | Semi => Some (py ";")
  | Num _ | Eof => None
  end.

Definition parse_col_def : parser ColumnDef := fun ts =>
  '(name, ts) ← consume_ident ts;
  t ← peek ts;
  match tok_text t with
  | Some w => Ok (mkColumnDef name (upper w), tail ts)
  | None => Raise AttributeError
  end.

Definition parse_assignment : parser (str * value) := fun ts =>
  '(col, ts) ← consume_ident ts; ts ← consume EQ ts; '(v, ts) ← parse_literal_value ts; Ok ((col, v), ts).

Definition parse_order : parser (option str * bool) := fun ts =>
  b ← matches (Kw (py "ORDER")) ts;
  if b : bool then
    ts ← consume (Kw (py "BY")) (tail ts);
    '(col, ts) ← consume_ident ts;
    d ← matches (Kw (py "DESC")) ts;
    a ← matches (Kw (py "ASC")) ts;
    Ok ((Some col, d), if d || a : bool then tail ts else ts)
  else Ok ((None, false), ts).

(** [int(tok.value)]. *)
Definition int_of (n : number) : res Z := match n with NInt z => Ok z | NFloat raw => float_trunc raw end.

Definition parse_limit : parser (option Z) := fun ts =>
  b ← matches (Kw (py "LIMIT")) ts;
  if b : bool then
    match tail ts with
    | Num n :: ts => z ← int_of n; Ok (Some z, ts)
    | _ :: _ => Raise SyntaxErr
    | [] => Raise IndexError
    end
  else Ok (None, ts).

Definition parse_select : parser stmt := fun ts =>
  ts ← consume (Kw (py "SELECT")) ts;
  '(cols, ts) ← parse_column_list ts;
  ts ← consume (Kw (py "FROM")) ts;
  '(table, ts) ← consume_ident ts;
  '(w, ts) ← parse_where ts;
  '(o, ts) ← parse_order ts;
  '(l, ts) ← parse_limit ts;
  Ok (SelectStmt table cols w o.1 o.2 l, ts).

Definition parse_insert : parser stmt := fun ts =>
  ts ← consume (Kw (py "INSERT")) ts;
  ts ← consume (Kw (py "INTO")) ts;
  '(table, ts) ← consume_ident ts;
  ts ← consume LParen ts;
  '(cols, ts) ← comma_list consume_ident ts;
  ts ← consume RParen ts;
  ts ← consume (Kw (py "VALUES")) ts;
  ts ← consume LParen ts;
  '(vals, ts) ← comma_list parse_literal_value ts;
  ts ← consume RParen ts;
  Ok (InsertStmt table cols vals, ts).

Definition parse_update : parser stmt := fun ts =>
  ts ← consume (Kw (py "UPDATE")) ts;
  '(table, ts) ← consume_ident ts;
  ts ← consume (Kw (py "SET")) ts;
  '(asg, ts) ← comma_list parse_assignment ts;
  '(w, ts) ← parse_where ts;
  Ok (UpdateStmt table (foldl (fun d kv => dict_set d kv.1 kv.2) [] asg) w, ts).

Definition parse_delete : parser stmt := fun ts =>
  ts ← consume (Kw (py "DELETE")) ts;
  ts ← consume (Kw (py "FROM")) ts;
  '(table, ts) ← consume_ident ts;
  '(w, ts) ← parse_where ts;
  Ok (DeleteStmt table w, ts).

Definition parse_create : parser stmt := fun ts =>
  ts ← consume (Kw (py "CREATE")) ts;
  ts ← consume (Kw (py "TABLE")) ts;
  '(table, ts) ← consume_ident ts;
  ts ← consume LParen ts;
  '(cols, ts) ← comma_list parse_col_def ts;
  ts ← consume RParen ts;
  Ok (CreateTableStmt table cols, ts).

Definition parse_drop : parser stmt := fun ts =>
  ts ← consume (Kw (py "DROP")) ts;
  ts ← consume (Kw (py "TABLE")) ts;
  '(table, ts) ← consume_ident ts;
  Ok (DropTableStmt table, ts).

Definition parse_stmt : parser stmt := fun ts =>
  t ← peek ts;
  if decide (t = Kw (py "SELECT")) then parse_select ts
  else if decide (t = Kw (py "INSERT")) then parse_insert ts
  else if decide (t = Kw (py "UPDATE")) then parse_update ts
  else if decide (t = Kw (py "DELETE")) then parse_delete ts
  else if decide (t = Kw (py "CREATE")) then parse_create ts
  else if decide (t = Kw (py "DROP")) then parse_drop ts
  else Raise SyntaxErr.

(** [Parser.parse]: a semicolon is consumed; what follows is not looked at. *)
Definition parse : parser stmt := fun ts =>
  '(s, ts) ← parse_stmt ts;
  b ← matches Semi ts;
  Ok (s, if b : bool then tail ts else ts).

Definition parse_sql (sql : str) : res stmt := ts ← tokenize sql; '(s, _) ← parse ts; Ok s.
End parser.

(** ** The grammar *)

Inductive level := LTerm | LCmp | LNot | LAnd | LOr.

(** The tokens of an expression, as the docstring of [Parser] gives them. *)
Inductive G : level -> list tok -> expr -> Prop :=
| G_paren ts e : G LOr ts e -> G LTerm (LParen :: ts ++ [RParen]) e
| G_ident w : G LTerm [Ident w] (ColumnRef w)
| G_str s : G LTerm [Str s] (Literal (VStr s))
| G_num n : G LTerm [Num n] (Literal (VNum n))
| G_cmp1 ts e : G LTerm ts e -> G LCmp ts e
| G_cmp2 ts1 ts2 t op l r : G LTerm ts1 l -> cmp_op t = Some op -> G LTerm ts2 r -> G LCmp (ts1 ++ t :: ts2) (BinaryExpr op l r)
| G_not1 ts e : G LCmp ts e -> G LNot ts e
| G_not2 ts e : G LNot ts e -> G LNot (Kw (py "NOT") :: ts) (UnaryExpr e)
| G_and1 ts e : G LNot ts e -> G LAnd ts e
| G_and2 ts1 ts2 l r : G LAnd ts1 l -> G LNot ts2 r -> G LAnd (ts1 ++ Kw (py "AND") :: ts2) (BinaryExpr OAnd l r)
| G_or1 ts e : G LAnd ts e -> G LOr ts e
| G_or2 ts1 ts2 l r : G LOr ts1 l -> G LAnd ts2 r -> G LOr (ts1 ++ Kw (py "OR") :: ts2) (BinaryExpr OOr l r).

(** The next token does not continue an expression of this level. *)
Definition stops (lv : level) (rest : list tok) : Prop :=
  match rest with
  | [] => False
  | t :: _ =>
      (lv <> LTerm -> cmp_op t = None) /\
      (lv = LAnd \/ lv = LOr -> t <> Kw (py "AND")) /\ (lv = LOr -> t <> Kw (py "OR"))
  end.

Lemma G_nonempty lv ts e : G lv ts e -> (1 <= length ts)%nat.
Proof. induction 1; rewrite ?length_app; simpl; lia. Qed.

(** No expression starts with NOT except a negation. *)
Lemma G_term_head lv ts e : G lv ts e -> lv = LTerm \/ lv = LCmp -> forall rest, matches (Kw (py "NOT")) (ts ++ rest) = Ok false.
Proof.
  induction 1; intros Hl rest; try (destruct Hl; congruence); try done.
  - apply IHG. by left.
  - rewrite <- (assoc app). apply IHG1. by left.
Qed.

(** What the parsers do on the tokens of each level. *)
Definition reads (lv : level) (ts : list tok) (e : expr) : Prop :=
  forall f rest, (length ts <= f)%nat ->
  match lv with
  | LTerm => parse_term (parse_expr_fuel f) (ts ++ rest) = Ok (e, rest)
  | LCmp => stops LCmp rest -> parse_compare (parse_expr_fuel f) (ts ++ rest) = Ok (e, rest)
  | LNot => stops LNot rest -> forall g, (length ts <= g)%nat -> parse_not (parse_expr_fuel f) g (ts ++ rest) = Ok (e, rest)
  | LAnd => stops LNot rest -> forall g, (length ts <= g)%nat ->
      exists h, (g <= h + length ts)%nat /\
      parse_and (parse_expr_fuel f) g (ts ++ rest) = fold_left_op (py "AND") OAnd (parse_not (parse_expr_fuel f) g) h e rest
  | LOr => stops LAnd rest -> forall g, (length ts <= g)%nat ->
      exists h, (g <= h + length ts)%nat /\
      parse_or (parse_expr_fuel f) g (ts ++ rest) = fold_left_op (py "OR") OOr (parse_and (parse_expr_fuel f) g) h e rest
  end.

Lemma stops_weaken lv lv' rest : stops lv' rest ->
  (lv <> LTerm -> lv' <> LTerm) -> (lv = LAnd \/ lv = LOr -> lv' = LAnd \/ lv' = LOr) -> (lv = LOr -> lv' = LOr) -> stops lv rest.
Proof. destruct rest; [done|]. intros (H1 & H2 & H3) ? ? ?. split_and!; auto. Qed.

Lemma stops_matches w rest : rest <> [] -> (forall t l, rest = t :: l -> t <> Kw w) -> matches (Kw w) rest = Ok false.
Proof.
  destruct rest as [|t l]; [done|]. intros _ Ht. unfold matches. cbn. f_equal. apply bool_decide_eq_false_2. by eapply Ht.
Qed.

Lemma fold_stop w op p h e rest : rest <> [] -> (forall t l, rest = t :: l -> t <> Kw w) -> fold_left_op w op p h e rest = Ok (e, rest).
Proof. intros H1 H2. destruct h; cbn [fold_left_op]; by rewrite (stops_matches w rest). Qed.

Lemma matches_same t l : matches t (t :: l) = Ok true.
Proof. unfold matches. cbn. f_equal. by apply bool_decide_eq_true_2. Qed.

Ltac stops := split_and!; intros; first [done | discriminate | naive_solver].

Lemma reads_all lv ts e : G lv ts e -> reads lv ts e.
Proof.
  induction 1 as [ts e _ IH|w|s|n|ts e _ IH|ts1 ts2 t op l r _ IH1 Ht _ IH2|ts e HG IH|ts e _ IH|ts e _ IH
    |ts1 ts2 l r HG1 IH1 HG2 IH2|ts e _ IH|ts1 ts2 l r HG1 IH1 HG2 IH2]; unfold reads in *; intros f rest Hf;
    try (intros Hs); try (intros g Hg).
  - cbn [length app] in *. rewrite length_app in Hf. cbn in Hf. rewrite <- (assoc app). cbn [parse_term app].
    destruct f as [|f]; [lia|]. cbn [parse_expr_fuel].
    destruct (IH f (RParen :: rest)) with (g := f) as (h & Hh & ->); [lia| |lia|].
    { stops. }
    rewrite fold_stop by (done || (by intros t l [= <- _])). done.
  - done.
  - done.
  - done.
  - unfold parse_compare. rewrite IH by done. cbn. destruct rest as [|t rest]; [done|]. cbn.
    destruct Hs as (Hs & _). by rewrite Hs.
  - rewrite length_app in Hf. cbn in Hf. unfold parse_compare. rewrite <- (assoc app). rewrite IH1 by lia. cbn.
    rewrite Ht, IH2 by lia. done.
  - pose proof (G_term_head _ _ _ HG (or_intror eq_refl) rest) as Hh.
    assert (Hc : parse_compare (parse_expr_fuel f) (ts ++ rest) = Ok (e, rest)).
    { apply IH; [done|]. eapply stops_weaken; [exact Hs|..]; naive_solver. }
    destruct g; cbn [parse_not]; by rewrite Hh.
  - cbn [length app] in *. destruct g as [|g]; [lia|]. cbn [parse_not]. rewrite matches_same. cbn [mbind res_bind tail].
    rewrite IH by (done || lia). done.
  - exists g. split; [lia|]. unfold parse_and. rewrite IH by done. done.
  - rewrite length_app in *. cbn [length] in *. destruct (IH1 f (Kw (py "AND") :: ts2 ++ rest)) with (g := g) as (h & Hh & E); [lia|stops|lia|].
    pose proof (G_nonempty _ _ _ HG2). destruct h as [|h]; [lia|]. exists h. split; [lia|].
    rewrite <- (assoc app). cbn [app]. rewrite E. cbn [fold_left_op]. rewrite matches_same. cbn [mbind res_bind tail].
    rewrite IH2 by (done || lia). done.
  - exists g. split; [lia|]. unfold parse_or. destruct (IH f rest Hf) with (g := g) as (h & _ & ->); [|done|].
    { eapply stops_weaken; [exact Hs|..]; naive_solver. }
    rewrite fold_stop; [done|by destruct rest|]. intros t l ->. apply Hs. by left.
  - rewrite length_app in *. cbn [length] in *. destruct (IH1 f (Kw (py "OR") :: ts2 ++ rest)) with (g := g) as (h & Hh & E); [lia|stops|lia|].
    pose proof (G_nonempty _ _ _ HG2). destruct h as [|h]; [lia|]. exists h. split; [lia|].
    rewrite <- (assoc app). cbn [app]. rewrite E. cbn [fold_left_op]. rewrite matches_same. cbn [mbind res_bind tail].
    destruct (IH2 f rest) with (g := g) as (h' & _ & ->); [lia| |lia|].
    { eapply stops_weaken; [exact Hs|..]; naive_solver. }
    rewrite fold_stop; [done|by destruct rest|]. intros t l' ->. apply Hs. by left.
Qed.

Lemma parse_expr_complete ts e rest : G LOr ts e -> stops LOr rest -> parse_expr (ts ++ rest) = Ok (e, rest).
Proof.
  intros HG Hs. unfold parse_expr. cbn [parse_expr_fuel].
  destruct (reads_all _ _ _ HG (length (ts ++ rest)) rest) with (g := length (ts ++ rest)) as (h & _ & ->);
    [rewrite length_app; lia| |rewrite length_app; lia|].
  { eapply stops_weaken; [exact Hs|..]; naive_solver. }
  apply fold_stop; [by destruct rest|]. intros t l ->. by apply Hs.
Qed.

(** *** The parser only reads what the grammar derives *)

Definition sound {A} (P : list tok -> A -> Prop) (p : parser A) : Prop :=
  forall ts a rest, p ts = Ok (a, rest) -> exists pre, ts = pre ++ rest /\ P pre a.

Lemma matches_true t ts : matches t ts = Ok true -> ts = t :: tail ts.
Proof. destruct ts as [|t' ts]; [done|]. unfold matches. cbn. intros [= ->%bool_decide_eq_true_1]. done. Qed.

Lemma consume_ok t ts ts' : consume t ts = Ok ts' -> ts = t :: ts'.
Proof. destruct ts as [|t' ts]; [done|]. cbn. case_decide; [|done]. by intros [= ->]; subst. Qed.

Lemma ident_ok ts w rest : consume_ident ts = Ok (w, rest) -> ts = Ident w :: rest.
Proof. destruct ts as [|[] ts]; try done. by intros [= -> ->]. Qed.

(** Take a successful sequence of parsers apart. *)
Ltac steps :=
  repeat match goal with
  | H : (_ ← _; _) = Ok _ |- _ => apply bind_ok in H as (? & ? & H)
  | H : prod _ _ |- _ => destruct H
  | H : matches _ _ = Ok true |- _ => apply matches_true in H
  | H : consume _ _ = Ok _ |- _ => apply consume_ok in H
  | H : consume_ident _ = Ok _ |- _ => apply ident_ok in H
  | H : Ok _ = Ok _ |- _ => injection H as ?; subst
  end.

Lemma term_sound pe : sound (G LOr) pe -> sound (G LTerm) (parse_term pe).
Proof.
  intros Hpe ts e rest H. destruct ts as [|[] ts]; try done; cbn [parse_term] in H.
  - injection H as <- <-. exists [Ident w]. split; [done|constructor].
  - injection H as <- <-. exists [Str s]. split; [done|constructor].
  - injection H as <- <-. exists [Num n]. split; [done|constructor].
  - apply bind_ok in H as ([e' ts1] & E1 & H). apply bind_ok in H as (ts2 & ->%consume_ok & [= <- <-]).
    destruct (Hpe _ _ _ E1) as (pre & -> & HG). exists (LParen :: pre ++ [RParen]). split; [|by constructor].
    cbn. by rewrite <- (assoc app).
Qed.

Lemma compare_sound pe : sound (G LOr) pe -> sound (G LCmp) (parse_compare pe).
Proof.
  intros Hpe ts e rest H. unfold parse_compare in H. apply bind_ok in H as ([l ts1] & E1 & H).
  destruct (term_sound pe Hpe _ _ _ E1) as (pre & -> & HG). destruct ts1 as [|t ts1]; [done|]. cbn [peek mbind res_bind tail] in H.
  destruct (cmp_op t) as [op|] eqn:Hop.
  - apply bind_ok in H as ([r ts2] & E2 & [= <- <-]). destruct (term_sound pe Hpe _ _ _ E2) as (pre' & -> & HG').
    exists (pre ++ t :: pre'). split; [by rewrite <- (assoc app)|by econstructor].
  - injection H as <- <-. exists pre. split; [done|by constructor].
Qed.

Lemma not_sound pe fuel : sound (G LOr) pe -> sound (G LNot) (parse_not pe fuel).
Proof.
  intros Hpe. induction fuel as [|fuel IH]; intros ts e rest H; cbn [parse_not] in H; apply bind_ok in H as ([] & Hb & H); try done.
  - destruct (compare_sound pe Hpe _ _ _ H) as (pre & -> & HG). exists pre. split; [done|by constructor].
  - apply matches_true in Hb. apply bind_ok in H as ([e' ts1] & E1 & [= <- <-]). destruct (IH _ _ _ E1) as (pre & E & HG). exists (Kw (py "NOT") :: pre).
    split; [|by constructor]. rewrite Hb, E. done.
  - destruct (compare_sound pe Hpe _ _ _ H) as (pre & -> & HG). exists pre. split; [done|by constructor].
Qed.

Lemma fold_sound (P Q : list tok -> expr -> Prop) w op p :
  sound Q p -> (forall ts1 ts2 l r, P ts1 l -> Q ts2 r -> P (ts1 ++ Kw w :: ts2) (BinaryExpr op l r)) ->
  forall h pre0 lhs ts e rest, P pre0 lhs -> fold_left_op w op p h lhs ts = Ok (e, rest) ->
  exists pre, pre0 ++ ts = pre ++ rest /\ P pre e.
Proof.
  intros Hp Hop. induction h as [|h IH]; intros pre0 lhs ts e rest H0 H; cbn [fold_left_op] in H;
    apply bind_ok in H as ([] & Hb & H); try done; try (injection H as <- <-; by exists pre0).
  apply matches_true in Hb. apply bind_ok in H as ([r ts'] & Er & H). destruct (Hp _ _ _ Er) as (pre & E & HQ).
  destruct (IH (pre0 ++ Kw w :: pre) (BinaryExpr op lhs r) ts' e rest) as (pre' & E' & HP); auto.
  exists pre'. split; [|done]. rewrite <- E', Hb, E. by rewrite <- (assoc app).
Qed.

Lemma or_sound pe fuel : sound (G LOr) pe -> sound (G LOr) (parse_or pe fuel).
Proof.
  intros Hpe. assert (Hand : sound (G LAnd) (parse_and pe fuel)).
  { intros ts e rest H. unfold parse_and in H. apply bind_ok in H as ([l ts1] & E1 & H).
    destruct (not_sound pe fuel Hpe _ _ _ E1) as (pre & -> & HG).
    eapply (fold_sound (G LAnd) (G LNot)); [by apply not_sound|by intros; constructor|by constructor|exact H]. }
  intros ts e rest H. unfold parse_or in H. apply bind_ok in H as ([l ts1] & E1 & H).
  destruct (Hand _ _ _ E1) as (pre & -> & HG).
  eapply (fold_sound (G LOr) (G LAnd)); [done|by intros; constructor|by constructor|exact H].
Qed.

Lemma parse_expr_sound : sound (G LOr) parse_expr.
Proof.
  assert (H : forall fuel, sound (G LOr) (parse_expr_fuel fuel)) by (induction fuel; [done|by apply or_sound]).
  intros ts e rest. apply H.
Qed.

(** *** Statements *)

(** [x (, x)*]. *)
Inductive G_list {A} (P : list tok -> A -> Prop) : list tok -> list A -> Prop :=
| G_one ts x : P ts x -> G_list P ts [x]
| G_more ts x ts' xs : P ts x -> G_list P ts' xs -> G_list P (ts ++ Comma :: ts') (x :: xs).

Definition G_name (ts : list tok) (w : str) : Prop := ts = [Ident w].

Inductive G_where : list tok -> option expr -> Prop :=
| G_no_where : G_where [] None
| G_some_where ts e : G LOr ts e -> G_where (Kw (py "WHERE") :: ts) (Some e).

Section grammar.
Context `{Unicode}.

Inductive G_value : list tok -> value -> Prop :=
| G_vstr s : G_value [Str s] (VStr s)
| G_vnum n : G_value [Num n] (VNum n)
| G_vident w : G_value [Ident w] (ident_value w).

Definition G_assign (ts : list tok) (kv : str * value) : Prop := exists ts', ts = Ident kv.1 :: EQ :: ts' /\ G_value ts' kv.2.
(** A name and any token with a text: the parser does not restrict the type. *)
Definition G_coldef (ts : list tok) (d : ColumnDef) : Prop :=
  exists t w, ts = [Ident (cd_name d); t] /\ tok_text t = Some w /\ cd_type d = upper w.

Inductive G_cols : list tok -> list str -> Prop :=
| G_star : G_cols [Star] [py "*"]
| G_names ts cols : G_list G_name ts cols -> G_cols ts cols.

Inductive G_order : list tok -> option str * bool -> Prop :=
| G_no_order : G_order [] (None, false)
| G_order_by w : G_order [Kw (py "ORDER"); Kw (py "BY"); Ident w] (Some w, false)
| G_order_asc w : G_order [Kw (py "ORDER"); Kw (py "BY"); Ident w; Kw (py "ASC")] (Some w, false)
| G_order_desc w : G_order [Kw (py "ORDER"); Kw (py "BY"); Ident w; Kw (py "DESC")] (Some w, true).

Inductive G_limit : list tok -> option Z -> Prop :=
| G_no_limit : G_limit [] None
| G_some_limit n z : int_of n = Ok z -> G_limit [Kw (py "LIMIT"); Num n] (Some z).

Inductive G_stmt : list tok -> stmt -> Prop :=
| G_select cs cols t ws w os o ls l : G_cols cs cols -> G_where ws w -> G_order os o -> G_limit ls l ->
    G_stmt (Kw (py "SELECT") :: cs ++ Kw (py "FROM") :: Ident t :: ws ++ os ++ ls) (SelectStmt t cols w o.1 o.2 l)
| G_insert t cs cols vs vals : G_list G_name cs cols -> G_list G_value vs vals ->
    G_stmt (Kw (py "INSERT") :: Kw (py "INTO") :: Ident t :: LParen :: cs ++ RParen :: Kw (py "VALUES") :: LParen :: vs ++ [RParen])
      (InsertStmt t cols vals)
| G_update t asgs asg ws w : G_list G_assign asgs asg -> G_where ws w ->
    G_stmt (Kw (py "UPDATE") :: Ident t :: Kw (py "SET") :: asgs ++ ws)
      (UpdateStmt t (foldl (fun d kv => dict_set d kv.1 kv.2) [] asg) w)
| G_delete t ws w : G_where ws w -> G_stmt (Kw (py "DELETE") :: Kw (py "FROM") :: Ident t :: ws) (DeleteStmt t w)
| G_create t ds defs : G_list G_coldef ds defs ->
    G_stmt (Kw (py "CREATE") :: Kw (py "TABLE") :: Ident t :: LParen :: ds ++ [RParen]) (CreateTableStmt t defs)
| G_drop t : G_stmt [Kw (py "DROP"); Kw (py "TABLE"); Ident t] (DropTableStmt t).
End grammar.

(** The end of a statement. *)
Definition ends (rest : list tok) : Prop := match rest with Semi :: _ | Eof :: _ => True | _ => False end.

Lemma consume_same t ts : consume t (t :: ts) = Ok ts.
Proof. cbn. by rewrite decide_True. Qed.

Lemma matches_other t t' l : t' <> t -> matches t (t' :: l) = Ok false.
Proof. intros Hne. unfold matches. cbn. f_equal. by apply bool_decide_eq_false_2. Qed.

Section lists.
Context {A : Type} (P : list tok -> A -> Prop) (p : parser A).
Context (Hp : forall ts x rest, P ts x -> p (ts ++ rest) = Ok (x, rest)) (Hs : sound P p).

Definition no_comma (rest : list tok) : Prop := match rest with [] | Comma :: _ => False | _ => True end.

Lemma more_stop fuel rest : no_comma rest -> more p fuel rest = Ok ([], rest).
Proof using. by destruct fuel, rest as [|[] rest]. Qed.

Lemma more_complete ts xs rest fuel : G_list P ts xs -> no_comma rest -> (length ts < fuel)%nat ->
  more p fuel (Comma :: ts ++ rest) = Ok (xs, rest).
Proof using Hp.
  intros HG Hr. revert fuel. induction HG as [ts x Hx|ts x ts' xs Hx HG IH]; intros [|fuel] Hf; try lia; cbn [more].
  - rewrite (Hp ts x rest Hx). cbn [mbind res_bind]. by rewrite more_stop.
  - rewrite <- (assoc app), (Hp ts x _ Hx). cbn [mbind res_bind app]. rewrite length_app in Hf. cbn [length] in Hf.
    rewrite IH by lia. done.
Qed.

Lemma list_complete ts xs rest : G_list P ts xs -> no_comma rest -> comma_list p (ts ++ rest) = Ok (xs, rest).
Proof using Hp.
  intros HG Hr. unfold comma_list. destruct HG as [ts x Hx|ts x ts' xs Hx HG].
  - rewrite (Hp ts x rest Hx). cbn [mbind res_bind]. by rewrite more_stop.
  - rewrite <- (assoc app), (Hp ts x _ Hx). cbn [mbind res_bind app].
    rewrite (more_complete ts' xs) by (done || (cbn [length]; rewrite length_app; lia)). done.
Qed.

Lemma more_sound fuel : forall ts xs rest, more p fuel ts = Ok (xs, rest) ->
  xs = [] /\ ts = rest \/ exists pre, ts = Comma :: pre ++ rest /\ G_list P pre xs.
Proof using Hs.
  induction fuel as [|fuel IH]; intros [|t ts] xs rest E; try done; destruct t; cbn [more] in E; try done;
    try (left; by injection E as <- <-).
  right. apply bind_ok in E as ([x ts1] & E1 & E). apply bind_ok in E as ([ys ts2] & E2 & [= <- <-]).
  destruct (Hs _ _ _ E1) as (pre & -> & Hx). destruct (IH _ _ _ E2) as [[-> ->]|(pre' & -> & HG)].
  - exists pre. split; [done|by constructor].
  - exists (pre ++ Comma :: pre'). split; [by rewrite <- (assoc app)|by constructor].
Qed.

Lemma list_sound : sound (G_list P) (comma_list p).
Proof using Hs.
  intros ts xs rest E. unfold comma_list in E. apply bind_ok in E as ([x ts1] & E1 & E).
  apply bind_ok in E as ([ys ts2] & E2 & [= <- <-]). destruct (Hs _ _ _ E1) as (pre & -> & Hx).
  destruct (more_sound _ _ _ _ E2) as [[-> ->]|(pre' & -> & HG)].
  - exists pre. split; [done|by constructor].
  - exists (pre ++ Comma :: pre'). split; [by rewrite <- (assoc app)|by constructor].
Qed.
End lists.

Lemma name_complete ts w rest : G_name ts w -> consume_ident (ts ++ rest) = Ok (w, rest).
Proof. by intros ->. Qed.
Lemma name_sound : sound G_name consume_ident.
Proof. intros ts w rest ->%ident_ok. by exists [Ident w]. Qed.

(** A token after which no expression or list continues. *)
Definition closes (rest : list tok) : Prop :=
  match rest with
  | Semi :: _ | Eof :: _ | RParen :: _ => True
  | Kw w :: _ => w ∈ [py "ORDER"; py "LIMIT"; py "FROM"; py "WHERE"]
  | _ => False
  end.

Lemma closes_stops rest : closes rest -> stops LOr rest.
Proof.
  destruct rest as [|[] rest]; try done; intros Hc; try stops. cbn in Hc. split_and!; [done|intros _ [= ->]..];
    revert Hc; rewrite !elem_of_cons; intros Hc; destruct_or!; try discriminate; by apply not_elem_of_nil in Hc.
Qed.

Lemma closes_no_comma rest : closes rest -> no_comma rest.
Proof. by destruct rest as [|[] rest]. Qed.

Lemma where_complete ts w rest : G_where ts w -> closes rest -> matches (Kw (py "WHERE")) rest = Ok false ->
  parse_where (ts ++ rest) = Ok (w, rest).
Proof.
  intros HG Hc Hm. unfold parse_where. destruct HG as [|ts e HG]; cbn [app].
  - by rewrite Hm.
  - rewrite matches_same. cbn [mbind res_bind tail]. by rewrite (parse_expr_complete ts e) by (done || by apply closes_stops).
Qed.

Lemma where_sound : sound G_where parse_where.
Proof.
  intros ts w rest H. unfold parse_where in H. apply bind_ok in H as ([] & Hb & H).
  - apply matches_true in Hb. apply bind_ok in H as ([e ts1] & E1 & [= <- <-]).
    destruct (parse_expr_sound _ _ _ E1) as (pre & E & HG). exists (Kw (py "WHERE") :: pre).
    split; [by rewrite Hb, E|by constructor].
  - injection H as <- <-. exists []. split; [done|constructor].
Qed.

Section stmts.
Context `{Unicode}.

Lemma value_complete ts v rest : G_value ts v -> parse_literal_value (ts ++ rest) = Ok (v, rest).
Proof. by destruct 1. Qed.
Lemma value_sound : sound G_value parse_literal_value.
Proof.
  intros ts v rest E. destruct ts as [|[] ts]; try done; injection E as <- <-; eexists [_]; (split; [done|constructor]).
Qed.

Lemma assign_complete ts kv rest : G_assign ts kv -> parse_assignment (ts ++ rest) = Ok (kv, rest).
Proof.
  intros (ts' & -> & HG). unfold parse_assignment. cbn [app consume_ident mbind res_bind]. rewrite consume_same.
  cbn [mbind res_bind]. rewrite (value_complete _ _ _ HG). by destruct kv.
Qed.
Lemma assign_sound : sound G_assign parse_assignment.
Proof.
  intros ts kv rest E. unfold parse_assignment in E. apply bind_ok in E as ([c ts1] & ->%ident_ok & E).
  apply bind_ok in E as (ts2 & ->%consume_ok & E). apply bind_ok in E as ([v ts3] & E3 & [= <- <-]).
  destruct (value_sound _ _ _ E3) as (pre & -> & HG). exists (Ident c :: EQ :: pre). split; [done|]. by exists pre.
Qed.

Lemma coldef_complete ts d rest : G_coldef ts d -> parse_col_def (ts ++ rest) = Ok (d, rest).
Proof.
  intros (t & w & -> & Ht & Hd). unfold parse_col_def. cbn [app consume_ident mbind res_bind peek tail].
  rewrite Ht, <- Hd. by destruct d.
Qed.
Lemma coldef_sound : sound G_coldef parse_col_def.
Proof.
  intros ts d rest E. unfold parse_col_def in E. apply bind_ok in E as ([c ts1] & ->%ident_ok & E).
  destruct ts1 as [|t ts1]; [done|]. cbn [peek mbind res_bind tail] in E. destruct (tok_text t) as [w|] eqn:Ht; [|done].
  injection E as <- <-. exists [Ident c; t]. split; [done|]. by exists t, w.
Qed.

Lemma cols_complete ts cols rest : G_cols ts cols -> closes rest -> parse_column_list (ts ++ rest) = Ok (cols, rest).
Proof.
  intros HG Hc. unfold parse_column_list. destruct HG as [|ts cols HG]; cbn [app].
  - by rewrite matches_same.
  - assert (E : matches Star (ts ++ rest) = Ok false)
      by (destruct HG as [? ? ->|? ? ? ? -> _]; by apply matches_other).
    rewrite E. cbn [mbind res_bind]. apply (list_complete G_name); auto using name_complete, closes_no_comma.
Qed.
Lemma cols_sound : sound G_cols parse_column_list.
Proof.
  intros ts cols rest E. unfold parse_column_list in E. apply bind_ok in E as ([] & Hb & E).
  - apply matches_true in Hb. injection E as <- <-. exists [Star]. split; [by rewrite Hb|constructor].
  - destruct (list_sound G_name consume_ident name_sound _ _ _ E) as (pre & -> & HG). exists pre. split; [done|by constructor].
Qed.

(** A token that starts neither clause. *)
Definition after_order (rest : list tok) : Prop :=
  match rest with Semi :: _ | Eof :: _ => True | Kw w :: _ => w = py "LIMIT" | _ => False end.

Lemma limit_other : py "LIMIT" ∉ [py "ORDER"; py "DESC"; py "ASC"].
Proof. apply (bool_decide_eq_true_1 _). vm_compute. reflexivity. Qed.

Lemma order_complete ts o rest : G_order ts o -> after_order rest -> parse_order (ts ++ rest) = Ok (o, rest).
Proof.
  intros HG Hr. assert (Hm : forall w, w ∈ [py "ORDER"; py "DESC"; py "ASC"] -> matches (Kw w) rest = Ok false).
  { intros w Hw. destruct rest as [|[w'| | | | | | | | | | | | | | |] rest]; try done; apply matches_other; try done.
    intros E. injection E as E. cbn in Hr. rewrite <- E, Hr in Hw. by apply limit_other in Hw. }
  unfold parse_order. destruct HG; cbn [app].
  - rewrite Hm by set_solver. done.
  - rewrite matches_same. cbn [mbind res_bind tail]. rewrite consume_same. cbn [mbind res_bind consume_ident].
    rewrite !Hm by set_solver. done.
  - done.
  - done.
Qed.
Lemma order_sound : sound G_order parse_order.
Proof.
  intros ts o rest E. unfold parse_order in E. apply bind_ok in E as ([] & Hb & E).
  2: { injection E as <- <-. exists []. split; [done|constructor]. }
  apply matches_true in Hb. apply bind_ok in E as (ts1 & E1%consume_ok & E). rewrite E1 in Hb.
  apply bind_ok in E as ([w ts2] & ->%ident_ok & E). apply bind_ok in E as ([] & Hd & E); apply bind_ok in E as (a & Ha & E).
  - apply matches_true in Hd. injection E as <- <-. cbn [orb]. rewrite Hd in Hb. eexists [_; _; _; _]. split; [exact Hb|constructor].
  - destruct a; injection E as <- <-; cbn [orb].
    + apply matches_true in Ha. rewrite Ha in Hb. eexists [_; _; _; _]. split; [exact Hb|constructor].
    + eexists [_; _; _]. split; [exact Hb|constructor].
Qed.

Lemma limit_complete ts l rest : G_limit ts l -> ends rest -> parse_limit (ts ++ rest) = Ok (l, rest).
Proof.
  intros HG Hr. unfold parse_limit. destruct HG as [|n z Hz]; cbn [app].
  - rewrite stops_matches; [done|by destruct rest|]. intros t l ->. by destruct t.
  - rewrite matches_same. cbn [mbind res_bind tail]. by rewrite Hz.
Qed.
Lemma limit_sound : sound G_limit parse_limit.
Proof.
  intros ts l rest E. unfold parse_limit in E. apply bind_ok in E as ([] & Hb & E).
  2: { injection E as <- <-. exists []. split; [done|constructor]. }
  apply matches_true in Hb. destruct (tail ts) as [|[] ts1]; try done. apply bind_ok in E as (z & Hz & [= <- <-]).
  eexists [_; _]. split; [exact Hb|by constructor].
Qed.

Lemma ends_closes rest : ends rest -> closes rest.
Proof. by destruct rest as [|[] rest]. Qed.
Lemma ends_no_where rest : ends rest -> matches (Kw (py "WHERE")) rest = Ok false.
Proof. destruct rest as [|[] rest]; try done; intros _; by apply matches_other. Qed.

(** The clauses after the table of a SELECT. *)
Lemma select_tail ws w os o ls l rest : G_where ws w -> G_order os o -> G_limit ls l -> ends rest ->
  parse_where (ws ++ os ++ ls ++ rest) = Ok (w, os ++ ls ++ rest) /\
  parse_order (os ++ ls ++ rest) = Ok (o, ls ++ rest) /\ parse_limit (ls ++ rest) = Ok (l, rest).
Proof.
  intros Hw Ho Hl Hr.
  assert (H1 : after_order (ls ++ rest)) by (destruct Hl; [by destruct rest as [|[] rest]|done]).
  split_and!; [|by apply order_complete|by apply limit_complete]. apply where_complete; [done|..].
  - destruct Ho; [|cbn; set_solver..]. destruct Hl; [by apply ends_closes|cbn; set_solver].
  - destruct Ho; [|by apply matches_other..]. destruct Hl; [by apply ends_no_where|by apply matches_other].
Qed.

(** Run a parser over the tokens in front of it. *)
Ltac feed := repeat (rewrite consume_same || cbn [mbind res_bind app consume_ident fst snd]).

Lemma stmt_complete ts s rest : G_stmt ts s -> ends rest -> parse_stmt (ts ++ rest) = Ok (s, rest).
Proof.
  intros HG Hr. unfold parse_stmt.
  destruct HG as [cs cols t ws w os o ls l Hc Hw Ho Hl|t cs cols vs vals Hc Hv|t asgs asg ws w Ha Hw|t ws w Hw|t ds defs Hd|t];
    cbn [app peek mbind res_bind]; repeat (case_decide as E; [first [discriminate E|clear E]|first [by destruct E|clear E]]).
  - unfold parse_select. feed. rewrite <- !(assoc app). rewrite (cols_complete cs cols) by (done || (cbn; set_solver)). feed.
    rewrite <- !(assoc app). destruct (select_tail ws w os o ls l rest) as (-> & E2 & E3); auto. feed. rewrite E2. feed. by rewrite E3.
  - unfold parse_insert. feed. rewrite <- !(assoc app).
    rewrite (list_complete G_name consume_ident name_complete cs cols) by done. feed. rewrite <- !(assoc app). feed.
    rewrite (list_complete G_value parse_literal_value value_complete vs vals) by done. by feed.
  - unfold parse_update. feed. rewrite <- !(assoc app). rewrite (list_complete G_assign parse_assignment assign_complete asgs asg).
    + feed. rewrite (where_complete ws w) by auto using ends_closes, ends_no_where. done.
    + done.
    + destruct Hw; [|done]. by destruct rest as [|[] rest].
  - unfold parse_delete. feed. rewrite (where_complete ws w) by auto using ends_closes, ends_no_where. done.
  - unfold parse_create. feed. rewrite <- !(assoc app).
    rewrite (list_complete G_coldef parse_col_def coldef_complete ds defs) by done. by feed.
  - unfold parse_drop. by feed.
Qed.

(** Split off what a sound parser read. *)
Ltac read_with L E := let pre := fresh "pre" in let HG := fresh "HG" in destruct (L _ _ _ E) as (pre & -> & HG).

Ltac flatten := cbn [app]; repeat (rewrite <- (assoc app); cbn [app]).

Lemma select_sound : sound G_stmt parse_select.
Proof.
  intros ts s rest E. unfold parse_select in E. apply bind_ok in E as (ts1 & ->%consume_ok & E).
  apply bind_ok in E as ([cols ts2] & E2 & E). apply bind_ok in E as (ts3 & ->%consume_ok & E).
  apply bind_ok in E as ([t ts4] & ->%ident_ok & E). apply bind_ok in E as ([w ts5] & E5 & E).
  apply bind_ok in E as ([o ts6] & E6 & E). apply bind_ok in E as ([l ts7] & E7 & [= <- <-]).
  read_with limit_sound E7. read_with order_sound E6. read_with where_sound E5. read_with cols_sound E2.
  eexists. split; [|by apply G_select]. by flatten.
Qed.

Lemma insert_sound : sound G_stmt parse_insert.
Proof.
  intros ts s rest E. unfold parse_insert in E. apply bind_ok in E as (ts1 & ->%consume_ok & E).
  apply bind_ok in E as (ts2 & ->%consume_ok & E). apply bind_ok in E as ([t ts3] & ->%ident_ok & E).
  apply bind_ok in E as (ts4 & ->%consume_ok & E). apply bind_ok in E as ([cols ts5] & E5 & E).
  apply bind_ok in E as (ts6 & ->%consume_ok & E). apply bind_ok in E as (ts7 & ->%consume_ok & E).
  apply bind_ok in E as (ts8 & ->%consume_ok & E). apply bind_ok in E as ([vals ts9] & E9 & E).
  apply bind_ok in E as (ts10 & ->%consume_ok & [= <- <-]).
  read_with (list_sound G_value parse_literal_value value_sound) E9.
  read_with (list_sound G_name consume_ident name_sound) E5.
  eexists. split; [|by apply G_insert]. by flatten.
Qed.

Lemma update_sound : sound G_stmt parse_update.
Proof.
  intros ts s rest E. unfold parse_update in E. apply bind_ok in E as (ts1 & ->%consume_ok & E).
  apply bind_ok in E as ([t ts2] & ->%ident_ok & E). apply bind_ok in E as (ts3 & ->%consume_ok & E).
  apply bind_ok in E as ([asg ts4] & E4 & E). apply bind_ok in E as ([w ts5] & E5 & [= <- <-]).
  read_with where_sound E5. read_with (list_sound G_assign parse_assignment assign_sound) E4.
  eexists. split; [|by apply G_update]. by flatten.
Qed.

Lemma delete_sound : sound G_stmt parse_delete.
Proof.
  intros ts s rest E. unfold parse_delete in E. apply bind_ok in E as (ts1 & ->%consume_ok & E).
  apply bind_ok in E as (ts2 & ->%consume_ok & E). apply bind_ok in E as ([t ts3] & ->%ident_ok & E).
  apply bind_ok in E as ([w ts4] & E4 & [= <- <-]). read_with where_sound E4. eexists. split; [|by apply G_delete]. done.
Qed.

Lemma create_sound : sound G_stmt parse_create.
Proof.
  intros ts s rest E. unfold parse_create in E. apply bind_ok in E as (ts1 & ->%consume_ok & E).
  apply bind_ok in E as (ts2 & ->%consume_ok & E). apply bind_ok in E as ([t ts3] & ->%ident_ok & E).
  apply bind_ok in E as (ts4 & ->%consume_ok & E). apply bind_ok in E as ([defs ts5] & E5 & E).
  apply bind_ok in E as (ts6 & ->%consume_ok & [= <- <-]). read_with (list_sound G_coldef parse_col_def coldef_sound) E5.
  eexists. split; [|by apply G_create]. by flatten.
Qed.

Lemma drop_sound : sound G_stmt parse_drop.
Proof.
  intros ts s rest E. unfold parse_drop in E. apply bind_ok in E as (ts1 & ->%consume_ok & E).
  apply bind_ok in E as (ts2 & ->%consume_ok & E). apply bind_ok in E as ([t ts3] & ->%ident_ok & [= <- <-]).
  eexists [_; _; _]. split; [done|by apply G_drop].
Qed.

Lemma stmt_sound : sound G_stmt parse_stmt.
Proof.
  intros ts s rest E. unfold parse_stmt in E. apply bind_ok in E as (t & _ & E).
  repeat case_decide; [eapply select_sound|eapply insert_sound|eapply update_sound|eapply delete_sound|eapply create_sound
    |eapply drop_sound|]; done.
Qed.
End stmts.

(** ** Text *)

Section render.
Context `{Unicode}.

Definition render_number (n : number) : str := match n with NInt z => str_of_Z z | NFloat raw => raw end.

Definition render_tok (t : tok) : str :=
  match t with
  | Kw w | Ident w => w
  | Str s => 39 :: s ++ [39]
  | Num n => render_number n
  | Eof => []
  | t => default [] (tok_text t)
  end.
Definition render (ts : list tok) : str := concat (map (fun t => render_tok t ++ [32]) ts).

Definition word_char (c : N) : bool := (c <? 128) && (isalnum c || (c =? 95)).
Definition is_word (w : str) : bool :=
  match w with c :: _ => (isalpha c || (c =? 95)) && forallb word_char w | [] => false end.

(** A numeral with ASCII digits that starts with a digit. *)
Definition is_numeral (raw : str) : bool :=
  match unsigned raw with
  | c :: _ => ascii_digit c && forallb (fun d => ascii_digit d || (d =? 46)) (unsigned raw)
  | [] => false
  end.

Definition renderable (t : tok) : Prop :=
  match t with
  | Kw w => w ∈ KEYWORDS
  | Ident w => is_word w = true /\ upper w ∉ KEYWORDS
  | Str s => Forall (fun c => c <> 39 /\ c <> 92) s
  | Num (NInt _) => True
  | Num (NFloat raw) => is_numeral raw = true /\ 46 ∈ raw /\ float_ok raw = true
  | Eof => False
  | _ => True
  end.

Lemma span_stop p a c rest : forallb p a = true -> p c = false -> span p (a ++ c :: rest) = (a, c :: rest).
Proof.
  induction a as [|x a IH]; cbn [app span forallb]; intros Ha Hc; [by rewrite Hc|].
  apply andb_true_iff in Ha as [-> Ha]. by rewrite IH.
Qed.

Lemma str_body_end q s rest : Forall (fun c => c <> q /\ c <> 92) s -> str_body q (s ++ q :: rest) = (s, rest).
Proof.
  induction 1 as [|c s [H1 H2] Hs IH]; cbn [app str_body]; [by rewrite N.eqb_refl|].
  rewrite (proj2 (N.eqb_neq c q)) by done. destruct (s ++ q :: rest) as [|d l] eqn:E; [by destruct s|].
  rewrite (proj2 (N.eqb_neq c 92)) by done. by rewrite IH.
Qed.

Lemma word_next w rest : is_word w = true -> exists c s, w ++ 32 :: rest = c :: s /\ next_token c s = Ok (Some (word_token w), 32 :: rest).
Proof.
  destruct w as [|c w]; [done|]. cbn [is_word]. intros [Hc Hw]%andb_true_iff. exists c, (w ++ 32 :: rest). split; [done|].
  assert (Hw' : forallb (fun d => isalnum d || (d =? 95)) (c :: w) = true).
  { apply forallb_forall. intros d Hd. rewrite forallb_forall in Hw. specialize (Hw d Hd). by apply andb_true_iff in Hw as [_ ?]. }
  assert (Hlt : c < 128) by (cbn in Hw; apply andb_true_iff in Hw as [[?%N.ltb_lt _]%andb_true_iff _]; done).
  assert (Hcc : 65 <= c <= 90 \/ 97 <= c <= 122 \/ c = 95).
  { unfold isalpha in Hc. rewrite (proj2 (N.ltb_lt c 128) Hlt) in Hc. unfold ascii_alpha, between in Hc.
    apply orb_true_iff in Hc as [[[? ?]%andb_true_iff|[? ?]%andb_true_iff]%orb_true_iff|?%N.eqb_eq];
      rewrite ?N.leb_le in *; lia. }
  unfold next_token. rewrite Hc.
  assert (E1 : isspace c = false) by (unfold isspace, between; rewrite (proj2 (N.ltb_lt c 128) Hlt);
    apply orb_false_iff; rewrite !andb_false_iff, !N.leb_gt; lia).
  assert (E2 : isdigit c = false) by (unfold isdigit, ascii_digit, between; rewrite (proj2 (N.ltb_lt c 128) Hlt);
    apply andb_false_iff; rewrite !N.leb_gt; lia).
  rewrite E1, E2, (proj2 (N.eqb_neq c 45)), (proj2 (N.eqb_neq c 39)), (proj2 (N.eqb_neq c 34)) by lia. cbn [andb orb].
  change (c :: w ++ 32 :: rest) with ((c :: w) ++ 32 :: rest). by rewrite span_stop.
Qed.

Lemma ascii_digit_spec c : ascii_digit c = true <-> 48 <= c <= 57.
Proof. unfold ascii_digit, between. rewrite andb_true_iff, !N.leb_le. done. Qed.

Lemma digit_class c : ascii_digit c = true -> isspace c = false /\ isdigit c = true /\ decimal c = Some (c - 48).
Proof.
  intros Hc. pose proof (proj1 (ascii_digit_spec c) Hc). unfold isspace, isdigit, decimal, between.
  rewrite (proj2 (N.ltb_lt c 128)) by lia. rewrite Hc. split_and!; auto.
  apply orb_false_iff. rewrite !andb_false_iff, !N.leb_gt. lia.
Qed.

(** A numeral is cut out of the text as it is. *)
Lemma numeral_next raw n rest : is_numeral raw = true -> number_of raw = Ok n ->
  exists c s, raw ++ 32 :: rest = c :: s /\ next_token c s = Ok (Some (Num n), 32 :: rest).
Proof.
  intros Hr Hn. unfold is_numeral in Hr. destruct (unsigned raw) as [|d ds] eqn:Hu; [done|].
  apply andb_true_iff in Hr as [Hd Hds]. pose proof (proj1 (ascii_digit_spec d) Hd) as Hdb.
  destruct (digit_class d Hd) as (D1 & D2 & _).
  assert (Hsp : span (fun d => isdigit d || (d =? 46)) ((d :: ds) ++ 32 :: rest) = (d :: ds, 32 :: rest)).
  { apply span_stop; [|done]. apply forallb_forall. intros x Hx. rewrite forallb_forall in Hds. specialize (Hds x Hx).
    apply orb_true_iff in Hds as [Hx'|Hx']; [|by rewrite Hx', orb_true_r]. by destruct (digit_class x Hx') as (_ & -> & _). }
  destruct (decide (head raw = Some 45)) as [Hm|Hm].
  - assert (raw = 45 :: d :: ds) as -> by (destruct raw as [|c raw]; [done|]; cbn in Hm; injection Hm as ->; by rewrite <- Hu).
    exists 45, ((d :: ds) ++ 32 :: rest). split; [done|]. unfold next_token. cbn [app]. cbn [head].
    assert (E1 : isspace 45 = false) by done. assert (E2 : isdigit 45 = false) by done. rewrite E1, E2.
    rewrite bool_decide_eq_false_2 by (intros [= ->]; lia). rewrite D2. cbn [andb orb N.eqb Pos.eqb].
    change (d :: ds ++ 32 :: rest) with ((d :: ds) ++ 32 :: rest). rewrite Hsp. by rewrite Hn.
  - assert (raw = d :: ds) as ->.
    { rewrite <- Hu. unfold unsigned. destruct raw as [|c raw]; [done|]. cbn in Hm.
      destruct (decide (c = 45)) as [->|Hne]; [done|]. destruct c as [|p]; [done|].
      do 6 (destruct p as [p|p|]; try done). }
    exists d, (ds ++ 32 :: rest). split; [done|]. unfold next_token.
    rewrite D1, D2, (proj2 (N.eqb_neq d 45)), (proj2 (N.eqb_neq d 39)), (proj2 (N.eqb_neq d 34)) by lia. cbn [andb orb].
    change (d :: ds ++ 32 :: rest) with ((d :: ds) ++ 32 :: rest). rewrite Hsp. by rewrite Hn.
Qed.

Lemma digit_char_10 d : d < 10 -> digit_char d = 48 + d.
Proof. intros Hd. unfold digit_char. by rewrite (proj2 (N.ltb_lt d 10)). Qed.

Lemma str_of_N_digits n : str_of_N n <> [] /\ forallb ascii_digit (str_of_N n) = true /\
  int_digits (str_of_N n) = Ok (Z.of_N n).
Proof.
  unfold str_of_N. pose proof (digits_nonnil 10 n ltac:(lia)) as Hne. pose proof (digits_bound 10 n ltac:(lia)) as Hb.
  pose proof (of_digits_digits 10 n ltac:(lia)) as Hof. set (l := digits 10 n) in *. clearbody l. split_and!.
  - by destruct l.
  - apply forallb_forall. intros c (d & -> & Hd)%list_elem_of_In%list_elem_of_fmap. rewrite list.Forall_forall in Hb.
    specialize (Hb d Hd). rewrite digit_char_10 by done. apply ascii_digit_spec. lia.
  - assert (E : mapM decimal (digit_char <$> l) = Some l).
    { clear Hne Hof. induction Hb as [|d l Hd Hb IH]; [done|]. cbn. rewrite digit_char_10 by done.
      destruct (digit_class (48 + d)) as (_ & _ & ->); [apply ascii_digit_spec; lia|]. cbn.
      change (list_fmap N N digit_char l) with (digit_char <$> l). rewrite IH. cbn. do 2 f_equal. lia. }
    unfold int_digits. rewrite E. destruct l; [done|]. by rewrite Hof.
Qed.

Lemma not_in_digits ds c : forallb ascii_digit ds = true -> ascii_digit c = false -> c ∉ ds.
Proof. intros Hds Hc Hin%list_elem_of_In. rewrite forallb_forall in Hds. rewrite (Hds c Hin) in Hc. done. Qed.

Lemma render_int z : is_numeral (str_of_Z z) = true /\ number_of (str_of_Z z) = Ok (NInt z).
Proof.
  assert (Hcase : exists n, (str_of_Z z = str_of_N n /\ z = Z.of_N n) \/ (str_of_Z z = 45 :: str_of_N n /\ z = (- Z.of_N n)%Z))
    by (destruct z; [exists 0; left|exists (Npos p); left|exists (Npos p); right]; done).
  destruct Hcase as (n & Hz). destruct (str_of_N_digits n) as (Hne & Hd & Hi).
  assert (Hu : unsigned (str_of_N n) = str_of_N n).
  { destruct (str_of_N n) as [|c l]; [done|]. cbn in Hd. apply andb_true_iff in Hd as [Hc%ascii_digit_spec _]. unfold unsigned.
    destruct c as [|p]; [done|]. do 6 (destruct p as [p|p|]; try done). }
  assert (Hall : forall l, forallb ascii_digit l = true -> forallb (fun d => ascii_digit d || (d =? 46)) l = true).
  { intros l Hl. apply forallb_forall. intros x Hx. rewrite forallb_forall in Hl. by rewrite Hl. }
  unfold is_numeral, number_of. destruct Hz as [[-> ->]|[-> ->]].
  - rewrite Hu. rewrite bool_decide_eq_false_2 by (by apply not_in_digits). split.
    + destruct (str_of_N n) as [|c l] eqn:E; [done|]. rewrite Hall by done. cbn in Hd. apply andb_true_iff in Hd as [-> _]. done.
    + assert (Er : int_raw (str_of_N n) = int_digits (str_of_N n)).
      { unfold int_raw, unsigned in *. destruct (str_of_N n) as [|c l]; [done|]. cbn in Hd.
        apply andb_true_iff in Hd as [Hc%ascii_digit_spec _]. destruct c as [|p]; [done|].
        do 6 (destruct p as [p|p|]; try done). }
      rewrite Er, Hi. done.
  - cbn [unsigned]. rewrite bool_decide_eq_false_2 by (apply not_elem_of_cons; split; [done|by apply not_in_digits]). split.
    + destruct (str_of_N n) as [|c l] eqn:E; [done|]. rewrite Hall by done. cbn in Hd. apply andb_true_iff in Hd as [-> _]. done.
    + cbn [int_raw]. rewrite Hi. done.
Qed.

Lemma keyword_word w : w ∈ KEYWORDS -> is_word w = true /\ word_token w = Kw w.
Proof.
  intros Hw. assert (Hall : Forall (fun w => is_word w = true /\ word_token w = Kw w) KEYWORDS)
    by (repeat constructor; vm_compute; reflexivity).
  rewrite list.Forall_forall in Hall. by apply Hall.
Qed.

Lemma render_next t rest : renderable t ->
  exists c s, render_tok t ++ 32 :: rest = c :: s /\ next_token c s = Ok (Some t, 32 :: rest).
Proof.
  destruct t as [w|w|s|[z|raw]| | | | | | | | | | | |]; cbn [renderable render_tok render_number]; intros Ht; try done;
    try (eexists _, _; split; [reflexivity|vm_compute; reflexivity]).
  - destruct (keyword_word w Ht) as [H1 <-]. by apply word_next.
  - destruct Ht as [H1 H2]. destruct (word_next w rest H1) as (c & s & E & Hn). exists c, s. split; [done|].
    unfold word_token in Hn. by rewrite bool_decide_eq_false_2 in Hn.
  - exists 39, ((s ++ [39]) ++ 32 :: rest). split; [done|]. unfold next_token. cbn -[app str_body].
    rewrite <- (assoc app). cbn [app]. by rewrite str_body_end.
  - destruct (render_int z). by apply numeral_next.
  - destruct Ht as (H1 & H2 & H3). apply numeral_next; [done|]. unfold number_of. by rewrite bool_decide_eq_true_2, H3.
Qed.

Lemma space_next s : next_token 32 s = Ok (None, s).
Proof. done. Qed.

Lemma tokenize_render ts : Forall renderable ts -> forall fuel, (length (render ts) <= fuel)%nat ->
  tokenize_loop fuel (render ts) = Ok (ts ++ [Eof]).
Proof.
  induction 1 as [|t ts Ht Hts IH]; intros fuel Hf; [by destruct fuel|].
  change (render (t :: ts)) with ((render_tok t ++ [32]) ++ render ts) in *. rewrite <- (assoc app) in *. cbn [app] in *.
  destruct (render_next t (render ts) Ht) as (c & s & E & Hn).
  assert (Hlen : (length (render_tok t ++ 32%N :: render ts) >= 2 + length (render ts))%nat).
  { rewrite length_app. cbn [length]. destruct (render_tok t) as [|x l] eqn:Er; [|cbn; lia].
    exfalso. cbn [app] in E. injection E as <- <-. cbn in Hn. done. }
  rewrite E in *. destruct fuel as [|[|fuel]]; [cbn in *; lia|cbn in *; lia|]. cbn [tokenize_loop]. rewrite Hn. cbn [mbind res_bind tokenize_loop].
  rewrite space_next. cbn [mbind res_bind].
  rewrite IH by lia. done.
Qed.
End render.

(** ** Theorems *)


(** C37: a statement written out is read back: the text of its tokens is tokenized to the same
    tokens and parsed to the same tree. *)
Theorem sql_roundtrip `{Unicode} ts s :
  G_stmt ts s -> Forall renderable ts -> tokenize (render ts) = Ok (ts ++ [Eof]) /\ parse_sql (render ts) = Ok s.
Proof.
  intros HG Hr. pose proof (tokenize_render ts Hr (length (render ts)) (Nat.le_refl _)) as E. split; [exact E|].
  unfold parse_sql, tokenize. rewrite E. cbn [mbind res_bind]. unfold parse.
  by rewrite (stmt_complete ts s [Eof]).
Qed.

(** A Python whose strings are ASCII. *)
Definition ascii_only : Unicode := {|
  u_space := fun _ => false; u_alpha := fun _ => false; u_digit := fun _ => false; u_alnum := fun _ => false;
  u_decimal := fun _ => None; u_upper := fun c => [c]; float_trunc := fun _ => Raise ValueError |}.

(** [DELETE FROM t WHERE id = -1]. *)
Definition sample : list tok :=
  [Kw (py "DELETE"); Kw (py "FROM"); Ident (py "t"); Kw (py "WHERE"); Ident (py "id"); EQ; Num (NInt (-1))].

Lemma sql_roundtrip_witness :
  parse_sql (H := ascii_only) (render sample) =
  Ok (DeleteStmt (py "t") (Some (BinaryExpr OEq (ColumnRef (py "id")) (Literal (VNum (NInt (-1))))))).
Proof.
  refine (proj2 (sql_roundtrip (H := ascii_only) sample _ _ _)).
  - apply G_delete, G_some_where, G_or1, G_and1, G_not1.
    apply (G_cmp2 [Ident (py "id")] [Num (NInt (-1))] EQ OEq); [constructor|reflexivity|constructor].
  - unfold sample. repeat constructor; try (cbn; set_solver); apply (bool_decide_eq_true_1 _); vm_compute; reflexivity.
Defined.

(** A misspelt WHERE is not an error: the parser stops after the table and ignores the
    rest, so the statement deletes every row. *)
Theorem sql_typo_drops_where `{Unicode} :
  parse_sql (py "DELETE FROM t WERE id = 1") = Ok (DeleteStmt (py "t") None).
Proof. vm_compute. reflexivity. Qed.

(** In a string, a backslash protects the quote but stays in the value. *)
Theorem sql_escape_kept `{Unicode} :
  tokenize ([39; 92; 39; 39]) = Ok [Str [92; 39]; Eof].
Proof. vm_compute. reflexivity. Qed.
