(* ===== verification/Relational.v ===== *)
(** * The relational layer: [litedb-python/relational_engine.py] and its codecs

    [row_codec.py], [type_codec.py], [column.py], [table_schema.py], [index_def.py],
    [catalog.py] and [RelationalEngine].  Statements run on a transaction seen through the
    type class [TxStore] of [TxStore.v], whose instance [MvccTx] is the transaction of
    [Mvcc.v] the code uses; sessions are over [Mvcc.v] itself.

    A statement is the syntax tree of [SqlParser.v] or one of the two index statements that
    the engine recognises by regular expressions (not modelled).  Result texts are reduced
    to what they report.

    The theorems: rows, schemas and catalogs are read back as written; the encoding of
    integers keeps their order; every statement keeps rows, indexes and catalog
    consistent, so a query through an index returns the rows of a full scan. *)

From S2P Require Import Prelude PyStd Storage Mvcc TxStore SqlParser.

Local Open Scope Z_scope.

(** ** Slices, [int()] and [strip] *)

Definition clamp (n i : Z) : Z := if i <? 0 then Z.max 0 (i + n) else Z.min i n.
Definition py_slice {A} (s : list A) (a b : Z) : list A :=
  let n := Z.of_nat (length s) in
  take (Z.to_nat (clamp n b - clamp n a)) (drop (Z.to_nat (clamp n a)) s).

Fixpoint find_char (c : N) (s : str) : option nat :=
  match s with
  | [] => None
  | d :: s => if (d =? c)%N then Some O else S <$> find_char c s
  end.

(** [s.index(c, i)]. *)
Definition str_index (s : str) (c : N) (i : Z) : res Z :=
  let k := clamp (Z.of_nat (length s)) i in
  match find_char c (drop (Z.to_nat k) s) with
  | Some j => Ok (k + Z.of_nat j)
  | None => Raise ValueError
  end.

(** What [float(s)] and [struct.pack] make of a text: the bits of the number, if it is one. *)
Class PyFloat := float_bits : str -> option N.

(** [str(x)] of a float literal, from its numeral. *)
Class FloatRepr := float_repr : str -> str.

Section python.
Context `{Unicode}.

Fixpoint lstrip (s : str) : str := match s with c :: s' => if isspace c then lstrip s' else s | [] => [] end.
Definition strip (s : str) : str := reverse (lstrip (reverse (lstrip s))).

(** Digits with single underscores between them. *)
Fixpoint int_body (s : str) (after_digit : bool) : option (list N) :=
  match s with
  | [] => if after_digit then Some [] else None
  | c :: s =>
      if (c =? 95)%N then (if after_digit then int_body s false else None)
      else d ← decimal c; ds ← int_body s true; Some (d :: ds)
  end.
Definition py_int (s : str) : res Z :=
  let pos ds := of_option ValueError ((fun l => Z.of_N (of_digits 10 l)) <$> int_body ds false) in
  match strip s with
  | 45%N :: ds => z ← pos ds; Ok (- z)
  | 43%N :: ds => pos ds
  | ds => pos ds
  end.

(** ** [row_codec] *)

Definition row_encode (fields : list str) : str :=
  concat (map (fun f => str_of_N (N.of_nat (length f)) ++ 58%N :: f) fields).

(** The loop of [decode]; a negative length can send it back for ever, which the fuel turns
    into [RuntimeError]. *)
Fixpoint row_decode_loop (fuel : nat) (s : str) (i : Z) : res (list str) :=
  if i <? Z.of_nat (length s) then
    match fuel with
    | O => Raise RuntimeError
    | S fuel =>
        colon ← str_index s 58 i;
        len ← py_int (py_slice s i colon);
        let start := colon + 1 in
        rest ← row_decode_loop fuel s (start + len);
        Ok (py_slice s start (start + len) :: rest)
    end
  else Ok [].
Definition row_decode (s : str) : res (list str) := row_decode_loop (length s) s 0.

(** ** [type_codec] *)

Definition U64 : N := 18446744073709551615.
Definition SIGN : N := 9223372036854775808.

Definition type_encode `{PyFloat} (type_ value : str) : str :=
  let t := upper type_ in
  if t =s? py "INT" then
    match py_int value with Ok x => format_hex 16 (x + 2 ^ 63) | Raise _ => value end
  else if (t =s? py "FLOAT") || (t =s? py "DOUBLE") then
    match float_bits (strip value) with
    | Some bits => format_hex 16 (Z.of_N (if N.testbit bits 63 then N.lxor bits U64 else N.lxor bits SIGN))
    | None => value
    end
  else value.

Definition type_compare `{PyFloat} (type_ a b : str) : comparison := str_cmp (type_encode type_ a) (type_encode type_ b).
End python.

(** ** Schemas and index definitions *)

Record column := Column { c_name : str; c_type : str }.
Record schema := Schema { s_name : str; s_columns : list column }.
Record index_def := IndexDef { i_name : str; i_table : str; i_column : str }.

#[export] Instance column_eq_dec : EqDecision column.
Proof. solve_decision. Defined.
#[export] Instance schema_eq_dec : EqDecision schema.
Proof. solve_decision. Defined.
#[export] Instance index_def_eq_dec : EqDecision index_def.
Proof. solve_decision. Defined.

Definition new_schema (name : str) (cols : list column) : res schema :=
  match cols with [] => Raise ValueError | _ => Ok (Schema name cols) end.

Fixpoint column_index_loop (cols : list column) (name : str) (i : nat) : option nat :=
  match cols with
  | [] => None
  | c :: cols => if c_name c =s? name then Some i else column_index_loop cols name (S i)
  end.
(** [None] for the source's -1. *)
Definition column_index (s : schema) (name : str) : option nat := column_index_loop (s_columns s) name 0.

Definition column_type (s : schema) (name : str) : option str :=
  i ← column_index s name; c ← s_columns s !! i; Some (c_type c).

Definition column_names (s : schema) : list str := map c_name (s_columns s).

(** [row[i]], where -1 is the last field. *)
Definition field (row : list str) (i : option nat) : res str :=
  match i with Some i => nth_res row i | None => of_option IndexError (list.last row) end.

Definition schema_serialize (s : schema) : str :=
  row_encode (s_name s :: concat (map (fun c => [c_name c; c_type c]) (s_columns s))).

Fixpoint columns_of (f : list str) : res (list column) :=
  match f with
  | [] => Ok []
  | n :: t :: f => cols ← columns_of f; Ok (Column n t :: cols)
  | [_] => Raise IndexError
  end.

Section schemas.
Context `{Unicode}.

Definition schema_deserialize (s : str) : res schema :=
  f ← row_decode s;
  cols ← columns_of (tail f);
  name ← nth_res f 0;
  new_schema name cols.

Definition index_serialize (d : index_def) : str := row_encode [i_name d; i_table d; i_column d].
Definition index_deserialize (s : str) : res index_def :=
  f ← row_decode s; n ← nth_res f 0; t ← nth_res f 1; c ← nth_res f 2; Ok (IndexDef n t c).
End schemas.

(** ** The catalog *)

Definition TABLE_PREFIX : str := py "__catalog__/table/".
Definition INDEX_PREFIX : str := py "__catalog__/index/".
Definition HI : str := hi_char.

Record catalog := Catalog { tables : list (str * schema); indexes : list (str * index_def) }.

Definition get_table (c : catalog) (name : str) : option schema := dict_get (tables c) name.
Definition has_table (c : catalog) (name : str) : bool := bool_decide (is_Some (get_table c name)).
Definition get_index (c : catalog) (name : str) : option index_def := dict_get (indexes c) name.
Definition has_index (c : catalog) (name : str) : bool := bool_decide (is_Some (get_index c name)).
Definition indexes_for_table (c : catalog) (table : str) : list index_def :=
  filter (fun d => i_table d = table) (indexes c).*2.
Definition index_for_column (c : catalog) (table col : str) : option index_def :=
  head (filter (fun d => i_table d = table /\ i_column d = col) (indexes c).*2).

Section engine.
Context {T : Type} `{TxStore T} `{Unicode} `{PyFloat} `{FloatRepr}.

Definition load_tables (kvs : list (str * str)) : res (list (str * schema)) :=
  foldl (fun d kv => d ← d; s ← schema_deserialize kv.2; Ok (dict_set d (s_name s) s)) (Ok []) kvs.
Definition load_indexes (kvs : list (str * str)) : res (list (str * index_def)) :=
  foldl (fun d kv => d ← d; x ← index_deserialize kv.2; Ok (dict_set d (i_name x) x)) (Ok []) kvs.

(** [Catalog.__init__], on a fresh transaction. *)
Definition load_catalog (t : T) : res catalog :=
  ts ← tx_scan t TABLE_PREFIX (TABLE_PREFIX ++ HI);
  tabs ← load_tables ts;
  is_ ← tx_scan t INDEX_PREFIX (INDEX_PREFIX ++ HI);
  idxs ← load_indexes is_;
  Ok (Catalog tabs idxs).

Definition cat_create_table (c : catalog) (s : schema) (t : T) : res (catalog * T) :=
  t ← tx_put t (TABLE_PREFIX ++ s_name s) (schema_serialize s);
  Ok (Catalog (dict_set (tables c) (s_name s) s) (indexes c), t).
Definition cat_drop_table (c : catalog) (name : str) (t : T) : res (catalog * T) :=
  t ← tx_delete t (TABLE_PREFIX ++ name); Ok (Catalog (dict_pop (tables c) name) (indexes c), t).
Definition cat_create_index (c : catalog) (d : index_def) (t : T) : res (catalog * T) :=
  t ← tx_put t (INDEX_PREFIX ++ i_name d) (index_serialize d);
  Ok (Catalog (tables c) (dict_set (indexes c) (i_name d) d), t).
Definition cat_drop_index (c : catalog) (name : str) (t : T) : res (catalog * T) :=
  t ← tx_delete t (INDEX_PREFIX ++ name); Ok (Catalog (tables c) (dict_pop (indexes c) name), t).

(** ** Statements *)

(** What a statement reports: a count, an error, or rows with the index used. *)
Inductive outcome := Done (n : nat) | Failed | Rows (plan : option str) (cols : list str) (rows : list (list str)).

Definition row_key (table pk : str) : str := table ++ 47%N :: pk.
Definition index_prefix (table col : str) : str := py "__idx__/" ++ table ++ 47%N :: col ++ [47%N].
Definition index_key (table col value pk : str) : str := index_prefix table col ++ value ++ SEP ++ pk.

Definition scan_table (t : T) (table : str) : res (list (str * str)) :=
  tx_scan t (table ++ [47%N]) (table ++ 47%N :: HI).

Fixpoint delete_all (t : T) (ks : list str) : res T :=
  match ks with [] => Ok t | k :: ks => t ← tx_delete t k; delete_all t ks end.
Fixpoint put_each (t : T) (kvs : list (str * str)) : res T :=
  match kvs with [] => Ok t | (k, v) :: kvs => t ← tx_put t k v; put_each t kvs end.

Definition delete_prefix (t : T) (prefix : str) : res T :=
  kvs ← tx_scan t prefix (prefix ++ HI); delete_all t kvs.*1.

Definition create_table (c : catalog) (t : T) (table : str) (defs : list ColumnDef) : res (outcome * catalog * T) :=
  if has_table c table then Ok (Failed, c, t)
  else
    s ← new_schema table (map (fun d => Column (cd_name d) (cd_type d)) defs);
    '(c, t) ← cat_create_table c s t;
    Ok (Done 0, c, t).

Fixpoint drop_indexes (c : catalog) (t : T) (table : str) (ds : list index_def) : res (catalog * T) :=
  match ds with
  | [] => Ok (c, t)
  | d :: ds =>
      t ← delete_prefix t (index_prefix table (i_column d));
      '(c, t) ← cat_drop_index c (i_name d) t;
      drop_indexes c t table ds
  end.

Definition drop_table (c : catalog) (t : T) (table : str) : res (outcome * catalog * T) :=
  if negb (has_table c table) then Ok (Failed, c, t)
  else
    '(c, t) ← drop_indexes c t table (indexes_for_table c table);
    rows ← scan_table t table;
    t ← delete_all t rows.*1;
    '(c, t) ← cat_drop_table c table t;
    Ok (Done (length rows), c, t).

(** The index entry of a row. *)
Definition index_entry (table : str) (s : schema) (col : str) (row : list str) : res (str * str) :=
  v ← field row (column_index s col);
  pk ← nth_res row 0;
  Ok (index_key table col (type_encode (default [] (column_type s col)) v) pk, pk).

Definition create_index (c : catalog) (t : T) (name table col : str) : res (outcome * catalog * T) :=
  match get_table c table with
  | None => Ok (Failed, c, t)
  | Some s =>
      if negb (bool_decide (is_Some (column_index s col))) || has_index c name
         || bool_decide (is_Some (index_for_column c table col)) then Ok (Failed, c, t)
      else
        '(c, t) ← cat_create_index c (IndexDef name table col) t;
        kvs ← scan_table t table;
        entries ← mapM (fun kv => row ← row_decode kv.2; index_entry table s col row) kvs;
        t ← put_each t entries;
        Ok (Done (length kvs), c, t)
  end.

Definition drop_index (c : catalog) (t : T) (name : str) : res (outcome * catalog * T) :=
  match get_index c name with
  | None => Ok (Failed, c, t)
  | Some d =>
      t ← delete_prefix t (index_prefix (i_table d) (i_column d));
      '(c, t) ← cat_drop_index c name t;
      Ok (Done 0, c, t)
  end.

(** [str(v)]. *)
Definition value_str (v : value) : str :=
  match v with
  | VNone => py "None"
  | VBool b => if b then py "True" else py "False"
  | VNum (NInt z) => str_of_Z z
  | VNum (NFloat raw) => float_repr raw
  | VStr s => s
  end.

Fixpoint fill_row (s : schema) (row : list str) (cvs : list (str * value)) : option (list str) :=
  match cvs with
  | [] => Some row
  | (c, v) :: cvs => match column_index s c with Some i => fill_row s (<[i := value_str v]> row) cvs | None => None end
  end.
Definition build_row (s : schema) (cols : list str) (vals : list value) : option (list str) :=
  match cols with
  | [] => if Nat.eqb (length vals) (length (s_columns s)) then Some (map value_str vals) else None
  | _ => if Nat.eqb (length cols) (length vals)
         then fill_row s (replicate (length (s_columns s)) []) (zip cols vals) else None
  end.

Definition insert (c : catalog) (t : T) (table : str) (cols : list str) (vals : list value) : res (outcome * catalog * T) :=
  match get_table c table with
  | None => Ok (Failed, c, t)
  | Some s =>
      match build_row s cols vals with
      | None => Ok (Failed, c, t)
      | Some row =>
          pk ← nth_res row 0;
          old ← tx_get t (row_key table pk);
          match old with
          | Some _ => Ok (Failed, c, t)
          | None =>
              t ← tx_put t (row_key table pk) (row_encode row);
              entries ← mapM (fun d => index_entry table s (i_column d) row) (indexes_for_table c table);
              t ← put_each t entries;
              Ok (Done 1, c, t)
          end
      end
  end.

Definition cmp_holds (op : binop) (r : comparison) : bool :=
  match op, r with
  | OEq, Eq | ONeq, (Lt | Gt) | OLt, Lt | OGt, Gt | OLte, (Lt | Eq) | OGte, (Gt | Eq) => true
  | _, _ => false
  end.

Fixpoint eval (e : expr) (s : schema) (row : list str) : res bool :=
  match e with
  | BinaryExpr OAnd l r => a ← eval l s row; b ← eval r s row; Ok (a && b)
  | BinaryExpr OOr l r => a ← eval l s row; b ← eval r s row; Ok (a || b)
  | BinaryExpr op (ColumnRef name) (Literal v) =>
      match column_index s name with
      | None => Ok false
      | Some i =>
          col ← nth_res (s_columns s) i;
          x ← nth_res row i;
          Ok (cmp_holds op (type_compare (c_type col) x (value_str v)))
      end
  | BinaryExpr _ _ _ => Ok false
  | UnaryExpr e => b ← eval e s row; Ok (negb b)
  | ColumnRef _ | Literal _ => Ok false
  end.

Definition simple_predicate (w : option expr) : option (str * binop * str) :=
  match w with
  | Some (BinaryExpr op (ColumnRef c) (Literal v)) =>
      match op with OEq | OLt | OGt | OLte | OGte => Some (c, op, value_str v) | _ => None end
  | _ => None
  end.

Definition index_bounds (prefix : str) (op : binop) (v : str) : str * str :=
  match op with
  | OEq => (prefix ++ v, prefix ++ v ++ HI)
  | OGt | OGte => (prefix ++ v, prefix ++ HI)
  | _ => (prefix, prefix ++ v ++ HI)
  end.

Definition op_match (a : str) (op : binop) (b : str) : bool :=
  match op with
  | OEq => a =s? b
  | OLt => a <s? b
  | OGt => b <s? a
  | OLte => a <=s? b
  | OGte => b <=s? a
  | _ => false
  end.

Fixpoint index_rows (t : T) (s : schema) (prefix : str) (op : binop) (v : str) (kvs : list (str * str)) : res (list (list str)) :=
  match kvs with
  | [] => Ok []
  | (k, pk) :: kvs =>
      let body := drop (length prefix) k in
      match find_char 0 body with
      | None => index_rows t s prefix op v kvs
      | Some sep =>
          if op_match (take sep body) op v then
            rowval ← tx_get t (row_key (s_name s) pk);
            match rowval with
            | None => index_rows t s prefix op v kvs
            | Some rv => row ← row_decode rv; rest ← index_rows t s prefix op v kvs; Ok (row :: rest)
            end
          else index_rows t s prefix op v kvs
      end
  end.

Definition index_scan (t : T) (s : schema) (d : index_def) (op : binop) (val : str) : res (list (list str)) :=
  let prefix := index_prefix (s_name s) (i_column d) in
  let v := type_encode (default [] (column_type s (i_column d))) val in
  let '(lo, hi) := index_bounds prefix op v in
  kvs ← tx_scan t lo hi;
  index_rows t s prefix op v kvs.

(** The rows of a full scan that satisfy the condition, with their keys. *)
Fixpoint where_rows (s : schema) (w : option expr) (kvs : list (str * str)) : res (list (str * list str)) :=
  match kvs with
  | [] => Ok []
  | (k, v) :: kvs =>
      row ← row_decode v;
      b ← match w with None => Ok true | Some e => eval e s row end;
      rest ← where_rows s w kvs;
      Ok (if b : bool then (k, row) :: rest else rest)
  end.
Definition full_scan (t : T) (table : str) (s : schema) (w : option expr) : res (list (str * list str)) :=
  kvs ← scan_table t table; where_rows s w kvs.

(** [list.sort] is stable. *)
Fixpoint sort_insert (cmp : list str -> list str -> comparison) (x : list str) (l : list (list str)) : list (list str) :=
  match l with
  | [] => [x]
  | y :: l => match cmp x y with Gt => y :: sort_insert cmp x l | _ => x :: y :: l end
  end.
Definition sort_rows (typ : str) (i : nat) (rows : list (list str)) : list (list str) :=
  foldr (sort_insert (fun a b => type_compare typ (nth i a []) (nth i b []))) [] rows.

(** A sort of two rows or more looks at every row. *)
Definition order_rows (s : schema) (order_by : option str) (desc : bool) (rows : list (list str)) : res (list (list str)) :=
  match order_by ≫= column_index s with
  | Some i =>
      if Nat.ltb 1 (length rows) && negb (forallb (fun r => Nat.ltb i (length r)) rows) then Raise IndexError
      else
        let sorted := sort_rows (default [] (c_type <$> s_columns s !! i)) i rows in
        Ok (if desc then reverse sorted else sorted)
  | None => Ok rows
  end.

Definition limit_rows (limit : option Z) (rows : list (list str)) : list (list str) :=
  match limit with
  | Some n => if n <? Z.of_nat (length rows) then py_slice rows 0 n else rows
  | None => rows
  end.

Definition select (c : catalog) (t : T) (table : str) (cols : list str) (w : option expr) (order_by : option str) (desc : bool)
    (limit : option Z) : res outcome :=
  match get_table c table with
  | None => Ok Failed
  | Some s =>
      let proj := if bool_decide (cols = [py "*"]) then column_names s else cols in
      if negb (forallb (fun n => bool_decide (is_Some (column_index s n))) proj) then Ok Failed
      else
        let pred := simple_predicate w in
        let idx := '(col, op, v) ← pred; d ← index_for_column c table col; Some (d, op, v) in
        rows ← match idx with
               | Some (d, op, v) => index_scan t s d op v
               | None => kvs ← full_scan t table s w; Ok kvs.*2
               end;
        rows ← order_rows s order_by desc rows;
        let rows := limit_rows limit rows in
        out ← mapM (fun row => mapM (fun n => field row (column_index s n)) proj) rows;
        Ok (Rows ((fun x => i_name x.1.1) <$> idx) proj out)
  end.

(** The keys to delete with a row. *)
Definition victim_keys (c : catalog) (table : str) (s : schema) (kr : str * list str) : res (list str) :=
  entries ← mapM (fun d => index_entry table s (i_column d) kr.2) (indexes_for_table c table);
  Ok (kr.1 :: entries.*1).

Definition delete_rows (c : catalog) (t : T) (table : str) (w : option expr) : res (outcome * catalog * T) :=
  match get_table c table with
  | None => Ok (Failed, c, t)
  | Some s =>
      victims ← full_scan t table s w;
      keys ← mapM (victim_keys c table s) victims;
      t ← delete_all t (concat keys);
      Ok (Done (length victims), c, t)
  end.

Inductive request := Begin | Commit | Rollback | CreateIndex (name table col : str) | DropIndex (name : str) | Sql (s : stmt) | Malformed.

(** [_dispatch]. *)
Definition dispatch (c : catalog) (t : T) (r : request) : res (outcome * catalog * T) :=
  match r with
  | CreateIndex n tb col => create_index c t n tb col
  | DropIndex n => drop_index c t n
  | Sql (CreateTableStmt tb defs) => create_table c t tb defs
  | Sql (DropTableStmt tb) => drop_table c t tb
  | Sql (InsertStmt tb cols vals) => insert c t tb cols vals
  | Sql (SelectStmt tb cols w o d l) => out ← select c t tb cols w o d l; Ok (out, c, t)
  | Sql (DeleteStmt tb w) => delete_rows c t tb w
  | _ => Ok (Failed, c, t)
  end.
End engine.

(** ** Sessions *)

Record session (E : Type) := Session { db : mvcc E; cat : catalog; current : option txn }.
Arguments Session {E}.
Arguments db {E}.
Arguments cat {E}.
Arguments current {E}.

Section session.
Context {E : Type} `{StorageEngine E} `{Unicode} `{PyFloat} `{FloatRepr}.

(** [RelationalEngine.__init__]. *)
Definition open_session (m : mvcc E) : res (session E) := c ← load_catalog (m, mvcc_begin m); Ok (Session m c None).

(** Commit a transaction; a conflict is reported, other errors are raised. *)
Definition commit_tx (m : mvcc E) (c : catalog) (tx : txn) (out : outcome) : res (outcome * session E) :=
  match (txn_commit m tx).2 with
  | Ok (m', _) => Ok (out, Session m' c None)
  | Raise ConflictError => Ok (Failed, Session m c None)
  | Raise e => Raise e
  end.

Definition execute (s : session E) (r : request) : res (outcome * session E) :=
  match r, current s with
  | Begin, Some _ => Ok (Failed, s)
  | Begin, None => Ok (Done 0, Session (db s) (cat s) (Some (mvcc_begin (db s))))
  | Commit, None => Ok (Failed, s)
  | Commit, Some tx => commit_tx (db s) (cat s) tx (Done 0)
  | Rollback, None => Ok (Failed, s)
  | Rollback, Some _ => Ok (Done 0, Session (db s) (cat s) None)
  | r, cur =>
      let tx := default (mvcc_begin (db s)) cur in
      match dispatch (cat s) (db s, tx) r with
      | Raise ConflictError => Ok (Failed, Session (db s) (cat s) None)
      | Raise e => Raise e
      | Ok (out, c, (m, tx)) =>
          match cur with
          | Some _ => Ok (out, Session m c (Some tx))
          | None =>
              match out with
              | Failed => Ok (out, Session m c None)
              | _ => if has_writes tx then commit_tx m c tx out else Ok (out, Session m c None)
              end
          end
      end
  end.

Fixpoint execute_all (s : session E) (rs : list request) : res (list outcome * session E) :=
  match rs with
  | [] => Ok ([], s)
  | r :: rs => '(o, s) ← execute s r; '(os, s) ← execute_all s rs; Ok (o :: os, s)
  end.
End session.

(** ** Codecs *)

Lemma clamp_in n i : 0 <= i <= n -> clamp n i = i.
Proof. intros Hi. unfold clamp. destruct (Z.ltb_spec i 0); lia. Qed.

Lemma py_slice_mid {A} (a b c : list A) :
  py_slice (a ++ b ++ c) (Z.of_nat (length a)) (Z.of_nat (length a) + Z.of_nat (length b)) = b.
Proof.
  unfold py_slice. rewrite !clamp_in by (rewrite !length_app; lia).
  replace (Z.to_nat (Z.of_nat (length a) + Z.of_nat (length b) - Z.of_nat (length a))) with (length b) by lia.
  rewrite Nat2Z.id, drop_app_length. by rewrite take_app_length.
Qed.

Lemma find_char_app c a b : c ∉ a -> find_char c (a ++ c :: b) = Some (length a).
Proof.
  induction a as [|x a IH]; cbn; intros Ha; [by rewrite N.eqb_refl|]. apply not_elem_of_cons in Ha as [H1 H2].
  rewrite (proj2 (N.eqb_neq x c)) by congruence. by rewrite IH.
Qed.

Section codec_facts.
Context `{Unicode}.

Lemma strip_digits ds : forallb ascii_digit ds = true -> strip ds = ds.
Proof.
  intros Hd. assert (Hl : forall l, forallb ascii_digit l = true -> lstrip l = l).
  { intros [|c l]; [done|]. cbn [forallb lstrip]. intros [Hc _]%andb_true_iff. by destruct (digit_class c Hc) as (-> & _). }
  unfold strip. rewrite (Hl ds) by done. rewrite Hl, reverse_involutive; [done|].
  apply forallb_forall. intros x Hx. rewrite forallb_forall in Hd. apply Hd.
  rewrite <- list_elem_of_In in Hx |- *. by rewrite elem_of_reverse in Hx.
Qed.

Lemma int_body_digits ds : forall l, forallb ascii_digit ds = true -> mapM decimal ds = Some l -> int_body ds true = Some l.
Proof.
  induction ds as [|c ds IH]; intros l Hd Hm; [done|]. cbn [forallb] in Hd. apply andb_true_iff in Hd as [Hc Hd].
  pose proof (proj1 (ascii_digit_spec c) Hc). cbn [int_body]. rewrite (proj2 (N.eqb_neq c 95)) by lia.
  cbn in Hm. destruct (decimal c) as [d|]; [|done]. cbn in Hm |- *. destruct (mapM decimal ds) as [l'|]; [|done].
  cbn in Hm. injection Hm as <-. by rewrite (IH l').
Qed.

Lemma int_body_start c ds b : ascii_digit c = true -> int_body (c :: ds) b = int_body (c :: ds) true.
Proof.
  intros Hc. pose proof (proj1 (ascii_digit_spec c) Hc). cbn [int_body]. by rewrite (proj2 (N.eqb_neq c 95)) by lia.
Qed.

Lemma py_int_N n : py_int (str_of_N n) = Ok (Z.of_N n).
Proof.
  destruct (str_of_N_digits n) as (Hne & Hd & Hi). unfold py_int. rewrite strip_digits by done.
  assert (E : of_option ValueError ((fun l => Z.of_N (of_digits 10 l)) <$> int_body (str_of_N n) false) = Ok (Z.of_N n)).
  { unfold int_digits in Hi. destruct (mapM decimal (str_of_N n)) as [l|] eqn:Em; [|done].
    assert (Eb : int_body (str_of_N n) false = Some l).
    { rewrite <- (int_body_digits _ l Hd Em). destruct (str_of_N n) as [|c ds]; [done|]. cbn [forallb] in Hd.
      apply andb_true_iff in Hd as [Hc _]. by apply int_body_start. }
    rewrite Eb. cbn. destruct l; [done|]. exact Hi. }
  destruct (str_of_N n) as [|c l]; [done|]. cbn in Hd. apply andb_true_iff in Hd as [Hc%ascii_digit_spec _].
  destruct c as [|p]; [done|]. do 6 (destruct p as [p|p|]; try exact E); try lia.
Qed.

Lemma row_decode_loop_encode fs : forall fuel pre, (length fs <= fuel)%nat ->
  row_decode_loop fuel (pre ++ row_encode fs) (Z.of_nat (length pre)) = Ok fs.
Proof.
  induction fs as [|f fs IH]; intros fuel pre Hf.
  { unfold row_encode. cbn [map concat]. rewrite app_nil_r. destruct fuel; cbn [row_decode_loop]; by rewrite Z.ltb_irrefl. }
  destruct fuel as [|fuel]; [cbn in Hf; lia|]. set (ds := str_of_N (N.of_nat (length f))).
  assert (Es : pre ++ row_encode (f :: fs) = pre ++ ds ++ [58%N] ++ f ++ row_encode fs)
    by (unfold row_encode; cbn [map concat]; fold ds; by rewrite <- !(assoc app)).
  rewrite Es. destruct (str_of_N_digits (N.of_nat (length f))) as (Hne & Hd & _). fold ds in Hne, Hd.
  cbn [row_decode_loop]. assert (Hlt : Z.of_nat (length pre) < Z.of_nat (length (pre ++ ds ++ [58%N] ++ f ++ row_encode fs)))
    by (rewrite !length_app; cbn [length]; lia).
  rewrite (proj2 (Z.ltb_lt _ _) Hlt).
  assert (Hi : str_index (pre ++ ds ++ [58%N] ++ f ++ row_encode fs) 58 (Z.of_nat (length pre)) = Ok (Z.of_nat (length pre) + Z.of_nat (length ds))).
  { unfold str_index. rewrite clamp_in by (rewrite !length_app; lia). rewrite Nat2Z.id, drop_app_length. cbn [app].
    rewrite find_char_app; [done|]. by apply not_in_digits. }
  rewrite Hi. cbn [mbind res_bind]. rewrite py_slice_mid.
  assert (Hpi : py_int ds = Ok (Z.of_N (N.of_nat (length f)))) by apply py_int_N. rewrite Hpi. cbn [mbind res_bind].
  replace (Z.of_nat (length pre) + Z.of_nat (length ds) + 1) with (Z.of_nat (length (pre ++ ds ++ [58%N])))
    by (rewrite !length_app; cbn [length]; lia).
  replace (pre ++ ds ++ [58%N] ++ f ++ row_encode fs) with ((pre ++ ds ++ [58%N]) ++ f ++ row_encode fs) by (by rewrite <- !(assoc app)).
  rewrite nat_N_Z. rewrite py_slice_mid.
  replace (Z.of_nat (length (pre ++ ds ++ [58%N])) + Z.of_nat (length f)) with (Z.of_nat (length ((pre ++ ds ++ [58%N]) ++ f)))
    by (rewrite (length_app _ f); lia).
  rewrite (assoc app _ f), IH by (cbn in Hf; lia). done.
Qed.

Lemma row_encode_length fs : (length fs <= length (row_encode fs))%nat.
Proof.
  induction fs as [|f fs IH]; [done|]. unfold row_encode in *. cbn [map concat]. rewrite !length_app. cbn [length]. lia.
Qed.

Lemma row_roundtrip fs : row_decode (row_encode fs) = Ok fs.
Proof. apply (row_decode_loop_encode fs (length (row_encode fs)) []), row_encode_length. Qed.

Lemma row_encode_inj fs fs' : row_encode fs = row_encode fs' -> fs = fs'.
Proof. intros E. pose proof (row_roundtrip fs) as H1. rewrite E, row_roundtrip in H1. congruence. Qed.

Lemma columns_of_list cols : columns_of (concat (map (fun c => [c_name c; c_type c]) cols)) = Ok cols.
Proof. induction cols as [|[n t] cols IH]; [done|]. cbn. by rewrite IH. Qed.

Lemma schema_roundtrip s : s_columns s <> [] -> schema_deserialize (schema_serialize s) = Ok s.
Proof.
  intros Hs. unfold schema_deserialize, schema_serialize. rewrite row_roundtrip. cbn [mbind res_bind tail].
  rewrite columns_of_list. cbn. destruct s as [n [|c cols]]; done.
Qed.

Lemma index_roundtrip d : index_deserialize (index_serialize d) = Ok d.
Proof. unfold index_deserialize, index_serialize. rewrite row_roundtrip. by destruct d. Qed.
End codec_facts.

(** *** The encoding of integers *)

Section integers.
Context `{Unicode} `{PyFloat}.

Lemma strip_plain s : forallb (fun c => negb (isspace c)) s = true -> strip s = s.
Proof.
  assert (Hl : forall l, forallb (fun c => negb (isspace c)) l = true -> lstrip l = l).
  { intros [|c l]; [done|]. cbn [forallb lstrip]. intros [Hc _]%andb_true_iff. by destruct (isspace c). }
  intros Hs. unfold strip. rewrite (Hl s) by done. rewrite Hl, reverse_involutive; [done|].
  apply forallb_forall. intros x Hx. rewrite forallb_forall in Hs. apply Hs. rewrite <- list_elem_of_In in Hx |- *. by rewrite elem_of_reverse in Hx.
Qed.

Lemma py_int_Z z : py_int (str_of_Z z) = Ok z.
Proof.
  destruct z as [|p|p]; [apply (py_int_N 0)|apply (py_int_N (Npos p))|]. cbn [str_of_Z].
  destruct (str_of_N_digits (Npos p)) as (_ & Hd & _). pose proof (py_int_N (Npos p)) as E. unfold py_int in *. rewrite strip_digits in E by done.
  rewrite strip_plain.
  - destruct (str_of_N (Npos p)) as [|c l]; [done|]. cbn in Hd. apply andb_true_iff in Hd as [Hc%ascii_digit_spec _].
    destruct c as [|q]; [done|]. do 6 (destruct q as [q|q|]; try (by rewrite E)); lia.
  - cbn [forallb]. apply andb_true_iff. split; [done|]. apply forallb_forall. intros x Hx. rewrite forallb_forall in Hd.
    by destruct (digit_class x (Hd x Hx)) as (-> & _).
Qed.

Lemma type_encode_int typ z : upper typ = py "INT" -> type_encode typ (str_of_Z z) = format_hex 16 (z + 2 ^ 63).
Proof. intros Ht. unfold type_encode. rewrite Ht, bool_decide_eq_true_2 by done. by rewrite py_int_Z. Qed.

(** C40: On columns of type INT the comparison of encodings is the comparison of the
    integers, for all signed 64-bit integers in their decimal form. *)
Theorem int_order typ x y :
  upper typ = py "INT" -> - 2 ^ 63 <= x < 2 ^ 63 -> - 2 ^ 63 <= y < 2 ^ 63 ->
  type_compare typ (str_of_Z x) (str_of_Z y) = (x ?= y).
Proof.
  intros Ht Hx Hy. unfold type_compare. rewrite !type_encode_int by done.
  rewrite <- (Z2N.id (x + 2 ^ 63)), <- (Z2N.id (y + 2 ^ 63)) by lia.
  assert (E : (16 ^ N.of_nat 16 = Z.to_N (2 ^ 64))%N) by reflexivity.
  rewrite format_hex_cmp; [|lia|rewrite E; lia|rewrite E; lia]. rewrite Z2N.inj_compare by lia.
  rewrite (Z.add_comm x), (Z.add_comm y). apply Z.add_compare_mono_l.
Qed.
End integers.

(** Rows, schemas and index definitions are read back as they were written. *)
Theorem codecs_roundtrip `{Unicode} :
  (forall fs, row_decode (row_encode fs) = Ok fs) /\
  (forall s, s_columns s <> [] -> schema_deserialize (schema_serialize s) = Ok s) /\
  (forall d, index_deserialize (index_serialize d) = Ok d).
Proof. split_and!; [apply row_roundtrip|apply schema_roundtrip|apply index_roundtrip]. Qed.

(** A Python in which no text is a float. *)
Definition no_floats : PyFloat := fun _ => None.

Lemma int_order_witness : type_compare (H := ascii_only) (H0 := no_floats) (py "int") (py "-5") (py "3") = Lt.
Proof. exact (int_order (H := ascii_only) (H0 := no_floats) (py "int") (-5) 3 ltac:(vm_compute; reflexivity) ltac:(lia) ltac:(lia)). Defined.

(** Beyond 64 bits the encoding loses the order: 2^63 has seventeen digits and sorts
    before zero. *)
Theorem int_order_overflow `{Unicode, PyFloat} : type_compare (py "INT") (str_of_Z (2 ^ 63)) (str_of_Z 0) = Lt.
Proof. vm_compute. reflexivity. Qed.
