(* ===== verification/RelationalFacts.v ===== *)
(** * The relational layer implements a database

    [Relational.v] against an abstract database of tables, indexes and rows: the keys that
    the engine writes and the representation of a database in a store ([repr]), the effect
    of every statement, and the specification [step] that the statements refine, against
    the laws of a transaction ([TxLaws]).  [simulates_dispatch] and [load_catalog_ok] are
    what [Sessions.v] uses. *)

From S2P Require Import Prelude PyStd Storage Mvcc TxStore SqlParser Relational.

Local Open Scope Z_scope.

(** ** Keys *)

(** Texts without the separator and without the largest code point. *)
Definition text_ok (s : str) : Prop := Forall (fun c => c <> 0%N /\ (c < max_code_point)%N) s.
Definition name_ok (s : str) : Prop := text_ok s /\ 47%N ∉ s.

Definition IDX : str := py "__idx__".
Definition CAT : str := py "__catalog__".
Definition table_name (t : str) : Prop := name_ok t /\ t <> IDX /\ t <> CAT.

(** The keys the engine writes. *)
Inductive key := KTable (n : str) | KIndex (n : str) | KRow (t pk : str) | KEntry (t col enc pk : str).

Definition enc_key (k : key) : str :=
  match k with
  | KTable n => TABLE_PREFIX ++ n
  | KIndex n => INDEX_PREFIX ++ n
  | KRow t pk => row_key t pk
  | KEntry t col enc pk => index_key t col enc pk
  end.

Definition valid (k : key) : Prop :=
  match k with
  | KTable n | KIndex n => text_ok n
  | KRow t pk => table_name t /\ text_ok pk
  | KEntry t col enc pk => name_ok t /\ name_ok col /\ text_ok enc /\ text_ok pk
  end.

Lemma split_at (sep : N) (a b x y : str) : sep ∉ a -> sep ∉ b -> a ++ sep :: x = b ++ sep :: y -> a = b /\ x = y.
Proof.
  revert b. induction a as [|c a IH]; intros [|d b] Ha Hb E; cbn in E.
  - by injection E as ->.
  - injection E as <- _. by destruct Hb; left.
  - injection E as -> _. by destruct Ha; left.
  - injection E as -> E2. apply not_elem_of_cons in Ha as [_ Ha], Hb as [_ Hb]. destruct (IH b Ha Hb E2) as [-> ->]. done.
Qed.

Lemma text_no_sep s : text_ok s -> 0%N ∉ s.
Proof. intros Hs Hin. unfold text_ok in Hs. rewrite list.Forall_forall in Hs. by destruct (Hs _ Hin). Qed.

Lemma table_key_eq n : TABLE_PREFIX ++ n = CAT ++ 47%N :: py "table/" ++ n.
Proof. reflexivity. Qed.
Lemma index_def_key_eq n : INDEX_PREFIX ++ n = CAT ++ 47%N :: py "index/" ++ n.
Proof. reflexivity. Qed.
Lemma index_prefix_eq t col r : index_prefix t col ++ r = IDX ++ 47%N :: t ++ 47%N :: col ++ 47%N :: r.
Proof.
  unfold index_prefix. change (py "__idx__/") with (IDX ++ [47%N]). rewrite <- !(assoc app). cbn [app].
  by rewrite <- !(assoc app).
Qed.

Lemma CAT_slash : 47%N ∉ CAT.
Proof. apply (bool_decide_eq_true_1 _). vm_compute. reflexivity. Qed.
Lemma IDX_slash : 47%N ∉ IDX.
Proof. apply (bool_decide_eq_true_1 _). vm_compute. reflexivity. Qed.

#[local] Hint Resolve CAT_slash IDX_slash : core.

(** The first path segment tells the kinds of keys apart. *)
Lemma key_row K t r : valid K -> table_name t -> enc_key K = row_key t r -> K = KRow t r.
Proof.
  intros HK ([_ Ht] & H1 & H2) E. unfold row_key in E. destruct K as [n|n|t' pk|t' col enc pk]; cbn [enc_key valid] in *.
  - rewrite table_key_eq in E. apply split_at in E as [? _]; auto. by destruct H2.
  - rewrite index_def_key_eq in E. apply split_at in E as [? _]; auto. by destruct H2.
  - destruct HK as [([_ ?] & _) _]. apply split_at in E as [-> ->]; auto.
  - unfold index_key in E. rewrite index_prefix_eq in E. apply split_at in E as [? _]; auto. by destruct H1.
Qed.

Lemma key_entry K t col r : valid K -> name_ok t -> name_ok col -> enc_key K = index_prefix t col ++ r ->
  exists enc pk, K = KEntry t col enc pk /\ r = enc ++ 0%N :: pk.
Proof.
  intros HK [_ Ht] [_ Hc] E. rewrite index_prefix_eq in E. destruct K as [n|n|t' pk|t' col' enc pk]; cbn [enc_key valid] in *.
  - rewrite table_key_eq in E. by apply split_at in E as [? _]; auto.
  - rewrite index_def_key_eq in E. by apply split_at in E as [? _]; auto.
  - destruct HK as [([_ ?] & ? & _) _]. unfold row_key in E. by apply split_at in E as [? _]; auto.
  - destruct HK as ([_ ?] & [_ ?] & _). unfold index_key in E. rewrite index_prefix_eq in E.
    apply split_at in E as [_ E]; auto. apply split_at in E as [-> E]; auto. apply split_at in E as [-> E]; auto.
    exists enc, pk. by split.
Qed.

Lemma key_table K n : valid K -> enc_key K = TABLE_PREFIX ++ n -> K = KTable n.
Proof.
  intros HK E. destruct K as [n'|n'|t' pk|t' col' enc pk]; cbn [enc_key valid] in *.
  - by apply (inj (app TABLE_PREFIX)) in E as ->.
  - rewrite table_key_eq, index_def_key_eq in E. by apply split_at in E as [_ ?]; auto.
  - destruct HK as [([_ ?] & _ & ?) _]. rewrite table_key_eq in E. unfold row_key in E. by apply split_at in E as [? _]; auto.
  - unfold index_key in E. rewrite index_prefix_eq, table_key_eq in E. by apply split_at in E as [? _]; auto.
Qed.

Lemma key_index_def K n : valid K -> enc_key K = INDEX_PREFIX ++ n -> K = KIndex n.
Proof.
  intros HK E. destruct K as [n'|n'|t' pk|t' col' enc pk]; cbn [enc_key valid] in *.
  - rewrite table_key_eq, index_def_key_eq in E. by apply split_at in E as [_ ?]; auto.
  - by apply (inj (app INDEX_PREFIX)) in E as ->.
  - destruct HK as [([_ ?] & _ & ?) _]. rewrite index_def_key_eq in E. unfold row_key in E. by apply split_at in E as [? _]; auto.
  - unfold index_key in E. rewrite index_prefix_eq, index_def_key_eq in E. by apply split_at in E as [? _]; auto.
Qed.

Lemma enc_key_inj K K' : valid K -> valid K' -> enc_key K = enc_key K' -> K = K'.
Proof.
  intros HK HK' E. destruct K' as [n|n|t pk|t col enc pk].
  - by apply key_table.
  - by apply key_index_def.
  - destruct HK' as [? _]. by apply key_row.
  - destruct HK' as (? & ? & He & ?). destruct (key_entry K t col (enc ++ SEP ++ pk)) as (enc' & pk' & -> & E'); auto.
    destruct HK as (_ & _ & He' & _). cbn in E'. apply split_at in E' as [-> ->]; auto using text_no_sep.
Qed.

Lemma text_le_hi c r : (c < max_code_point)%N -> c :: r <=s HI.
Proof. intros Hc. unfold str_le, HI, hi_char. cbn. by rewrite (proj2 (N.compare_lt_iff c max_code_point)). Qed.

Lemma text_ok_hi s : text_ok s -> s <=s HI.
Proof. destruct 1 as [|c s [_ Hc] _]; [apply str_nil_le|by apply text_le_hi]. Qed.

Lemma entry_le_hi enc pk : text_ok enc -> enc ++ 0%N :: pk <=s HI.
Proof. destruct 1 as [|c s [_ Hc] _]; cbn [app]; [by apply text_le_hi|by apply text_le_hi]. Qed.

Lemma slash_text s : text_ok s -> text_ok (s ++ [47%N]).
Proof. intros Hs. apply Forall_app. split; [done|]. by repeat constructor. Qed.

Lemma index_prefix_text t col : name_ok t -> name_ok col -> text_ok (index_prefix t col).
Proof.
  intros [Ht _] [Hc _]. unfold index_prefix. apply Forall_app. split.
  - apply (bool_decide_eq_true_1 _). vm_compute. reflexivity.
  - change (47%N :: col ++ [47%N]) with ([47%N] ++ col ++ [47%N]). rewrite (assoc app).
    apply Forall_app. split; [by apply slash_text|by apply slash_text].
Qed.

(** *** Encoded values are texts *)

Lemma hex_char_text d : (d < 16)%N -> (digit_char d <> 0 /\ digit_char d < max_code_point)%N.
Proof. intros Hd. unfold digit_char, max_code_point. destruct (N.ltb_spec d 10); lia. Qed.

Lemma format_hex_text w z : text_ok (format_hex w z).
Proof.
  assert (Hd : text_ok (digit_char <$> digits 16 (Z.abs_N z))).
  { unfold text_ok. apply Forall_fmap. eapply Forall_impl; [|apply (digits_bound 16); lia]. intros d Hd'. by apply hex_char_text. }
  assert (Hr : forall n, text_ok (replicate n 48%N)) by (intros n; apply Forall_replicate; unfold max_code_point; lia).
  unfold text_ok, format_hex in *. destruct z; try (apply Forall_app; split; [apply Hr|done]).
  constructor; [unfold max_code_point; lia|]. apply Forall_app. split; [apply Hr|done].
Qed.

Lemma type_encode_text `{Unicode, PyFloat} typ v : text_ok v -> text_ok (type_encode typ v).
Proof.
  intros Hv. unfold type_encode. destruct (_ =s? _); [destruct (py_int v); auto using format_hex_text|].
  destruct (_ || _); [|done]. destruct (float_bits _); auto using format_hex_text.
Qed.

(** ** The abstract database

    Tables, index definitions and rows by table and primary key: no keys, no index entries. *)

Record adb := Adb { a_tables : gmap str schema; a_indexes : gmap str index_def; a_rows : gmap (str * str) (list str) }.

Definition field_ok (v : str) : Prop := text_ok v /\ v <> TOMBSTONE.
Definition row_ok (s : schema) (row : list str) : Prop := length row = length (s_columns s) /\ Forall field_ok row.

(** A column of a table has an index. *)
Definition indexed (a : adb) (t col : str) : Prop := map_Exists (fun _ d => i_table d = t /\ i_column d = col) (a_indexes a).
#[local] Instance indexed_dec (a : adb) (t col : str) : Decision (indexed a t col).
Proof. unfold indexed. apply _. Defined.

Record wf (a : adb) : Prop := {
  wf_table : forall n s, a_tables a !! n = Some s -> s_name s = n /\ table_name n /\ s_columns s <> [];
  wf_index : forall n d, a_indexes a !! n = Some d -> i_name d = n /\ text_ok n /\ name_ok (i_column d) /\
    exists s, a_tables a !! i_table d = Some s /\ is_Some (column_index s (i_column d));
  wf_unique : forall n n' d d', a_indexes a !! n = Some d -> a_indexes a !! n' = Some d' ->
    i_table d = i_table d' -> i_column d = i_column d' -> n = n';
  wf_row : forall t pk row, a_rows a !! (t, pk) = Some row ->
    exists s, a_tables a !! t = Some s /\ row_ok s row /\ row !! 0%nat = Some pk
}.

Section refinement.
Context {T : Type} {TS : TxStore T} {TL : TxLaws T} {UC : Unicode} {PF : PyFloat} {FR : FloatRepr}.
Context (rel_keys : forall K, valid K -> t_key (enc_key K)).
Context (rel_ranges : forall p q, text_ok p -> text_ok q -> t_range p (q ++ HI)).

Lemma prefix_scan p : text_ok p -> t_range p (p ++ HI).
Proof. intros Hp. by apply rel_ranges. Qed.

Lemma rows_scan tb : table_name tb -> t_range (tb ++ [47%N]) (tb ++ 47%N :: HI).
Proof.
  intros [[Ht _] _]. change (47%N :: HI) with ([47%N] ++ HI). rewrite (assoc app). by apply prefix_scan, slash_text.
Qed.

Lemma bounds_scan p op v : text_ok p -> text_ok v -> t_range (index_bounds p op v).1 (index_bounds p op v).2.
Proof.
  intros Hp Hv. assert (text_ok (p ++ v)) as Hpv by (by apply Forall_app).
  destruct op; cbn [index_bounds fst snd]; rewrite ?(assoc app); by apply rel_ranges.
Qed.

(** The encoded value of a row in a column. *)
Definition enc_of (s : schema) (col : str) (row : list str) : str :=
  type_encode (default [] (column_type s col)) (default [] (column_index s col ≫= fun i => row !! i)).

(** The value that the store holds for a key. *)
Definition content (a : adb) (k : key) : option str :=
  match k with
  | KTable n => schema_serialize <$> a_tables a !! n
  | KIndex n => index_serialize <$> a_indexes a !! n
  | KRow t pk => row_encode <$> a_rows a !! (t, pk)
  | KEntry t col enc pk =>
      row ← a_rows a !! (t, pk); s ← a_tables a !! t;
      if decide (indexed a t col /\ enc_of s col row = enc) then Some pk else None
  end.

(** Catalog and store represent the abstract database. *)
Record repr (c : catalog) (M : gmap str str) (a : adb) : Prop := {
  r_tables : forall n, get_table c n = a_tables a !! n;
  r_indexes : forall n, get_index c n = a_indexes a !! n;
  r_nodup : NoDup (tables c).*1 /\ NoDup (indexes c).*1;
  r_lookup : forall K, valid K -> M !! enc_key K = content a K;
  r_keys : forall k, is_Some (M !! k) -> exists K, valid K /\ k = enc_key K
}.

(** The keys of the store can be used. *)
Lemma stored_keys c a t lo hi : repr c (view t) a -> Forall t_key (map_range (view t) lo hi).*1.
Proof.
  intros Hre. apply list.Forall_forall. intros k ([k' v] & -> & (Hk & _)%elem_of_map_range)%list_elem_of_fmap. cbn [fst].
  destruct (r_keys _ _ _ Hre k') as (K & HvK & ->); [by rewrite Hk|]. by apply rel_keys.
Qed.

(** The store changes at the keys in [D] only. *)
Lemma repr_update (D : key -> Prop) c c' M M' a a' :
  repr c M a ->
  (forall n, get_table c' n = a_tables a' !! n) -> (forall n, get_index c' n = a_indexes a' !! n) ->
  NoDup (tables c').*1 /\ NoDup (indexes c').*1 ->
  (forall K, D K \/ ~ D K) ->
  (forall K, valid K -> D K -> M' !! enc_key K = content a' K) ->
  (forall K, valid K -> ~ D K -> M' !! enc_key K = M !! enc_key K) ->
  (forall k, is_Some (M' !! k) -> is_Some (M !! k) \/ exists K, valid K /\ k = enc_key K) ->
  (forall K, valid K -> ~ D K -> content a' K = content a K) ->
  repr c' M' a'.
Proof.
  intros [_ _ _ HL HK] Ht Hi Hn Hdec HD Hsame Hkeys Hc. split; auto.
  - intros K HvK. destruct (Hdec K) as [HDK|HDK]; [by apply HD|]. by rewrite (Hc K HvK HDK), <- (HL K HvK), Hsame.
  - intros k Hk. destruct (Hkeys k Hk) as [Hk'|?]; [by apply HK|done].
Qed.

(** The effect of several writes and deletions. *)
Lemma delete_all_spec ks : forall t, t_inv t -> Forall t_key ks -> exists t', delete_all t ks = Ok t' /\ t_inv t' /\
  forall k, view t' !! k = if decide (k ∈ ks) then None else view t !! k.
Proof.
  induction ks as [|k0 ks IH]; intros t Ht Hks.
  - by exists t.
  - apply list.Forall_cons in Hks as [Hk0 Hks].
    destruct (law_tx_delete t k0 Ht Hk0) as (t1 & E1 & Ht1 & V1). destruct (IH t1 Ht1 Hks) as (t2 & E2 & Ht2 & V2).
    exists t2. cbn [delete_all]. rewrite E1. cbn [mbind res_bind]. split_and!; auto. intros k. rewrite V2, V1.
    destruct (decide (k ∈ k0 :: ks)) as [Hk|Hk].
    + case_decide as Hk'; [done|]. apply elem_of_cons in Hk as [->|Hk]; [by rewrite lookup_delete_eq|done].
    + apply not_elem_of_cons in Hk as [Hne Hk]. rewrite decide_False by done. by rewrite lookup_delete_ne.
Qed.

Lemma put_each_spec kvs : forall t, t_inv t -> Forall (fun kv => t_key kv.1 /\ kv.2 <> TOMBSTONE) kvs ->
  exists t', put_each t kvs = Ok t' /\ t_inv t' /\
  (forall k, k ∉ kvs.*1 -> view t' !! k = view t !! k) /\
  (forall k v, (k, v) ∈ kvs -> (forall v', (k, v') ∈ kvs -> v' = v) -> view t' !! k = Some v).
Proof.
  induction kvs as [|[k0 v0] kvs IH]; intros t Ht Hv.
  - exists t. split_and!; auto. intros k v Hin. by apply not_elem_of_nil in Hin.
  - apply list.Forall_cons in Hv as [[Hk0 Hv0] Hv].
    destruct (law_tx_put t k0 v0 Ht Hk0 Hv0) as (t1 & E1 & Ht1 & V1).
    destruct (IH t1 Ht1 Hv) as (t2 & E2 & Ht2 & Vo & Vn). exists t2. cbn [put_each]. rewrite E1. cbn [mbind res_bind].
    split_and!; auto.
    + intros k [Hne Hk]%not_elem_of_cons. cbn in Hne. by rewrite Vo, V1, lookup_insert_ne.
    + intros k v Hin Hf. destruct (decide (k ∈ kvs.*1)) as [Hk|Hk].
      * apply list_elem_of_fmap in Hk as ([k' v'] & -> & Hin'). cbn in *.
        assert (v' = v) as -> by (apply Hf; by right). apply Vn; [done|]. intros v' Hv'. apply Hf. by right.
      * rewrite Vo, V1 by done. apply elem_of_cons in Hin as [E|Hin]; [injection E as -> ->; by rewrite lookup_insert_eq|].
        destruct Hk. apply list_elem_of_fmap. by exists (k, v).
Qed.

(** A key and a list of index entries are written. *)
Lemma repr_put c c' t a a' K0 v0 es : t_inv t -> repr c (view t) a ->
  (forall n, get_table c' n = a_tables a' !! n) -> (forall n, get_index c' n = a_indexes a' !! n) ->
  NoDup (tables c').*1 /\ NoDup (indexes c').*1 ->
  valid K0 -> v0 <> TOMBSTONE -> content a' K0 = Some v0 ->
  (forall k v, (k, v) ∈ es -> v <> TOMBSTONE /\ exists K, valid K /\ k = enc_key K /\ content a' K = Some v) ->
  (forall K, valid K -> K <> K0 -> enc_key K ∉ es.*1 -> content a' K = content a K) ->
  exists t1 t', tx_put t (enc_key K0) v0 = Ok t1 /\ t_inv t1 /\ view t1 = <[enc_key K0 := v0]> (view t) /\
  put_each t1 es = Ok t' /\ t_inv t' /\ repr c' (view t') a'.
Proof.
  intros Hi Hre Ht Hx Hn HvK0 Hv0 H0 Hes Hsame.
  destruct (law_tx_put t (enc_key K0) v0 Hi (rel_keys K0 HvK0) Hv0) as (t1 & E1 & Hi1 & V1).
  destruct (put_each_spec es t1 Hi1) as (t' & E2 & Hi' & Vo & Vn); [apply list.Forall_forall; intros [k v] Hin; destruct (Hes k v Hin) as (? & K & ? & -> & _); split; [by apply rel_keys|done]|].
  exists t1, t'. split_and!; auto. split; auto.
  - intros K HvK. destruct (decide (enc_key K ∈ es.*1)) as [Hin|Hin].
    + apply list_elem_of_fmap in Hin as ([k v] & Ek & Hin). cbn in Ek. subst k.
      assert (Hc : forall v', (enc_key K, v') ∈ es -> content a' K = Some v').
      { intros v' Hv'. destruct (Hes _ _ Hv') as (_ & K' & HvK' & EK & <-). by apply enc_key_inj in EK as <-. }
      rewrite (Hc v Hin). apply Vn; [done|]. intros v' Hv'. pose proof (Hc v' Hv') as E. rewrite (Hc v Hin) in E. by injection E.
    + rewrite Vo, V1 by done. destruct (decide (enc_key K0 = enc_key K)) as [E|Hne].
      * apply enc_key_inj in E as <-; auto. by rewrite lookup_insert_eq.
      * rewrite lookup_insert_ne by done. rewrite (r_lookup _ _ _ Hre), Hsame; auto. by intros ->.
  - intros k Hk. destruct (decide (k ∈ es.*1)) as [Hin|Hin].
    + apply list_elem_of_fmap in Hin as ([k' v] & -> & Hin). destruct (Hes _ _ Hin) as (_ & K & ? & ? & _). by exists K.
    + rewrite Vo, V1 in Hk by done. destruct (decide (enc_key K0 = k)) as [<-|Hne]; [by exists K0|].
      rewrite lookup_insert_ne in Hk by done. by apply (r_keys _ _ _ Hre).
Qed.

(** A key outside a set of the form "this key or one of these entries". *)
Ltac not_here := right; intros [E|(? & ? & E)]; first [discriminate E | injection E; intros; subst; tauto].


(** *** Scans *)

Lemma row_valid a t pk row : wf a -> a_rows a !! (t, pk) = Some row -> valid (KRow t pk) /\ field_ok pk.
Proof.
  intros Hwf Hr. destruct (wf_row _ Hwf _ _ _ Hr) as (s & Hs & [_ Hf] & Hpk).
  destruct (wf_table _ Hwf _ _ Hs) as (_ & Ht & _). assert (Hp : field_ok pk) by (by eapply Forall_lookup_1).
  split; [|done]. split; [done|apply Hp].
Qed.

Lemma scan_rows c M a t k v : repr c M a -> wf a -> table_name t ->
  (k, v) ∈ map_range M (t ++ [47%N]) (t ++ 47%N :: HI) <->
  exists pk row, a_rows a !! (t, pk) = Some row /\ k = row_key t pk /\ v = row_encode row.
Proof.
  intros Hre Hwf Ht. rewrite elem_of_map_range. replace (t ++ 47%N :: HI) with ((t ++ [47%N]) ++ HI) by (by rewrite <- (assoc app)). split.
  - intros (Hk & H1 & H2). destruct (between_prefix _ _ _ H1 H2) as [r Er].
    destruct (r_keys _ _ _ Hre k) as (K & HvK & EK); [by rewrite Hk|].
    assert (K = KRow t r) as -> by (apply key_row; auto; rewrite <- EK, Er; unfold row_key; by rewrite <- (assoc app)).
    rewrite EK, (r_lookup _ _ _ Hre _ HvK) in Hk. cbn [content] in Hk.
    apply fmap_Some in Hk as (row & Hrow & ->). by exists r, row.
  - intros (pk & row & Hrow & -> & ->). destruct (row_valid a t pk row Hwf Hrow) as [HvK Hf]. split_and!.
    + pose proof (r_lookup _ _ _ Hre _ HvK) as E. cbn [enc_key content] in E. by rewrite E, Hrow.
    + unfold row_key. change (47%N :: pk) with ([47%N] ++ pk). rewrite (assoc app). apply str_le_prefix.
    + unfold row_key. change (47%N :: pk) with ([47%N] ++ pk). rewrite (assoc app). apply str_le_app, text_ok_hi, HvK.
Qed.

Lemma scan_entries c M a t col k v : repr c M a -> name_ok t -> name_ok col ->
  (k, v) ∈ map_range M (index_prefix t col) (index_prefix t col ++ HI) <->
  exists enc pk, valid (KEntry t col enc pk) /\ k = index_key t col enc pk /\ content a (KEntry t col enc pk) = Some v.
Proof.
  intros Hre Ht Hc. rewrite elem_of_map_range. split.
  - intros (Hk & H1 & H2). destruct (between_prefix _ _ _ H1 H2) as [r Er].
    destruct (r_keys _ _ _ Hre k) as (K & HvK & EK); [by rewrite Hk|].
    destruct (key_entry K t col r) as (enc & pk & -> & _); auto; [by rewrite <- EK|].
    exists enc, pk. split_and!; auto. rewrite EK, (r_lookup _ _ _ Hre _ HvK) in Hk. done.
  - intros (enc & pk & HvK & -> & Hv). pose proof (r_lookup _ _ _ Hre _ HvK) as E. cbn [enc_key] in E. split_and!.
    + by rewrite E.
    + apply str_le_prefix.
    + apply str_le_app, entry_le_hi, HvK.
Qed.

(** The entries of an index are deleted, and nothing else. *)
Lemma delete_prefix_spec c a t tb col : t_inv t -> repr c (view t) a -> name_ok tb -> name_ok col ->
  exists t', delete_prefix t (index_prefix tb col) = Ok t' /\ t_inv t' /\
  (forall enc pk, valid (KEntry tb col enc pk) -> view t' !! index_key tb col enc pk = None) /\
  (forall K, valid K -> (forall enc pk, K <> KEntry tb col enc pk) -> view t' !! enc_key K = view t !! enc_key K) /\
  (forall k, is_Some (view t' !! k) -> is_Some (view t !! k)).
Proof.
  intros Hi Hre Ht Hc. unfold delete_prefix. rewrite law_tx_scan by (auto using prefix_scan, index_prefix_text). cbn [mbind res_bind].
  destruct (delete_all_spec (map_range (view t) (index_prefix tb col) (index_prefix tb col ++ HI)).*1 t Hi (stored_keys c a t _ _ Hre))
    as (t' & -> & Hi' & V).
  exists t'. split_and!; auto.
  - intros enc pk HvK. rewrite V. case_decide as Hin; [done|]. destruct (view t !! index_key tb col enc pk) as [v|] eqn:E; [|done].
    destruct Hin. apply list_elem_of_fmap. exists (index_key tb col enc pk, v). split; [done|].
    apply (scan_entries c (view t) a); auto. exists enc, pk. split_and!; auto. by rewrite <- (r_lookup _ _ _ Hre _ HvK).
  - intros K HvK Hne. rewrite V. case_decide as Hin; [|done]. apply list_elem_of_fmap in Hin as ([k v] & E & Hin).
    apply (scan_entries c (view t) a) in Hin as (enc & pk & HvE & -> & _); auto. cbn in E.
    destruct (Hne enc pk). by apply enc_key_inj.
  - intros k. rewrite V. by case_decide; [intros []|].
Qed.

(** *** Statements on the catalog *)

Lemma indexed_insert ts rs m n d t col : m !! n = None ->
  indexed (Adb ts (<[n := d]> m) rs) t col <-> (i_table d = t /\ i_column d = col) \/ indexed (Adb ts m rs) t col.
Proof. intros Hn. unfold indexed. cbn. by rewrite map_Exists_insert. Qed.

Lemma indexed_delete ts rs m n d t col : m !! n = Some d ->
  (forall n' d', m !! n' = Some d' -> i_table d = i_table d' -> i_column d = i_column d' -> n = n') ->
  indexed (Adb ts (base.delete n m) rs) t col <-> ~ (i_table d = t /\ i_column d = col) /\ indexed (Adb ts m rs) t col.
Proof.
  intros Hn Hu. unfold indexed. cbn [a_indexes]. split.
  - intros (n' & d' & [Hne Hd]%lookup_delete_Some & <- & <-). split; [|by exists n', d'].
    intros [E1 E2]. destruct Hne. eapply Hu; eauto.
  - intros (Hne & n' & d' & Hd & E1 & E2). exists n', d'. split; [|done]. apply lookup_delete_Some. split; [|done].
    intros <-. destruct Hne. rewrite Hn in Hd. by injection Hd as ->.
Qed.

Lemma serialize_not_tombstone fs : fs <> [] -> row_encode fs <> TOMBSTONE.
Proof.
  destruct fs as [|f fs]; [done|]. intros _ E. unfold row_encode in E. cbn [map concat] in E.
  destruct (str_of_N_digits (N.of_nat (length f))) as (Hne & Hd & _). destruct (str_of_N _) as [|c ds]; [done|].
  cbn [app] in E. injection E as -> _. cbn in Hd. done.
Qed.

Lemma content_entry_eq a a' t col enc pk :
  a_rows a' !! (t, pk) = a_rows a !! (t, pk) ->
  (is_Some (a_rows a !! (t, pk)) -> a_tables a' !! t = a_tables a !! t /\ (indexed a' t col <-> indexed a t col)) ->
  content a' (KEntry t col enc pk) = content a (KEntry t col enc pk).
Proof.
  intros Er Hi. cbn. rewrite Er. destruct (a_rows a !! (t, pk)) as [row|]; [|done]. cbn.
  destruct Hi as [-> Hx]; [done|]. destruct (a_tables a !! t); [|done]. cbn. apply decide_ext. by rewrite Hx.
Qed.

(** The removal of an index. *)
Lemma drop_index_refines c a t n d : t_inv t -> repr c (view t) a -> wf a -> a_indexes a !! n = Some d ->
  let a' := Adb (a_tables a) (base.delete n (a_indexes a)) (a_rows a) in
  exists t1 c' t', delete_prefix t (index_prefix (i_table d) (i_column d)) = Ok t1 /\ cat_drop_index c n t1 = Ok (c', t') /\
  t_inv t' /\ repr c' (view t') a' /\ wf a' /\ tables c' = tables c /\ indexes c' = dict_pop (indexes c) n.
Proof.
  intros Hi Hre Hwf Hn a'. destruct (wf_index _ Hwf n d Hn) as (En & Htn & Hcol & s & Hs & _).
  destruct (wf_table _ Hwf _ _ Hs) as (_ & [Htb _] & _).
  destruct (delete_prefix_spec c a t (i_table d) (i_column d)) as (t1 & E1 & Hi1 & V1 & V2 & V3); auto.
  destruct (law_tx_delete t1 (INDEX_PREFIX ++ n) Hi1 (rel_keys (KIndex n) Htn)) as (t' & E2 & Hi' & V').
  exists t1, (Catalog (tables c) (dict_pop (indexes c) n)), t'. unfold cat_drop_index. rewrite E2. cbn [mbind res_bind].
  assert (Hwf' : wf a').
  { destruct Hwf as [W1 W2 W3 W4]. split; auto; cbn.
    - intros n' d' [_ Hd']%lookup_delete_Some. eauto.
    - intros n1 n2 d1 d2 [_ ?]%lookup_delete_Some [_ ?]%lookup_delete_Some. eauto. }
  split_and!; auto. destruct (r_nodup _ _ _ Hre) as [N1 N2].
  apply (repr_update (fun K => K = KIndex n \/ exists enc pk, K = KEntry (i_table d) (i_column d) enc pk) c _ (view t) _ a); auto.
  - apply (r_tables _ _ _ Hre).
  - intros n'. unfold get_index. cbn. rewrite dict_get_pop by done. pose proof (r_indexes _ _ _ Hre n') as E. unfold get_index in E.
    case_decide; [subst; by rewrite lookup_delete_eq|by rewrite lookup_delete_ne].
  - split; [done|by apply dict_pop_NoDup].
  - intros [n'|n'|t'' pk|t'' col enc pk]; try not_here.
    + destruct (decide (n' = n)) as [->|]; [left; by left|not_here].
    + destruct (decide (t'' = i_table d /\ col = i_column d)) as [[-> ->]|]; [left; eauto|not_here].
  - intros K HvK [->|(enc & pk & ->)]; cbn [enc_key content]; rewrite V'.
    + by rewrite lookup_delete_eq; cbn; rewrite lookup_delete_eq.
    + rewrite lookup_delete_ne by (intros E; by apply (enc_key_inj (KIndex n) (KEntry (i_table d) (i_column d) enc pk)) in E).
      rewrite V1 by done. destruct (a_rows a' !! _); [|done]. cbn. destruct (a_tables a !! _); [|done]. cbn.
      rewrite decide_False; [done|]. intros [Hx _]. apply (indexed_delete _ _ _ n d) in Hx as [[] _]; auto.
      intros n' d' Hn' ? ?. eapply (wf_unique _ Hwf n n'); eauto.
  - intros K HvK HD. rewrite V', lookup_delete_ne, V2; [done|done|naive_solver|].
    intros E. apply (enc_key_inj (KIndex n) K) in E; auto.
  - intros k Hk. left. apply V3. rewrite V' in Hk. destruct Hk as [v [_ Hk]%lookup_delete_Some]. by rewrite Hk.
  - intros [n'|n'|t'' pk|t'' col enc pk] HvK HD; cbn [content]; auto.
    + cbn. rewrite lookup_delete_ne by naive_solver. done.
    + apply content_entry_eq; [done|]. intros _. split; [done|]. unfold a'.
      rewrite (indexed_delete _ _ _ n d); [|done|intros n' d' Hn' ? ?; by eapply (wf_unique _ Hwf n n')].
      split; [by intros [_ ?]|]. intros Hx. split; [|by destruct a]. intros [E1' E2']. subst. destruct HD. eauto.
Qed.

(** *** Rows and index entries *)

Lemma indexes_for_table_elem c M a t d : repr c M a -> wf a ->
  d ∈ indexes_for_table c t <-> a_indexes a !! i_name d = Some d /\ i_table d = t.
Proof.
  intros Hre Hwf. unfold indexes_for_table. rewrite list_elem_of_filter, list_elem_of_fmap.
  destruct (r_nodup _ _ _ Hre) as [_ N2]. split.
  - intros (Ht & [n d'] & -> & Hin). split; [|done]. apply (dict_get_elem _ _ _ N2) in Hin.
    pose proof (r_indexes _ _ _ Hre n) as E. unfold get_index in E. rewrite Hin in E. symmetry in E.
    destruct (wf_index _ Hwf _ _ E) as (<- & _). done.
  - intros [Hd Ht]. split; [done|]. exists (i_name d, d). split; [done|]. apply dict_get_elem; [done|].
    pose proof (r_indexes _ _ _ Hre (i_name d)) as E. unfold get_index in E. by rewrite E.
Qed.

Lemma indexes_for_table_indexed c M a t col : repr c M a -> wf a ->
  indexed a t col <-> exists d, d ∈ indexes_for_table c t /\ i_column d = col.
Proof.
  intros Hre Hwf. split.
  - intros (n & d & Hd & <- & <-). exists d. split; [|done]. apply (indexes_for_table_elem c M a); auto.
    by destruct (wf_index _ Hwf _ _ Hd) as (-> & _).
  - intros (d & [Hd Ht]%(indexes_for_table_elem c M a) & Hc); auto. by exists (i_name d), d.
Qed.

Lemma index_for_column_spec c M a t col : repr c M a -> wf a ->
  match index_for_column c t col with
  | Some d => a_indexes a !! i_name d = Some d /\ i_table d = t /\ i_column d = col
  | None => ~ indexed a t col
  end.
Proof.
  intros Hre Hwf. unfold index_for_column.
  assert (Hf : forall d, d ∈ filter (fun d => i_table d = t /\ i_column d = col) (indexes c).*2 <->
    d ∈ indexes_for_table c t /\ i_column d = col)
    by (intros d; unfold indexes_for_table; rewrite !list_elem_of_filter; tauto).
  destruct (filter _ _) as [|d l]; cbn [head].
  - intros (d & Hd)%(indexes_for_table_indexed c M a); auto. apply Hf in Hd. by apply not_elem_of_nil in Hd.
  - destruct (proj1 (Hf d)) as [Hd Hc]; [by left|]. apply (indexes_for_table_elem c M a) in Hd as [? ?]; auto.
Qed.

Lemma column_index_loop_bound cols name i j : column_index_loop cols name i = Some j -> (i <= j < i + length cols)%nat.
Proof.
  revert i. induction cols as [|x cols IH]; intros i; cbn; [done|]. case_bool_decide; [intros [= ->]; lia|].
  intros Hj%IH. lia.
Qed.

Lemma column_field s row col i : row_ok s row -> column_index s col = Some i -> exists v, row !! i = Some v /\ field_ok v.
Proof.
  intros [Hl Hf] Hi. apply column_index_loop_bound in Hi. destruct (lookup_lt_is_Some_2 row i) as [v Hv]; [lia|].
  exists v. split; [done|]. by eapply Forall_lookup_1.
Qed.

Lemma index_entry_ok tb s col row pk : row_ok s row -> row !! 0%nat = Some pk -> is_Some (column_index s col) ->
  index_entry tb s col row = Ok (index_key tb col (enc_of s col row) pk, pk) /\ text_ok (enc_of s col row).
Proof.
  intros Hr Hpk [i Hi]. destruct (column_field s row col i Hr Hi) as (v & Hv & Hf). unfold index_entry, enc_of.
  rewrite Hi. cbn [field mbind option_bind]. unfold nth_res. rewrite Hv, Hpk. cbn. split; [done|].
  apply type_encode_text, Hf.
Qed.

(** The entries of a row for the indexes of its table. *)
Lemma entries_ok c M a t s row pk : repr c M a -> wf a -> a_tables a !! t = Some s -> row_ok s row -> row !! 0%nat = Some pk ->
  exists es, mapM (fun d => index_entry t s (i_column d) row) (indexes_for_table c t) = Ok es /\
  forall k v, (k, v) ∈ es <-> exists col, indexed a t col /\ k = index_key t col (enc_of s col row) pk /\ v = pk.
Proof.
  intros Hre Hwf Hs Hr Hpk.
  assert (Hall : forall d, d ∈ indexes_for_table c t -> is_Some (column_index s (i_column d))).
  { intros d [Hd Ht]%(indexes_for_table_elem c M a); auto. destruct (wf_index _ Hwf _ _ Hd) as (_ & _ & _ & s' & Hs' & Hci).
    rewrite Ht, Hs in Hs'. by injection Hs' as ->. }
  exists (map (fun d => (index_key t (i_column d) (enc_of s (i_column d) row) pk, pk)) (indexes_for_table c t)). split.
  - revert Hall. generalize (indexes_for_table c t) as l. induction l as [|d l IH]; intros Hall; [done|]. cbn [mapM map].
    destruct (index_entry_ok t s (i_column d) row pk Hr Hpk (Hall d (list_elem_of_here _ _))) as [-> _]. cbn [mbind res_bind].
    by rewrite IH by (intros d' Hd'; apply Hall; by right).
  - intros k v. rewrite list_elem_of_fmap. split.
    + intros (d & [= -> ->] & Hd). exists (i_column d). split_and!; auto. apply (indexes_for_table_indexed c M a); eauto.
    + intros (col & Hx & -> & ->). apply (indexes_for_table_indexed c M a) in Hx as (d & Hd & <-); auto. by exists d.
Qed.

(** Where an entry of the store comes from. *)
Lemma content_entry a t col enc pk v : wf a ->
  content a (KEntry t col enc pk) = Some v <->
  v = pk /\ indexed a t col /\ exists row s, a_rows a !! (t, pk) = Some row /\ a_tables a !! t = Some s /\ enc_of s col row = enc.
Proof.
  intros Hwf. cbn [content]. split.
  - destruct (a_rows a !! (t, pk)) as [row|]; [|done]. cbn. destruct (a_tables a !! t) as [s|]; [|done]. cbn.
    case_decide as Hx; [|done]. intros [= <-]. destruct Hx. split_and!; eauto.
  - intros (-> & Hx & row & s & -> & -> & He). cbn. by rewrite decide_True.
Qed.

Lemma indexed_name a t col : wf a -> indexed a t col -> name_ok col /\ exists s, a_tables a !! t = Some s /\ is_Some (column_index s col).
Proof. intros Hwf (n & d & Hd & <- & <-). destruct (wf_index _ Hwf _ _ Hd) as (_ & _ & ? & ?). done. Qed.

Lemma entry_valid a t col s row pk : wf a -> a_tables a !! t = Some s -> indexed a t col -> row_ok s row -> row !! 0%nat = Some pk ->
  valid (KEntry t col (enc_of s col row) pk).
Proof.
  intros Hwf Hs Hx Hr Hpk. destruct (indexed_name a t col Hwf Hx) as (Hn & s' & Hs' & Hci). rewrite Hs in Hs'. injection Hs' as <-.
  destruct (wf_table _ Hwf _ _ Hs) as (_ & [Ht _] & _). destruct (index_entry_ok t s col row pk Hr Hpk Hci) as [_ He].
  split_and!; auto. destruct Hr as [_ Hf]. by destruct (Forall_lookup_1 _ _ _ _ Hf Hpk).
Qed.

(** A row of a table has the table's columns and is stored under its first field. *)
Lemma table_row a t pk s row : wf a -> a_tables a !! t = Some s -> a_rows a !! (t, pk) = Some row ->
  row_ok s row /\ row !! 0%nat = Some pk.
Proof. intros Hwf Hs Hr. destruct (wf_row _ Hwf _ _ _ Hr) as (s' & Hs' & ?). rewrite Hs in Hs'. by injection Hs' as <-. Qed.

(** *** Writes *)

Lemma create_table_refines c a t tb cols : t_inv t -> repr c (view t) a -> wf a -> a_tables a !! tb = None ->
  table_name tb -> cols <> [] ->
  let a' := Adb (<[tb := Schema tb cols]> (a_tables a)) (a_indexes a) (a_rows a) in
  exists c' t', cat_create_table c (Schema tb cols) t = Ok (c', t') /\ t_inv t' /\ repr c' (view t') a' /\ wf a'.
Proof.
  intros Hi Hre Hwf Hno Htb Hcols a'.
  assert (Hv : valid (KTable tb)) by apply Htb.
  destruct (law_tx_put t (TABLE_PREFIX ++ tb) (schema_serialize (Schema tb cols)) Hi) as (t' & E & Hi' & V);
    [by apply (rel_keys (KTable tb))|by apply serialize_not_tombstone|].
  eexists _, t'. unfold cat_create_table. cbn [s_name]. rewrite E. cbn [mbind res_bind]. split_and!; [done|done| |].
  - apply (repr_update (fun K => K = KTable tb) c _ (view t) _ a); auto.
    + intros n. unfold get_table. cbn. rewrite dict_get_set. pose proof (r_tables _ _ _ Hre n) as E'. unfold get_table in E'.
      case_decide; [subst; by rewrite lookup_insert_eq|by rewrite lookup_insert_ne].
    + apply (r_indexes _ _ _ Hre).
    + destruct (r_nodup _ _ _ Hre). split; [by apply dict_set_NoDup|done].
    + intros [n| | |]; try (by right). destruct (decide (n = tb)) as [->|]; [by left|right; congruence].
    + intros K _ ->. cbn [enc_key content]. rewrite V, lookup_insert_eq. cbn. by rewrite lookup_insert_eq.
    + intros K HvK HD. rewrite V, lookup_insert_ne; [done|]. intros E'. by apply (enc_key_inj (KTable tb) K) in E' as <-.
    + intros k. rewrite V. destruct (decide (k = TABLE_PREFIX ++ tb)) as [->|Hne]; [right; by exists (KTable tb)|].
      rewrite lookup_insert_ne by done. by left.
    + intros [n|n|t1 pk|t1 col enc pk] HvK HD; cbn [content]; auto.
      * cbn. rewrite lookup_insert_ne by congruence. done.
      * apply content_entry_eq; [done|]. intros [row Hrow]. split; [|done]. cbn.
        destruct (wf_row _ Hwf _ _ _ Hrow) as (s & Hs & _). rewrite lookup_insert_ne by congruence. done.
  - destruct Hwf as [W1 W2 W3 W4]. split; cbn; auto.
    + intros n s. destruct (decide (n = tb)) as [->|Hne]; [rewrite lookup_insert_eq; by intros [= <-]|].
      rewrite lookup_insert_ne by done. apply W1.
    + intros n d Hd. destruct (W2 n d Hd) as (? & ? & ? & s & Hs & ?). split_and!; auto. exists s.
      rewrite lookup_insert_ne by congruence. done.
    + intros t1 pk row Hr. destruct (W4 _ _ _ Hr) as (s & Hs & ?). exists s. rewrite lookup_insert_ne by congruence. done.
Qed.

Lemma insert_refines c a t tb s row pk : t_inv t -> repr c (view t) a -> wf a -> a_tables a !! tb = Some s ->
  row_ok s row -> row !! 0%nat = Some pk -> a_rows a !! (tb, pk) = None ->
  let a' := Adb (a_tables a) (a_indexes a) (<[(tb, pk) := row]> (a_rows a)) in
  exists t1 es t', tx_put t (row_key tb pk) (row_encode row) = Ok t1 /\
  mapM (fun d => index_entry tb s (i_column d) row) (indexes_for_table c tb) = Ok es /\ put_each t1 es = Ok t' /\
  t_inv t' /\ repr c (view t') a' /\ wf a'.
Proof.
  intros Hi Hre Hwf Hs Hr Hpk Hno a'. pose proof (wf_table _ Hwf _ _ Hs) as (_ & Htb & _).
  assert (Hf : field_ok pk) by (destruct Hr; by eapply Forall_lookup_1).
  assert (Hwf' : wf a').
  { destruct Hwf as [W1 W2 W3 W4]. split; cbn; auto. intros t2 pk2 row2.
    destruct (decide ((t2, pk2) = (tb, pk))) as [E|Hne]; [|rewrite lookup_insert_ne by done; apply W4].
    injection E as -> ->. rewrite lookup_insert_eq. intros [= <-]. by exists s. }
  destruct (entries_ok c (view t) a tb s row pk) as (es & E2 & Hes); auto.
  destruct (repr_put c c t a a' (KRow tb pk) (row_encode row) es) as (t1 & t' & ? & _ & _ & ? & ? & ?); auto.
  - apply (r_tables _ _ _ Hre).
  - apply (r_indexes _ _ _ Hre).
  - apply (r_nodup _ _ _ Hre).
  - split; [done|apply Hf].
  - apply serialize_not_tombstone. by destruct row.
  - cbn. by rewrite lookup_insert_eq.
  - intros k v (col & Hx & -> & ->)%Hes. split; [apply Hf|]. exists (KEntry tb col (enc_of s col row) pk).
    split_and!; [by apply (entry_valid a)|done|]. apply content_entry; [done|]. split_and!; auto. exists row, s. split_and!; auto.
    cbn. by rewrite lookup_insert_eq.
  - intros [n|n|t2 pk2|t2 col enc pk2] HvK HK Hnin; cbn [content]; auto; [cbn; by rewrite lookup_insert_ne by congruence|].
    destruct (decide (t2 = tb /\ pk2 = pk)) as [[-> ->]|Hne]; [|apply content_entry_eq; [cbn; by rewrite lookup_insert_ne by naive_solver|done]].
    cbn. rewrite Hno, lookup_insert_eq. cbn. rewrite Hs. cbn. case_decide as Hx; [|done]. destruct Hx as [Hx <-]. destruct Hnin.
    apply list_elem_of_fmap. eexists (_, pk). split; [|apply Hes; by exists col]. done.
  - exists t1, es, t'. by split_and!.
Qed.

(** Rows are deleted together with their entries. *)
Lemma delete_refines c a t tb s (P : list str -> Prop) `{!forall row, Decision (P row)} keys :
  t_inv t -> repr c (view t) a -> wf a -> a_tables a !! tb = Some s ->
  (forall k, k ∈ keys <-> exists pk row, a_rows a !! (tb, pk) = Some row /\ P row /\
     (k = row_key tb pk \/ exists col, indexed a tb col /\ k = index_key tb col (enc_of s col row) pk)) ->
  let a' := Adb (a_tables a) (a_indexes a) (filter (fun tr => ~ (tr.1.1 = tb /\ P tr.2)) (a_rows a)) in
  exists t', delete_all t keys = Ok t' /\ t_inv t' /\ repr c (view t') a' /\ wf a'.
Proof.
  intros Hi Hre Hwf Hs Hkeys a'. destruct (delete_all_spec keys t Hi) as (t' & E & Hi' & V).
  { apply list.Forall_forall. intros k (pk & row & Hr & _ & Hor)%Hkeys. destruct (table_row a tb pk s row Hwf Hs Hr) as [Hok Hpk].
    destruct Hor as [->|(col & Hx & ->)]; [apply (rel_keys (KRow tb pk)); by eapply row_valid|].
    by apply (rel_keys (KEntry tb col (enc_of s col row) pk)), (entry_valid a). }
  exists t'.
  assert (Hk : forall K, valid K -> enc_key K ∈ keys -> exists pk row, a_rows a !! (tb, pk) = Some row /\ P row /\
    (K = KRow tb pk \/ exists col, indexed a tb col /\ K = KEntry tb col (enc_of s col row) pk)).
  { intros K HvK (pk & row & Hr & HP & [EK|(col & Hx & EK)])%Hkeys; exists pk, row; split_and!; auto.
    - left. apply enc_key_inj; auto. by eapply row_valid.
    - right. exists col. split; [done|]. apply enc_key_inj; auto. destruct (wf_row _ Hwf _ _ _ Hr) as (s' & Hs' & Hrow & Hpk).
      rewrite Hs in Hs'. injection Hs' as <-. by apply (entry_valid a). }
  assert (Hf : forall t2 pk2, a_rows a' !! (t2, pk2) =
    match a_rows a !! (t2, pk2) with Some row => if decide (t2 = tb /\ P row) then None else Some row | None => None end).
  { intros t2 pk2. cbn. destruct (a_rows a !! (t2, pk2)) as [row|] eqn:Er.
    - case_decide as Hd; [apply map_lookup_filter_None_2; right; intros row' Hrow'; rewrite Er in Hrow'; injection Hrow' as <-; cbn; auto|].
      by apply map_lookup_filter_Some_2.
    - apply map_lookup_filter_None_2. by left. }
  split_and!; auto.
  - split.
    + apply (r_tables _ _ _ Hre).
    + apply (r_indexes _ _ _ Hre).
    + apply (r_nodup _ _ _ Hre).
    + intros K HvK. rewrite V, (r_lookup _ _ _ Hre _ HvK). case_decide as Hin.
      * destruct (Hk K HvK Hin) as (pk & row & Hr & HP & [->|(col & Hx & ->)]); cbn [content]; rewrite Hf, Hr, decide_True by done; done.
      * destruct K as [n|n|t2 pk2|t2 col enc pk2]; cbn [content]; auto; rewrite Hf.
        -- destruct (a_rows a !! (t2, pk2)) as [row|] eqn:Er; [|done]. case_decide as Hd; [|done]. destruct Hd as [-> HP].
           destruct Hin. apply Hkeys. exists pk2, row. auto.
        -- destruct (a_rows a !! (t2, pk2)) as [row|] eqn:Er; [|done]. case_decide as Hd; [|done]. destruct Hd as [-> HP].
           cbn. rewrite Hs. cbn. case_decide as Hx; [|done]. destruct Hx as [Hx <-]. destruct Hin. apply Hkeys.
           exists pk2, row. split_and!; auto. right. exists col. done.
    + intros k. rewrite V. case_decide; [by intros []|]. apply (r_keys _ _ _ Hre).
  - destruct Hwf as [W1 W2 W3 W4]. split; cbn; auto. intros t2 pk2 row2 [Hr _]%map_lookup_filter_Some. by apply W4.
Qed.

(** *** Lists of results *)

Lemma mapM_res {A B} (f : A -> res B) (R : A -> B -> Prop) l : (forall x, x ∈ l -> exists y, f x = Ok y /\ R x y) ->
  exists ys, mapM f l = Ok ys /\ Forall2 R l ys.
Proof.
  induction l as [|x l IH]; intros Hall; [by exists []|]. destruct (Hall x) as (y & Ey & HR); [left|].
  destruct IH as (ys & Eys & HRs); [intros x' Hx'; apply Hall; by right|]. exists (y :: ys). cbn. rewrite Ey. cbn. rewrite Eys. cbn.
  split; [done|by constructor].
Qed.

Lemma Forall2_elem {A B} (R : A -> B -> Prop) l ys : Forall2 R l ys ->
  (forall y, y ∈ ys -> exists x, x ∈ l /\ R x y) /\ (forall x, x ∈ l -> exists y, y ∈ ys /\ R x y).
Proof.
  induction 1 as [|x y l ys HR _ [IH1 IH2]]; [split; intros ? ?%not_elem_of_nil; done|].
  split; intros z; rewrite elem_of_cons; (intros [->|Hz]; [eexists; split; [left|done]|]).
  - destruct (IH1 z Hz) as (x' & ? & ?). exists x'. split; [by right|done].
  - destruct (IH2 z Hz) as (y' & ? & ?). exists y'. split; [by right|done].
Qed.

(** The rows of a table that satisfy a condition. *)
Definition sat (s : schema) (w : option expr) (row : list str) : Prop :=
  match w with None => True | Some e => eval e s row = Ok true end.
#[local] Instance sat_dec s w row : Decision (sat s w row).
Proof.
  destruct w as [e|]; cbn; [|apply _]. destruct (eval e s row) as [[]|x]; [by left|right; congruence|right; congruence].
Defined.

Definition matching (a : adb) (t : str) (s : schema) (w : option expr) : gmap (str * str) (list str) :=
  filter (fun tr => tr.1.1 = t /\ sat s w tr.2) (a_rows a).

Lemma matching_lookup a t s w t' pk row :
  matching a t s w !! (t', pk) = Some row <-> a_rows a !! (t', pk) = Some row /\ t' = t /\ sat s w row.
Proof. unfold matching. by rewrite map_lookup_filter_Some. Qed.

(** A list of the rows with their keys, without repetition, is the table. *)
Lemma rows_perm a t s w (L : list (str * list str)) : NoDup L.*1 ->
  (forall k row, (k, row) ∈ L <-> exists pk, k = row_key t pk /\ a_rows a !! (t, pk) = Some row /\ sat s w row) ->
  L.*2 ≡ₚ (map_to_list (matching a t s w)).*2 /\ length L = size (matching a t s w).
Proof.
  intros Hnd HL. set (F := matching a t s w).
  assert (Hp : L ≡ₚ (fun tr : (str * str) * list str => (row_key t tr.1.2, tr.2)) <$> map_to_list F).
  { apply NoDup_Permutation.
    - by apply (NoDup_fmap_1 fst).
    - apply NoDup_fmap_2_strong; [|apply NoDup_map_to_list]. intros [[t1 p1] r1] [[t2 p2] r2] H1 H2 E.
      apply elem_of_map_to_list, matching_lookup in H1 as (_ & -> & _), H2 as (_ & -> & _). cbn in E. injection E as E ->.
      unfold row_key in E. apply (inj (app t)) in E. by injection E as ->.
    - intros [k row]. rewrite HL, list_elem_of_fmap. split.
      + intros (pk & -> & Hr & Hw). exists ((t, pk), row). split; [done|]. by apply elem_of_map_to_list, matching_lookup.
      + intros ([[t1 pk] r] & [= -> ->] & (? & -> & ?)%elem_of_map_to_list%matching_lookup). by exists pk. }
  split.
  - rewrite Hp, <- list_fmap_compose. done.
  - rewrite (Permutation_length Hp), length_fmap. by rewrite <- length_map_to_list.
Qed.

Lemma eval_ok e s row : row_ok s row -> exists b, eval e s row = Ok b.
Proof.
  intros Hr. induction e as [op l IHl r IHr|e IH|n|v]; cbn [eval]; try (eexists; done).
  - destruct IHl as [bl Hl], IHr as [br Hrr].
    assert (Hcmp : forall n v op, exists b, (match column_index s n with
      | None => Ok false
      | Some i => col ← nth_res (s_columns s) i; x ← nth_res row i; Ok (cmp_holds op (type_compare (c_type col) x (value_str v)))
      end) = Ok b).
    { intros n v op'. destruct (column_index s n) as [i|] eqn:Hi; [|by eexists]. destruct (column_field s row n i Hr Hi) as (x & Hx & _).
      apply column_index_loop_bound in Hi. destruct (lookup_lt_is_Some_2 (s_columns s) i) as [col Hc]; [lia|].
      unfold nth_res. rewrite Hx, Hc. by eexists. }
    destruct op; try (rewrite Hl, Hrr; by eexists); destruct l; try (by eexists); destruct r; try (by eexists); apply Hcmp.
  - destruct IH as [b ->]. by eexists.
Qed.

Lemma where_rows_ok s w kvs : (forall k v, (k, v) ∈ kvs -> exists row, v = row_encode row /\ row_ok s row) ->
  exists L, where_rows s w kvs = Ok L /\ L.*1 `sublist_of` kvs.*1 /\
  forall k row, (k, row) ∈ L <-> (k, row_encode row) ∈ kvs /\ sat s w row.
Proof.
  induction kvs as [|[k0 v0] kvs IH]; intros Hall.
  { exists []. split_and!; [done|done|]. intros k row. rewrite !elem_of_nil. tauto. }
  destruct (Hall k0 v0) as (row0 & -> & Hr0); [left|]. destruct IH as (L & EL & Hsub & HL); [intros k v Hin; apply (Hall k); by right|].
  assert (Hb : exists b, match w with None => Ok true | Some e => eval e s row0 end = Ok b /\ (b = true <-> sat s w row0)).
  { destruct w as [e|]; [|by exists true]. destruct (eval_ok e s row0 Hr0) as [b Eb]. exists b. split; [done|]. cbn. rewrite Eb.
    split; [by intros ->|congruence]. }
  destruct Hb as (b & Eb & Hb). cbn [where_rows]. rewrite row_roundtrip. cbn [mbind res_bind]. rewrite Eb. cbn [mbind res_bind].
  rewrite EL. cbn [mbind res_bind]. eexists. split; [done|]. split.
  - destruct b; cbn; [by apply sublist_skip|by apply sublist_cons].
  - intros k row. rewrite elem_of_cons. destruct b.
    + rewrite elem_of_cons, HL. split.
      * intros [[= -> ->]|[? ?]]; [split; [by left|by apply Hb]|auto].
      * intros [[[= -> ->%row_encode_inj]|?] ?]; auto.
    + rewrite HL. split; [intros [? ?]; auto|]. intros [[[= -> ->%row_encode_inj]|?] Hs]; [|done]. apply Hb in Hs. done.
Qed.

(** A full scan returns the matching rows. *)
Lemma full_scan_ok c a t tb s w : t_inv t -> repr c (view t) a -> wf a -> a_tables a !! tb = Some s ->
  exists L, full_scan t tb s w = Ok L /\ NoDup L.*1 /\
  forall k row, (k, row) ∈ L <-> exists pk, k = row_key tb pk /\ a_rows a !! (tb, pk) = Some row /\ sat s w row.
Proof.
  intros Hi Hre Hwf Hs. pose proof (wf_table _ Hwf _ _ Hs) as (_ & Htb & _). unfold full_scan, scan_table.
  rewrite law_tx_scan by (auto using rows_scan). cbn [mbind res_bind].
  set (kvs := map_range (view t) (tb ++ [47%N]) (tb ++ 47%N :: HI)).
  assert (Hk : forall k v, (k, v) ∈ kvs <-> exists pk row, a_rows a !! (tb, pk) = Some row /\ k = row_key tb pk /\ v = row_encode row)
    by (intros k v; by apply (scan_rows c)).
  destruct (where_rows_ok s w kvs) as (L & -> & Hsub & HL).
  { intros k v (pk & row & Hr & _ & ->)%Hk. exists row. split; [done|]. destruct (wf_row _ Hwf _ _ _ Hr) as (s' & Hs' & ? & _). congruence. }
  exists L. split_and!; [done| |].
  - eapply sublist_NoDup; [|exact Hsub]. apply sorted_NoDup, map_range_sorted.
  - intros k row. rewrite HL, Hk. split.
    + intros [(pk & row' & Hr & -> & ->%row_encode_inj) ?]. by exists pk.
    + intros (pk & -> & Hr & ?). split; [|done]. by exists pk, row.
Qed.

(** The rows under a scan, as decoded rows. *)
Lemma scan_list a tb (kvs : list (str * str)) : NoDup kvs.*1 ->
  (forall k v, (k, v) ∈ kvs <-> exists pk row, a_rows a !! (tb, pk) = Some row /\ k = row_key tb pk /\ v = row_encode row) ->
  exists L, kvs = (fun kr : str * list str => (kr.1, row_encode kr.2)) <$> L /\ NoDup L.*1 /\
  (forall k row, (k, row) ∈ L <-> exists pk, k = row_key tb pk /\ a_rows a !! (tb, pk) = Some row).
Proof.
  intros Hnd Hk.
  assert (HL : exists L, kvs = (fun kr : str * list str => (kr.1, row_encode kr.2)) <$> L).
  { assert (Hall : forall k v, (k, v) ∈ kvs -> exists row, v = row_encode row) by (intros k v (? & row & _ & _ & ->)%Hk; by exists row).
    clear -Hall. induction kvs as [|[k v] kvs IH]; [by exists []|]. destruct (Hall k v) as [row ->]; [left|].
    destruct IH as [L ->]; [intros k' v' ?; apply (Hall k'); by right|]. by exists ((k, row) :: L). }
  destruct HL as [L ->]. exists L. split_and!; [done|by rewrite <- list_fmap_compose in Hnd|]. intros k row. split.
  - intros Hin. destruct (proj1 (Hk k (row_encode row))) as (pk & row' & Hr & -> & ->%row_encode_inj); [|by exists pk].
    apply list_elem_of_fmap. by exists (k, row).
  - intros (pk & -> & Hr). assert (Hin : (row_key tb pk, row_encode row) ∈ (fun kr : str * list str => (kr.1, row_encode kr.2)) <$> L)
      by (apply Hk; by exists pk, row).
    apply list_elem_of_fmap in Hin as ([k' row'] & [= -> ->%row_encode_inj] & ?). done.
Qed.

(** The entries of a new index. *)
Lemma new_entries a tb s col (L : list (str * list str)) : wf a -> a_tables a !! tb = Some s -> is_Some (column_index s col) ->
  (forall k row, (k, row) ∈ L <-> exists pk, k = row_key tb pk /\ a_rows a !! (tb, pk) = Some row) ->
  exists es, mapM (fun kv : str * str => row ← row_decode kv.2; index_entry tb s col row)
    ((fun kr : str * list str => (kr.1, row_encode kr.2)) <$> L) = Ok es /\
  forall k v, (k, v) ∈ es <-> exists row, a_rows a !! (tb, v) = Some row /\ k = index_key tb col (enc_of s col row) v.
Proof.
  intros Hwf Hs Hc HL.
  pose proof (fun pk row => table_row a tb pk s row Hwf Hs) as Hrow.
  destruct (mapM_res (fun kv : str * str => row ← row_decode kv.2; index_entry tb s col row)
    (fun kv e => exists pk row, a_rows a !! (tb, pk) = Some row /\ kv = (row_key tb pk, row_encode row) /\
       e = (index_key tb col (enc_of s col row) pk, pk))
    ((fun kr : str * list str => (kr.1, row_encode kr.2)) <$> L)) as (es & Ees & HF).
  { intros kv ([k row] & -> & (pk & -> & Hr)%HL)%list_elem_of_fmap. destruct (Hrow _ _ Hr) as [Hok Hpk]. cbn [fst snd].
    rewrite row_roundtrip. cbn [mbind res_bind]. destruct (index_entry_ok tb s col row pk Hok Hpk Hc) as [-> _].
    eexists. split; [done|]. by exists pk, row. }
  exists es. split; [done|]. apply Forall2_elem in HF as [F1 F2]. intros k v. split.
  - intros (kv & _ & pk & row & Hr & _ & [= -> ->])%F1. by exists row.
  - intros (row & Hr & ->). destruct (F2 (row_key tb v, row_encode row)) as (e & He & pk & row' & Hr' & E & ->).
    + apply list_elem_of_fmap. exists (row_key tb v, row). split; [done|]. apply HL. by exists v.
    + injection E as E ->%row_encode_inj. unfold row_key in E. apply (inj (app tb)) in E. injection E as ->. done.
Qed.

(** A write under another kind of key leaves the rows. *)
Lemma scan_rows_insert c M a tb n v0 k v : repr c M a -> wf a -> table_name tb -> text_ok n ->
  (k, v) ∈ map_range (<[INDEX_PREFIX ++ n := v0]> M) (tb ++ [47%N]) (tb ++ 47%N :: HI) <->
  exists pk row, a_rows a !! (tb, pk) = Some row /\ k = row_key tb pk /\ v = row_encode row.
Proof.
  intros Hre Hwf Htb Hn. rewrite <- (scan_rows c M a tb k v) by done. rewrite !elem_of_map_range.
  destruct (decide (k = INDEX_PREFIX ++ n)) as [->|Hne]; [|by rewrite lookup_insert_ne].
  split; intros (_ & H1 & H2); exfalso;
    replace (tb ++ 47%N :: HI) with ((tb ++ [47%N]) ++ HI) in H2 by (by rewrite <- (assoc app));
    destruct (between_prefix _ _ _ H1 H2) as [r Er];
    (assert (KIndex n = KRow tb r) as ?; [|done]); apply key_row; auto; unfold row_key;
    cbn [enc_key]; rewrite Er; by rewrite <- (assoc app).
Qed.

Lemma wf_add_index a n tb s col : wf a -> a_tables a !! tb = Some s -> is_Some (column_index s col) -> ~ indexed a tb col ->
  text_ok n -> name_ok col -> wf (Adb (a_tables a) (<[n := IndexDef n tb col]> (a_indexes a)) (a_rows a)).
Proof.
  intros [W1 W2 W3 W4] Hs Hc Hnx Hn Hcol. split; cbn; auto.
  - intros n' d. destruct (decide (n' = n)) as [->|Hne]; [rewrite lookup_insert_eq; intros [= <-]; eauto 6|].
    rewrite lookup_insert_ne by done. apply W2.
  - intros n1 n2 d1 d2. destruct (decide (n1 = n)) as [->|H1], (decide (n2 = n)) as [->|H2];
      rewrite ?lookup_insert_eq, ?lookup_insert_ne by done; auto.
    + intros [= <-] Hd2 ? ?. destruct Hnx. by exists n2, d2.
    + intros Hd1 [= <-] ? ?. destruct Hnx. by exists n1, d1.
    + apply W3.
Qed.

Lemma create_index_refines c a t n tb s col : t_inv t -> repr c (view t) a -> wf a -> a_tables a !! tb = Some s ->
  is_Some (column_index s col) -> a_indexes a !! n = None -> ~ indexed a tb col -> text_ok n -> name_ok col ->
  let a' := Adb (a_tables a) (<[n := IndexDef n tb col]> (a_indexes a)) (a_rows a) in
  exists c' t1 kvs es t', cat_create_index c (IndexDef n tb col) t = Ok (c', t1) /\ scan_table t1 tb = Ok kvs /\
  mapM (fun kv => row ← row_decode kv.2; index_entry tb s col row) kvs = Ok es /\ put_each t1 es = Ok t' /\
  length kvs = size (matching a tb s None) /\ t_inv t' /\ repr c' (view t') a' /\ wf a'.
Proof.
  intros Hi Hre Hwf Hs Hc Hno Hnx Hn Hcol a'. pose proof (wf_table _ Hwf _ _ Hs) as (_ & Htb & _).
  pose proof (fun pk row => table_row a tb pk s row Hwf Hs) as Hrow.
  assert (Hwf' : wf a') by (by apply (wf_add_index a n tb s col)). assert (Hx : indexed a' tb col) by (apply indexed_insert; auto).
  set (M1 := <[INDEX_PREFIX ++ n := index_serialize (IndexDef n tb col)]> (view t)).
  destruct (scan_list a tb (map_range M1 (tb ++ [47%N]) (tb ++ 47%N :: HI))) as (L & EL & HndL & HL);
    [apply sorted_NoDup, map_range_sorted|intros k v; by apply (scan_rows_insert c)|].
  destruct (new_entries a tb s col L) as (es & Ees & Hes); auto. destruct (r_nodup _ _ _ Hre) as [N1 N2].
  set (c' := Catalog (tables c) (dict_set (indexes c) n (IndexDef n tb col))).
  destruct (repr_put c c' t a a' (KIndex n) (index_serialize (IndexDef n tb col)) es) as (t1 & t' & E1 & Hi1 & V1 & E2 & Hi' & Hre'); auto.
  - apply (r_tables _ _ _ Hre).
  - intros n'. unfold get_index. cbn. rewrite dict_get_set. pose proof (r_indexes _ _ _ Hre n') as E'. unfold get_index in E'.
    case_decide; [subst; by rewrite lookup_insert_eq|by rewrite lookup_insert_ne].
  - split; [done|by apply dict_set_NoDup].
  - by apply serialize_not_tombstone.
  - cbn. by rewrite lookup_insert_eq.
  - intros k v (row & Hr & ->)%Hes. destruct (Hrow _ _ Hr). split; [by apply (row_valid a tb v row)|].
    exists (KEntry tb col (enc_of s col row) v). split_and!; [by apply (entry_valid a')|done|]. apply content_entry; [done|]. split_and!; eauto.
  - intros [n'|n'|t2 pk|t2 col' enc pk] HvK HK Hnin; cbn [content]; auto; [cbn; by rewrite lookup_insert_ne by congruence|].
    cbn. destruct (a_rows a !! (t2, pk)) as [row|] eqn:Hr; [|done]. cbn. destruct (a_tables a !! t2) as [s'|] eqn:Hs'; [|done]. cbn.
    apply decide_ext. unfold a'. rewrite indexed_insert by done. cbn. split; [|intros [? ?]; split; [right; by destruct a|done]].
    intros [[[-> ->]|?] <-]; [|by destruct a]. destruct Hnin. rewrite Hs in Hs'. injection Hs' as <-.
    apply list_elem_of_fmap. eexists (_, pk). split; [|apply Hes; by exists row]. done.
  - cbn [enc_key] in E1, V1. exists c', t1, (map_range M1 (tb ++ [47%N]) (tb ++ 47%N :: HI)), es, t'. unfold cat_create_index, scan_table.
    cbn [i_name]. rewrite E1, law_tx_scan, V1 by (auto using rows_scan). fold M1. rewrite EL. split_and!; [done..| |done|done|done].
    rewrite length_fmap. apply (rows_perm a tb s None L); [done|]. intros k row. rewrite HL. cbn.
    split; [intros (? & ? & ?)|intros (? & ? & ? & ?)]; eauto.
Qed.

(** *** Dropping a table *)

Lemma drop_indexes_refines tb ds : forall c a t, t_inv t -> repr c (view t) a -> wf a ->
  (forall d, d ∈ ds -> a_indexes a !! i_name d = Some d /\ i_table d = tb) -> NoDup (i_name <$> ds) ->
  exists c' t' ix, drop_indexes c t tb ds = Ok (c', t') /\ t_inv t' /\
  repr c' (view t') (Adb (a_tables a) ix (a_rows a)) /\ wf (Adb (a_tables a) ix (a_rows a)) /\
  forall n, ix !! n = if decide (n ∈ i_name <$> ds) then None else a_indexes a !! n.
Proof.
  induction ds as [|d ds IH]; intros c a t Hi Hre Hwf Hds Hnd; cbn [drop_indexes].
  { exists c, t, (a_indexes a). destruct a. by split_and!. }
  rewrite fmap_cons in Hnd. apply list.NoDup_cons in Hnd as [Hd Hnd]. destruct (Hds d) as [Hn Ht]; [left|].
  destruct (drop_index_refines c a t (i_name d) d Hi Hre Hwf Hn) as (t1 & c1 & t2 & E1 & E2 & Hi2 & Hre2 & Hwf2 & _).
  rewrite Ht in E1. rewrite E1. cbn [mbind res_bind]. rewrite E2. cbn [mbind res_bind].
  destruct (IH c1 _ t2 Hi2 Hre2 Hwf2) as (c' & t' & ix & E & Hi' & Hre' & Hwf' & Hix); [|done|].
  { intros d' Hd'. destruct (Hds d') as [Hn' Ht']; [by right|]. split; [|done]. cbn. rewrite lookup_delete_ne; [done|].
    intros E. destruct Hd. rewrite E. apply list_elem_of_fmap. by exists d'. }
  exists c', t', ix. split_and!; auto. intros n. rewrite Hix, fmap_cons. cbn [a_indexes].
  destruct (decide (n = i_name d)) as [->|Hne].
  - rewrite lookup_delete_eq, (decide_True (P := _ ∈ _ :: _)) by left. by case_decide.
  - rewrite lookup_delete_ne by done. apply decide_ext. rewrite elem_of_cons. tauto.
Qed.

Lemma indexes_for_table_NoDup c M a t : repr c M a -> wf a -> NoDup (i_name <$> indexes_for_table c t).
Proof.
  intros Hre Hwf. destruct (r_nodup _ _ _ Hre) as [_ N2].
  assert (E : i_name <$> (indexes c).*2 = (indexes c).*1).
  { rewrite <- list_fmap_compose. apply list_fmap_ext. intros i [n d] Hin%list_elem_of_lookup_2. cbn.
    apply (dict_get_elem _ _ _ N2) in Hin. pose proof (r_indexes _ _ _ Hre n) as E. unfold get_index in E. rewrite Hin in E.
    symmetry in E. by destruct (wf_index _ Hwf _ _ E). }
  rewrite <- E in N2. unfold indexes_for_table. eapply sublist_NoDup; [exact N2|]. apply fmap_sublist, sublist_filter.
Qed.

(** The database without the rows of a table that satisfy a condition. *)
Definition adelete (a : adb) (tb : str) (s : schema) (w : option expr) : adb :=
  Adb (a_tables a) (a_indexes a) (filter (fun tr => ~ (tr.1.1 = tb /\ sat s w tr.2)) (a_rows a)).

Lemma forget_table c a t tb s : t_inv t -> repr c (view t) a -> wf a -> a_tables a !! tb = Some s ->
  (forall n d, a_indexes a !! n = Some d -> i_table d <> tb) -> (forall t2 pk row, a_rows a !! (t2, pk) = Some row -> t2 <> tb) ->
  let a' := Adb (base.delete tb (a_tables a)) (a_indexes a) (a_rows a) in
  exists c' t', cat_drop_table c tb t = Ok (c', t') /\ t_inv t' /\ repr c' (view t') a' /\ wf a'.
Proof.
  intros Hi Hre Hwf Hs Hnix Hnrow a'. pose proof (wf_table _ Hwf _ _ Hs) as (_ & Htb & _).
  assert (Hv : valid (KTable tb)) by apply Htb. destruct (law_tx_delete t (TABLE_PREFIX ++ tb) Hi (rel_keys _ Hv)) as (t' & E & Hi' & V).
  eexists _, t'. unfold cat_drop_table. rewrite E. cbn [mbind res_bind]. split_and!; [done|done| |].
  - destruct (r_nodup _ _ _ Hre) as [N1 N2]. apply (repr_update (fun K => K = KTable tb) c _ (view t) _ a); auto.
    + intros n. unfold get_table. cbn. rewrite dict_get_pop by done. pose proof (r_tables _ _ _ Hre n) as E'. unfold get_table in E'.
      case_decide; [subst; by rewrite lookup_delete_eq|by rewrite lookup_delete_ne].
    + apply (r_indexes _ _ _ Hre).
    + split; [by apply dict_pop_NoDup|done].
    + intros [n| | |]; try (by right). destruct (decide (n = tb)) as [->|]; [by left|right; congruence].
    + intros K _ ->. cbn [enc_key content]. rewrite V, lookup_delete_eq. cbn. by rewrite lookup_delete_eq.
    + intros K HvK HD. rewrite V, lookup_delete_ne; [done|]. intros E'. by apply (enc_key_inj (KTable tb) K) in E' as <-.
    + intros k Hk. left. rewrite V in Hk. destruct Hk as [v [_ Hk]%lookup_delete_Some]. by rewrite Hk.
    + intros [n|n|t1 pk|t1 col enc pk] HvK HD; cbn [content]; auto.
      * cbn. rewrite lookup_delete_ne by congruence. done.
      * apply content_entry_eq; [done|]. intros [row Hrow]. split; [|done]. cbn. rewrite lookup_delete_ne; [done|].
        intros <-. by apply (Hnrow _ _ _ Hrow).
  - destruct Hwf as [W1 W2 W3 W4]. split; cbn; auto.
    + intros n s' [_ Hs']%lookup_delete_Some. by apply W1.
    + intros n d Hd. destruct (W2 n d Hd) as (? & ? & ? & s' & Hs' & ?). split_and!; auto. exists s'.
      rewrite lookup_delete_ne; [done|]. intros E'. by apply (Hnix _ _ Hd).
    + intros t1 pk row Hr. destruct (W4 _ _ _ Hr) as (s' & Hs' & ?). exists s'. rewrite lookup_delete_ne; [done|].
      intros E'. by apply (Hnrow _ _ _ Hr).
Qed.

Lemma drop_table_refines c a t tb s : t_inv t -> repr c (view t) a -> wf a -> a_tables a !! tb = Some s ->
  let a' := Adb (base.delete tb (a_tables a)) (filter (fun nd => i_table nd.2 <> tb) (a_indexes a)) (a_rows (adelete a tb s None)) in
  exists c' t', drop_table c t tb = Ok (Done (size (matching a tb s None)), c', t') /\ t_inv t' /\ repr c' (view t') a' /\ wf a'.
Proof.
  intros Hi Hre Hwf Hs a'. pose proof (wf_table _ Hwf _ _ Hs) as (_ & Htb & _). unfold drop_table.
  assert (Hht : has_table c tb = true) by (unfold has_table; rewrite (r_tables _ _ _ Hre), Hs; done). rewrite Hht. cbn [negb].
  destruct (drop_indexes_refines tb (indexes_for_table c tb) c a t Hi Hre Hwf) as (c1 & t1 & ix & -> & Hi1 & Hre1 & Hwf1 & Hix).
  { intros d Hd. by apply (indexes_for_table_elem c (view t)). } { by eapply indexes_for_table_NoDup. }
  cbn [mbind res_bind]. unfold scan_table. rewrite law_tx_scan by (auto using rows_scan). cbn [mbind res_bind].
  assert (Eix : ix = filter (fun nd => i_table nd.2 <> tb) (a_indexes a)).
  { apply map_eq. intros n. rewrite Hix. case_decide as Hin.
    - apply list_elem_of_fmap in Hin as (d & -> & [Hd Ht]%(indexes_for_table_elem c (view t) a)); auto. symmetry.
      apply map_lookup_filter_None_2. right. intros d' Hd'. rewrite Hd in Hd'. injection Hd' as <-. cbn. auto.
    - destruct (a_indexes a !! n) as [d|] eqn:Hd; symmetry; [|apply map_lookup_filter_None_2; by left].
      apply map_lookup_filter_Some_2; [done|]. cbn. intros Ht. destruct Hin. apply list_elem_of_fmap. exists d.
      destruct (wf_index _ Hwf _ _ Hd) as (<- & _). split; [done|]. by apply (indexes_for_table_elem c (view t) a). }
  subst ix. set (a1 := Adb _ _ _) in Hre1, Hwf1.
  assert (Hnix : forall n d, a_indexes a1 !! n = Some d -> i_table d <> tb) by (intros n d [_ Hd]%map_lookup_filter_Some; done).
  destruct (scan_list a1 tb (map_range (view t1) (tb ++ [47%N]) (tb ++ 47%N :: HI))) as (L & -> & HndL & HL).
  { apply sorted_NoDup, map_range_sorted. } { intros k v. by apply (scan_rows c1). }
  rewrite <- list_fmap_compose, length_fmap.
  destruct (delete_refines c1 a1 t1 tb s (sat s None) (L.*1)) as (t2 & E2 & Hi2 & Hre2 & Hwf2); auto.
  { intros k. rewrite list_elem_of_fmap. split.
    - intros ([k' row] & -> & (pk & -> & Hr)%HL). exists pk, row. cbn. auto.
    - intros (pk & row & Hr & _ & [->|(col & (n & d & Hd & Ht & _) & _)]); [|by destruct (Hnix _ _ Hd)].
      exists (row_key tb pk, row). split; [done|]. apply HL. eauto. }
  change (fst ∘ (fun kr : str * list str => (kr.1, row_encode kr.2))) with (fun kr : str * list str => kr.1).
  change ((fun kr : str * list str => kr.1) <$> L) with L.*1. rewrite E2. cbn [mbind res_bind].
  destruct (forget_table c1 _ t2 tb s Hi2 Hre2 Hwf2) as (c' & t' & -> & Hi' & Hre' & Hwf'); auto.
  { cbn. intros t3 pk row [_ Hr]%map_lookup_filter_Some. cbn in Hr. intros ->. by apply Hr. }
  exists c', t'. cbn [mbind res_bind]. split_and!; auto.
  destruct (rows_perm a tb s None L) as [_ ->]; [done| |done]. intros k row. rewrite HL. cbn.
  split; [intros (? & ? & ?)|intros (? & ? & ? & ?)]; eauto.
Qed.

(** Deleting rows. *)
Lemma delete_rows_refines c a t tb s w : t_inv t -> repr c (view t) a -> wf a -> a_tables a !! tb = Some s ->
  exists t', delete_rows c t tb w = Ok (Done (size (matching a tb s w)), c, t') /\ t_inv t' /\
  repr c (view t') (adelete a tb s w) /\ wf (adelete a tb s w).
Proof.
  intros Hi Hre Hwf Hs. unfold delete_rows. rewrite (r_tables _ _ _ Hre), Hs.
  destruct (full_scan_ok c a t tb s w Hi Hre Hwf Hs) as (L & -> & HndL & HL). cbn [mbind res_bind].
  destruct (mapM_res (victim_keys c tb s) (fun kr ks => forall k, k ∈ ks <-> k = kr.1 \/ exists col pk, indexed a tb col /\
    a_rows a !! (tb, pk) = Some kr.2 /\ k = index_key tb col (enc_of s col kr.2) pk) L) as (kss & -> & HF).
  { intros [k row] (pk & -> & Hr & _)%HL. destruct (wf_row _ Hwf _ _ _ Hr) as (s' & Hs' & Hok & Hpk). rewrite Hs in Hs'. injection Hs' as <-.
    destruct (entries_ok c (view t) a tb s row pk) as (es & Ees & Hes); auto. unfold victim_keys. cbn [fst snd]. rewrite Ees.
    cbn [mbind res_bind]. eexists. split; [done|]. intros k. rewrite elem_of_cons, list_elem_of_fmap. split; (intros [->|Hk]; [by left|right]).
    - destruct Hk as ([k' v] & -> & (col & Hx & -> & ->)%Hes). by exists col, pk.
    - destruct Hk as (col & pk' & Hx & Hr' & ->). destruct (wf_row _ Hwf _ _ _ Hr') as (_ & _ & _ & Hpk').
      rewrite Hpk in Hpk'. injection Hpk' as <-. eexists (_, pk). split; [done|]. apply Hes. by exists col. }
  cbn [mbind res_bind]. apply Forall2_elem in HF as [F1 F2].
  destruct (delete_refines c a t tb s (sat s w) (concat kss)) as (t' & -> & Hi' & Hre' & Hwf'); auto.
  { intros k. rewrite list_elem_of_In, in_concat. setoid_rewrite <- list_elem_of_In. split.
    - intros (ks & Hks & Hk). destruct (F1 ks Hks) as ([k' row] & Hin & Hspec). apply HL in Hin as (pk & -> & Hr & Hw).
      cbn [fst snd] in Hspec. destruct (proj1 (Hspec k) Hk) as [Ek|(col & pk' & Hx & Hr' & Ek)]; subst k; [exists pk, row; auto|]. exists pk', row. split_and!; eauto.
    - intros (pk & row & Hr & Hw & Hk). destruct (F2 (row_key tb pk, row)) as (ks & Hks & Hspec); [apply HL; by exists pk|].
      exists ks. split; [done|]. apply Hspec. cbn. destruct Hk as [->|(col & Hx & ->)]; [by left|right]. by exists col, pk. }
  exists t'. cbn [mbind res_bind]. split_and!; auto. by destruct (rows_perm a tb s w L HndL HL) as [_ ->].
Qed.

(** *** Scans of an index *)

Lemma cmp_bounds p op enc v pk : text_ok enc -> text_ok v -> cmp_holds op (str_cmp enc v) = true -> op ∈ [OEq; OLt; OGt; OLte; OGte] ->
  (index_bounds p op v).1 <=s p ++ enc ++ 0%N :: pk /\ p ++ enc ++ 0%N :: pk <=s (index_bounds p op v).2.
Proof.
  intros He Hv Hc Hop.
  assert (Hge : str_cmp enc v <> Lt -> p ++ v <=s p ++ enc ++ 0%N :: pk).
  { intros Hl. apply str_le_app. trans enc; [|apply str_le_prefix]. unfold str_le. rewrite str_cmp_antisym.
    by destruct (str_cmp enc v). }
  assert (Hle : str_cmp enc v <> Gt -> p ++ enc ++ 0%N :: pk <=s p ++ v ++ HI).
  { intros Hg. apply str_le_app, str_le_sentinel; [|done]. eapply Forall_impl; [|exact Hv]. by intros x []. }
  assert (Hlo : p <=s p ++ enc ++ 0%N :: pk) by apply str_le_prefix.
  assert (Hhi : p ++ enc ++ 0%N :: pk <=s p ++ HI) by (by apply str_le_app, entry_le_hi).
  destruct op, (str_cmp enc v); try discriminate Hc; cbn; split; auto;
    exfalso; rewrite !elem_of_cons, elem_of_nil in Hop; naive_solver.
Qed.

Lemma bounds_prefix p op v k : (index_bounds p op v).1 <=s k -> k <=s (index_bounds p op v).2 -> exists r, k = p ++ r.
Proof.
  intros H1 H2. assert (Hp : p <=s k) by (trans (index_bounds p op v).1; [|done]; destruct op; cbn; first [done | apply str_le_prefix]).
  destruct op; cbn in H2; eapply between_prefix; eauto.
Qed.

Lemma op_match_cmp a op b : op ∈ [OEq; OLt; OGt; OLte; OGte] -> op_match a op b = cmp_holds op (str_cmp a b).
Proof.
  assert (Ha : str_cmp b a = CompOpp (str_cmp a b)) by apply str_cmp_antisym. pose proof (str_cmp_eq a b) as He.
  assert (Hr : a = b -> str_cmp a b = Eq) by (intros ->; apply str_cmp_refl).
  rewrite !elem_of_cons, elem_of_nil. intros [->|[->|[->|[->|[->|[]]]]]]; cbn; case_bool_decide as E; unfold str_lt, str_le in E;
    rewrite ?Ha in E; destruct (str_cmp a b); cbn in *; naive_solver.
Qed.

(** The entries in a range of an index, each with its row. *)
Lemma index_rows_ok c a t tb s col op v kvs : op ∈ [OEq; OLt; OGt; OLte; OGte] -> t_inv t -> repr c (view t) a -> wf a -> a_tables a !! tb = Some s ->
  (forall k pk, (k, pk) ∈ kvs -> exists row, a_rows a !! (tb, pk) = Some row /\ text_ok (enc_of s col row) /\
     k = index_key tb col (enc_of s col row) pk) ->
  exists R, index_rows t s (index_prefix tb col) op v kvs = Ok R /\
  (fun row : list str => row !! 0%nat) <$> R `sublist_of` Some <$> kvs.*2 /\
  forall row, row ∈ R <-> exists k pk, (k, pk) ∈ kvs /\ a_rows a !! (tb, pk) = Some row /\ cmp_holds op (str_cmp (enc_of s col row) v) = true.
Proof.
  intros Hop Hi Hre Hwf Hs. destruct (wf_table _ Hwf _ _ Hs) as (En & _). induction kvs as [|[k pk] kvs IH]; intros Hall.
  { exists []. split_and!; [done|done|]. intros row. rewrite elem_of_nil. split; [done|]. by intros (? & ? & ?%not_elem_of_nil & _). }
  destruct (Hall k pk) as (row & Hr & Ht & ->); [left|]. destruct IH as (R & ER & Hsub & HR); [intros k' pk' ?; apply Hall; by right|].
  cbn [index_rows]. unfold index_key. rewrite drop_app_length. change (SEP ++ pk) with (0%N :: pk).
  rewrite find_char_app, take_app_length, op_match_cmp by (done || by apply text_no_sep).
  assert (Eget : tx_get t (row_key (s_name s) pk) = Ok (Some (row_encode row))).
  { destruct (row_valid a tb pk row Hwf Hr) as [HvK _]. pose proof (r_lookup _ _ _ Hre _ HvK) as E. cbn [enc_key content] in E.
    rewrite En, (law_tx_get t (row_key tb pk)), E, Hr; [done|done|by apply (rel_keys (KRow tb pk))]. }
  destruct (cmp_holds op (str_cmp (enc_of s col row) v)) eqn:Ec.
  - rewrite Eget. cbn [mbind res_bind]. rewrite row_roundtrip. cbn [mbind res_bind]. rewrite ER. cbn [mbind res_bind].
    destruct (wf_row _ Hwf _ _ _ Hr) as (_ & _ & _ & Hpk). exists (row :: R). split_and!; [done|cbn; rewrite Hpk; by apply sublist_skip|].
    intros row'. rewrite elem_of_cons, HR. split.
    + intros [->|(k & pk' & ? & ? & ?)]; [eexists _, pk; split_and!; [left|done|done]|exists k, pk'; split_and!; [by right|done|done]].
    + intros (k & pk' & [[= -> ->]|?]%elem_of_cons & Hr' & ?); [left; congruence|right; by exists k, pk'].
  - rewrite ER. exists R. split_and!; [done|cbn; by apply sublist_cons|]. intros row'. rewrite HR. split.
    + intros (k & pk' & ? & ?). exists k, pk'. split; [by right|done].
    + intros (k & pk' & [[= -> ->]|?]%elem_of_cons & Hr' & ?); [|by exists k, pk']. congruence.
Qed.

Lemma sat_index s col op v row i : row_ok s row -> column_index s col = Some i -> op ∈ [OEq; OLt; OGt; OLte; OGte] ->
  sat s (Some (BinaryExpr op (ColumnRef col) (Literal v))) row <->
  cmp_holds op (str_cmp (enc_of s col row) (type_encode (default [] (column_type s col)) (value_str v))) = true.
Proof.
  intros Hr Hi Hop. destruct (column_field s row col i Hr Hi) as (x & Hx & _).
  assert (Hb := Hi). apply column_index_loop_bound in Hb. destruct (lookup_lt_is_Some_2 (s_columns s) i) as [cl Hcl]; [lia|].
  assert (Heval : eval (BinaryExpr op (ColumnRef col) (Literal v)) s row = Ok (cmp_holds op (type_compare (c_type cl) x (value_str v)))).
  { rewrite !elem_of_cons, elem_of_nil in Hop. destruct Hop as [->|[->|[->|[->|[->|[]]]]]]; cbn [eval]; rewrite Hi; unfold nth_res; by rewrite Hcl, Hx. }
  unfold sat. rewrite Heval. unfold enc_of, column_type. rewrite Hi. cbn [mbind option_bind]. rewrite Hcl, Hx. cbn [mbind option_bind default].
  unfold type_compare. split; [by injection 1|intros E; by f_equal].
Qed.

(** The rows of the table have distinct keys. *)
Lemma matching_NoDup a tb s w : wf a -> NoDup (map_to_list (matching a tb s w)).*2.
Proof.
  intros Hwf. apply NoDup_fmap_2_strong; [|apply NoDup_map_to_list]. intros [[t1 p1] r1] [[t2 p2] r2] H1 H2 E. cbn in E. subst r2.
  apply elem_of_map_to_list, matching_lookup in H1 as (H1 & -> & _), H2 as (H2 & -> & _).
  destruct (wf_row _ Hwf _ _ _ H1) as (_ & _ & _ & E1), (wf_row _ Hwf _ _ _ H2) as (_ & _ & _ & E2). congruence.
Qed.

(** An index scan returns the matching rows. *)
Lemma index_scan_ok c a t tb s d col op v : t_inv t -> repr c (view t) a -> wf a -> a_tables a !! tb = Some s ->
  a_indexes a !! i_name d = Some d -> i_table d = tb -> i_column d = col -> op ∈ [OEq; OLt; OGt; OLte; OGte] -> text_ok (value_str v) ->
  exists R, index_scan t s d op (value_str v) = Ok R /\
  R ≡ₚ (map_to_list (matching a tb s (Some (BinaryExpr op (ColumnRef col) (Literal v))))).*2.
Proof.
  intros Hi Hre Hwf Hs Hd Ht Hcol Hop Hv. destruct (wf_table _ Hwf _ _ Hs) as (En & [Htb _] & _).
  assert (Hx : indexed a tb col) by (by exists (i_name d), d). destruct (indexed_name a tb col Hwf Hx) as (Hn & s' & Hs' & i & Hci).
  rewrite Hs in Hs'. injection Hs' as <-. unfold index_scan. rewrite Hcol, En.
  set (ev := type_encode _ _). assert (Hev : text_ok ev) by (by apply type_encode_text).
  set (p := index_prefix tb col). pose proof (bounds_prefix p op ev) as Hpre. pose proof (fun e k => cmp_bounds p op e ev k) as Hbnd.
  pose proof (bounds_scan p op ev (index_prefix_text tb col Htb Hn) Hev) as Hrg.
  destruct (index_bounds p op ev) as [lo hi]. cbn [fst snd] in Hpre, Hbnd, Hrg. rewrite law_tx_scan by done. cbn [mbind res_bind].
  assert (Hin : forall k pk, (k, pk) ∈ map_range (view t) lo hi <-> lo <=s k /\ k <=s hi /\ exists row, a_rows a !! (tb, pk) = Some row /\
    text_ok (enc_of s col row) /\ k = index_key tb col (enc_of s col row) pk).
  { intros k pk. rewrite elem_of_map_range. split.
    - intros (Hk & H1 & H2). split_and!; auto. destruct (Hpre k H1 H2) as [r Er]. destruct (r_keys _ _ _ Hre k) as (K & HvK & EK); [by rewrite Hk|].
      destruct (key_entry K tb col r) as (enc & pk' & -> & _); auto; [by rewrite <- EK|].
      rewrite EK, (r_lookup _ _ _ Hre _ HvK) in Hk. apply content_entry in Hk as (-> & _ & row & s' & Hr & Hs' & <-); auto.
      rewrite Hs in Hs'. injection Hs' as <-. exists row. split_and!; auto. apply HvK.
    - intros (H1 & H2 & row & Hr & He & ->). split_and!; auto. destruct (wf_row _ Hwf _ _ _ Hr) as (s' & Hs' & Hok & Hpk).
      rewrite Hs in Hs'. injection Hs' as <-. pose proof (r_lookup _ _ _ Hre _ (entry_valid a tb col s row pk Hwf Hs Hx Hok Hpk)) as E.
      cbn [enc_key] in E. rewrite E. apply content_entry; [done|]. split_and!; eauto. }
  destruct (index_rows_ok c a t tb s col op ev (map_range (view t) lo hi)) as (R & ER & Hsub & HR); auto.
  { intros k pk Hk. by apply Hin in Hk as (_ & _ & ?). }
  exists R. split; [done|]. apply NoDup_Permutation; [|by apply matching_NoDup|].
  - apply (NoDup_fmap_1 (fun row : list str => row !! 0%nat)). eapply sublist_NoDup; [|exact Hsub].
    apply (NoDup_fmap_2 Some). apply NoDup_fmap_2_strong; [|by eapply (NoDup_fmap_1 fst), sorted_NoDup, map_range_sorted].
    intros [k1 pk1] [k2 pk2] (_ & _ & r1 & Hr1 & _ & ->)%Hin (_ & _ & r2 & Hr2 & _ & ->)%Hin E. cbn in E. congruence.
  - intros row. rewrite HR, list_elem_of_fmap. split.
    + intros (k & pk & (_ & _ & _)%Hin & Hr & Hc). exists ((tb, pk), row). split; [done|].
      apply elem_of_map_to_list, matching_lookup. split_and!; auto. destruct (wf_row _ Hwf _ _ _ Hr) as (s' & Hs' & Hok & Hpk).
      rewrite Hs in Hs'. injection Hs' as <-. by apply (sat_index s col op v row i).
    + intros ([[t1 pk] r] & E & (Hr & E2 & Hw)%elem_of_map_to_list%matching_lookup). cbn in E. subst r t1.
      destruct (wf_row _ Hwf _ _ _ Hr) as (s' & Hs' & Hok & Hpk). rewrite Hs in Hs'. injection Hs' as <-.
      apply (sat_index s col op v row i) in Hw; auto. destruct (entry_valid a tb col s row pk Hwf Hs Hx Hok Hpk) as (_ & _ & He & _).
      exists (index_key tb col (enc_of s col row) pk), pk. split_and!; auto. apply Hin.
      destruct (Hbnd (enc_of s col row) pk He Hev Hw Hop) as [H1 H2]. split_and!; eauto.
Qed.

(** *** Sorting, limits and projections *)

Definition row_le (typ : str) (i : nat) (x y : list str) : Prop := type_compare typ (nth i x []) (nth i y []) <> Gt.

#[local] Instance row_le_trans typ i : Transitive (row_le typ i).
Proof. intros x y z. unfold row_le, type_compare. apply (transitivity (R := str_le)). Qed.

Lemma sort_insert_spec typ i x l : StronglySorted (row_le typ i) l ->
  sort_insert (fun a b => type_compare typ (nth i a []) (nth i b [])) x l ≡ₚ x :: l /\
  StronglySorted (row_le typ i) (sort_insert (fun a b => type_compare typ (nth i a []) (nth i b [])) x l).
Proof.
  induction l as [|y l IH]; intros Hs; cbn [sort_insert]; [by repeat constructor|].
  apply StronglySorted_cons in Hs as [Hy Hs]. destruct (IH Hs) as [Hp Hs'].
  destruct (type_compare typ (nth i x []) (nth i y [])) eqn:E.
  1-2: assert (Hxy : row_le typ i x y) by (unfold row_le; by rewrite E); split; [done|]; repeat constructor; auto;
       eapply Forall_impl; [|exact Hy]; intros z Hz; by trans y.
  split; [rewrite Hp; constructor|]. constructor; [done|]. rewrite Hp. constructor; [|done].
  unfold row_le, type_compare in *. rewrite str_cmp_antisym. by rewrite E.
Qed.

Lemma sort_rows_spec typ i l : sort_rows typ i l ≡ₚ l /\ StronglySorted (row_le typ i) (sort_rows typ i l).
Proof.
  induction l as [|x l [Hp Hs]]; [split; [done|constructor]|]. unfold sort_rows in *. cbn [foldr].
  destruct (sort_insert_spec typ i x _ Hs) as [Hp' Hs']. split; [by rewrite Hp', Hp|done].
Qed.

(** In the order asked for. *)
Definition ordered_by (s : schema) (order_by : option str) (desc : bool) (rows : list (list str)) : Prop :=
  match order_by ≫= column_index s with
  | Some i => StronglySorted (row_le (default [] (c_type <$> s_columns s !! i)) i) (if desc then reverse rows else rows)
  | None => True
  end.

Lemma order_rows_ok s o d rows : Forall (row_ok s) rows ->
  exists rows', order_rows s o d rows = Ok rows' /\ rows' ≡ₚ rows /\ ordered_by s o d rows'.
Proof.
  intros Hall. unfold order_rows, ordered_by. destruct (o ≫= column_index s) as [i|] eqn:Ei; [|by exists rows].
  assert (Hb : forallb (fun r : list str => Nat.ltb i (length r)) rows = true).
  { destruct o as [n|]; [|done]. cbn in Ei. apply column_index_loop_bound in Ei. apply forallb_forall.
    intros r Hr%list_elem_of_In. apply Nat.ltb_lt. rewrite list.Forall_forall in Hall. destruct (Hall r Hr) as [-> _]. lia. }
  rewrite Hb, andb_false_r. destruct (sort_rows_spec (default [] (c_type <$> s_columns s !! i)) i rows) as [Hp Hs].
  destruct d; eexists; (split; [done|]); [|by split]. rewrite reverse_involutive. split; [|done]. by rewrite reverse_Permutation.
Qed.

Lemma py_slice_elem {A} (l : list A) i j x : x ∈ py_slice l i j -> x ∈ l.
Proof. unfold py_slice. intros Hx. eapply sublist_subseteq; [|exact Hx]. rewrite sublist_take. apply sublist_drop. Qed.

Lemma limit_rows_elem lim rows row : row ∈ limit_rows lim rows -> row ∈ rows.
Proof. destruct lim as [z|]; cbn; [|done]. destruct (z <? _)%Z; [apply py_slice_elem|done]. Qed.

Lemma mapM_ok {A B} (f : A -> res B) (g : A -> B) l : (forall x, x ∈ l -> f x = Ok (g x)) -> mapM f l = Ok (map g l).
Proof.
  induction l as [|x l IH]; intros Hall; [done|]. cbn. rewrite (Hall x) by left. cbn.
  by rewrite IH by (intros y Hy; apply Hall; by right).
Qed.

Definition project (s : schema) (proj : list str) (row : list str) : list str :=
  map (fun n => default [] (column_index s n ≫= fun i => row !! i)) proj.

Lemma project_ok s proj rows : Forall (row_ok s) rows -> forallb (fun n => bool_decide (is_Some (column_index s n))) proj = true ->
  mapM (fun row => mapM (fun n => field row (column_index s n)) proj) rows = Ok (map (project s proj) rows).
Proof.
  intros Hall Hp. apply mapM_ok. intros row Hrow. apply mapM_ok. intros n Hn. rewrite list.Forall_forall in Hall.
  rewrite forallb_forall in Hp. apply list_elem_of_In, Hp, bool_decide_eq_true in Hn as [i Hi].
  destruct (column_field s row n i (Hall row Hrow) Hi) as (x & Hx & _). rewrite Hi. cbn. unfold nth_res. by rewrite Hx.
Qed.

(** The rows built by INSERT. *)
Lemma fill_row_ok s cvs : forall row row', row_ok s row -> Forall (fun cv => field_ok (value_str cv.2)) cvs ->
  fill_row s row cvs = Some row' -> row_ok s row'.
Proof.
  induction cvs as [|[c v] cvs IH]; intros row row' Hr Hv; cbn [fill_row]; [by intros [= <-]|].
  apply list.Forall_cons in Hv as [Hv Hvs]. destruct (column_index s c); [|done]. apply IH; auto. destruct Hr as [Hl Hf].
  split; [by rewrite length_insert|by apply Forall_insert].
Qed.

Lemma build_row_ok s cols vals row : Forall (fun v => field_ok (value_str v)) vals -> build_row s cols vals = Some row -> row_ok s row.
Proof.
  intros Hv. unfold build_row. destruct cols as [|c cols].
  - destruct (Nat.eqb_spec (length vals) (length (s_columns s))) as [E|]; [|done]. intros [= <-]. split; [by rewrite length_map|].
    by apply Forall_fmap.
  - destruct (Nat.eqb_spec (length (c :: cols)) (length vals)) as [E|]; [|done]. apply fill_row_ok.
    + split; [by rewrite length_replicate|]. apply Forall_replicate. split; [constructor|done].
    + apply list.Forall_forall. intros [n v] Hin%elem_of_zip_r. cbn. rewrite list.Forall_forall in Hv. by apply Hv.
Qed.

(** SELECT. *)
Definition where_ok (w : option expr) : Prop :=
  match w with Some (BinaryExpr _ (ColumnRef _) (Literal v)) => text_ok (value_str v) | _ => True end.

Lemma simple_predicate_spec w col op v : simple_predicate w = Some (col, op, v) ->
  op ∈ [OEq; OLt; OGt; OLte; OGte] /\ exists x, v = value_str x /\ w = Some (BinaryExpr op (ColumnRef col) (Literal x)).
Proof.
  destruct w as [[o l r|?|?|?]|]; try done. destruct l; try done. destruct r as [| | |x]; try done.
  destruct o; try done; cbn; intros [= <- <- <-]; (split; [|by exists x]); set_solver.
Qed.

Definition plan_rows (c : catalog) (t : T) (tb : str) (s : schema) (w : option expr) : res (list (list str)) :=
  match ('(col, op, v) ← simple_predicate w; d ← index_for_column c tb col; Some (d, op, v)) with
  | Some (d, op, v) => index_scan t s d op v
  | None => kvs ← full_scan t tb s w; Ok kvs.*2
  end.

(** Whatever the plan, the rows are the matching rows. *)
Lemma plan_rows_ok c a t tb s w : t_inv t -> repr c (view t) a -> wf a -> a_tables a !! tb = Some s -> where_ok w ->
  exists R, plan_rows c t tb s w = Ok R /\ R ≡ₚ (map_to_list (matching a tb s w)).*2 /\ Forall (row_ok s) R.
Proof.
  intros Hi Hre Hwf Hs Hw.
  assert (HF : forall R, R ≡ₚ (map_to_list (matching a tb s w)).*2 -> Forall (row_ok s) R).
  { intros R HR. rewrite HR. apply list.Forall_forall. intros row ([[t1 pk] r] & -> & (Hr & -> & _)%elem_of_map_to_list%matching_lookup)%list_elem_of_fmap.
    destruct (wf_row _ Hwf _ _ _ Hr) as (s' & Hs' & Hok & _). cbn. rewrite Hs in Hs'. by injection Hs' as <-. }
  enough (HR : exists R, plan_rows c t tb s w = Ok R /\ R ≡ₚ (map_to_list (matching a tb s w)).*2)
    by (destruct HR as (R & ? & ?); exists R; auto).
  assert (Hfull : exists R, (kvs ← full_scan t tb s w; Ok kvs.*2) = Ok R /\ R ≡ₚ (map_to_list (matching a tb s w)).*2).
  { destruct (full_scan_ok c a t tb s w Hi Hre Hwf Hs) as (L & -> & Hnd & HL). exists L.*2. split; [done|]. by apply (rows_perm a tb s w L). }
  unfold plan_rows. destruct (simple_predicate w) as [[[col op] v]|] eqn:Ep; [|exact Hfull].
  destruct (simple_predicate_spec w col op v Ep) as (Hop & x & -> & ->). cbn [mbind option_bind].
  pose proof (index_for_column_spec c (view t) a tb col Hre Hwf) as Hix. destruct (index_for_column c tb col) as [d|]; [|exact Hfull].
  cbn [mbind option_bind]. destruct Hix as (Hd & Ht & Hcol). by apply (index_scan_ok c a t tb s d col op x).
Qed.

Definition select_spec (a : adb) (tb : str) (cols : list str) (w : option expr) (o : option str) (d : bool) (l : option Z) (out : outcome) : Prop :=
  match a_tables a !! tb with
  | None => out = Failed
  | Some s =>
      let proj := if bool_decide (cols = [py "*"]) then column_names s else cols in
      if forallb (fun n => bool_decide (is_Some (column_index s n))) proj then
        exists plan rows, out = Rows plan proj (map (project s proj) (limit_rows l rows)) /\
        rows ≡ₚ (map_to_list (matching a tb s w)).*2 /\ ordered_by s o d rows
      else out = Failed
  end.

Lemma select_refines c a t tb cols w o d l : t_inv t -> repr c (view t) a -> wf a -> where_ok w ->
  exists out, select c t tb cols w o d l = Ok out /\ select_spec a tb cols w o d l out.
Proof.
  intros Hi Hre Hwf Hw. unfold select, select_spec. rewrite (r_tables _ _ _ Hre). destruct (a_tables a !! tb) as [s|] eqn:Hs; [|by exists Failed].
  set (proj := if bool_decide _ then _ else _). destruct (forallb _ proj) eqn:Hp; cbn [negb]; [|by exists Failed].
  destruct (plan_rows_ok c a t tb s w Hi Hre Hwf Hs Hw) as (R & ER & HR & Hall). unfold plan_rows in ER. cbv zeta.
  set (idx := '(col, op, v) ← simple_predicate w; _) in *. rewrite ER. cbn [mbind res_bind].
  destruct (order_rows_ok s o d R Hall) as (R' & -> & Hperm & Hord). cbn [mbind res_bind].
  rewrite project_ok; [|apply list.Forall_forall; intros row Hrow%limit_rows_elem; rewrite list.Forall_forall in Hall; apply Hall; by rewrite <- Hperm|done].
  cbn [mbind res_bind]. eexists. split; [done|]. eexists _, R'. split_and!; [done|by rewrite Hperm|done].
Qed.

(** ** The specification of the statements *)

Definition request_ok (r : request) : Prop :=
  match r with
  | CreateIndex n _ col => text_ok n /\ name_ok col
  | Sql (CreateTableStmt tb defs) => table_name tb /\ defs <> []
  | Sql (InsertStmt _ _ vals) => Forall (fun v => field_ok (value_str v)) vals
  | Sql (SelectStmt _ _ w _ _ _) => where_ok w
  | _ => True
  end.

Definition step (a : adb) (r : request) (out : outcome) (a' : adb) : Prop :=
  let refused := out = Failed /\ a' = a in
  match r with
  | Sql (CreateTableStmt tb defs) =>
      match a_tables a !! tb with
      | Some _ => refused
      | None => out = Done 0 /\
          a' = Adb (<[tb := Schema tb (map (fun d => Column (cd_name d) (cd_type d)) defs)]> (a_tables a)) (a_indexes a) (a_rows a)
      end
  | Sql (DropTableStmt tb) =>
      match a_tables a !! tb with
      | None => refused
      | Some s => out = Done (size (matching a tb s None)) /\
          a' = Adb (base.delete tb (a_tables a)) (filter (fun nd => i_table nd.2 <> tb) (a_indexes a)) (a_rows (adelete a tb s None))
      end
  | CreateIndex n tb col =>
      match a_tables a !! tb with
      | None => refused
      | Some s =>
          if decide (is_Some (column_index s col) /\ a_indexes a !! n = None /\ ~ indexed a tb col)
          then out = Done (size (matching a tb s None)) /\ a' = Adb (a_tables a) (<[n := IndexDef n tb col]> (a_indexes a)) (a_rows a)
          else refused
      end
  | DropIndex n =>
      match a_indexes a !! n with
      | None => refused
      | Some _ => out = Done 0 /\ a' = Adb (a_tables a) (base.delete n (a_indexes a)) (a_rows a)
      end
  | Sql (InsertStmt tb cols vals) =>
      match s ← a_tables a !! tb; row ← build_row s cols vals; pk ← row !! 0%nat; Some (row, pk) with
      | None => refused
      | Some (row, pk) =>
          match a_rows a !! (tb, pk) with
          | Some _ => refused
          | None => out = Done 1 /\ a' = Adb (a_tables a) (a_indexes a) (<[(tb, pk) := row]> (a_rows a))
          end
      end
  | Sql (SelectStmt tb cols w o d l) => select_spec a tb cols w o d l out /\ a' = a
  | Sql (DeleteStmt tb w) =>
      match a_tables a !! tb with
      | None => refused
      | Some s => out = Done (size (matching a tb s w)) /\ a' = adelete a tb s w
      end
  | _ => refused
  end.

(** A statement does to catalog and store what [step] does to the database. *)
Definition simulates (c : catalog) (t : T) (a : adb) (r : request) : Prop :=
  exists out c' t' a', dispatch c t r = Ok (out, c', t') /\ step a r out a' /\ t_inv t' /\ repr c' (view t') a' /\ wf a'.

(** The same outcome and the same database. *)
Ltac sim_done := split; [done|split; [split; reflexivity|split_and!; tauto]].

Section statements.
Context (c : catalog) (t : T) (a : adb) (Hi : t_inv t) (Hre : repr c (view t) a) (Hwf : wf a).

Lemma simulates_refused r : dispatch c t r = Ok (Failed, c, t) -> step a r Failed a -> simulates c t a r.
Proof. intros E Hs. by exists Failed, c, t, a. Qed.

Lemma simulates_create_table tb defs : table_name tb -> defs <> [] -> simulates c t a (Sql (CreateTableStmt tb defs)).
Proof.
  intros Htb Hd. destruct defs as [|d0 defs]; [done|]. destruct (a_tables a !! tb) as [s|] eqn:Hs.
  - apply simulates_refused; cbn [dispatch step]; [|by rewrite Hs]. unfold create_table, has_table. by rewrite (r_tables _ _ _ Hre), Hs.
  - destruct (create_table_refines c a t tb (map (fun d => Column (cd_name d) (cd_type d)) (d0 :: defs)) Hi Hre Hwf Hs Htb) as (c' & t' & E & ?);
      [done|].
    eexists (Done 0), c', t', _. cbn [dispatch step]. rewrite Hs. unfold create_table, has_table. rewrite (r_tables _ _ _ Hre), Hs. cbn [bool_decide decide_rel].
    rewrite bool_decide_eq_false_2 by (by intros []). unfold new_schema. cbn [map mbind res_bind] in *.
    rewrite E. cbn [mbind res_bind]. sim_done.
Qed.

Lemma simulates_create_index n tb col : text_ok n -> name_ok col -> simulates c t a (CreateIndex n tb col).
Proof.
  intros Hn Hcol. pose proof (index_for_column_spec c (view t) a tb col Hre Hwf) as Hix.
  unfold simulates. cbn [dispatch step]. unfold create_index, has_index. rewrite (r_tables _ _ _ Hre), (r_indexes _ _ _ Hre).
  destruct (a_tables a !! tb) as [s|] eqn:Hs; [|by exists Failed, c, t, a].
  destruct (bool_decide_reflect (is_Some (column_index s col))) as [Hc|Hc]; cbn [negb orb];
    [|exists Failed, c, t, a; rewrite decide_False by tauto; done].
  destruct (a_indexes a !! n) as [d0|] eqn:Hd0; [cbn; exists Failed, c, t, a; rewrite decide_False by naive_solver; done|].
  rewrite (bool_decide_eq_false_2 (is_Some None)) by (by intros []). cbn [orb].
  destruct (index_for_column c tb col) as [d|]; cbn.
  - exists Failed, c, t, a. rewrite decide_False; [done|]. intros (_ & _ & Hx). destruct Hx. by exists (i_name d), d.
  - destruct (create_index_refines c a t n tb s col) as (c' & t1 & kvs & es & t' & E1 & E2 & E3 & E4 & El & ?); auto.
    rewrite E1. cbn. rewrite E2. cbn. rewrite E3. cbn. rewrite E4. cbn. rewrite El. eexists _, c', t', _.
    rewrite decide_True by done. sim_done.
Qed.

Lemma simulates_drop_index n : simulates c t a (DropIndex n).
Proof.
  unfold simulates. cbn [dispatch step]. unfold drop_index. rewrite (r_indexes _ _ _ Hre). destruct (a_indexes a !! n) as [d|] eqn:Hd; [|by exists Failed, c, t, a].
  destruct (drop_index_refines c a t n d Hi Hre Hwf Hd) as (t1 & c' & t' & E1 & E2 & ? & ? & ? & _). rewrite E1. cbn [mbind res_bind]. rewrite E2.
  cbn [mbind res_bind]. eexists _, c', t', _. sim_done.
Qed.

Lemma simulates_insert tb cols vals : Forall (fun v => field_ok (value_str v)) vals -> simulates c t a (Sql (InsertStmt tb cols vals)).
Proof.
  intros Hv. unfold simulates. cbn [dispatch step]. unfold insert. rewrite (r_tables _ _ _ Hre).
  destruct (a_tables a !! tb) as [s|] eqn:Hs; [|by exists Failed, c, t, a]. cbn [mbind option_bind].
  destruct (build_row s cols vals) as [row|] eqn:Hb; [|by exists Failed, c, t, a]. cbn [mbind option_bind].
  pose proof (build_row_ok s cols vals row Hv Hb) as Hok. destruct (wf_table _ Hwf _ _ Hs) as (_ & Htb & Hcols).
  destruct (row !! 0%nat) as [pk|] eqn:Hpk; [|destruct Hok as [Hl _]; destruct row, (s_columns s); done].
  unfold nth_res. rewrite Hpk. cbn [of_option mbind option_bind res_bind]. 
  assert (HvK : valid (KRow tb pk)) by (split; [done|]; destruct Hok as [_ Hf]; by destruct (Forall_lookup_1 _ _ _ _ Hf Hpk)).
  rewrite (law_tx_get t (row_key tb pk)) by (done || by apply (rel_keys (KRow tb pk))). cbn [mbind res_bind].
  pose proof (r_lookup _ _ _ Hre _ HvK) as E. cbn [enc_key content] in E. rewrite E.
  destruct (a_rows a !! (tb, pk)) as [row0|] eqn:Hr; cbn [fmap option_fmap option_map]; [by exists Failed, c, t, a|].
  destruct (insert_refines c a t tb s row pk) as (t1 & es & t' & E1 & E2 & E3 & ?); auto.
  rewrite E1. cbn [mbind res_bind]. rewrite E2. cbn [mbind res_bind]. rewrite E3. cbn [mbind res_bind]. eexists _, c, t', _. sim_done.
Qed.

Lemma simulates_dispatch r : request_ok r -> simulates c t a r.
Proof.
  destruct r as [| | |n tb col|n|[tb defs|tb|tb cols vals|tb cols w o d l|tb asg w|tb w]|]; cbn [request_ok]; intros Hok;
    try (by apply simulates_refused).
  - destruct Hok. by apply simulates_create_index.
  - apply simulates_drop_index.
  - destruct Hok. by apply simulates_create_table.
  - destruct (a_tables a !! tb) as [s|] eqn:Hs.
    + destruct (drop_table_refines c a t tb s Hi Hre Hwf Hs) as (c' & t' & E & ?). eexists _, c', t', _. cbn [dispatch step]. rewrite Hs, E. sim_done.
    + apply simulates_refused; cbn [dispatch step]; [|by rewrite Hs]. unfold drop_table, has_table. by rewrite (r_tables _ _ _ Hre), Hs.
  - by apply simulates_insert.
  - destruct (select_refines c a t tb cols w o d l Hi Hre Hwf Hok) as (out & E & Hsp). exists out, c, t, a. cbn [dispatch step]. by rewrite E.
  - destruct (a_tables a !! tb) as [s|] eqn:Hs.
    + destruct (delete_rows_refines c a t tb s w Hi Hre Hwf Hs) as (t' & E & ?). eexists _, c, t', _. cbn [dispatch step]. rewrite Hs, E. sim_done.
    + apply simulates_refused; cbn [dispatch step]; [|by rewrite Hs]. unfold delete_rows. by rewrite (r_tables _ _ _ Hre), Hs.
Qed.
End statements.

(** *** Reloading the catalog *)

Lemma load_fold {A} (de : str -> res A) (name : A -> str) (kvs : list (str * str)) :
  (forall k v, (k, v) ∈ kvs -> exists x, de v = Ok x) ->
  (forall k1 v1 k2 v2 x1 x2, (k1, v1) ∈ kvs -> (k2, v2) ∈ kvs -> de v1 = Ok x1 -> de v2 = Ok x2 -> name x1 = name x2 -> x1 = x2) ->
  exists d, foldl (fun d kv => d ← d; x ← de kv.2; Ok (dict_set d (name x) x)) (Ok []) kvs = Ok d /\ NoDup d.*1 /\
  forall n x, dict_get d n = Some x <-> name x = n /\ exists k v, (k, v) ∈ kvs /\ de v = Ok x.
Proof.
  induction kvs as [|[k v] kvs IH] using rev_ind; intros Hde Hu.
  { exists []. split_and!; [done|constructor|]. intros n x. split; [done|]. by intros (_ & ? & ? & ?%not_elem_of_nil & _). }
  setoid_rewrite elem_of_app in Hde. setoid_rewrite elem_of_app in Hu.
  destruct IH as (d & E & Hnd & Hd); [intros k' v' ?; apply (Hde k'); by left|intros k1 v1 k2 v2 x1 x2 ? ? ? ? ?; eapply (Hu k1 v1 k2 v2); eauto|].
  destruct (Hde k v) as [x Hx]; [right; left|]. exists (dict_set d (name x) x). rewrite foldl_app, E. cbn. rewrite Hx. cbn.
  split_and!; [done|by apply dict_set_NoDup|]. intros n y. rewrite dict_get_set. setoid_rewrite elem_of_app. case_decide as En.
  - split.
    + intros [= ->]. split; [done|]. exists k, v. split; [right; left|done].
    + intros (Ey & k' & v' & Hin & Hy). f_equal. eapply (Hu k v k' v'); eauto; [right; left|by rewrite Ey].
  - rewrite Hd. split; intros (Ey & k' & v' & Hin & Hy); (split; [done|]); exists k', v'; (split; [|done]); [by left|].
    destruct Hin as [?|[= -> ->]%list_elem_of_singleton]; [done|]. congruence.
Qed.

(** The keys of the catalog under a prefix. *)
Lemma scan_catalog c M a (mk : str -> key) p : repr c M a -> (forall n, enc_key (mk n) = p ++ n) -> (forall n, text_ok n <-> valid (mk n)) ->
  (forall K n, valid K -> enc_key K = p ++ n -> K = mk n) ->
  forall k v, (k, v) ∈ map_range M p (p ++ HI) <-> exists n, valid (mk n) /\ k = p ++ n /\ content a (mk n) = Some v.
Proof.
  intros Hre Hmk Hval Hinv k v. rewrite elem_of_map_range. split.
  - intros (Hk & H1 & H2). destruct (between_prefix _ _ _ H1 H2) as [n ->]. destruct (r_keys _ _ _ Hre (p ++ n)) as (K & HvK & EK); [by rewrite Hk|].
    assert (K = mk n) as -> by auto. exists n. split_and!; auto. rewrite <- (r_lookup _ _ _ Hre) by done. by rewrite <- EK.
  - intros (n & HvK & -> & Hv). split_and!; [by rewrite <- Hmk, (r_lookup _ _ _ Hre)|apply str_le_prefix|]. by apply str_le_app, text_ok_hi, Hval.
Qed.

Lemma load_catalog_ok c a t : t_inv t -> repr c (view t) a -> wf a -> exists c', load_catalog t = Ok c' /\ repr c' (view t) a.
Proof.
  intros Hi Hre Hwf. unfold load_catalog. rewrite !law_tx_scan by (done || by apply prefix_scan, (bool_decide_eq_true_1 _); vm_compute). cbn [mbind res_bind].
  pose proof (scan_catalog c (view t) a KTable TABLE_PREFIX Hre (fun _ => eq_refl) (fun _ => iff_refl _) key_table) as Ht.
  pose proof (scan_catalog c (view t) a KIndex INDEX_PREFIX Hre (fun _ => eq_refl) (fun _ => iff_refl _) key_index_def) as Hx.
  assert (HT : forall k v, (k, v) ∈ map_range (view t) TABLE_PREFIX (TABLE_PREFIX ++ HI) <->
    exists n s, a_tables a !! n = Some s /\ k = TABLE_PREFIX ++ n /\ v = schema_serialize s).
  { intros k v. rewrite Ht. cbn [content]. setoid_rewrite fmap_Some. split.
    - intros (n & _ & -> & s & Hs & ->). by exists n, s.
    - intros (n & s & Hs & -> & ->). exists n. split_and!; eauto. apply (wf_table _ Hwf _ _ Hs). }
  assert (HX : forall k v, (k, v) ∈ map_range (view t) INDEX_PREFIX (INDEX_PREFIX ++ HI) <->
    exists n d, a_indexes a !! n = Some d /\ k = INDEX_PREFIX ++ n /\ v = index_serialize d).
  { intros k v. rewrite Hx. cbn [content]. setoid_rewrite fmap_Some. split.
    - intros (n & _ & -> & s & Hs & ->). by exists n, s.
    - intros (n & s & Hs & -> & ->). exists n. split_and!; eauto. apply (wf_index _ Hwf _ _ Hs). }
  assert (Hst : forall n s, a_tables a !! n = Some s -> s_name s = n /\ schema_deserialize (schema_serialize s) = Ok s).
  { intros n s Hs. destruct (wf_table _ Hwf _ _ Hs) as (? & _ & ?). split; [done|by apply schema_roundtrip]. }
  assert (Hsx : forall n d, a_indexes a !! n = Some d -> i_name d = n /\ index_deserialize (index_serialize d) = Ok d).
  { intros n d Hd. destruct (wf_index _ Hwf _ _ Hd) as (? & _). split; [done|apply index_roundtrip]. }
  clear Ht Hx.
  destruct (load_fold schema_deserialize s_name (map_range (view t) TABLE_PREFIX (TABLE_PREFIX ++ HI))) as (dt & Et & Nt & Gt).
  { intros k v (n & s & Hs & _ & ->)%HT. exists s. by destruct (Hst n s Hs). }
  { intros k1 v1 k2 v2 x1 x2 (n1 & s1 & Hs1 & _ & ->)%HT (n2 & s2 & Hs2 & _ & ->)%HT. destruct (Hst _ _ Hs1) as [N1 ->], (Hst _ _ Hs2) as [N2 ->].
    intros [= <-] [= <-] E. congruence. }
  destruct (load_fold index_deserialize i_name (map_range (view t) INDEX_PREFIX (INDEX_PREFIX ++ HI))) as (dx & Ex & Nx & Gx).
  { intros k v (n & d & Hd & _ & ->)%HX. exists d. by destruct (Hsx n d Hd). }
  { intros k1 v1 k2 v2 x1 x2 (n1 & s1 & Hs1 & _ & ->)%HX (n2 & s2 & Hs2 & _ & ->)%HX. destruct (Hsx _ _ Hs1) as [N1 ->], (Hsx _ _ Hs2) as [N2 ->].
    intros [= <-] [= <-] E. congruence. }
  unfold load_tables, load_indexes. rewrite Et. cbn [mbind res_bind]. rewrite Ex. cbn [mbind res_bind]. eexists. split; [done|].
  split; [| |done|apply (r_lookup _ _ _ Hre)|apply (r_keys _ _ _ Hre)].
  - intros n. unfold get_table. cbn. apply option_eq. intros s. rewrite Gt. split.
    + intros (<- & k & v & (n' & s' & Hs' & _ & ->)%HT & E). destruct (Hst _ _ Hs') as [N E']. congruence.
    + intros Hs. destruct (Hst _ _ Hs) as [N E']. split; [done|]. eexists _, _. split; [apply HT; by exists n, s|done].
  - intros n. unfold get_index. cbn. apply option_eq. intros d. rewrite Gx. split.
    + intros (<- & k & v & (n' & s' & Hs' & _ & ->)%HX & E). destruct (Hsx _ _ Hs') as [N E']. congruence.
    + intros Hd. destruct (Hsx _ _ Hd) as [N E']. split; [done|]. eexists _, _. split; [apply HX; by exists n, d|done].
Qed.

End refinement.
