(* ===== verification/Sessions.v ===== *)
(** * Sessions of the relational engine over MVCC

    [RelationalEngine.execute] on the transactions of [Mvcc.v]: transaction control,
    automatic commits and the statements of [Relational.v], over every storage engine
    that obeys its laws.  The specification is a committed database and, inside an
    explicit transaction, a working copy.  [session_refines]: a session started on a
    database implements it; [catalog_reload]: a session opened later on the same store
    finds the committed catalog.  One session at a time uses the store.  At the end,
    two defects: ROLLBACK does not undo the cached catalog, and table names can collide
    with reserved ones. *)

From S2P Require Import Prelude PyStd Storage Mvcc TxStore SqlParser Relational RelationalFacts.

Local Open Scope Z_scope.

(** ** The keys of the engine *)

Definition rel_key (k : str) : Prop := exists K, RelationalFacts.valid K /\ k = enc_key K.

(** Every key but that of an index entry is without separator. *)
Lemma plain_enc_key K : RelationalFacts.valid K -> (forall t col enc pk, K <> KEntry t col enc pk) -> sep_free (enc_key K).
Proof.
  assert (Hs : forall s, text_ok s -> sep_free s) by (intros s Hs; eapply Forall_impl; [|exact Hs]; naive_solver).
  destruct K as [n|n|t pk|t col enc pk]; cbn [RelationalFacts.valid enc_key]; intros Hv Hne.
  - apply Hs, Forall_app. split; [|done]. apply (bool_decide_eq_true_1 _). vm_compute. reflexivity.
  - apply Hs, Forall_app. split; [|done]. apply (bool_decide_eq_true_1 _). vm_compute. reflexivity.
  - destruct Hv as [[[Ht _] _] Hp]. unfold row_key. change (47%N :: pk) with ([47%N] ++ pk). rewrite (assoc app).
    apply Forall_app. split; [by apply Hs, slash_text|by apply Hs].
  - by destruct (Hne t col enc pk).
Qed.

Lemma entry_base t col enc pk : RelationalFacts.valid (KEntry t col enc pk) ->
  enc_key (KEntry t col enc pk) = (index_prefix t col ++ enc) ++ 0%N :: pk /\ 0%N ∉ index_prefix t col ++ enc /\ 0%N ∉ pk.
Proof.
  intros (Ht & Hc & He & Hp). cbn [enc_key]. unfold index_key, SEP. rewrite <- (assoc app). split_and!; [done| |by apply text_no_sep].
  apply text_no_sep, Forall_app. split; [by apply index_prefix_text|done].
Qed.

Lemma rel_keys_apart uk uk' r h : rel_key uk -> rel_key uk' -> uk' ++ 0%N :: h = uk ++ 0%N :: r -> uk' = uk.
Proof.
  assert (Hmix : forall K t col enc pk x y, RelationalFacts.valid K -> (forall t col enc pk, K <> KEntry t col enc pk) ->
    RelationalFacts.valid (KEntry t col enc pk) -> enc_key K ++ 0%N :: x = enc_key (KEntry t col enc pk) ++ 0%N :: y -> False).
  { intros K t col enc pk x y HK Hne HE E. destruct (entry_base _ _ _ _ HE) as (Eb & Hb & _). rewrite Eb, <- (assoc app) in E.
    apply split_at in E as [E _]; [|intros H0; pose proof (plain_enc_key K HK Hne) as Hf; unfold sep_free in Hf; rewrite list.Forall_forall in Hf; by apply (Hf _ H0)|done]. destruct HE as (Ht & Hc & _).
    destruct (key_entry K t col enc HK Ht Hc E) as (enc' & pk' & -> & _). by apply (Hne t col enc' pk'). }
  intros (K & HK & ->) (K' & HK' & ->) E.
  assert (Hd : forall K, (exists t col enc pk, K = KEntry t col enc pk) \/ (forall t col enc pk, K <> KEntry t col enc pk)).
  { intros [| | |t col enc pk]; [by right..|left; by exists t, col, enc, pk]. }
  destruct (Hd K) as [(t & col & enc & pk & ->)|HnK], (Hd K') as [(t' & col' & enc' & pk' & ->)|HnK'].
  - destruct (entry_base _ _ _ _ HK) as (Eb & Hb & Hp), (entry_base _ _ _ _ HK') as (Eb' & Hb' & Hp').
    rewrite Eb, Eb' in E |- *. rewrite <- !(assoc app (_ ++ _)) in E. cbn [app] in E. apply split_at in E as [-> E]; auto.
    apply split_at in E as [-> _]; auto.
  - by destruct (Hmix K' t col enc pk h r).
  - by destruct (Hmix K t' col' enc' pk' r h).
  - by apply (sep_free_apart (enc_key K) (enc_key K') r h); [apply plain_enc_key|apply plain_enc_key|].
Qed.

#[local] Instance rel_key_space : KeySpace := {| user_key_ok := rel_key; keys_apart := rel_keys_apart |}.

#[local] Instance rel_plain_keys : PlainKeys.
Proof.
  intros uk (K & HK & ->). assert (Hs : forall s, text_ok s -> Forall (fun c => (c < max_code_point)%N) s)
    by (intros s Hs; eapply Forall_impl; [|exact Hs]; naive_solver).
  destruct K as [n|n|t pk|t col enc pk]; cbn [RelationalFacts.valid enc_key] in *.
  - apply Forall_app. split; [apply (bool_decide_eq_true_1 _); vm_compute; reflexivity|by apply Hs].
  - apply Forall_app. split; [apply (bool_decide_eq_true_1 _); vm_compute; reflexivity|by apply Hs].
  - destruct HK as [[[Ht _] _] Hp]. unfold row_key. change (47%N :: pk) with ([47%N] ++ pk). rewrite (assoc app).
    apply Forall_app. split; [by apply Hs, slash_text|by apply Hs].
  - destruct HK as (Ht & Hc & He & Hp). unfold index_key. rewrite !Forall_app. split_and!; auto using index_prefix_text. by repeat constructor.
Qed.

(** ** The specification *)

(** The committed database and the working copy of an open transaction. *)
Record astate := AState { committed : adb; working : option adb }.

Section specification.
Context {UC : Unicode} {PF : PyFloat} {FR : FloatRepr}.

Definition session_step (x : astate) (r : request) (out : outcome) (x' : astate) : Prop :=
  match r, working x with
  | Begin, None => out = Done 0 /\ x' = AState (committed x) (Some (committed x))
  | Commit, Some w => out = Done 0 /\ x' = AState w None
  | Rollback, Some _ => out = Done 0 /\ x' = AState (committed x) None
  | (Begin | Commit | Rollback), _ => out = Failed /\ x' = x
  | r, Some w => exists w', step w r out w' /\ x' = AState (committed x) (Some w')
  | r, None => exists a', step (committed x) r out a' /\ x' = AState a' None
  end.

Inductive session_steps : astate -> list request -> list outcome -> astate -> Prop :=
| session_nil x : session_steps x [] [] x
| session_cons x x1 x2 r rs o os : session_step x r o x1 -> session_steps x1 rs os x2 -> session_steps x (r :: rs) (o :: os) x2.

Definition is_ddl (r : request) : bool :=
  match r with
  | CreateIndex _ _ _ | DropIndex _ | Sql (CreateTableStmt _ _) | Sql (DropTableStmt _) => true
  | _ => false
  end.

(** No ROLLBACK after a change of tables or indexes in the same transaction; [tx] says
    whether a transaction is open and has made such a change. *)
Fixpoint rollbacks_ok (tx : option bool) (rs : list request) : bool :=
  match rs with
  | [] => true
  | Begin :: rs => rollbacks_ok (Some (default false tx)) rs
  | Commit :: rs => rollbacks_ok None rs
  | Rollback :: rs => negb (default false tx) && rollbacks_ok None rs
  | r :: rs => rollbacks_ok ((fun ddl => ddl || is_ddl r) <$> tx) rs
  end.

Lemma step_failed a r a' : step a r Failed a' -> a' = a.
Proof.
  destruct r as [| | |n tb col|n|[tb defs|tb|tb cols vals|tb cols w o d l|tb asg w|tb w]|]; cbn [step]; try (by intros [_ ?]);
    repeat case_match; naive_solver.
Qed.

Lemma step_schema a r o a' : is_ddl r = false -> step a r o a' ->
  a_tables a' = a_tables a /\ a_indexes a' = a_indexes a.
Proof.
  destruct r as [| | |n tb col|n|[tb defs|tb|tb cols vals|tb cols w od d l|tb asg w|tb w]|]; try done; cbn [step]; intros _; try (by intros [_ ->]);
    repeat case_match; naive_solver.
Qed.

(** Catalog and store of two represented databases with the same schemas. *)
Lemma repr_mix c c0 M M0 w a : repr c M w -> repr c0 M0 a -> a_tables w = a_tables a -> a_indexes w = a_indexes a -> repr c M0 a.
Proof. intros [H1 H2 H3 _ _] [_ _ _ H4 H5] Et Ei. split; auto; intros n; congruence. Qed.

Definition is_stmt (r : request) : bool := match r with Begin | Commit | Rollback => false | _ => true end.

Lemma session_step_stmt x r out x' : is_stmt r = true ->
  session_step x r out x' <->
  match working x with
  | Some w => exists w', step w r out w' /\ x' = AState (committed x) (Some w')
  | None => exists a', step (committed x) r out a' /\ x' = AState a' None
  end.
Proof. by destruct r. Qed.

Lemma rollbacks_ok_stmt r rs tx : is_stmt r = true -> rollbacks_ok tx (r :: rs) = rollbacks_ok ((fun ddl => ddl || is_ddl r) <$> tx) rs.
Proof. by destruct r. Qed.
End specification.

Section sessions.
Context {E : Type} `{EngineLaws E} {UC : Unicode} {PF : PyFloat} {FR : FloatRepr}.
Context (all_storable : forall k v, storable k v).

(** The store holds a database. *)
Definition holds (m : mvcc E) (a : adb) : Prop :=
  mvcc_ok m /\ wf a /\ exists c, repr c (snapshot m (last_commit_ts m)) a.

(** What the session has in memory. *)
Definition session_ok (s : session E) (x : astate) (tx : option bool) : Prop :=
  holds (db s) (committed x) /\
  match current s, working x, tx with
  | None, None, None => repr (cat s) (snapshot (db s) (last_commit_ts (db s))) (committed x)
  | Some t, Some w, Some ddl => mvcc_tx_ok (db s, t) /\ read_ts t = last_commit_ts (db s) /\ repr (cat s) (mvcc_view (db s, t)) w /\ wf w /\
      (ddl = false -> a_tables w = a_tables (committed x) /\ a_indexes w = a_indexes (committed x))
  | _, _, _ => False
  end.

(** A statement inside a transaction. *)
Lemma statement_ok (m : mvcc E) c t a r : mvcc_tx_ok (m, t) -> repr c (mvcc_view (m, t)) a -> wf a -> request_ok r ->
  exists out c' t' a', dispatch c (m, t) r = Ok (out, c', (m, t')) /\ step a r out a' /\
  mvcc_tx_ok (m, t') /\ read_ts t' = read_ts t /\ repr c' (mvcc_view (m, t')) a' /\ wf a'.
Proof.
  intros Hx Hre Hwf Hr. destruct (simulates_dispatch (TL := MvccTxLaws m (read_ts t))) with (c := c) (t := (m, t)) (a := a) (r := r)
    as (out & c' & [m' t'] & a' & E1 & Hs & (Hx' & Em & Er) & Hre' & Hwf'); auto.
  - intros K HK. by exists K.
  - assert (Hs : forall s, text_ok s -> sep_free s) by (intros s Hs; eapply Forall_impl; [|exact Hs]; naive_solver).
    intros p q Hp Hq. split; [by apply Hs|]. exists q. split; [by apply Hs|done].
  - split_and!; auto.
  - cbn in Em. subst m'. by exists out, c', t', a'.
Qed.

Lemma open_ok (m : mvcc E) a : holds m a -> exists s, open_session m = Ok s /\ db s = m /\ session_ok s (AState a None) None.
Proof.
  intros Hh. pose proof Hh as (Hm & Hwf & c & Hre). destruct (begin_ok m Hm) as [Hx Hv].
  destruct (load_catalog_ok (TL := MvccTxLaws m (last_commit_ts m))) with (c := c) (t := (m, mvcc_begin m)) (a := a) as (c' & E1 & Hre'); auto.
  - assert (Hs : forall s, text_ok s -> sep_free s) by (intros s Hs; eapply Forall_impl; [|exact Hs]; naive_solver).
    intros p q Hp Hq. split; [by apply Hs|]. exists q. split; [by apply Hs|done].
  - split_and!; auto.
  - change (repr c (mvcc_view (m, mvcc_begin m)) a). by rewrite Hv.
  - exists (Session m c' None). unfold open_session. rewrite E1. cbn [mbind res_bind]. split_and!; [done|done|].
    change (repr c' (mvcc_view (m, mvcc_begin m)) a) in Hre'. rewrite Hv in Hre'. by split.
Qed.

Lemma commit_ok (m : mvcc E) c t a out : mvcc_tx_ok (m, t) -> read_ts t = last_commit_ts m -> last_commit_ts m < MAX_TS ->
  repr c (mvcc_view (m, t)) a -> wf a ->
  exists m', commit_tx m c t out = Ok (out, Session m' c None) /\ last_commit_ts m' = last_commit_ts m + 1 /\
    session_ok (Session m' c None) (AState a None) None.
Proof.
  intros Hx Hr Hl Hre Hwf. destruct (commit_view (m, t) all_storable Hx Hr Hl) as (m' & E1 & Hm' & El & Hs). cbn in *.
  exists m'. unfold commit_tx. rewrite E1. split_and!; auto. rewrite <- Hs in Hre. split; [|done]. split_and!; eauto.
Qed.

(** A statement outside a transaction, after its own transaction has been dispatched. *)
Lemma auto_commit_ok (m : mvcc E) c c' t' a a' out : holds m a -> last_commit_ts m < MAX_TS ->
  repr c (snapshot m (last_commit_ts m)) a -> mvcc_tx_ok (m, t') -> read_ts t' = last_commit_ts m ->
  repr c' (mvcc_view (m, t')) a' -> wf a' -> (out = Failed -> a' = a) ->
  exists m', match out with
    | Failed => Ok (out, Session m c' None)
    | _ => if has_writes t' then commit_tx m c' t' out else Ok (out, Session m c' None)
    end = Ok (out, Session m' c' None) /\ last_commit_ts m' <= last_commit_ts m + 1 /\ session_ok (Session m' c' None) (AState a' None) None.
Proof.
  intros Hh Hl Hre Hx Hr Hre' Hwf' Hf.
  assert (Hno : out = Failed \/ has_writes t' = false -> session_ok (Session m c' None) (AState a' None) None).
  { intros [Eo|Ew].
    - rewrite (Hf Eo) in *. split; [done|]. by eapply (repr_mix c' c _ _ a a).
    - assert (mvcc_view (m, t') = snapshot m (last_commit_ts m)) as Ev.
      { apply map_eq. intros k. rewrite mvcc_view_lookup by done. cbn [fst snd]. unfold has_writes in Ew. destruct (writes t'); [|done].
        cbn. by rewrite Hr. }
      rewrite Ev in Hre'. split; [|done]. destruct Hh as (Hm & _). split_and!; eauto. }
  destruct (commit_ok m c' t' a' out Hx Hr Hl Hre' Hwf') as (m' & E1 & El & Hok).
  destruct out as [n| |plan cols rows]; [|by exists m; split_and!; auto; lia|];
    (destruct (has_writes t') eqn:Ew; [exists m'; split_and!; auto; lia|exists m; split_and!; auto; lia]).
Qed.

Lemma execute_stmt (s : session E) r : is_stmt r = true -> execute s r =
  match dispatch (cat s) (db s, default (mvcc_begin (db s)) (current s)) r with
  | Raise ConflictError => Ok (Failed, Session (db s) (cat s) None)
  | Raise e => Raise e
  | Ok (out, c, (m, tx)) =>
      match current s with
      | Some _ => Ok (out, Session m c (Some tx))
      | None => match out with
                | Failed => Ok (out, Session m c None)
                | _ => if has_writes tx then commit_tx m c tx out else Ok (out, Session m c None)
                end
      end
  end.
Proof. by destruct r. Qed.

(** A request is executed. *)
Definition refined (s : session E) (x : astate) (tx : option bool) (r : request) : Prop :=
  exists out s' x' tx', execute s r = Ok (out, s') /\ session_step x r out x' /\ session_ok s' x' tx' /\
    last_commit_ts (db s') <= last_commit_ts (db s) + 1 /\ forall rs, rollbacks_ok tx (r :: rs) = true -> rollbacks_ok tx' rs = true.

Section requests.
Context (s : session E) (x : astate) (tx : option bool) (Hs : session_ok s x tx) (Hlt : last_commit_ts (db s) < MAX_TS).

Lemma begin_refined : refined s x tx Begin.
Proof.
  destruct s as [m c [t|]], x as [a [w|]], tx as [b|]; cbn in Hs; try (by destruct Hs as [_ []]); destruct Hs as [Hh Hc].
  - exists Failed, (Session m c (Some t)), (AState a (Some w)), (Some b). split_and!; [done|done|done|lia|done].
  - pose proof Hh as (Hm & Hwf & _). destruct (begin_ok m Hm) as [Hx Hv].
    exists (Done 0), (Session m c (Some (mvcc_begin m))), (AState a (Some a)), (Some false). split_and!; [done|done| |cbn; lia|done].
    split; [done|]. cbn [db cat current working committed]. split_and!; auto. by rewrite Hv.
Qed.

Lemma commit_refined : refined s x tx Commit.
Proof.
  destruct s as [m c [t|]], x as [a [w|]], tx as [b|]; cbn in Hs; try (by destruct Hs as [_ []]); destruct Hs as [Hh Hc].
  - destruct Hc as (Hx & Hr & Hre & Hwf & _). destruct (commit_ok m c t w (Done 0) Hx Hr Hlt Hre Hwf) as (m' & E1 & El & Hok).
    exists (Done 0), (Session m' c None), (AState w None), None. split_and!; [done|done|done|cbn; lia|done].
  - exists Failed, (Session m c None), (AState a None), None. split_and!; [done|done|done|lia|done].
Qed.

Lemma rollback_refined : rollbacks_ok tx [Rollback] = true -> refined s x tx Rollback.
Proof.
  intros Hb. destruct s as [m c [t|]], x as [a [w|]], tx as [b|]; cbn in Hs; try (by destruct Hs as [_ []]); destruct Hs as [Hh Hc].
  - destruct Hc as (Hx & Hr & Hre & Hwf & Hddl). destruct Hddl as [Et Ei]; [by destruct b|]. pose proof Hh as (_ & _ & c0 & Hre0).
    exists (Done 0), (Session m c None), (AState a None), None. split_and!; [done|done| |cbn; lia|by intros rs [_ ?]%andb_true_iff].
    split; [done|]. by eapply (repr_mix c c0 _ _ w a).
  - exists Failed, (Session m c None), (AState a None), None. split_and!; [done|done|done|lia|done].
Qed.

Lemma stmt_refined r : is_stmt r = true -> request_ok r -> refined s x tx r.
Proof.
  intros Hst Hr. unfold refined. setoid_rewrite (session_step_stmt x r _ _ Hst). setoid_rewrite (fun rs => rollbacks_ok_stmt r rs tx Hst).
  destruct s as [m c [t|]], x as [a [w|]], tx as [b|]; cbn in Hs; try (by destruct Hs as [_ []]); destruct Hs as [Hh Hc]; cbn [working committed].
  - destruct Hc as (Hx & Hrt & Hre & Hwf & Hddl). destruct (statement_ok m c t w r Hx Hre Hwf Hr) as (out & c' & t' & w' & E1 & Hstep & Hx' & Hrt' & Hre' & Hwf').
    exists out, (Session m c' (Some t')), (AState a (Some w')), (Some (b || is_ddl r)). split_and!; [|by exists w'| |cbn; lia|done].
    + rewrite execute_stmt by done. cbn [current db cat default from_option id]. by rewrite E1.
    + split; [done|]. cbn [db cat current working committed]. split_and!; [done|by rewrite Hrt'|done|done|]. intros [-> Hd]%orb_false_iff. destruct (step_schema _ _ _ _ Hd Hstep) as [-> ->]. auto.
  - pose proof Hh as (Hm & Hwf & _). destruct (begin_ok m Hm) as [Hx Hv].
    destruct (statement_ok m c (mvcc_begin m) a r Hx) as (out & c' & t' & a' & E1 & Hstep & Hx' & Hrt' & Hre' & Hwf'); auto; [by rewrite Hv|].
    destruct (auto_commit_ok m c c' t' a a' out) as (m' & E2 & Hl & Hok); auto; [by intros ->; by eapply step_failed|].
    exists out, (Session m' c' None), (AState a' None), None. split_and!; [|by exists a'|done|cbn; lia|done].
    rewrite execute_stmt by done. cbn [current db cat default from_option id]. by rewrite E1.
Qed.
End requests.

Lemma session_run rs : forall s x tx, session_ok s x tx -> Forall request_ok rs -> rollbacks_ok tx rs = true ->
  last_commit_ts (db s) + Z.of_nat (length rs) <= MAX_TS ->
  exists os s' x' tx', execute_all s rs = Ok (os, s') /\ session_steps x rs os x' /\ session_ok s' x' tx'.
Proof.
  induction rs as [|r rs IH]; intros s x tx Hs Hok Hrb Hl; [exists [], s, x, tx; split_and!; auto; constructor|].
  apply list.Forall_cons in Hok as [Hr Hok]. rewrite length_cons in Hl.
  assert (Hone : refined s x tx r).
  { destruct (is_stmt r) eqn:Est; [apply stmt_refined; auto; lia|].
    destruct r; try done; [apply begin_refined|apply commit_refined|apply rollback_refined]; auto; try lia.
    cbn in Hrb |- *. apply andb_true_iff in Hrb as [-> _]. done. }
  destruct Hone as (o & s1 & x1 & tx1 & E1 & Hst & Hs1 & Hl1 & Hrb1). destruct (IH s1 x1 tx1 Hs1 Hok (Hrb1 rs Hrb) ltac:(lia)) as (os & s2 & x2 & tx2 & E2 & Hst2 & Hs2).
  exists (o :: os), s2, x2, tx2. cbn [execute_all]. rewrite E1. cbn [mbind res_bind]. rewrite E2. cbn [mbind res_bind]. split_and!; [done|by econstructor|done].
Qed.
(** ** Theorems *)

(** C38: Sessions implement a database with transactions.  A session opened on a store that
    holds a database executes every sequence of BEGIN, COMMIT, ROLLBACK, statements and
    texts that are none without an exception, if it is the only writer, names and values
    avoid the reserved characters, no ROLLBACK follows a change of tables or indexes in its
    transaction, and the timestamps do not run out.  Each request reports and does what the
    specification says: a statement works on the working copy of the open transaction,
    otherwise on the committed database at once; refusals change nothing; a SELECT returns
    the rows that match its condition, with or without an index, in the order asked for,
    and with LIMIT some of them, which ones without ORDER BY depends on the plan.  At the
    end the store holds the committed database, and cached catalog and open transaction
    represent the working copy. *)
Theorem session_refines (m : mvcc E) a rs :
  holds m a -> Forall request_ok rs -> rollbacks_ok None rs = true -> last_commit_ts m + Z.of_nat (length rs) <= MAX_TS ->
  exists s os s' x', open_session m = Ok s /\ execute_all s rs = Ok (os, s') /\ session_steps (AState a None) rs os x' /\
    holds (db s') (committed x') /\
    match current s', working x' with
    | None, None => repr (cat s') (snapshot (db s') (last_commit_ts (db s'))) (committed x')
    | Some t, Some w => repr (cat s') (mvcc_view (db s', t)) w
    | _, _ => False
    end.
Proof.
  intros Hh Hok Hrb Hl. destruct (open_ok m a Hh) as (s & E1 & Ed & Hs).
  destruct (session_run rs s (AState a None) None Hs Hok Hrb) as (os & s' & x' & tx' & E2 & Hst & [Hh' Hs']); [by rewrite Ed|].
  exists s, os, s', x'. split_and!; auto. destruct (current s'), (working x'), tx'; tauto.
Qed.

(** C39: A session opened on the store after such a sequence of requests finds the tables and
    indexes of the committed database.  Without an open transaction these are the ones of
    the cached catalog. *)
Theorem catalog_reload (m : mvcc E) a rs :
  holds m a -> Forall request_ok rs -> rollbacks_ok None rs = true -> last_commit_ts m + Z.of_nat (length rs) <= MAX_TS ->
  exists s os s' x' s'', open_session m = Ok s /\ execute_all s rs = Ok (os, s') /\ session_steps (AState a None) rs os x' /\
    open_session (db s') = Ok s'' /\
    (forall n, get_table (cat s'') n = a_tables (committed x') !! n) /\ (forall n, get_index (cat s'') n = a_indexes (committed x') !! n) /\
    (current s' = None -> forall n, get_table (cat s') n = get_table (cat s'') n /\ get_index (cat s') n = get_index (cat s'') n).
Proof.
  intros Hh Hok Hrb Hl. destruct (open_ok m a Hh) as (s & E1 & Ed & Hs).
  destruct (session_run rs s (AState a None) None Hs Hok Hrb) as (os & s' & x' & tx' & E2 & Hst & [Hh' Hs']); [by rewrite Ed|].
  destruct (open_ok (db s') (committed x') Hh') as (s'' & E3 & Ed' & [_ Hs'']). exists s, os, s', x', s''.
  cbn [working committed] in Hs''. destruct (current s''); [done|]. pose proof (r_tables _ _ _ Hs'') as Ht. pose proof (r_indexes _ _ _ Hs'') as Hx.
  split_and!; auto. intros En n. rewrite En in Hs'. destruct (working x'), tx'; try done.
  by rewrite Ht, Hx, (r_tables _ _ _ Hs'), (r_indexes _ _ _ Hs').
Qed.
End sessions.

(** *** Examples *)

Definition raw_floats : FloatRepr := fun s => s.
#[local] Existing Instance ascii_only.
#[local] Existing Instance no_floats.
#[local] Existing Instance raw_floats.

Definition empty_db : adb := Adb ∅ ∅ ∅.

Lemma empty_repr : repr (Catalog [] []) ∅ empty_db.
Proof.
  split; cbn; try done.
  - split; constructor.
  - intros [n|n|tb pk|tb col enc pk] _; done.
  - intros k [v Hv]. done.
Qed.

Lemma empty_wf : wf empty_db.
Proof. split; cbn; intros; by rewrite lookup_empty in *. Qed.

Definition int_value (z : Z) : value := VNum (NInt z).
Definition text (s : str) : value := VStr s.


Lemma empty_holds : holds (MVCC (∅ : gmap str str) 0 0) empty_db.
Proof.
  assert (mvcc_ok (MVCC (∅ : gmap str str) 0 0)) as Hm.
  { split; cbn; [done| |done|unfold MAX_TS; lia]. intros k v Hk. cbn in Hk. by rewrite lookup_empty in Hk. }
  split_and!; [done|apply empty_wf|]. exists (Catalog [] []).
  assert (snapshot (MVCC (∅ : gmap str str) 0 0) 0 = ∅) as Es by (vm_compute; reflexivity). cbn [last_commit_ts]. rewrite Es. apply empty_repr.
Qed.

(** The script of the module's demonstration, in a transaction, with a deletion; then an
    insertion that is rolled back and the removal of the index and the table. *)
Definition nums : str := py "nums".
Definition insert_nums (i n : Z) : request := Sql (InsertStmt nums [py "id"; py "n"] [int_value i; int_value n]).
Definition demo : list request :=
  [Begin; Sql (CreateTableStmt nums [mkColumnDef (py "id") (py "INT"); mkColumnDef (py "n") (py "INT")]);
   insert_nums 1 5; insert_nums 2 100; insert_nums 3 9;
   CreateIndex (py "idx_n") nums (py "n"); Commit;
   Sql (SelectStmt nums [py "*"] (Some (BinaryExpr OGte (ColumnRef (py "n")) (Literal (int_value 9)))) None false None);
   Sql (SelectStmt nums [py "n"] None (Some (py "n")) true (Some 2));
   Sql (DeleteStmt nums (Some (BinaryExpr OEq (ColumnRef (py "id")) (Literal (int_value 2)))));
   Begin; insert_nums 4 1; Rollback; insert_nums 1 7; Commit;
   DropIndex (py "idx_n"); Sql (DropTableStmt nums)].

Lemma demo_ok : Forall request_ok demo.
Proof.
  unfold demo, insert_nums. repeat (apply list.Forall_cons; split); try apply list.Forall_nil; try done; cbn [request_ok];
    unfold table_name, name_ok, field_ok, where_ok, text_ok; try (split_and?; try done);
    try (apply (bool_decide_eq_true_1 _); vm_compute; reflexivity).
Qed.

(** What the demonstration prints. *)
Lemma demo_outcomes : ('(os, _) ← (s ← open_session (MVCC (∅ : gmap str str) 0 0); execute_all s demo); Ok os) =
  Ok [Done 0; Done 0; Done 1; Done 1; Done 1; Done 3; Done 0;
      Rows (Some (py "idx_n")) [py "id"; py "n"] [[py "3"; py "9"]; [py "2"; py "100"]];
      Rows None [py "n"] [[py "100"]; [py "9"]]; Done 1; Done 0; Done 1; Done 0; Failed; Failed; Done 0; Done 2].
Proof. vm_compute. reflexivity. Qed.

Lemma session_refines_witness : exists s os s' x', open_session (MVCC (∅ : gmap str str) 0 0) = Ok s /\ execute_all s demo = Ok (os, s') /\
  session_steps (AState empty_db None) demo os x' /\ holds (db s') (committed x').
Proof.
  destruct (session_refines (H0 := RefLaws) (fun _ _ => I) (MVCC (∅ : gmap str str) 0 0) empty_db demo empty_holds demo_ok ltac:(vm_compute; reflexivity) ltac:(vm_compute; discriminate))
    as (s & os & s' & x' & H1 & H2 & H3 & H4 & _).
  exists s, os, s', x'. exact (conj H1 (conj H2 (conj H3 H4))).
Defined.

Lemma catalog_reload_witness : exists s os s' s'', open_session (MVCC (∅ : gmap str str) 0 0) = Ok s /\ execute_all s (take 7 demo) = Ok (os, s') /\
  open_session (db s') = Ok s'' /\ (current s' = None -> get_index (cat s') (py "idx_n") = get_index (cat s'') (py "idx_n")).
Proof.
  destruct (catalog_reload (H0 := RefLaws) (fun _ _ => I) (MVCC (∅ : gmap str str) 0 0) empty_db (take 7 demo) empty_holds (Forall_take _ 7 _ demo_ok)
    ltac:(vm_compute; reflexivity) ltac:(vm_compute; discriminate)) as (s & os & s' & x' & s'' & H1 & H2 & _ & H3 & _ & _ & H4).
  exists s, os, s', s''. exact (conj H1 (conj H2 (conj H3 (fun Hn => proj2 (H4 Hn (py "idx_n")))))).
Defined.

(** ROLLBACK does not undo a CREATE TABLE in the cached catalog: the session then inserts
    into a table that the store has no schema for, and a new session does not know it. *)
Definition session_script : list request :=
  [Begin; Sql (CreateTableStmt nums [mkColumnDef (py "id") (py "INT")]); Rollback; Sql (InsertStmt nums [] [int_value 1])].

Theorem rollback_keeps_table :
  (m ← open_mvcc (∅ : gmap str str); s0 ← open_session m; '(os, s) ← execute_all s0 session_script;
   s1 ← open_session (db s); '(o, _) ← execute s1 (Sql (SelectStmt nums [py "*"] None None false None)); Ok (os, o)) =
  Ok ([Done 0; Done 0; Done 0; Done 1], Failed).
Proof. vm_compute. reflexivity. Qed.

(** A table may be called [__idx__]; its rows are then the entries of all indexes, and
    dropping it empties them: a query through an index no longer finds its row. *)
Definition reserved_script : list request :=
  let find := Sql (SelectStmt nums [py "id"] (Some (BinaryExpr OEq (ColumnRef (py "n")) (Literal (int_value 5)))) None false None) in
  [Sql (CreateTableStmt nums [mkColumnDef (py "id") (py "INT"); mkColumnDef (py "n") (py "INT")]); insert_nums 1 5;
   CreateIndex (py "idx_n") nums (py "n"); find;
   Sql (CreateTableStmt (py "__idx__") [mkColumnDef (py "id") (py "INT")]); Sql (DropTableStmt (py "__idx__")); find].

Theorem reserved_table_name :
  ('(os, _) ← (s ← open_session (MVCC (∅ : gmap str str) 0 0); execute_all s reserved_script); Ok os) =
  Ok [Done 0; Done 1; Done 1; Rows (Some (py "idx_n")) [py "id"] [[py "1"]]; Done 0; Done 1; Rows (Some (py "idx_n")) [py "id"] []].
Proof. vm_compute. reflexivity. Qed.
